(* ===== verification/_CoqProject ===== *)
-Q . S2P
Prelude.v
PyDecimal.v
PyFloat.v
Models.v
StateMachine.v
Ledger.v
Submitter.v
RaftTypes.v
Storage.v
Transport.v
RaftNode.v
RaftSpec.v
RaftInv.v
RaftLogs.v
RaftActions.v
RaftAppend.v
RaftRefine.v
RaftHistory.v
Cluster.v
Demo.v
RaftProps.v
CommitProps.v
LedgerProps.v
NodeProps.v
Partitioner.v
Broker.v
Group.v
Consumer.v
Scorer.v
Worker.v
WorkerRun.v
WorkerSystem.v
StreamProps.v
RaftFrame.v
Progress.v
Exchange.v
Election.v
ProgressProps.v
Runtime.v
Lifecycle.v
RaftCluster.v
RaftTurn.v
ClusterProps.v
Harness.v
HarnessProps.v
Serialization.v
GrpcStub.v
Grpc.v
GrpcRefine.v
GrpcClient.v
Stubs.v
GrpcDemo.v
GrpcProps.v
FraudRuntime.v
Coordinator.v
Background.v
Verdicts.v
Chaos.v
Owned.v
Settlement.v
PyText.v
EntryPoint.v
Containers.v
ContainerProps.v
PipelineProps.v
Scripts.v
ScriptLogic.v
ScriptLedger.v
ScriptDemo.v
ScriptProps.v
BurstProps.v
