(* ===== verification/Prelude.v ===== *)
(** * Distributed transaction pipeline: verification development

    ** The program

    Transactions are produced to a partitioned log (src/streaming), scored by
    fraud workers that share a consumer group (src/fraud), handed over a
    bounded queue to a settlement submitter (src/settlement), and proposed to a
    Raft cluster (src/raft) whose replicated state machine is a ledger.  The
    coordinator (src/coordinator) runs the parts as threads of one process, or
    with the cluster in containers of their own over gRPC
    (src/coordinator/grpc, src/docker); the scripts of src/scripts demonstrate
    it.

    ** Conventions of the model

    A method is a function of the state monad [Py] below: it returns [Ok] or
    raises a Python exception, and keeps the effects done before the
    exception.  What a call reads of its environment (a clock reading, a draw of
    [random.uniform], an id or a timestamp) is an argument of it.  Floats are
    binary64 (PyFloat.v, over SpecFloat), decimals follow the context of
    Python's [decimal] module with 28 digits (PyDecimal.v), integers are
    unbounded, strings are strings of bytes.  A dict is a [gmap] where its order
    is not used and an association list where it is.  A method whose body runs
    under a lock is one step; code without a lock is split into its accesses to
    shared objects.

    ** Files and what they model

    Prelude.v: results, the monad with its notations and its weakest
    preconditions, lists with Python indices.  PyDecimal.v, PyFloat.v:
    arithmetic.

    Consensus.
    - RaftTypes.v (raft/types.py, messages of raft/transport.py), Storage.v
      (raft/storage.py), StateMachine.v (raft/state_machine.py: the interface as
      a class, its idempotence as a law), Transport.v (raft/transport.py: the
      interface as a class with the laws a proof may use, and
      [InMemoryTransport], which satisfies them).
    - RaftNode.v (raft/node.py): every method of [RaftNode], over any
      transport and any state machine.  RaftFrame.v: what the methods leave
      alone.
    - Cluster.v: the nodes of a cluster over one transport as a list of events
      (start, tick, delivery of any message in flight, proposal, crash-restart,
      fault of the network).
    - RaftSpec.v: an abstract protocol as a step relation over nodes and the set
      of messages ever sent.  RaftInv.v, RaftLogs.v, RaftActions.v,
      RaftAppend.v: its inductive invariant.  RaftHistory.v: properties of two
      points of a run.  RaftRefine.v: each method of RaftNode.v is a sequence of
      protocol steps.
    - Progress.v (what one node does with one message, and round trips of two
      nodes), Exchange.v (a leader and its followers until their logs agree),
      Election.v (pre-vote and vote, one peer at a time): schedules that reach
      their goal, for ProgressProps.v.
    - Demo.v: a concrete run for the witnesses.
    - Harness.v (raft/tests/harness.py): the simulated cluster of the tests.

    The running cluster.
    - Runtime.v (coordinator/raft_runtime.py): the calls of [RaftNodeRuntime]
      and one turn of its thread, with the loop of [deliver_to], whole and one
      message at a time.
    - Lifecycle.v: the life of a background thread, which four classes share:
      start, the stop event, the join with its timeout, and the loop, as a
      machine over any turn.  Background.v: the four instances, and what the
      loop of a fraud worker's thread achieves.
    - RaftCluster.v (coordinator/raft_cluster.py): start, stop, kill, revive, and
      the client's [find_leader], [propose] and [snapshot]; between any two
      accesses of the client the other threads may do anything ([others]).  A
      turn of a node's thread is an operation ([Turn]), and also the sequence of
      its tick and deliveries ([TurnTick], [TurnDeliver]) with operations of
      others between them ([turn_among]).  RaftTurn.v: when such a turn ends.
    - Serialization.v (coordinator/grpc/serialization.py, proto/raft.proto),
      GrpcStub.v (the stub, servicer, registration and static service of
      raft_pb2_grpc.py),
      Grpc.v (raft_transport.py, raft_service.py, node_bootstrap.py), GrpcClient.v
      (raft_cluster_client.py).  Stubs.v: the channels and stubs that both ends
      keep, under the workers of the pool.  The grpc, protobuf and pickle libraries are
      classes with their documented laws; each call has a fate: the request is
      lost, the response is lost, or both arrive.  GrpcRefine.v: a system of such
      nodes is a run of the same protocol.  GrpcDemo.v: concrete libraries and
      runs.

    Settlement.
    - Models.v (common/models.py), Ledger.v (ledger_state_machine.py, with a
      specification ledger over integers), Submitter.v (submitter.py, against
      the class [Proposer] that both cluster clients implement).

    The stream.
    - Partitioner.v (partitioner.py, with MD5), Broker.v (broker.py,
      producer.py), Group.v (group.py), Consumer.v (consumer.py), Scorer.v
      (fraud/scorer.py), Worker.v (fraud/worker.py, as written and one shared
      access at a time), WorkerRun.v (what [run_once] and a sequence of them
      achieve), WorkerSystem.v
      (any number of workers, producers, group calls and crashes interleaved).
    - FraudRuntime.v (coordinator/fraud_runtime.py).

    The whole.
    - Coordinator.v (coordinator/coordinator.py): the pipeline's threads and the
      coordinator's calls as events; a thread that was told to stop ends by an
      event of its own, and a revived worker may run beside its old thread.  Owned.v: [balance] and the Raft part of
      [status].  Verdicts.v: the verdicts on the output queue as an invariant of
      the coordinator.  Settlement.v: the coordinator over its own cluster.
      Chaos.v (chaos/fault_injection.py).

    The containers and the scripts.
    - PyText.v: [split], [strip], [partition], [int] and [Decimal] of Python on
      text.  EntryPoint.v (what docker/*_entrypoint.py read of their
      environment).  Containers.v ([main] of both, over Grpc.v and
      Coordinator.v, and the environments of docker-compose.yml).
    - Scripts.v ([main] of the three scripts, a program of the main thread over
      a coordinator with a cluster of its own; before each of its steps the
      other threads do [meanwhile]).  ScriptLogic.v: its rules, one per call of
      a script.  ScriptLedger.v: whole-dollar debits on the ledger.
      ScriptDemo.v: concrete runs.

    ** What the theorems show

    - RaftProps.v (C1 to C6, C10 to C12) and CommitProps.v (C7): the guarantees
      of the consensus in every run of events, the commit rule, and the ledger
      replicated with it.
    - ProgressProps.v (C8, C9): a leader with a live majority commits what is
      proposed, and a live majority without a leader elects one and commits.
    - PipelineProps.v (C13 to C16): what reaches the ledger through the whole
      pipeline and what cannot, where each transaction is, and what the
      submitter is handed.
    - ScriptProps.v (C17, C18) and BurstProps.v (C19): what the scripts promise,
      in every interleaving: no double-spend, each debit once across the death of
      a leader, and no large debit in any log.
    - ClusterProps.v (C20 to C22): the threads' interleavings are runs of events,
      a turn ends although others send to the node meanwhile, the contract of
      [propose].
    - Lifecycle.v (C23) and Background.v (C24): one thread at a time, stopping,
      and the work and heartbeats of a worker's thread.
    - HarnessProps.v (C25): every script of the test harness is a run of events,
      and its assertions cannot fail.
    - GrpcProps.v (C26, C27, C30) and Stubs.v (C29): the safety of RaftProps.v
      over gRPC, the client's contract, the round trips of the messages, and the
      channels.
    - ContainerProps.v (C28): what a raft container prints, line by line, and
      for how long.
    - StreamProps.v (C31 to C33, C38, C39): delivery, one cycle of a worker, a
      worker that empties its backlog, the group, the log, the scorer.
    - LedgerProps.v (C34 to C37): [apply] on every branch, exactly-once,
      conservation, and the submitter's turn.
    - NodeProps.v (C40): the log repair of a single node; its decisions.

    Theorems without a claim id in these files are further properties of the same
    kind, and concrete runs that show a defect: a pre-vote that deposes a
    stable leader, a cluster of one that never commits, an amount that makes
    [apply] raise, a race for the last place of the queue, a torn snapshot, a
    transaction counted as submitted and lost, a worker that dies of its
    eviction, sample traffic on accounts that were never seeded, a container
    that restarts without its vote, a thread that outlives its join, a channel
    that is never closed.

    ** Fuel

    [InMemoryTransport.deliver_to] takes one more than the messages in the inbox
    as fuel; that is enough when nobody else sends meanwhile (ClusterProps.v, and
    C25 for the harness), and C21 shows that some fuel is enough when others do,
    once they rest.  The
    polling loops of the two clients take a fuel, and C22 and C27 show that they
    end with a result of the code when the clock passes the deadline within the
    fuel; C17 to C19 show it of the scripts' own polls, when [fuel] steps of a
    clock take longer than the timeout, and C28 of the status loop of a
    container, when the signal comes within the fuel.  The bound of 1000 passes
    in Harness.v is the code's.  Everything else is structural.

    ** What is not modelled

    - The two seconds of a join: in RaftCluster.v and Coordinator.v [stop] and
      [kill] may return at any point of the turn the thread is in, as if the
      join had run out of time or the thread had ended.  After that the thread
      begins at most one more turn in Coordinator.v; in RaftCluster.v no [Turn]
      is begun, but the separate steps of turns are not limited, so that its
      theorems cover more than the code does.  C23 is about the join itself.
    - A turn of the submitter takes an item and handles it in one event of
      Coordinator.v; the cluster's threads act in between ([others]), the
      workers' threads before or after.
    - The sleeps between polls appear only as the clock readings around them.
    - A runtime handed out by [find_leader] is identified with its node id: a
      client that keeps it while the node is revived reaches the new one.
    - A call of the main thread of a script to the cluster is one step for the
      threads of the pipeline (the submitter shares the client with it); the
      threads of the nodes act between its accesses.
    - raft_pb2.py is a serialized descriptor without code of its own.  Imports,
      [sys.path] and the flushing of output are left out; a printed float keeps
      its value and its format instead of its digits.
    - The harness's quiescence within 1000 passes, and elections within the
      simulated time, depend on what [random] answers: they appear as the
      exceptions C25 allows.
    - Text is ASCII: [str.strip] knows the whitespace of ASCII, and [int] and
      [Decimal] its digits.  A NaN has no sign or payload. *)

From stdpp Require Import base gmap strings list sorting fin_sets.
From Stdlib Require Import ZArith Lia.

(** ** Python results: a value or a raised exception *)

Inductive exn : Type :=
| ValueError (msg : string)
| KeyError
| IndexError
| AssertionError
| TypeError
| TimeoutError (msg : string)
| NotImplementedError
| RuntimeError (msg : string)
| InvalidOperation
| DecimalOverflow
| OverflowError
| ZeroDivisionError
| QueueFull
| RpcError
(** Not an exception of the program: a loop of the model ran out of fuel. *)
| OutOfFuel.

Inductive res (A : Type) : Type :=
| Ok (a : A)
| Raise (e : exn).
Arguments Ok {A} a.
Arguments Raise {A} e.

Definition res_bind {A B} (m : res A) (k : A → res B) : res B :=
  match m with Ok a => k a | Raise e => Raise e end.

Definition res_is_ok {A} (m : res A) : bool :=
  match m with Ok _ => true | Raise _ => false end.

(** ** Stateful Python code: a state-passing computation that returns or
    raises; an exception keeps the effects done before it. *)

Definition Py (W A : Type) : Type := W → res A * W.

Section Py.
Context {W : Type}.

Definition ret {A} (a : A) : Py W A := λ w, (Ok a, w).

Definition bind {A B} (m : Py W A) (k : A → Py W B) : Py W B := λ w,
  match m w with
  | (Ok a, w') => k a w'
  | (Raise e, w') => (Raise e, w')
  end.

Definition raise {A} (e : exn) : Py W A := λ w, (Raise e, w).

Definition get {A} (f : W → A) : Py W A := λ w, (Ok (f w), w).

Definition modify (f : W → W) : Py W unit := λ w, (Ok tt, f w).

(** Runs a result computed without state. *)
Definition lift {A} (r : res A) : Py W A := λ w, (r, w).

Definition when (b : bool) (m : Py W unit) : Py W unit :=
  if b then m else ret tt.

(** [try: m except ...: h e], for the exceptions [h] handles. *)
Definition try_ {A} (m : Py W A) (h : exn → option (Py W A)) : Py W A := λ w,
  match m w with
  | (Raise e, w') => match h e with Some k => k w' | None => (Raise e, w') end
  | r => r
  end.

(** [try: m finally: cleanup]; an exception of [cleanup] replaces that of
    [m]. *)
Definition try_finally {A} (m : Py W A) (cleanup : Py W unit) : Py W A := λ w,
  let '(r, w1) := m w in
  match cleanup w1 with
  | (Ok _, w2) => (r, w2)
  | (Raise e, w2) => (Raise e, w2)
  end.

(** Runs a computation of a part of the state. *)
Definition zoom {S A} (getter : W → S) (setter : S → W → W) (m : Py S A) : Py W A :=
  λ w, let '(r, s) := m (getter w) in (r, setter s w).

Fixpoint for_each {A} (f : A → Py W unit) (l : list A) : Py W unit :=
  match l with
  | [] => ret tt
  | x :: l' => bind (f x) (λ _, for_each f l')
  end.

(** Total-correctness weakest precondition: the computation returns, and the
    postcondition holds of its value and final state. *)
Definition wp {A} (m : Py W A) (Q : A → W → Prop) (w : W) : Prop :=
  match m w with
  | (Ok a, w') => Q a w'
  | (Raise _, _) => False
  end.

End Py.

Declare Scope py_scope.
Delimit Scope py_scope with py.
Notation "x <- m ;; k" := (bind m (λ x, k))
  (at level 100, m at next level, right associativity, only parsing) : py_scope.
Notation "m ;;; k" := (bind m (λ _, k))
  (at level 100, right associativity, only parsing) : py_scope.
Notation "x <-? m ;; k" := (res_bind m (λ x, k))
  (at level 100, m at next level, right associativity, only parsing) : py_scope.

(** ** Rules of the weakest precondition *)

Create HintDb py.

Section wp_rules.
Context {W : Type}.
Implicit Types w : W.

Lemma wp_ret {A} (a : A) (Q : A → W → Prop) w : Q a w → wp (ret a) Q w.
Proof. done. Qed.

Lemma wp_bind {A B} (m : Py W A) (k : A → Py W B) (Q : B → W → Prop) w :
  wp m (λ a w', wp (k a) Q w') w ↔ wp (bind m k) Q w.
Proof. unfold wp, bind. destruct (m w) as [[a|e] w']; done. Qed.

Lemma wp_mono {A} (m : Py W A) (Q Q' : A → W → Prop) w :
  wp m Q w → (∀ a w', Q a w' → Q' a w') → wp m Q' w.
Proof. unfold wp. destruct (m w) as [[a|e] w']; naive_solver. Qed.

Lemma wp_get {A} (f : W → A) (Q : A → W → Prop) w : Q (f w) w → wp (get f) Q w.
Proof. done. Qed.

Lemma wp_modify (f : W → W) (Q : unit → W → Prop) w : Q tt (f w) → wp (modify f) Q w.
Proof. done. Qed.

Lemma wp_when (b : bool) (m : Py W unit) (Q : unit → W → Prop) w :
  (b = true → wp m Q w) → (b = false → Q tt w) → wp (when b m) Q w.
Proof. destruct b; simpl; intros H1 H2; [by apply H1 | by apply H2]. Qed.

(** Invariant rule of a Python [for] loop. *)
Lemma wp_for_each {A} (f : A → Py W unit) (l : list A) (I : W → Prop) w :
  (∀ x v, x ∈ l → I v → wp (f x) (λ _, I) v) → I w → wp (for_each f l) (λ _, I) w.
Proof.
  revert w. induction l as [|x l IH]; intros w Hf HI; simpl; [done|].
  apply wp_bind. eapply wp_mono; [apply Hf; [left|done]|].
  intros [] w' HI'. apply IH; [|done]. intros y v Hy. apply Hf. by right.
Qed.

Lemma wp_inv {A} (m : Py W A) (Q : A → W → Prop) w :
  wp m Q w → ∃ a w', m w = (Ok a, w') ∧ Q a w'.
Proof. unfold wp. destruct (m w) as [[a|e] w']; naive_solver. Qed.

Lemma bind_ok {A B} (m : Py W A) (k : A → Py W B) w b w' :
  bind m k w = (Ok b, w') → ∃ a w1, m w = (Ok a, w1) ∧ k a w1 = (Ok b, w').
Proof. unfold bind. destruct (m w) as [[a|e] w1]; [eauto|done]. Qed.

End wp_rules.
#[export] Hint Resolve wp_ret wp_get wp_modify : py.

(** Symbolic execution of straight-line code. *)
Ltac py_step :=
  lazymatch goal with
  | |- wp (bind _ _) _ _ => apply (proj1 (wp_bind _ _ _ _))
  | |- wp (get _) _ _ => apply wp_get
  | |- wp (modify _) _ _ => apply wp_modify
  | |- wp (ret _) _ _ => apply wp_ret
  end; cbn beta zeta.
Ltac py_run := repeat py_step.

(** ** Prefixes of lists indexed by integers

    Raft indices are Python integers, 1-based; [pfx i l] is [l[:i]] for a
    non-negative [i], the entries with index at most [i]. *)

Definition zlen {A} (l : list A) : Z := Z.of_nat (length l).
Definition pfx {A} (i : Z) (l : list A) : list A := take (Z.to_nat i) l.
(** Python's [l[i:]] for a non-negative [i]. *)
Definition sfx {A} (i : Z) (l : list A) : list A := drop (Z.to_nat i) l.

Section pfx.
Context {A : Type}.
Implicit Types l : list A.

Lemma zlen_nonneg l : (0 ≤ zlen l)%Z.
Proof. unfold zlen. lia. Qed.

Lemma zlen_app l1 l2 : zlen (l1 ++ l2) = (zlen l1 + zlen l2)%Z.
Proof. unfold zlen. rewrite length_app. lia. Qed.

Lemma zlen_pfx i l : (0 ≤ i ≤ zlen l)%Z → zlen (pfx i l) = i.
Proof. unfold zlen, pfx. rewrite length_take. lia. Qed.

Lemma zlen_pfx_le i l : (zlen (pfx i l) ≤ zlen l)%Z.
Proof. unfold zlen, pfx. rewrite length_take. lia. Qed.

Lemma zlen_sfx i l : (0 ≤ i ≤ zlen l)%Z → zlen (sfx i l) = (zlen l - i)%Z.
Proof. unfold zlen, sfx. rewrite length_drop. lia. Qed.

Lemma pfx_pfx i j l : (i ≤ j)%Z → pfx i (pfx j l) = pfx i l.
Proof. intros. unfold pfx. rewrite take_take. f_equal. lia. Qed.

Lemma pfx_all i l : (zlen l ≤ i)%Z → pfx i l = l.
Proof. unfold zlen, pfx. intros. apply take_ge. lia. Qed.

Lemma pfx_nonpos i l : (i ≤ 0)%Z → pfx i l = [].
Proof. intros. unfold pfx. replace (Z.to_nat i) with 0 by lia. done. Qed.

Lemma pfx_sfx i l : pfx i l ++ sfx i l = l.
Proof. apply take_drop. Qed.

Lemma pfx_app_le i l1 l2 : (i ≤ zlen l1)%Z → pfx i (l1 ++ l2) = pfx i l1.
Proof. unfold zlen, pfx. intros. apply take_app_le. lia. Qed.

(** Agreement on a prefix implies agreement on every shorter one. *)
Lemma pfx_agree_le i j l1 l2 : (i ≤ j)%Z → pfx j l1 = pfx j l2 → pfx i l1 = pfx i l2.
Proof. intros ? H. by rewrite <- (pfx_pfx i j l1), <- (pfx_pfx i j l2), H. Qed.

Lemma pfx_agree_len i l1 l2 : (i ≤ zlen l2)%Z → pfx i l1 = pfx i l2 → (i ≤ zlen l1)%Z.
Proof.
  intros Hi H. apply (f_equal length) in H. unfold pfx, zlen in *.
  rewrite !length_take in H. lia.
Qed.

Lemma pfx_prefix i l1 l2 : l1 `prefix_of` l2 → (i ≤ zlen l1)%Z → pfx i l2 = pfx i l1.
Proof. intros [k ->] ?. by apply pfx_app_le. Qed.

Lemma pfx_prefix_of i l : pfx i l `prefix_of` l.
Proof. exists (sfx i l). symmetry. apply pfx_sfx. Qed.
End pfx.
#[export] Hint Resolve zlen_nonneg : py.

(** What is left of a list after one element is removed. *)
Lemma elem_of_deleted {A} (k : nat) (l : list A) (x : A) : x ∈ delete k l → x ∈ l.
Proof.
  rewrite delete_take_drop, elem_of_app.
  intros [Hx|Hx]; [by apply (subseteq_take k l)|by apply (subseteq_drop (S k) l)].
Qed.

Lemma zlen_cons {A} (x : A) (l : list A) : zlen (x :: l) = (1 + zlen l)%Z.
Proof. unfold zlen. simpl. lia. Qed.

(** Python's slice [l[a:b]], negative indices counted from the end. *)
Definition slice {A} (a b : Z) (l : list A) : list A :=
  let clamp i := if (i <? 0)%Z then Z.max 0 (i + zlen l) else Z.min i (zlen l) in
  sfx (clamp a) (pfx (clamp b) l).

Lemma slice_lookup {A} (a n : Z) (l : list A) (j : nat) :
  (0 ≤ a)%Z → (0 ≤ n)%Z → slice a (a + n) l !! j = if decide (Z.of_nat j < n)%Z then l !! (Z.to_nat a + j) else None.
Proof.
  intros Ha Hn. unfold slice. cbv zeta. rewrite (proj2 (Z.ltb_ge a 0)), (proj2 (Z.ltb_ge (a + n) 0)) by lia.
  unfold sfx, pfx, zlen. rewrite lookup_drop.
  destruct (Z.le_gt_cases a (Z.of_nat (length l))).
  - replace (Z.to_nat (Z.min a (Z.of_nat (length l)))) with (Z.to_nat a) by lia. case_decide.
    + destruct (decide (Z.to_nat a + j < length l)).
      * apply lookup_take_lt. lia.
      * rewrite (lookup_ge_None_2 l) by lia. apply lookup_ge_None_2. rewrite length_take. lia.
    + apply lookup_ge_None_2. rewrite length_take. lia.
  - rewrite (lookup_ge_None_2 l (Z.to_nat a + j)) by lia.
    rewrite lookup_ge_None_2 by (rewrite length_take; lia). by case_decide.
Qed.

Lemma slice_app {A} (a n : Z) (l k : list A) :
  (0 ≤ a)%Z → (0 ≤ n)%Z → (a + n ≤ zlen l)%Z → slice a (a + n) (l ++ k) = slice a (a + n) l.
Proof.
  intros Ha Hn Hl. apply list_eq. intros j. rewrite !slice_lookup by done. case_decide; [|done].
  apply lookup_app_l. unfold zlen in *. lia.
Qed.

Lemma slice_last {A} (l : list A) x n : (0 < n)%Z → slice (zlen l) (zlen l + n) (l ++ [x]) = [x].
Proof.
  intros Hn. apply list_eq. intros j. rewrite slice_lookup by (unfold zlen; lia).
  unfold zlen. rewrite Nat2Z.id. rewrite lookup_app_r by lia.
  replace (length l + j - length l) with j by lia. case_decide; [done|]. destruct j; [lia|done].
Qed.

(** ** Filtering *)

Lemma filter_all {A} (P : A → Prop) `{∀ x, Decision (P x)} (l : list A) : (∀ x, x ∈ l → P x) → filter P l = l.
Proof.
  induction l as [|x l IH]; intros HP; [done|]. rewrite filter_cons, decide_True by (apply HP; by left).
  f_equal. apply IH. intros y Hy. apply HP. by right.
Qed.

Lemma filter_ext_in {A} (P Q : A → Prop) `{∀ x, Decision (P x)} `{∀ x, Decision (Q x)} (l : list A) :
  (∀ x, x ∈ l → P x ↔ Q x) → filter P l = filter Q l.
Proof.
  induction l as [|x l IH]; intros HPQ; [done|]. rewrite !filter_cons, IH by (intros y Hy; apply HPQ; by right).
  pose proof (HPQ x (list_elem_of_here x l)). repeat case_decide; naive_solver.
Qed.

Lemma nodup_fst_inj {A B} (l : list (A * B)) x y : NoDup l.*1 → x ∈ l → y ∈ l → x.1 = y.1 → x = y.
Proof.
  induction l as [|z l IH]; [by intros _ ?%not_elem_of_nil|]. rewrite fmap_cons. intros [Hz Hn]%NoDup_cons.
  intros [->|Hx]%elem_of_cons [->|Hy]%elem_of_cons E; [done| | |by apply IH].
  - destruct Hz. rewrite E. by apply list_elem_of_fmap_2.
  - destruct Hz. rewrite <- E. by apply list_elem_of_fmap_2.
Qed.

(** ** Sorting, as Python's [sorted] *)

Section isort.
Context {A : Type} (leb : A → A → bool).

Fixpoint insert_sorted (x : A) (l : list A) : list A :=
  match l with
  | [] => [x]
  | y :: l' => if leb x y then x :: y :: l' else y :: insert_sorted x l'
  end.

Fixpoint isort (l : list A) : list A :=
  match l with
  | [] => []
  | x :: l' => insert_sorted x (isort l')
  end.

Lemma insert_sorted_perm x l : insert_sorted x l ≡ₚ x :: l.
Proof.
  induction l as [|y l IH]; simpl; [done|]. destruct (leb x y); [done|].
  rewrite IH. apply Permutation_swap.
Qed.

Lemma isort_perm l : isort l ≡ₚ l.
Proof. induction l as [|x l IH]; simpl; [done|]. by rewrite insert_sorted_perm, IH. Qed.

Hypothesis leb_total : ∀ x y, leb x y = true ∨ leb y x = true.
Hypothesis leb_trans : ∀ x y z, leb x y = true → leb y z = true → leb x z = true.

Lemma insert_sorted_sorted x l :
  StronglySorted leb l → StronglySorted leb (insert_sorted x l).
Proof.
  induction 1 as [|y l Hs IH Hy]; simpl; [repeat constructor|].
  destruct (leb x y) eqn:E.
  - constructor; [by constructor|]. constructor; [by rewrite E|].
    eapply Forall_impl; [exact Hy|]. simpl. intros z Hz.
    apply Is_true_true. apply leb_trans with y; [done|by apply Is_true_true].
  - constructor; [done|]. rewrite insert_sorted_perm. constructor; [|done].
    destruct (leb_total x y) as [?|Hyx]; [congruence|by rewrite Hyx].
Qed.

Lemma isort_sorted l : StronglySorted leb (isort l).
Proof. induction l; simpl; [constructor|]. by apply insert_sorted_sorted. Qed.
End isort.
