(* ===== verification/PyDecimal.v ===== *)
(** * Python's [decimal.Decimal] under the default context

    The ledger, the transaction amounts and the fraud thresholds are
    [Decimal]s.  A finite decimal is [coef * 10^exp] (Python's sign/digits
    pair; the sign of a zero is not represented); infinities and the quiet
    NaN are kept because [Transaction] does not exclude them.  Arithmetic
    rounds as the default context does: 28 digits, half-even, [Emax] 999999,
    [Emin] -999999; overflow and invalid operations raise. *)

From stdpp Require Import base list.
From Stdlib Require Import ZArith Lia.
From S2P Require Import Prelude.

Local Open Scope Z_scope.

Inductive Decimal : Type :=
| DFin (coef exp : Z)
| DInf (neg : bool)
| DNaN.

#[export] Instance Decimal_eq_dec : EqDecision Decimal.
Proof. solve_decision. Defined.

Module Dec.

Definition prec : Z := 28.
Definition Emax : Z := 999999.
Definition Emin : Z := -999999.
Definition Etiny : Z := Emin - prec + 1.
Definition Etop : Z := Emax - prec + 1.

(** Number of decimal digits of a non-negative integer ([len(str(n))]). *)
Fixpoint ndigits_fuel (fuel : nat) (n : Z) : Z :=
  match fuel with
  | O => 1
  | S f => if n <? 10 then 1 else 1 + ndigits_fuel f (n / 10)
  end.
Definition ndigits (n : Z) : Z := ndigits_fuel (Z.to_nat (Z.log2 n)) n.

(** [c / p] rounded to the nearest integer, ties to even ([c >= 0], [p > 0]). *)
Definition div_half_even (c p : Z) : Z :=
  let q := c / p in
  let r := c mod p in
  if 2 * r <? p then q
  else if p <? 2 * r then q + 1
  else if Z.even q then q else q + 1.

(** [Decimal._fix]: round a finite result to the context. *)
Definition fix_ (c e : Z) : res Decimal :=
  if c =? 0 then Ok (DFin 0 (Z.min (Z.max e Etiny) Emax))
  else
    let exp_min0 := ndigits (Z.abs c) + e - prec in
    if Etop <? exp_min0 then Raise DecimalOverflow
    else
      let exp_min := Z.max exp_min0 Etiny in
      if e <? exp_min then
        let coeff := div_half_even (Z.abs c) (10 ^ (exp_min - e)) in
        let '(coeff, exp_min) :=
          if prec <? ndigits coeff then (coeff / 10, exp_min + 1) else (coeff, exp_min) in
        if Etop <? exp_min then Raise DecimalOverflow
        else Ok (DFin (Z.sgn c * coeff) exp_min)
      else Ok (DFin c e).

(** [a + b] *)
Definition add (a b : Decimal) : res Decimal :=
  match a, b with
  | DNaN, _ | _, DNaN => Ok DNaN
  | DInf s1, DInf s2 => if Bool.eqb s1 s2 then Ok (DInf s1) else Raise InvalidOperation
  | DInf s, _ | _, DInf s => Ok (DInf s)
  | DFin c1 e1, DFin c2 e2 =>
      let e := Z.min e1 e2 in
      fix_ (c1 * 10 ^ (e1 - e) + c2 * 10 ^ (e2 - e)) e
  end.

(** [-a], which rounds to the context as well *)
Definition neg (a : Decimal) : res Decimal :=
  match a with
  | DFin c e => fix_ (- c) e
  | DInf s => Ok (DInf (negb s))
  | DNaN => Ok DNaN
  end.

(** Order of two non-NaN decimals. *)
Definition cmp (a b : Decimal) : comparison :=
  match a, b with
  | DFin c1 e1, DFin c2 e2 =>
      let e := Z.min e1 e2 in
      Z.compare (c1 * 10 ^ (e1 - e)) (c2 * 10 ^ (e2 - e))
  | DInf s1, DInf s2 => if Bool.eqb s1 s2 then Eq else if s1 then Lt else Gt
  | DInf s, _ => if s then Lt else Gt
  | _, DInf s => if s then Gt else Lt
  | DNaN, _ | _, DNaN => Eq
  end.

Definition is_nan (a : Decimal) : bool := match a with DNaN => true | _ => false end.

(** Ordering comparisons signal on a NaN; equality answers [False]. *)
Definition ordered (a b : Decimal) (test : comparison → bool) : res bool :=
  if is_nan a || is_nan b then Raise InvalidOperation else Ok (test (cmp a b)).
Definition lt (a b : Decimal) : res bool :=
  ordered a b (λ c, match c with Lt => true | _ => false end).
Definition le (a b : Decimal) : res bool :=
  ordered a b (λ c, match c with Gt => false | _ => true end).
Definition ge (a b : Decimal) : res bool := le b a.
Definition eqb (a b : Decimal) : bool :=
  negb (is_nan a || is_nan b) && match cmp a b with Eq => true | _ => false end.

Definition of_Z (n : Z) : Decimal := DFin n 0.
Definition zero : Decimal := of_Z 0.

(** A finite decimal counted in units of [10^e], for [e] at most its exponent. *)
Definition units (e : Z) (d : Decimal) : Z :=
  match d with DFin c x => c * 10 ^ (x - e) | _ => 0 end.

(** A finite decimal that is a multiple of [10^e] and whose exponent is inside
    the context. *)
Definition fits (e : Z) (d : Decimal) : Prop :=
  match d with DFin _ x => e ≤ x ≤ Etop | _ => False end.

Definition is_finite (d : Decimal) : bool := match d with DFin _ _ => true | _ => false end.

(** A finite decimal that is not negative, as the sign test of the code. *)
Definition nonneg (d : Decimal) : Prop :=
  match d with DFin c _ => 0 ≤ c | DInf s => s = false | DNaN => False end.

Lemma pow10_pos n : 0 ≤ n → 0 < 10 ^ n.
Proof. intros. apply Z.pow_pos_nonneg; lia. Qed.

Lemma ndigits_fuel_spec fuel n :
  0 ≤ n → n < 2 ^ (Z.of_nat fuel + 1) →
  1 ≤ ndigits_fuel fuel n ∧ n < 10 ^ ndigits_fuel fuel n
  ∧ (0 < n → 10 ^ (ndigits_fuel fuel n - 1) ≤ n).
Proof.
  revert n. induction fuel as [|f IH]; intros n Hn Hlt; simpl.
  { change (2 ^ (Z.of_nat 0 + 1)) with 2 in Hlt.
    change (10 ^ 1) with 10. change (10 ^ (1 - 1)) with 1. lia. }
  destruct (Z.ltb_spec n 10) as [H10|H10].
  { change (10 ^ 1) with 10. change (10 ^ (1 - 1)) with 1. lia. }
  assert (Hq : 0 ≤ n / 10) by (apply Z.div_pos; lia).
  assert (Hq' : 0 < n / 10) by (apply Z.div_str_pos; lia).
  assert (Hb : n / 10 < 2 ^ (Z.of_nat f + 1)).
  { rewrite Nat2Z.inj_succ in Hlt. replace (Z.succ (Z.of_nat f) + 1) with (Z.of_nat f + 1 + 1) in Hlt by lia.
    rewrite Z.pow_add_r in Hlt by lia. change (2 ^ 1) with 2 in Hlt.
    apply Z.div_lt_upper_bound; lia. }
  destruct (IH _ Hq Hb) as (H1 & H2 & H3). specialize (H3 Hq').
  set (d := ndigits_fuel f (n / 10)) in *.
  split; [lia|]. split.
  - replace (1 + d) with (d + 1) by lia. rewrite Z.pow_add_r by lia. change (10 ^ 1) with 10.
    pose proof (Z.div_mod n 10 ltac:(lia)). pose proof (Z.mod_pos_bound n 10 ltac:(lia)). lia.
  - intros _. replace (1 + d - 1) with (d - 1 + 1) by lia. rewrite Z.pow_add_r by lia.
    change (10 ^ 1) with 10.
    pose proof (Z.div_mod n 10 ltac:(lia)). pose proof (Z.mod_pos_bound n 10 ltac:(lia)). lia.
Qed.

(** [ndigits n] is the length of the decimal writing of [n]. *)
Lemma ndigits_spec n :
  0 ≤ n → 1 ≤ ndigits n ∧ n < 10 ^ ndigits n ∧ (0 < n → 10 ^ (ndigits n - 1) ≤ n).
Proof.
  intros Hn. apply ndigits_fuel_spec; [done|].
  rewrite Z2Nat.id by apply Z.log2_nonneg.
  destruct (Z.eq_dec n 0) as [->|]; [done|].
  apply Z.log2_spec. lia.
Qed.

Lemma ndigits_le n k : 0 < n → n < 10 ^ k → 0 ≤ k → ndigits n ≤ k.
Proof.
  intros Hn Hk Hk0. destruct (ndigits_spec n ltac:(lia)) as (H1 & _ & H3).
  specialize (H3 Hn).
  assert (Hlt : 10 ^ (ndigits n - 1) < 10 ^ k) by lia.
  apply Z.pow_lt_mono_r_iff in Hlt; lia.
Qed.

Lemma div_half_even_nonneg c p : 0 ≤ c → 0 < p → 0 ≤ div_half_even c p.
Proof.
  intros. unfold div_half_even. assert (0 ≤ c / p) by (apply Z.div_pos; lia).
  repeat case_match; lia.
Qed.

(** A result of at most 28 digits whose exponent is in range is not rounded. *)
Lemma fix_exact c e :
  Z.abs c < 10 ^ prec → Etiny ≤ e ≤ Etop → fix_ c e = Ok (DFin c e).
Proof.
  intros Hc He. unfold fix_. unfold Etiny, Etop, Emin, Emax, prec in *.
  destruct (Z.eqb_spec c 0) as [->|Hne].
  { repeat f_equal. lia. }
  pose proof (ndigits_le (Z.abs c) 28 ltac:(lia) Hc ltac:(lia)) as Hd.
  destruct (Z.ltb_spec (999999 - 28 + 1) (ndigits (Z.abs c) + e - 28)); [lia|].
  cbv zeta. rewrite (proj2 (Z.ltb_ge _ _)); [done|]. lia.
Qed.

(** Negation of a value inside the context is exact. *)
Lemma neg_exact c x : Z.abs c < 10 ^ prec → Etiny ≤ x ≤ Etop → neg (DFin c x) = Ok (DFin (- c) x).
Proof. intros Hc Hx. simpl. apply fix_exact; [by rewrite Z.abs_opp|done]. Qed.

Lemma sgn_mul_nonneg c q : 0 ≤ c → 0 ≤ q → 0 ≤ Z.sgn c * q.
Proof. intros. apply Z.mul_nonneg_nonneg; lia. Qed.

(** Rounding to the context returns a finite decimal and keeps the sign. *)
Lemma fix_sign c e d :
  fix_ c e = Ok d → is_finite d = true ∧ (0 ≤ c → nonneg d).
Proof.
  unfold fix_. destruct (Z.eqb_spec c 0) as [->|Hne].
  { intros [= <-]. simpl. split; [done|lia]. }
  cbv zeta.
  destruct (Etop <? _); [done|].
  destruct (Z.ltb_spec e (Z.max (ndigits (Z.abs c) + e - prec) Etiny)) as [Hlt|];
    [|intros [= <-]; simpl; split; [done|lia]].
  set (em := Z.max _ _) in *.
  pose proof (div_half_even_nonneg (Z.abs c) (10 ^ (em - e)) ltac:(lia)
    ltac:(apply pow10_pos; lia)) as Hq.
  set (q := div_half_even _ _) in *.
  destruct (prec <? ndigits q).
  - destruct (Etop <? em + 1); [done|]. intros [= <-]. simpl. split; [done|].
    intros. apply sgn_mul_nonneg; [done|]. apply Z.div_pos; lia.
  - destruct (Etop <? em); [done|]. intros [= <-]. simpl. split; [done|].
    intros. by apply sgn_mul_nonneg.
Qed.

Lemma scale_split c x m e :
  e ≤ m ≤ x → c * 10 ^ (x - m) * 10 ^ (m - e) = c * 10 ^ (x - e).
Proof.
  intros. rewrite <- Z.mul_assoc, <- Z.pow_add_r by lia. do 2 f_equal. lia.
Qed.

(** Addition is exact on decimals that are multiples of [10^e] while the sum
    has at most 28 digits in that unit. *)
Lemma add_exact e a b :
  Etiny ≤ e → fits e a → fits e b → Z.abs (units e a + units e b) < 10 ^ prec →
  ∃ d, add a b = Ok d ∧ fits e d ∧ units e d = units e a + units e b.
Proof.
  intros He Ha Hb Hu.
  destruct a as [c1 x1| |], b as [c2 x2| |]; simpl in Ha, Hb; try done.
  simpl. simpl in Hu. set (m := Z.min x1 x2).
  set (s := c1 * 10 ^ (x1 - m) + c2 * 10 ^ (x2 - m)).
  assert (Hs : s * 10 ^ (m - e) = c1 * 10 ^ (x1 - e) + c2 * 10 ^ (x2 - e)).
  { unfold s. rewrite Z.mul_add_distr_r, !scale_split by lia. done. }
  assert (Hpos : 0 < 10 ^ (m - e)) by (apply pow10_pos; lia).
  assert (Hsm : Z.abs s < 10 ^ prec).
  { assert (Z.abs s * 1 ≤ Z.abs s * 10 ^ (m - e)) by (apply Z.mul_le_mono_nonneg_l; lia).
    rewrite <- Hs, Z.abs_mul, (Z.abs_eq (10 ^ (m - e))) in Hu by lia. lia. }
  exists (DFin s m). split; [apply fix_exact; [done|lia]|]. simpl. split; [lia|done].
Qed.

Lemma ltb_mul_pos c p : 0 < p → (c * p <? 0) = (c <? 0).
Proof.
  intros. destruct (Z.ltb_spec c 0), (Z.ltb_spec (c * p) 0); try done; exfalso.
  - pose proof (Z.mul_neg_pos c p). lia.
  - pose proof (Z.mul_nonneg_nonneg c p). lia.
Qed.

(** The sign test [d < 0] on a finite decimal. *)
Lemma lt_zero_fin c x : lt (DFin c x) zero = Ok (c <? 0).
Proof.
  unfold lt, ordered, zero, of_Z, cmp. simpl.
  change (Ok (c * 10 ^ (x - Z.min x 0) <? 0) = Ok (c <? 0)).
  rewrite ltb_mul_pos; [done|]. apply pow10_pos. lia.
Qed.

(** [not (d < 0)] is [nonneg d]. *)
Lemma lt_zero_nonneg d : lt d zero = Ok false → nonneg d.
Proof.
  destruct d as [c x|[]|]; [|done..].
  rewrite lt_zero_fin. intros [= H]. by apply Z.ltb_ge in H.
Qed.

Lemma lt_zero_units e d :
  fits e d → lt d zero = Ok (units e d <? 0).
Proof.
  destruct d as [c x| |]; simpl; [|done..]. intros Hx. rewrite lt_zero_fin, ltb_mul_pos; [done|].
  apply pow10_pos. lia.
Qed.

End Dec.
