(* ===== verification/PyFloat.v ===== *)
(** * Python floats

    IEEE-754 binary64 on the Standard Library's executable specification
    [SpecFloat]: the clock values, timeouts and fraud weights of the program.
    No property of real numbers is assumed; comparisons with a NaN are false,
    as in Python. *)

From stdpp Require Import base tactics.
From Stdlib Require Import ZArith SpecFloat.
From S2P Require Import Prelude.

Abbreviation float := spec_float.

Module F.

Definition add : float → float → float := SFadd 53 1024.
Definition sub : float → float → float := SFsub 53 1024.
Definition mul : float → float → float := SFmul 53 1024.
Definition div : float → float → float := SFdiv 53 1024.
Definition lt : float → float → bool := SFltb.
Definition le : float → float → bool := SFleb.
(** Python evaluates [a > b] and [a >= b] as the flipped comparisons. *)
Definition gt (a b : float) : bool := SFltb b a.
Definition ge (a b : float) : bool := SFleb b a.

(** [float(n)] *)
Definition of_Z (n : Z) : float := binary_normalize 53 1024 n 0 false.
(** The literal [n * 10^-k], correctly rounded for [n, 10^k < 2^53]. *)
Definition lit (n : Z) (k : Z) : float := div (of_Z n) (of_Z (10 ^ k)).
Definition zero : float := S754_zero false.
Definition inf : float := S754_infinity false.
Definition neg_inf : float := S754_infinity true.

(** [min(a, b)]: the first argument unless the second is smaller. *)
Definition min (a b : float) : float := if lt b a then b else a.
(** [max(a, b)]: the first argument unless the second is larger. *)
Definition max (a b : float) : float := if gt b a then b else a.

Lemma gt_lt a b : gt a b = lt b a.
Proof. done. Qed.

Example lit_half : lit 5 1 = S754_finite false 4503599627370496 (-53).
Proof. reflexivity. Qed.
Example lit_06 : lit 6 1 = S754_finite false 5404319552844595 (-53).
Proof. reflexivity. Qed.

End F.
