(* ===== verification/Models.v ===== *)
(** * Domain models (common/models.py)

    The value classes that flow through the pipeline, with their
    [__post_init__] validation: a smart constructor per class that returns the
    object or the exception the constructor raises.  Identifiers and
    timestamps produced by [new_id] and [utc_now] are arguments. *)

From stdpp Require Import base gmap strings.
From Stdlib Require Import ZArith.
From S2P Require Import Prelude PyDecimal PyFloat.

Local Open Scope Z_scope.

(** A timezone-aware [datetime], in microseconds since the epoch. *)
Abbreviation datetime := Z (only parsing).

Inductive TransactionType := DEBIT | CREDIT | TRANSFER.
Inductive TransactionStatus := PENDING | SCORING | FRAUD_FLAGGED | CLEARED | SETTLED | REJECTED.

#[export] Instance TransactionType_eq_dec : EqDecision TransactionType.
Proof. solve_decision. Defined.
#[export] Instance TransactionStatus_eq_dec : EqDecision TransactionStatus.
Proof. solve_decision. Defined.

Record Transaction := mkTransaction {
  tx_account_id : string;
  tx_type : TransactionType;
  tx_amount : Decimal;
  tx_counterparty : option string;
  tx_currency : string;
  tx_region : string;
  tx_status : TransactionStatus;
  tx_id : string;
  tx_created_at : datetime;
  tx_metadata : gmap string string
}.

(** Python truth value of an optional string. *)
Definition truthy (s : option string) : bool :=
  match s with None | Some "" => false | Some _ => true end.

(** [Transaction.__post_init__] *)
Definition Transaction_post_init (t : Transaction) : res Transaction :=
  if String.eqb (tx_account_id t) "" then Raise (ValueError "account_id must not be empty")
  else
    res_bind (Dec.le (tx_amount t) Dec.zero) (λ nonpos : bool,
    if nonpos then
      Raise (ValueError "amount must be positive; direction is carried by transaction_type")
    else if bool_decide (tx_type t = TRANSFER) && negb (truthy (tx_counterparty t)) then
      Raise (ValueError "TRANSFER transactions require a counterparty_account_id")
    else Ok t).

(** [Transaction.partition_key] *)
Definition partition_key (t : Transaction) : string := tx_account_id t.

(** A formatted string: the literal pieces and the interpolated values of an
    f-string, before they are rendered. *)
Inductive fpart := FLit (s : string) | FStr (s : string) | FInt (n : Z) | FDec (d : Decimal) | FFloat (f : float)
| FFormat (spec : string) (f : float).
Abbreviation fstring := (list fpart).

Record FraudScore := mkFraudScore {
  fs_transaction_id : string;
  fs_worker_id : string;
  fs_score : float;
  fs_is_fraud : bool;
  fs_reasons : list fstring;
  fs_scored_at : datetime
}.

(** [FraudScore.__post_init__] *)
Definition FraudScore_post_init (s : FraudScore) : res FraudScore :=
  if F.le F.zero (fs_score s) && F.le (fs_score s) (F.lit 1 0) then Ok s
  else Raise (ValueError "score must be between 0.0 and 1.0").

Record ScoredTransaction := mkScored {
  st_transaction : Transaction;
  st_score : FraudScore
}.

Record Account := mkAccount {
  acc_account_id : string;
  acc_balance : Decimal;
  acc_region : string
}.

(** [Account.__post_init__] *)
Definition Account_post_init (a : Account) : res Account :=
  if String.eqb (acc_account_id a) "" then Raise (ValueError "account_id must not be empty") else Ok a.

Record LedgerEntry := mkLedgerEntry {
  le_transaction_id : string;
  le_account_id : string;
  le_delta : Decimal;
  le_entry_id : string;
  le_created_at : datetime
}.

#[export] Instance LedgerEntry_eq_dec : EqDecision LedgerEntry.
Proof. solve_decision. Defined.

(** [LedgerEntry.__post_init__]: the entry id defaults to the transaction id. *)
Definition LedgerEntry_post_init (e : LedgerEntry) : res LedgerEntry :=
  let e' :=
    if String.eqb (le_entry_id e) "" then
      mkLedgerEntry (le_transaction_id e) (le_account_id e) (le_delta e)
        (le_transaction_id e) (le_created_at e)
    else e in
  if Dec.eqb (le_delta e') Dec.zero then Raise (ValueError "delta must be non-zero") else Ok e'.
