(* ===== verification/StateMachine.v ===== *)
(** * The state machine interface (raft/state_machine.py)

    [StateMachine] is the protocol Raft applies committed commands through.
    [IdempotentSM] states what the module's docstring demands of every
    implementation: applying a command again, at any later time, changes
    nothing.  The replay theorem needed after a crash (a node restarts with
    [commit_index] and [last_applied] at zero over the same state machine) is
    proved once against this interface; [RecordingStateMachine] and the ledger
    are its instances. *)

From stdpp Require Import base gmap list.
From S2P Require Import Prelude.

(** [StateMachine.apply]; Raft ignores the returned value. *)
Class StateMachine (C S : Type) := sm_apply : C → Py S unit.

Section run.
Context {C S : Type} `{StateMachine C S}.

(** Applies the commands in order, stopping at the first exception. *)
Definition sm_run (l : list C) : Py S unit := for_each sm_apply l.

(** The state reached by a sequence of [apply] calls, whether each returned
    or raised. *)
Definition sm_effects (l : list C) (s : S) : S := foldl (λ s c, (sm_apply c s).2) s l.

(** One step of [sm_run], with the monad unfolded. *)
Lemma sm_run_cons c l s :
  sm_run (c :: l) s =
    match sm_apply c s with (Ok _, s1) => sm_run l s1 | (Raise e, s1) => (Raise e, s1) end.
Proof. done. Qed.

Lemma sm_effects_app l1 l2 s : sm_effects (l1 ++ l2) s = sm_effects l2 (sm_effects l1 s).
Proof. apply foldl_app. Qed.

Lemma sm_run_effects l s s' : sm_run l s = (Ok tt, s') → sm_effects l s = s'.
Proof.
  revert s. induction l as [|c l IH]; intros s; [by intros [= ->]|].
  rewrite sm_run_cons. destruct (sm_apply c s) as [[[]|e] s1] eqn:E; [|done].
  intros Hr. unfold sm_effects. simpl. rewrite E. by apply IH.
Qed.

Lemma sm_run_app l1 l2 s s' :
  sm_run (l1 ++ l2) s = (Ok tt, s') ↔ ∃ s1, sm_run l1 s = (Ok tt, s1) ∧ sm_run l2 s1 = (Ok tt, s').
Proof.
  revert s. induction l1 as [|c l1 IH]; intros s; simpl app.
  { split; [by eexists|]. intros (s1 & [= ->] & ?). done. }
  setoid_rewrite sm_run_cons. destruct (sm_apply c s) as [[[]|e] s1]; [apply IH|].
  split; [done|]. by intros (? & ? & ?).
Qed.
End run.

(** A second contract: from the states [fine] allows, an allowed command
    never raises and leaves such a state. *)
Class TotalSM {C S : Type} `{StateMachine C S} (allowed : C → Prop) (fine : S → Prop) :=
  total_apply c s : allowed c → fine s → ∃ s', sm_apply c s = (Ok tt, s') ∧ fine s'.

Lemma effects_fine {C S} `{StateMachine C S} (allowed : C → Prop) (fine : S → Prop) `{!TotalSM allowed fine} l s :
  Forall allowed l → fine s → fine (sm_effects l s).
Proof.
  intros Hl. revert s. induction Hl as [|c l Hc Hl IH]; intros s Hs; [done|].
  unfold sm_effects. simpl. destruct (total_apply c s Hc Hs) as (s' & -> & Hs'). by apply IH.
Qed.

Lemma total_run {C S} `{StateMachine C S} (allowed : C → Prop) (fine : S → Prop) `{!TotalSM allowed fine} l s :
  Forall allowed l → fine s → ∃ s', sm_run l s = (Ok tt, s').
Proof.
  intros Hl. revert s. induction Hl as [|c l Hc Hl IH]; intros s Hs; [by exists s|].
  rewrite sm_run_cons. destruct (total_apply c s Hc Hs) as (s1 & -> & Hs1). by apply IH.
Qed.

(** The contract: [sm_done c s] says that [c] has been applied. *)
Class IdempotentSM (C S : Type) `{StateMachine C S} := {
  sm_done : C → S → Prop;
  sm_apply_done c s s' : sm_apply c s = (Ok tt, s') → sm_done c s';
  sm_done_mono c c' s s' : sm_done c s → sm_apply c' s = (Ok tt, s') → sm_done c s';
  sm_done_noop c s : sm_done c s → sm_apply c s = (Ok tt, s)
}.

Section replay.
Context {C S : Type} `{IdempotentSM C S}.
Implicit Types (l : list C) (s : S).

Lemma sm_run_done_mono l c s s' : sm_done c s → sm_run l s = (Ok tt, s') → sm_done c s'.
Proof.
  revert s. induction l as [|c' l IH]; intros s Hd; [by intros [= <-]|].
  rewrite sm_run_cons. destruct (sm_apply c' s) as [[[]|e] s1] eqn:E; [|done].
  apply IH. eapply sm_done_mono; eauto.
Qed.

Lemma sm_run_all_done l s s' : sm_run l s = (Ok tt, s') → Forall (λ c, sm_done c s') l.
Proof.
  revert s. induction l as [|c l IH]; intros s; [by constructor|].
  rewrite sm_run_cons. destruct (sm_apply c s) as [[[]|e] s1] eqn:E; [|done].
  intros Hr. constructor; [|by eapply IH].
  eapply sm_run_done_mono; [|done]. by eapply sm_apply_done.
Qed.

Lemma sm_run_noop l s : Forall (λ c, sm_done c s) l → sm_run l s = (Ok tt, s).
Proof.
  induction 1 as [|c l Hc Hl IH]; [done|].
  rewrite sm_run_cons. by rewrite (sm_done_noop c s Hc).
Qed.

(** Replaying any part of an already applied history changes nothing. *)
Lemma sm_run_replay l p s s' :
  sm_run l s = (Ok tt, s') → p ⊆ l → sm_run p s' = (Ok tt, s').
Proof.
  intros Hr Hp. apply sm_run_noop. apply sm_run_all_done in Hr.
  rewrite Forall_forall in *. intros c Hc. apply Hr, Hp, Hc.
Qed.

(** After a restart the log is replayed from index 1: the state reached by
    applying [l], then a longer log [l ++ l'] from the start, is the state of
    applying [l ++ l'] once. *)
Lemma sm_run_restart l l' s s1 s2 :
  sm_run l s = (Ok tt, s1) → sm_run (l ++ l') s1 = (Ok tt, s2) →
  sm_run (l ++ l') s = (Ok tt, s2).
Proof.
  intros H1 H2. apply sm_run_app in H2 as (s1' & Ha & Hb).
  rewrite (sm_run_replay l l s s1) in Ha by done. simplify_eq.
  apply sm_run_app. eauto.
Qed.

(** Any sequence of replays of prefixes of [l] reaches the state of the
    longest of them. *)
Lemma sm_run_prefixes l ps s0 s :
  sm_run l s0 = (Ok tt, s) → Forall (λ p, p `prefix_of` l) ps →
  ∃ m s', m `prefix_of` l ∧ sm_run m s0 = (Ok tt, s') ∧ sm_run (concat ps) s0 = (Ok tt, s') ∧
    Forall (λ p, p `prefix_of` m) ps.
Proof.
  intros Hl. induction ps as [|q ps IH] using rev_ind; intros Hps.
  { exists [], s0. split_and!; [apply prefix_nil|done|done|done]. }
  apply Forall_app in Hps as [Hps Hq]. apply Forall_cons_1 in Hq as [Hq _].
  destruct (IH Hps) as (m & s1 & Hm & Hrm & Hrc & Hall).
  rewrite concat_app. simpl. rewrite (right_id_L [] (++)).
  destruct (prefix_weak_total m q l Hm Hq) as [Hmq|Hqm].
  - pose proof Hq as [r Er]. rewrite Er in Hl. apply sm_run_app in Hl as (s2 & Hs2 & _).
    exists q, s2. split_and!; [done|done| |].
    + apply sm_run_app. exists s1. split; [done|]. destruct Hmq as [r' ->].
      apply sm_run_app in Hs2 as (s1' & Hs1' & Hr').
      rewrite Hrm in Hs1'. injection Hs1' as <-.
      apply sm_run_app. exists s1. split; [|done]. by apply (sm_run_replay m m s0).
    + apply Forall_app. split; [|by constructor]. eapply Forall_impl; [exact Hall|].
      intros p Hp. by transitivity m.
  - exists m, s1. split_and!; [done|done| |].
    + apply sm_run_app. exists s1. split; [done|]. apply (sm_run_replay m q s0); [done|].
      destruct Hqm as [r ->]. set_solver.
    + apply Forall_app. split; [done|by constructor].
Qed.

Lemma sm_run_replays l ps s0 s :
  sm_run l s0 = (Ok tt, s) → Forall (λ p, p `prefix_of` l) ps → l ∈ ps →
  sm_run (concat ps) s0 = (Ok tt, s).
Proof.
  intros Hl Hps Hin. destruct (sm_run_prefixes l ps s0 s Hl Hps) as (m & s' & Hm & Hrm & -> & Hall).
  rewrite Forall_forall in Hall. specialize (Hall l Hin).
  rewrite (prefix_length_eq l m) in Hl; [congruence|done|by apply prefix_length].
Qed.
End replay.

(** [RecordingStateMachine]: keeps each distinct command, keyed by its
    identity ([entry_id] when the command has one). *)
Module Recording.
Section recording.
Context {C K : Type} `{Countable K} (key : C → K).

Record RecordingStateMachine := mkRSM { applied : list C; applied_ids : gset K }.

Definition init : RecordingStateMachine := mkRSM [] ∅.

Definition apply (command : C) : Py RecordingStateMachine (option C) :=
  (ids <- get applied_ids ;;
   if decide (key command ∈ ids) then ret None
   else
     modify (λ w, mkRSM (applied w) (applied_ids w ∪ {[key command]})) ;;;
     modify (λ w, mkRSM (applied w ++ [command]) (applied_ids w)) ;;;
     ret (Some command))%py.

#[global] Instance recording_sm : StateMachine C RecordingStateMachine :=
  λ c, bind (apply c) (λ _, ret tt).

Lemma apply_eq c w :
  sm_apply c w =
    (Ok tt, if decide (key c ∈ applied_ids w) then w
            else mkRSM (applied w ++ [c]) (applied_ids w ∪ {[key c]})).
Proof. unfold sm_apply, recording_sm, apply, bind, get. by case_decide. Qed.

#[global] Instance recording_total : TotalSM (S := RecordingStateMachine) (λ _ : C, True) (λ _, True).
Proof. intros c w _ _. rewrite apply_eq. eauto. Qed.

#[global] Program Instance recording_idempotent : IdempotentSM C RecordingStateMachine := {
  sm_done c w := key c ∈ applied_ids w
}.
Next Obligation.
  intros c w w'. rewrite apply_eq. intros [= <-]. case_decide; [done|]. simpl. set_solver.
Qed.
Next Obligation.
  intros c c' w w' Hd. rewrite apply_eq. intros [= <-]. case_decide; [done|]. simpl. set_solver.
Qed.
Next Obligation. intros c w Hd. rewrite apply_eq. by rewrite decide_True. Qed.
End recording.
End Recording.
