(* ===== verification/Ledger.v ===== *)
(** * The ledger state machine (settlement/ledger_state_machine.py)

    [Ledger.apply] is the code's [apply], result caching included.  An
    integer-valued specification ledger ([SpecLedger]) states what settlement
    promises; the refinement theorem relates the two while the amounts stay
    within the precision of the decimal context. *)

From stdpp Require Import base gmap strings list functions fin_sets fin_maps fin_map_dom.
From Stdlib Require Import ZArith Lia.
From S2P Require Import Prelude PyDecimal PyFloat Models StateMachine.

Local Open Scope Z_scope.

Module Ledger.

Record ApplyResult := mkApplyResult {
  ar_entry_id : string;
  ar_accepted : bool;
  ar_resulting_balance : Decimal;
  ar_reason : fstring
}.

Record LedgerStateMachine := mkLSM {
  balances : gmap string Decimal;
  results : gmap string ApplyResult
}.

(** [__init__] *)
Definition init (initial_balances : gmap string Decimal) : LedgerStateMachine :=
  mkLSM initial_balances ∅.

(** [self._balances.get(account_id, Decimal("0"))] *)
Definition balance (account_id : string) (w : LedgerStateMachine) : Decimal :=
  default Dec.zero (balances w !! account_id).

Definition set_balance (account_id : string) (b : Decimal) (w : LedgerStateMachine) : LedgerStateMachine :=
  mkLSM (<[account_id := b]> (balances w)) (results w).
Definition set_result (entry_id : string) (r : ApplyResult) (w : LedgerStateMachine) : LedgerStateMachine :=
  mkLSM (balances w) (<[entry_id := r]> (results w)).

Definition insufficient (current delta : Decimal) : fstring :=
  [FLit "insufficient funds: balance "; FDec current; FLit " + delta "; FDec delta; FLit " < 0"].

Definition apply (command : LedgerEntry) : Py LedgerStateMachine ApplyResult :=
  (cached <- get (λ w, results w !! le_entry_id command) ;;
   match cached with
   | Some r => ret r
   | None =>
       current <- get (balance (le_account_id command)) ;;
       new_balance <- lift (Dec.add current (le_delta command)) ;;
       negative <- lift (Dec.lt new_balance Dec.zero) ;;
       result <-
         (if (negative : bool) then
            ret (mkApplyResult (le_entry_id command) false current
                   (insufficient current (le_delta command)))
          else
            modify (set_balance (le_account_id command) new_balance) ;;;
            ret (mkApplyResult (le_entry_id command) true new_balance [])) ;;
       modify (set_result (le_entry_id command) result) ;;;
       ret result
   end)%py.

#[global] Instance ledger_sm : StateMachine LedgerEntry LedgerStateMachine :=
  λ c, bind (apply c) (λ _, ret tt).

(** ** The specification ledger: integer balances, one outcome per entry id *)

Record SpecLedger := mkSpec { sl_balance : string → Z; sl_outcome : gmap string bool }.

Definition spec_init (b : string → Z) : SpecLedger := mkSpec b ∅.

Definition spec_apply (id account : string) (delta : Z) (s : SpecLedger) : SpecLedger :=
  match sl_outcome s !! id with
  | Some _ => s
  | None =>
      if sl_balance s account + delta <? 0 then mkSpec (sl_balance s) (<[id := false]> (sl_outcome s))
      else mkSpec (<[account := sl_balance s account + delta]> (sl_balance s)) (<[id := true]> (sl_outcome s))
  end.

Section spec.
(** Amounts are counted in units of [10^e] (cents for [e = -2]). *)
Variable e : Z.

Definition spec_run (l : list LedgerEntry) (s : SpecLedger) : SpecLedger :=
  foldl (λ s c, spec_apply (le_entry_id c) (le_account_id c) (Dec.units e (le_delta c)) s) s l.

(** What the entries of [l] move on [account]: each entry id counts once, and
    only if it was accepted. *)
Fixpoint settled (account : string) (l : list LedgerEntry) (s : SpecLedger) : Z :=
  match l with
  | [] => 0
  | c :: l' =>
      let d := Dec.units e (le_delta c) in
      let s' := spec_apply (le_entry_id c) (le_account_id c) d s in
      (if bool_decide (sl_outcome s !! le_entry_id c = None ∧ sl_outcome s' !! le_entry_id c = Some true
                       ∧ le_account_id c = account) then d else 0)
      + settled account l' s'
  end.
End spec.

(** ** Execution lemmas *)

(** The four ways [apply] ends. *)
Lemma apply_cases c w :
  (∃ r, results w !! le_entry_id c = Some r ∧ apply c w = (Ok r, w))
  ∨ results w !! le_entry_id c = None ∧
    ((∃ x, apply c w = (Raise x, w))
     ∨ ∃ nb, Dec.add (balance (le_account_id c) w) (le_delta c) = Ok nb ∧
       (Dec.lt nb Dec.zero = Ok true ∧
          (let r := mkApplyResult (le_entry_id c) false (balance (le_account_id c) w)
                      (insufficient (balance (le_account_id c) w) (le_delta c)) in
           apply c w = (Ok r, set_result (le_entry_id c) r w))
        ∨ Dec.lt nb Dec.zero = Ok false ∧
          (let r := mkApplyResult (le_entry_id c) true nb [] in
           apply c w = (Ok r, set_result (le_entry_id c) r (set_balance (le_account_id c) nb w))))).
Proof.
  unfold apply, bind, get, lift, modify, ret.
  destruct (results w !! le_entry_id c) as [r|] eqn:Hr; [by left; eauto|].
  right. split; [done|].
  destruct (Dec.add _ _) as [nb|x] eqn:Hadd; [|by left; eauto].
  destruct (Dec.lt nb Dec.zero) as [[]|x] eqn:Hlt; [..|by left; eauto]; right; exists nb.
  - split; [done|]. left. done.
  - split; [done|]. right. done.
Qed.

(** Once an entry id has a result, it keeps it. *)
Lemma apply_results_mono c w id r :
  results w !! id = Some r → results (apply c w).2 !! id = Some r.
Proof.
  intros Hid. destruct (apply_cases c w) as [(r' & Hr & ->)|(Hn & [(x & ->)|(nb & Ha & [[_ Hs]|[_ Hs]])])];
    simpl; try done; cbv zeta in Hs; rewrite Hs; simpl; rewrite lookup_insert_ne; congruence.
Qed.

Lemma apply_recorded c w r w' :
  apply c w = (Ok r, w') → results w' !! le_entry_id c = Some r.
Proof.
  intros H. destruct (apply_cases c w) as [(r' & Hr & Hs)|(Hn & [(x & Hs)|(nb & Ha & [[_ Hs]|[_ Hs]])])];
    cbv zeta in Hs; rewrite Hs in H; simplify_eq; try done; simpl; by rewrite lookup_insert_eq.
Qed.

Lemma sm_apply_eq c w :
  sm_apply c w = (match (apply c w).1 with Ok _ => Ok tt | Raise x => Raise x end, (apply c w).2).
Proof. unfold sm_apply, ledger_sm, bind. by destruct (apply c w) as [[]]. Qed.

#[global] Program Instance ledger_idempotent : IdempotentSM LedgerEntry LedgerStateMachine := {
  sm_done c w := is_Some (results w !! le_entry_id c)
}.
Next Obligation.
  intros c w w'. rewrite sm_apply_eq. destruct (apply c w) as [[r|x] w1] eqn:E; [|done].
  intros [= <-]. exists r. by eapply apply_recorded.
Qed.
Next Obligation.
  intros c c' w w' [r Hr]. rewrite sm_apply_eq.
  pose proof (apply_results_mono c' w _ _ Hr) as Hm.
  destruct (apply c' w) as [[|] w1]; [|done]. intros [= <-]. by exists r.
Qed.
Next Obligation.
  intros c w [r Hr]. rewrite sm_apply_eq. unfold apply, bind, get. by rewrite Hr.
Qed.

(** ** The balance invariant *)

Definition solvent (w : LedgerStateMachine) : Prop := ∀ a, Dec.nonneg (balance a w).

Lemma balance_set_balance a a' b w :
  balance a (set_balance a' b w) = if decide (a = a') then b else balance a w.
Proof.
  unfold balance, set_balance. simpl. case_decide; simplify_map_eq; done.
Qed.

Lemma balance_set_result a id r w : balance a (set_result id r w) = balance a w.
Proof. done. Qed.

(** The effect of [apply] on balances, whether it returns or raises. *)
Lemma apply_balance c w a :
  balance a (apply c w).2 = balance a w
  ∨ a = le_account_id c ∧ Dec.nonneg (balance a (apply c w).2).
Proof.
  destruct (apply_cases c w) as [(r' & Hr & ->)|(Hn & [(x & ->)|(nb & Ha & [[_ Hs]|[Hlt Hs]])])];
    try by left.
  - cbv zeta in Hs. rewrite Hs. by left.
  - cbv zeta in Hs. rewrite Hs. simpl. rewrite balance_set_result, balance_set_balance.
    case_decide; [|by left]. right. split; [done|]. by apply Dec.lt_zero_nonneg.
Qed.

Lemma apply_solvent c w : solvent w → solvent (apply c w).2.
Proof.
  intros Hw a. destruct (apply_balance c w a) as [->|[_ ?]]; [apply Hw|done].
Qed.

Lemma effects_solvent l w : solvent w → solvent (sm_effects l w).
Proof.
  revert w. induction l as [|c l IH]; intros w Hw; [done|].
  unfold sm_effects. simpl. apply IH. rewrite sm_apply_eq. by apply apply_solvent.
Qed.

(** ** Refinement of the specification ledger *)

Section refinement.
Variable e : Z.
Hypothesis He : Dec.Etiny ≤ e ≤ 0.

(** [w] implements [s]: every balance is a multiple of the unit with the
    specification's value, and the recorded outcomes agree. *)
Definition implements (w : LedgerStateMachine) (s : SpecLedger) : Prop :=
  (∀ a, Dec.fits e (balance a w) ∧ Dec.units e (balance a w) = sl_balance s a)
  ∧ (∀ id, ar_accepted <$> results w !! id = sl_outcome s !! id).

(** One application returns and implements the specification's step. *)
Lemma apply_implements c w s :
  implements w s → Dec.fits e (le_delta c) →
  Z.abs (sl_balance s (le_account_id c) + Dec.units e (le_delta c)) < 10 ^ Dec.prec →
  ∃ r w', apply c w = (Ok r, w')
    ∧ implements w' (spec_apply (le_entry_id c) (le_account_id c) (Dec.units e (le_delta c)) s)
    ∧ sl_outcome (spec_apply (le_entry_id c) (le_account_id c) (Dec.units e (le_delta c)) s)
        !! le_entry_id c = Some (ar_accepted r).
Proof.
  intros [Hb Ho] Hd Hu. set (a := le_account_id c) in *. destruct (Hb a) as [Hfa Hua].
  pose proof (Ho (le_entry_id c)) as Hid.
  destruct (Dec.add_exact e _ _ (proj1 He) Hfa Hd ltac:(by rewrite Hua))
    as (nb & Hadd & Hfn & Hun).
  pose proof (Dec.lt_zero_units e nb Hfn) as Hlt. rewrite Hun, Hua in Hlt.
  unfold spec_apply, apply, bind, get, lift, modify, ret. fold a.
  destruct (results w !! le_entry_id c) as [r|] eqn:Hr; simpl in Hid; rewrite <- Hid.
  { exists r, w. split_and!; [done|by split|done]. }
  rewrite Hadd, Hlt.
  destruct (sl_balance s a + Dec.units e (le_delta c) <? 0); eexists _, _; (split; [done|]); simpl;
    (split; [|by rewrite lookup_insert_eq]); split; simpl.
  - done.
  - intros id. destruct (decide (id = le_entry_id c)) as [->|]; simplify_map_eq; done.
  - intros a'. rewrite balance_set_result, balance_set_balance. case_decide as Heq.
    + subst a'. rewrite fn_lookup_insert, Hun, Hua. done.
    + rewrite fn_lookup_insert_ne by done. apply Hb.
  - intros id. destruct (decide (id = le_entry_id c)) as [->|]; simplify_map_eq; done.
Qed.

(** The largest balance the specification can reach grows by at most the
    largest amount per entry, and accepted entries keep it non-negative. *)
Lemma spec_apply_bounds id a d D B s :
  0 ≤ D → Z.abs d ≤ D → (∀ a', 0 ≤ sl_balance s a' ≤ B) →
  ∀ a', 0 ≤ sl_balance (spec_apply id a d s) a' ≤ B + D.
Proof.
  intros HD Hd Hs a'. pose proof (Hs a) as Ha. pose proof (Hs a') as Ha'.
  unfold spec_apply. repeat case_match; simpl; [lia|lia|].
  destruct (decide (a' = a)) as [->|]; [rewrite fn_lookup_insert; lia|].
  rewrite fn_lookup_insert_ne by done. lia.
Qed.

Lemma run_implements D l : ∀ B w s,
  implements w s →
  0 ≤ D →
  (∀ a, 0 ≤ sl_balance s a ≤ B) →
  Forall (λ c, Dec.fits e (le_delta c) ∧ Z.abs (Dec.units e (le_delta c)) ≤ D) l →
  B + (zlen l + 1) * D < 10 ^ Dec.prec →
  ∃ w', sm_run l w = (Ok tt, w') ∧ implements w' (spec_run e l s).
Proof.
  induction l as [|c l IH]; intros B w s Hi HD Hs Hl HB; [by exists w|].
  apply Forall_cons_1 in Hl as [[Hf Hc] Hl].
  assert (Hz : zlen (c :: l) = zlen l + 1) by (unfold zlen; simpl; lia). rewrite Hz in HB.
  pose proof (zlen_nonneg l).
  destruct (apply_implements c w s Hi Hf) as (r & w1 & Hap & Hi1 & _).
  { specialize (Hs (le_account_id c)). nia. }
  destruct (IH (B + D) w1 _ Hi1 HD (spec_apply_bounds (le_entry_id c) (le_account_id c) _ D B s HD Hc Hs) Hl)
    as (w' & Hr & Hi'); [nia|].
  exists w'. split; [|done]. rewrite sm_run_cons, sm_apply_eq, Hap. done.
Qed.

Lemma spec_run_cons c l s :
  spec_run e (c :: l) s =
    spec_run e l (spec_apply (le_entry_id c) (le_account_id c) (Dec.units e (le_delta c)) s).
Proof. done. Qed.

(** A specification balance is the initial balance plus what was settled. *)
Lemma spec_run_settled account l s :
  sl_balance (spec_run e l s) account = sl_balance s account + settled e account l s.
Proof.
  revert s. induction l as [|c l IH]; intros s; [simpl; lia|].
  rewrite spec_run_cons, IH. simpl.
  set (d := Dec.units e (le_delta c)). set (s' := spec_apply _ _ d s).
  enough (sl_balance s' account =
    sl_balance s account +
      (if bool_decide (sl_outcome s !! le_entry_id c = None ∧ sl_outcome s' !! le_entry_id c = Some true
         ∧ le_account_id c = account) then d else 0)) by lia.
  unfold s', spec_apply. destruct (sl_outcome s !! le_entry_id c) eqn:E.
  { rewrite bool_decide_false by naive_solver. lia. }
  destruct (Z.ltb_spec (sl_balance s (le_account_id c) + d) 0); simpl; rewrite lookup_insert_eq.
  { rewrite bool_decide_false by naive_solver. lia. }
  destruct (decide (le_account_id c = account)) as [<-|].
  - rewrite bool_decide_true by done. rewrite fn_lookup_insert. lia.
  - rewrite bool_decide_false by naive_solver. rewrite fn_lookup_insert_ne by done. lia.
Qed.

(** ** A ledger that never raises

    When the entries are bounded multiples of the unit and their ids come from
    a finite set, no balance leaves the precision of the context: each id moves
    money at most once. *)
Variables (D B : Z) (X : gset string).
Hypothesis HD : 0 ≤ D.
Hypothesis HB : B + (Z.of_nat (size X) + 1) * D < 10 ^ Dec.prec.

Definition settleable (c : LedgerEntry) : Prop :=
  (Dec.fits e (le_delta c) ∧ Z.abs (Dec.units e (le_delta c)) ≤ D) ∧ le_entry_id c ∈ X.

Definition within (w : LedgerStateMachine) : Prop :=
  ∃ s, implements w s ∧ dom (sl_outcome s) ⊆ X ∧
    ∀ a, 0 ≤ sl_balance s a ≤ B + Z.of_nat (size (dom (sl_outcome s))) * D.

Lemma ledger_total : TotalSM settleable within.
Proof.
  intros c w [[Hf Hd] Hid] (s & Hi & HX & Hb).
  pose proof (subseteq_size _ _ HX) as Hsz.
  assert (HsD : Z.of_nat (size (dom (sl_outcome s))) * D ≤ Z.of_nat (size X) * D) by (apply Z.mul_le_mono_nonneg_r; lia).
  destruct (apply_implements c w s Hi Hf) as (r & w' & Hap & Hi' & _); [specialize (Hb (le_account_id c)); lia|].
  exists w'. split; [by rewrite sm_apply_eq, Hap|]. eexists. split; [exact Hi'|]. unfold spec_apply.
  destruct (sl_outcome s !! le_entry_id c) as [o|] eqn:Eo; [by split|].
  assert (Hnew : size (dom (<[le_entry_id c := true]> (sl_outcome s))) = Datatypes.S (size (dom (sl_outcome s)))
    ∧ size (dom (<[le_entry_id c := false]> (sl_outcome s))) = Datatypes.S (size (dom (sl_outcome s)))).
  { by rewrite !size_dom, !map_size_insert_None. }
  destruct Hnew as [Hn1 Hn2].
  destruct (Z.ltb_spec (sl_balance s (le_account_id c) + Dec.units e (le_delta c)) 0); simpl; rewrite ?Hn1, ?Hn2;
    (split; [rewrite dom_insert; set_solver|]); intros a; specialize (Hb a) as Hba; [lia|].
  destruct (decide (a = le_account_id c)) as [->|]; [rewrite fn_lookup_insert|rewrite fn_lookup_insert_ne by done]; lia.
Qed.
End refinement.

End Ledger.
