(* ===== verification/Submitter.v ===== *)
(** * The settlement submitter (settlement/submitter.py)

    Takes scored transactions off the fraud output queue and proposes a ledger
    entry for each cleared one.  The Raft cluster it proposes to is the
    interface [Proposer]; everything the submitter knows of it is whether
    [propose] returned or raised. *)

From stdpp Require Import base gmap strings list.
From Stdlib Require Import ZArith Lia.
From S2P Require Import Prelude PyDecimal PyFloat Models StateMachine Ledger.

Local Open Scope Z_scope.

(** [RaftCluster.propose(command, timeout)]; the returned log entry is not used. *)
Class Proposer (P : Type) := cluster_propose : LedgerEntry → float → Py P unit.

Module Submitter.

Definition delta_for (transaction : Transaction) : res Decimal :=
  if bool_decide (tx_type transaction = CREDIT) then Ok (tx_amount transaction)
  else Dec.neg (tx_amount transaction).

(** The attributes that change or are read by the loop; the queue and the
    cluster are shared objects of the world below. *)
Record SettlementSubmitter := mkSubmitter {
  propose_timeout : float;
  submitted_count : Z;
  fraud_flagged_count : Z;
  failed_transaction_ids : list string
}.

(** [__init__] *)
Definition init (timeout : float) : SettlementSubmitter := mkSubmitter timeout 0 0 [].

Definition count_submitted (s : SettlementSubmitter) : SettlementSubmitter :=
  mkSubmitter (propose_timeout s) (submitted_count s + 1) (fraud_flagged_count s) (failed_transaction_ids s).
Definition count_flagged (s : SettlementSubmitter) : SettlementSubmitter :=
  mkSubmitter (propose_timeout s) (submitted_count s) (fraud_flagged_count s + 1) (failed_transaction_ids s).
Definition add_failed (id : string) (s : SettlementSubmitter) : SettlementSubmitter :=
  mkSubmitter (propose_timeout s) (submitted_count s) (fraud_flagged_count s) (failed_transaction_ids s ++ [id]).

(** [LedgerEntry(transaction_id=..., account_id=..., delta=delta_for(...))];
    [now] is the default [created_at]. *)
Definition entry_for (transaction : Transaction) (now : datetime) : res LedgerEntry :=
  res_bind (delta_for transaction) (λ delta,
    LedgerEntry_post_init (mkLedgerEntry (tx_id transaction) (tx_account_id transaction) delta "" now)).

Section submitter.
Context {P : Type} `{Proposer P}.

Record World := mkWorld {
  submitter : SettlementSubmitter;
  input_queue : list ScoredTransaction;
  cluster : P
}.

Definition on_submitter (f : SettlementSubmitter → SettlementSubmitter) : Py World unit :=
  modify (λ w, mkWorld (f (submitter w)) (input_queue w) (cluster w)).
Definition propose (entry : LedgerEntry) (timeout : float) : Py World unit :=
  zoom cluster (λ c w, mkWorld (submitter w) (input_queue w) c) (cluster_propose entry timeout).

(** [_handle] *)
Definition handle (scored : ScoredTransaction) (now : datetime) : Py World unit :=
  if fs_is_fraud (st_score scored) then on_submitter count_flagged
  else
    (entry <- lift (entry_for (st_transaction scored) now) ;;
     timeout <- get (λ w, propose_timeout (submitter w)) ;;
     try_ (propose entry timeout ;;; on_submitter count_submitted)
       (λ e, match e with
             | TimeoutError _ => Some (on_submitter (add_failed (tx_id (st_transaction scored))))
             | _ => None
             end))%py.

(** [_run]: each turn of the loop takes one item if there is one; an escaping
    exception ends the thread.  The clock gives the [created_at] of the turn. *)
Fixpoint run (turns : list datetime) : Py World unit :=
  match turns with
  | [] => ret tt
  | now :: turns =>
      (queue <- get input_queue ;;
       match queue with
       | [] => run turns
       | scored :: rest =>
           modify (λ w, mkWorld (submitter w) rest (cluster w)) ;;;
           handle scored now ;;;
           run turns
       end)%py
  end.

(** ** What was handled *)

Definition handled (s : SettlementSubmitter) : Z :=
  submitted_count s + fraud_flagged_count s + zlen (failed_transaction_ids s).

Lemma handle_flagged scored now w :
  fs_is_fraud (st_score scored) = true →
  handle scored now w = (Ok tt, mkWorld (count_flagged (submitter w)) (input_queue w) (cluster w)).
Proof. intros Hf. unfold handle. by rewrite Hf. Qed.

(** The outcome for a cleared transaction, from the outcome of [propose]. *)
Lemma handle_cleared scored now w entry :
  fs_is_fraud (st_score scored) = false → entry_for (st_transaction scored) now = Ok entry →
  let '(r, c) := cluster_propose entry (propose_timeout (submitter w)) (cluster w) in
  handle scored now w =
    match r with
    | Ok _ => (Ok tt, mkWorld (count_submitted (submitter w)) (input_queue w) c)
    | Raise (TimeoutError _) =>
        (Ok tt, mkWorld (add_failed (tx_id (st_transaction scored)) (submitter w)) (input_queue w) c)
    | Raise e => (Raise e, mkWorld (submitter w) (input_queue w) c)
    end.
Proof.
  intros Hf He. unfold handle, propose, zoom, bind, lift, try_, get. rewrite Hf, He.
  destruct (cluster_propose _ _ _) as [[[]|[]] c]; done.
Qed.

(** A turn that does not raise accounts for its item exactly once. *)
Lemma handle_accounts scored now w w' :
  handle scored now w = (Ok tt, w') →
  handled (submitter w') = handled (submitter w) + 1 ∧ input_queue w' = input_queue w.
Proof.
  destruct (fs_is_fraud (st_score scored)) eqn:Hf.
  { rewrite handle_flagged by done. intros [= <-]. unfold handled. simpl. split; [lia|done]. }
  destruct (entry_for (st_transaction scored) now) as [entry|x] eqn:He.
  - pose proof (handle_cleared scored now w entry Hf He) as Hc.
    destruct (cluster_propose _ _ _) as [r c]. rewrite Hc.
    destruct r as [|[]]; intros [= <-]; unfold handled; simpl; rewrite ?zlen_app; split; try done;
      try (change (zlen [_]) with 1); lia.
  - unfold handle, bind, lift. rewrite Hf, He. done.
Qed.

(** A turn that raises has counted nothing. *)
Lemma handle_raises scored now w e w' :
  handle scored now w = (Raise e, w') → submitter w' = submitter w ∧ input_queue w' = input_queue w.
Proof.
  destruct (fs_is_fraud (st_score scored)) eqn:Hf; [by rewrite handle_flagged by done|].
  destruct (entry_for (st_transaction scored) now) as [entry|x] eqn:He.
  - pose proof (handle_cleared scored now w entry Hf He) as Hc.
    destruct (cluster_propose _ _ _) as [r c]. rewrite Hc. by destruct r as [|[]]; intros [= <- <-].
  - unfold handle, bind, lift. rewrite Hf, He. by intros [= <- <-].
Qed.

Lemma run_accounts turns : ∀ w w',
  run turns w = (Ok tt, w') →
  ∃ done, input_queue w = done ++ input_queue w' ∧
    handled (submitter w') = handled (submitter w) + zlen done.
Proof.
  induction turns as [|now turns IH]; intros w w'; simpl.
  { intros [= <-]. exists []. split; [done|]. unfold zlen. simpl. lia. }
  unfold bind at 1, get. destruct (input_queue w) as [|scored rest] eqn:Hq.
  { intros Hr. destruct (IH _ _ Hr) as (d & Hd & Hh). rewrite Hq in Hd. by exists d. }
  unfold bind, modify. simpl. set (w1 := mkWorld _ _ _).
  destruct (handle scored now w1) as [[[]|x] w2] eqn:Hh; [|done]. intros Hr.
  destruct (handle_accounts _ _ _ _ Hh) as [Hc Hq2]. destruct (IH _ _ Hr) as (d & Hd & Hn).
  exists (scored :: d). rewrite Hq2 in Hd. simpl in Hd, Hc. split; [by rewrite Hd|].
  rewrite Hn, Hc. unfold zlen. simpl. lia.
Qed.

(** The entry of a transaction whose amount is inside the decimal context. *)
Lemma entry_for_exact tx now c x :
  tx_amount tx = DFin c x → 0 < c < 10 ^ Dec.prec → Dec.Etiny ≤ x ≤ Dec.Etop →
  entry_for tx now = Ok (mkLedgerEntry (tx_id tx) (tx_account_id tx)
    (DFin (if bool_decide (tx_type tx = CREDIT) then c else - c) x) (tx_id tx) now).
Proof.
  intros Ha Hc Hx. unfold entry_for, delta_for. rewrite Ha.
  assert (Hnz : ∀ k, k ≠ 0 → Dec.eqb (DFin k x) Dec.zero = false).
  { intros k Hk. unfold Dec.eqb, Dec.cmp, Dec.zero, Dec.of_Z. simpl.
    pose proof (Dec.pow10_pos (x - Z.min x 0) ltac:(lia)).
    rewrite Z.mul_0_l. destruct (Z.compare_spec (k * 10 ^ (x - Z.min x 0)) 0) as [E| |]; [|done..]. nia. }
  case_bool_decide.
  - simpl. unfold LedgerEntry_post_init. simpl. by rewrite Hnz by lia.
  - rewrite Dec.neg_exact by lia. simpl. unfold LedgerEntry_post_init. simpl. by rewrite Hnz by lia.
Qed.

End submitter.
Arguments World P : clear implicits.
End Submitter.
