(* ===== verification/RaftTypes.v ===== *)
(** * Raft data types (raft/types.py) and the message union of raft/transport.py

    Terms and indices are Python integers; [command] is opaque ([C]). *)

From stdpp Require Import base strings list.
From Stdlib Require Import ZArith.
From S2P Require Import Prelude.

Local Open Scope Z_scope.

Inductive NodeState := FOLLOWER | CANDIDATE | LEADER.

#[export] Instance NodeState_eq_dec : EqDecision NodeState.
Proof. solve_decision. Defined.

Section types.
Context {C : Type}.

Record LogEntry := mkEntry { entry_term : Z; entry_index : Z; entry_command : C }.

Record PreVoteArgs := mkPreVoteArgs {
  pv_term : Z; pv_candidate_id : string; pv_last_log_index : Z; pv_last_log_term : Z
}.

Record PreVoteReply := mkPreVoteReply {
  pvr_term : Z; pvr_vote_granted : bool; pvr_voter_id : string
}.

Record RequestVoteArgs := mkRequestVoteArgs {
  rv_term : Z; rv_candidate_id : string; rv_last_log_index : Z; rv_last_log_term : Z
}.

Record RequestVoteReply := mkRequestVoteReply {
  rvr_term : Z; rvr_vote_granted : bool; rvr_voter_id : string
}.

Record AppendEntriesArgs := mkAppendEntriesArgs {
  ae_term : Z; ae_leader_id : string; ae_prev_log_index : Z; ae_prev_log_term : Z;
  ae_entries : list LogEntry; ae_leader_commit : Z
}.

Record AppendEntriesReply := mkAppendEntriesReply {
  aer_term : Z; aer_success : bool; aer_responder_id : string;
  aer_match_index : Z; aer_conflict_index : Z; aer_conflict_term : Z
}.

(** [Message = Union[...]] *)
Inductive Message :=
| MRequestVoteArgs (m : RequestVoteArgs)
| MRequestVoteReply (m : RequestVoteReply)
| MAppendEntriesArgs (m : AppendEntriesArgs)
| MAppendEntriesReply (m : AppendEntriesReply)
| MPreVoteArgs (m : PreVoteArgs)
| MPreVoteReply (m : PreVoteReply).

Record Envelope := mkEnvelope {
  env_sender : string; env_recipient : string; env_message : Message
}.

End types.
Arguments LogEntry C : clear implicits.
Arguments AppendEntriesArgs C : clear implicits.
Arguments Message C : clear implicits.
Arguments Envelope C : clear implicits.
