(* ===== verification/Storage.v ===== *)
(** * Persistent Raft state (raft/storage.py)

    [InMemoryStorage] with one definition per method.  Log indices are
    1-based; index 0 is the implicit entry of term 0.  The list-level functions
    ([last_index_of], [term_at_of], ...) carry the lemmas every client uses.
    Each method body runs under the storage's own lock, so it is one step. *)

From stdpp Require Import base strings list.
From Stdlib Require Import ZArith Lia.
From S2P Require Import Prelude RaftTypes.

Local Open Scope Z_scope.

Module Storage.
Section storage.
Context {C : Type}.
Abbreviation log := (list (LogEntry C)).

Record InMemoryStorage := mkStorage {
  current_term : Z;
  voted_for : option string;
  entries : log
}.

Definition init : InMemoryStorage := mkStorage 0 None [].

Definition get_current_term (s : InMemoryStorage) : Z := current_term s.
Definition set_current_term (term : Z) (s : InMemoryStorage) : InMemoryStorage :=
  mkStorage term (voted_for s) (entries s).
Definition get_voted_for (s : InMemoryStorage) : option string := voted_for s.
Definition set_voted_for (candidate_id : option string) (s : InMemoryStorage) : InMemoryStorage :=
  mkStorage (current_term s) candidate_id (entries s).

Definition last_term_of (l : log) : Z :=
  match last l with Some e => entry_term e | None => 0 end.
Definition term_at_of (index : Z) (l : log) : Z :=
  if index =? 0 then 0
  else if (1 <=? index) && (index <=? zlen l) then
    match l !! Z.to_nat (index - 1) with Some e => entry_term e | None => -1 end
  else -1.
Definition get_of (index : Z) (l : log) : option (LogEntry C) :=
  if index <=? 0 then None
  else if zlen l <? index then None
  else l !! Z.to_nat (index - 1).
Definition entries_from_of (index : Z) (l : log) : log :=
  let index := if index <=? 0 then 1 else index in
  sfx (index - 1) l.

Definition last_index (s : InMemoryStorage) : Z := zlen (entries s).
Definition last_term (s : InMemoryStorage) : Z := last_term_of (entries s).
Definition term_at (index : Z) (s : InMemoryStorage) : Z := term_at_of index (entries s).
Definition get (index : Z) (s : InMemoryStorage) : option (LogEntry C) := get_of index (entries s).
Definition entries_from (index : Z) (s : InMemoryStorage) : log := entries_from_of index (entries s).
Definition append (es : log) (s : InMemoryStorage) : InMemoryStorage :=
  mkStorage (current_term s) (voted_for s) (entries s ++ es).
Definition truncate_from (index : Z) : Py InMemoryStorage unit := λ s,
  if index <=? 0 then (Raise (ValueError "index must be positive"), s)
  else (Ok tt, mkStorage (current_term s) (voted_for s) (pfx (index - 1) (entries s))).

(** ** Lemmas on logs *)

Implicit Types l : log.

Lemma term_at_0 l : term_at_of 0 l = 0.
Proof. done. Qed.

Lemma term_at_lookup i l e :
  1 ≤ i → l !! Z.to_nat (i - 1) = Some e → term_at_of i l = entry_term e.
Proof.
  intros Hi Hl. unfold term_at_of, zlen. pose proof (lookup_lt_Some _ _ _ Hl).
  destruct (Z.eqb_spec i 0); [lia|].
  rewrite (proj2 (Z.leb_le 1 i)), (proj2 (Z.leb_le i _)) by lia. simpl. by rewrite Hl.
Qed.

Lemma term_at_inside i l :
  1 ≤ i ≤ zlen l → ∃ e, l !! Z.to_nat (i - 1) = Some e ∧ term_at_of i l = entry_term e.
Proof.
  intros Hi. destruct (lookup_lt_is_Some_2 l (Z.to_nat (i - 1))) as [e He]; [unfold zlen in *; lia|].
  exists e. split; [done|]. apply term_at_lookup; [lia|done].
Qed.

Lemma term_at_outside i l : i < 0 ∨ zlen l < i → term_at_of i l = -1.
Proof.
  intros Hi. pose proof (zlen_nonneg l). unfold term_at_of. destruct (Z.eqb_spec i 0); [lia|].
  destruct (Z.leb_spec 1 i), (Z.leb_spec i (zlen l)); try done; lia.
Qed.

Lemma term_at_pfx i j l : i ≤ j → term_at_of i (pfx j l) = if decide (i ≤ zlen l) then term_at_of i l else -1.
Proof.
  intros Hij. destruct (Z.leb_spec 1 i) as [Hi|Hi].
  2: { destruct (Z.eq_dec i 0) as [->|].
       - pose proof (zlen_nonneg l). by rewrite decide_True.
       - rewrite !term_at_outside by lia. by case_decide. }
  case_decide as Hl.
  - destruct (term_at_inside i l) as (e & He & ->); [lia|].
    apply term_at_lookup; [lia|]. unfold pfx. rewrite lookup_take_Some. split; [done|lia].
  - apply term_at_outside. right. pose proof (zlen_pfx_le j l). lia.
Qed.

(** Logs that agree up to [j] have the same terms up to [j]. *)
Lemma term_at_agree i j l1 l2 :
  pfx j l1 = pfx j l2 → i ≤ j → i ≤ zlen l2 → term_at_of i l1 = term_at_of i l2.
Proof.
  intros H Hij Hl2. destruct (Z.leb_spec i 0) as [Hi|Hi].
  { destruct (Z.eq_dec i 0) as [->|]; [done|]. rewrite !term_at_outside by lia. done. }
  assert (Hl1 : i ≤ zlen l1).
  { eapply pfx_agree_len; [exact Hl2|]. by apply (pfx_agree_le i j). }
  pose proof (term_at_pfx i j l1 Hij) as H1. pose proof (term_at_pfx i j l2 Hij) as H2.
  rewrite decide_True in H1 by done. rewrite decide_True in H2 by done. congruence.
Qed.

Lemma term_at_app_l i l1 l2 : i ≤ zlen l1 → term_at_of i (l1 ++ l2) = term_at_of i l1.
Proof.
  intros. apply term_at_agree with i; [by apply pfx_app_le|lia|done].
Qed.

Lemma term_at_snoc l e : term_at_of (zlen l + 1) (l ++ [e]) = entry_term e.
Proof.
  pose proof (zlen_nonneg l). apply term_at_lookup; [lia|].
  rewrite lookup_app_r by (unfold zlen; lia).
  replace (Z.to_nat (zlen l + 1 - 1) - length l)%nat with 0%nat by (unfold zlen; lia). done.
Qed.

Lemma last_term_at l : last_term_of l = term_at_of (zlen l) l.
Proof.
  destruct l as [|e l _] using rev_ind; [done|].
  unfold last_term_of. rewrite last_snoc, zlen_app.
  replace (zlen [e]) with 1 by done. by rewrite term_at_snoc.
Qed.

Lemma entries_from_sfx i l : 1 ≤ i → entries_from_of i l = sfx (i - 1) l.
Proof. intros. unfold entries_from_of. destruct (Z.leb_spec i 0); [lia|done]. Qed.

Lemma get_inside i l : 1 ≤ i ≤ zlen l → ∃ e, get_of i l = Some e ∧ l !! Z.to_nat (i - 1) = Some e.
Proof.
  intros Hi. destruct (term_at_inside i l Hi) as (e & He & _). exists e. split; [|done].
  unfold get_of. destruct (Z.leb_spec i 0), (Z.ltb_spec (zlen l) i); try lia. done.
Qed.

(** Taking one more entry. *)
Lemma pfx_snoc i l e :
  0 ≤ i → l !! Z.to_nat i = Some e → pfx (i + 1) l = pfx i l ++ [e].
Proof.
  intros Hi He. unfold pfx. replace (Z.to_nat (i + 1)) with (S (Z.to_nat i)) by lia.
  by apply take_S_r.
Qed.

End storage.
Arguments InMemoryStorage C : clear implicits.
End Storage.
