(* ===== verification/Transport.v ===== *)
(** * Transports (raft/transport.py)

    [Transport] is the protocol a node sends through.  [Net.InMemoryTransport]
    is the in-process network with partitions; [Trace] only records what was
    sent, and delivers any of it in any order and any number of times.
    [TransportLaws] and [NetworkLaws] are all the protocol's safety needs; both
    transports satisfy them. *)

From stdpp Require Import base gmap strings list.
From S2P Require Import Prelude RaftTypes.

Class Transport (C T : Type) := {
  t_register : string → T → T;
  t_send : string → string → Message C → T → T
}.

(** What the environment may do to a network, and which envelope it may hand
    to a node next. *)
Class Network (C T : Type) `{Transport C T} := {
  n_move : Type;
  n_moved : n_move → T → T;
  n_choice : Type;
  n_take : n_choice → string → T → option (Envelope C * T)
}.
Arguments n_move C T {_ _}.
Arguments n_choice C T {_ _}.

(** The contract the protocol needs of what a node sends through.
    [net_sent t l]: every envelope [t] may still deliver is in the list [l] of
    all envelopes sent. *)
Class TransportLaws (C T : Type) `{Transport C T} := {
  net_sent : T → list (Envelope C) → Prop;
  net_send t l s r m : net_sent t l → net_sent (t_send s r m t) (l ++ [mkEnvelope s r m]);
  net_register t l n : net_sent t l → net_sent (t_register n t) l
}.

(** A network may lose, delay, reorder and duplicate, but it delivers only
    envelopes that were sent, and to their recipient. *)
Class NetworkLaws (C T : Type) `{Network C T} := {
  #[global] network_transport :: TransportLaws C T;
  net_moved t l m : net_sent t l → net_sent (n_moved m t) l;
  net_take t l c n e t' : net_sent t l → n_take c n t = Some (e, t') →
    net_sent t' l ∧ e ∈ l ∧ env_recipient e = n
}.

(** ** The recording transport *)
Module Trace.
Definition Trace (C : Type) := list (Envelope C).

#[global] Instance trace_transport C : Transport C (Trace C) := {
  t_register _ t := t;
  t_send s r m t := t ++ [mkEnvelope s r m]
}.

(** Any envelope ever sent may be delivered, any number of times. *)
#[global] Instance trace_network C : Network C (Trace C) := {
  n_move := Empty_set;
  n_moved _ t := t;
  n_choice := nat;
  n_take k n t :=
    match t !! k with
    | Some e => if decide (env_recipient e = n) then Some (e, t) else None
    | None => None
    end
}.

#[global] Instance trace_sent C : TransportLaws C (Trace C).
Proof. refine {| net_sent (t : Trace C) l := t = l |}; [by intros t l s r m ->|done]. Defined.

#[global] Instance trace_laws C : NetworkLaws C (Trace C).
Proof.
  refine {| network_transport := trace_sent C |}; [done|]. simpl.
  - intros t l k n e t' ->. case_match eqn:E; [|done].
    case_decide; [|done]. intros [= <- <-]. split_and!; [done| |done]. by eapply list_elem_of_lookup_2.
Defined.
End Trace.

(** ** The in-process network *)
Module Net.
Section net.
Context {C : Type}.

Record InMemoryTransport := mkTransport {
  inboxes : gmap string (list (Envelope C));
  partitioned : gset string
}.

Definition init : InMemoryTransport := mkTransport ∅ ∅.

(** [self._inboxes] is a [defaultdict(deque)]. *)
Definition inbox (node_id : string) (t : InMemoryTransport) : list (Envelope C) :=
  default [] (inboxes t !! node_id).

Definition register (node_id : string) (t : InMemoryTransport) : InMemoryTransport :=
  match inboxes t !! node_id with
  | Some _ => t
  | None => mkTransport (<[node_id := []]> (inboxes t)) (partitioned t)
  end.

Definition send (sender_id recipient_id : string) (message : Message C)
    (t : InMemoryTransport) : InMemoryTransport :=
  if bool_decide (sender_id ∈ partitioned t) || bool_decide (recipient_id ∈ partitioned t) then t
  else mkTransport
         (<[recipient_id := inbox recipient_id t ++ [mkEnvelope sender_id recipient_id message]]> (inboxes t))
         (partitioned t).

Definition partition (node_ids : list string) (t : InMemoryTransport) : InMemoryTransport :=
  mkTransport (inboxes t) (partitioned t ∪ list_to_set node_ids).
Definition heal (t : InMemoryTransport) : InMemoryTransport := mkTransport (inboxes t) ∅.
Definition rejoin (node_ids : list string) (t : InMemoryTransport) : InMemoryTransport :=
  mkTransport (inboxes t) (partitioned t ∖ list_to_set node_ids).
Definition is_partitioned (node_id : string) (t : InMemoryTransport) : bool :=
  bool_decide (node_id ∈ partitioned t).
Definition inbox_size (node_id : string) (t : InMemoryTransport) : nat := length (inbox node_id t).

(** [inbox.popleft()] of a non-empty inbox. *)
Definition popleft (node_id : string) (t : InMemoryTransport) : option (Envelope C * InMemoryTransport) :=
  match inbox node_id t with
  | [] => None
  | e :: rest => Some (e, mkTransport (<[node_id := rest]> (inboxes t)) (partitioned t))
  end.

#[global] Instance net_transport : Transport C InMemoryTransport := {
  t_register := register;
  t_send := send
}.

(** Fault injection: the three operations on the partitioned set. *)
Inductive Move := MPartition (ids : list string) | MHeal | MRejoin (ids : list string).

#[global] Instance net_network : Network C InMemoryTransport := {
  n_move := Move;
  n_moved m := match m with MPartition ids => partition ids | MHeal => heal | MRejoin ids => rejoin ids end;
  n_choice := unit;
  n_take _ n t := popleft n t
}.

Definition queued (t : InMemoryTransport) (l : list (Envelope C)) : Prop :=
  ∀ n e, e ∈ inbox n t → e ∈ l ∧ env_recipient e = n.

Lemma inbox_insert n n' q t ids :
  inbox n (mkTransport (<[n' := q]> (inboxes t)) ids) = if decide (n = n') then q else inbox n t.
Proof. unfold inbox. simpl. case_decide; by simplify_map_eq. Qed.

#[global] Program Instance net_queued : TransportLaws C InMemoryTransport := { net_sent := queued }.
Next Obligation.
  intros t l s r m Hq n e. simpl. unfold send. destruct (_ || _).
  - intros He. destruct (Hq n e He). split; [|done]. apply elem_of_app. by left.
  - rewrite inbox_insert. case_decide as Hn.
    + subst n. intros [He|He%list_elem_of_singleton]%elem_of_app.
      * destruct (Hq r e He). split; [|done]. apply elem_of_app. by left.
      * subst e. split; [|done]. apply elem_of_app. right. by apply list_elem_of_singleton.
    + intros He. destruct (Hq n e He). split; [|done]. apply elem_of_app. by left.
Qed.
Next Obligation.
  intros t l n Hq n' e. simpl. unfold register. destruct (inboxes t !! n) eqn:E; [apply Hq|].
  rewrite inbox_insert. case_decide; [by intros ?%elem_of_nil|apply Hq].
Qed.

#[global] Program Instance net_laws : NetworkLaws C InMemoryTransport := { network_transport := net_queued }.
Next Obligation. intros t l m Hq n e. destruct m; apply Hq. Qed.
Next Obligation.
  intros t l [] n e t' Hq. simpl. unfold popleft. destruct (inbox n t) as [|e' rest] eqn:E; [done|].
  intros [= <- <-]. destruct (Hq n e') as [He Hr]; [rewrite E; left|]. split_and!; [|done|done].
  intros n' x. rewrite inbox_insert. case_decide as Hn; [|apply Hq].
  subst n'. intros Hx. apply Hq. rewrite E. by right.
Qed.

Lemma queued_init : @net_sent _ _ _ (network_transport (NetworkLaws := net_laws)) init [].
Proof. intros n e. unfold inbox. simpl. by intros ?%not_elem_of_nil. Qed.

End net.
Arguments InMemoryTransport C : clear implicits.
End Net.
