(* ===== verification/RaftNode.v ===== *)
(** * The Raft core (raft/node.py)

    One definition per method of [RaftNode], in the state-and-exception monad:
    the state [World] is the node object together with the storage, the
    transport and the state machine it was given.  [random_fn k] is the [k]-th
    draw of the injected random function; the clock value [now] is an argument,
    as in the code. *)

From stdpp Require Import base gmap strings list.
From Stdlib Require Import ZArith Lia.
From S2P Require Import Prelude PyFloat RaftTypes Storage StateMachine Transport.

Local Open Scope Z_scope.

Module Raft.

(** The attributes of the object; [draws] counts the calls of [self._random]. *)
Record RaftNode := mkNode {
  node_id : string;
  peer_ids : list string;
  election_timeout_min : float;
  election_timeout_max : float;
  heartbeat_interval : float;
  state : NodeState;
  leader_id : option string;
  commit_index : Z;
  last_applied : Z;
  next_index : gmap string Z;
  match_index : gmap string Z;
  votes_received : gset string;
  prevotes_received : gset string;
  prevote_target_term : Z;
  election_deadline : float;
  next_heartbeat_deadline : float;
  last_leader_contact : float;
  draws : nat
}.

Definition set_state (v : NodeState) (n : RaftNode) : RaftNode :=
  mkNode (node_id n) (peer_ids n) (election_timeout_min n) (election_timeout_max n)
    (heartbeat_interval n) v (leader_id n) (commit_index n) (last_applied n) (next_index n)
    (match_index n) (votes_received n) (prevotes_received n) (prevote_target_term n)
    (election_deadline n) (next_heartbeat_deadline n) (last_leader_contact n) (draws n).
Definition set_leader_id (v : option string) (n : RaftNode) : RaftNode :=
  mkNode (node_id n) (peer_ids n) (election_timeout_min n) (election_timeout_max n)
    (heartbeat_interval n) (state n) v (commit_index n) (last_applied n) (next_index n) (match_index
    n) (votes_received n) (prevotes_received n) (prevote_target_term n) (election_deadline n)
    (next_heartbeat_deadline n) (last_leader_contact n) (draws n).
Definition set_commit_index (v : Z) (n : RaftNode) : RaftNode :=
  mkNode (node_id n) (peer_ids n) (election_timeout_min n) (election_timeout_max n)
    (heartbeat_interval n) (state n) (leader_id n) v (last_applied n) (next_index n) (match_index n)
    (votes_received n) (prevotes_received n) (prevote_target_term n) (election_deadline n)
    (next_heartbeat_deadline n) (last_leader_contact n) (draws n).
Definition set_last_applied (v : Z) (n : RaftNode) : RaftNode :=
  mkNode (node_id n) (peer_ids n) (election_timeout_min n) (election_timeout_max n)
    (heartbeat_interval n) (state n) (leader_id n) (commit_index n) v (next_index n) (match_index n)
    (votes_received n) (prevotes_received n) (prevote_target_term n) (election_deadline n)
    (next_heartbeat_deadline n) (last_leader_contact n) (draws n).
Definition set_next_index (v : gmap string Z) (n : RaftNode) : RaftNode :=
  mkNode (node_id n) (peer_ids n) (election_timeout_min n) (election_timeout_max n)
    (heartbeat_interval n) (state n) (leader_id n) (commit_index n) (last_applied n) v (match_index
    n) (votes_received n) (prevotes_received n) (prevote_target_term n) (election_deadline n)
    (next_heartbeat_deadline n) (last_leader_contact n) (draws n).
Definition set_match_index (v : gmap string Z) (n : RaftNode) : RaftNode :=
  mkNode (node_id n) (peer_ids n) (election_timeout_min n) (election_timeout_max n)
    (heartbeat_interval n) (state n) (leader_id n) (commit_index n) (last_applied n) (next_index n)
    v (votes_received n) (prevotes_received n) (prevote_target_term n) (election_deadline n)
    (next_heartbeat_deadline n) (last_leader_contact n) (draws n).
Definition set_votes_received (v : gset string) (n : RaftNode) : RaftNode :=
  mkNode (node_id n) (peer_ids n) (election_timeout_min n) (election_timeout_max n)
    (heartbeat_interval n) (state n) (leader_id n) (commit_index n) (last_applied n) (next_index n)
    (match_index n) v (prevotes_received n) (prevote_target_term n) (election_deadline n)
    (next_heartbeat_deadline n) (last_leader_contact n) (draws n).
Definition set_prevotes_received (v : gset string) (n : RaftNode) : RaftNode :=
  mkNode (node_id n) (peer_ids n) (election_timeout_min n) (election_timeout_max n)
    (heartbeat_interval n) (state n) (leader_id n) (commit_index n) (last_applied n) (next_index n)
    (match_index n) (votes_received n) v (prevote_target_term n) (election_deadline n)
    (next_heartbeat_deadline n) (last_leader_contact n) (draws n).
Definition set_prevote_target_term (v : Z) (n : RaftNode) : RaftNode :=
  mkNode (node_id n) (peer_ids n) (election_timeout_min n) (election_timeout_max n)
    (heartbeat_interval n) (state n) (leader_id n) (commit_index n) (last_applied n) (next_index n)
    (match_index n) (votes_received n) (prevotes_received n) v (election_deadline n)
    (next_heartbeat_deadline n) (last_leader_contact n) (draws n).
Definition set_election_deadline (v : float) (n : RaftNode) : RaftNode :=
  mkNode (node_id n) (peer_ids n) (election_timeout_min n) (election_timeout_max n)
    (heartbeat_interval n) (state n) (leader_id n) (commit_index n) (last_applied n) (next_index n)
    (match_index n) (votes_received n) (prevotes_received n) (prevote_target_term n) v
    (next_heartbeat_deadline n) (last_leader_contact n) (draws n).
Definition set_next_heartbeat_deadline (v : float) (n : RaftNode) : RaftNode :=
  mkNode (node_id n) (peer_ids n) (election_timeout_min n) (election_timeout_max n)
    (heartbeat_interval n) (state n) (leader_id n) (commit_index n) (last_applied n) (next_index n)
    (match_index n) (votes_received n) (prevotes_received n) (prevote_target_term n)
    (election_deadline n) v (last_leader_contact n) (draws n).
Definition set_last_leader_contact (v : float) (n : RaftNode) : RaftNode :=
  mkNode (node_id n) (peer_ids n) (election_timeout_min n) (election_timeout_max n)
    (heartbeat_interval n) (state n) (leader_id n) (commit_index n) (last_applied n) (next_index n)
    (match_index n) (votes_received n) (prevotes_received n) (prevote_target_term n)
    (election_deadline n) (next_heartbeat_deadline n) v (draws n).
Definition set_draws (v : nat) (n : RaftNode) : RaftNode :=
  mkNode (node_id n) (peer_ids n) (election_timeout_min n) (election_timeout_max n)
    (heartbeat_interval n) (state n) (leader_id n) (commit_index n) (last_applied n) (next_index n)
    (match_index n) (votes_received n) (prevotes_received n) (prevote_target_term n)
    (election_deadline n) (next_heartbeat_deadline n) (last_leader_contact n) v.

Section raft.
Context {C S T : Type} `{Transport C T} `{StateMachine C S}.
Variable random_fn : nat → float → float → float.

Record World := mkWorld {
  node : RaftNode;
  storage : Storage.InMemoryStorage C;
  transport : T;
  machine : S
}.

Abbreviation M := (Py World).

Definition on_node (f : RaftNode → RaftNode) : M unit :=
  modify (λ w, mkWorld (f (node w)) (storage w) (transport w) (machine w)).
Definition on_storage (f : Storage.InMemoryStorage C → Storage.InMemoryStorage C) : M unit :=
  modify (λ w, mkWorld (node w) (f (storage w)) (transport w) (machine w)).
Definition gets {A} (f : RaftNode → A) : M A := get (λ w, f (node w)).
Definition reads {A} (f : Storage.InMemoryStorage C → A) : M A := get (λ w, f (storage w)).
(** [self._storage.truncate_from(index)], which may raise. *)
Definition truncate_from (index : Z) : M unit :=
  zoom storage (λ s w, mkWorld (node w) s (transport w) (machine w)) (Storage.truncate_from index).
(** [self._state_machine.apply(command)] *)
Definition machine_apply (c : C) : M unit :=
  zoom machine (λ s w, mkWorld (node w) (storage w) (transport w) s) (sm_apply c).
(** [self._transport.send(self.node_id, recipient, message)] *)
Definition send (recipient : string) (message : Message C) : M unit :=
  modify (λ w, mkWorld (node w) (storage w)
                 (t_send (node_id (node w)) recipient message (transport w)) (machine w)).

(** [self._random(lo, hi)] *)
Definition random (lo hi : float) : M float :=
  (k <- gets draws ;;
   on_node (set_draws (k + 1)%nat) ;;;
   ret (random_fn k lo hi))%py.

(** ** Construction *)

(** [RaftNode.__init__], over the given storage, transport and machine. *)
Definition new_node (id : string) (peers : list string) (tmin tmax hb : float) : RaftNode :=
  mkNode id peers tmin tmax hb FOLLOWER None 0 0 ∅ ∅ ∅ ∅ (-1) F.zero F.inf F.neg_inf 0%nat.

Definition init (id : string) (peers : list string) (tmin tmax hb : float)
    (st : Storage.InMemoryStorage C) (t : T) (sm : S) : World :=
  mkWorld (new_node id peers tmin tmax hb) st (t_register id t) sm.

Definition is_leader (n : RaftNode) : bool := bool_decide (state n = LEADER).

(** The [log] property. *)
Definition log (w : World) : list (LogEntry C) := Storage.entries_from 1 (storage w).

(** ** Log helpers *)

Definition log_up_to_date (last_log_index last_log_term : Z) : M bool :=
  (my_last_term <- reads Storage.last_term ;;
   my_last_index <- reads Storage.last_index ;;
   if negb (last_log_term =? my_last_term) then ret (my_last_term <? last_log_term)
   else ret (my_last_index <=? last_log_index))%py.

(** The loops of [_first_index_of_term] and [_last_index_of_term] count the
    index down to 0, so the start index is enough fuel. *)
Fixpoint first_index_loop (fuel : nat) (term index : Z) (l : list (LogEntry C)) : Z :=
  match fuel with
  | O => index + 1
  | Datatypes.S f =>
      if (0 <? index) && (Storage.term_at_of index l =? term)
      then first_index_loop f term (index - 1) l
      else index + 1
  end.
Definition first_index_of (term from_index : Z) (l : list (LogEntry C)) : Z :=
  first_index_loop (Z.to_nat from_index) term from_index l.
Definition first_index_of_term (term from_index : Z) : M Z :=
  reads (λ s, first_index_of term from_index (Storage.entries s)).

Fixpoint last_index_loop (fuel : nat) (term index : Z) (l : list (LogEntry C)) : Z :=
  match fuel with
  | O => 0
  | Datatypes.S f =>
      if 0 <? index then
        let t := Storage.term_at_of index l in
        if t =? term then index
        else if t <? term then 0
        else last_index_loop f term (index - 1) l
      else 0
  end.
Definition last_index_of (term : Z) (l : list (LogEntry C)) : Z :=
  last_index_loop (length l) term (zlen l) l.
Definition last_index_of_term (term : Z) : M Z :=
  reads (λ s, last_index_of term (Storage.entries s)).

Definition reset_election_deadline (now : float) : M unit :=
  (lo <- gets election_timeout_min ;;
   hi <- gets election_timeout_max ;;
   timeout <- random lo hi ;;
   on_node (set_election_deadline (F.add now timeout)))%py.

(** [start]: arm the initial election timeout. *)
Definition start (now : float) : M unit := reset_election_deadline now.

(** ** Broadcasting *)

Definition broadcast_request_vote (now : float) : M unit :=
  (term <- reads Storage.get_current_term ;;
   id <- gets node_id ;;
   li <- reads Storage.last_index ;;
   lt <- reads Storage.last_term ;;
   peers <- gets peer_ids ;;
   for_each (λ peer, send peer (MRequestVoteArgs (mkRequestVoteArgs term id li lt))) peers)%py.

Definition send_append_entries_to (peer : string) (now : float) : M unit :=
  (last <- reads Storage.last_index ;;
   next_idx <- gets (λ n, default (last + 1) (next_index n !! peer)) ;;
   let prev_log_index := next_idx - 1 in
   prev_log_term <- reads (Storage.term_at prev_log_index) ;;
   entries <- reads (Storage.entries_from next_idx) ;;
   term <- reads Storage.get_current_term ;;
   id <- gets node_id ;;
   commit <- gets commit_index ;;
   send peer (MAppendEntriesArgs
     (mkAppendEntriesArgs term id prev_log_index prev_log_term entries commit)))%py.

Definition broadcast_append_entries (now : float) : M unit :=
  (hb <- gets heartbeat_interval ;;
   on_node (set_next_heartbeat_deadline (F.add now hb)) ;;;
   peers <- gets peer_ids ;;
   for_each (λ peer, send_append_entries_to peer now) peers)%py.

(** ** Commit index and apply *)

(** [while self.last_applied < self.commit_index]: each turn raises
    [last_applied] by one, so the difference is enough fuel. *)
Fixpoint apply_loop (fuel : nat) : M unit :=
  match fuel with
  | O => ret tt
  | Datatypes.S f =>
      (applied <- gets last_applied ;;
       commit <- gets commit_index ;;
       if applied <? commit then
         on_node (set_last_applied (applied + 1)) ;;;
         entry <- reads (Storage.get (applied + 1)) ;;
         match entry with
         | None => raise AssertionError
         | Some e => machine_apply (entry_command e) ;;; apply_loop f
         end
       else ret tt)%py
  end.
Definition apply_committed : M unit :=
  (applied <- gets last_applied ;;
   commit <- gets commit_index ;;
   apply_loop (Z.to_nat (commit - applied)))%py.

(** [(len(self.peer_ids) + 1) // 2 + 1] *)
Definition majority_of (peers : list string) : Z := (zlen peers + 1) / 2 + 1.

(** [sorted([last_index, *match_index.values()], reverse=True)[majority - 1]] *)
Definition commit_candidate (last_idx : Z) (mi : gmap string Z) (majority : Z) : option Z :=
  isort (λ x y, y <=? x) (last_idx :: (map_to_list mi).*2) !! Z.to_nat (majority - 1).

Definition advance_commit_index : M unit :=
  (last <- reads Storage.last_index ;;
   mi <- gets match_index ;;
   peers <- gets peer_ids ;;
   match commit_candidate last mi (majority_of peers) with
   | None => raise IndexError
   | Some candidate_n =>
       commit <- gets commit_index ;;
       t <- reads (Storage.term_at candidate_n) ;;
       term <- reads Storage.get_current_term ;;
       if (commit <? candidate_n) && (t =? term) then
         on_node (set_commit_index candidate_n) ;;;
         apply_committed
       else ret tt
   end)%py.

(** ** State transitions *)

Definition become_follower (term : Z) (now : float) : M unit :=
  (on_storage (Storage.set_current_term term) ;;;
   on_storage (Storage.set_voted_for None) ;;;
   on_node (set_state FOLLOWER) ;;;
   on_node (set_leader_id None) ;;;
   on_node (set_votes_received ∅) ;;;
   reset_election_deadline now)%py.

Definition become_leader (now : float) : M unit :=
  (on_node (set_state LEADER) ;;;
   id <- gets node_id ;;
   on_node (set_leader_id (Some id)) ;;;
   last_index <- reads Storage.last_index ;;
   peers <- gets peer_ids ;;
   on_node (set_next_index (list_to_map ((λ p, (p, last_index + 1)) <$> peers))) ;;;
   on_node (set_match_index (list_to_map ((λ p, (p, 0)) <$> peers))) ;;;
   broadcast_append_entries now)%py.

Definition maybe_become_leader_from_votes (now : float) : M unit :=
  (st <- gets state ;;
   if bool_decide (st ≠ CANDIDATE) then ret tt
   else
     peers <- gets peer_ids ;;
     votes <- gets votes_received ;;
     when (majority_of peers <=? Z.of_nat (size votes)) (become_leader now))%py.

Definition become_candidate (now : float) : M unit :=
  (t <- reads Storage.get_current_term ;;
   let new_term := t + 1 in
   on_storage (Storage.set_current_term new_term) ;;;
   id <- gets node_id ;;
   on_storage (Storage.set_voted_for (Some id)) ;;;
   on_node (set_state CANDIDATE) ;;;
   on_node (set_leader_id None) ;;;
   on_node (set_votes_received {[id]}) ;;;
   reset_election_deadline now ;;;
   broadcast_request_vote now ;;;
   maybe_become_leader_from_votes now)%py.

Definition maybe_win_prevote (now : float) : M unit :=
  (peers <- gets peer_ids ;;
   prevotes <- gets prevotes_received ;;
   when (majority_of peers <=? Z.of_nat (size prevotes)) (become_candidate now))%py.

Definition start_prevote (now : float) : M unit :=
  (on_node (set_state FOLLOWER) ;;;
   on_node (set_leader_id None) ;;;
   t <- reads Storage.get_current_term ;;
   on_node (set_prevote_target_term (t + 1)) ;;;
   id <- gets node_id ;;
   on_node (set_prevotes_received {[id]}) ;;;
   reset_election_deadline now ;;;
   target <- gets prevote_target_term ;;
   li <- reads Storage.last_index ;;
   lt <- reads Storage.last_term ;;
   peers <- gets peer_ids ;;
   for_each (λ peer, send peer (MPreVoteArgs (mkPreVoteArgs target id li lt))) peers ;;;
   maybe_win_prevote now)%py.

(** ** RPC handlers *)

Definition handle_prevote (args : PreVoteArgs) (now : float) : M PreVoteReply :=
  (current_term <- reads Storage.get_current_term ;;
   id <- gets node_id ;;
   leader <- gets leader_id ;;
   contact <- gets last_leader_contact ;;
   tmin <- gets election_timeout_min ;;
   if bool_decide (is_Some leader) && F.lt (F.sub now contact) tmin then
     ret (mkPreVoteReply current_term false id)
   else if pv_term args <=? current_term then ret (mkPreVoteReply current_term false id)
   else
     ok <- log_up_to_date (pv_last_log_index args) (pv_last_log_term args) ;;
     if negb ok then ret (mkPreVoteReply current_term false id)
     else ret (mkPreVoteReply current_term true id))%py.

(** [if args.term > current_term: become_follower; current_term = args.term] *)
Definition observe_term (term : Z) (now : float) : M Z :=
  (current_term <- reads Storage.get_current_term ;;
   if current_term <? term then become_follower term now ;;; ret term
   else ret current_term)%py.

Definition handle_request_vote (args : RequestVoteArgs) (now : float) : M RequestVoteReply :=
  (current_term <- observe_term (rv_term args) now ;;
   id <- gets node_id ;;
   if rv_term args <? current_term then ret (mkRequestVoteReply current_term false id)
   else
     voted_for <- reads Storage.get_voted_for ;;
     let can_vote := bool_decide (voted_for = None) || bool_decide (voted_for = Some (rv_candidate_id args)) in
     log_ok <- log_up_to_date (rv_last_log_index args) (rv_last_log_term args) ;;
     if can_vote && log_ok then
       on_storage (Storage.set_voted_for (Some (rv_candidate_id args))) ;;;
       reset_election_deadline now ;;;
       ret (mkRequestVoteReply current_term true id)
     else ret (mkRequestVoteReply current_term false id))%py.

(** The [for offset, entry in enumerate(args.entries)] loop: [entries] is the
    rest of the sequence and [idx] its first entry's index. *)
Fixpoint append_loop (idx : Z) (entries : list (LogEntry C)) : M unit :=
  match entries with
  | [] => ret tt
  | entry :: rest =>
      (existing_term <- reads (Storage.term_at idx) ;;
       if existing_term =? -1 then on_storage (Storage.append entries)
       else if negb (existing_term =? entry_term entry) then
         truncate_from idx ;;;
         on_storage (Storage.append entries)
       else append_loop (idx + 1) rest)%py
  end.

(** The part of [handle_append_entries] after the consistency check. *)
Definition append_and_commit (args : AppendEntriesArgs C) (current_term : Z) : M AppendEntriesReply :=
  (append_loop (ae_prev_log_index args + 1) (ae_entries args) ;;;
   commit <- gets commit_index ;;
   (if commit <? ae_leader_commit args then
      last <- reads Storage.last_index ;;
      on_node (set_commit_index (Z.min (ae_leader_commit args) last)) ;;;
      apply_committed
    else ret tt) ;;;
   id <- gets node_id ;;
   ret (mkAppendEntriesReply current_term true id
          (ae_prev_log_index args + zlen (ae_entries args)) 0 (-1)))%py.

Definition handle_append_entries (args : AppendEntriesArgs C) (now : float) : M AppendEntriesReply :=
  (current_term <- observe_term (ae_term args) now ;;
   id <- gets node_id ;;
   if ae_term args <? current_term then ret (mkAppendEntriesReply current_term false id 0 0 (-1))
   else
     on_node (set_state FOLLOWER) ;;;
     on_node (set_leader_id (Some (ae_leader_id args))) ;;;
     on_node (set_last_leader_contact now) ;;;
     reset_election_deadline now ;;;
     if 0 <? ae_prev_log_index args then
       term_at_prev <- reads (Storage.term_at (ae_prev_log_index args)) ;;
       if term_at_prev =? -1 then
         last <- reads Storage.last_index ;;
         ret (mkAppendEntriesReply current_term false id 0 (last + 1) (-1))
       else if negb (term_at_prev =? ae_prev_log_term args) then
         conflict_index <- first_index_of_term term_at_prev (ae_prev_log_index args) ;;
         ret (mkAppendEntriesReply current_term false id 0 conflict_index term_at_prev)
       else append_and_commit args current_term
     else append_and_commit args current_term)%py.

(** ** Reply handlers *)

(** The common prologue: a higher term in a reply makes the node a follower
    ([true] is returned and the handler stops). *)
Definition stepped_down (term : Z) (now : float) : M bool :=
  (current_term <- reads Storage.get_current_term ;;
   if current_term <? term then become_follower term now ;;; ret true
   else ret false)%py.

Definition handle_prevote_reply (reply : PreVoteReply) (now : float) : M unit :=
  (down <- stepped_down (pvr_term reply) now ;;
   if (down : bool) then ret tt
   else
     st <- gets state ;;
     target <- gets prevote_target_term ;;
     current_term <- reads Storage.get_current_term ;;
     if bool_decide (st ≠ FOLLOWER) || negb (target =? current_term + 1) then ret tt
     else if pvr_vote_granted reply then
       votes <- gets prevotes_received ;;
       on_node (set_prevotes_received (votes ∪ {[pvr_voter_id reply]})) ;;;
       maybe_win_prevote now
     else ret tt)%py.

Definition handle_request_vote_reply (reply : RequestVoteReply) (now : float) : M unit :=
  (down <- stepped_down (rvr_term reply) now ;;
   if (down : bool) then ret tt
   else
     st <- gets state ;;
     current_term <- reads Storage.get_current_term ;;
     if bool_decide (st ≠ CANDIDATE) || negb (rvr_term reply =? current_term) then ret tt
     else if rvr_vote_granted reply then
       votes <- gets votes_received ;;
       on_node (set_votes_received (votes ∪ {[rvr_voter_id reply]})) ;;;
       maybe_become_leader_from_votes now
     else ret tt)%py.

Definition handle_append_entries_reply (sender_id : string) (reply : AppendEntriesReply)
    (now : float) : M unit :=
  (down <- stepped_down (aer_term reply) now ;;
   if (down : bool) then ret tt
   else
     st <- gets state ;;
     current_term <- reads Storage.get_current_term ;;
     if bool_decide (st ≠ LEADER) || negb (aer_term reply =? current_term) then ret tt
     else if aer_success reply then
       mi <- gets match_index ;;
       (if default 0 (mi !! sender_id) <? aer_match_index reply then
          on_node (set_match_index (<[sender_id := aer_match_index reply]> mi))
        else ret tt) ;;;
       mi <- gets match_index ;;
       match mi !! sender_id with
       | None => raise KeyError
       | Some m =>
           ni <- gets next_index ;;
           on_node (set_next_index (<[sender_id := m + 1]> ni)) ;;;
           advance_commit_index
       end
     else
       ni <- gets next_index ;;
       (if negb (aer_conflict_term reply =? -1) then
          last_idx <- last_index_of_term (aer_conflict_term reply) ;;
          on_node (set_next_index
            (<[sender_id := if 0 <? last_idx then last_idx + 1 else aer_conflict_index reply]> ni))
        else
          on_node (set_next_index (<[sender_id := Z.max 1 (aer_conflict_index reply)]> ni))) ;;;
       send_append_entries_to sender_id now)%py.

(** ** Driving the node *)

Definition tick (now : float) : M unit :=
  (st <- gets state ;;
   if bool_decide (st = LEADER) then
     deadline <- gets next_heartbeat_deadline ;;
     when (F.ge now deadline) (broadcast_append_entries now)
   else
     deadline <- gets election_deadline ;;
     when (F.ge now deadline) (start_prevote now))%py.

Definition receive (envelope : Envelope C) (now : float) : M unit :=
  let sender_id := env_sender envelope in
  match env_message envelope with
  | MRequestVoteArgs m =>
      (reply <- handle_request_vote m now ;; send sender_id (MRequestVoteReply reply))%py
  | MRequestVoteReply m => handle_request_vote_reply m now
  | MAppendEntriesArgs m =>
      (reply <- handle_append_entries m now ;; send sender_id (MAppendEntriesReply reply))%py
  | MAppendEntriesReply m => handle_append_entries_reply sender_id m now
  | MPreVoteArgs m =>
      (reply <- handle_prevote m now ;; send sender_id (MPreVoteReply reply))%py
  | MPreVoteReply m => handle_prevote_reply m now
  end.

(** The client-facing API. *)
Definition propose (command : C) (now : float) : M (option (LogEntry C)) :=
  (st <- gets state ;;
   if bool_decide (st ≠ LEADER) then ret None
   else
     term <- reads Storage.get_current_term ;;
     last <- reads Storage.last_index ;;
     let entry := mkEntry term (last + 1) command in
     on_storage (Storage.append [entry]) ;;;
     broadcast_append_entries now ;;;
     ret (Some entry))%py.

End raft.
Arguments World C S T : clear implicits.
End Raft.
