(* ===== verification/RaftSpec.v ===== *)
(** * The abstract Raft protocol

    What the cluster promises is stated on a small specification: one record
    per node with only the protocol-relevant attributes, the list of all
    envelopes ever sent (a message may be lost, delayed, reordered or
    delivered more than once), and history variables used by the proofs only.
    The step relation has one rule per atomic action; RaftRefine.v shows that
    every handler of raft/node.py is a sequence of these actions. *)

From stdpp Require Import base gmap strings list functions relations fin_sets.
From Stdlib Require Import ZArith Lia.
From S2P Require Import Prelude RaftTypes Storage RaftNode.

Local Open Scope Z_scope.

Module Spec.
Section spec.
Context {C : Type}.
(** The ids of the cluster's nodes. *)
Variable members : gset string.
(** The commands clients propose. *)
Variable allowed : C → Prop.

Abbreviation log := (list (LogEntry C)).
Abbreviation term_at := (@Storage.term_at_of C).

Record ANode := mkA {
  an_term : Z;
  an_voted : option string;
  an_log : log;
  an_role : NodeState;
  an_votes : gset string;
  an_match : gmap string Z;
  an_commit : Z;
  an_applied : Z;
  an_history : list C   (* every command handed to the state machine, replays included *)
}.

Record State := mkG {
  nodes : string → ANode;
  sent : list (Envelope C);
  (* history variables *)
  leader : Z → option string;          (* who won the election of a term *)
  tlog : Z → log;                      (* the log of a term's leader, as last known in that term *)
  votes : Z → string → option string;  (* for whom a node voted in a term *)
  acked : string → Z → Z               (* up to where a node's log matched the leader's, per term *)
}.

Definition initial_node : ANode := mkA 0 None [] FOLLOWER ∅ ∅ 0 0 [].
Definition initial : State := mkG (λ _, initial_node) [] (λ _, None) (λ _, []) (λ _ _, None) (λ _ _, 0).

Definition set_node (n : string) (a : ANode) (G : State) : State :=
  mkG (<[n := a]> (nodes G)) (sent G) (leader G) (tlog G) (votes G) (acked G).
Definition set_vote (t : Z) (n : string) (c : string) (G : State) : State :=
  mkG (nodes G) (sent G) (leader G) (tlog G) (<[t := <[n := Some c]> (votes G t)]> (votes G)) (acked G).
Definition set_ack (n : string) (t m : Z) (G : State) : State :=
  mkG (nodes G) (sent G) (leader G) (tlog G) (votes G) (<[n := <[t := m]> (acked G n)]> (acked G)).
Definition set_leader (t : Z) (n : string) (l : log) (G : State) : State :=
  mkG (nodes G) (sent G) (<[t := Some n]> (leader G)) (<[t := l]> (tlog G)) (votes G) (acked G).
Definition set_tlog (t : Z) (l : log) (G : State) : State :=
  mkG (nodes G) (sent G) (leader G) (<[t := l]> (tlog G)) (votes G) (acked G).
Definition add_sent (e : Envelope C) (G : State) : State :=
  mkG (nodes G) (sent G ++ [e]) (leader G) (tlog G) (votes G) (acked G).

(** The voting rule on a log ([_log_up_to_date]). *)
Definition up_to_date (l : log) (li lt : Z) : bool :=
  if negb (lt =? Storage.last_term_of l) then Storage.last_term_of l <? lt else zlen l <=? li.

(** The merge of an AppendEntries suffix into a log, starting at [idx]. *)
Fixpoint merge (idx : Z) (es : log) (l : log) : log :=
  match es with
  | [] => l
  | e :: rest =>
      if term_at idx l =? -1 then l ++ es
      else if negb (term_at idx l =? entry_term e) then pfx (idx - 1) l ++ es
      else merge (idx + 1) rest l
  end.

(** The commit index a follower adopts. *)
Definition learn (leader_commit : Z) (l : log) (commit : Z) : Z :=
  if commit <? leader_commit then Z.min leader_commit (zlen l) else commit.

Definition prev_ok (l : log) (prev prev_term : Z) : Prop :=
  0 < prev → term_at prev l ≠ -1 ∧ term_at prev l = prev_term.

Definition peers_of (n : string) : gset string := members ∖ {[n]}.
Definition majority : Z := Z.of_nat (size members) / 2 + 1.

(** Which messages a node may send in its current state. *)
Definition may_send (G : State) (n p : string) (m : Message C) : Prop :=
  let a := nodes G n in
  match m with
  | MRequestVoteArgs r =>
      an_role a = CANDIDATE ∧
      r = mkRequestVoteArgs (an_term a) n (zlen (an_log a)) (Storage.last_term_of (an_log a))
  | MRequestVoteReply r =>
      rvr_vote_granted r = true →
      rvr_term r = an_term a ∧ rvr_voter_id r = n ∧ an_voted a = Some p
  | MAppendEntriesArgs r =>
      an_role a = LEADER ∧
      ∃ next, 1 ≤ next ∧
        r = mkAppendEntriesArgs (an_term a) n (next - 1) (term_at (next - 1) (an_log a))
              (sfx (next - 1) (an_log a)) (an_commit a)
  | MAppendEntriesReply r =>
      if aer_success r then aer_term r = an_term a ∧ 0 ≤ aer_match_index r ≤ acked G n (an_term a)
      else aer_conflict_term r ≠ -1 → 1 ≤ aer_conflict_index r
  | MPreVoteArgs _ | MPreVoteReply _ => True
  end.

Definition bump (t : Z) (a : ANode) : ANode :=
  mkA t None (an_log a) FOLLOWER ∅ (an_match a) (an_commit a) (an_applied a) (an_history a).
Definition demote (a : ANode) : ANode :=
  mkA (an_term a) (an_voted a) (an_log a) FOLLOWER (an_votes a) (an_match a) (an_commit a)
    (an_applied a) (an_history a).
Definition campaign (n : string) (a : ANode) : ANode :=
  mkA (an_term a + 1) (Some n) (an_log a) CANDIDATE {[n]} (an_match a) (an_commit a)
    (an_applied a) (an_history a).
Definition vote_for (c : string) (a : ANode) : ANode :=
  mkA (an_term a) (Some c) (an_log a) (an_role a) (an_votes a) (an_match a) (an_commit a)
    (an_applied a) (an_history a).
Definition count_vote (v : string) (a : ANode) : ANode :=
  mkA (an_term a) (an_voted a) (an_log a) (an_role a) (an_votes a ∪ {[v]}) (an_match a) (an_commit a)
    (an_applied a) (an_history a).
Definition crown (mi : gmap string Z) (a : ANode) : ANode :=
  mkA (an_term a) (an_voted a) (an_log a) LEADER (an_votes a) mi (an_commit a)
    (an_applied a) (an_history a).
Definition with_log (l : log) (a : ANode) : ANode :=
  mkA (an_term a) (an_voted a) l (an_role a) (an_votes a) (an_match a) (an_commit a)
    (an_applied a) (an_history a).
Definition with_match (mi : gmap string Z) (a : ANode) : ANode :=
  mkA (an_term a) (an_voted a) (an_log a) (an_role a) (an_votes a) mi (an_commit a)
    (an_applied a) (an_history a).
Definition with_commit (k : Z) (a : ANode) : ANode :=
  mkA (an_term a) (an_voted a) (an_log a) (an_role a) (an_votes a) (an_match a) k
    (an_applied a) (an_history a).
Definition with_applied (e : LogEntry C) (a : ANode) : ANode :=
  mkA (an_term a) (an_voted a) (an_log a) (an_role a) (an_votes a) (an_match a) (an_commit a)
    (an_applied a + 1) (an_history a ++ [entry_command e]).
Definition reboot (a : ANode) : ANode :=
  mkA (an_term a) (an_voted a) (an_log a) FOLLOWER ∅ ∅ 0 0 (an_history a).

(** The atomic actions of node [n]. *)
Inductive step (n : string) (G : State) : State → Prop :=
| s_bump t :
    an_term (nodes G n) < t →
    step n G (set_node n (bump t (nodes G n)) G)
| s_demote :
    step n G (set_node n (demote (nodes G n)) G)
| s_campaign :
    step n G (set_vote (an_term (nodes G n) + 1) n n (set_node n (campaign n (nodes G n)) G))
| s_grant e r :
    e ∈ sent G → env_message e = MRequestVoteArgs r →
    rv_term r = an_term (nodes G n) →
    an_voted (nodes G n) = None ∨ an_voted (nodes G n) = Some (rv_candidate_id r) →
    up_to_date (an_log (nodes G n)) (rv_last_log_index r) (rv_last_log_term r) = true →
    step n G (set_vote (an_term (nodes G n)) n (rv_candidate_id r)
                (set_node n (vote_for (rv_candidate_id r) (nodes G n)) G))
| s_count e r :
    e ∈ sent G → env_recipient e = n → env_message e = MRequestVoteReply r →
    rvr_vote_granted r = true → rvr_term r = an_term (nodes G n) →
    an_role (nodes G n) = CANDIDATE →
    step n G (set_node n (count_vote (rvr_voter_id r) (nodes G n)) G)
| s_lead mi :
    an_role (nodes G n) = CANDIDATE →
    majority ≤ Z.of_nat (size (an_votes (nodes G n))) →
    (∀ p, mi !! p = if decide (p ∈ peers_of n) then Some 0 else None) →
    step n G (set_ack n (an_term (nodes G n)) (zlen (an_log (nodes G n)))
                (set_leader (an_term (nodes G n)) n (an_log (nodes G n))
                   (set_node n (crown mi (nodes G n)) G)))
| s_propose c :
    an_role (nodes G n) = LEADER → allowed c →
    let a := nodes G n in
    let l := an_log a ++ [mkEntry (an_term a) (zlen (an_log a) + 1) c] in
    step n G (set_ack n (an_term a) (zlen l) (set_tlog (an_term a) l (set_node n (with_log l a) G)))
| s_accept e r :
    e ∈ sent G → env_message e = MAppendEntriesArgs r →
    ae_term r = an_term (nodes G n) → an_role (nodes G n) = FOLLOWER →
    prev_ok (an_log (nodes G n)) (ae_prev_log_index r) (ae_prev_log_term r) →
    let a := nodes G n in
    let l := merge (ae_prev_log_index r + 1) (ae_entries r) (an_log a) in
    step n G (set_ack n (an_term a)
                (Z.max (acked G n (an_term a)) (ae_prev_log_index r + zlen (ae_entries r)))
                (set_node n (with_commit (learn (ae_leader_commit r) l (an_commit a)) (with_log l a)) G))
| s_ack e r :
    e ∈ sent G → env_recipient e = n → env_message e = MAppendEntriesReply r →
    aer_success r = true → aer_term r = an_term (nodes G n) →
    an_role (nodes G n) = LEADER →
    step n G (set_node n (with_match (<[env_sender e := aer_match_index r]> (an_match (nodes G n))) (nodes G n)) G)
| s_commit k :
    an_role (nodes G n) = LEADER →
    Raft.commit_candidate (zlen (an_log (nodes G n))) (an_match (nodes G n)) majority = Some k →
    an_commit (nodes G n) < k →
    term_at k (an_log (nodes G n)) = an_term (nodes G n) →
    step n G (set_node n (with_commit k (nodes G n)) G)
| s_apply e :
    an_applied (nodes G n) < an_commit (nodes G n) →
    Storage.get_of (an_applied (nodes G n) + 1) (an_log (nodes G n)) = Some e →
    step n G (set_node n (with_applied e (nodes G n)) G)
| s_send p m :
    p ∈ peers_of n → may_send G n p m →
    step n G (add_sent (mkEnvelope n p m) G)
| s_restart :
    step n G (set_node n (reboot (nodes G n)) G).

Definition cstep (G G' : State) : Prop := ∃ n, n ∈ members ∧ step n G G'.
Definition reachable (G : State) : Prop := rtc cstep initial G.

(** ** Quorums *)

Definition quorum (Q : gset string) : Prop := Q ⊆ members ∧ majority ≤ Z.of_nat (size Q).

Lemma quorum_intersect Q1 Q2 : quorum Q1 → quorum Q2 → ∃ v, v ∈ Q1 ∧ v ∈ Q2.
Proof.
  intros [Hs1 H1] [Hs2 H2].
  destruct (decide (Q1 ∩ Q2 = ∅)) as [He|Hne].
  - exfalso. assert (Hd : Q1 ## Q2) by set_solver.
    assert (Hsub : Q1 ∪ Q2 ⊆ members) by set_solver.
    apply subseteq_size in Hsub. rewrite size_union in Hsub by done. unfold majority in *.
    pose proof (Z.div_mod (Z.of_nat (size members)) 2 ltac:(lia)).
    pose proof (Z.mod_pos_bound (Z.of_nat (size members)) 2 ltac:(lia)). lia.
  - apply set_choose_L in Hne as [v Hv]. exists v. set_solver.
Qed.

(** ** History predicates *)

(** Entry [i] of term [s] can no longer be acknowledged by a majority. *)
Definition dead (G : State) (s i : Z) : Prop :=
  ∃ Q, quorum Q ∧ ∀ v, v ∈ Q → s < an_term (nodes G v) ∧ acked G v s < i.

(** Entry [i] of term [s] is stored on a majority in its own term. *)
Definition committed (G : State) (s i : Z) : Prop :=
  1 ≤ i ≤ zlen (tlog G s) ∧ term_at i (tlog G s) = s ∧
  ∃ Q, quorum Q ∧ ∀ v, v ∈ Q → i ≤ acked G v s.

(** The prefix of length [k] of [l] is committed by an entry of a term at most [t]. *)
Definition committed_prefix (G : State) (t k : Z) (l : log) : Prop :=
  k = 0 ∨ ∃ s i, committed G s i ∧ s ≤ t ∧ k ≤ i ∧ pfx k l = pfx k (tlog G s).

(** Every entry of [l] was created by the leader of its term, after the same
    prefix. *)
Definition good_log (G : State) (l : log) : Prop :=
  ∀ i, 1 ≤ i ≤ zlen l →
    leader G (term_at i l) ≠ None ∧ pfx i l = pfx i (tlog G (term_at i l)).

Lemma committed_not_dead G s i : committed G s i → ¬ dead G s i.
Proof.
  intros (_ & _ & Q1 & HQ1 & H1) (Q2 & HQ2 & H2).
  destruct (quorum_intersect Q1 Q2 HQ1 HQ2) as (v & Hv1 & Hv2).
  specialize (H1 v Hv1). specialize (H2 v Hv2). lia.
Qed.

End spec.
Arguments State C : clear implicits.
Arguments ANode C : clear implicits.
End Spec.
