(* ===== verification/RaftInv.v ===== *)
(** * Invariants of the abstract protocol

    The inductive invariant behind Raft's safety: log matching through the
    per-term leader logs, one vote per node and term, what an acknowledgement
    means, and leader completeness in the form "every later leader has the
    entry or the entry is dead".  Each action is shown to preserve it. *)

From stdpp Require Import base gmap strings list functions relations fin_sets.
From Stdlib Require Import ZArith Lia.
From S2P Require Import Prelude RaftTypes Storage RaftNode RaftSpec.
Import Spec.

Local Open Scope Z_scope.

Module Inv.
Section inv.
Context {C : Type}.
Variable members : gset string.

Abbreviation log := (list (LogEntry C)).
Abbreviation term_at := (@Storage.term_at_of C).
Abbreviation quorum := (Spec.quorum members).
Abbreviation dead := (Spec.dead members).
Abbreviation committed := (Spec.committed members).
Abbreviation committed_prefix := (Spec.committed_prefix members).
Implicit Types G : State C.

(** An acknowledged entry of term [s] at index [i] is in [l], or is dead. *)
Definition keeps G (l : log) (s i : Z) : Prop :=
  pfx i l = pfx i (tlog G s) ∨ dead G s i.

Record node_ok G (n : string) : Prop := {
  no_term : 0 ≤ an_term (nodes G n);
  no_voted : votes G (an_term (nodes G n)) n = an_voted (nodes G n);
  no_future_votes t : an_term (nodes G n) < t → votes G t n = None;
  no_future_acks t : an_term (nodes G n) < t → acked G n t = 0;
  no_log : good_log G (an_log (nodes G n));
  no_log_terms i : 1 ≤ i ≤ zlen (an_log (nodes G n)) →
    1 ≤ term_at i (an_log (nodes G n)) ≤ an_term (nodes G n);
  no_cand : an_role (nodes G n) ≠ FOLLOWER →
    an_voted (nodes G n) = Some n ∧ 1 ≤ an_term (nodes G n);
  no_votes v : an_role (nodes G n) ≠ FOLLOWER → v ∈ an_votes (nodes G n) →
    v ∈ members ∧ votes G (an_term (nodes G n)) v = Some n;
  no_leader : an_role (nodes G n) = LEADER →
    leader G (an_term (nodes G n)) = Some n ∧
    tlog G (an_term (nodes G n)) = an_log (nodes G n) ∧
    acked G n (an_term (nodes G n)) = zlen (an_log (nodes G n));
  no_match p m : an_role (nodes G n) = LEADER → an_match (nodes G n) !! p = Some m →
    p ∈ members ∧ p ≠ n ∧ m ≤ acked G p (an_term (nodes G n));
  no_commit : 0 ≤ an_commit (nodes G n) ≤ zlen (an_log (nodes G n)) ∧
    committed_prefix G (an_term (nodes G n)) (an_commit (nodes G n)) (an_log (nodes G n));
  no_applied : 0 ≤ an_applied (nodes G n) ≤ an_commit (nodes G n);
  no_keeps s i : 1 ≤ i ≤ acked G n s → term_at i (tlog G s) = s →
    keeps G (an_log (nodes G n)) s i
}.

Record term_ok G (t : Z) : Prop := {
  to_none : leader G t = None → tlog G t = [] ∧ ∀ v, acked G v t = 0;
  to_elected c : leader G t = Some c →
    1 ≤ t ∧ c ∈ members ∧
    (t < an_term (nodes G c) ∨ t = an_term (nodes G c) ∧ an_role (nodes G c) ≠ CANDIDATE) ∧
    ∃ Q, quorum Q ∧ ∀ v, v ∈ Q → votes G t v = Some c;
  to_good : good_log G (tlog G t);
  to_terms i : 1 ≤ i ≤ zlen (tlog G t) → 1 ≤ term_at i (tlog G t) ≤ t;
  to_acks v : 0 ≤ acked G v t ≤ zlen (tlog G t);
  to_keeps s i : leader G t ≠ None → s < t → 1 ≤ i ≤ zlen (tlog G s) →
    term_at i (tlog G s) = s → keeps G (tlog G t) s i
}.

(** What the vote of [v] for [c] in term [t] means while [c] campaigns. *)
Record vote_ok G (t : Z) (v c : string) : Prop := {
  vo_term : t ≤ an_term (nodes G c);
  vo_keeps s i : an_term (nodes G c) = t → an_role (nodes G c) = CANDIDATE →
    s < t → 1 ≤ i ≤ acked G v s → term_at i (tlog G s) = s →
    keeps G (an_log (nodes G c)) s i
}.

Definition ae_ok G (l : string) (r : AppendEntriesArgs C) : Prop :=
  let tl := tlog G (ae_term r) in
  let k := ae_prev_log_index r + zlen (ae_entries r) in
  leader G (ae_term r) = Some l ∧ 0 ≤ ae_prev_log_index r ∧
  (ae_prev_log_term r = -1 ∧ 0 < ae_prev_log_index r ∨
   k ≤ zlen tl ∧ ae_prev_log_term r = term_at (ae_prev_log_index r) tl ∧
   pfx k tl = pfx (ae_prev_log_index r) tl ++ ae_entries r ∧
   ae_leader_commit r ≤ k ∧ committed_prefix G (ae_term r) (ae_leader_commit r) tl).

Definition payload_ok G (e : Envelope C) : Prop :=
  match env_message e with
  | MRequestVoteArgs r =>
      rv_candidate_id r = env_sender e ∧
      rv_term r ≤ an_term (nodes G (env_sender e)) ∧
      (an_term (nodes G (env_sender e)) = rv_term r → an_role (nodes G (env_sender e)) = CANDIDATE →
       rv_last_log_index r = zlen (an_log (nodes G (env_sender e))) ∧
       rv_last_log_term r = Storage.last_term_of (an_log (nodes G (env_sender e))))
  | MRequestVoteReply r =>
      rvr_vote_granted r = true →
      rvr_voter_id r = env_sender e ∧ votes G (rvr_term r) (env_sender e) = Some (env_recipient e)
  | MAppendEntriesArgs r => ae_ok G (env_sender e) r
  | MAppendEntriesReply r =>
      if aer_success r then 0 ≤ aer_match_index r ≤ acked G (env_sender e) (aer_term r)
      else aer_conflict_term r ≠ -1 → 1 ≤ aer_conflict_index r
  | MPreVoteArgs _ | MPreVoteReply _ => True
  end.

Definition msg_ok G (e : Envelope C) : Prop :=
  env_sender e ∈ members ∧ env_recipient e ∈ members ∧ env_sender e ≠ env_recipient e ∧
  payload_ok G e.

Record inv G : Prop := {
  i_node n : node_ok G n;
  i_term t : term_ok G t;
  i_vote t v c : votes G t v = Some c → vote_ok G t v c;
  i_msg e : e ∈ sent G → msg_ok G e
}.

(** ** What every action does to the history *)

Record evolves (n : string) G (G' : State C) : Prop := {
  ev_nodes m : m ≠ n → nodes G' m = nodes G m;
  ev_term : an_term (nodes G n) ≤ an_term (nodes G' n);
  ev_cand : an_role (nodes G' n) = CANDIDATE → an_term (nodes G' n) = an_term (nodes G n) →
    an_role (nodes G n) = CANDIDATE ∧ an_log (nodes G' n) = an_log (nodes G n);
  ev_leader t c : leader G t = Some c → leader G' t = Some c;
  ev_tlog t : tlog G t `prefix_of` tlog G' t;
  ev_tlog_only t : tlog G' t = tlog G t ∨ leader G' t = Some n;
  ev_votes t v c : votes G t v = Some c → votes G' t v = Some c;
  ev_votes_other t v : v ≠ n → votes G' t v = votes G t v;
  ev_acked v t : acked G v t ≤ acked G' v t;
  ev_acked_other v t : v ≠ n → acked G' v t = acked G v t;
  ev_acked_old t : t < an_term (nodes G n) → acked G' n t = acked G n t
}.

Section stability.
Context (n : string) (G G' : State C) (Hev : evolves n G G').

Lemma ev_term_any v : an_term (nodes G v) ≤ an_term (nodes G' v).
Proof.
  destruct (decide (v = n)) as [->|Hne]; [by apply ev_term|].
  rewrite (ev_nodes _ _ _ Hev v Hne). lia.
Qed.

Lemma ev_acked_past v s : s < an_term (nodes G v) → acked G' v s = acked G v s.
Proof.
  intros Hs. destruct (decide (v = n)) as [->|Hne];
    [by apply (ev_acked_old _ _ _ Hev)|by apply (ev_acked_other _ _ _ Hev)].
Qed.

Lemma ev_cand_any v :
  an_role (nodes G' v) = CANDIDATE → an_term (nodes G' v) = an_term (nodes G v) →
  an_role (nodes G v) = CANDIDATE ∧ an_log (nodes G' v) = an_log (nodes G v).
Proof.
  destruct (decide (v = n)) as [->|Hne]; [by apply ev_cand|].
  by rewrite (ev_nodes _ _ _ Hev v Hne).
Qed.

Lemma ev_leader_ne t : leader G t ≠ None → leader G' t ≠ None.
Proof.
  destruct (leader G t) eqn:E; [|done]. intros _.
  by rewrite (ev_leader _ _ _ Hev _ _ E).
Qed.

Lemma ev_tlog_pfx i t : i ≤ zlen (tlog G t) → pfx i (tlog G' t) = pfx i (tlog G t).
Proof. intros. by apply pfx_prefix; [apply (ev_tlog _ _ _ Hev)|]. Qed.

Lemma ev_tlog_len t : zlen (tlog G t) ≤ zlen (tlog G' t).
Proof. destruct (ev_tlog _ _ _ Hev t) as [k ->]. rewrite zlen_app. pose proof (zlen_nonneg k). lia. Qed.

Lemma ev_term_at i t : i ≤ zlen (tlog G t) → term_at i (tlog G' t) = term_at i (tlog G t).
Proof. intros. apply Storage.term_at_agree with i; [by apply ev_tlog_pfx|lia|done]. Qed.

Lemma dead_mono s i : dead G s i → dead G' s i.
Proof.
  intros (Q & HQ & H). exists Q. split; [done|]. intros v Hv. destruct (H v Hv) as [Ht Ha].
  rewrite ev_acked_past by done. pose proof (ev_term_any v). lia.
Qed.

Lemma committed_mono s i : committed G s i → committed G' s i.
Proof.
  intros (Hi & Ht & Q & HQ & H). split_and!.
  - pose proof (ev_tlog_len s). lia.
  - pose proof (ev_tlog_len s). lia.
  - by rewrite ev_term_at by lia.
  - exists Q. split; [done|]. intros v Hv. pose proof (ev_acked _ _ _ Hev v s). specialize (H v Hv). lia.
Qed.

Lemma keeps_mono l s i : i ≤ zlen (tlog G s) → keeps G l s i → keeps G' l s i.
Proof.
  intros Hi [H|H]; [left|right; by apply dead_mono]. by rewrite ev_tlog_pfx.
Qed.

Lemma good_log_mono l : good_log G l → good_log G' l.
Proof.
  intros H i Hi. destruct (H i Hi) as [Hl Hp]. split; [by apply ev_leader_ne|].
  rewrite ev_tlog_pfx; [done|].
  eapply pfx_agree_len; [|symmetry; exact Hp]. lia.
Qed.

Lemma committed_prefix_mono t k l : committed_prefix G t k l → committed_prefix G' t k l.
Proof.
  intros [->|(s & i & Hc & Hs & Hk & Hp)]; [by left|right].
  exists s, i. split_and!; [by apply committed_mono|done|done|].
  destruct Hc as (Hi & _). rewrite ev_tlog_pfx by lia. done.
Qed.

Lemma ae_ok_mono l r : ae_ok G l r → ae_ok G' l r.
Proof.
  intros (Hl & Hp & H). split; [by apply (ev_leader _ _ _ Hev)|]. split; [done|].
  destruct H as [H|(Hk & Ht & He & Hc & Hcp)]; [by left|right].
  pose proof (zlen_nonneg (ae_entries r)). pose proof (ev_tlog_len (ae_term r)).
  rewrite ev_term_at, !ev_tlog_pfx by lia. split_and!; try done; [lia|].
  apply committed_prefix_mono in Hcp. destruct Hcp as [?|(s & i & Hcc & Hs & Hk' & Hpp)]; [by left|right].
  exists s, i. split_and!; try done. rewrite ev_tlog_pfx by lia. done.
Qed.

Lemma payload_ok_mono e : payload_ok G e → payload_ok G' e.
Proof.
  unfold payload_ok. destruct (env_message e) as [r|r|r|r|r|r]; [..|done|done].
  - intros (Hc & Ht & H). pose proof (ev_term_any (env_sender e)).
    split_and!; [done|lia|]. intros Heq Hrole.
    destruct (ev_cand_any _ Hrole ltac:(lia)) as [Hr ->]. apply H; [lia|done].
  - intros H Hg. destruct (H Hg) as [? Hv]. split; [done|]. by apply (ev_votes _ _ _ Hev).
  - apply ae_ok_mono.
  - destruct (aer_success r); [|done]. pose proof (ev_acked _ _ _ Hev (env_sender e) (aer_term r)). lia.
Qed.

Lemma msg_ok_mono e : msg_ok G e → msg_ok G' e.
Proof. intros (? & ? & ? & ?). split_and!; try done. by apply payload_ok_mono. Qed.

Hypothesis Hinv : inv G.

Lemma vote_ok_mono t v c : votes G t v = Some c → vote_ok G' t v c.
Proof.
  intros Hv. destruct (i_vote _ Hinv _ _ _ Hv) as [Ht Hk].
  assert (Htv : t ≤ an_term (nodes G v)).
  { destruct (Z.le_gt_cases t (an_term (nodes G v))) as [|Hgt]; [done|].
    apply (no_future_votes _ _ (i_node _ Hinv v)) in Hgt. congruence. }
  pose proof (ev_term_any c). split; [lia|].
  intros s i Heq Hrole Hs Hi Hterm. rewrite ev_acked_past in Hi by lia.
  pose proof (to_acks _ _ (i_term _ Hinv s) v).
  destruct (ev_cand_any _ Hrole ltac:(lia)) as [Hr ->].
  rewrite ev_term_at in Hterm by lia.
  apply keeps_mono; [lia|]. apply Hk; try done. lia.
Qed.

(** Nodes that did not act keep their invariant. *)
Lemma node_ok_other m : m ≠ n → node_ok G' m.
Proof.
  intros Hne. pose proof (i_node _ Hinv m) as Hm.
  pose proof (ev_nodes _ _ _ Hev m Hne) as Hnode.
  destruct Hm as [].
  split; rewrite ?Hnode; try done.
  - by rewrite (ev_votes_other _ _ _ Hev).
  - intros. rewrite (ev_votes_other _ _ _ Hev) by done. auto.
  - intros. rewrite (ev_acked_other _ _ _ Hev) by done. auto.
  - by apply good_log_mono.
  - intros v Hr Hv. destruct (no_votes0 v Hr Hv). split; [done|]. by apply (ev_votes _ _ _ Hev).
  - intros Hr. destruct (no_leader0 Hr) as (Hl & Ht & Ha). split_and!.
    + by apply (ev_leader _ _ _ Hev).
    + destruct (ev_tlog_only _ _ _ Hev (an_term (nodes G m))) as [->|Hn]; [done|].
      apply (ev_leader _ _ _ Hev) in Hl. congruence.
    + by rewrite (ev_acked_other _ _ _ Hev).
  - intros p k Hr Hk. destruct (no_match0 p k Hr Hk) as (? & ? & ?).
    pose proof (ev_acked _ _ _ Hev p (an_term (nodes G m))). split_and!; try done. lia.
  - destruct no_commit0 as [? Hc]. split; [done|]. by apply committed_prefix_mono.
  - intros s i Hi Ht. rewrite (ev_acked_other _ _ _ Hev) in Hi by done.
    pose proof (to_acks _ _ (i_term _ Hinv s) m). rewrite ev_term_at in Ht by lia.
    apply keeps_mono; [lia|]. auto.
Qed.

(** The leader of a term keeps its election facts. *)
Lemma to_elected_mono t c : leader G t = Some c →
  1 ≤ t ∧ c ∈ members ∧
  (t < an_term (nodes G' c) ∨ t = an_term (nodes G' c) ∧ an_role (nodes G' c) ≠ CANDIDATE) ∧
  ∃ Q, quorum Q ∧ ∀ v, v ∈ Q → votes G' t v = Some c.
Proof.
  intros Hl. destruct (to_elected _ _ (i_term _ Hinv t) c Hl) as (H1 & Hc & H2 & Q & HQ & Hv).
  split; [done|]. split; [done|]. split.
  - pose proof (ev_term_any c). destruct H2 as [?|[? Hr]]; [left; lia|].
    destruct (Z.lt_ge_cases t (an_term (nodes G' c))) as [|]; [by left|right].
    split; [lia|]. intros Hcand. destruct (ev_cand_any c Hcand ltac:(lia)). done.
  - exists Q. split; [done|]. intros v Hq. by apply (ev_votes _ _ _ Hev), Hv.
Qed.

(** A term whose leader and log did not change keeps its invariant, as long
    as acknowledgements stay within the log and the entries created meanwhile
    in earlier terms are dead. *)
Lemma term_ok_same t :
  leader G' t = leader G t → tlog G' t = tlog G t →
  (∀ v, acked G' v t ≤ zlen (tlog G t)) →
  (∀ s i, leader G t ≠ None → s < t → zlen (tlog G s) < i ≤ zlen (tlog G' s) →
     term_at i (tlog G' s) = s → dead G' s i) →
  term_ok G' t.
Proof.
  intros Hl Ht Ha Hnew. pose proof (i_term _ Hinv t) as Ho. destruct Ho.
  split; rewrite ?Hl, ?Ht; try done.
  - intros Hnone. destruct (to_none0 Hnone) as [E H0]. split; [done|]. intros v.
    specialize (Ha v). pose proof (ev_acked _ _ _ Hev v t). rewrite E in Ha. rewrite H0 in H.
    unfold zlen in Ha. simpl in Ha. lia.
  - intros c Hc. by apply to_elected_mono.
  - by apply good_log_mono.
  - intros v. pose proof (ev_acked _ _ _ Hev v t). specialize (to_acks0 v). specialize (Ha v). lia.
  - intros s i Hle Hs Hi Hterm. destruct (Z.le_gt_cases i (zlen (tlog G s))) as [Hi'|Hi'].
    + rewrite ev_term_at in Hterm by done. apply keeps_mono; [done|]. by apply to_keeps0; try lia.
    + right. apply Hnew; try done. lia.
Qed.

(** Assembling the invariant after an action that creates no leader and no
    leader entry. *)
Lemma inv_quiet :
  (∀ t, leader G' t = leader G t) → (∀ t, tlog G' t = tlog G t) →
  (∀ t, acked G' n t ≤ zlen (tlog G t)) →
  node_ok G' n →
  (∀ t c, votes G' t n = Some c → votes G t n = Some c ∨ vote_ok G' t n c) →
  (∀ e, e ∈ sent G' → e ∈ sent G ∨ msg_ok G' e) →
  inv G'.
Proof.
  intros Hl Ht Ha Hn Hv Hm. split.
  - intros m. destruct (decide (m = n)) as [->|]; [done|by apply node_ok_other].
  - intros t. apply term_ok_same; [done|done| |].
    + intros v. destruct (decide (v = n)) as [->|]; [done|].
      rewrite (ev_acked_other _ _ _ Hev) by done. apply (to_acks _ _ (i_term _ Hinv t)).
    + intros s i _ _ Hi. rewrite Ht in Hi. lia.
  - intros t v c Hc. destruct (decide (v = n)) as [->|].
    + destruct (Hv t c Hc); [by apply vote_ok_mono|done].
    + rewrite (ev_votes_other _ _ _ Hev) in Hc by done. by apply vote_ok_mono.
  - intros e He. destruct (Hm e He); [|done]. by apply msg_ok_mono, (i_msg _ Hinv).
Qed.

End stability.
End inv.
End Inv.
