(* ===== verification/RaftLogs.v ===== *)
(** * Log facts of the abstract protocol

    Order of terms inside a good log, the merge of an AppendEntries suffix,
    the consequence of the voting rule, and the majority rule of the commit
    index. *)

From stdpp Require Import base gmap strings list functions relations sorting fin_sets.
From Stdlib Require Import ZArith Lia.
From S2P Require Import Prelude RaftTypes Storage RaftNode RaftSpec RaftInv.
Import Spec Inv.

Local Open Scope Z_scope.

Module Logs.
Section logs.
Context {C : Type}.
Variable members : gset string.
Abbreviation log := (list (LogEntry C)).
Abbreviation term_at := (@Storage.term_at_of C).
Implicit Types (G : State C) (l : log).

Definition positive_terms l : Prop := ∀ i, 1 ≤ i ≤ zlen l → 1 ≤ term_at i l.

Lemma good_log_pfx G k l : good_log G l → good_log G (pfx k l).
Proof.
  intros H i Hi. pose proof (zlen_pfx_le k l).
  assert (Hik : i ≤ k).
  { destruct (Z.le_gt_cases i k); [done|]. unfold zlen, pfx in Hi. rewrite length_take in Hi. lia. }
  rewrite Storage.term_at_pfx, decide_True by lia. rewrite pfx_pfx by done. apply H. lia.
Qed.

Lemma term_at_pfx_in i k l : 1 ≤ i ≤ zlen (pfx k l) → term_at i (pfx k l) = term_at i l ∧ i ≤ zlen l.
Proof.
  intros Hi. pose proof (zlen_pfx_le k l).
  assert (Hik : i ≤ k).
  { destruct (Z.le_gt_cases i k); [done|]. unfold zlen, pfx in Hi. rewrite length_take in Hi. lia. }
  rewrite Storage.term_at_pfx, decide_True by lia. split; [done|lia].
Qed.

Section with_terms.
Context G (Hterms : ∀ t i, 1 ≤ i ≤ zlen (tlog G t) → 1 ≤ term_at i (tlog G t) ≤ t).
Context (Hgood : ∀ t, good_log G (tlog G t)).

(** Terms never decrease along a good log. *)
Lemma good_log_sorted l i j :
  good_log G l → 1 ≤ i ≤ j → j ≤ zlen l → term_at i l ≤ term_at j l.
Proof.
  intros Hg Hij Hj. destruct (Hg j ltac:(lia)) as [_ Hp].
  assert (Hlen : j ≤ zlen (tlog G (term_at j l))).
  { eapply pfx_agree_len; [|symmetry; exact Hp]. done. }
  rewrite (Storage.term_at_agree i j l (tlog G (term_at j l))) by (done || lia).
  apply Hterms. lia.
Qed.

Lemma good_log_positive l : good_log G l → positive_terms l.
Proof.
  intros Hg i Hi. destruct (Hg i Hi) as [_ Hp].
  assert (Hlen : i ≤ zlen (tlog G (term_at i l))).
  { eapply pfx_agree_len; [|symmetry; exact Hp]. lia. }
  rewrite (Storage.term_at_agree i i l (tlog G (term_at i l))) by (done || lia).
  apply Hterms. lia.
Qed.

(** Two good logs that hold the same term at an index agree up to it. *)
Lemma good_logs_match l1 l2 i :
  good_log G l1 → good_log G l2 → 1 ≤ i ≤ zlen l1 → i ≤ zlen l2 →
  term_at i l1 = term_at i l2 → pfx i l1 = pfx i l2.
Proof.
  intros H1 H2 Hi1 Hi2 Ht. destruct (H1 i Hi1) as [_ P1]. destruct (H2 i ltac:(lia)) as [_ P2].
  by rewrite P1, P2, Ht.
Qed.

(** The merge yields the leader's prefix of length [k], and drops an entry of
    the old log only when it disagrees with the leader's log. *)
Lemma merge_spec l tl es : good_log G l → good_log G tl → ∀ idx k,
  1 ≤ idx → k = idx - 1 + zlen es → k ≤ zlen tl →
  pfx (idx - 1) l = pfx (idx - 1) tl →
  pfx k tl = pfx (idx - 1) tl ++ es →
  pfx k (merge idx es l) = pfx k tl ∧
  (merge idx es l = l ∨
   merge idx es l = pfx k tl ∧ ∀ j, j ≤ zlen l → pfx j l = pfx j tl → j ≤ k).
Proof.
  intros Hl Htl. induction es as [|e es IH]; intros idx k Hidx -> Hk Hag Htk.
  { simpl. replace (idx - 1 + zlen []) with (idx - 1) by (unfold zlen; simpl; lia).
    split; [done|by left]. }
  assert (Hz : zlen (e :: es) = zlen es + 1) by (unfold zlen; simpl; lia).
  pose proof (zlen_nonneg es) as Hes. rewrite Hz in *.
  assert (Hlen1 : idx - 1 ≤ zlen l) by (eapply pfx_agree_len; [|exact Hag]; lia).
  assert (Hpt : pfx (idx - 1) tl ++ e :: es = (pfx (idx - 1) tl ++ [e]) ++ es)
    by (by rewrite <- (assoc_L (++))).
  assert (Hpi : pfx idx tl = pfx (idx - 1) tl ++ [e]).
  { rewrite <- (pfx_pfx idx (idx - 1 + (zlen es + 1))) by lia. rewrite Htk, Hpt.
    rewrite pfx_app_le;
      [|rewrite zlen_app, zlen_pfx by lia; unfold zlen; simpl; lia].
    apply pfx_all. rewrite zlen_app, zlen_pfx by lia. unfold zlen. simpl. lia. }
  assert (Hte : term_at idx tl = entry_term e).
  { rewrite (Storage.term_at_agree idx idx tl (pfx (idx - 1) tl ++ [e])).
    - assert (Hi : zlen (pfx (idx - 1) tl) + 1 = idx) by (rewrite zlen_pfx; lia).
      rewrite <- Hi at 1. apply Storage.term_at_snoc.
    - rewrite Hpi. symmetry. apply pfx_all. rewrite <- Hpi. rewrite zlen_pfx; lia.
    - lia.
    - rewrite <- Hpi, zlen_pfx; lia. }
  simpl. destruct (Z.eqb_spec (term_at idx l) (-1)) as [Hm1|Hm1].
  { assert (Hll : zlen l = idx - 1).
    { destruct (Z.le_gt_cases idx (zlen l)) as [Hin|]; [|lia].
      pose proof (good_log_positive l Hl idx ltac:(lia)). lia. }
    assert (El : l ++ e :: es = pfx (idx - 1 + (zlen es + 1)) tl)
      by (rewrite Htk, <- Hag, (pfx_all (idx - 1) l); [done|lia]).
    rewrite El, pfx_pfx by lia. split; [done|right]. split; [done|]. lia. }
  destruct (Z.eqb_spec (term_at idx l) (entry_term e)) as [Heq|Hneq]; simpl.
  - assert (Hin : idx ≤ zlen l).
    { destruct (Z.le_gt_cases idx (zlen l)); [done|].
      rewrite (Storage.term_at_outside idx l) in Hm1; lia. }
    replace (idx - 1 + (zlen es + 1)) with (idx + 1 - 1 + zlen es) in * by lia.
    apply IH; [lia|done|done| |].
    + replace (idx + 1 - 1) with idx by lia. apply good_logs_match; try done; lia.
    + replace (idx + 1 - 1) with idx in * by lia. by rewrite Hpi, Htk, Hpt.
  - rewrite Hag, <- Htk, pfx_pfx by lia. split; [done|right]. split; [done|].
    intros j Hj Hpj. destruct (Z.le_gt_cases idx j) as [Hij|]; [|lia].
    exfalso. apply Hneq. rewrite <- Hte.
    destruct (Z.le_gt_cases idx (zlen l)) as [Hin|Hout].
    + symmetry. by apply Storage.term_at_agree with j.
    + lia.
Qed.

(** A good log that is at least as up to date as [l] keeps the entries of
    earlier terms that [l] holds, unless they are dead. *)
Lemma up_to_date_keeps l lc s i :
  (∀ u, leader G u ≠ None → s < u → 1 ≤ i ≤ zlen (tlog G s) → term_at i (tlog G s) = s →
     keeps members G (tlog G u) s i) →
  good_log G l → good_log G lc →
  1 ≤ i ≤ zlen (tlog G s) → term_at i (tlog G s) = s →
  pfx i l = pfx i (tlog G s) →
  up_to_date l (zlen lc) (Storage.last_term_of lc) = true →
  keeps members G lc s i.
Proof.
  intros Hlater Hl Hlc Hi Ht Hag Hup.
  assert (Hil : i ≤ zlen l) by (eapply pfx_agree_len; [|exact Hag]; lia).
  assert (Hs : term_at i l = s).
  { transitivity (term_at i (tlog G s)); [|done]. apply Storage.term_at_agree with i; [done|lia|lia]. }
  assert (Hw : s ≤ Storage.last_term_of l).
  { rewrite Storage.last_term_at, <- Hs. apply good_log_sorted; [done|lia|lia]. }
  assert (Hs1 : 1 ≤ s) by (rewrite <- Hs; apply good_log_positive; [done|lia]).
  unfold up_to_date in Hup. rewrite Storage.last_term_at in Hup. set (u := term_at (zlen lc) lc) in *.
  destruct (Z.eq_dec u s) as [Hus|Hus].
  - (* the same last term: the candidate's log is at least as long *)
    assert (Hlen : zlen l ≤ zlen lc).
    { destruct (Z.eqb_spec u (Storage.last_term_of l)); simpl in Hup;
        [by apply Z.leb_le|]. apply Z.ltb_lt in Hup. lia. }
    destruct (Hlc (zlen lc) ltac:(lia)) as [_ Hp]. fold u in Hp. rewrite Hus in Hp.
    left. apply (pfx_agree_le i (zlen lc)); [lia|done].
  - (* a later last term: its leader kept the entry *)
    assert (Hsu : s < u).
    { destruct (Z.eqb_spec u (Storage.last_term_of l)); simpl in Hup; [lia|].
      apply Z.ltb_lt in Hup. lia. }
    assert (Hlc1 : 1 ≤ zlen lc).
    { pose proof (zlen_nonneg lc). destruct (Z.eq_dec (zlen lc) 0) as [E|]; [|lia].
      unfold u in Hsu. rewrite E, Storage.term_at_0 in Hsu. lia. }
    destruct (Hlc (zlen lc) ltac:(lia)) as [Hlead Hp]. fold u in Hlead, Hp.
    destruct (Hlater u Hlead Hsu Hi Ht) as [Hk|Hd]; [|by right].
    assert (Hul : zlen lc ≤ zlen (tlog G u))
      by (eapply pfx_agree_len; [|symmetry; exact Hp]; lia).
    assert (Hiu : i ≤ zlen (tlog G u)) by (eapply pfx_agree_len; [|exact Hk]; lia).
    destruct (Z.le_gt_cases i (zlen lc)) as [Hle|Hgt].
    + left. rewrite <- Hk. by apply (pfx_agree_le i (zlen lc)).
    + exfalso.
      assert (Hui : term_at (zlen lc) (tlog G u) = u).
      { symmetry. unfold u at 1. apply Storage.term_at_agree with (zlen lc); [done|lia|done]. }
      assert (Htu : term_at i (tlog G u) = s).
      { transitivity (term_at i (tlog G s)); [|done]. apply Storage.term_at_agree with i; [done|lia|lia]. }
      pose proof (good_log_sorted (tlog G u) (zlen lc) i (Hgood u) ltac:(lia) Hiu). lia.
Qed.
End with_terms.
(** ** The majority rule of the commit index *)

Lemma geb_total x y : (y <=? x) = true ∨ (x <=? y) = true.
Proof. lia. Qed.
Lemma geb_trans x y z : (y <=? x) = true → (z <=? y) = true → (z <=? x) = true.
Proof. lia. Qed.

(** In a descending list, the entries up to position [i] are at least the one
    at [i]. *)
Lemma descending_count (l : list Z) (i : nat) (k : Z) :
  StronglySorted (λ x y, Is_true (y <=? x)) l → l !! i = Some k →
  (i + 1 ≤ length (filter (λ x : Z, (k ≤ x)%Z) l))%nat.
Proof.
  intros Hs. revert i. induction Hs as [|x l Hs IH Hx]; intros i Hi; [done|].
  assert (Hkx : k ≤ x).
  { destruct i as [|i]; simpl in Hi; [simplify_eq; done|].
    apply list_elem_of_lookup_2 in Hi. rewrite Forall_forall in Hx. specialize (Hx k Hi).
    by apply Is_true_true, Z.leb_le in Hx. }
  rewrite filter_cons_True by done. simpl. destruct i as [|i]; [lia|]. simpl in Hi.
  specialize (IH i Hi). lia.
Qed.

Lemma filter_values_size (mi : gmap string Z) (k : Z) :
  length (filter (λ x, k ≤ x) (map_to_list mi).*2) = size (dom (filter (λ pm, k ≤ pm.2) mi)).
Proof.
  rewrite size_dom. induction mi as [|p m mi Hp IH] using map_ind.
  { by rewrite map_to_list_empty, map_filter_empty, map_size_empty. }
  rewrite map_to_list_insert, fmap_cons, map_filter_insert by done. simpl.
  destruct (decide (k ≤ m)) as [Hk|Hk].
  - rewrite filter_cons_True by done. simpl. rewrite IH.
    rewrite map_size_insert_None; [done|]. apply map_lookup_filter_None. by left.
  - rewrite filter_cons_False by done. rewrite IH. by rewrite delete_id.
Qed.

Lemma commit_candidate_quorum n (last : Z) (mi : gmap string Z) (k : Z) :
  n ∈ members →
  (∀ p m, mi !! p = Some m → p ∈ members ∧ p ≠ n) →
  Raft.commit_candidate last mi (majority members) = Some k →
  ∃ Q, quorum members Q ∧ ∀ v, v ∈ Q → v = n ∧ k ≤ last ∨ ∃ m, mi !! v = Some m ∧ k ≤ m.
Proof.
  intros Hn Hmi Hc. unfold Raft.commit_candidate in Hc.
  pose proof (descending_count _ _ _ (isort_sorted (λ x y, y <=? x) geb_total geb_trans _) Hc) as Hcnt.
  rewrite isort_perm in Hcnt.
  set (D := dom (filter (λ pm : string * Z, k ≤ pm.2) mi)).
  assert (HD : ∀ v, v ∈ D → ∃ m, mi !! v = Some m ∧ k ≤ m).
  { intros v Hv. apply elem_of_dom in Hv as [m Hm]. apply map_lookup_filter_Some in Hm. eauto. }
  assert (HnD : n ∉ D) by (intros Hin; destruct (HD n Hin) as (m & Hm & _); by destruct (Hmi n m Hm)).
  assert (HDm : D ⊆ members) by (intros v Hv; destruct (HD v Hv) as (m & Hm & _); by destruct (Hmi v m Hm)).
  assert (Hmaj : 1 ≤ majority members) by (unfold majority; pose proof (Z.div_pos (Z.of_nat (size members)) 2); lia).
  destruct (decide (k ≤ last)) as [Hl|Hl].
  - exists ({[n]} ∪ D). rewrite filter_cons_True in Hcnt by done. simpl in Hcnt.
    rewrite filter_values_size in Hcnt. fold D in Hcnt. split.
    + split; [set_solver|]. rewrite size_union, size_singleton by set_solver. lia.
    + intros v [->%elem_of_singleton|Hv]%elem_of_union; [by left|right; auto].
  - exists D. rewrite filter_cons_False in Hcnt by done. rewrite filter_values_size in Hcnt. fold D in Hcnt.
    split; [split; [done|lia]|]. intros v Hv. right. auto.
Qed.

End logs.
End Logs.
