(* ===== verification/RaftActions.v ===== *)
(** * Every action preserves the invariant *)

From stdpp Require Import base gmap strings list functions relations fin_sets.
From Stdlib Require Import ZArith Lia.
From S2P Require Import Prelude RaftTypes Storage RaftNode RaftSpec RaftInv RaftLogs.
Import Spec Inv Logs.

Local Open Scope Z_scope.

Module Actions.

(** Reads of the functional updates of the specification state. *)
Ltac fn_simpl :=
  repeat first
    [ progress simpl
    | rewrite fn_lookup_insert
    | match goal with
      | Hne : ?x ≠ ?y |- context [(<[?x := _]> _) ?y] => rewrite (fn_lookup_insert_ne _ x y) by exact Hne
      | Hne : ?y ≠ ?x |- context [(<[?x := _]> _) ?y] =>
          rewrite (fn_lookup_insert_ne _ x y) by (intros Heq; apply Hne; by symmetry)
      end ].

Section actions.
Context {C : Type}.
Variable members : gset string.
Abbreviation log := (list (LogEntry C)).
Abbreviation term_at := (@Storage.term_at_of C).
Abbreviation inv := (@Inv.inv C members).
Abbreviation node_ok := (@Inv.node_ok C members).
Abbreviation term_ok := (@Inv.term_ok C members).
Abbreviation vote_ok := (@Inv.vote_ok C members).
Abbreviation msg_ok := (@Inv.msg_ok C members).
Implicit Types (G : State C) (a : ANode C).

(** ** The initial state *)

Lemma inv_initial : inv initial.
Proof.
  assert (H0 : ∀ i, ¬ (1 ≤ i ≤ zlen (@nil (LogEntry C)))) by (unfold zlen; simpl; lia).
  split; simpl.
  - intros n. split; simpl; try done; try lia.
    + intros i Hi. by destruct (H0 i).
    + intros i Hi. by destruct (H0 i).
    + split; [unfold zlen; simpl; lia|by left].
  - intros t. split; simpl; try done; try lia.
    + intros i Hi. by destruct (H0 i).
    + intros i Hi. by destruct (H0 i).
  - done.
  - intros e He. by apply not_elem_of_nil in He.
Qed.

Section step.
Context (n : string) (G : State C) (Hmem : n ∈ members) (Hinv : inv G).

Let Hn : node_ok G n := i_node _ _ Hinv n.
Abbreviation old := (nodes G n).

Lemma tlog_terms t i : 1 ≤ i ≤ zlen (tlog G t) → 1 ≤ term_at i (tlog G t) ≤ t.
Proof. apply (to_terms _ _ _ (i_term _ _ Hinv t)). Qed.

Lemma tlog_good t : good_log G (tlog G t).
Proof. apply (to_good _ _ _ (i_term _ _ Hinv t)). Qed.

Lemma committed_prefix_le t t' k l :
  t ≤ t' → committed_prefix members G t k l → committed_prefix members G t' k l.
Proof.
  intros Ht [->|(s & i & Hc & Hs & Hk)]; [by left|right]. exists s, i. split; [done|]. split; [lia|done].
Qed.

(** Acknowledgements after [set_ack]. *)
Lemma ack_new G0 v u m : acked (set_ack v u m G0) v u = m.
Proof. simpl. by rewrite !fn_lookup_insert. Qed.

Lemma ack_old G0 v u m v' u' : v' ≠ v ∨ u' ≠ u → acked (set_ack v u m G0) v' u' = acked G0 v' u'.
Proof.
  intros Hvu. simpl. destruct (decide (v' = v)) as [->|]; fn_simpl; [|done].
  rewrite fn_lookup_insert_ne; [done|]. destruct Hvu; congruence.
Qed.

Lemma ack_grows G0 v u m v' u' : acked G0 v u ≤ m → acked G0 v' u' ≤ acked (set_ack v u m G0) v' u'.
Proof.
  intros Hm. destruct (decide (v' = v ∧ u' = u)) as [[-> ->]|Hvu]; [by rewrite ack_new|].
  rewrite ack_old; [lia|]. destruct (decide (v' = v)); naive_solver.
Qed.

Lemma evolves_set_node a :
  an_term old ≤ an_term a →
  (an_role a = CANDIDATE → an_term a = an_term old → an_role old = CANDIDATE ∧ an_log a = an_log old) →
  evolves n G (set_node n a G).
Proof.
  intros Ht Hc. split; simpl; try done.
  - intros m Hne. by rewrite fn_lookup_insert_ne.
  - by rewrite fn_lookup_insert.
  - by rewrite fn_lookup_insert.
  - intros t. by left.
Qed.

(** An action that only touches the node's own attributes, and not its log. *)
Lemma inv_set_node a :
  an_term old ≤ an_term a →
  (an_role a = CANDIDATE → an_term a = an_term old → an_role old = CANDIDATE) →
  an_log a = an_log old →
  votes G (an_term a) n = an_voted a →
  (an_role a ≠ FOLLOWER → an_role old ≠ FOLLOWER ∧ an_term a = an_term old ∧
     ∀ v, v ∈ an_votes a → v ∈ members ∧ votes G (an_term old) v = Some n) →
  (an_role a = LEADER → an_role old = LEADER ∧
     ∀ p m, an_match a !! p = Some m → p ∈ members ∧ p ≠ n ∧ m ≤ acked G p (an_term old)) →
  0 ≤ an_commit a ≤ zlen (an_log old) →
  Spec.committed_prefix members G (an_term a) (an_commit a) (an_log old) →
  0 ≤ an_applied a ≤ an_commit a →
  inv (set_node n a G).
Proof.
  intros Ht Hcand Hlog Hvoted Hrole Hlead Hcommit Hcp Happ.
  assert (Hev : evolves n G (set_node n a G)) 
    by (apply evolves_set_node; [done|]; intros Hc Et; split; [by apply Hcand|done]).
  apply (inv_quiet members n G _ Hev Hinv); simpl; try done.
  - intros t. apply (to_acks _ _ _ (i_term _ _ Hinv t)).
  - destruct Hn. split; simpl; rewrite ?fn_lookup_insert, ?Hlog; try done.
    + lia.
    + intros t Hlt. apply no_future_votes0. lia.
    + intros t Hlt. apply no_future_acks0. lia.
    + intros i Hi. specialize (no_log_terms0 i Hi). lia.
    + intros Hr. destruct (Hrole Hr) as (Hr0 & Et & _). rewrite Et, <- Hvoted, Et, no_voted0. by apply no_cand0.
    + intros v Hr Hv. destruct (Hrole Hr) as (Hr0 & Et & Hvs). rewrite Et. by apply Hvs.
    + intros Hr. destruct (Hrole ltac:(congruence)) as (_ & Et & _). rewrite Et.
      apply no_leader0. by apply Hlead.
    + intros p m Hr Hm. destruct (Hrole ltac:(congruence)) as (_ & Et & _). rewrite Et.
      by apply Hlead.
    + intros s i Hi Hti. apply (keeps_mono members n G _ Hev); [|by apply no_keeps0].
      pose proof (to_acks _ _ _ (i_term _ _ Hinv s) n). lia.
  - intros t c Hv. by left.
  - intros e He. by left.
Qed.

Lemma inv_bump t : an_term old < t → inv (set_node n (bump t old) G).
Proof.
  intros Hlt. destruct Hn. apply inv_set_node; simpl; try done; try lia.
  - by apply no_future_votes0.
  - eapply committed_prefix_le; [|by apply no_commit0]. lia.
Qed.

Lemma inv_demote : inv (set_node n (demote old) G).
Proof.
  destruct Hn. apply inv_set_node; simpl; try done; try lia; by apply no_commit0.
Qed.

Lemma inv_restart : inv (set_node n (reboot old) G).
Proof.
  destruct Hn. apply inv_set_node; simpl; try done; try lia; by left || apply zlen_nonneg.
Qed.

Lemma inv_count e r :
  e ∈ sent G → env_recipient e = n → env_message e = MRequestVoteReply r →
  rvr_vote_granted r = true → rvr_term r = an_term old → an_role old = CANDIDATE →
  inv (set_node n (count_vote (rvr_voter_id r) old) G).
Proof.
  intros He Hto Hm Hg Ht Hr.
  destruct (i_msg _ _ Hinv e He) as (Hs & _ & _ & Hp). unfold payload_ok in Hp. rewrite Hm in Hp.
  destruct (Hp Hg) as [Hv1 Hv2]. rewrite Hto, Ht in Hv2.
  destruct Hn. apply inv_set_node; simpl; try done; try lia.
  - intros Hne. split_and!; [done|done|]. intros v [Hv| ->%elem_of_singleton]%elem_of_union.
    + by apply no_votes0.
    + by rewrite Hv1.
  - congruence.
  - by apply no_commit0.
Qed.

Lemma inv_ack e r :
  e ∈ sent G → env_recipient e = n → env_message e = MAppendEntriesReply r →
  aer_success r = true → aer_term r = an_term old → an_role old = LEADER →
  inv (set_node n (with_match (<[env_sender e := aer_match_index r]> (an_match old)) old) G).
Proof.
  intros He Hto Hm Hg Ht Hr.
  destruct (i_msg _ _ Hinv e He) as (Hs & _ & Hne & Hp). unfold payload_ok in Hp. rewrite Hm, Hg, Ht in Hp.
  destruct Hn. apply inv_set_node; simpl; try done; try lia.
  - intros _. split_and!; [congruence|done|]. intros v Hv. apply no_votes0; [congruence|done].
  - intros _. split; [done|]. intros p m [[<- <-]|[Hpe Hpm]]%lookup_insert_Some; [|by apply no_match0].
    split_and!; [done|congruence|lia].
  - by apply no_commit0.
Qed.

Lemma inv_apply e : an_applied old < an_commit old → inv (set_node n (with_applied e old) G).
Proof.
  intros Hlt. destruct Hn. apply inv_set_node; simpl; try done; try lia.
  - intros Hr. split_and!; [done|done|]. intros v Hv. by apply no_votes0.
  - intros Hr. split; [done|]. intros p m Hm. by apply no_match0.
  - by apply no_commit0.
Qed.

Lemma inv_commit k :
  an_role old = LEADER →
  Raft.commit_candidate (zlen (an_log old)) (an_match old) (majority members) = Some k →
  an_commit old < k → term_at k (an_log old) = an_term old →
  inv (set_node n (with_commit k old) G).
Proof.
  intros Hr Hc Hlt Hk.
  assert (Hmi : ∀ p m, an_match old !! p = Some m → p ∈ members ∧ p ≠ n).
  { intros p m Hm. by destruct (no_match _ _ _ Hn p m Hr Hm) as (? & ? & _). }
  destruct (commit_candidate_quorum members n _ _ k Hmem Hmi Hc) as (Q & HQ & Hq).
  destruct Hn. destruct (no_leader0 Hr) as (Hl & Htl & Ha).
  assert (Hki : 0 ≤ k ≤ zlen (an_log (nodes G n))).
  { destruct no_commit0 as [[H0 H1] _]. split; [lia|].
    destruct (Z.le_gt_cases k (zlen (an_log (nodes G n)))); [done|].
    rewrite Storage.term_at_outside in Hk by lia. lia. }
  assert (Hcm : committed members G (an_term (nodes G n)) k).
  { rewrite <- Htl in Hk, Hki. split_and!; [lia|lia|done|].
    exists Q. split; [done|]. intros v Hv. destruct (Hq v Hv) as [[-> ?]|(m & Hm & ?)]; [lia|].
    destruct (no_match0 v m Hr Hm) as (_ & _ & ?). lia. }
  apply inv_set_node; simpl; try done; try lia.
  - intros _. split_and!; [congruence|done|]. intros v Hv. apply no_votes0; [congruence|done].
  - intros _. split; [done|]. intros p m Hm. by apply no_match0.
  - right. exists (an_term (nodes G n)), k. split_and!; [done|lia|lia|]. by rewrite Htl.
Qed.

(** ** Elections *)

Lemma evolves_vote t c a :
  an_term old ≤ an_term a → t = an_term a →
  (an_role a = CANDIDATE → an_term a = an_term old → an_role old = CANDIDATE ∧ an_log a = an_log old) →
  votes G t n = None ∨ votes G t n = Some c →
  evolves n G (set_vote t n c (set_node n a G)).
Proof.
  intros Hle -> Hc Hv. split; simpl; try done.
  - intros m Hne. by rewrite fn_lookup_insert_ne.
  - by rewrite fn_lookup_insert.
  - by rewrite fn_lookup_insert.
  - intros t. by left.
  - intros t v c' Hvc. destruct (decide (t = an_term a)) as [->|]; fn_simpl; [|done].
    destruct (decide (v = n)) as [->|]; fn_simpl; [|done]. destruct Hv; congruence.
  - intros t v Hne. destruct (decide (t = an_term a)) as [->|]; fn_simpl; done.
Qed.

Lemma inv_campaign : inv (set_vote (an_term old + 1) n n (set_node n (campaign n old) G)).
Proof.
  set (G' := set_vote _ _ _ _).
  assert (Hnone : votes G (an_term old + 1) n = None).
  { apply (no_future_votes _ _ _ Hn). lia. }
  assert (Hev : evolves n G G').
  { apply evolves_vote; simpl; [lia|done|lia|by left]. }
  pose proof (λ i t, keeps_mono members n G G' Hev (an_log old) t i) as Hkm.
  assert (Hnode : nodes G' n = campaign n old) by (simpl; by rewrite fn_lookup_insert).
  destruct Hn.
  apply (inv_quiet members n G G' Hev Hinv); try done.
  - intros t. apply (to_acks _ _ _ (i_term _ _ Hinv t)).
  - split; rewrite Hnode; simpl; try done; try lia.
    + by fn_simpl.
    + intros t Ht. rewrite fn_lookup_insert_ne by lia. apply no_future_votes0. lia.
    + intros t Ht. apply no_future_acks0. lia.
    + intros i Hi. specialize (no_log_terms0 i Hi). lia.
    + intros _. split; [done|lia].
    + intros v _ ->%elem_of_singleton. split; [done|]. by fn_simpl.
    + split; [by apply no_commit0|]. apply (committed_prefix_mono members n G G' Hev).
      eapply committed_prefix_le; [|by apply no_commit0]. lia.
    + intros s i Hi Ht. apply Hkm; [|by apply no_keeps0].
      pose proof (to_acks _ _ _ (i_term _ _ Hinv s) n). lia.
  - intros t c. simpl. destruct (decide (t = an_term (nodes G n) + 1)) as [->|]; fn_simpl; [|by left].
    intros [= <-]. right. split; rewrite Hnode; simpl; [lia|].
    intros s i _ _ Hs Hi Ht. apply Hkm; [|by apply no_keeps0].
    pose proof (to_acks _ _ _ (i_term _ _ Hinv s) n). lia.
  - intros e He. by left.
Qed.

Lemma inv_grant e r :
  e ∈ sent G → env_message e = MRequestVoteArgs r → rv_term r = an_term old →
  an_voted old = None ∨ an_voted old = Some (rv_candidate_id r) →
  up_to_date (an_log old) (rv_last_log_index r) (rv_last_log_term r) = true →
  inv (set_vote (an_term old) n (rv_candidate_id r) (set_node n (vote_for (rv_candidate_id r) old) G)).
Proof.
  intros He Hm Ht Hv Hup. set (c := rv_candidate_id r) in *.
  destruct (i_msg _ _ Hinv e He) as (_ & _ & _ & Hp). unfold payload_ok in Hp. rewrite Hm in Hp.
  destruct Hp as (Hc & Hct & Hlog). fold c in Hc. rewrite <- Hc, Ht in Hct, Hlog.
  set (G' := set_vote _ _ _ _).
  assert (Hev : evolves n G G').
  { apply evolves_vote; simpl; [lia|done|done|]. pose proof (no_voted _ _ _ Hn) as Hvt.
    rewrite Hvt. done. }
  pose proof (λ l i t, keeps_mono members n G G' Hev l t i) as Hkm.
  assert (Hnode : nodes G' n = vote_for c old) by (simpl; by rewrite fn_lookup_insert).
  destruct Hn.
  apply (inv_quiet members n G G' Hev Hinv); try done.
  - intros t. apply (to_acks _ _ _ (i_term _ _ Hinv t)).
  - split; rewrite Hnode; simpl; try done.
    + by fn_simpl.
    + intros t Hlt. rewrite fn_lookup_insert_ne by lia. apply no_future_votes0. lia.
    + intros Hr. destruct (no_cand0 Hr) as [E1 E2]. split; [|done]. destruct Hv; congruence.
    + intros v Hr Hvs. destruct (no_votes0 v Hr Hvs) as [? Hvv]. split; [done|].
      apply (ev_votes _ _ _ Hev). done.
    + intros s i Hi Hti. apply Hkm; [|by apply no_keeps0].
      pose proof (to_acks _ _ _ (i_term _ _ Hinv s) n). lia.
  - intros t c'. simpl. destruct (decide (t = an_term (nodes G n))) as [->|]; fn_simpl; [|by left].
    intros [= <-]. destruct Hv as [Hv|Hv]; [right|left; congruence].
    assert (Hcn : an_role (nodes G c) = CANDIDATE → c ≠ n).
    { intros Hr ->. destruct (no_cand0 ltac:(congruence)). congruence. }
    assert (Hnc : ∀ P : Prop, (nodes G' c = nodes G c → P) → (nodes G' c = vote_for c (nodes G c) → P) → P).
    { intros P P1 P2. destruct (decide (c = n)) as [E|E]; [apply P2|apply P1].
      - rewrite E at 1. rewrite Hnode. by rewrite E.
      - by rewrite (ev_nodes _ _ _ Hev). }
    assert (Hgoal : an_term (nodes G c) = an_term (nodes G n) → an_role (nodes G c) = CANDIDATE →
      ∀ s i, s < an_term (nodes G n) → 1 ≤ i ≤ acked G n s → term_at i (tlog G' s) = s →
      keeps members G' (an_log (nodes G c)) s i).
    { intros Heq Hr s i Hs Hi Hti. pose proof (to_acks _ _ _ (i_term _ _ Hinv s) n) as Hack.
      apply Hkm; [lia|]. destruct (Hlog Heq Hr) as [Hli Hlt].
      destruct (no_keeps0 s i Hi Hti) as [Hk|Hd]; [|by right].
      eapply (up_to_date_keeps members G tlog_terms tlog_good (an_log (nodes G n))); try done.
      + intros u Hu Hsu. by apply (to_keeps _ _ _ (i_term _ _ Hinv u)).
      + apply (i_node _ _ Hinv c).
      + lia.
      + by rewrite <- Hli, <- Hlt. }
    apply Hnc; intros E; split; rewrite E; simpl; try done; intros s i H1 H2; by apply Hgoal.
  - intros e' He'. by left.
Qed.

(** Two candidates cannot both have a majority in one term. *)
Lemma leader_unique c :
  an_role old = CANDIDATE → majority members ≤ Z.of_nat (size (an_votes old)) →
  leader G (an_term old) = Some c → False.
Proof.
  intros Hr Hmaj Hl.
  destruct (to_elected _ _ _ (i_term _ _ Hinv _) c Hl) as (_ & _ & Hc & Q & HQ & Hv).
  assert (HS : quorum members (an_votes old)).
  { split; [|done]. intros v Hin. apply (no_votes _ _ _ Hn); [congruence|done]. }
  destruct (quorum_intersect members Q _ HQ HS) as (v & Hv1 & Hv2).
  specialize (Hv v Hv1). destruct (no_votes _ _ _ Hn v) as [_ Hv']; [congruence|done|].
  rewrite Hv' in Hv. injection Hv as <-.
  destruct Hc as [?|[_ ?]]; [lia|done].
Qed.

Section lead.
Hypothesis Hr : an_role old = CANDIDATE.
Hypothesis Hmaj : majority members ≤ Z.of_nat (size (an_votes old)).
Context (mi : gmap string Z).
Abbreviation t := (an_term old).
Abbreviation G' := (set_ack n t (zlen (an_log old))
                     (set_leader t n (an_log old) (set_node n (crown mi old) G))).

(** The term had no leader, hence no leader log and no acknowledgement. *)
Lemma lead_fresh : leader G t = None ∧ tlog G t = [] ∧ ∀ v, acked G v t = 0.
Proof.
  assert (Hnone : leader G t = None).
  { destruct (leader G t) eqn:E; [|done]. by destruct (leader_unique s Hr Hmaj). }
  split; [done|]. by apply (to_none _ _ _ (i_term _ _ Hinv t)).
Qed.

(** No entry of the new leader's log has the new term. *)
Lemma lead_old_terms i : 1 ≤ i ≤ zlen (an_log old) → term_at i (an_log old) ≠ t.
Proof.
  intros Hi E. destruct (no_log _ _ _ Hn i Hi) as [Hle _]. rewrite E in Hle.
  by destruct lead_fresh.
Qed.

Lemma evolves_lead : evolves n G G'.
Proof.
  destruct lead_fresh as (Hnone & Htl & Hack). pose proof (zlen_nonneg (an_log old)).
  split; simpl; rewrite ?fn_lookup_insert; simpl; try done.
  - intros m Hne. by rewrite fn_lookup_insert_ne.
  - intros u c Hc. rewrite fn_lookup_insert_ne; [done|]. intros ?. congruence.
  - intros u. destruct (decide (u = t)) as [->|Hne]; [rewrite Htl; apply prefix_nil|].
    by rewrite fn_lookup_insert_ne.
  - intros u. destruct (decide (u = t)) as [->|Hne]; [right|left]; fn_simpl; done.
  - intros v u. apply (ack_grows (set_leader t n (an_log old) (set_node n (crown mi old) G))).
    simpl. rewrite Hack. lia.
  - intros v u Hne. apply ack_old. by left.
  - intros u Hu. rewrite fn_lookup_insert_ne; [done|lia].
Qed.

(** The votes are a quorum: an older entry was acknowledged by a voter, whose
    vote attests the candidate's log, or is dead. *)
Lemma lead_keeps s i :
  s < t → 1 ≤ i ≤ zlen (tlog G s) → term_at i (tlog G s) = s → keeps members G (an_log old) s i.
Proof.
  intros Hs Hi Hti.
  destruct (decide (set_Exists (λ v, i ≤ acked G v s) (an_votes old))) as [(v & Hv & Hvi)|Hno].
  - destruct (no_votes _ _ _ Hn v) as [_ Hvt]; [congruence|done|].
    eapply (vo_keeps _ _ _ _ _ (i_vote _ _ Hinv _ _ _ Hvt)); try done. lia.
  - right. exists (an_votes old). split.
    + split; [|done]. intros v Hin. apply (no_votes _ _ _ Hn); [congruence|done].
    + intros v Hv. destruct (no_votes _ _ _ Hn v) as [_ Hvt]; [congruence|done|]. split.
      * destruct (Z.lt_ge_cases s (an_term (nodes G v))) as [|Hge]; [done|].
        rewrite (no_future_votes _ _ _ (i_node _ _ Hinv v)) in Hvt; [done|]. lia.
      * destruct (Z.lt_ge_cases (acked G v s) i) as [|Hge]; [done|].
        exfalso. apply Hno. exists v. done.
Qed.

Lemma lead_node_ok :
  (∀ p, mi !! p = if decide (p ∈ peers_of members n) then Some 0 else None) → node_ok G' n.
Proof.
  intros Hmi. destruct lead_fresh as (Hnone & Htl & Hack). pose proof evolves_lead as Hev.
  assert (Hnode : nodes G' n = crown mi old) by (simpl; by rewrite fn_lookup_insert).
  destruct Hn. split; rewrite Hnode; cbn [crown an_term an_voted an_log an_role an_votes an_match an_commit an_applied]; try done.
  - intros u Hu. rewrite ack_old by (right; lia). by apply no_future_acks0.
  - by apply (good_log_mono n G G' Hev).
  - intros _. apply no_cand0. congruence.
  - intros v _ Hv. apply no_votes0; [congruence|done].
  - intros _. rewrite ack_new. simpl. by rewrite !fn_lookup_insert.
  - intros p m _ Hm. rewrite Hmi in Hm. case_decide as Hp; [|done]. injection Hm as <-.
    unfold peers_of in Hp. split_and!; [set_solver|set_solver|].
    rewrite ack_old by (left; set_solver). apply (to_acks _ _ _ (i_term _ _ Hinv t)).
  - split; [by apply no_commit0|]. apply (committed_prefix_mono members n G G' Hev). by apply no_commit0.
  - intros s i Hi Hti. destruct (decide (s = t)) as [->|Hne].
    + rewrite ack_new in Hi. simpl in Hti. rewrite fn_lookup_insert in Hti. by destruct (lead_old_terms i).
    + rewrite ack_old in Hi by (by right). simpl in Hi, Hti. rewrite fn_lookup_insert_ne in Hti by done.
      apply (keeps_mono members n G G' Hev); [|by apply no_keeps0].
      pose proof (to_acks _ _ _ (i_term _ _ Hinv s) n). lia.
Qed.

Lemma lead_term_ok : term_ok G' t.
Proof.
  destruct lead_fresh as (Hnone & Htl & Hack). pose proof evolves_lead as Hev.
  pose proof (zlen_nonneg (an_log old)).
  split; simpl; rewrite ?fn_lookup_insert; try done.
  - intros c [= <-]. rewrite fn_lookup_insert. simpl.
    split_and!; [apply (no_cand _ _ _ Hn); congruence|done|by right|].
    exists (an_votes old). split; [split; [|done]|]; intros v Hin; apply (no_votes _ _ _ Hn); congruence.
  - apply (good_log_mono n G G' Hev), (no_log _ _ _ Hn).
  - apply (no_log_terms _ _ _ Hn).
  - intros v. change (0 ≤ acked G' v t ≤ zlen (an_log old)). destruct (decide (v = n)) as [->|].
    + rewrite ack_new. lia.
    + rewrite ack_old by (by left). simpl. rewrite Hack. lia.
  - intros s i _ Hs Hi Hti. rewrite fn_lookup_insert_ne in Hi, Hti by lia.
    apply (keeps_mono members n G G' Hev); [lia|]. by apply lead_keeps.
Qed.

Lemma inv_lead :
  (∀ p, mi !! p = if decide (p ∈ peers_of members n) then Some 0 else None) → inv G'.
Proof.
  intros Hmi. pose proof evolves_lead as Hev. destruct lead_fresh as (_ & Htl & _). split.
  - intros m. destruct (decide (m = n)) as [->|Hne]; [by apply lead_node_ok|].
    by apply (node_ok_other members n G G' Hev Hinv).
  - intros u. destruct (decide (u = t)) as [->|Hne]; [apply lead_term_ok|].
    apply (term_ok_same members n G G' Hev Hinv); [simpl; by rewrite fn_lookup_insert_ne..| |].
    + intros v. rewrite ack_old by (by right). apply (to_acks _ _ _ (i_term _ _ Hinv u)).
    + intros s i Hle Hs. simpl. destruct (decide (s = t)) as [->|Hst]; fn_simpl; [|lia].
      intros Hi Hti. rewrite Htl in Hi. exfalso. apply (lead_old_terms i); [|done].
      unfold zlen in *. simpl in *. lia.
  - intros u v c Hv. by apply (vote_ok_mono members n G G' Hev Hinv).
  - intros e He. apply (msg_ok_mono members n G G' Hev). by apply (i_msg _ _ Hinv).
Qed.
End lead.

End step.
End actions.
End Actions.
