(* ===== verification/RaftAppend.v ===== *)
(** * Log actions preserve the invariant: accept, propose, send *)

From stdpp Require Import base gmap strings list functions relations fin_sets.
From Stdlib Require Import ZArith Lia.
From S2P Require Import Prelude RaftTypes Storage RaftNode RaftSpec RaftInv RaftLogs RaftActions.
Import Spec Inv Logs Actions.

Local Open Scope Z_scope.

Module Append.
Section append.
Context {C : Type}.
Variable members : gset string.
Variable allowed : C → Prop.
Abbreviation log := (list (LogEntry C)).
Abbreviation term_at := (@Storage.term_at_of C).
Abbreviation inv := (@Inv.inv C members).
Abbreviation node_ok := (@Inv.node_ok C members).
Abbreviation term_ok := (@Inv.term_ok C members).
Abbreviation msg_ok := (@Inv.msg_ok C members).
Implicit Types (G : State C) (a : ANode C).

Section step.
Context (n : string) (G : State C) (Hmem : n ∈ members) (Hinv : inv G).

Let Hn : node_ok G n := i_node _ _ Hinv n.
Abbreviation old := (nodes G n).

(** ** A follower accepts the entries of its term's leader *)

Section accept.
Context (r : AppendEntriesArgs C) (ldr : string).
Hypothesis Hae : ae_ok members G ldr r.
Hypothesis Hterm : ae_term r = an_term old.
Hypothesis Hrole : an_role old = FOLLOWER.
Hypothesis Hprev : prev_ok (an_log old) (ae_prev_log_index r) (ae_prev_log_term r).

Abbreviation t := (an_term old).
Abbreviation tl := (tlog G t).
Abbreviation k := (ae_prev_log_index r + zlen (ae_entries r)).
Abbreviation l' := (merge (ae_prev_log_index r + 1) (ae_entries r) (an_log old)).

(** The consistency check singles out the leader's own history. *)
Lemma accept_message :
  leader G t = Some ldr ∧ 0 ≤ ae_prev_log_index r ∧ k ≤ zlen tl ∧
  pfx k tl = pfx (ae_prev_log_index r) tl ++ ae_entries r ∧
  pfx (ae_prev_log_index r) (an_log old) = pfx (ae_prev_log_index r) tl ∧
  ae_leader_commit r ≤ k ∧ committed_prefix members G t (ae_leader_commit r) tl.
Proof.
  destruct Hae as (Hl & Hp & Hd). rewrite Hterm in Hl, Hd.
  destruct Hd as [[Hbad Hpos]|(Hk & Hpt & Hseg & Hlc & Hcp)].
  { destruct (Hprev Hpos) as [H1 H2]. congruence. }
  split_and!; try done.
  destruct (Z.eq_dec (ae_prev_log_index r) 0) as [->|Hnz]; [done|].
  destruct (Hprev ltac:(lia)) as [H1 H2].
  assert (Hin : ae_prev_log_index r ≤ zlen (an_log old)).
  { destruct (Z.le_gt_cases (ae_prev_log_index r) (zlen (an_log old))); [done|].
    rewrite Storage.term_at_outside in H1 by lia. done. }
  pose proof (zlen_nonneg (ae_entries r)).
  apply (good_logs_match G); try done.
  - apply (no_log _ _ _ Hn).
  - apply (tlog_good members G Hinv).
  - lia.
  - lia.
  - congruence.
Qed.

Lemma accept_merge :
  pfx k l' = pfx k tl ∧
  (l' = an_log old ∨ l' = pfx k tl ∧ ∀ j, j ≤ zlen (an_log old) → pfx j (an_log old) = pfx j tl → j ≤ k).
Proof.
  destruct accept_message as (_ & Hp & Hk & Hseg & Hag & _).
  eapply (merge_spec G (tlog_terms members G Hinv)).
  - apply (no_log _ _ _ Hn).
  - apply (tlog_good members G Hinv).
  - lia.
  - lia.
  - done.
  - by replace (ae_prev_log_index r + 1 - 1) with (ae_prev_log_index r) by lia.
  - by replace (ae_prev_log_index r + 1 - 1) with (ae_prev_log_index r) by lia.
Qed.

Lemma accept_good : good_log G l'.
Proof.
  destruct accept_merge as [_ [->|[-> _]]]; [apply (no_log _ _ _ Hn)|].
  apply good_log_pfx, (tlog_good members G Hinv).
Qed.

Lemma accept_terms i : 1 ≤ i ≤ zlen l' → 1 ≤ term_at i l' ≤ t.
Proof.
  destruct accept_merge as [_ [->|[-> _]]]; [apply (no_log_terms _ _ _ Hn)|].
  intros Hi. destruct (term_at_pfx_in i k tl Hi) as [-> Hle].
  apply (tlog_terms members G Hinv). lia.
Qed.

Lemma accept_len : k ≤ zlen l'.
Proof.
  destruct accept_message as (_ & _ & Hk & _). destruct accept_merge as [Hp _].
  eapply pfx_agree_len; [|exact Hp]. done.
Qed.

(** What the old log shares with the leader's log of this term survives. *)
Lemma accept_survives j :
  j ≤ zlen (an_log old) → pfx j (an_log old) = pfx j tl → pfx j l' = pfx j tl.
Proof.
  intros Hj Hp. destruct accept_merge as [_ [->|[-> Hkj]]]; [done|].
  apply pfx_pfx. by apply Hkj.
Qed.

Lemma accept_keeps s i :
  1 ≤ i ≤ zlen (tlog G s) → term_at i (tlog G s) = s → s < t →
  keeps members G (an_log old) s i → keeps members G l' s i.
Proof.
  intros Hi Hti Hs [Hk|Hd]; [|by right].
  destruct accept_message as (Hl & _).
  destruct (to_keeps _ _ _ (i_term _ _ Hinv t) s i) as [Hk'|Hd]; try done; [congruence| |by right].
  left. rewrite <- Hk'. apply accept_survives; [|by rewrite Hk, Hk'].
  eapply pfx_agree_len; [|exact Hk]. lia.
Qed.

Lemma accept_commit :
  0 ≤ learn (ae_leader_commit r) l' (an_commit old) ≤ zlen l' ∧
  an_commit old ≤ learn (ae_leader_commit r) l' (an_commit old) ∧
  committed_prefix members G t (learn (ae_leader_commit r) l' (an_commit old)) l'.
Proof.
  destruct accept_message as (Hl & _ & Hk & _ & _ & Hlc & Hcp).
  pose proof accept_len. destruct (no_commit _ _ _ Hn) as [Hc0 Hc1].
  destruct accept_merge as [Hpk _].
  unfold learn. destruct (Z.ltb_spec (an_commit old) (ae_leader_commit r)) as [Hlt|Hge].
  - rewrite Z.min_l by lia. split; [lia|]. split; [lia|].
    destruct Hcp as [?|(s & i & Hcm & Hs & Hki & Hpp)]; [by left|right].
    exists s, i. split_and!; try done. rewrite <- Hpp. by apply (pfx_agree_le _ k).
  - destruct Hc1 as [E|(s & i & Hcm & Hs & Hki & Hpp)].
    { rewrite E. split; [pose proof (zlen_nonneg l'); lia|]. split; [lia|by left]. }
    assert (Htl : pfx (an_commit old) tl = pfx (an_commit old) (tlog G s)).
    { destruct (Z.eq_dec s t) as [->|Hne]; [done|].
      pose proof Hcm as (Hi & Hti & _).
      destruct (to_keeps _ _ _ (i_term _ _ Hinv t) s i) as [Hk'|Hd]; try done; [congruence|lia| |].
      - by apply (pfx_agree_le _ i).
      - by destruct (committed_not_dead members G s i Hcm). }
    assert (Hsv : pfx (an_commit old) l' = pfx (an_commit old) tl)
      by (apply accept_survives; [lia|by rewrite Hpp, Htl]).
    split; [|split; [lia|]].
    + split; [lia|]. eapply pfx_agree_len; [|exact Hsv]. destruct Hcm as (Hi & _).
      eapply pfx_agree_len; [|exact Htl]. lia.
    + right. exists s, i. split_and!; try done. by rewrite Hsv.
Qed.

Abbreviation acceptor := (with_commit (learn (ae_leader_commit r) l' (an_commit old)) (with_log l' old)).
Abbreviation accepted := (set_ack n t (Z.max (acked G n t) k) (set_node n acceptor G)).

Lemma evolves_accept : evolves n G accepted.
Proof.
  split; simpl; try done.
  - intros m Hne. by rewrite fn_lookup_insert_ne.
  - by rewrite fn_lookup_insert.
  - rewrite fn_lookup_insert. simpl. by rewrite Hrole.
  - intros u. by left.
  - intros v u. apply (ack_grows (set_node n acceptor G)). simpl. lia.
  - intros v u Hne. apply (ack_old (set_node n acceptor G)). by left.
  - intros u Hu. rewrite fn_lookup_insert, fn_lookup_insert_ne; [done|lia].
Qed.

Lemma accept_node_ok : node_ok accepted n.
Proof.
  destruct accept_message as (Hl & Hp0 & Hk & _). pose proof evolves_accept as Hev.
  assert (Hnode : nodes accepted n = acceptor) by (simpl; by rewrite fn_lookup_insert).
  pose proof (to_acks _ _ _ (i_term _ _ Hinv t) n) as Hat.
  pose proof accept_commit as (Hc1 & Hc2 & Hc3). destruct Hn.
  split; rewrite Hnode; cbn [with_commit with_log an_term an_voted an_log an_role an_votes an_match an_commit an_applied];
    rewrite ?Hrole; try done.
  - intros u Hu. rewrite ack_old by (right; lia). by apply no_future_acks0.
  - apply (good_log_mono n G accepted Hev), accept_good.
  - apply accept_terms.
  - split; [done|]. by apply (committed_prefix_mono members n G accepted Hev).
  - lia.
  - intros s i Hi Hti. destruct (decide (s = t)) as [->|Hne].
    + rewrite ack_new in Hi. destruct (Z.le_gt_cases i k) as [Hik|Hik].
      { left. destruct accept_merge as [Hpk _]. by apply (pfx_agree_le i k). }
      apply (keeps_mono members n G accepted Hev); [lia|].
      destruct (no_keeps0 t i ltac:(lia) Hti) as [Hki|Hd]; [left|by right].
      apply accept_survives; [|done]. eapply pfx_agree_len; [|exact Hki]. lia.
    + rewrite ack_old in Hi by (by right). simpl in Hi.
      pose proof (to_acks _ _ _ (i_term _ _ Hinv s) n).
      apply (keeps_mono members n G accepted Hev); [lia|].
      apply accept_keeps; [lia|done| |by apply no_keeps0].
      destruct (Z.lt_trichotomy s t) as [?|[?|Hgt]]; [done|done|].
      rewrite (no_future_acks0 s) in Hi by (lia). lia.
Qed.

Lemma inv_accept : inv accepted.
Proof.
  destruct accept_message as (_ & _ & Hk & _).
  apply (inv_quiet members n G accepted evolves_accept Hinv); try done.
  - intros u. pose proof (to_acks _ _ _ (i_term _ _ Hinv u) n).
    destruct (decide (u = t)) as [->|]; [rewrite ack_new; lia|rewrite ack_old by (by right); simpl; lia].
  - apply accept_node_ok.
  - intros u c Hv. by left.
  - intros e He. by left.
Qed.

End accept.

(** ** A leader appends a command *)

Section propose.
Context (c : C) (Hr : an_role old = LEADER).
Abbreviation t := (an_term old).
Abbreviation l := (an_log old ++ [mkEntry (an_term old) (zlen (an_log old) + 1) c]).
Abbreviation proposed := (set_ack n t (zlen l) (set_tlog t l (set_node n (with_log l old) G))).

Lemma propose_leader :
  leader G t = Some n ∧ tlog G t = an_log old ∧ acked G n t = zlen (an_log old) ∧
  zlen l = zlen (an_log old) + 1.
Proof.
  destruct (no_leader _ _ _ Hn Hr) as (Hl & Htl & Hack). split_and!; try done. by rewrite zlen_app.
Qed.

Lemma evolves_propose : evolves n G proposed.
Proof.
  destruct propose_leader as (Hl & Htl & Hack & Hlen).
  split; simpl; rewrite ?fn_lookup_insert; simpl; try done.
  - intros m Hne. by rewrite fn_lookup_insert_ne.
  - by rewrite Hr.
  - intros u. destruct (decide (u = t)) as [->|Hne]; fn_simpl; [|done]. rewrite Htl. by eexists.
  - intros u. destruct (decide (u = t)) as [->|Hne]; [by right|left; by fn_simpl].
  - intros v u. apply (ack_grows (set_tlog t l (set_node n (with_log l old) G))). simpl. lia.
  - intros v u Hne. apply (ack_old (set_tlog t l (set_node n (with_log l old) G))). by left.
  - intros u Hu. rewrite fn_lookup_insert_ne; [done|lia].
Qed.

(** The log below the new entry is the old one; the new entry has the
    leader's term. *)
Lemma propose_old i : i ≤ zlen (an_log old) → term_at i l = term_at i (an_log old) ∧ pfx i l = pfx i (an_log old).
Proof. intros Hi. split; [by apply Storage.term_at_app_l|by apply pfx_app_le]. Qed.

Lemma propose_new : term_at (zlen l) l = t.
Proof. destruct propose_leader as (_ & _ & _ & ->). apply Storage.term_at_snoc. Qed.

Lemma propose_good : good_log proposed l.
Proof.
  destruct propose_leader as (Hl & Htl & Hack & Hlen). pose proof evolves_propose as Hev.
  intros i Hi. destruct (Z.eq_dec i (zlen l)) as [->|Hne].
  - rewrite propose_new. simpl. rewrite fn_lookup_insert. by rewrite Hl.
  - destruct (propose_old i ltac:(lia)) as [-> ->].
    apply (good_log_mono n G proposed Hev _ (no_log _ _ _ Hn)). lia.
Qed.

Lemma propose_terms i : 1 ≤ i ≤ zlen l → 1 ≤ term_at i l ≤ t.
Proof.
  destruct propose_leader as (Hl & Htl & Hack & Hlen). intros Hi.
  destruct (Z.eq_dec i (zlen l)) as [->|Hne].
  - rewrite propose_new. destruct (no_cand _ _ _ Hn ltac:(congruence)). lia.
  - destruct (propose_old i ltac:(lia)) as [-> _]. apply (no_log_terms _ _ _ Hn). lia.
Qed.

Lemma propose_keeps s i :
  1 ≤ i ≤ zlen (tlog G s) → keeps members G (an_log old) s i → keeps members proposed l s i.
Proof.
  intros Hi Hk. apply (keeps_mono members n G proposed evolves_propose); [lia|].
  destruct Hk as [Hk|Hd]; [left|by right].
  rewrite <- Hk. apply propose_old. eapply pfx_agree_len; [|exact Hk]. lia.
Qed.

Lemma propose_node_ok : node_ok proposed n.
Proof.
  destruct propose_leader as (Hl & Htl & Hack & Hlen). pose proof evolves_propose as Hev.
  assert (Hnode : nodes proposed n = with_log l old) by (simpl; by rewrite fn_lookup_insert).
  pose proof propose_good as Hgood. pose proof propose_terms as Hterms. destruct Hn.
  split; rewrite Hnode; cbn [with_log an_term an_voted an_log an_role an_votes an_match an_commit an_applied]; try done.
  - intros u Hu. rewrite ack_old by (right; lia). by apply no_future_acks0.
  - intros _. rewrite ack_new. simpl. by rewrite fn_lookup_insert.
  - intros p m Hpr Hm. destruct (no_match0 p m Hr Hm) as (? & ? & ?). split_and!; try done.
    pose proof (ev_acked _ _ _ Hev p t). simpl in *. lia.
  - destruct no_commit0 as [Hc Hcp]. split; [lia|]. apply (committed_prefix_mono members n G proposed Hev).
    destruct Hcp as [?|(s & i & ? & ? & ? & Hpp)]; [by left|right]. exists s, i. split_and!; try done.
    rewrite <- Hpp. apply propose_old. lia.
  - intros s i Hi Hti. destruct (decide (s = t)) as [->|Hne].
    + left. simpl. by rewrite fn_lookup_insert.
    + rewrite ack_old in Hi by (by right). simpl in Hi, Hti. rewrite fn_lookup_insert_ne in Hti by done.
      pose proof (to_acks _ _ _ (i_term _ _ Hinv s) n). apply propose_keeps; [lia|]. by apply no_keeps0.
Qed.

Lemma propose_term_ok : term_ok proposed t.
Proof.
  destruct propose_leader as (Hl & Htl & Hack & Hlen). pose proof evolves_propose as Hev.
  pose proof (i_term _ _ Hinv t) as Hto. destruct Hto.
  assert (Htl' : tlog proposed t = l) by (simpl; by rewrite fn_lookup_insert).
  split; rewrite ?Htl'; try done.
  - change (leader G t = None → l = [] ∧ ∀ v, acked proposed v t = 0). congruence.
  - intros c' Hc'. by apply (to_elected_mono members n G proposed Hev Hinv).
  - apply propose_good.
  - apply propose_terms.
  - intros v. specialize (to_acks0 v). rewrite Htl in to_acks0.
    destruct (decide (v = n)) as [->|Hvn]; [rewrite ack_new; lia|].
    rewrite ack_old by (by left). simpl. lia.
  - intros s i _ Hs Hi Hti. simpl in Hi, Hti. rewrite fn_lookup_insert_ne in Hi, Hti by lia.
    apply propose_keeps; [done|]. rewrite <- Htl. apply to_keeps0; try done. congruence.
Qed.

(** A term above that already has a leader: its voters are past this term and
    have not acknowledged the new entry, which therefore stays uncommitted. *)
Lemma propose_dead u i : leader G u ≠ None → t < u → zlen (an_log old) < i → dead members proposed t i.
Proof.
  intros Hu Htu Hi. destruct propose_leader as (Hl & Htl & Hack & Hlen).
  destruct (leader G u) as [c'|] eqn:Hlu; [|done].
  destruct (to_elected _ _ _ (i_term _ _ Hinv u) c' Hlu) as (_ & _ & _ & Q & HQ & Hv).
  exists Q. split; [done|]. intros v Hvq. specialize (Hv v Hvq).
  assert (Huv : u ≤ an_term (nodes G v)).
  { destruct (Z.le_gt_cases u (an_term (nodes G v))) as [|Hgt]; [done|].
    rewrite (no_future_votes _ _ _ (i_node _ _ Hinv v)) in Hv by lia. done. }
  assert (Hvn : v ≠ n) by (intros ->; lia).
  rewrite (ev_nodes _ _ _ evolves_propose v Hvn), ack_old by (by left). simpl.
  pose proof (to_acks _ _ _ (i_term _ _ Hinv t) v). rewrite Htl in *. lia.
Qed.

Lemma inv_propose : inv proposed.
Proof.
  destruct propose_leader as (_ & Htl & _). pose proof evolves_propose as Hev. split.
  - intros m. destruct (decide (m = n)) as [->|Hne]; [apply propose_node_ok|].
    by apply (node_ok_other members n G proposed Hev Hinv).
  - intros u. destruct (decide (u = t)) as [->|Hne]; [apply propose_term_ok|].
    apply (term_ok_same members n G proposed Hev Hinv); [done|simpl; by rewrite fn_lookup_insert_ne| |].
    + intros v. rewrite ack_old by (by right). apply (to_acks _ _ _ (i_term _ _ Hinv u)).
    + intros s i Hlead Hs Hi Hti. destruct (decide (s = t)) as [->|Hst].
      * rewrite Htl in Hi. apply (propose_dead u); [done|done|lia].
      * simpl in Hi. rewrite fn_lookup_insert_ne in Hi by done. lia.
  - intros u v c' Hv. by apply (vote_ok_mono members n G proposed Hev Hinv).
  - intros e' He. apply (msg_ok_mono members n G proposed Hev). by apply (i_msg _ _ Hinv).
Qed.
End propose.

(** ** Sending *)

Lemma evolves_send e : evolves n G (add_sent e G).
Proof. split; simpl; try done. intros t. by left. Qed.

Lemma send_payload p m : may_send G n p m → payload_ok members G (mkEnvelope n p m).
Proof.
  pose proof Hn as Hnode. unfold may_send, payload_ok. destruct m as [r|r|r|r|r|r]; simpl; [..|done|done].
  - intros [Hr ->]. simpl. split_and!; [done|lia|done].
  - intros H Hg. destruct (H Hg) as (-> & Hv & Hvote). split; [done|].
    by rewrite (no_voted _ _ _ Hnode).
  - intros (Hr & next & Hnext & ->). destruct (no_leader _ _ _ Hnode Hr) as (Hl & Htl & _).
    unfold ae_ok. simpl. rewrite Htl. split; [done|]. split; [lia|].
    destruct (Z.le_gt_cases (next - 1) (zlen (an_log old))) as [Hle|Hgt].
    + right. rewrite zlen_sfx by lia.
      replace (next - 1 + (zlen (an_log old) - (next - 1))) with (zlen (an_log old)) by lia.
      destruct (no_commit _ _ _ Hnode) as [Hc Hcp].
      split_and!; [lia|done| |lia|done].
      rewrite pfx_all by lia. symmetry. apply pfx_sfx.
    + left. pose proof (zlen_nonneg (an_log old)). split; [|lia]. apply Storage.term_at_outside. lia.
  - destruct (aer_success r); [|done]. intros [-> ?]. lia.
Qed.

Lemma inv_send p m : p ∈ peers_of members n → may_send G n p m → inv (add_sent (mkEnvelope n p m) G).
Proof.
  intros Hp Hm. pose proof (evolves_send (mkEnvelope n p m)) as Hev.
  apply (inv_quiet members n G _ Hev Hinv); simpl; try done.
  - intros t. apply (to_acks _ _ _ (i_term _ _ Hinv t)).
  - destruct Hn. split; try done.
  - intros t c Hv. by left.
  - intros e [He|He%list_elem_of_singleton]%elem_of_app; [by left|right]. subst e.
    unfold peers_of in Hp. split_and!; simpl; [done|set_solver|set_solver|].
    apply (payload_ok_mono members n G _ Hev). by apply send_payload.
Qed.

(** ** All actions *)

Lemma evolves_step G' : step members allowed n G G' → evolves n G G'.
Proof.
  destruct 1 as [t Ht| | |e r He Hm Ht Hv Hup|e r He Hto Hm Hg Ht Hr|mi Hr Hmaj Hmi|c Hr Hall
    |e r He Hm Ht Hr Hp|e r He Hto Hm Hg Ht Hr|k Hr Hc Hlt Hk|e Hlt He|p m Hp Hm|];
    try (apply evolves_set_node; simpl; [lia|done]).
  - apply evolves_vote; simpl; [lia|done|lia|left]. apply (no_future_votes _ _ _ Hn). lia.
  - apply evolves_vote; simpl; [lia|done|done|]. by rewrite (no_voted _ _ _ Hn).
  - by apply (evolves_lead members).
  - by apply evolves_propose.
  - by apply evolves_accept.
  - apply evolves_send.
Qed.

Lemma inv_step G' : step members allowed n G G' → inv G'.
Proof.
  destruct 1 as [t Ht| | |e r He Hm Ht Hv Hup|e r He Hto Hm Hg Ht Hr|mi Hr Hmaj Hmi|c Hr Hall
    |e r He Hm Ht Hr Hp|e r He Hto Hm Hg Ht Hr|k Hr Hc Hlt Hk|e Hlt He|p m Hp Hm|].
  - by apply inv_bump.
  - by apply inv_demote.
  - by apply inv_campaign.
  - by eapply inv_grant.
  - by eapply inv_count.
  - by apply inv_lead.
  - by apply inv_propose.
  - destruct (i_msg _ _ Hinv e He) as (_ & _ & _ & Hpay). unfold payload_ok in Hpay. rewrite Hm in Hpay.
    by eapply inv_accept.
  - by eapply inv_ack.
  - by apply inv_commit.
  - by apply inv_apply.
  - by apply inv_send.
  - by apply inv_restart.
Qed.

End step.

(** The invariant holds in every reachable state of the protocol. *)
Lemma inv_reachable G : reachable members allowed G → inv G.
Proof.
  apply (rtc_ind_r (λ G, inv G)); [apply inv_initial|].
  intros G1 G2 _ (n & Hn & Hs) HI. by eapply inv_step.
Qed.

End append.
End Append.
