(* ===== verification/RaftRefine.v ===== *)
(** * The Raft core refines the abstract protocol

    [R i w G] relates the world of node [i] to the specification state [G];
    [sim m Q w G] says that running [m] in [w] is a sequence of actions of node
    [i] from [G], and that the relation holds again afterwards, whether [m]
    returned or raised.  One lemma per method of [RaftNode]. *)

From stdpp Require Import base gmap strings list functions relations fin_sets.
From Stdlib Require Import ZArith Lia.
From S2P Require Import Prelude PyFloat RaftTypes Storage StateMachine Transport RaftNode.
From S2P Require Import RaftSpec RaftInv RaftLogs RaftActions RaftAppend.
Import Spec Inv.

Local Open Scope Z_scope.

Module Refine.
Section refine.
Context {C S T : Type} {Hsm : StateMachine C S}.
Context {Htr : Transport C T} {Hlaws : TransportLaws C T}.
Variable members : gset string.
Variable allowed : C → Prop.
Variable sm0 : S.
Variable i : string.
Hypothesis Hi : i ∈ members.
Variable random_fn : nat → float → float → float.

Abbreviation World := (Raft.World C S T).
Abbreviation M := (Py World).
Abbreviation inv := (@Inv.inv C members).
Abbreviation steps := (rtc (@Spec.step C members allowed i)).
Implicit Types (w : World) (G : State C).

(** The protocol-relevant part of a node. *)
Definition view (h : list C) w : ANode C :=
  mkA (Storage.current_term (Raft.storage w)) (Storage.voted_for (Raft.storage w))
    (Storage.entries (Raft.storage w)) (Raft.state (Raft.node w)) (Raft.votes_received (Raft.node w))
    (Raft.match_index (Raft.node w)) (Raft.commit_index (Raft.node w)) (Raft.last_applied (Raft.node w)) h.

Record R w G : Prop := {
  r_inv : inv G;
  r_id : Raft.node_id (Raft.node w) = i;
  r_nodup : NoDup (Raft.peer_ids (Raft.node w));
  r_peers p : p ∈ Raft.peer_ids (Raft.node w) ↔ p ∈ peers_of members i;
  r_next p k : Raft.next_index (Raft.node w) !! p = Some k → 1 ≤ k;
  r_match p k : Raft.match_index (Raft.node w) !! p = Some k → 0 ≤ k;
  r_dom : Raft.state (Raft.node w) = LEADER → dom (Raft.match_index (Raft.node w)) = peers_of members i;
  r_net : net_sent (Raft.transport w) (sent G);
  r_node : ∃ h, nodes G i = view h w ∧ Raft.machine w = sm_effects h sm0
}.

(** The only exceptions a handler may raise: those of the state machine. *)
Definition machine_exn (x : exn) : Prop := ∃ (c : C) (s s' : S), sm_apply c s = (Raise x, s').

(** Everything [R] looks at. *)
Definition same_view w w' : Prop :=
  Raft.node_id (Raft.node w') = Raft.node_id (Raft.node w) ∧
  Raft.peer_ids (Raft.node w') = Raft.peer_ids (Raft.node w) ∧
  Raft.next_index (Raft.node w') = Raft.next_index (Raft.node w) ∧
  Raft.transport w' = Raft.transport w ∧ Raft.machine w' = Raft.machine w ∧
  ∀ h, view h w' = view h w.

Lemma R_same_view w w' G : R w G → same_view w w' → R w' G.
Proof.
  intros [] (Hid & Hp & Hn & Ht & Hm & Hv).
  assert (Hmi : Raft.match_index (Raft.node w') = Raft.match_index (Raft.node w))
    by (specialize (Hv []); by inversion Hv).
  assert (Hst : Raft.state (Raft.node w') = Raft.state (Raft.node w))
    by (specialize (Hv []); by inversion Hv).
  split; rewrite ?Hid, ?Hp, ?Hn, ?Ht, ?Hm, ?Hmi, ?Hst; try done.
  destruct r_node0 as (h & ? & ?). exists h. by rewrite Hv.
Qed.

Definition sim {A} (m : M A) (Q : A → World → State C → Prop) w G : Prop :=
  ∃ G', steps G G' ∧ R (m w).2 G' ∧
    match (m w).1 with Ok a => Q a (m w).2 G' | Raise x => machine_exn x end.

Lemma steps_inv G G' : inv G → steps G G' → inv G'.
Proof.
  intros HI Hs. induction Hs as [|G1 G2 G3 H1 _ IH]; [done|]. apply IH. by eapply Append.inv_step.
Qed.

(** Specification facts read through the relation. *)
Lemma R_term w G : R w G → an_term (nodes G i) = Storage.current_term (Raft.storage w).
Proof. intros []. destruct r_node0 as (h & -> & _). done. Qed.
Lemma R_role w G : R w G → an_role (nodes G i) = Raft.state (Raft.node w).
Proof. intros []. destruct r_node0 as (h & -> & _). done. Qed.
Lemma R_log w G : R w G → an_log (nodes G i) = Storage.entries (Raft.storage w).
Proof. intros []. destruct r_node0 as (h & -> & _). done. Qed.

(** ** Rules *)

Lemma sim_ret {A} (a : A) (Q : A → World → State C → Prop) w G :
  R w G → Q a w G → sim (ret a) Q w G.
Proof. intros. exists G. split_and!; [apply rtc_refl|done|done]. Qed.

Lemma sim_bind {A B} (m : M A) (k : A → M B) (Q : B → World → State C → Prop) w G :
  sim m (λ a w' G', R w' G' → sim (k a) Q w' G') w G → sim (bind m k) Q w G.
Proof.
  intros (G1 & Hs & HR & Hm). unfold sim, bind. destruct (m w) as [[a|e] w1]; simpl in *.
  - destruct (Hm HR) as (G2 & Hs2 & HR2 & HQ). exists G2. split; [by etransitivity|done].
  - by exists G1.
Qed.

Lemma sim_mono {A} (m : M A) (Q Q' : A → World → State C → Prop) w G :
  sim m Q w G → (∀ a w' G', R w' G' → Q a w' G' → Q' a w' G') → sim m Q' w G.
Proof.
  intros (G1 & Hs & HR & Hm) HQ. exists G1. split_and!; [done|done|].
  destruct (m w).1; [by apply HQ|done].
Qed.

Lemma sim_get {A} (f : World → A) (Q : A → World → State C → Prop) w G :
  R w G → Q (f w) w G → sim (get f) Q w G.
Proof. apply sim_ret. Qed.

(** A computation that changes nothing the specification sees. *)
Lemma sim_quiet {A} (m : M A) (Q : A → World → State C → Prop) w G :
  R w G → same_view w (m w).2 →
  match (m w).1 with Ok a => R (m w).2 G → Q a (m w).2 G | Raise x => machine_exn x end →
  sim m Q w G.
Proof.
  intros HR Hv HQ. exists G. pose proof (R_same_view _ _ _ HR Hv) as HR'.
  split_and!; [apply rtc_refl|done|]. destruct (m w).1; auto.
Qed.

(** A computation that is exactly one action. *)
Lemma sim_action {A} (m : M A) (a : A) w w' G G' (Q : A → World → State C → Prop) :
  m w = (Ok a, w') → step members allowed i G G' → R w' G' → Q a w' G' → sim m Q w G.
Proof. intros Hm Hs HR HQ. exists G'. rewrite Hm. split_and!; [by apply rtc_once|done|done]. Qed.

Lemma sim_for_each {A} (f : A → M unit) (l : list A) (I : World → State C → Prop) w G :
  (∀ x v G0, x ∈ l → R v G0 → I v G0 → sim (f x) (λ _, I) v G0) →
  R w G → I w G → sim (for_each f l) (λ _, I) w G.
Proof.
  revert w G. induction l as [|x l IH]; intros w G Hf HR HI; [by apply sim_ret|].
  simpl. apply sim_bind. eapply sim_mono; [apply Hf; [left|done|done]|].
  intros [] w1 G1 _ HI1 HR1. apply IH; [|done|done]. intros y v G0 Hy. apply Hf. by right.
Qed.

Lemma R_step w w' G G' : R w G → step members allowed i G G' →
  Raft.node_id (Raft.node w') = i → Raft.peer_ids (Raft.node w') = Raft.peer_ids (Raft.node w) →
  (∀ p k, Raft.next_index (Raft.node w') !! p = Some k → 1 ≤ k) →
  (∀ p k, Raft.match_index (Raft.node w') !! p = Some k → 0 ≤ k) →
  (Raft.state (Raft.node w') = LEADER → dom (Raft.match_index (Raft.node w')) = peers_of members i) →
  net_sent (Raft.transport w') (sent G') →
  (∃ h, nodes G' i = view h w' ∧ Raft.machine w' = sm_effects h sm0) →
  R w' G'.
Proof.
  intros [] Hs Hid Hp Hn Hm Hd Ht Hv. split; try done.
  - by eapply Append.inv_step.
  - by rewrite Hp.
  - by rewrite Hp.
Qed.

(** ** Sending *)

Lemma sim_send p m w G (Q : unit → World → State C → Prop) :
  R w G → p ∈ peers_of members i → may_send G i p m →
  (∀ w' G', R w' G' → Raft.node w' = Raft.node w → Raft.storage w' = Raft.storage w →
     nodes G' = nodes G → acked G' = acked G → Q tt w' G') →
  sim (Raft.send p m) Q w G.
Proof.
  intros HR Hp Hm HQ. pose proof (r_id _ _ HR) as Hid.
  set (w' := Raft.mkWorld (Raft.node w) (Raft.storage w)
               (t_send i p m (Raft.transport w)) (Raft.machine w)).
  assert (Hs : step members allowed i G (add_sent (mkEnvelope i p m) G)) by (by constructor).
  assert (HR' : R w' (add_sent (mkEnvelope i p m) G)).
  { eapply R_step; try done; try apply HR. by apply net_send, HR. }
  eapply sim_action; [|done|exact HR'|by apply HQ].
  unfold Raft.send, modify. unfold w'. simpl. by rewrite Hid.
Qed.

(** Broadcast of one message per peer. *)
Lemma sim_broadcast (f : string → M unit) w G (Q : unit → World → State C → Prop) :
  R w G →
  (∀ p v G0, p ∈ peers_of members i → R v G0 → Raft.node v = Raft.node w →
     Raft.storage v = Raft.storage w → nodes G0 = nodes G → acked G0 = acked G →
     sim (f p) (λ _ v' G', Raft.node v' = Raft.node w ∧ Raft.storage v' = Raft.storage w ∧
                           nodes G' = nodes G ∧ acked G' = acked G) v G0) →
  (∀ w' G', R w' G' → Raft.node w' = Raft.node w → Raft.storage w' = Raft.storage w →
     nodes G' = nodes G → acked G' = acked G → Q tt w' G') →
  sim (for_each f (Raft.peer_ids (Raft.node w))) Q w G.
Proof.
  intros HR Hf HQ.
  eapply sim_mono; [apply (sim_for_each f _ (λ v G', Raft.node v = Raft.node w ∧
    Raft.storage v = Raft.storage w ∧ nodes G' = nodes G ∧ acked G' = acked G))|].
  - intros p v G0 Hp HRv (E1 & E2 & E3 & E4). apply Hf; try done. by apply (r_peers _ _ HR).
  - done.
  - done.
  - intros [] w' G' HR' (E1 & E2 & E3 & E4). by apply HQ.
Qed.

Lemma sim_send_append_entries p now w G (Q : unit → World → State C → Prop) :
  R w G → p ∈ peers_of members i → Raft.state (Raft.node w) = LEADER →
  (∀ w' G', R w' G' → Raft.node w' = Raft.node w → Raft.storage w' = Raft.storage w →
     nodes G' = nodes G → acked G' = acked G → Q tt w' G') →
  sim (Raft.send_append_entries_to p now) Q w G.
Proof.
  intros HR Hp Hl HQ. unfold Raft.send_append_entries_to.
  do 2 (apply sim_bind, sim_get; [done|]; intros _). cbv zeta.
  do 5 (apply sim_bind, sim_get; [done|]; intros _).
  apply sim_send; [done|done| |done].
  destruct (r_node _ _ HR) as (h & Hv & _). unfold may_send. rewrite Hv. simpl.
  split; [done|]. set (next := default _ _).
  assert (Hnext : 1 ≤ next).
  { unfold next. destruct (Raft.next_index (Raft.node w) !! p) eqn:E; simpl.
    - by apply (r_next _ _ HR) in E.
    - unfold Storage.last_index. pose proof (zlen_nonneg (Storage.entries (Raft.storage w))). lia. }
  exists next. split; [done|]. rewrite (r_id _ _ HR).
  unfold Storage.entries_from. by rewrite Storage.entries_from_sfx.
Qed.

Lemma sim_broadcast_append_entries now w G (Q : unit → World → State C → Prop) :
  R w G → Raft.state (Raft.node w) = LEADER →
  (∀ w' G', R w' G' → Raft.storage w' = Raft.storage w →
     Raft.state (Raft.node w') = LEADER → nodes G' = nodes G → acked G' = acked G → Q tt w' G') →
  sim (Raft.broadcast_append_entries now) Q w G.
Proof.
  intros HR Hl HQ. unfold Raft.broadcast_append_entries.
  apply sim_bind, sim_get; [done|]. intros _.
  apply sim_bind, sim_quiet; [done|by split_and!|]. intros HR1 _. simpl in HR1 |- *.
  apply sim_bind, sim_get; [done|]. intros _.
  set (w1 := Raft.mkWorld _ _ _ _) in *.
  change (Raft.peer_ids (Raft.set_next_heartbeat_deadline _ (Raft.node w))) with (Raft.peer_ids (Raft.node w1)).
  apply sim_broadcast; [done| |].
  - intros p v G0 Hp HRv Hn Hs HG Ha. apply sim_send_append_entries; [done|done|by rewrite Hn|].
    intros w' G' _ E1 E2 E3 E4. split_and!; congruence.
  - intros w' G' HR' E1 E2 E3 E4. apply HQ; [done|by rewrite E2|by rewrite E1|done|done].
Qed.

(** ** Timers, term changes *)

Lemma reset_deadline_eq now w :
  ∃ w', Raft.reset_election_deadline random_fn now w = (Ok tt, w') ∧ same_view w w' ∧
    Raft.storage w' = Raft.storage w ∧ Raft.state (Raft.node w') = Raft.state (Raft.node w).
Proof. eexists. split; [reflexivity|]. by split_and!. Qed.

Lemma sim_reset now w G (Q : unit → World → State C → Prop) :
  R w G →
  (∀ w', R w' G → Raft.storage w' = Raft.storage w → Raft.state (Raft.node w') = Raft.state (Raft.node w) →
     same_view w w' → Q tt w' G) →
  sim (Raft.reset_election_deadline random_fn now) Q w G.
Proof.
  intros HR HQ. destruct (reset_deadline_eq now w) as (w' & E & Hv & Hs & Hst).
  apply sim_quiet; [done|by rewrite E|rewrite E]. intros HR'. by apply HQ.
Qed.

Lemma sim_become_follower t now w G (Q : unit → World → State C → Prop) :
  R w G → Storage.current_term (Raft.storage w) < t →
  (∀ w' G', R w' G' → Storage.current_term (Raft.storage w') = t →
     Raft.state (Raft.node w') = FOLLOWER → Q tt w' G') →
  sim (Raft.become_follower random_fn t now) Q w G.
Proof.
  intros HR Ht HQ. destruct (r_node _ _ HR) as (h & Hv & Hm).
  assert (Hs : step members allowed i G (set_node i (bump t (nodes G i)) G)).
  { apply s_bump. by rewrite (R_term _ _ HR). }
  eapply sim_action; [reflexivity|exact Hs| |].
  - eapply R_step; try done; try apply HR. exists h. split; [|done].
    simpl. rewrite fn_lookup_insert, Hv. done.
  - apply HQ; [|done|done]. eapply R_step; try done; try apply HR. exists h. split; [|done].
    simpl. rewrite fn_lookup_insert, Hv. done.
Qed.

Lemma sim_observe_term t now w G (Q : Z → World → State C → Prop) :
  R w G →
  (∀ w' G', R w' G' → t ≤ Storage.current_term (Raft.storage w') →
     Q (Storage.current_term (Raft.storage w')) w' G') →
  sim (Raft.observe_term random_fn t now) Q w G.
Proof.
  intros HR HQ. unfold Raft.observe_term. apply sim_bind, sim_get; [done|]. intros _.
  unfold Storage.get_current_term. destruct (Z.ltb_spec (Storage.current_term (Raft.storage w)) t).
  - apply sim_bind, sim_become_follower; [done|done|]. intros w' G' HR' Ht _ _.
    apply sim_ret; [done|]. rewrite <- Ht. apply HQ; [done|lia].
  - apply sim_ret; [done|]. by apply HQ.
Qed.

Lemma sim_stepped_down t now w G (Q : bool → World → State C → Prop) :
  R w G → (∀ w' G', R w' G' → Q true w' G') → Q false w G →
  sim (Raft.stepped_down random_fn t now) Q w G.
Proof.
  intros HR H1 H2. unfold Raft.stepped_down. apply sim_bind, sim_get; [done|]. intros _.
  unfold Storage.get_current_term. destruct (Z.ltb_spec (Storage.current_term (Raft.storage w)) t).
  - apply sim_bind, sim_become_follower; [done|done|]. intros w' G' HR' _ _ _.
    apply sim_ret; [done|]. by apply H1.
  - by apply sim_ret.
Qed.

(** ** Elections *)

(** Reads and writes are run directly, without restoring the relation after
    each of them. *)
Lemma sim_bind_get {A B} (f : World → A) (k : A → M B) (Q : B → World → State C → Prop) w G :
  sim (k (f w)) Q w G → sim (bind (get f) k) Q w G.
Proof. done. Qed.
Lemma sim_bind_modify {B} (f : World → World) (k : unit → M B) (Q : B → World → State C → Prop) w G :
  sim (k tt) Q (f w) G → sim (bind (modify f) k) Q w G.
Proof. done. Qed.
Lemma sim_bind_reset {B} now (k : unit → M B) (Q : B → World → State C → Prop) w G :
  (∀ w', Raft.reset_election_deadline random_fn now w = (Ok tt, w') → sim (k tt) Q w' G) →
  sim (bind (Raft.reset_election_deadline random_fn now) k) Q w G.
Proof. intros Hk. apply (Hk _ eq_refl). Qed.
Lemma sim_bind_eq {A B} (m : M A) a w1 (k : A → M B) (Q : B → World → State C → Prop) w G :
  m w = (Ok a, w1) → sim (k a) Q w1 G → sim (bind m k) Q w G.
Proof. unfold sim, bind. by intros ->. Qed.
Lemma sim_steps {A} (m : M A) (Q : A → World → State C → Prop) w G G1 :
  steps G G1 → sim m Q w G1 → sim m Q w G.
Proof. intros Hs (G2 & Hs2 & HR & HQ). exists G2. split; [by etransitivity|done]. Qed.

(** Runs straight-line code up to the next call. *)
Ltac sim_go := unfold Raft.on_node, Raft.on_storage, Raft.gets, Raft.reads; cbv zeta;
  repeat (lazymatch goal with
          | |- sim (bind (get _) _) _ _ _ => apply sim_bind_get
          | |- sim (bind (modify _) _) _ _ _ => apply sim_bind_modify
          end; cbv beta zeta).

Lemma size_members : size members ≠ 0%nat.
Proof. intros E. apply size_empty_inv in E. set_solver. Qed.

Lemma size_peers : size (peers_of members i) = (size members - 1)%nat.
Proof. unfold peers_of. rewrite size_difference by set_solver. by rewrite size_singleton. Qed.

Lemma majority_eq w G : R w G → Raft.majority_of (Raft.peer_ids (Raft.node w)) = majority members.
Proof.
  intros HR. unfold Raft.majority_of, majority, zlen. f_equal. f_equal.
  rewrite <- (size_list_to_set (C := gset string) _ (r_nodup _ _ HR)).
  assert (E : list_to_set (Raft.peer_ids (Raft.node w)) = peers_of members i).
  { apply set_eq. intros p. rewrite elem_of_list_to_set. apply (r_peers _ _ HR). }
  rewrite E, size_peers. pose proof size_members. lia.
Qed.

Lemma lookup_peers_map {B} (v : B) (l : list string) p :
  (list_to_map ((λ p, (p, v)) <$> l) : gmap string B) !! p = if decide (p ∈ l) then Some v else None.
Proof.
  induction l as [|q l IH]; [done|]. rewrite fmap_cons, list_to_map_cons.
  destruct (decide (p = q)) as [->|Hne].
  - rewrite lookup_insert_eq. by rewrite decide_True by left.
  - rewrite lookup_insert_ne, IH by done. destruct (decide (p ∈ l)).
    + by rewrite decide_True by (by right).
    + rewrite decide_False; [done|]. by intros [?|?]%elem_of_cons.
Qed.

Lemma sim_broadcast_request_vote now w G (Q : unit → World → State C → Prop) :
  R w G → Raft.state (Raft.node w) = CANDIDATE →
  (∀ w' G', R w' G' → Raft.node w' = Raft.node w → Q tt w' G') →
  sim (Raft.broadcast_request_vote now) Q w G.
Proof.
  intros HR Hc HQ. unfold Raft.broadcast_request_vote.
  do 5 (apply sim_bind, sim_get; [done|]; intros _).
  apply sim_broadcast; [done| |by intros; apply HQ].
  intros p v G0 Hp HRv Hn Hs HG Ha. apply sim_send; [done|done| |].
  - destruct (r_node _ _ HRv) as (h & Hv & _). unfold may_send. rewrite Hv. simpl.
    rewrite Hn, Hs, (r_id _ _ HR). done.
  - intros w' G' _ E1 E2 E3 E4. split_and!; congruence.
Qed.

Lemma sim_become_leader now w G (Q : unit → World → State C → Prop) :
  R w G → Raft.state (Raft.node w) = CANDIDATE →
  majority members ≤ Z.of_nat (size (Raft.votes_received (Raft.node w))) →
  (∀ w' G', R w' G' → Q tt w' G') →
  sim (Raft.become_leader now) Q w G.
Proof.
  intros HR Hc Hmaj HQ. destruct (r_node _ _ HR) as (h & Hv & Hm).
  set (mi := list_to_map ((λ p, (p, 0)) <$> Raft.peer_ids (Raft.node w)) : gmap string Z).
  assert (Hs : step members allowed i G (set_ack i (an_term (nodes G i)) (zlen (an_log (nodes G i)))
                (set_leader (an_term (nodes G i)) i (an_log (nodes G i))
                   (set_node i (crown mi (nodes G i)) G)))).
  { apply s_lead; [by rewrite Hv|by rewrite Hv|].
    intros p. unfold mi. rewrite lookup_peers_map. apply decide_ext. apply (r_peers _ _ HR). }
  eapply sim_steps; [by apply rtc_once|]. unfold Raft.become_leader. sim_go.
  apply sim_broadcast_append_entries; [|done|by intros; apply HQ].
  eapply R_step; [exact HR|exact Hs|apply (r_id _ _ HR)|done| | | |apply (r_net _ _ HR)|].
  - intros p k. cbn -[fmap list_fmap]. rewrite lookup_peers_map. case_decide; [|done]. intros [= <-].
    unfold Storage.last_index. pose proof (zlen_nonneg (Storage.entries (Raft.storage w))). lia.
  - intros p k. cbn -[fmap list_fmap]. rewrite lookup_peers_map. case_decide; [|done]. by intros [= <-].
  - intros _. apply set_eq. intros p. cbn -[fmap list_fmap]. rewrite elem_of_dom, lookup_peers_map.
    rewrite <- (r_peers _ _ HR p). case_decide; split; try done; by intros [].
  - exists h. split; [|done]. simpl. rewrite fn_lookup_insert, Hv. done.
Qed.

Lemma sim_maybe_become_leader now w G (Q : unit → World → State C → Prop) :
  R w G → (∀ w' G', R w' G' → Q tt w' G') →
  sim (Raft.maybe_become_leader_from_votes now) Q w G.
Proof.
  intros HR HQ. unfold Raft.maybe_become_leader_from_votes.
  apply sim_bind, sim_get; [done|]. intros _.
  case_bool_decide as Hst; [by apply sim_ret; auto|].
  assert (Hc : Raft.state (Raft.node w) = CANDIDATE) by (by destruct (decide (Raft.state (Raft.node w) = CANDIDATE))).
  do 2 (apply sim_bind, sim_get; [done|]; intros _).
  rewrite (majority_eq _ _ HR). unfold when. destruct (Z.leb_spec (majority members)
    (Z.of_nat (size (Raft.votes_received (Raft.node w))))).
  - by apply sim_become_leader.
  - apply sim_ret; auto.
Qed.

Lemma sim_become_candidate now w G (Q : unit → World → State C → Prop) :
  R w G → (∀ w' G', R w' G' → Q tt w' G') →
  sim (Raft.become_candidate random_fn now) Q w G.
Proof.
  intros HR HQ. destruct (r_node _ _ HR) as (h & Hv & Hm).
  eapply sim_steps; [apply rtc_once, (s_campaign members allowed i G)|].
  unfold Raft.become_candidate. sim_go. apply sim_bind_reset. intros w' E.
  injection E as <-. apply sim_bind, sim_broadcast_request_vote; [|done|].
  - eapply R_step; [exact HR|apply s_campaign|..]; try done; try apply HR.
    exists h. split; [|done]. simpl. rewrite fn_lookup_insert, Hv. unfold campaign, view. simpl.
    by rewrite (r_id _ _ HR).
  - intros w' G' HR' _ _. by apply sim_maybe_become_leader.
Qed.

Lemma sim_maybe_win_prevote now w G (Q : unit → World → State C → Prop) :
  R w G → (∀ w' G', R w' G' → Q tt w' G') →
  sim (Raft.maybe_win_prevote random_fn now) Q w G.
Proof.
  intros HR HQ. unfold Raft.maybe_win_prevote.
  do 2 (apply sim_bind, sim_get; [done|]; intros _).
  unfold when. case_match; [by apply sim_become_candidate|]. apply sim_ret; auto.
Qed.

Lemma sim_start_prevote now w G (Q : unit → World → State C → Prop) :
  R w G → (∀ w' G', R w' G' → Q tt w' G') →
  sim (Raft.start_prevote random_fn now) Q w G.
Proof.
  intros HR HQ. destruct (r_node _ _ HR) as (h & Hv & Hm).
  eapply sim_steps; [apply rtc_once, (s_demote members allowed i G)|].
  unfold Raft.start_prevote. sim_go. apply sim_bind_reset. intros w1 E.
  injection E as <-. sim_go. apply sim_bind. set (w1 := Raft.mkWorld _ _ _ _).
  change (Raft.peer_ids (Raft.node w1)) with (Raft.peer_ids (Raft.node w1)). apply sim_broadcast.
  - eapply R_step; [exact HR|apply s_demote|..]; try done; try apply HR.
    exists h. split; [|done]. simpl. by rewrite fn_lookup_insert, Hv.
  - intros p v G0 Hp HRv Hn Hs HG Ha. apply sim_send; [done|done|done|].
    intros w' G' _ E1 E2 E3 E4. split_and!; congruence.
  - intros w' G' HR' _ _ _ _ _. by apply sim_maybe_win_prevote.
Qed.

Lemma sim_tick now w G (Q : unit → World → State C → Prop) :
  R w G → (∀ w' G', R w' G' → Q tt w' G') →
  sim (Raft.tick random_fn now) Q w G.
Proof.
  intros HR HQ. unfold Raft.tick. apply sim_bind, sim_get; [done|]. intros _.
  case_bool_decide; (apply sim_bind, sim_get; [done|]; intros _); unfold when; case_match;
    try (by apply sim_ret; auto).
  - apply sim_broadcast_append_entries; auto.
  - by apply sim_start_prevote.
Qed.

(** ** Voting *)

Lemma log_up_to_date_eq li lt w :
  Raft.log_up_to_date li lt w = (Ok (up_to_date (Storage.entries (Raft.storage w)) li lt), w).
Proof.
  unfold Raft.log_up_to_date, up_to_date, bind, Raft.reads, get, ret, Storage.last_term, Storage.last_index.
  by destruct (negb _).
Qed.

Lemma sim_log_up_to_date li lt w G (Q : bool → World → State C → Prop) :
  R w G → Q (up_to_date (Storage.entries (Raft.storage w)) li lt) w G →
  sim (Raft.log_up_to_date li lt) Q w G.
Proof. intros HR HQ. exists G. rewrite log_up_to_date_eq. split_and!; [apply rtc_refl|done|done]. Qed.

Lemma steps_sent G G' e : steps G G' → e ∈ sent G → e ∈ sent G'.
Proof.
  induction 1 as [|G1 G2 G3 H1 _ IH]; [done|]. intros He. apply IH.
  destruct H1; simpl; try done. apply elem_of_app. by left.
Qed.

(** A message once sent stays a message of the history. *)
Lemma sim_sent {A} e (m : M A) (Q : A → World → State C → Prop) w G :
  e ∈ sent G → sim m (λ a w' G', e ∈ sent G' → Q a w' G') w G → sim m Q w G.
Proof.
  intros He (G' & Hs & HR & HQ). exists G'. split_and!; [done|done|].
  destruct (m w).1; [|done]. by apply HQ, (steps_sent _ _ _ Hs).
Qed.

Lemma R_msg w G e : R w G → e ∈ sent G → payload_ok members G e.
Proof. intros HR He. apply (i_msg _ _ (r_inv _ _ HR) e He). Qed.

Lemma sim_handle_request_vote e r now w G :
  R w G → e ∈ sent G → env_message e = MRequestVoteArgs r →
  sim (Raft.handle_request_vote random_fn r now)
    (λ reply w' G', may_send G' i (env_sender e) (MRequestVoteReply reply)) w G.
Proof.
  intros HR He Hm. unfold Raft.handle_request_vote.
  apply sim_bind, (sim_sent e); [done|]. apply sim_observe_term; [done|].
  intros w1 G1 HR1 Ht He1 _. sim_go.
  destruct (Z.ltb_spec (rv_term r) (Storage.current_term (Raft.storage w1))); [by apply sim_ret|].
  sim_go. apply sim_bind, sim_log_up_to_date; [done|]. intros _. unfold Storage.get_voted_for.
  destruct (_ && _) eqn:Hgrant; [|by apply sim_ret].
  apply andb_true_iff in Hgrant as [Hcan Hok].
  pose proof (R_msg _ _ _ HR1 He1) as Hp. unfold payload_ok in Hp. rewrite Hm in Hp.
  destruct Hp as (Hc & _). destruct (r_node _ _ HR1) as (h & Hv & Hmach).
  assert (Hs : step members allowed i G1 (set_vote (an_term (nodes G1 i)) i (rv_candidate_id r)
                (set_node i (vote_for (rv_candidate_id r) (nodes G1 i)) G1))).
  { eapply s_grant; try done; rewrite Hv; simpl; [lia| |done].
    apply orb_true_iff in Hcan as [Hb|Hb]; apply bool_decide_eq_true in Hb; auto. }
  eapply sim_steps; [by apply rtc_once|]. sim_go. apply sim_bind_reset. intros w2 E. injection E as <-.
  apply sim_ret.
  - eapply R_step; try done; try apply HR1. exists h. split; [|done].
    simpl. rewrite fn_lookup_insert, Hv. done.
  - simpl. rewrite fn_lookup_insert, Hv. simpl. intros _. by rewrite Hc, (r_id _ _ HR1).
Qed.

Lemma sim_handle_prevote args now w G (Q : PreVoteReply → World → State C → Prop) :
  R w G → (∀ reply, Q reply w G) → sim (Raft.handle_prevote args now) Q w G.
Proof.
  intros HR HQ. unfold Raft.handle_prevote. sim_go.
  case_match; [by apply sim_ret|]. case_match; [by apply sim_ret|].
  apply sim_bind, sim_log_up_to_date; [done|]. intros _. case_match; by apply sim_ret.
Qed.

(** ** Appending and applying *)

Definition with_entries (l : list (LogEntry C)) (w : World) : World :=
  Raft.mkWorld (Raft.node w)
    (Storage.mkStorage (Storage.current_term (Raft.storage w)) (Storage.voted_for (Raft.storage w)) l)
    (Raft.transport w) (Raft.machine w).

(** The append loop is the specification's merge. *)
Lemma append_loop_eq es : ∀ idx w, 1 ≤ idx →
  Raft.append_loop idx es w = (Ok tt, with_entries (merge idx es (Storage.entries (Raft.storage w))) w).
Proof.
  induction es as [|e es IH]; intros idx w Hidx; [by destruct w as [? []]|].
  simpl. unfold Raft.reads, get, bind at 1, Storage.term_at.
  destruct (_ =? -1); [done|]. destruct (negb _).
  - unfold Raft.truncate_from, zoom, bind, Storage.truncate_from.
    destruct (Z.leb_spec idx 0); [lia|done].
  - apply IH. lia.
Qed.

Lemma sim_apply_loop fuel : ∀ w G (Q : unit → World → State C → Prop),
  R w G →
  (∀ w' G', R w' G' → Raft.storage w' = Raft.storage w → acked G' = acked G → Q tt w' G') →
  sim (Raft.apply_loop fuel) Q w G.
Proof.
  induction fuel as [|fuel IH]; intros w G Q HR HQ; simpl; [by apply sim_ret; auto|]. sim_go.
  destruct (Z.ltb_spec (Raft.last_applied (Raft.node w)) (Raft.commit_index (Raft.node w)));
    [|by apply sim_ret; auto].
  destruct (r_node _ _ HR) as (h & Hv & Hm).
  pose proof (i_node _ _ (r_inv _ _ HR) i) as Hn.
  pose proof (no_commit _ _ _ Hn) as [Hc _]. pose proof (no_applied _ _ _ Hn) as Ha.
  rewrite Hv in Hc, Ha. simpl in Hc, Ha.
  destruct (Storage.get_inside (Raft.last_applied (Raft.node w) + 1) (Storage.entries (Raft.storage w)))
    as (e & He & _); [lia|].
  assert (Hs : step members allowed i G (set_node i (with_applied e (nodes G i)) G))
    by (apply s_apply; by rewrite Hv).
  eapply sim_steps; [by apply rtc_once|]. sim_go.
  unfold Storage.get. cbn [Raft.storage]. rewrite He. apply sim_bind.
  destruct (sm_apply (entry_command e) (Raft.machine w)) as [r s'] eqn:Ea.
  eexists. split; [apply rtc_refl|]. unfold Raft.machine_apply, zoom. cbn [Raft.machine]. rewrite Ea. simpl.
  split; [|destruct r as [[]|x]; [intros HR'; by apply IH|by eexists _, _, _]].
  eapply R_step; try done; try apply HR. exists (h ++ [entry_command e]). split.
  - simpl. rewrite fn_lookup_insert, Hv. done.
  - simpl. rewrite sm_effects_app. unfold sm_effects at 1. simpl. by rewrite <- Hm, Ea.
Qed.

Lemma sim_apply_committed w G (Q : unit → World → State C → Prop) :
  R w G →
  (∀ w' G', R w' G' → Raft.storage w' = Raft.storage w → acked G' = acked G → Q tt w' G') →
  sim Raft.apply_committed Q w G.
Proof. intros HR HQ. unfold Raft.apply_committed. sim_go. by apply sim_apply_loop. Qed.

Lemma sim_append_and_commit e r w G :
  R w G → e ∈ sent G → env_message e = MAppendEntriesArgs r →
  ae_term r = Storage.current_term (Raft.storage w) → Raft.state (Raft.node w) = FOLLOWER →
  prev_ok (Storage.entries (Raft.storage w)) (ae_prev_log_index r) (ae_prev_log_term r) →
  sim (Raft.append_and_commit r (Storage.current_term (Raft.storage w)))
    (λ reply w' G', may_send G' i (env_sender e) (MAppendEntriesReply reply)) w G.
Proof.
  intros HR He Hm Ht Hf Hprev. destruct (r_node _ _ HR) as (h & Hv & Hmach).
  pose proof (R_msg _ _ _ HR He) as Hp. unfold payload_ok in Hp. rewrite Hm in Hp.
  destruct Hp as (_ & Hp0 & _). pose proof (zlen_nonneg (ae_entries r)).
  set (l := merge (ae_prev_log_index r + 1) (ae_entries r) (Storage.entries (Raft.storage w))).
  assert (Hs : step members allowed i G (set_ack i (an_term (nodes G i))
     (Z.max (acked G i (an_term (nodes G i))) (ae_prev_log_index r + zlen (ae_entries r)))
     (set_node i (with_commit (learn (ae_leader_commit r) l (an_commit (nodes G i)))
                    (with_log l (nodes G i))) G))).
  { replace l with (merge (ae_prev_log_index r + 1) (ae_entries r) (an_log (nodes G i))) by (by rewrite Hv).
    apply (s_accept members allowed i G e r); try done; by rewrite Hv. }
  eapply sim_steps; [by apply rtc_once|]. unfold Raft.append_and_commit.
  eapply sim_bind_eq; [apply append_loop_eq; lia|]. fold l. sim_go.
  set (G1 := set_ack _ _ _ _) in *.
  assert (HR1 : ∀ w1, w1 = Raft.mkWorld
       (Raft.set_commit_index (learn (ae_leader_commit r) l (Raft.commit_index (Raft.node w))) (Raft.node w))
       (Raft.storage (with_entries l w)) (Raft.transport w) (Raft.machine w) → R w1 G1).
  { intros w1 ->. eapply R_step; try done; try apply HR. exists h. split; [|done].
    simpl. rewrite fn_lookup_insert, Hv. done. }
  assert (Hack : ae_prev_log_index r + zlen (ae_entries r) ≤ acked G1 i (Storage.current_term (Raft.storage w))).
  { unfold G1. simpl. rewrite Hv. simpl. rewrite !fn_lookup_insert. lia. }
  assert (Hend : ∀ w' G', R w' G' → Raft.storage w' = Raft.storage (with_entries l w) →
    acked G' = acked G1 → may_send G' i (env_sender e) (MAppendEntriesReply
      (mkAppendEntriesReply (Storage.current_term (Raft.storage w)) true (Raft.node_id (Raft.node w'))
         (ae_prev_log_index r + zlen (ae_entries r)) 0 (-1)))).
  { intros w' G' HR' E1 E2. cbn [may_send aer_success aer_term aer_match_index].
    rewrite (R_term _ _ HR'), E1, E2. split; [done|]. cbn [with_entries Raft.storage Storage.current_term]. lia. }
  unfold learn in HR1. simpl. destruct (Z.ltb_spec (Raft.commit_index (Raft.node w)) (ae_leader_commit r)).
  - sim_go. apply sim_bind. sim_go. apply sim_apply_committed; [by apply HR1|].
    intros w' G' HR' E1 E2 _. sim_go. apply sim_ret; [done|]. by apply Hend.
  - apply sim_bind_eq with tt (with_entries l w); [done|]. sim_go.
    assert (HR2 : R (with_entries l w) G1) by (apply HR1; by destruct w as [[] ? ? ?]).
    apply sim_ret; [done|]. by apply (Hend _ _ HR2).
Qed.

Lemma first_index_loop_ge fuel t idx (l : list (LogEntry C)) :
  0 ≤ idx → 1 ≤ Raft.first_index_loop fuel t idx l.
Proof.
  revert idx. induction fuel as [|fuel IH]; intros idx Hidx; simpl; [lia|].
  destruct (Z.ltb_spec 0 idx); simpl; [|lia]. case_match; [|lia]. apply IH. lia.
Qed.

Lemma may_send_refuse G p t id k :
  may_send G i p (MAppendEntriesReply (mkAppendEntriesReply t false id 0 k (-1))).
Proof. by intros []. Qed.

Lemma sim_handle_append_entries e r now w G :
  R w G → e ∈ sent G → env_message e = MAppendEntriesArgs r →
  sim (Raft.handle_append_entries random_fn r now)
    (λ reply w' G', may_send G' i (env_sender e) (MAppendEntriesReply reply)) w G.
Proof.
  intros HR He Hm. unfold Raft.handle_append_entries.
  apply sim_bind, (sim_sent e); [done|]. apply sim_observe_term; [done|].
  intros w1 G1 HR1 Ht He1 _. sim_go.
  destruct (Z.ltb_spec (ae_term r) (Storage.current_term (Raft.storage w1)));
    [apply sim_ret; [done|apply may_send_refuse]|].
  destruct (r_node _ _ HR1) as (h & Hv & Hmach).
  eapply sim_steps; [apply rtc_once, (s_demote members allowed i G1)|]. sim_go.
  apply sim_bind_reset. intros w2 E.
  assert (HR2 : R w2 (set_node i (demote (nodes G1 i)) G1)).
  { injection E as <-. eapply R_step; [exact HR1|apply s_demote|..]; try done; try apply HR1.
    exists h. split; [|done]. simpl. by rewrite fn_lookup_insert, Hv. }
  assert (Hs2 : Raft.storage w2 = Raft.storage w1) by (by injection E as <-).
  assert (Hf2 : Raft.state (Raft.node w2) = FOLLOWER) by (by injection E as <-).
  clear E. rewrite <- Hs2 in *. set (G2 := set_node _ _ _) in *.
  assert (Happ : prev_ok (Storage.entries (Raft.storage w2)) (ae_prev_log_index r) (ae_prev_log_term r) →
    sim (Raft.append_and_commit r (Storage.current_term (Raft.storage w2)))
      (λ reply w' G', may_send G' i (env_sender e) (MAppendEntriesReply reply)) w2 G2).
  { intros Hp. apply sim_append_and_commit; try done. lia. }
  destruct (Z.ltb_spec 0 (ae_prev_log_index r)); [|apply Happ; intros ?; lia]. sim_go.
  unfold Storage.term_at. destruct (Z.eqb_spec (Storage.term_at_of (ae_prev_log_index r)
    (Storage.entries (Raft.storage w2))) (-1)); 
    [sim_go; apply sim_ret; [done|apply may_send_refuse]|].
  destruct (Z.eqb_spec (Storage.term_at_of (ae_prev_log_index r) (Storage.entries (Raft.storage w2)))
    (ae_prev_log_term r)); simpl; [by apply Happ|].
  unfold Raft.first_index_of_term. sim_go. apply sim_ret; [done|]. simpl. intros _.
  apply first_index_loop_ge. lia.
Qed.

(** ** Replies *)

Lemma sim_handle_prevote_reply reply now w G (Q : unit → World → State C → Prop) :
  R w G → (∀ w' G', R w' G' → Q tt w' G') →
  sim (Raft.handle_prevote_reply random_fn reply now) Q w G.
Proof.
  intros HR HQ. unfold Raft.handle_prevote_reply.
  apply sim_bind, sim_stepped_down; [done|by intros; apply sim_ret; auto|]. intros _. sim_go.
  case_match; [by apply sim_ret; auto|]. case_match; [|by apply sim_ret; auto]. sim_go.
  apply sim_maybe_win_prevote; [|done]. eapply R_same_view; [exact HR|]. by split_and!.
Qed.

Lemma sim_handle_request_vote_reply e reply now w G (Q : unit → World → State C → Prop) :
  R w G → e ∈ sent G → env_recipient e = i → env_message e = MRequestVoteReply reply →
  (∀ w' G', R w' G' → Q tt w' G') →
  sim (Raft.handle_request_vote_reply random_fn reply now) Q w G.
Proof.
  intros HR He Hr Hm HQ. unfold Raft.handle_request_vote_reply.
  apply sim_bind, sim_stepped_down; [done|by intros; apply sim_ret; auto|]. intros _. sim_go.
  unfold Storage.get_current_term. case_bool_decide as Hst; simpl; [by apply sim_ret; auto|].
  destruct (Z.eqb_spec (rvr_term reply) (Storage.current_term (Raft.storage w))); simpl;
    [|by apply sim_ret; auto].
  destruct (rvr_vote_granted reply) eqn:Hg; [|by apply sim_ret; auto].
  assert (Hc : Raft.state (Raft.node w) = CANDIDATE) by (by destruct (decide (Raft.state (Raft.node w) = CANDIDATE))).
  destruct (r_node _ _ HR) as (h & Hv & Hmach).
  assert (Hs : step members allowed i G (set_node i (count_vote (rvr_voter_id reply) (nodes G i)) G))
    by (eapply s_count; try done; by rewrite Hv).
  eapply sim_steps; [by apply rtc_once|]. sim_go. apply sim_maybe_become_leader; [|done].
  eapply R_step; try done; try apply HR. exists h. split; [|done].
  simpl. by rewrite fn_lookup_insert, Hv.
Qed.

(** A leader has as many candidates as the cluster has nodes. *)
Lemma commit_candidate_some last (mi : gmap string Z) :
  dom mi = peers_of members i → is_Some (Raft.commit_candidate last mi (majority members)).
Proof.
  intros Hd. unfold Raft.commit_candidate. apply lookup_lt_is_Some.
  rewrite (Permutation_length (isort_perm _ _)). simpl. rewrite length_fmap.
  rewrite length_map_to_list, <- (size_dom (D := gset string)), Hd, size_peers.
  pose proof size_members. unfold majority.
  pose proof (Z.div_lt (Z.of_nat (size members)) 2). pose proof (Z.div_pos (Z.of_nat (size members)) 2). lia.
Qed.

Lemma sim_advance_commit_index w G (Q : unit → World → State C → Prop) :
  R w G → Raft.state (Raft.node w) = LEADER → (∀ w' G', R w' G' → Q tt w' G') →
  sim Raft.advance_commit_index Q w G.
Proof.
  intros HR Hl HQ. unfold Raft.advance_commit_index. sim_go.
  rewrite (majority_eq _ _ HR).
  destruct (commit_candidate_some (Storage.last_index (Raft.storage w)) _ (r_dom _ _ HR Hl)) as [k Hk].
  rewrite Hk. sim_go. unfold Storage.term_at, Storage.get_current_term.
  destruct (_ && _) eqn:Hc; [|by apply sim_ret; auto].
  apply andb_true_iff in Hc as [Hc1 Hc2]. apply Z.ltb_lt in Hc1. apply Z.eqb_eq in Hc2.
  destruct (r_node _ _ HR) as (h & Hv & Hmach).
  assert (Hs : step members allowed i G (set_node i (with_commit k (nodes G i)) G))
    by (apply s_commit; by rewrite Hv).
  eapply sim_steps; [by apply rtc_once|]. sim_go. apply sim_apply_committed; [|by intros; apply HQ].
  eapply R_step; try done; try apply HR. exists h. split; [|done].
  simpl. by rewrite fn_lookup_insert, Hv.
Qed.

Lemma sender_peer w G e : R w G → e ∈ sent G → env_recipient e = i → env_sender e ∈ peers_of members i.
Proof.
  intros HR He Hr. destruct (i_msg _ _ (r_inv _ _ HR) e He) as (Hse & _ & Hsr & _).
  unfold peers_of. rewrite elem_of_difference, not_elem_of_singleton. split; [done|congruence].
Qed.

(** Updating [next_index] is invisible to the specification. *)
Lemma R_set_next w G p k :
  R w G → 1 ≤ k →
  R (Raft.mkWorld (Raft.set_next_index (<[p := k]> (Raft.next_index (Raft.node w))) (Raft.node w))
       (Raft.storage w) (Raft.transport w) (Raft.machine w)) G.
Proof.
  intros [] Hk. split; try done. intros q k'. simpl. destruct (decide (q = p)) as [->|].
  - rewrite lookup_insert_eq. by intros [= <-].
  - rewrite lookup_insert_ne by done. apply r_next0.
Qed.

Lemma sim_append_entries_success e reply w G (Q : unit → World → State C → Prop) :
  R w G → e ∈ sent G → env_recipient e = i → env_message e = MAppendEntriesReply reply →
  aer_success reply = true → aer_term reply = Storage.current_term (Raft.storage w) →
  Raft.state (Raft.node w) = LEADER →
  (∀ w' G', R w' G' → Raft.state (Raft.node w') = LEADER → Q tt w' G') →
  sim (if default 0 (Raft.match_index (Raft.node w) !! env_sender e) <? aer_match_index reply then
         Raft.on_node (Raft.set_match_index
           (<[env_sender e := aer_match_index reply]> (Raft.match_index (Raft.node w))))
       else ret tt) Q w G.
Proof.
  intros HR He Hr Hm Hok Ht Hl HQ.
  case_match; [|by apply sim_ret; auto].
  destruct (r_node _ _ HR) as (h & Hv & Hmach).
  pose proof (R_msg _ _ _ HR He) as Hp. unfold payload_ok in Hp. rewrite Hm, Hok in Hp.
  assert (Hs : step members allowed i G (set_node i (with_match (<[env_sender e := aer_match_index reply]>
                 (an_match (nodes G i))) (nodes G i)) G))
    by (apply (s_ack members allowed i G e reply); try done; by rewrite Hv).
  eapply sim_steps; [by apply rtc_once|].
  assert (HR' : R (Raft.mkWorld (Raft.set_match_index (<[env_sender e := aer_match_index reply]>
      (Raft.match_index (Raft.node w))) (Raft.node w)) (Raft.storage w) (Raft.transport w) (Raft.machine w))
      (set_node i (with_match (<[env_sender e := aer_match_index reply]> (an_match (nodes G i))) (nodes G i)) G)).
  { eapply R_step; [exact HR|exact Hs|apply HR|done|apply HR| | |apply HR|].
    - intros p k. simpl. destruct (decide (p = env_sender e)) as [->|].
      + rewrite lookup_insert_eq. intros [= <-]. lia.
      + rewrite lookup_insert_ne by done. apply HR.
    - intros _. simpl. rewrite dom_insert_L, (r_dom _ _ HR Hl).
      pose proof (sender_peer w G e HR He Hr). set_solver.
    - exists h. split; [|done]. simpl. by rewrite fn_lookup_insert, Hv. }
  eexists. split; [apply rtc_refl|]. split; [exact HR'|]. by apply HQ.
Qed.

Lemma sim_handle_append_entries_reply e reply now w G (Q : unit → World → State C → Prop) :
  R w G → e ∈ sent G → env_recipient e = i → env_message e = MAppendEntriesReply reply →
  (∀ w' G', R w' G' → Q tt w' G') →
  sim (Raft.handle_append_entries_reply random_fn (env_sender e) reply now) Q w G.
Proof.
  intros HR He Hr Hm HQ. unfold Raft.handle_append_entries_reply.
  apply sim_bind, sim_stepped_down; [done|by intros; apply sim_ret; auto|]. intros _. 
  apply sim_bind, sim_get; [done|]. intros _. apply sim_bind, sim_get; [done|]. intros _.
  unfold Storage.get_current_term. case_bool_decide as Hl; simpl; [by apply sim_ret; auto|].
  destruct (Z.eqb_spec (aer_term reply) (Storage.current_term (Raft.storage w))) as [Ht|]; simpl;
    [|by apply sim_ret; auto].
  pose proof (R_msg _ _ _ HR He) as Hp. unfold payload_ok in Hp. rewrite Hm in Hp.
  destruct (aer_success reply) eqn:Hok.
  - sim_go. apply sim_bind, (sim_append_entries_success e reply); try done.
    intros w1 G1 HR1 Hl1 _. sim_go.
    assert (Hdom : env_sender e ∈ dom (Raft.match_index (Raft.node w1)))
      by (rewrite (r_dom _ _ HR1 Hl1); by apply (sender_peer w G)).
    apply elem_of_dom in Hdom as [m Hmi]. rewrite Hmi.
    sim_go. apply (r_match _ _ HR1) in Hmi.
    apply sim_advance_commit_index; [apply R_set_next; [done|lia]|done|done].
  - assert (Hsend : ∀ k, 1 ≤ k →
      sim (bind (Raft.on_node (Raft.set_next_index
                   (<[env_sender e := k]> (Raft.next_index (Raft.node w)))))
             (λ _, Raft.send_append_entries_to (env_sender e) now)) Q w G).
    { intros k Hk. sim_go. apply sim_send_append_entries; [by apply R_set_next| |done|].
      - by apply (sender_peer w G).
      - intros. by apply HQ. }
    sim_go. destruct (Z.eqb_spec (aer_conflict_term reply) (-1)) as [|Hct]; simpl; [apply Hsend; lia|].
    apply (Hsend (if 0 <? Raft.last_index_of (aer_conflict_term reply) (Storage.entries (Raft.storage w))
                  then Raft.last_index_of (aer_conflict_term reply) (Storage.entries (Raft.storage w)) + 1
                  else aer_conflict_index reply)).
    specialize (Hp Hct). case_match eqn:Hlast; [|done]. apply Z.ltb_lt in Hlast. lia.
Qed.

(** ** The entry points *)

Lemma sim_propose c now w G (Q : option (LogEntry C) → World → State C → Prop) :
  R w G → allowed c → (∀ r w' G', R w' G' → Q r w' G') →
  sim (Raft.propose c now) Q w G.
Proof.
  intros HR Hall HQ. unfold Raft.propose. sim_go. case_bool_decide as Hl; [apply sim_ret; auto|]. sim_go.
  destruct (r_node _ _ HR) as (h & Hv & Hmach).
  eapply sim_steps; [apply rtc_once, (s_propose members allowed i G c); [by rewrite Hv|done]|].
  apply sim_bind, sim_broadcast_append_entries; [|done|].
  - eapply R_step; [exact HR|apply s_propose; [by rewrite Hv|done]|..]; try done; try apply HR.
    exists h. split; [|done]. simpl. by rewrite fn_lookup_insert, Hv.
  - intros w' G' HR' _ _ _ _ _. apply sim_ret; auto.
Qed.

Lemma sim_reply {A} (m : M A) (f : A → Message C) e w G (Q : unit → World → State C → Prop) :
  R w G → e ∈ sent G → env_recipient e = i →
  sim m (λ r w' G', may_send G' i (env_sender e) (f r)) w G →
  (∀ w' G', R w' G' → Q tt w' G') →
  sim (bind m (λ r, Raft.send (env_sender e) (f r))) Q w G.
Proof.
  intros HR He Hr Hm HQ. apply sim_bind. eapply sim_mono; [exact Hm|].
  intros a w1 G1 HR1 Hs _. apply sim_send; [done|by apply (sender_peer w G)|done|by intros; apply HQ].
Qed.

Lemma sim_receive e now w G (Q : unit → World → State C → Prop) :
  R w G → e ∈ sent G → env_recipient e = i → (∀ w' G', R w' G' → Q tt w' G') →
  sim (Raft.receive random_fn e now) Q w G.
Proof.
  intros HR He Hr HQ. unfold Raft.receive.
  destruct (env_message e) as [r|r|r|r|r|r] eqn:Hm.
  - by apply sim_reply, HQ; try done; apply sim_handle_request_vote.
  - by apply (sim_handle_request_vote_reply e).
  - by apply sim_reply, HQ; try done; apply sim_handle_append_entries.
  - by apply sim_handle_append_entries_reply.
  - apply sim_reply; try done. by apply sim_handle_prevote.
  - by apply sim_handle_prevote_reply.
Qed.

Lemma sim_start now w G (Q : unit → World → State C → Prop) :
  R w G → (∀ w', R w' G → Q tt w' G) → sim (Raft.start random_fn now) Q w G.
Proof. intros HR HQ. unfold Raft.start. apply sim_reset; [done|]. intros w' HR' _ _ _. by apply HQ. Qed.

(** A process restart builds a new node over the surviving storage and state
    machine. *)
Lemma R_restart peers tmin tmax hb w G :
  R w G → NoDup peers → (∀ p, p ∈ peers ↔ p ∈ peers_of members i) →
  ∃ G', steps G G' ∧ R (Raft.init i peers tmin tmax hb (Raft.storage w) (Raft.transport w) (Raft.machine w)) G'.
Proof.
  intros HR Hnd Hp. destruct (r_node _ _ HR) as (h & Hv & Hmach).
  eexists. split; [apply rtc_once, s_restart|]. split; try done.
  - eapply (Append.inv_step members allowed); [done|apply HR|apply s_restart].
  - by apply net_register, HR.
  - exists h. split; [|done]. simpl. by rewrite fn_lookup_insert, Hv.
Qed.

End refine.
End Refine.
