(* ===== verification/RaftHistory.v ===== *)
(** * What the protocol promises about commands

    Committed prefixes agree across nodes, terms and time; what a node handed
    to its state machine is a sequence of replays of committed prefixes; the
    commands come from the proposals.  These are the facts the cluster
    theorems are read from. *)

From stdpp Require Import base gmap strings list functions relations fin_sets.
From Stdlib Require Import ZArith Lia.
From S2P Require Import Prelude RaftTypes Storage StateMachine RaftNode.
From S2P Require Import RaftSpec RaftInv RaftLogs RaftActions RaftAppend.
Import Spec Inv Logs.

Local Open Scope Z_scope.

Module History.
Section history.
Context {C : Type}.
Variable members : gset string.
Variable allowed : C → Prop.
Abbreviation log := (list (LogEntry C)).
Abbreviation term_at := (@Storage.term_at_of C).
Abbreviation inv := (@Inv.inv C members).
Abbreviation committed := (Spec.committed members).
Abbreviation committed_prefix := (Spec.committed_prefix members).
Abbreviation step := (@Spec.step C members allowed).
Abbreviation cstep := (@Spec.cstep C members allowed).
Implicit Types (G : State C) (l : log).

Definition cmds (l : log) : list C := entry_command <$> l.

(** ** Committed prefixes agree *)

Lemma committed_tlogs G s1 i1 s2 i2 :
  inv G → committed G s1 i1 → committed G s2 i2 → s1 < s2 → pfx i1 (tlog G s2) = pfx i1 (tlog G s1).
Proof.
  intros HI Hc1 (Hi2 & _) Hs. pose proof Hc1 as (Hi1 & Ht1 & _).
  assert (Hl : leader G s2 ≠ None).
  { intros Hn. destruct (to_none _ _ _ (i_term _ _ HI s2) Hn) as [E _]. rewrite E in Hi2.
    unfold zlen in Hi2. simpl in Hi2. lia. }
  destruct (to_keeps _ _ _ (i_term _ _ HI s2) s1 i1 Hl Hs Hi1 Ht1) as [?|Hd]; [done|].
  by destruct (committed_not_dead _ _ _ _ Hc1).
Qed.

Lemma committed_prefix_agree G t1 k1 l1 t2 k2 l2 k :
  inv G → committed_prefix G t1 k1 l1 → committed_prefix G t2 k2 l2 → k ≤ k1 → k ≤ k2 →
  pfx k l1 = pfx k l2.
Proof.
  intros HI [->|(s1 & i1 & Hc1 & _ & Hk1 & Hp1)] H2 Hle1 Hle2; [by rewrite !pfx_nonpos|].
  destruct H2 as [->|(s2 & i2 & Hc2 & _ & Hk2 & Hp2)]; [by rewrite !pfx_nonpos|].
  rewrite (pfx_agree_le k k1 l1 _ Hle1 Hp1), (pfx_agree_le k k2 l2 _ Hle2 Hp2).
  destruct (Z.lt_trichotomy s1 s2) as [Hlt|[->|Hlt]]; [|done|].
  - symmetry. apply (pfx_agree_le k i1); [lia|]. by apply (committed_tlogs G s1 i1 s2 i2).
  - apply (pfx_agree_le k i2); [lia|]. by apply (committed_tlogs G s2 i2 s1 i1).
Qed.

Lemma committed_prefix_shrink G t k k' l : 0 ≤ k' ≤ k → committed_prefix G t k l → committed_prefix G t k' l.
Proof.
  intros Hk [->|(s & i & Hc & Hs & Hki & Hp)]; [left; lia|right].
  exists s, i. split_and!; [done|done|lia|]. by apply (pfx_agree_le k' k); [lia|].
Qed.

(** A later leader's log has every committed prefix of an earlier term. *)
Lemma leader_complete G n t k l :
  inv G → an_role (nodes G n) = LEADER → t ≤ an_term (nodes G n) → committed_prefix G t k l →
  pfx k (an_log (nodes G n)) = pfx k l.
Proof.
  intros HI Hr Ht [->|(s & i & Hc & Hs & Hk & Hp)]; [by rewrite !pfx_nonpos|].
  destruct (no_leader _ _ _ (i_node _ _ HI n) Hr) as (Hl & Htl & _). rewrite Hp, <- Htl.
  destruct (Z.eq_dec s (an_term (nodes G n))) as [->|Hne]; [done|]. pose proof Hc as (Hi & Hti & _).
  destruct (to_keeps _ _ _ (i_term _ _ HI (an_term (nodes G n))) s i) as [Hkeep|Hd];
    [congruence|lia|done|done| |by destruct (committed_not_dead _ _ _ _ Hc)].
  by apply (pfx_agree_le k i); [lia|].
Qed.

(** ** ... and stay committed *)

Lemma cstep_inv G G' : inv G → rtc cstep G G' → inv G'.
Proof.
  intros HI Hs. induction Hs as [|G1 G2 G3 (n & Hn & H1) _ IH]; [done|]. apply IH.
  by eapply Append.inv_step.
Qed.

Lemma cstep_committed_prefix G G' t k l :
  inv G → rtc cstep G G' → committed_prefix G t k l → committed_prefix G' t k l.
Proof.
  intros HI Hs. induction Hs as [|G1 G2 G3 (n & Hn & H1) _ IH]; [done|]. intros Hc.
  apply IH; [by eapply Append.inv_step|].
  eapply committed_prefix_mono; [|done]. by eapply Append.evolves_step.
Qed.

Lemma cstep_leader G G' t c : inv G → rtc cstep G G' → leader G t = Some c → leader G' t = Some c.
Proof.
  intros HI Hs. induction Hs as [|G1 G2 G3 (n & Hn & H1) _ IH]; [done|]. intros Hl.
  apply IH; [by eapply Append.inv_step|].
  eapply ev_leader; [|done]. by eapply Append.evolves_step.
Qed.

Lemma cstep_good_log G G' l : inv G → rtc cstep G G' → good_log G l → good_log G' l.
Proof.
  intros HI Hs. induction Hs as [|G1 G2 G3 (n & Hn & H1) _ IH]; [done|]. intros Hl.
  apply IH; [by eapply Append.inv_step|].
  eapply good_log_mono; [|done]. by eapply Append.evolves_step.
Qed.

(** ** Every entry records its own position *)

Definition positioned l : Prop := ∀ j e, l !! j = Some e → entry_index e = Z.of_nat j + 1.

Lemma positioned_good G l : (∀ t, positioned (tlog G t)) → good_log G l → positioned l.
Proof.
  intros Hp Hg j e He. pose proof (lookup_lt_Some _ _ _ He).
  destruct (Hg (Z.of_nat j + 1)) as [_ E]; [unfold zlen; lia|].
  apply (Hp (term_at (Z.of_nat j + 1) l)).
  unfold pfx in E. apply (f_equal (λ l', l' !! j)) in E.
  rewrite !lookup_take_lt in E by lia. by rewrite <- E.
Qed.

Lemma positioned_reachable G : reachable members allowed G → ∀ t, positioned (tlog G t).
Proof.
  apply (rtc_ind_r (λ G, ∀ t, positioned (tlog G t))); [by intros t j e|].
  intros G1 G2 Hr (n & Hn & Hs) IH. assert (HI : inv G1) by (by eapply Append.inv_reachable).
  destruct Hs; try done; intros u; simpl;
    (destruct (decide (u = an_term (nodes G1 n))) as [->|]; [rewrite fn_lookup_insert|by rewrite fn_lookup_insert_ne]).
  - apply (positioned_good G1); [done|]. apply (no_log _ _ _ (i_node _ _ HI n)).
  - pose proof (positioned_good G1 _ IH (no_log _ _ _ (i_node _ _ HI n))) as Hold.
    intros j e Hj. subst l a. destruct (decide (j < length (an_log (nodes G1 n)))%nat).
    + rewrite lookup_app_l in Hj by done. by apply Hold.
    + rewrite lookup_app_r in Hj by lia. apply list_lookup_singleton_Some in Hj as [Hj <-].
      simpl. unfold zlen. lia.
Qed.

(** ** What was applied *)

Definition committed_cmds G (p : list C) : Prop :=
  ∃ t k l, committed_prefix G t k l ∧ 0 ≤ k ≤ zlen l ∧ p = cmds (pfx k l).

Definition current_run G n : list C := cmds (pfx (an_applied (nodes G n)) (an_log (nodes G n))).

Definition history_ok G n : Prop :=
  ∃ ps, an_history (nodes G n) = concat ps ++ current_run G n ∧ Forall (committed_cmds G) ps.

Lemma committed_cmds_mono n G G' p : evolves n G G' → committed_cmds G p → committed_cmds G' p.
Proof.
  intros Hev (t & k & l & Hc & Hk & ->). exists t, k, l. split_and!; [|lia|lia|done].
  by eapply committed_prefix_mono.
Qed.

Lemma current_run_committed G n : inv G → committed_cmds G (current_run G n).
Proof.
  intros HI. pose proof (i_node _ _ HI n) as Hn. destruct (no_commit _ _ _ Hn) as [Hc Hcp].
  pose proof (no_applied _ _ _ Hn). exists (an_term (nodes G n)), (an_applied (nodes G n)), (an_log (nodes G n)).
  split_and!; [|lia|lia|done]. by eapply committed_prefix_shrink.
Qed.

Lemma cmds_comparable G p q :
  inv G → committed_cmds G p → committed_cmds G q → p `prefix_of` q ∨ q `prefix_of` p.
Proof.
  assert (Hle : ∀ t1 k1 l1 t2 k2 l2, inv G → committed_prefix G t1 k1 l1 → committed_prefix G t2 k2 l2 →
    k1 ≤ k2 → cmds (pfx k1 l1) `prefix_of` cmds (pfx k2 l2)).
  { intros t1 k1 l1 t2 k2 l2 HI H1 H2 Hk.
    rewrite (committed_prefix_agree G t1 k1 l1 t2 k2 l2 k1 HI H1 H2), <- (pfx_pfx k1 k2) by lia.
    destruct (pfx_prefix_of k1 (pfx k2 l2)) as [r Hr]. exists (cmds r).
    unfold cmds. by rewrite <- fmap_app, <- Hr. }
  intros HI (t1 & k1 & l1 & H1 & _ & ->) (t2 & k2 & l2 & H2 & _ & ->).
  destruct (Z.le_ge_cases k1 k2); [left|right]; by eapply Hle.
Qed.

Lemma history_mono n G G' m :
  evolves n G G' → inv G → inv G' → an_history (nodes G' m) = an_history (nodes G m) →
  an_applied (nodes G' m) = an_applied (nodes G m) → history_ok G m → history_ok G' m.
Proof.
  intros Hev HI HI' Hh Ha (ps & E & Hps). exists ps. split.
  - rewrite Hh, E. f_equal. unfold current_run. f_equal. rewrite Ha.
    pose proof (i_node _ _ HI m) as Hm. pose proof (i_node _ _ HI' m) as Hm'.
    destruct (no_commit _ _ _ Hm) as [_ Hc]. destruct (no_commit _ _ _ Hm') as [_ Hc'].
    pose proof (no_applied _ _ _ Hm). pose proof (no_applied _ _ _ Hm').
    eapply (committed_prefix_agree G'); [done|by eapply committed_prefix_mono|exact Hc'|lia|lia].
  - eapply Forall_impl; [exact Hps|]. intros p Hp. by eapply committed_cmds_mono.
Qed.

Lemma history_step n G G' : n ∈ members → inv G → step n G G' → ∀ m, history_ok G m → history_ok G' m.
Proof.
  intros Hn HI Hs m Hm. pose proof (Append.evolves_step members allowed n G HI G' Hs) as Hev.
  assert (HI' : inv G') by (by eapply Append.inv_step).
  destruct (decide (m = n)) as [->|Hne].
  2: { apply (history_mono n G G'); try done; by rewrite (ev_nodes _ _ _ Hev). }
  destruct Hs; try (eapply history_mono; try done; simpl; rewrite ?fn_lookup_insert; done).
  - destruct Hm as (ps & E & Hps). exists ps. split.
    + simpl. rewrite fn_lookup_insert. simpl. rewrite E, <- (assoc_L (++)). f_equal.
      unfold current_run. simpl. rewrite fn_lookup_insert. simpl.
      pose proof (no_applied _ _ _ (i_node _ _ HI n)). pose proof (no_commit _ _ _ (i_node _ _ HI n)) as [? _].
      destruct (Storage.get_inside (an_applied (nodes G n) + 1) (an_log (nodes G n))) as (e' & He' & Hl); [lia|].
      simplify_eq. replace (an_applied (nodes G n) + 1 - 1) with (an_applied (nodes G n)) in Hl by lia.
      rewrite (Storage.pfx_snoc _ _ e) by (lia || done). unfold cmds. by rewrite fmap_app.
    + eapply Forall_impl; [exact Hps|]. intros p Hp. by eapply committed_cmds_mono.
  - destruct Hm as (ps & E & Hps). exists (ps ++ [current_run G n]). split.
    + simpl. rewrite fn_lookup_insert. simpl. rewrite E, concat_app. simpl.
      unfold current_run at 3. simpl. rewrite fn_lookup_insert. simpl.
      by rewrite !(right_id_L [] (++)).
    + apply Forall_app. split; [eapply Forall_impl; [exact Hps|]; intros p Hp; by eapply committed_cmds_mono|].
      constructor; [|done]. eapply committed_cmds_mono; [done|]. by apply current_run_committed.
Qed.

Lemma history_reachable G : reachable members allowed G → ∀ m, history_ok G m.
Proof.
  intros Hr. assert (HI : inv G) by (by eapply Append.inv_reachable). revert HI. revert G Hr.
  apply (rtc_ind_r (λ G, inv G → ∀ m, history_ok G m)).
  - intros _ m. by exists [].
  - intros G1 G2 Hr (n & Hn & Hs) IH HI2 m.
    assert (HI1 : inv G1) by (by eapply Append.inv_reachable).
    apply (history_step n G1); auto.
Qed.

(** The state machine of a node, as a function of one committed command
    sequence: the longest prefix it has applied, before or after a restart. *)
Lemma history_longest G n :
  inv G → history_ok G n →
  ∃ ps (l : list C), an_history (nodes G n) = concat ps ∧ l ∈ ps ∧ committed_cmds G l ∧
    Forall (λ p, p `prefix_of` l) ps ∧ current_run G n `prefix_of` l.
Proof.
  intros HI (ps & E & Hps). pose proof (current_run_committed G n HI) as Hcur.
  exists (ps ++ [current_run G n]).
  assert (Hall : Forall (committed_cmds G) (ps ++ [current_run G n])) by (apply Forall_app; split; [done|by constructor]).
  assert (Hlong : ∀ qs, qs ≠ [] → Forall (committed_cmds G) qs →
    ∃ l : list C, l ∈ qs ∧ Forall (λ p, p `prefix_of` l) qs).
  { clear -HI. induction qs as [|q qs IH]; [done|]. intros _ [Hq Hqs]%Forall_cons_1.
    destruct (decide (qs = [])) as [->|Hne]; [exists q; split; [left|by constructor]|].
    destruct (IH Hne Hqs) as (l & Hl & Hpl). assert (Hcl : committed_cmds G l) by (by eapply Forall_forall).
    destruct (cmds_comparable G q l HI Hq Hcl) as [?|?].
    - exists l. split; [by right|by constructor].
    - exists q. split; [left|]. constructor; [done|]. eapply Forall_impl; [exact Hpl|].
      intros p Hp. by transitivity l. }
  destruct (Hlong (ps ++ [current_run G n])) as (l & Hl & Hpl); [by intros []%app_nil|done|].
  exists l. rewrite Forall_forall in Hall. split_and!; [|done|by apply Hall|done|].
  - rewrite concat_app. simpl. by rewrite (right_id_L [] (++)).
  - rewrite Forall_forall in Hpl. apply Hpl, elem_of_app. right. by apply list_elem_of_singleton.
Qed.

(** ** The commands come from the proposals *)

Definition all_allowed (l : log) : Prop := Forall (λ e, allowed (entry_command e)) l.

Record valid G : Prop := {
  v_log n : all_allowed (an_log (nodes G n));
  v_tlog t : all_allowed (tlog G t);
  v_msg e r : e ∈ sent G → env_message e = MAppendEntriesArgs r → all_allowed (ae_entries r)
}.

Lemma merge_allowed es : ∀ idx l, all_allowed es → all_allowed l → all_allowed (merge idx es l).
Proof.
  induction es as [|e es IH]; intros idx l Hes Hl; simpl; [done|].
  case_match; [by apply Forall_app|]. case_match.
  - apply Forall_app. split; [by apply Forall_take|done].
  - apply IH; [|done]. by apply Forall_cons_1 in Hes as [_ ?].
Qed.

Lemma valid_step n G G' : step n G G' → valid G → valid G'.
Proof.
  intros Hs [Hl Ht Hm]. assert (Hn := Hl n).
  destruct Hs; (split; simpl; [intros n'|intros t'|intros e' r' He' Hr']); try done; try (by eapply Hm);
    try (destruct (decide (n' = n)) as [->|]; [rewrite fn_lookup_insert|by rewrite fn_lookup_insert_ne]);
    try done.
  - destruct (decide (t' = an_term (nodes G n))) as [->|]; [by rewrite fn_lookup_insert|].
    by rewrite fn_lookup_insert_ne.
  - apply Forall_app. split; [done|]. by repeat constructor.
  - destruct (decide (t' = an_term (nodes G n))) as [->|]; [|by rewrite fn_lookup_insert_ne].
    rewrite fn_lookup_insert. apply Forall_app. split; [done|]. by repeat constructor.
  - simpl. apply merge_allowed; [by eapply Hm|done].
  - apply elem_of_app in He' as [?|He'%list_elem_of_singleton]; [by eapply Hm|].
    subst e'. simpl in Hr'. subst. unfold may_send in *. destruct H0 as (_ & next & _ & ->). simpl.
    by apply Forall_drop.
Qed.

Lemma valid_reachable G : reachable members allowed G → valid G.
Proof.
  apply (rtc_ind_r (λ G, valid G)).
  - split; simpl; try done; [constructor..|]. intros e r He. by apply not_elem_of_nil in He.
  - intros G1 G2 _ (n & _ & Hs) IH. by eapply valid_step.
Qed.

Lemma committed_cmds_allowed G p : valid G → committed_cmds G p → Forall allowed p.
Proof.
  intros [_ Ht _] (t & k & l & [->|(s & i & _ & _ & _ & Hp)] & _ & ->).
  - by rewrite pfx_nonpos.
  - rewrite Hp. unfold cmds. apply Forall_fmap, Forall_take. apply Ht.
Qed.

End history.
End History.
