(* ===== verification/Cluster.v ===== *)
(** * A running cluster (coordinator/raft_cluster.py, raft/tests/harness.py)

    Several [RaftNode]s over one network, each with its own storage and state
    machine.  An [Event] is one call the drivers make into one node
    ([start], [tick], delivery of one envelope, [propose]), a crash-restart of
    a node ([revive]: a fresh [RaftNode] over the surviving storage and state
    machine), or a move of the environment on the network.  Any interleaving
    is a list of events.  The clock values and the random draws are part of
    the events, so that nothing is assumed about either. *)

From stdpp Require Import base gmap strings list functions relations fin_sets fin_maps.
From Stdlib Require Import ZArith Lia.
From S2P Require Import Prelude PyFloat RaftTypes Storage StateMachine Transport RaftNode.
From S2P Require Import RaftSpec RaftInv RaftActions RaftAppend RaftRefine RaftHistory.
Import Spec Inv Refine.

Local Open Scope Z_scope.

Module Cluster.
Section cluster.
Context {C S T : Type} {Hsm : StateMachine C S}.
Context {Htr : Transport C T} {Hnet : Network C T}.
(** The timing arguments of [RaftCluster.__init__]. *)
Variables tmin tmax hb : float.

Record Slot := mkSlot {
  slot_node : Raft.RaftNode;
  slot_storage : Storage.InMemoryStorage C;
  slot_machine : S
}.

Record Cluster := mkCluster {
  slots : gmap string Slot;
  network : T
}.

(** [[nid for nid in self.storages if nid != node_id]] *)
Definition peers (ids : list string) (id : string) : list string := filter (λ p, p ≠ id) ids.

Definition world (s : Slot) (t : T) : Raft.World C S T :=
  Raft.mkWorld (slot_node s) (slot_storage s) t (slot_machine s).

(** [_build_runtime]/[_build_node]: a new node over the given storage and
    state machine. *)
Definition build_node (ids : list string) (id : string) (st : Storage.InMemoryStorage C) (sm : S) (t : T)
  : Raft.World C S T := Raft.init id (peers ids id) tmin tmax hb st t sm.

(** Stores the outcome of a call into node [id]. *)
Definition put (id : string) (w : Raft.World C S T) (cl : Cluster) : Cluster :=
  mkCluster (<[id := mkSlot (Raft.node w) (Raft.storage w) (Raft.machine w)]> (slots cl)) (Raft.transport w).

(** A call into node [id]; an exception keeps the effects done before it. *)
Definition on_slot {A} (id : string) (m : Py (Raft.World C S T) A) (cl : Cluster) : option (res A) * Cluster :=
  match slots cl !! id with
  | Some s => let '(r, w) := m (world s (network cl)) in (Some r, put id w cl)
  | None => (None, cl)
  end.

Inductive Event :=
| Start (id : string) (now : float)
| Tick (id : string) (now : float)
| Deliver (id : string) (choice : n_choice C T) (now : float)
| Propose (id : string) (command : C) (now : float)
| Restart (id : string)
| Env (move : n_move C T).

(** What a call ended with. *)
Inductive Outcome :=
| Done
| Proposed (entry : option (LogEntry C))
| Failed (x : exn)
| Skipped.

Definition outcome {A} (f : A → Outcome) (r : option (res A)) : Outcome :=
  match r with Some (Ok a) => f a | Some (Raise x) => Failed x | None => Skipped end.

Section run.
Variable ids : list string.

Definition exec (ev : Event) (rnd : nat → float → float → float) (cl : Cluster) : Outcome * Cluster :=
  match ev with
  | Start id now =>
      let '(r, cl') := on_slot id (Raft.start rnd now) cl in (outcome (λ _, Done) r, cl')
  | Tick id now =>
      let '(r, cl') := on_slot id (Raft.tick rnd now) cl in (outcome (λ _, Done) r, cl')
  | Deliver id choice now =>
      match n_take choice id (network cl) with
      | Some (e, t') =>
          let '(r, cl') := on_slot id (Raft.receive rnd e now) (mkCluster (slots cl) t') in
          (outcome (λ _, Done) r, cl')
      | None => (Skipped, cl)
      end
  | Propose id command now =>
      let '(r, cl') := on_slot id (Raft.propose command now) cl in (outcome Proposed r, cl')
  | Restart id =>
      match slots cl !! id with
      | Some s => (Done, put id (build_node ids id (slot_storage s) (slot_machine s) (network cl)) cl)
      | None => (Skipped, cl)
      end
  | Env move => (Done, mkCluster (slots cl) (n_moved move (network cl)))
  end.

Abbreviation Schedule := (list (Event * (nat → float → float → float))).

Definition run (evs : Schedule) (cl : Cluster) : Cluster :=
  foldl (λ cl ev, (exec ev.1 ev.2 cl).2) cl evs.

(** [RaftCluster.__init__]: every storage empty, every state machine from
    the factory. *)
Definition init (sm0 : S) (t0 : T) : Cluster :=
  foldl (λ cl id, put id (build_node ids id Storage.init sm0 (network cl)) cl)
    (mkCluster ∅ t0) ids.

End run.
End cluster.
Arguments Cluster C S T : clear implicits.
Arguments Event C T {_ _}.

(** ** Refinement of the abstract protocol *)

Section refinement.
Context {C S T : Type} {Hsm : StateMachine C S}.
Context {Htr : Transport C T} {Hnet : Network C T} {Hlaws : NetworkLaws C T}.
Variables tmin tmax hb : float.
Variable ids : list string.
Hypothesis Hids : NoDup ids.
Variable sm0 : S.
Variable allowed : C → Prop.

Abbreviation members := (list_to_set ids : gset string).
Abbreviation R := (Refine.R members sm0).
Implicit Types (cl : Cluster C S T) (G : State C) (s : Slot (C := C) (S := S)).

Lemma peers_nodup id : NoDup (peers ids id).
Proof. by apply NoDup_filter. Qed.

Lemma peers_members id p : p ∈ peers ids id ↔ p ∈ peers_of members id.
Proof. unfold peers, peers_of. rewrite list_elem_of_filter. set_solver. Qed.

(** The concrete cluster and the protocol state. *)
Record refines cl G : Prop := {
  f_reachable : reachable members allowed G;
  f_net : net_sent (network cl) (sent G);
  f_slots id : id ∈ ids → is_Some (slots cl !! id);
  f_slot id s : slots cl !! id = Some s → id ∈ ids ∧ R id (world s (network cl)) G
}.

Lemma steps_cstep id G G' :
  id ∈ members → rtc (Spec.step members allowed id) G G' → rtc (Spec.cstep members allowed) G G'.
Proof. intros Hid. apply rtc_subrel. intros G1 G2 Hs. by exists id. Qed.

Lemma steps_other id id' G G' :
  id ≠ id' → rtc (Spec.step members allowed id) G G' → nodes G' id' = nodes G id'.
Proof.
  intros Hne. induction 1 as [|G1 G2 G3 H1 _ IH]; [done|]. rewrite IH.
  destruct H1; simpl; rewrite ?fn_lookup_insert_ne by done; done.
Qed.

(** Another node's actions leave a node's relation intact. *)
Lemma R_other id id' s t t' G G' :
  id ≠ id' → id ∈ members → rtc (Spec.step members allowed id) G G' → net_sent t' (sent G') →
  R id' (world s t) G → R id' (world s t') G'.
Proof.
  intros Hne Hid Hs Ht' HR. pose proof (steps_inv members allowed id Hid G G' (r_inv _ _ _ _ _ HR) Hs).
  pose proof (steps_other id id' G G' Hne Hs) as Hn. destruct HR. by split; try done; rewrite Hn.
Qed.

Lemma put_refines id w cl G G' :
  id ∈ ids → refines cl G → rtc (Spec.step members allowed id) G G' → R id w G' →
  refines (put id w cl) G'.
Proof.
  intros Hid [Hr Hn Hss Hsl] Hs HR. assert (Hm : id ∈ members) by set_solver. split.
  - unfold reachable in *. etransitivity; [done|]. by eapply steps_cstep.
  - apply HR.
  - intros id' Hid'. simpl. destruct (decide (id = id')) as [->|]; simplify_map_eq; auto.
  - intros id' s'. simpl. destruct (decide (id = id')) as [->|Hne].
    + rewrite lookup_insert_eq. intros [= <-]. split; [done|]. by destruct w.
    + rewrite lookup_insert_ne by done. intros Hs'. destruct (Hsl _ _ Hs') as [? HR']. split; [done|].
      apply (R_other id id' s' (network cl) _ G); try done. apply HR.
Qed.

(** A call whose body simulates the protocol. *)
Lemma on_slot_refines {A} id (m : Py (Raft.World C S T) A) cl G Q :
  refines cl G →
  (∀ w, R id w G → Raft.transport w = network cl → id ∈ members → sim members allowed sm0 id m Q w G) →
  ∃ G', refines (on_slot id m cl).2 G' ∧ rtc (Spec.cstep members allowed) G G' ∧
    match (on_slot id m cl).1 with Some (Raise x) => machine_exn (C := C) (S := S) x | _ => True end.
Proof.
  intros Hf Hm. unfold on_slot. destruct (slots cl !! id) as [s|] eqn:E.
  2: { exists G. split_and!; [done|apply rtc_refl|done]. }
  destruct (f_slot _ _ Hf _ _ E) as [Hid HR]. assert (Hidm : id ∈ members) by set_solver.
  destruct (Hm _ HR eq_refl Hidm) as (G' & Hs & HR' & HQ).
  destruct (m _) as [r w]. exists G'. split_and!.
  - by eapply put_refines.
  - by eapply steps_cstep.
  - by destruct r.
Qed.

Definition event_allowed (ev : Event C T) : Prop :=
  match ev with Propose _ c _ => allowed c | _ => True end.

Definition no_core_failure (o : Outcome (C := C)) : Prop :=
  match o with Failed x => machine_exn (C := C) (S := S) x | _ => True end.

(** One event is a sequence of protocol actions of one node, and raises only
    what the state machine raises. *)
Lemma exec_refines ev rnd cl G :
  refines cl G → event_allowed ev →
  ∃ G', refines (exec tmin tmax hb ids ev rnd cl).2 G' ∧ rtc (Spec.cstep members allowed) G G' ∧
    no_core_failure (exec tmin tmax hb ids ev rnd cl).1.
Proof.
  intros Hf Hev. destruct ev as [id now|id now|id choice now|id c now|id|move]; simpl.
  - destruct (on_slot_refines id (Raft.start rnd now) cl G (λ _ _ _, True) Hf) as (G' & Hf' & Hs & Ho).
    { intros w HR _ Hid. by apply sim_start. }
    exists G'. destruct (on_slot _ _ _) as [[[|]|] ?]; simpl in *; by split_and!.
  - destruct (on_slot_refines id (Raft.tick rnd now) cl G (λ _ _ _, True) Hf) as (G' & Hf' & Hs & Ho).
    { intros w HR _ Hid. by apply sim_tick. }
    exists G'. destruct (on_slot _ _ _) as [[[|]|] ?]; simpl in *; by split_and!.
  - destruct (n_take choice id (network cl)) as [[e t']|] eqn:Et.
    2: { exists G. simpl. split_and!; [done|apply rtc_refl|done]. }
    destruct (net_take _ _ _ _ _ _ (f_net _ _ Hf) Et) as (Ht' & He & Hrcp).
    assert (Hf1 : refines (mkCluster (slots cl) t') G).
    { destruct Hf as [? ? ? Hsl]. split; try done. intros id' s' Hs'. destruct (Hsl _ _ Hs') as [? HR].
      split; [done|]. destruct HR. by split. }
    destruct (on_slot_refines id (Raft.receive rnd e now) _ G (λ _ _ _, True) Hf1) as (G' & Hf' & Hs & Ho).
    { intros w HR _ Hid. by apply sim_receive. }
    exists G'. destruct (on_slot _ _ _) as [[[|]|] ?]; simpl in *; by split_and!.
  - destruct (on_slot_refines id (Raft.propose c now) cl G (λ _ _ _, True) Hf) as (G' & Hf' & Hs & Ho).
    { intros w HR _ Hid. by apply sim_propose. }
    exists G'. destruct (on_slot _ _ _) as [[[|]|] ?]; simpl in *; by split_and!.
  - destruct (slots cl !! id) as [s|] eqn:E.
    2: { exists G. simpl. split_and!; [done|apply rtc_refl|done]. }
    destruct (f_slot _ _ Hf _ _ E) as [Hid HR]. assert (Hidm : id ∈ members) by set_solver.
    destruct (R_restart members allowed sm0 id Hidm (peers ids id) tmin tmax hb _ G HR (peers_nodup id)
                (peers_members id)) as (G' & Hs & HR').
    exists G'. simpl. split_and!; [|by eapply steps_cstep|done]. by eapply put_refines.
  - exists G. split_and!; [|apply rtc_refl|done]. destruct Hf as [? ? ? Hsl]. split; try done.
    + by apply net_moved.
    + intros id' s' Hs'. destruct (Hsl _ _ Hs') as [? HR]. split; [done|]. destruct HR. split; try done.
      by apply net_moved.
Qed.

Lemma run_refines evs cl G :
  refines cl G → Forall (λ ev, event_allowed ev.1) evs →
  ∃ G', refines (run tmin tmax hb ids evs cl) G' ∧ rtc (Spec.cstep members allowed) G G'.
Proof.
  revert cl G. induction evs as [|[ev rnd] evs IH]; intros cl G Hf Hev.
  { exists G. split; [done|apply rtc_refl]. }
  apply Forall_cons_1 in Hev as [Hev Hevs].
  destruct (exec_refines ev rnd cl G Hf Hev) as (G1 & Hf1 & Hs1 & _).
  destruct (IH _ _ Hf1 Hevs) as (G2 & Hf2 & Hs2). exists G2. split; [done|]. by etransitivity.
Qed.

(** The initial cluster implements the initial protocol state. *)
Lemma R_initial id t : id ∈ ids → net_sent t [] →
  R id (build_node tmin tmax hb ids id Storage.init sm0 t) (initial (C := C)).
Proof.
  intros Hid Ht. split; simpl; try done.
  - apply Actions.inv_initial.
  - apply peers_nodup.
  - apply peers_members.
  - by apply net_register.
  - by exists [].
Qed.

Lemma init_refines t0 : net_sent t0 [] → refines (init tmin tmax hb ids sm0 t0) initial.
Proof.
  intros Ht0. unfold init.
  assert (H : ∀ l cl, (∀ id, id ∈ l → id ∈ ids) → net_sent (network cl) [] →
    (∀ id s, slots cl !! id = Some s → id ∈ ids ∧ R id (world s (network cl)) initial) →
    let cl' := foldl (λ cl id, put id (build_node tmin tmax hb ids id Storage.init sm0 (network cl)) cl) cl l in
    net_sent (network cl') [] ∧ (∀ id, id ∈ l ∨ is_Some (slots cl !! id) → is_Some (slots cl' !! id)) ∧
    (∀ id s, slots cl' !! id = Some s → id ∈ ids ∧ R id (world s (network cl')) initial)).
  { induction l as [|id l IH]; intros cl Hl Hn Hs; [simpl; split_and!; [done|set_solver|done]|].
    simpl. specialize (IH (put id (build_node tmin tmax hb ids id Storage.init sm0 (network cl)) cl)).
    destruct IH as (H1 & H2 & H3).
    - intros id' Hid'. apply Hl. by right.
    - by apply net_register.
    - intros id' s'. simpl. destruct (decide (id = id')) as [->|].
      + rewrite lookup_insert_eq. intros [= <-]. split; [apply Hl; left|]. apply R_initial; [apply Hl; left|done].
      + rewrite lookup_insert_ne by done. intros Hs'. destruct (Hs _ _ Hs') as [? HR]. split; [done|]. destruct HR. split; try done.
        by apply net_register.
    - split_and!; [done| |done]. intros id' Hid'. apply H2. simpl.
      destruct (decide (id = id')) as [->|Hne]; simplify_map_eq; [by right|].
      destruct Hid' as [[?|?]%elem_of_cons|?]; [done|by left|by right]. }
  destruct (H ids (mkCluster ∅ t0)) as (H1 & H2 & H3); try done. split; try done.
  - apply rtc_refl.
  - intros id Hid. apply H2. by left.
Qed.

End refinement.
End Cluster.
