(* ===== verification/Demo.v ===== *)
(** * A concrete run of a three-node cluster

    The schedule the witnesses evaluate: the ledger replicated on nodes [a],
    [b] and [c] over the in-process network; [a] is elected, a credit and a
    debit are proposed, replicated, committed and applied, and [b] crashes and
    replays. *)

From stdpp Require Import base gmap strings list.
From Stdlib Require Import ZArith.
From S2P Require Import Prelude PyDecimal PyFloat Models StateMachine Ledger.
From S2P Require Import RaftTypes Storage Transport RaftNode Cluster.
Import Cluster.

Local Open Scope Z_scope.

Module Demo.

Abbreviation C := LedgerEntry.
Abbreviation S := Ledger.LedgerStateMachine.
Abbreviation T := (Net.InMemoryTransport C).

Definition ids : list string := ["a"; "b"; "c"].
Definition tmin : float := F.of_Z 150.
Definition tmax : float := F.of_Z 300.
Definition hb : float := F.of_Z 50.

(** [a] draws the short timeout. *)
Definition low (k : nat) (lo hi : float) : float := lo.
Definition high (k : nat) (lo hi : float) : float := hi.

Definition credit : C := mkLedgerEntry "t1" "alice" (DFin 10000 (-2)) "t1" 0.
Definition debit : C := mkLedgerEntry "t2" "alice" (DFin (-2500) (-2)) "t2" 0.

Abbreviation Schedule := (list (Event C T * (nat → float → float → float))).
Definition at_ (t : Z) (f : float → Event C T) : Event C T * (nat → float → float → float) := (f (F.of_Z t), high).
Definition deliver (id : string) (t : Z) := at_ t (Deliver id tt).

(** [a] starts a pre-vote round, wins it, campaigns and wins the election. *)
Definition elect : Schedule :=
  [(Start "a" F.zero, low); (Start "b" F.zero, high); (Start "c" F.zero, high);
   at_ 150 (Tick "a"); deliver "b" 151; deliver "c" 151; deliver "a" 152; deliver "b" 153; deliver "a" 154;
   deliver "c" 154; deliver "a" 155; deliver "a" 155].
(** One round of replication to [b] and [c]. *)
Definition round (t : Z) : Schedule :=
  [deliver "a" t; deliver "a" t; deliver "a" t; deliver "b" t; deliver "c" t; deliver "b" t; deliver "c" t;
   deliver "a" t; deliver "a" t; deliver "a" t; deliver "a" t].
Definition settle : Schedule :=
  [at_ 160 (Propose "a" credit); at_ 161 (Propose "a" debit)] ++ round 170
  ++ [at_ 240 (Tick "a")] ++ round 241.
Definition crash : Schedule :=
  [(Restart "b", high)] ++ [at_ 300 (Tick "a")] ++ round 301.

(** Two entries that pass the models' validation and that the ledger cannot
    add up: the second one makes [apply] raise when the leader commits it, at
    the event after this schedule. *)
Definition inf_credit : C := mkLedgerEntry "t3" "eve" (DInf false) "t3" 0.
Definition inf_debit : C := mkLedgerEntry "t4" "eve" (DInf true) "t4" 0.
Definition poison : Schedule :=
  elect ++ [at_ 160 (Propose "a" inf_credit); at_ 161 (Propose "a" inf_debit)] ++ round 170
  ++ [at_ 240 (Tick "a")] ++ take 7 (round 241).

(** [c] hears from the leader, is cut off for longer than its election
    timeout, and is connected again; [a] and [b] exchange heartbeats all the
    time. *)
Definition heartbeat (t : Z) : Schedule := [at_ t (Tick "a"); deliver "b" t; deliver "a" t].
Definition isolate : Schedule :=
  elect ++ [deliver "b" 156; deliver "c" 156; deliver "a" 156; deliver "a" 156]
  ++ [(Env (Net.MPartition ["c"]), high)]
  ++ heartbeat 210 ++ heartbeat 260 ++ heartbeat 310 ++ heartbeat 360 ++ heartbeat 410 ++ heartbeat 460
  ++ [(Env (Net.MRejoin ["c"]), high)].
(** [c] times out before the next heartbeat and asks for pre-votes. *)
Definition depose : Schedule :=
  [at_ 461 (Tick "c"); deliver "b" 462; deliver "a" 462; deliver "c" 463; deliver "c" 463; deliver "a" 464].

(** [c] asks for pre-votes, the leader's heartbeat arrives, and only then the
    pre-votes. *)
Definition stale : Schedule :=
  elect ++ [deliver "b" 156; deliver "c" 156; deliver "a" 156; deliver "a" 156]
  ++ [at_ 500 (Tick "c"); at_ 501 (Tick "a"); deliver "a" 501; deliver "b" 501; deliver "c" 501].

Definition start : Cluster C S T := Cluster.init tmin tmax hb ids (Ledger.init ∅) Net.init.
Definition after (evs : Schedule) : Cluster C S T := Cluster.run tmin tmax hb ids evs start.

Lemma ids_nodup : NoDup ids.
Proof. compute_done. Qed.

Definition slot (id : string) (cl : Cluster C S T) : Slot :=
  default (mkSlot (Raft.new_node "" [] tmin tmax hb) Storage.init (Ledger.init ∅)) (slots cl !! id).

End Demo.
