(* ===== verification/RaftProps.v ===== *)
(** * Safety of a running cluster

    The consensus guarantees on the concrete cluster of Cluster.v, over every
    schedule of events and every network that satisfies [NetworkLaws]; each
    witness evaluates the theorem on the run of Demo.v. *)

From stdpp Require Import base gmap strings list functions relations fin_sets.
From Stdlib Require Import ZArith Lia.
From S2P Require Import Prelude PyFloat RaftTypes Storage StateMachine Transport RaftNode.
From S2P Require Import RaftSpec RaftInv RaftLogs RaftActions RaftAppend RaftRefine RaftHistory Cluster.
From S2P Require Import PyDecimal Models Ledger Demo.
Import Cluster.

Local Open Scope Z_scope.

Section props.
Context {C S T : Type} {Hsm : StateMachine C S}.
Context {Htr : Transport C T} {Hnet : Network C T} {Hlaws : NetworkLaws C T}.
Variables tmin tmax hb : float.
Variable ids : list string.
Hypothesis Hids : NoDup ids.
Variable sm0 : S.
Variable t0 : T.
Hypothesis Ht0 : net_sent t0 [].

Abbreviation start := (init tmin tmax hb ids sm0 t0).
Abbreviation members := (list_to_set ids : gset string).
Abbreviation term_of s := (Storage.current_term (slot_storage s)).
Abbreviation log_of s := (Storage.entries (slot_storage s)).
Abbreviation commit_of s := (Raft.commit_index (slot_node s)).
Abbreviation applied_of s := (Raft.last_applied (slot_node s)).

(** ** Reading a run through the protocol *)

Lemma run_app evs evs' (cl : Cluster C S T) :
  run tmin tmax hb ids (evs ++ evs') cl = run tmin tmax hb ids evs' (run tmin tmax hb ids evs cl).
Proof. apply foldl_app. Qed.

(** Two points of a run. *)
Lemma two_points allowed evs evs' :
  Forall (λ ev, event_allowed allowed ev.1) evs → Forall (λ ev, event_allowed allowed ev.1) evs' →
  ∃ G G', refines ids sm0 allowed (run tmin tmax hb ids evs start) G ∧ refines ids sm0 allowed (run tmin tmax hb ids (evs ++ evs') start) G' ∧
    Inv.inv members G ∧ Inv.inv members G' ∧ rtc (Spec.cstep members allowed) G G'.
Proof.
  intros He He'.
  destruct (run_refines tmin tmax hb ids Hids sm0 allowed evs _ Spec.initial
    (init_refines tmin tmax hb ids Hids sm0 allowed t0 Ht0) He) as (G & Hf & _).
  destruct (run_refines tmin tmax hb ids Hids sm0 allowed evs' _ G Hf He') as (G' & Hf' & Hs).
  rewrite <- run_app in Hf'. exists G, G'. split_and!; try done.
  - eapply Append.inv_reachable, (f_reachable _ _ _ _ _ Hf).
  - eapply Append.inv_reachable, (f_reachable _ _ _ _ _ Hf').
Qed.

Lemma two_points_any evs evs' :
  ∃ G G', refines ids sm0 (λ _, True) (run tmin tmax hb ids evs start) G ∧ refines ids sm0 (λ _, True) (run tmin tmax hb ids (evs ++ evs') start) G' ∧
    Inv.inv members G ∧ Inv.inv members G' ∧ rtc (Spec.cstep members (λ _, True)) G G'.
Proof. apply two_points; apply Forall_forall; intros [[] ?] _; exact I. Qed.

Lemma one_point allowed evs :
  Forall (λ ev, event_allowed allowed ev.1) evs →
  ∃ G, refines ids sm0 allowed (run tmin tmax hb ids evs start) G ∧ Inv.inv members G.
Proof.
  intros He. destruct (two_points allowed evs [] He (Forall_nil_2 _)) as (G & _ & Hf & _ & HI & _).
  by exists G.
Qed.

Lemma one_point_any evs : ∃ G, refines ids sm0 (λ _, True) (run tmin tmax hb ids evs start) G ∧ Inv.inv members G.
Proof. destruct (two_points_any evs []) as (G & _ & Hf & _ & HI & _). by exists G. Qed.

(** A slot of the cluster is the node of the protocol state. *)
Lemma slot_anode allowed cl G id s :
  refines ids sm0 allowed cl G → slots cl !! id = Some s →
  ∃ h, slot_machine s = sm_effects h sm0 ∧
    Spec.nodes G id = Spec.mkA (term_of s) (Storage.voted_for (slot_storage s)) (log_of s)
      (Raft.state (slot_node s)) (Raft.votes_received (slot_node s))
      (Raft.match_index (slot_node s)) (commit_of s) (applied_of s) h.
Proof.
  intros Hf Hs. destruct (f_slot _ _ _ _ _ Hf id s Hs) as [_ HR].
  destruct (Refine.r_node _ _ _ _ _ HR) as (h & Hv & Hm). by exists h.
Qed.

(** The node-level invariant, on the slot. *)
Lemma slot_ok allowed cl G id s :
  refines ids sm0 allowed cl G → Inv.inv members G → slots cl !! id = Some s →
  Inv.node_ok members G id ∧ Spec.good_log G (log_of s) ∧
  Spec.committed_prefix members G (term_of s) (commit_of s) (log_of s) ∧
  0 ≤ applied_of s ≤ commit_of s ∧ commit_of s ≤ zlen (log_of s).
Proof.
  intros Hf HI Hs. destruct (slot_anode _ _ _ _ _ Hf Hs) as (h & _ & Hv).
  pose proof (Inv.i_node _ _ HI id) as Hn. split; [done|].
  pose proof (Inv.no_log _ _ _ Hn) as H1. pose proof (Inv.no_commit _ _ _ Hn) as [H2 H3].
  pose proof (Inv.no_applied _ _ _ Hn) as H4. rewrite Hv in H1, H2, H3, H4. simpl in *.
  split_and!; try done; lia.
Qed.

(** ** The guarantees *)

(** C1 (election safety): in a run of any length, under any interleaving,
    crashes, losses, reorderings and partitions, at most one node is ever the
    leader of a term: two nodes that are leaders of the same term, at two
    points of the run, are the same node. *)
Theorem election_safety evs evs' id1 id2 s1 s2 :
  slots (run tmin tmax hb ids evs start) !! id1 = Some s1 → slots (run tmin tmax hb ids (evs ++ evs') start) !! id2 = Some s2 →
  Raft.state (slot_node s1) = LEADER → Raft.state (slot_node s2) = LEADER → term_of s1 = term_of s2 →
  id1 = id2.
Proof.
  intros H1 H2 Hl1 Hl2 Ht. destruct (two_points_any evs evs') as (G & G' & Hf & Hf' & HI & HI' & Hs).
  destruct (slot_anode _ _ _ _ _ Hf H1) as (h1 & _ & Hv1).
  destruct (slot_anode _ _ _ _ _ Hf' H2) as (h2 & _ & Hv2).
  destruct (Inv.no_leader _ _ _ (Inv.i_node _ _ HI id1)) as (HL1 & _); [by rewrite Hv1|].
  destruct (Inv.no_leader _ _ _ (Inv.i_node _ _ HI' id2)) as (HL2 & _); [by rewrite Hv2|].
  rewrite Hv1 in HL1. rewrite Hv2 in HL2. simpl in *.
  apply (History.cstep_leader _ _ _ _ _ _ HI Hs) in HL1. rewrite Ht in HL1. congruence.
Qed.

(** C2 (state machine safety): what two nodes know to be committed agrees,
    at any two points of the run: up to the smaller commit index their logs
    hold the same entries, so a committed entry never changes and never
    differs between replicas. *)
Theorem state_machine_safety evs evs' id1 id2 s1 s2 k :
  slots (run tmin tmax hb ids evs start) !! id1 = Some s1 → slots (run tmin tmax hb ids (evs ++ evs') start) !! id2 = Some s2 →
  k ≤ commit_of s1 → k ≤ commit_of s2 →
  pfx k (log_of s1) = pfx k (log_of s2).
Proof.
  intros H1 H2 Hk1 Hk2. destruct (two_points_any evs evs') as (G & G' & Hf & Hf' & HI & HI' & Hs).
  destruct (slot_ok _ _ _ _ _ Hf HI H1) as (_ & _ & Hc1 & _).
  destruct (slot_ok _ _ _ _ _ Hf' HI' H2) as (_ & _ & Hc2 & _).
  apply (History.cstep_committed_prefix _ _ _ _ _ _ _ HI Hs) in Hc1.
  by eapply History.committed_prefix_agree.
Qed.

(** C3 (leader completeness): every leader of the same or a later term has
    all the entries that any node knew to be committed before. *)
Theorem leader_completeness evs evs' id1 id2 s1 s2 :
  slots (run tmin tmax hb ids evs start) !! id1 = Some s1 → slots (run tmin tmax hb ids (evs ++ evs') start) !! id2 = Some s2 →
  Raft.state (slot_node s2) = LEADER → term_of s1 ≤ term_of s2 →
  pfx (commit_of s1) (log_of s2) = pfx (commit_of s1) (log_of s1).
Proof.
  intros H1 H2 Hl Ht. destruct (two_points_any evs evs') as (G & G' & Hf & Hf' & HI & HI' & Hs).
  destruct (slot_ok _ _ _ _ _ Hf HI H1) as (_ & _ & Hc1 & _).
  apply (History.cstep_committed_prefix _ _ _ _ _ _ _ HI Hs) in Hc1.
  destruct (slot_anode _ _ _ _ _ Hf' H2) as (h2 & _ & Hv2).
  pose proof (History.leader_complete members G' id2 (term_of s1) (commit_of s1) (log_of s1) HI') as Hlc.
  rewrite Hv2 in Hlc. by apply Hlc.
Qed.

(** C4 (log matching): if the logs of two nodes, at any two points of the
    run, hold an entry of the same term at the same index, they are identical
    up to that index. *)
Theorem log_matching evs evs' id1 id2 s1 s2 i :
  slots (run tmin tmax hb ids evs start) !! id1 = Some s1 → slots (run tmin tmax hb ids (evs ++ evs') start) !! id2 = Some s2 →
  1 ≤ i ≤ zlen (log_of s1) → i ≤ zlen (log_of s2) →
  Storage.term_at i (slot_storage s1) = Storage.term_at i (slot_storage s2) →
  pfx i (log_of s1) = pfx i (log_of s2).
Proof.
  intros H1 H2 Hi1 Hi2 Ht. destruct (two_points_any evs evs') as (G & G' & Hf & Hf' & HI & HI' & Hs).
  destruct (slot_ok _ _ _ _ _ Hf HI H1) as (_ & Hg1 & _).
  destruct (slot_ok _ _ _ _ _ Hf' HI' H2) as (_ & Hg2 & _).
  apply (History.cstep_good_log _ _ _ _ _ HI Hs) in Hg1.
  by eapply Logs.good_logs_match.
Qed.

(** C5 (no internal failure): whatever the schedule, a call into a node
    raises only an exception its state machine raised.  The assertion of
    [_apply_committed], the dictionary reads of the leader's bookkeeping and
    the sorted-list index of [_advance_commit_index] never fail, and the log is
    never truncated at a non-positive index. *)
Theorem core_never_fails evs ev rnd x :
  (exec tmin tmax hb ids ev rnd (run tmin tmax hb ids evs start)).1 = Failed x →
  ∃ c s s', sm_apply c s = (Raise x, s').
Proof.
  intros Hx. destruct (one_point_any evs) as (G & Hf & HI).
  destruct (exec_refines tmin tmax hb ids Hids sm0 (λ _, True) ev rnd _ G Hf) as (_ & _ & _ & Ho);
    [by destruct ev|]. by rewrite Hx in Ho.
Qed.

(** C6 (index bounds): in every node at every point of a run
    [0 <= last_applied <= commit_index <= len(log)], and every log entry
    records its own position. *)
Theorem indices_in_bounds evs id s :
  slots (run tmin tmax hb ids evs start) !! id = Some s →
  0 ≤ applied_of s ≤ commit_of s ∧ commit_of s ≤ zlen (log_of s) ∧
  ∀ j e, log_of s !! j = Some e → entry_index e = Z.of_nat j + 1.
Proof.
  intros Hs. destruct (one_point_any evs) as (G & Hf & HI).
  destruct (slot_ok _ _ _ _ _ Hf HI Hs) as (_ & Hg & _ & Ha & Hc). split_and!; [lia|lia|done|].
  apply (History.positioned_good G); [|done].
  by apply (History.positioned_reachable members (λ _, True)), (f_reachable _ _ _ _ _ Hf).
Qed.

(** ** Replicated state *)

(** The commands a node has applied since its last start. *)
Abbreviation applied_cmds s := (History.cmds (pfx (applied_of s) (log_of s))).

(** The command sequence behind a node's state machine. *)
Lemma slot_commands `{!IdempotentSM C S} allowed cl G id s :
  refines ids sm0 allowed cl G → Inv.inv members G → slots cl !! id = Some s →
  ∃ l, applied_cmds s `prefix_of` l ∧ History.committed_cmds members G l ∧ Forall allowed l ∧
    ∀ s', sm_run l sm0 = (Ok tt, s') → slot_machine s = s'.
Proof.
  intros Hf HI Hs. destruct (slot_anode _ _ _ _ _ Hf Hs) as (h & Hm & Hv).
  pose proof (f_reachable _ _ _ _ _ Hf) as Hr.
  destruct (History.history_longest members G id HI (History.history_reachable _ _ _ Hr id))
    as (ps & l & Hh & Hin & Hc & Hall & Hcur).
  exists l. rewrite Hv in Hh. simpl in Hh. unfold History.current_run in Hcur. rewrite Hv in Hcur. split_and!; try done.
  - by apply (History.committed_cmds_allowed members allowed G l (History.valid_reachable _ _ _ Hr)).
  - intros s' Hrun. rewrite Hm, Hh. apply sm_run_effects. by apply (sm_run_replays l).
Qed.

(** C10 (replicas apply one sequence): let the state machine be idempotent, as
    state_machine.py demands.  Then the state of every replica, at any point of
    the run and through any number of crash-restarts that replay the log, is
    the result of applying once, in order, a committed command sequence that
    extends what the node has applied since its start; the sequences of any two
    replicas are prefixes of one another, and hold proposed commands only. *)
Theorem replicas_apply_one_sequence `{!IdempotentSM C S} allowed evs evs' id1 id2 s1 s2 :
  Forall (λ ev, event_allowed allowed ev.1) evs → Forall (λ ev, event_allowed allowed ev.1) evs' →
  slots (run tmin tmax hb ids evs start) !! id1 = Some s1 → slots (run tmin tmax hb ids (evs ++ evs') start) !! id2 = Some s2 →
  ∃ l1 l2, (l1 `prefix_of` l2 ∨ l2 `prefix_of` l1) ∧
    applied_cmds s1 `prefix_of` l1 ∧ applied_cmds s2 `prefix_of` l2 ∧
    Forall allowed l1 ∧ Forall allowed l2 ∧
    (∀ s', sm_run l1 sm0 = (Ok tt, s') → slot_machine s1 = s') ∧
    (∀ s', sm_run l2 sm0 = (Ok tt, s') → slot_machine s2 = s').
Proof.
  intros He He' H1 H2. destruct (two_points allowed evs evs' He He') as (G & G' & Hf & Hf' & HI & HI' & Hs).
  destruct (slot_commands allowed _ _ _ _ Hf HI H1) as (l1 & Ha1 & Hc1 & Hall1 & Hm1).
  destruct (slot_commands allowed _ _ _ _ Hf' HI' H2) as (l2 & Ha2 & Hc2 & Hall2 & Hm2).
  exists l1, l2. split_and!; try done. apply (History.cmds_comparable members G'); [done| |done].
  destruct Hc1 as (t & k & l & Hc & Hk & ->). exists t, k, l. split_and!; [|lia|lia|done].
  exact (History.cstep_committed_prefix _ _ _ _ _ _ _ HI Hs Hc).
Qed.

End props.

(** ** The replicated ledger *)

Section ledger.
Context {T : Type} {Htr : Transport LedgerEntry T} {Hnet : Network LedgerEntry T}
  {Hlaws : NetworkLaws LedgerEntry T}.
Variables tmin tmax hb : float.
Variable ids : list string.
Hypothesis Hids : NoDup ids.
Variable w0 : Ledger.LedgerStateMachine.
Variable t0 : T.
Hypothesis Ht0 : net_sent t0 [].

Abbreviation start := (init tmin tmax hb ids w0 t0).

(** C11 (no replica is overdrawn): if no initial balance is negative, no
    account balance on any replica is negative at any point of any run,
    whatever entries are proposed, replayed or rejected. *)
Theorem no_replica_overdrawn evs id s account :
  Ledger.solvent w0 → slots (run tmin tmax hb ids evs start) !! id = Some s →
  Dec.nonneg (Ledger.balance account (slot_machine s)).
Proof.
  intros Hw Hs. destruct (one_point_any tmin tmax hb ids Hids w0 t0 Ht0 evs) as (G & Hf & HI).
  destruct (slot_anode _ _ _ _ _ _ _ Hf Hs) as (h & -> & _). by apply Ledger.effects_solvent.
Qed.

(** The entries a client may propose: amounts in units of [10^e], at most [D]
    units each. *)
Definition bounded_entry (e D : Z) (c : LedgerEntry) : Prop :=
  Dec.fits e (le_delta c) ∧ Z.abs (Dec.units e (le_delta c)) ≤ D.

(** C12 (the replicated ledger refines the integer ledger): when every
    proposed entry is a bounded multiple of the unit, each replica's ledger is
    the specification ledger run once over a committed sequence of proposed
    entries, through elections, losses, crashes and replays, as long as the
    total stays within the 28 digits of the decimal context. *)
Theorem replicated_ledger_refines e D B b evs id s :
  Dec.Etiny ≤ e ≤ 0 → 0 ≤ D →
  Ledger.implements e w0 (Ledger.spec_init b) → (∀ a, 0 ≤ b a ≤ B) →
  Forall (λ ev, event_allowed (bounded_entry e D) ev.1) evs →
  slots (run tmin tmax hb ids evs start) !! id = Some s →
  ∃ l, History.cmds (pfx (Raft.last_applied (slot_node s)) (Storage.entries (slot_storage s))) `prefix_of` l ∧
    Forall (bounded_entry e D) l ∧
    (B + (zlen l + 1) * D < 10 ^ Dec.prec →
     Ledger.implements e (slot_machine s) (Ledger.spec_run e l (Ledger.spec_init b))).
Proof.
  intros He HD Hw Hb Hev Hs. destruct (one_point tmin tmax hb ids Hids w0 t0 Ht0 _ evs Hev) as (G & Hf & HI).
  destruct (slot_commands _ _ _ _ _ _ _ Hf HI Hs) as (l & Ha & _ & Hall & Hm).
  exists l. split_and!; [done|done|]. intros Hbound.
  destruct (Ledger.run_implements e He D l B w0 (Ledger.spec_init b) Hw HD Hb Hall Hbound) as (w' & Hrun & Hi).
  by rewrite (Hm w' Hrun).
Qed.

End ledger.

(** ** Witnesses: the run of Demo.v *)

Section witnesses.
Abbreviation after := Demo.after.
Abbreviation slot id evs := (Demo.slot id (Demo.after evs)).
Lemma election_safety_witness :
  Raft.state (slot_node (slot "a" Demo.elect)) = LEADER ∧
  Raft.state (slot_node (slot "a" (Demo.elect ++ Demo.settle))) = LEADER ∧ "a" = "a".
Proof.
  split; [vm_compute; reflexivity|]. split; [vm_compute; reflexivity|].
  apply (election_safety Demo.tmin Demo.tmax Demo.hb Demo.ids Demo.ids_nodup (Ledger.init ∅) Net.init
    Net.queued_init Demo.elect Demo.settle "a" "a" (slot "a" Demo.elect) (slot "a" (Demo.elect ++ Demo.settle)));
    vm_compute; reflexivity.
Defined.

Lemma state_machine_safety_witness :
  pfx 2 (Storage.entries (slot_storage (slot "a" (Demo.elect ++ Demo.settle)))) =
  pfx 2 (Storage.entries (slot_storage (slot "b" ((Demo.elect ++ Demo.settle) ++ Demo.crash)))).
Proof.
  apply (state_machine_safety Demo.tmin Demo.tmax Demo.hb Demo.ids Demo.ids_nodup (Ledger.init ∅) Net.init
    Net.queued_init (Demo.elect ++ Demo.settle) Demo.crash "a" "b"); vm_compute; done || reflexivity.
Defined.

Lemma leader_completeness_witness :
  let s1 := slot "b" (Demo.elect ++ Demo.settle) in
  let s2 := slot "a" ((Demo.elect ++ Demo.settle) ++ Demo.crash) in
  Raft.commit_index (slot_node s1) = 1 ∧
  pfx (Raft.commit_index (slot_node s1)) (Storage.entries (slot_storage s2)) =
  pfx (Raft.commit_index (slot_node s1)) (Storage.entries (slot_storage s1)).
Proof.
  split; [vm_compute; reflexivity|].
  apply (leader_completeness Demo.tmin Demo.tmax Demo.hb Demo.ids Demo.ids_nodup (Ledger.init ∅) Net.init
    Net.queued_init (Demo.elect ++ Demo.settle) Demo.crash "b" "a"); vm_compute; done || reflexivity.
Defined.

Lemma log_matching_witness :
  pfx 2 (Storage.entries (slot_storage (slot "a" (Demo.elect ++ Demo.settle)))) =
  pfx 2 (Storage.entries (slot_storage (slot "c" ((Demo.elect ++ Demo.settle) ++ Demo.crash)))).
Proof.
  apply (log_matching Demo.tmin Demo.tmax Demo.hb Demo.ids Demo.ids_nodup (Ledger.init ∅) Net.init
    Net.queued_init (Demo.elect ++ Demo.settle) Demo.crash "a" "c"); vm_compute; done || reflexivity.
Defined.

(** The delivery that commits the second infinite entry fails, with the
    ledger's exception. *)
Lemma core_never_fails_witness :
  ∃ c s s', sm_apply (C := LedgerEntry) (S := Ledger.LedgerStateMachine) c s = (Raise InvalidOperation, s').
Proof.
  apply (core_never_fails Demo.tmin Demo.tmax Demo.hb Demo.ids Demo.ids_nodup (Ledger.init ∅) Net.init
    Net.queued_init Demo.poison (Demo.deliver "a" 241).1 Demo.high). vm_compute. reflexivity.
Defined.

Lemma indices_in_bounds_witness :
  let s := slot "c" (Demo.elect ++ Demo.settle) in
  0 ≤ Raft.last_applied (slot_node s) ≤ Raft.commit_index (slot_node s) ∧
  Raft.commit_index (slot_node s) ≤ zlen (Storage.entries (slot_storage s)) ∧
  ∀ j e, Storage.entries (slot_storage s) !! j = Some e → entry_index e = Z.of_nat j + 1.
Proof.
  apply (indices_in_bounds Demo.tmin Demo.tmax Demo.hb Demo.ids Demo.ids_nodup (Ledger.init ∅) Net.init
    Net.queued_init (Demo.elect ++ Demo.settle) "c"). vm_compute. reflexivity.
Defined.

Lemma replicas_apply_one_sequence_witness :
  let s1 := slot "a" (Demo.elect ++ Demo.settle) in
  let s2 := slot "b" ((Demo.elect ++ Demo.settle) ++ Demo.crash) in
  ∃ l1 l2 : list LedgerEntry, (l1 `prefix_of` l2 ∨ l2 `prefix_of` l1) ∧
    History.cmds (pfx (Raft.last_applied (slot_node s1)) (Storage.entries (slot_storage s1))) `prefix_of` l1 ∧ History.cmds (pfx (Raft.last_applied (slot_node s2)) (Storage.entries (slot_storage s2))) `prefix_of` l2 ∧
    Forall (λ _, True) l1 ∧ Forall (λ _, True) l2 ∧
    (∀ s', sm_run l1 (Ledger.init ∅) = (Ok tt, s') → slot_machine s1 = s') ∧
    (∀ s', sm_run l2 (Ledger.init ∅) = (Ok tt, s') → slot_machine s2 = s').
Proof.
  apply (replicas_apply_one_sequence Demo.tmin Demo.tmax Demo.hb Demo.ids Demo.ids_nodup (Ledger.init ∅) Net.init
    Net.queued_init (λ _, True) (Demo.elect ++ Demo.settle) Demo.crash "a" "b");
    [apply Forall_forall; intros [[] ?] _; exact I|apply Forall_forall; intros [[] ?] _; exact I|
     vm_compute; reflexivity|vm_compute; reflexivity].
Defined.

Lemma no_replica_overdrawn_witness :
  Dec.nonneg (Ledger.balance "alice" (slot_machine (slot "b" ((Demo.elect ++ Demo.settle) ++ Demo.crash)))).
Proof.
  apply (no_replica_overdrawn Demo.tmin Demo.tmax Demo.hb Demo.ids Demo.ids_nodup (Ledger.init ∅) Net.init
    Net.queued_init ((Demo.elect ++ Demo.settle) ++ Demo.crash) "b"); [|vm_compute; reflexivity].
  intros a. vm_compute. discriminate.
Defined.

Lemma replicated_ledger_refines_witness :
  let s := slot "b" ((Demo.elect ++ Demo.settle) ++ Demo.crash) in
  ∃ l, History.cmds (pfx (Raft.last_applied (slot_node s)) (Storage.entries (slot_storage s))) `prefix_of` l ∧ Forall (bounded_entry (-2) 10000) l ∧
    (0 + (zlen l + 1) * 10000 < 10 ^ Dec.prec →
     Ledger.implements (-2) (slot_machine s) (Ledger.spec_run (-2) l (Ledger.spec_init (λ _, 0)))).
Proof.
  apply (replicated_ledger_refines Demo.tmin Demo.tmax Demo.hb Demo.ids Demo.ids_nodup (Ledger.init ∅) Net.init
    Net.queued_init (-2) 10000 0 (λ _, 0) ((Demo.elect ++ Demo.settle) ++ Demo.crash) "b").
  - split; vm_compute; discriminate.
  - vm_compute. discriminate.
  - split; [intros a; vm_compute; split; [split; discriminate|reflexivity]|done].
  - done.
  - repeat constructor; vm_compute; discriminate.
  - vm_compute. reflexivity.
Defined.

End witnesses.
