(* ===== verification/CommitProps.v ===== *)
(** * The commit rule of a leader

    [_advance_commit_index] sorts the match indices and looks at one of them.
    On the states a leader can be in, that is the rule of the protocol: commit
    the greatest index of the current term that a majority holds. *)

From stdpp Require Import base gmap strings list fin_sets sorting.
From Stdlib Require Import ZArith Lia.
From S2P Require Import Prelude PyFloat RaftTypes Storage StateMachine Transport RaftNode.
From S2P Require Import RaftSpec RaftInv RaftLogs RaftRefine RaftHistory Cluster Models Ledger Demo RaftProps.

Local Open Scope Z_scope.

Module Commit.

(** ** Counting in a descending list *)

Lemma none_holding (l : list Z) (n : Z) : (∀ x, x ∈ l → x < n) → filter (λ x : Z, (n ≤ x)%Z) l = [].
Proof.
  induction l as [|x l IH]; intros Hl; [done|]. rewrite filter_cons_False by (specialize (Hl x ltac:(left)); lia).
  apply IH. intros y Hy. apply Hl. by right.
Qed.

Lemma descending_after (l : list Z) (i : nat) (k n : Z) :
  StronglySorted (λ x y, Is_true (y <=? x)) l → l !! i = Some k → k < n →
  (length (filter (λ x : Z, (n ≤ x)%Z) l) ≤ i)%nat.
Proof.
  intros Hs. revert i. induction Hs as [|x l Hs IH Hx]; intros i Hi Hk; [done|].
  destruct i as [|i]; simpl in Hi.
  - simplify_eq. rewrite filter_cons_False by lia. rewrite none_holding; [done|].
    intros y Hy. rewrite Forall_forall in Hx. specialize (Hx y Hy). apply Is_true_true, Z.leb_le in Hx. lia.
  - rewrite filter_cons. specialize (IH i Hi Hk). destruct (decide (n ≤ x)); simpl; lia.
Qed.

(** How many of the values are at least [n]. *)
Definition holding (n : Z) (values : list Z) : Z := zlen (filter (λ m : Z, (n ≤ m)%Z) values).

Lemma candidate_greatest last mi q c :
  Raft.commit_candidate last mi q = Some c → 1 ≤ q →
  q ≤ holding c (last :: (map_to_list mi).*2) ∧ ∀ n, c < n → holding n (last :: (map_to_list mi).*2) < q.
Proof.
  unfold Raft.commit_candidate, holding, zlen. intros Hc Hq.
  pose proof (isort_sorted (λ x y, y <=? x) Logs.geb_total Logs.geb_trans (last :: (map_to_list mi).*2)) as Hs. split.
  - pose proof (Logs.descending_count _ _ _ Hs Hc) as H. rewrite isort_perm in H. lia.
  - intros n Hn. pose proof (descending_after _ _ _ _ Hs Hc Hn) as H. rewrite isort_perm in H. lia.
Qed.

(** The nodes known to hold exactly [n] entries are among those counted. *)
Lemma holding_known (n : Z) (mi : gmap string Z) (Q : list string) :
  NoDup Q → (∀ q, q ∈ Q → mi !! q = Some n) → zlen Q ≤ holding n (map_to_list mi).*2.
Proof.
  intros HQ Hm. unfold holding, zlen. apply inj_le.
  assert (Hsub : (λ q, (q, n)) <$> Q ⊆+ map_to_list mi).
  { apply NoDup_submseteq; [apply NoDup_fmap_2; [by intros ? ? [= ->]|done]|].
    intros [p k] Hp. apply list_elem_of_fmap in Hp as (q & [= -> ->] & Hq). apply elem_of_map_to_list. by apply Hm. }
  apply (fmap_submseteq snd) in Hsub. rewrite <- list_fmap_compose in Hsub.
  apply submseteq_Permutation in Hsub as [rest Hrest]. rewrite Hrest, filter_app, length_app.
  rewrite filter_all by (intros x Hx; apply list_elem_of_fmap in Hx as (q & -> & _); simpl; lia).
  rewrite length_fmap. lia.
Qed.

(** ** [advance_commit_index] *)

Section node.
Context {C S T : Type} {Hsm : StateMachine C S} {Htr : Transport C T}.
Abbreviation World := (Raft.World C S T).
Implicit Types w : World.
Abbreviation commit w := (Raft.commit_index (Raft.node w)).
Abbreviation entries w := (Storage.entries (Raft.storage w)).

(** Applying leaves the commit index and the storage, and reaches the commit
    index unless it raises. *)
Lemma apply_loop_effect fuel : ∀ w, 
  let '(r, w') := Raft.apply_loop fuel w in
  commit w' = commit w ∧ Raft.match_index (Raft.node w') = Raft.match_index (Raft.node w) ∧
  Raft.peer_ids (Raft.node w') = Raft.peer_ids (Raft.node w) ∧ Raft.storage w' = Raft.storage w ∧
  (r = Ok tt → Raft.last_applied (Raft.node w) ≤ commit w ≤ Raft.last_applied (Raft.node w) + Z.of_nat fuel →
   Raft.last_applied (Raft.node w') = commit w').
Proof.
  induction fuel as [|f IH]; intros w; cbn [Raft.apply_loop]; [split_and!; try done; intros; lia|].
  unfold bind at 1 2, Raft.gets, get. destruct (Z.ltb_spec (Raft.last_applied (Raft.node w)) (commit w)).
  2: { split_and!; try done. intros. simpl. lia. }
  unfold bind at 1 2, Raft.on_node, modify, Raft.reads, get. cbn [Raft.storage Raft.node].
  destruct (Storage.get _ _) as [e|]; [|by split_and!].
  unfold bind at 1, Raft.machine_apply, zoom. cbn [Raft.machine].
  destruct (sm_apply _ _) as [[[]|x] m]; [|by split_and!].
  match goal with |- context [Raft.apply_loop f ?w1] => specialize (IH w1); destruct (Raft.apply_loop f w1) as [r w'] end.
  destruct IH as (H1 & H2 & H3 & H4 & H5). rewrite H1, H2, H3, H4. split_and!; try done.
  intros -> Hb. rewrite H5; [done|done|]. simpl in *. lia.
Qed.

(** A majority of the cluster is known to hold the entry at [n], and it is of
    the current term. *)
Definition committable w (n : Z) : Prop :=
  1 ≤ n ≤ zlen (entries w) ∧ Storage.term_at n (Raft.storage w) = Storage.current_term (Raft.storage w) ∧
  Raft.majority_of (Raft.peer_ids (Raft.node w)) ≤
    holding n (zlen (entries w) :: (map_to_list (Raft.match_index (Raft.node w))).*2).

(** The state a leader keeps. *)
Record leader_ok w : Prop := {
  lo_terms i : 1 ≤ i ≤ zlen (entries w) → 1 ≤ Storage.term_at i (Raft.storage w) ≤ Storage.current_term (Raft.storage w);
  lo_sorted i j : 1 ≤ i ≤ j → j ≤ zlen (entries w) → Storage.term_at i (Raft.storage w) ≤ Storage.term_at j (Raft.storage w);
  lo_term : 1 ≤ Storage.current_term (Raft.storage w);
  lo_commit : 0 ≤ Raft.last_applied (Raft.node w) ≤ commit w;
  lo_match p m : Raft.match_index (Raft.node w) !! p = Some m → m ≤ zlen (entries w);
  lo_size : size (Raft.match_index (Raft.node w)) = length (Raft.peer_ids (Raft.node w))
}.

Lemma candidate_some w : leader_ok w →
  is_Some (Raft.commit_candidate (zlen (entries w)) (Raft.match_index (Raft.node w)) (Raft.majority_of (Raft.peer_ids (Raft.node w)))).
Proof.
  intros Hw. unfold Raft.commit_candidate. apply lookup_lt_is_Some. rewrite isort_perm. simpl.
  rewrite length_fmap, length_map_to_list, (lo_size w Hw). unfold Raft.majority_of, zlen.
  pose proof (Z.div_lt (Z.of_nat (length (Raft.peer_ids (Raft.node w))) + 1) 2 ltac:(lia) ltac:(lia)).
  pose proof (Z.div_pos (Z.of_nat (length (Raft.peer_ids (Raft.node w))) + 1) 2). lia.
Qed.

Lemma majority_pos (peers : list string) : 1 ≤ Raft.majority_of peers.
Proof. unfold Raft.majority_of. pose proof (zlen_nonneg peers). pose proof (Z.div_pos (zlen peers + 1) 2). lia. Qed.

(** What the two tests of the code decide. *)
Lemma candidate_committable w c n : leader_ok w →
  Raft.commit_candidate (zlen (entries w)) (Raft.match_index (Raft.node w)) (Raft.majority_of (Raft.peer_ids (Raft.node w))) = Some c →
  committable w n → n ≤ c ∧ Storage.term_at c (Raft.storage w) = Storage.current_term (Raft.storage w).
Proof.
  intros Hw Hc (Hn & Ht & Hq). destruct (candidate_greatest _ _ _ _ Hc (majority_pos _)) as [Hge Hgt].
  assert (Hnc : n ≤ c). { destruct (Z.le_gt_cases n c); [done|]. specialize (Hgt n ltac:(lia)). lia. }
  split; [done|].
  assert (Hcl : c ≤ zlen (entries w)).
  { destruct (Z.le_gt_cases c (zlen (entries w))) as [|Hlt]; [done|]. exfalso. revert Hge. unfold holding.
    rewrite none_holding; [unfold zlen; simpl; pose proof (majority_pos (Raft.peer_ids (Raft.node w))); lia|].
    intros m [->|Hm]%elem_of_cons; [lia|]. apply list_elem_of_fmap in Hm as ([p m'] & -> & Hm). apply elem_of_map_to_list in Hm.
    apply (lo_match w Hw) in Hm. simpl. lia. }
  pose proof (lo_terms w Hw c ltac:(lia)). pose proof (lo_sorted w Hw n c ltac:(lia) ltac:(lia)). lia.
Qed.

Lemma advance_exact w : leader_ok w →
  let '(r, w') := Raft.advance_commit_index w in
  Raft.match_index (Raft.node w') = Raft.match_index (Raft.node w) ∧
  Raft.peer_ids (Raft.node w') = Raft.peer_ids (Raft.node w) ∧ Raft.storage w' = Raft.storage w ∧
  commit w ≤ commit w' ∧
  (w' = w ∧ r = Ok tt ∨ committable w (commit w') ∧ (r = Ok tt → Raft.last_applied (Raft.node w') = commit w')) ∧
  ∀ n, committable w n → n ≤ commit w'.
Proof.
  intros Hw. unfold Raft.advance_commit_index. unfold bind at 1 2 3, Raft.reads, Raft.gets, get.
  change (Storage.last_index (Raft.storage w)) with (zlen (entries w)).
  destruct (candidate_some w Hw) as [c Hc]. rewrite Hc. unfold bind at 1 2 3, get.
  destruct (Z.ltb_spec (commit w) c) as [Hlt|Hle]; cbn [andb].
  2: { split_and!; try done; [by left|]. intros n Hn. destruct (candidate_committable w c n Hw Hc Hn). lia. }
  unfold Storage.get_current_term. destruct (Z.eqb_spec (Storage.term_at c (Raft.storage w)) (Storage.current_term (Raft.storage w))) as [Ht|Hne].
  2: { split_and!; try done; [by left|]. intros n Hn. by destruct (candidate_committable w c n Hw Hc Hn). }
  unfold bind at 1, Raft.on_node, modify. unfold Raft.apply_committed, bind, Raft.gets, get.
  match goal with |- context [Raft.apply_loop ?f ?w1] => pose proof (apply_loop_effect f w1) as Ha; destruct (Raft.apply_loop f w1) as [r w'] end.
  cbn in Ha. destruct Ha as (H1 & H2 & H3 & H4 & H5). rewrite H1, H2, H3, H4. pose proof (lo_commit w Hw).
  assert (Hcm : committable w c).
  { split; [|split; [done|apply (proj1 (candidate_greatest _ _ _ _ Hc (majority_pos _)))]].
    destruct (Z.le_gt_cases c (zlen (entries w))); [lia|]. exfalso.
    unfold Storage.term_at in Ht. rewrite Storage.term_at_outside in Ht by lia. pose proof (lo_term w Hw). lia. }
  split_and!; try done; [lia| |].
  - right. split; [done|]. intros ->. rewrite <- H1. apply H5; [done|]. lia.
  - intros n Hn. by destruct (candidate_committable w c n Hw Hc Hn).
Qed.
End node.
End Commit.

(** ** Leaders of a run *)

Section props.
Context {C S T : Type} {Hsm : StateMachine C S}.
Context {Htr : Transport C T} {Hnet : Network C T} {Hlaws : NetworkLaws C T}.
Variables tmin tmax hb : float.
Variable ids : list string.
Hypothesis Hids : NoDup ids.
Variable sm0 : S.
Variable t0 : T.
Hypothesis Ht0 : net_sent t0 [].
Abbreviation start := (Cluster.init tmin tmax hb ids sm0 t0).
Abbreviation run := (Cluster.run tmin tmax hb ids).
Abbreviation commit w := (Raft.commit_index (Raft.node w)).

Lemma leader_slot evs id s (t : T) :
  Cluster.slots (run evs start) !! id = Some s → Raft.state (Cluster.slot_node s) = LEADER →
  Commit.leader_ok (Cluster.world s t) ∧
  (∀ p, p ∈ ids → p ≠ id → is_Some (Raft.match_index (Cluster.slot_node s) !! p)).
Proof.
  intros Hs Hl. destruct (one_point_any tmin tmax hb ids Hids sm0 t0 Ht0 evs) as (G & Hf & HI).
  destruct (slot_anode _ _ _ _ _ _ _ Hf Hs) as (h & _ & Hv).
  destruct (slot_ok _ _ _ _ _ _ _ Hf HI Hs) as (Hn & Hg & _ & Ha & Hc).
  destruct (Cluster.f_slot _ _ _ _ _ Hf _ _ Hs) as [Hid HR].
  pose proof (Refine.r_dom _ _ _ _ _ HR Hl) as Hdom. cbn [Cluster.world Raft.node] in Hdom.
  pose proof (Inv.no_leader _ _ _ Hn) as Hlead. pose proof (Inv.no_log_terms _ _ _ Hn) as Hterms.
  pose proof (Inv.no_match _ _ _ Hn) as Hmatch. pose proof (Inv.no_cand _ _ _ Hn) as Hcand.
  rewrite Hv in Hlead, Hterms, Hmatch, Hcand. cbn in Hlead, Hterms, Hmatch, Hcand.
  destruct (Hlead Hl) as (_ & Htl & _). split.
  - split; cbn [Cluster.world Raft.node Raft.storage].
    + exact Hterms.
    + intros i j. by apply (Logs.good_log_sorted G (λ t, Inv.to_terms _ _ _ (Inv.i_term _ _ HI t))).
    + apply Hcand. by rewrite Hl.
    + lia.
    + intros p m Hm. destruct (Hmatch p m Hl Hm) as (_ & _ & Hm').
      pose proof (Inv.to_acks _ _ _ (Inv.i_term _ _ HI (Storage.current_term (Cluster.slot_storage s))) p) as Hk.
      rewrite Htl in Hk. lia.
    + pose proof (size_list_to_set (C := gset string) _ (Refine.r_nodup _ _ _ _ _ HR)) as Hsz.
      cbn [Cluster.world Raft.node] in Hsz. rewrite <- size_dom, Hdom, <- Hsz. f_equal.
      apply set_eq. intros p. rewrite elem_of_list_to_set. symmetry. apply (Refine.r_peers _ _ _ _ _ HR).
  - intros p Hp Hne. apply elem_of_dom. rewrite Hdom. unfold Spec.peers_of. rewrite elem_of_difference.
    split; [by apply elem_of_list_to_set|by rewrite elem_of_singleton].
Qed.

(** A success reply of the leader's term, step by step. *)
Lemma success_reply rnd p reply now (w : Raft.World C S T) m0 :
  Raft.state (Raft.node w) = LEADER → aer_term reply = Storage.current_term (Raft.storage w) → aer_success reply = true →
  Raft.match_index (Raft.node w) !! p = Some m0 →
  ∃ w1, Raft.handle_append_entries_reply rnd p reply now w = Raft.advance_commit_index w1 ∧
    Raft.match_index (Raft.node w1) = <[p := Z.max m0 (aer_match_index reply)]> (Raft.match_index (Raft.node w)) ∧
    Raft.peer_ids (Raft.node w1) = Raft.peer_ids (Raft.node w) ∧ Raft.storage w1 = Raft.storage w ∧
    Raft.commit_index (Raft.node w1) = Raft.commit_index (Raft.node w) ∧
    Raft.last_applied (Raft.node w1) = Raft.last_applied (Raft.node w) ∧
    Raft.state (Raft.node w1) = Raft.state (Raft.node w) ∧ Raft.node_id (Raft.node w1) = Raft.node_id (Raft.node w) ∧
    Raft.next_index (Raft.node w1) = <[p := Z.max m0 (aer_match_index reply) + 1]> (Raft.next_index (Raft.node w)) ∧
    Raft.transport w1 = Raft.transport w ∧ Raft.machine w1 = Raft.machine w.
Proof.
  intros Hl Ht Hsu Hm. unfold Raft.handle_append_entries_reply, Raft.stepped_down, Raft.reads, Raft.gets, Storage.get_current_term.
  unfold bind at 1 2, get at 1. rewrite Ht, Z.ltb_irrefl. unfold ret, bind at 1 2, get at 1 2.
  rewrite Hl, bool_decide_false, Z.eqb_refl, Hsu by (intros []; done). cbn [orb negb].
  unfold Raft.on_node, bind, get, modify. rewrite Hm. change (default 0 (Some m0)) with m0.
  destruct (Z.ltb_spec m0 (aer_match_index reply)) as [Hlt|Hle]; simpl.
  - rewrite lookup_insert_eq. eexists. split; [reflexivity|]. simpl. rewrite Z.max_r by lia. by split_and!.
  - rewrite Hm. eexists. split; [reflexivity|]. simpl. rewrite Z.max_l by lia. rewrite insert_id by done. by split_and!.
Qed.

(** C7 (a majority commits): when a leader, in any reachable state, receives
    the success reply of a peer, for no more than the leader's log, it records
    the progress of the peer and then its commit index is the greatest of what
    it was and of the indices that hold an entry of its term and that a
    majority of the cluster, itself counted, is known to hold: nothing the
    protocol allows to commit is left, and nothing else is committed.  If the
    index moved and the state machine raised nothing, everything up to it has
    been applied. *)
Theorem majority_commits evs id s p reply rnd now (t : T) :
  Cluster.slots (run evs start) !! id = Some s → Raft.state (Cluster.slot_node s) = LEADER → p ∈ ids → p ≠ id →
  aer_success reply = true → aer_term reply = Storage.current_term (Cluster.slot_storage s) →
  aer_match_index reply ≤ zlen (Storage.entries (Cluster.slot_storage s)) →
  let w := Cluster.world s t in
  let '(r, w') := Raft.handle_append_entries_reply rnd p reply now w in
  (∃ m0, Raft.match_index (Raft.node w) !! p = Some m0 ∧
    Raft.match_index (Raft.node w') = <[p := Z.max m0 (aer_match_index reply)]> (Raft.match_index (Raft.node w))) ∧
  Raft.storage w' = Raft.storage w ∧ commit w ≤ commit w' ∧
  (∀ n, Commit.committable w' n → n ≤ commit w') ∧
  (commit w' = commit w ∨
   Commit.committable w' (commit w') ∧ (r = Ok tt → Raft.last_applied (Raft.node w') = commit w')).
Proof.
  intros Hs Hl Hp Hne Hsu Ht Hb w. destruct (leader_slot evs id s t Hs Hl) as [Hok Hpeer]. destruct (Hpeer p Hp Hne) as [m0 Hm].
  destruct (success_reply rnd p reply now w m0 Hl Ht Hsu Hm) as (w1 & -> & E1 & E2 & E3 & E4 & E5 & _).
  assert (Hok1 : Commit.leader_ok w1).
  { destruct Hok as [O1 O2 O3 O4 O5 O6]. split; rewrite ?E1, ?E2, ?E3, ?E4, ?E5; try done.
    - intros q m [[<- <-]|[_ Hq]]%lookup_insert_Some; [|by eapply O5]. specialize (O5 p m0 Hm). cbn in O5 |- *. lia.
    - etrans; [|exact O6]. apply map_size_insert_Some. by exists m0. }
  pose proof (Commit.advance_exact w1 Hok1) as Ha. destruct (Raft.advance_commit_index w1) as [r w'].
  destruct Ha as (A1 & A2 & A3 & A4 & A5 & A6). rewrite E4 in A4.
  assert (Hcm : ∀ n, Commit.committable w' n ↔ Commit.committable w1 n) by (intros n; unfold Commit.committable; by rewrite A1, A2, A3).
  split; [exists m0; by rewrite A1, E1|]. split; [by rewrite A3, E3|]. split; [done|]. split.
  - intros n Hn. by apply A6, Hcm.
  - destruct A5 as [[-> _]|[A5 A7]]; [by left|]. right. split; [by apply Hcm|done].
Qed.
End props.

(** [a] has proposed two entries in its term; with the reply of [b] they are
    held by two of three. *)
Lemma majority_commits_witness :
  let proposed := Demo.elect ++ [Demo.at_ 160 (Cluster.Propose "a" Demo.credit); Demo.at_ 161 (Cluster.Propose "a" Demo.debit)] in
  let w := Cluster.world (Demo.slot "a" (Demo.after proposed)) (Net.init (C := Demo.C)) in
  let reply := mkAppendEntriesReply 1 true "b" 2 0 (-1) in
  let '(r, w') := Raft.handle_append_entries_reply Demo.high "b" reply F.zero w in
  Raft.commit_index (Raft.node w) = 0 ∧ Commit.committable w' 2 ∧ 2 ≤ Raft.commit_index (Raft.node w').
Proof.
  intros proposed w reply.
  pose proof (majority_commits Demo.tmin Demo.tmax Demo.hb Demo.ids Demo.ids_nodup (Ledger.init ∅) Net.init Net.queued_init
    proposed "a" (Demo.slot "a" (Demo.after proposed)) "b" reply Demo.high F.zero (Net.init (C := Demo.C))) as H.
  assert (Hc : Commit.committable (Raft.handle_append_entries_reply Demo.high "b" reply F.zero w).2 2).
  { split; [split; vm_compute; discriminate|]. split; [vm_compute; reflexivity|vm_compute; discriminate]. }
  assert (Hs : Cluster.slots (Cluster.run Demo.tmin Demo.tmax Demo.hb Demo.ids proposed
    (Cluster.init Demo.tmin Demo.tmax Demo.hb Demo.ids (Ledger.init ∅) Net.init)) !! "a" =
    Some (Demo.slot "a" (Demo.after proposed))) by (vm_compute; reflexivity).
  assert (Hl : Raft.state (Cluster.slot_node (Demo.slot "a" (Demo.after proposed))) = LEADER) by (vm_compute; reflexivity).
  assert (Ht : 1 = Storage.current_term (Cluster.slot_storage (Demo.slot "a" (Demo.after proposed)))) by (vm_compute; reflexivity).
  assert (Hb : 2 ≤ zlen (Storage.entries (Cluster.slot_storage (Demo.slot "a" (Demo.after proposed))))) by (vm_compute; discriminate).
  assert (H0 : Raft.commit_index (Raft.node w) = 0) by (vm_compute; reflexivity).
  specialize (H Hs Hl ltac:(right; left) ltac:(discriminate) eq_refl Ht Hb). cbv zeta in H. fold w in H.
  destruct (Raft.handle_append_entries_reply Demo.high "b" reply F.zero w) as [r w'].
  destruct H as (_ & _ & _ & H & _). split; [exact H0|]. split; [exact Hc|exact (H 2 Hc)].
Defined.
