(* ===== verification/LedgerProps.v ===== *)
(** * Correctness of the settlement ledger

    The guarantees of [Ledger.apply] on one replica: its result on every
    branch, exactly-once application per entry id, the balance arithmetic, and
    the one input the models let through on which it raises. *)

From stdpp Require Import base gmap strings list functions.
From Stdlib Require Import ZArith Lia.
From S2P Require Import Prelude PyDecimal PyFloat Models StateMachine Ledger Submitter.

Local Open Scope Z_scope.

(** C34 (apply, branch by branch): an entry with a fresh id whose amount and
    balance are multiples of the unit is accepted exactly when the balance
    stays non-negative; then the account, and no other, moves by exactly the
    amount; otherwise no balance moves.  The result is recorded under the entry
    id and under no other id. *)
Theorem apply_correct (e : Z) (c : LedgerEntry) (w : Ledger.LedgerStateMachine) :
  Dec.Etiny ≤ e ≤ 0 →
  Ledger.results w !! le_entry_id c = None →
  Dec.fits e (Ledger.balance (le_account_id c) w) → Dec.fits e (le_delta c) →
  let u := Dec.units e (Ledger.balance (le_account_id c) w) in
  let d := Dec.units e (le_delta c) in
  Z.abs (u + d) < 10 ^ Dec.prec →
  ∃ r w', Ledger.apply c w = (Ok r, w') ∧
    Ledger.ar_entry_id r = le_entry_id c ∧ Ledger.ar_accepted r = (0 <=? u + d) ∧
    Dec.fits e (Ledger.ar_resulting_balance r) ∧
    Dec.units e (Ledger.ar_resulting_balance r) = (if 0 <=? u + d then u + d else u) ∧
    Ledger.balance (le_account_id c) w' = Ledger.ar_resulting_balance r ∧
    (∀ a, a ≠ le_account_id c → Ledger.balance a w' = Ledger.balance a w) ∧
    Ledger.results w' = <[le_entry_id c := r]> (Ledger.results w).
Proof.
  intros He Hid Hf Hd u d Hb.
  destruct (Dec.add_exact e _ _ (proj1 He) Hf Hd Hb) as (nb & Hadd & Hfn & Hun).
  pose proof (Dec.lt_zero_units e nb Hfn) as Hlt. rewrite Hun in Hlt. fold u d in Hlt, Hun.
  unfold Ledger.apply, bind, get, lift, modify, ret. rewrite Hid, Hadd, Hlt.
  destruct (Z.ltb_spec (u + d) 0) as [Hneg|Hpos]; eexists _, _; (split; [done|]); simpl.
  - rewrite (proj2 (Z.leb_gt 0 (u + d))) by done. by split_and!.
  - rewrite (proj2 (Z.leb_le 0 (u + d))) by done. split_and!; try done.
    + by rewrite Ledger.balance_set_result, Ledger.balance_set_balance, decide_True.
    + intros a Ha. by rewrite Ledger.balance_set_result, Ledger.balance_set_balance, decide_False.
Qed.

Lemma apply_correct_witness :
  ∃ r w', Ledger.apply (mkLedgerEntry "t" "alice" (DFin (-250) (-2)) "t" 0)
            (Ledger.init {["alice" := DFin 10000 (-2)]}) = (Ok r, w') ∧
    Ledger.ar_accepted r = true ∧ Ledger.balance "alice" w' = Ledger.ar_resulting_balance r.
Proof.
  destruct (apply_correct (-2) (mkLedgerEntry "t" "alice" (DFin (-250) (-2)) "t" 0)
    (Ledger.init {["alice" := DFin 10000 (-2)]})) as (r & w' & H1 & H2 & H3 & H4 & H5 & H6 & _).
  - vm_compute. split; discriminate.
  - reflexivity.
  - vm_compute. split; discriminate.
  - vm_compute. split; discriminate.
  - vm_compute. reflexivity.
  - exists r, w'. split; [exact H1|]. split; [exact H3|exact H6].
Defined.

(** C35 (exactly once): once an entry has been applied, applying an entry with
    the same id again, after any further history, returns the recorded result
    and leaves the ledger as it is: retried and replayed proposals do not move
    money twice. *)
Theorem apply_exactly_once (c c' : LedgerEntry) (l : list LedgerEntry) w r w1 :
  Ledger.apply c w = (Ok r, w1) → le_entry_id c' = le_entry_id c →
  Ledger.apply c' (sm_effects l w1) = (Ok r, sm_effects l w1).
Proof.
  intros Ha Hid.
  assert (Hr : Ledger.results (sm_effects l w1) !! le_entry_id c' = Some r).
  { rewrite Hid. apply Ledger.apply_recorded in Ha. revert w1 Ha.
    induction l as [|x l IH]; intros w1 Ha; [done|]. unfold sm_effects. simpl. apply IH.
    rewrite Ledger.sm_apply_eq. by apply Ledger.apply_results_mono. }
  unfold Ledger.apply, bind, get. by rewrite Hr.
Qed.

Lemma apply_exactly_once_witness :
  let c := mkLedgerEntry "t" "alice" (DFin 250 (-2)) "t" 0 in
  let c2 := mkLedgerEntry "u" "alice" (DFin 100 (-2)) "u" 0 in
  let w1 := (Ledger.apply c (Ledger.init ∅)).2 in
  Ledger.balance "alice" (Ledger.apply c (sm_effects [c2] w1)).2 = DFin 350 (-2).
Proof.
  cbv zeta. set (c := mkLedgerEntry "t" "alice" (DFin 250 (-2)) "t" 0).
  rewrite (apply_exactly_once c c [mkLedgerEntry "u" "alice" (DFin 100 (-2)) "u" 0] (Ledger.init ∅)
    (Ledger.mkApplyResult "t" true (DFin 250 (-2)) [])).
  - vm_compute. reflexivity.
  - vm_compute. reflexivity.
  - reflexivity.
Defined.

(** C36 (conservation): a ledger that starts at [b] and applies the entries
    [l] ends, on every account, at the initial amount plus the amounts of the
    entries accepted for that account, each entry id counted once, with no
    rounding and no account below zero. *)
Theorem ledger_conserves (e D B : Z) (l : list LedgerEntry) w b :
  Dec.Etiny ≤ e ≤ 0 → 0 ≤ D → Ledger.implements e w (Ledger.spec_init b) → (∀ a, 0 ≤ b a ≤ B) →
  Forall (λ c, Dec.fits e (le_delta c) ∧ Z.abs (Dec.units e (le_delta c)) ≤ D) l →
  B + (zlen l + 1) * D < 10 ^ Dec.prec →
  ∃ w', sm_run l w = (Ok tt, w') ∧ Ledger.solvent w' ∧
    ∀ a, Dec.units e (Ledger.balance a w') = b a + Ledger.settled e a l (Ledger.spec_init b).
Proof.
  intros He HD Hw Hb Hl HB.
  destruct (Ledger.run_implements e He D l B w (Ledger.spec_init b) Hw HD Hb Hl HB) as (w' & Hr & [Hi _]).
  exists w'. split; [done|]. split.
  - apply sm_run_effects in Hr as <-. apply Ledger.effects_solvent. intros a.
    destruct Hw as [Hw _]. destruct (Hw a) as [Hf Hu]. specialize (Hb a). simpl in Hu.
    destruct (Ledger.balance a w) as [x k| |]; simpl in *; [|done..].
    pose proof (Dec.pow10_pos (k - e) ltac:(lia)). nia.
  - intros a. destruct (Hi a) as [_ ->]. by apply Ledger.spec_run_settled.
Qed.

Lemma ledger_conserves_witness :
  let l := [mkLedgerEntry "t" "alice" (DFin 10000 (-2)) "t" 0; mkLedgerEntry "u" "alice" (DFin (-20000) (-2)) "u" 0;
            mkLedgerEntry "t" "alice" (DFin 10000 (-2)) "t" 0] in
  ∃ w', sm_run l (Ledger.init ∅) = (Ok tt, w') ∧ Ledger.solvent w' ∧
    ∀ a, Dec.units (-2) (Ledger.balance a w') = 0 + Ledger.settled (-2) a l (Ledger.spec_init (λ _, 0)).
Proof.
  apply (ledger_conserves (-2) 20000 0).
  - vm_compute. split; discriminate.
  - vm_compute. discriminate.
  - split; [intros a; vm_compute; split; [split; discriminate|reflexivity]|done].
  - intros a. split; vm_compute; discriminate.
  - repeat constructor; vm_compute; discriminate.
  - vm_compute. reflexivity.
Defined.

(** C37 (settling one transaction): a flagged transaction is counted and
    nothing is proposed; a cleared one leads to exactly one proposal, of an
    entry with the transaction's id as idempotency key, its account, and its
    exact amount signed by its type, and is counted as submitted when the
    cluster accepted it and listed as failed when the proposal timed out. *)
Theorem submitter_handles {P : Type} `{!Proposer P} scored now (w : Submitter.World P) c x :
  tx_amount (st_transaction scored) = DFin c x → 0 < c < 10 ^ Dec.prec → Dec.Etiny ≤ x ≤ Dec.Etop →
  let tx := st_transaction scored in
  let entry := mkLedgerEntry (tx_id tx) (tx_account_id tx)
                 (DFin (if bool_decide (tx_type tx = CREDIT) then c else - c) x) (tx_id tx) now in
  let s := Submitter.submitter w in
  Submitter.handle scored now w =
    if fs_is_fraud (st_score scored) then
      (Ok tt, Submitter.mkWorld (Submitter.count_flagged s) (Submitter.input_queue w) (Submitter.cluster w))
    else
      match cluster_propose entry (Submitter.propose_timeout s) (Submitter.cluster w) with
      | (Ok _, cl) => (Ok tt, Submitter.mkWorld (Submitter.count_submitted s) (Submitter.input_queue w) cl)
      | (Raise (TimeoutError _), cl) =>
          (Ok tt, Submitter.mkWorld (Submitter.add_failed (tx_id tx) s) (Submitter.input_queue w) cl)
      | (Raise e, cl) => (Raise e, Submitter.mkWorld s (Submitter.input_queue w) cl)
      end.
Proof.
  intros Ha Hc Hx tx entry s. destruct (fs_is_fraud (st_score scored)) eqn:Hf.
  { by apply Submitter.handle_flagged. }
  pose proof (Submitter.handle_cleared scored now w entry Hf (Submitter.entry_for_exact tx now c x Ha Hc Hx)) as Hh.
  fold s tx in Hh. destruct (cluster_propose _ _ _) as [r cl]. rewrite Hh. by destruct r as [|[]].
Qed.

(** A cluster that records what is proposed, and one that is down. *)
#[local] Instance recorder : Proposer (list LedgerEntry) := λ entry _ l, (Ok tt, l ++ [entry]).

Definition cleared_debit : ScoredTransaction :=
  mkScored (mkTransaction "alice" DEBIT (DFin 2500 (-2)) None "USD" "us-east" PENDING "t1" 0 ∅)
    (mkFraudScore "t1" "w1" F.zero false [] 0).

Lemma submitter_handles_witness :
  Submitter.handle cleared_debit 7 (Submitter.mkWorld (Submitter.init F.zero) [] []) =
    (Ok tt, Submitter.mkWorld (Submitter.mkSubmitter F.zero 1 0 [])
              [] [mkLedgerEntry "t1" "alice" (DFin (-2500) (-2)) "t1" 7]).
Proof.
  rewrite (submitter_handles cleared_debit 7 (Submitter.mkWorld (Submitter.init F.zero) [] []) 2500 (-2)).
  - vm_compute. reflexivity.
  - reflexivity.
  - vm_compute. split; reflexivity.
  - vm_compute. split; discriminate.
Defined.

(** No transaction is lost or counted twice by the submitter: however
    long the loop runs without dying, the transactions it has taken off the
    queue are a prefix of the queue, and each is counted once, as submitted,
    as flagged or as failed. *)
Theorem submitter_accounts {P : Type} `{!Proposer P} turns (w w' : Submitter.World P) :
  Submitter.run turns w = (Ok tt, w') →
  ∃ done, Submitter.input_queue w = done ++ Submitter.input_queue w' ∧
    Submitter.handled (Submitter.submitter w') = Submitter.handled (Submitter.submitter w) + zlen done.
Proof. apply Submitter.run_accounts. Qed.

Lemma submitter_accounts_witness :
  ∃ done, [cleared_debit; cleared_debit] = done ++ [] ∧ 2 = 0 + zlen done.
Proof.
  apply (submitter_accounts [1; 2; 3]
    (Submitter.mkWorld (Submitter.init F.zero) [cleared_debit; cleared_debit] ([] : list LedgerEntry))
    (Submitter.mkWorld (Submitter.mkSubmitter F.zero 2 0 []) []
       [mkLedgerEntry "t1" "alice" (DFin (-2500) (-2)) "t1" 1; mkLedgerEntry "t1" "alice" (DFin (-2500) (-2)) "t1" 2])).
  vm_compute. reflexivity.
Defined.

(** An unvalidated amount breaks settlement: the models accept a debit
    of an infinite amount, the submitter turns it into a valid ledger entry,
    and on every ledger whose account holds an infinite balance, which the
    same amount credited leaves behind, [apply] raises [InvalidOperation]
    without recording a result, so each replay of the entry raises again. *)
Theorem infinite_amount_raises account id now (w : Ledger.LedgerStateMachine) :
  account ≠ "" → id ≠ "" → Ledger.balance account w = DInf false → Ledger.results w !! id = None →
  let tx := mkTransaction account DEBIT (DInf false) None "USD" "us-east" PENDING id 0 ∅ in
  ∃ entry, Transaction_post_init tx = Ok tx ∧ Submitter.entry_for tx now = Ok entry ∧
    Ledger.apply entry w = (Raise InvalidOperation, w).
Proof.
  intros Ha Hi Hb Hr tx. exists (mkLedgerEntry id account (DInf true) id now). split_and!.
  - unfold Transaction_post_init. simpl. by rewrite (proj2 (String.eqb_neq account "")).
  - done.
  - unfold Ledger.apply, bind, get, lift. simpl. by rewrite Hr, Hb.
Qed.

Lemma infinite_amount_raises_witness :
  let w := (Ledger.apply (mkLedgerEntry "t0" "eve" (DInf false) "t0" 0) (Ledger.init ∅)).2 in
  ∃ entry, Submitter.entry_for (mkTransaction "eve" DEBIT (DInf false) None "USD" "us-east" PENDING "t1" 0 ∅) 0 = Ok entry ∧
    Ledger.apply entry w = (Raise InvalidOperation, w).
Proof.
  destruct (infinite_amount_raises "eve" "t1" 0
    (Ledger.apply (mkLedgerEntry "t0" "eve" (DInf false) "t0" 0) (Ledger.init ∅)).2) as (entry & _ & H1 & H2);
    [discriminate|discriminate|vm_compute; reflexivity|vm_compute; reflexivity|].
  exists entry. split; [exact H1|exact H2].
Defined.
