(* ===== verification/NodeProps.v ===== *)
(** * Behaviour of single handlers of the Raft core

    What the vote, append and backtracking handlers do on every branch, and
    the places where the code does not do what its comments say. *)

From stdpp Require Import base gmap strings list fin_sets.
From Stdlib Require Import ZArith Lia.
From S2P Require Import Prelude PyFloat RaftTypes Storage StateMachine Transport RaftNode.
From S2P Require Import RaftSpec RaftInv RaftLogs RaftRefine RaftHistory Cluster RaftProps.
From S2P Require Import PyDecimal Models Ledger Demo.

Local Open Scope Z_scope.

(** ** Voting *)

Section votes.
Context {C S T : Type} {Hsm : StateMachine C S} {Htr : Transport C T}.
Variable random_fn : nat → float → float → float.
Abbreviation World := (Raft.World C S T).
Implicit Types w : World.

Abbreviation term w := (Storage.current_term (Raft.storage w)).
Abbreviation entries w := (Storage.entries (Raft.storage w)).

(** The node believes in a leader it heard from within the election timeout. *)
Definition leader_active (now : float) w : bool :=
  bool_decide (is_Some (Raft.leader_id (Raft.node w))) &&
  F.lt (F.sub now (Raft.last_leader_contact (Raft.node w))) (Raft.election_timeout_min (Raft.node w)).

(** Pre-vote decision: a pre-vote never changes the node, and is granted
    exactly when no leader is active, the requested term is newer, and the
    candidate's log is at least as up to date. *)
Theorem prevote_decision args now w :
  Raft.handle_prevote args now w =
    (Ok (mkPreVoteReply (term w)
       (negb (leader_active now w) && (term w <? pv_term args) &&
        Spec.up_to_date (entries w) (pv_last_log_index args) (pv_last_log_term args))
       (Raft.node_id (Raft.node w))), w).
Proof.
  unfold Raft.handle_prevote, leader_active, Raft.reads, Raft.gets, Storage.get_current_term, bind, get, ret.
  destruct (_ && _); simpl; [done|]. rewrite Z.leb_antisym.
  destruct (_ <? _); simpl; [|done]. rewrite Refine.log_up_to_date_eq. by destruct (Spec.up_to_date _ _ _).
Qed.

(** Vote decision: a vote request of a newer term first makes the node a
    follower of that term without a vote; then the vote is granted exactly when
    the request is of the current term, the node has voted for no other
    candidate in it, and the candidate's log is at least as up to date; a
    granted vote is stored before the reply is produced. *)
Theorem request_vote_decision args now w :
  let t := Z.max (term w) (rv_term args) in
  let voted := if term w <? rv_term args then None else Storage.voted_for (Raft.storage w) in
  let granted := (rv_term args =? t)
    && (bool_decide (voted = None) || bool_decide (voted = Some (rv_candidate_id args)))
    && Spec.up_to_date (entries w) (rv_last_log_index args) (rv_last_log_term args) in
  ∃ w', Raft.handle_request_vote random_fn args now w =
      (Ok (mkRequestVoteReply t granted (Raft.node_id (Raft.node w))), w') ∧
    Raft.storage w' = Storage.mkStorage t (if granted then Some (rv_candidate_id args) else voted) (entries w) ∧
    Raft.state (Raft.node w') = (if term w <? rv_term args then FOLLOWER else Raft.state (Raft.node w)) ∧
    Raft.transport w' = Raft.transport w ∧ Raft.machine w' = Raft.machine w.
Proof.
  intros t voted granted.
  unfold Raft.handle_request_vote, Raft.observe_term, Raft.become_follower, Raft.reset_election_deadline, Raft.random.
  unfold Raft.reads, Raft.gets, Raft.on_storage, Raft.on_node, Storage.get_current_term, Storage.get_voted_for.
  unfold bind, get, modify, ret. unfold granted, voted, t.
  destruct w as [node [tm vf es] tr sm]; simpl. destruct (Z.ltb_spec tm (rv_term args)); simpl.
  - rewrite Z.max_r, Z.eqb_refl, Z.ltb_irrefl by lia. rewrite Refine.log_up_to_date_eq. simpl.
    destruct (Spec.up_to_date _ _ _); eexists; (split; [reflexivity|]); by split_and!.
  - rewrite Z.max_l by lia. destruct (Z.ltb_spec (rv_term args) tm); simpl.
    + rewrite (proj2 (Z.eqb_neq (rv_term args) tm)) by lia. simpl. eexists; (split; [reflexivity|]); by split_and!.
    + assert (rv_term args = tm) as -> by lia. rewrite Z.eqb_refl, Refine.log_up_to_date_eq. simpl.
      destruct (bool_decide (vf = None) || _), (Spec.up_to_date _ _ _);
        eexists; (split; [reflexivity|]); by split_and!.
Qed.
End votes.

(** ** Appending *)

Section append.
Context {C : Type}.
Abbreviation term_at := (@Storage.term_at_of C).
Implicit Types (l es : list (LogEntry C)).

Lemma term_at_app_r l1 l2 i : zlen l1 < i → term_at i (l1 ++ l2) = term_at (i - zlen l1) l2.
Proof.
  intros Hi. pose proof (zlen_nonneg l1). destruct (Z.le_gt_cases i (zlen l1 + zlen l2)) as [Hle|Hgt].
  - destruct (Storage.term_at_inside (i - zlen l1) l2) as (e & He & ->); [lia|].
    apply Storage.term_at_lookup; [lia|]. rewrite lookup_app_r by (unfold zlen in *; lia).
    rewrite <- He. f_equal. unfold zlen in *. lia.
  - rewrite !Storage.term_at_outside; [done|lia|rewrite zlen_app; lia].
Qed.

Lemma term_at_cons e es j : 1 ≤ j → term_at j (e :: es) = if decide (j = 1) then entry_term e else term_at (j - 1) es.
Proof.
  intros Hj. case_decide as H1; [subst; by apply Storage.term_at_lookup|].
  change (e :: es) with ([e] ++ es). rewrite term_at_app_r by (change (zlen [e]) with 1; lia). done.
Qed.

(** The merged log: nothing up to the previous index changes, and after it the
    terms are those of the received entries. *)
Lemma merge_effect es : ∀ idx l, 1 ≤ idx → idx - 1 ≤ zlen l → Logs.positive_terms l →
  pfx (idx - 1) (Spec.merge idx es l) = pfx (idx - 1) l ∧
  idx - 1 + zlen es ≤ zlen (Spec.merge idx es l) ∧
  ∀ j, 1 ≤ j ≤ zlen es → term_at (idx - 1 + j) (Spec.merge idx es l) = term_at j es.
Proof.
  induction es as [|e es IH]; intros idx l Hidx Hlen Hpos; simpl.
  { change (zlen []) with 0. split_and!; [done|lia|]. intros j Hj. lia. }
  rewrite zlen_cons. destruct (Z.eqb_spec (term_at idx l) (-1)) as [Hnone|Hsome].
  { assert (Heq : zlen l = idx - 1).
    { destruct (Z.le_gt_cases idx (zlen l)); [|lia]. specialize (Hpos idx ltac:(lia)). lia. }
    rewrite pfx_app_le, zlen_app, zlen_cons by lia. split_and!; [done|lia|].
    intros j Hj. rewrite term_at_app_r by lia. f_equal. lia. }
  assert (Hin : idx ≤ zlen l).
  { destruct (Z.le_gt_cases idx (zlen l)); [done|]. by rewrite Storage.term_at_outside in Hsome by lia. }
  destruct (Z.eqb_spec (term_at idx l) (entry_term e)) as [He|He]; simpl.
  - destruct (IH (idx + 1) l ltac:(lia) ltac:(lia) Hpos) as (Hp & Hl & Ht).
    replace (idx + 1 - 1) with idx in * by lia. split_and!; [by apply (pfx_agree_le _ idx); [lia|]|lia|].
    intros j Hj. rewrite term_at_cons by lia. case_decide as Hj1.
    + subst j. replace (idx - 1 + 1) with idx by lia. rewrite <- He.
      by apply (Storage.term_at_agree idx idx).
    + rewrite <- Ht by lia. f_equal. lia.
  - assert (Hz : zlen (pfx (idx - 1) l) = idx - 1) by (apply zlen_pfx; lia).
    rewrite pfx_app_le, zlen_app, Hz, zlen_cons, pfx_pfx by lia. split_and!; [done|lia|].
    intros j Hj. rewrite term_at_app_r by lia. f_equal. lia.
Qed.

(** A log that already holds the entries is left alone, whatever follows them. *)
Lemma merge_present es : ∀ idx l, 1 ≤ idx → (∀ j, 1 ≤ j ≤ zlen es → 1 ≤ term_at j es) →
  (∀ j, 1 ≤ j ≤ zlen es → term_at (idx - 1 + j) l = term_at j es) → Spec.merge idx es l = l.
Proof.
  induction es as [|e es IH]; intros idx l Hidx Hpos Ht; simpl; [done|].
  rewrite zlen_cons in *. pose proof (zlen_nonneg es).
  pose proof (Ht 1 ltac:(lia)) as H1. rewrite term_at_cons, decide_True in H1 by (done || lia).
  pose proof (Hpos 1 ltac:(lia)) as Hp1. rewrite term_at_cons, decide_True in Hp1 by (done || lia).
  replace (idx - 1 + 1) with idx in H1 by lia. rewrite H1, Z.eqb_refl.
  rewrite (proj2 (Z.eqb_neq (entry_term e) (-1))) by lia. simpl. apply IH; [lia| |].
  - intros j Hj. specialize (Hpos (j + 1) ltac:(lia)). rewrite term_at_cons, decide_False in Hpos by lia.
    by replace (j + 1 - 1) with j in Hpos by lia.
  - intros j Hj. specialize (Ht (j + 1) ltac:(lia)). rewrite term_at_cons, decide_False in Ht by lia.
    replace (j + 1 - 1) with j in Ht by lia. rewrite <- Ht. f_equal. lia.
Qed.

(** The length of the longest prefix of [es] that the log already holds, term
    by term, from index [idx] on. *)
Fixpoint held (idx : Z) es l : nat :=
  match es with
  | [] => 0
  | e :: rest => if term_at idx l =? entry_term e then Datatypes.S (held (idx + 1) rest l) else 0
  end.

Lemma held_spec es l : ∀ idx, 1 ≤ idx →
  (held idx es l ≤ length es)%nat ∧
  (∀ j, 1 ≤ j ≤ Z.of_nat (held idx es l) → term_at (idx - 1 + j) l = term_at j es) ∧
  ((held idx es l < length es)%nat → term_at (idx + Z.of_nat (held idx es l)) l ≠ term_at (Z.of_nat (held idx es l) + 1) es).
Proof.
  induction es as [|e es IH]; intros idx Hidx; simpl; [split_and!; [lia|intros; lia|lia]|].
  destruct (Z.eqb_spec (term_at idx l) (entry_term e)) as [He|He].
  - destruct (IH (idx + 1) ltac:(lia)) as (H1 & H2 & H3). split_and!; [lia| |].
    + intros j Hj. rewrite term_at_cons by lia. case_decide as Hj1.
      * subst j. by replace (idx - 1 + 1) with idx by lia.
      * rewrite <- H2 by lia. f_equal. lia.
    + intros Hlt. rewrite term_at_cons, decide_False by lia.
      replace (Z.of_nat (Datatypes.S (held (idx + 1) es l)) + 1 - 1) with (Z.of_nat (held (idx + 1) es l) + 1) by lia.
      replace (idx + Z.of_nat (Datatypes.S (held (idx + 1) es l))) with (idx + 1 + Z.of_nat (held (idx + 1) es l)) by lia.
      apply H3. lia.
  - split_and!; [lia|intros; lia|]. intros _. rewrite term_at_cons, decide_True by lia. rewrite Z.add_0_r; exact He.
Qed.

(** The merged log, in terms of what it held before. *)
Lemma merge_held es : ∀ idx l, 1 ≤ idx → idx - 1 ≤ zlen l → Logs.positive_terms l → Logs.positive_terms es →
  Spec.merge idx es l =
    if decide (held idx es l = length es) then l
    else pfx (idx - 1 + Z.of_nat (held idx es l)) l ++ drop (held idx es l) es.
Proof.
  induction es as [|e es IH]; intros idx l Hidx Hlen Hl Hes; [done|]. cbn [Spec.merge held length].
  assert (He : 1 ≤ entry_term e).
  { pose proof (zlen_nonneg es). specialize (Hes 1). rewrite zlen_cons, term_at_cons, decide_True in Hes by lia. lia. }
  assert (Hes' : Logs.positive_terms es).
  { intros j Hj. specialize (Hes (j + 1)). rewrite zlen_cons, term_at_cons, decide_False in Hes by lia.
    replace (j + 1 - 1) with j in Hes by lia. apply Hes. lia. }
  destruct (Z.eqb_spec (term_at idx l) (-1)) as [Hnone|Hsome].
  { rewrite (proj2 (Z.eqb_neq _ _)) by lia. rewrite decide_False by lia. simpl.
    rewrite pfx_all; [done|]. destruct (Z.le_gt_cases idx (zlen l)); [|lia]. specialize (Hl idx ltac:(lia)). lia. }
  assert (Hin : idx ≤ zlen l).
  { destruct (Z.le_gt_cases idx (zlen l)); [done|]. by rewrite Storage.term_at_outside in Hsome by lia. }
  destruct (Z.eqb_spec (term_at idx l) (entry_term e)) as [Ht|Ht].
  - cbn [negb]. rewrite IH by (done || lia). repeat case_decide; try lia; [done|]. cbn [drop]. f_equal. f_equal. lia.
  - cbn [negb drop]. rewrite decide_False by lia. by rewrite Z.add_0_r.
Qed.

(** C40 (the append loop): with the previous entry present, the loop returns,
    and leaves the log as it was when it holds all the received entries, term
    by term, and otherwise the log cut right before the first entry it lacks or
    holds in another term, followed by the received entries from that one on.
    Nothing of a conflicting suffix stays, nothing up to the previous index
    changes, entries that are already there are never truncated, so that a
    duplicated or delayed message cannot drop what was appended since, and
    handling the same message again changes nothing. *)
Theorem append_loop_correct {S T : Type} prev es (w : Raft.World C S T) :
  let l := Storage.entries (Raft.storage w) in
  0 ≤ prev ≤ zlen l → Logs.positive_terms l → Logs.positive_terms es →
  ∃ (k : nat) l', Raft.append_loop (prev + 1) es w = (Ok tt, Refine.with_entries l' w) ∧
    (k ≤ length es)%nat ∧ (∀ j, 1 ≤ j ≤ Z.of_nat k → term_at (prev + j) l = term_at j es) ∧
    (if decide (k = length es) then l' = l
     else term_at (prev + Z.of_nat k + 1) l ≠ term_at (Z.of_nat k + 1) es ∧
          l' = pfx (prev + Z.of_nat k) l ++ drop k es) ∧
    pfx prev l' = pfx prev l ∧
    (∀ j, 1 ≤ j ≤ zlen es → term_at (prev + j) l' = term_at j es) ∧
    Raft.append_loop (prev + 1) es (Refine.with_entries l' w) = (Ok tt, Refine.with_entries l' w).
Proof.
  intros l Hprev Hl Hes. exists (held (prev + 1) es l), (Spec.merge (prev + 1) es l).
  destruct (merge_effect es (prev + 1) l ltac:(lia) ltac:(lia) Hl) as (Hp & Hlen & Ht).
  destruct (held_spec es l (prev + 1) ltac:(lia)) as (Hk & Hheld & Hnext).
  pose proof (merge_held es (prev + 1) l ltac:(lia) ltac:(lia) Hl Hes) as Hm.
  replace (prev + 1 - 1) with prev in * by lia. split_and!; [|done|done| |done|done|].
  - by rewrite Refine.append_loop_eq by lia.
  - destruct (decide _); [exact Hm|]. split; [|exact Hm]. replace (prev + Z.of_nat (held (prev + 1) es l) + 1)
      with (prev + 1 + Z.of_nat (held (prev + 1) es l)) by lia. apply Hnext. lia.
  - rewrite Refine.append_loop_eq by lia. simpl. rewrite merge_present; [done|lia|done|].
    by replace (prev + 1 - 1) with prev by lia.
Qed.
End append.

Lemma append_loop_correct_witness :
  let l := [mkEntry 1 1 "x"; mkEntry 1 2 "y"; mkEntry 1 3 "z"] in
  let es := [mkEntry 2 2 "v"] in
  let w := Raft.mkWorld (Raft.new_node "b" [] F.zero F.zero F.zero) (Storage.mkStorage 2 None l)
             ([] : Trace.Trace string) tt in
  ∃ (k : nat) l', Raft.append_loop 2 es w = (Ok tt, Refine.with_entries l' w) ∧
    (if decide (k = 1%nat) then l' = l else l' = pfx (1 + Z.of_nat k) l ++ drop k es) ∧ pfx 1 l' = [mkEntry 1 1 "x"] ∧
    Raft.append_loop 2 es (Refine.with_entries l' w) = (Ok tt, Refine.with_entries l' w).
Proof.
  cbv zeta. set (w := Raft.mkWorld _ _ _ _).
  destruct (append_loop_correct 1 [mkEntry 2 2 "v"] w) as (k & l' & H1 & _ & _ & H2 & H3 & _ & H4).
  - split; vm_compute; discriminate.
  - intros i [Hi1 Hi2].
    assert (i = 1 ∨ i = 2 ∨ i = 3) as [->|[->| ->]] by (change (zlen _) with 3 in Hi2; lia);
      vm_compute; discriminate.
  - intros i [Hi1 Hi2]. assert (i = 1) as -> by (change (zlen _) with 1 in Hi2; lia). vm_compute. discriminate.
  - exists k, l'. split; [exact H1|]. change (length _) with 1%nat in H2. split; [|by split].
    destruct (decide (k = 1%nat)); [exact H2|exact (proj2 H2)].
Defined.

(** ** Backtracking after a rejected append *)

Section backtrack.
Context {C : Type}.
Abbreviation term_at := (@Storage.term_at_of C).
Implicit Types l : list (LogEntry C).

Definition sorted_terms l : Prop := ∀ i j, 1 ≤ i ≤ j → j ≤ zlen l → term_at i l ≤ term_at j l.

Lemma first_index_loop_spec fuel t l : ∀ idx, 0 ≤ idx ≤ Z.of_nat fuel →
  let r := Raft.first_index_loop fuel t idx l in
  1 ≤ r ≤ idx + 1 ∧ (∀ k, r ≤ k ≤ idx → term_at k l = t) ∧ (1 < r → term_at (r - 1) l ≠ t).
Proof.
  induction fuel as [|fuel IH]; intros idx Hidx; simpl.
  { split_and!; [lia|lia|intros ?; lia|lia]. }
  destruct (Z.ltb_spec 0 idx) as [Hpos|Hz]; simpl; [|split_and!; intros; lia].
  destruct (Z.eqb_spec (term_at idx l) t) as [Ht|Ht].
  - destruct (IH (idx - 1) ltac:(lia)) as (H1 & H2 & H3). split_and!; [lia|lia| |done].
    intros k Hk. destruct (Z.eq_dec k idx) as [->|]; [done|]. apply H2. lia.
  - split_and!; [lia|lia|intros; lia|]. intros _. by replace (idx + 1 - 1) with idx by lia.
Qed.

Lemma last_index_loop_spec fuel t l : sorted_terms l → ∀ idx, 0 ≤ idx ≤ zlen l → idx ≤ Z.of_nat fuel →
  let r := Raft.last_index_loop fuel t idx l in
  0 ≤ r ≤ idx ∧ (0 < r → term_at r l = t) ∧ ∀ k, r < k ≤ idx → term_at k l ≠ t.
Proof.
  intros Hs. induction fuel as [|fuel IH]; intros idx Hidx Hf; simpl.
  { split_and!; [lia|lia|lia|intros; lia]. }
  destruct (Z.ltb_spec 0 idx) as [Hpos|Hz]; [|split_and!; intros; lia].
  destruct (Z.eqb_spec (term_at idx l) t) as [Ht|Ht]; [split_and!; [lia|lia|done|intros; lia]|].
  destruct (Z.ltb_spec (term_at idx l) t) as [Hlt|Hge].
  - split_and!; [lia|lia|lia|]. intros k Hk. pose proof (Hs k idx ltac:(lia) ltac:(lia)). lia.
  - destruct (IH (idx - 1) ltac:(lia) ltac:(lia)) as (H1 & H2 & H3). split_and!; [lia|lia|done|].
    intros k Hk. destruct (Z.eq_dec k idx) as [->|]; [done|]. apply H3. lia.
Qed.

(** Index searches: on a log whose terms never decrease,
    [_first_index_of_term] returns the first index of the run of equal terms
    that ends at the given index, and [_last_index_of_term] the last index with
    the given term, or 0 when no entry has it; both loops finish within the
    index they start from. *)
Theorem index_searches_correct l t from :
  sorted_terms l → 0 ≤ from ≤ zlen l →
  (let r := Raft.first_index_of t from l in
   1 ≤ r ≤ from + 1 ∧ (∀ k, r ≤ k ≤ from → term_at k l = t) ∧ (1 < r → term_at (r - 1) l ≠ t)) ∧
  (let r := Raft.last_index_of t l in
   0 ≤ r ≤ zlen l ∧ (0 < r → term_at r l = t) ∧ ∀ k, r < k ≤ zlen l → term_at k l ≠ t).
Proof.
  intros Hs Hf. split.
  - apply first_index_loop_spec. lia.
  - apply last_index_loop_spec; unfold zlen in *; [done|lia|lia].
Qed.
End backtrack.

Lemma index_searches_correct_witness :
  let l := [mkEntry 1 1 "x"; mkEntry 3 2 "y"; mkEntry 3 3 "z"] in
  Raft.first_index_of 3 3 l = 2 ∧ Raft.last_index_of 1 l = 1 ∧ 0 ≤ Raft.last_index_of 2 l ≤ 3.
Proof.
  cbv zeta. split; [vm_compute; reflexivity|]. split; [vm_compute; reflexivity|].
  apply (index_searches_correct [mkEntry 1 1 "x"; mkEntry 3 2 "y"; mkEntry 3 3 "z"] 2 3).
  - intros i j Hij Hj. change (zlen _) with 3 in Hj.
    assert (i = 1 ∨ i = 2 ∨ i = 3) as [->|[->| ->]] by lia;
    assert (j = 1 ∨ j = 2 ∨ j = 3) as [->|[->| ->]] by lia; first [vm_compute; discriminate|lia].
  - split; vm_compute; discriminate.
Defined.

Section progress.
Context {C S T : Type} {Hsm : StateMachine C S}.
Context {Htr : Transport C T} {Hnet : Network C T} {Hlaws : NetworkLaws C T}.
Variables tmin tmax hb : float.
Variable ids : list string.
Hypothesis Hids : NoDup ids.
Variable sm0 : S.
Variable t0 : T.
Hypothesis Ht0 : net_sent t0 [].
Abbreviation start := (Cluster.init tmin tmax hb ids sm0 t0).
Abbreviation log_of s := (Storage.entries (Cluster.slot_storage s)).
Abbreviation term_at := (@Storage.term_at_of C).

(** On two logs of one history, the last entry of the follower's conflicting
    term lies before the conflict in the leader's log. *)
Lemma conflict_term_before G F L prev :
  (∀ t i, 1 ≤ i ≤ zlen (Spec.tlog G t) → 1 ≤ term_at i (Spec.tlog G t) ≤ t) →
  (∀ t, Spec.good_log G (Spec.tlog G t)) →
  Spec.good_log G F → Spec.good_log G L → 1 ≤ prev ≤ zlen L → prev ≤ zlen F →
  term_at prev F ≠ term_at prev L → Raft.last_index_of (term_at prev F) L < prev.
Proof.
  intros Hterms Hgood HF HL Hprev HpF Hne.
  assert (Hs : sorted_terms L) by (intros i j ? ?; by apply (Logs.good_log_sorted G Hterms)).
  pose proof (last_index_loop_spec (length L) (term_at prev F) L Hs (zlen L)) as Hlast.
  unfold Raft.last_index_of. destruct Hlast as (H1 & H2 & _); [lia|unfold zlen; lia|].
  set (li := Raft.last_index_loop _ _ _ _) in *.
  destruct (Z.lt_ge_cases li prev) as [|Hge]; [done|]. exfalso. apply Hne.
  specialize (H2 ltac:(lia)). destruct (HL li ltac:(lia)) as [_ HLp]. destruct (HF prev ltac:(lia)) as [_ HFp].
  rewrite H2 in HLp. apply (pfx_agree_le prev) in HLp; [|lia].
  apply (Storage.term_at_agree prev prev); [|lia|lia]. by rewrite HFp, HLp.
Qed.

(** What the leader does with the conflict of a rejected append. *)
Definition next_after_conflict (F L : list (LogEntry C)) (prev : Z) : Z :=
  if term_at prev F =? -1 then Z.max 1 (zlen F + 1)
  else if 0 <? Raft.last_index_of (term_at prev F) L then Raft.last_index_of (term_at prev F) L + 1
  else Raft.first_index_of (term_at prev F) prev F.

Lemma next_after_conflict_bounds evs evs' id1 id2 s1 s2 prev :
  Cluster.slots (Cluster.run tmin tmax hb ids evs start) !! id1 = Some s1 →
  Cluster.slots (Cluster.run tmin tmax hb ids (evs ++ evs') start) !! id2 = Some s2 →
  1 ≤ prev ≤ zlen (log_of s2) → term_at prev (log_of s1) ≠ term_at prev (log_of s2) →
  1 ≤ next_after_conflict (log_of s1) (log_of s2) prev ≤ prev.
Proof.
  intros H1 H2 Hprev Hne.
  destruct (two_points_any tmin tmax hb ids Hids sm0 t0 Ht0 evs evs') as (G & G' & Hf & Hf' & HI & HI' & Hs).
  destruct (slot_ok _ _ _ _ _ _ _ Hf HI H1) as (_ & Hg1 & _).
  destruct (slot_ok _ _ _ _ _ _ _ Hf' HI' H2) as (_ & Hg2 & _).
  apply (History.cstep_good_log _ _ _ _ _ HI Hs) in Hg1. unfold next_after_conflict.
  assert (Hterms : ∀ t i, 1 ≤ i ≤ zlen (Spec.tlog G' t) → 1 ≤ term_at i (Spec.tlog G' t) ≤ t)
    by (intros t; apply (Inv.to_terms _ _ _ (Inv.i_term _ _ HI' t))).
  assert (Hgood : ∀ t, Spec.good_log G' (Spec.tlog G' t))
    by (intros t; apply (Inv.to_good _ _ _ (Inv.i_term _ _ HI' t))).
  pose proof (zlen_nonneg (log_of s1)).
  destruct (Z.le_gt_cases prev (zlen (log_of s1))) as [Hin|Hout].
  - pose proof (Logs.good_log_positive G' Hterms _ Hg1 prev ltac:(lia)).
    rewrite (proj2 (Z.eqb_neq _ _)) by lia.
    pose proof (conflict_term_before G' _ _ prev Hterms Hgood Hg1 Hg2 Hprev Hin Hne).
    case_match eqn:E; [apply Z.ltb_lt in E; lia|].
    pose proof (first_index_loop_spec (Z.to_nat prev) (term_at prev (log_of s1)) (log_of s1) prev ltac:(lia)) as Hfi.
    unfold Raft.first_index_of. cbv zeta in Hfi. destruct Hfi as (Hr & _ & Hbefore). split; [lia|].
    destruct (Z.eq_dec (Raft.first_index_loop (Z.to_nat prev) (term_at prev (log_of s1)) prev (log_of s1)) (prev + 1))
      as [Heq|]; [|lia]. rewrite Heq in Hbefore. exfalso. apply Hbefore; [lia|]. by replace (prev + 1 - 1) with prev by lia.
  - rewrite Storage.term_at_outside by lia. simpl. lia.
Qed.

(** The same for an attempt past the end of the leader's own log, which a
    peer always refuses. *)
Lemma next_after_conflict_beyond F L prev :
  Logs.positive_terms F → sorted_terms L → 1 ≤ prev → zlen L < prev → 1 ≤ next_after_conflict F L prev ≤ prev.
Proof.
  intros HF HL Hprev Hlen. pose proof (zlen_nonneg L). pose proof (zlen_nonneg F). unfold next_after_conflict.
  destruct (Z.eqb_spec (term_at prev F) (-1)) as [E|E].
  - destruct (Z.le_gt_cases prev (zlen F)) as [Hin|]; [|lia]. specialize (HF prev ltac:(lia)). lia.
  - pose proof (last_index_loop_spec (length L) (term_at prev F) L HL (zlen L)) as (H1 & _); [lia|unfold zlen; lia|].
    unfold Raft.last_index_of. case_match eqn:Eq; [apply Z.ltb_lt in Eq; lia|].
    pose proof (first_index_loop_spec (Z.to_nat prev) (term_at prev F) F prev ltac:(lia)) as Hfi.
    unfold Raft.first_index_of. cbv zeta in Hfi. destruct Hfi as (Hr & Hrun & Hb). split; [lia|].
    destruct (Z.eq_dec (Raft.first_index_loop (Z.to_nat prev) (term_at prev F) prev F) (prev + 1))
      as [Heq|]; [|lia]. rewrite Heq in Hb. exfalso. apply Hb; [lia|]. by replace (prev + 1 - 1) with prev by lia.
Qed.

(** What hearing from a leader of the term changes before the consistency
    check: the log, the indices, the machine and the transport are as before. *)
Record heard (t : Z) (w w2 : Raft.World C S T) : Prop := {
  hd_term : Storage.current_term (Raft.storage w2) = t;
  hd_entries : Storage.entries (Raft.storage w2) = Storage.entries (Raft.storage w);
  hd_id : Raft.node_id (Raft.node w2) = Raft.node_id (Raft.node w);
  hd_commit : Raft.commit_index (Raft.node w2) = Raft.commit_index (Raft.node w);
  hd_applied : Raft.last_applied (Raft.node w2) = Raft.last_applied (Raft.node w);
  hd_transport : Raft.transport w2 = Raft.transport w;
  hd_machine : Raft.machine w2 = Raft.machine w
}.

(** The consistency check of an append from a current leader. *)
Lemma handle_append_entries_eq rnd args now (w : Raft.World C S T) :
  Storage.current_term (Raft.storage w) ≤ ae_term args →
  let F := Storage.entries (Raft.storage w) in
  let prev := ae_prev_log_index args in
  let id := Raft.node_id (Raft.node w) in
  ∃ w2, heard (ae_term args) w w2 ∧ Raft.handle_append_entries rnd args now w =
    if negb (0 <? prev) then Raft.append_and_commit args (ae_term args) w2
    else if term_at prev F =? -1 then
      (Ok (mkAppendEntriesReply (ae_term args) false id 0 (zlen F + 1) (-1)), w2)
    else if negb (term_at prev F =? ae_prev_log_term args) then
      (Ok (mkAppendEntriesReply (ae_term args) false id 0 (Raft.first_index_of (term_at prev F) prev F)
             (term_at prev F)), w2)
    else Raft.append_and_commit args (ae_term args) w2.
Proof.
  intros Hterm F prev id.
  unfold Raft.handle_append_entries, Raft.observe_term, Raft.become_follower, Raft.reset_election_deadline,
    Raft.random, Raft.on_storage, Raft.on_node, Raft.reads, Raft.gets, Storage.get_current_term.
  unfold bind, get, modify, ret. destruct w as [node [tm vf es] tr sm]. simpl in *.
  destruct (Z.ltb_spec tm (ae_term args)); simpl.
  - rewrite Z.ltb_irrefl. simpl. eexists. unfold prev, F. destruct (0 <? _); simpl; [|by split; [|reflexivity]].
    unfold Storage.term_at. simpl. destruct (_ =? -1); [by split; [|reflexivity]|].
    destruct (negb _); by split; [|reflexivity].
  - assert (tm = ae_term args) as -> by lia. rewrite Z.ltb_irrefl. simpl.
    eexists. unfold prev, F. destruct (0 <? _); simpl; [|by split; [|reflexivity]].
    unfold Storage.term_at. simpl. destruct (_ =? -1); [by split; [|reflexivity]|].
    destruct (negb _); by split; [|reflexivity].
Qed.

Lemma append_and_commit_success args t (w w' : Raft.World C S T) reply :
  Raft.append_and_commit args t w = (Ok reply, w') → aer_success reply = true.
Proof.
  unfold Raft.append_and_commit. intros Hr.
  repeat (apply bind_ok in Hr as (? & ? & _ & Hr)). by injection Hr as <- _.
Qed.

Lemma append_refused rnd args now (w w' : Raft.World C S T) reply :
  Raft.handle_append_entries rnd args now w = (Ok reply, w') → aer_success reply = false →
  Storage.current_term (Raft.storage w) ≤ ae_term args →
  let F := Storage.entries (Raft.storage w) in
  let prev := ae_prev_log_index args in
  0 < prev ∧ aer_term reply = ae_term args ∧
  (term_at prev F = -1 ∧ aer_conflict_term reply = -1 ∧ aer_conflict_index reply = zlen F + 1 ∨
   term_at prev F ≠ -1 ∧ term_at prev F ≠ ae_prev_log_term args ∧ aer_conflict_term reply = term_at prev F ∧
   aer_conflict_index reply = Raft.first_index_of (term_at prev F) prev F).
Proof.
  intros Hr Hf Hterm F prev. destruct (handle_append_entries_eq rnd args now w Hterm) as (w2 & _ & E).
  cbv zeta in E. rewrite Hr in E. fold F prev in E.
  destruct (Z.ltb_spec 0 prev) as [Hp|]; simpl in E.
  2: { symmetry in E. apply append_and_commit_success in E. congruence. }
  destruct (Z.eqb_spec (term_at prev F) (-1)).
  { injection E as -> _. split_and!; [done|done|left]. by split_and!. }
  destruct (Z.eqb_spec (term_at prev F) (ae_prev_log_term args)); simpl in E.
  - symmetry in E. apply append_and_commit_success in E. congruence.
  - injection E as -> _. split_and!; [done|done|right]. by split_and!.
Qed.

(** What a leader does with the refusal of a peer: it moves the peer's
    [next_index] and sends again. *)
Lemma refused_reply_eq rnd id reply now (w : Raft.World C S T) :
  Raft.state (Raft.node w) = LEADER → aer_term reply = Storage.current_term (Raft.storage w) →
  aer_success reply = false →
  let k := if aer_conflict_term reply =? -1 then Z.max 1 (aer_conflict_index reply)
           else let li := Raft.last_index_of (aer_conflict_term reply) (Storage.entries (Raft.storage w)) in
                if 0 <? li then li + 1 else aer_conflict_index reply in
  Raft.handle_append_entries_reply rnd id reply now w =
    Raft.send_append_entries_to id now
      (Raft.mkWorld (Raft.set_next_index (<[id := k]> (Raft.next_index (Raft.node w))) (Raft.node w))
         (Raft.storage w) (Raft.transport w) (Raft.machine w)).
Proof.
  intros Hl Ht Hf k.
  unfold Raft.handle_append_entries_reply, Raft.stepped_down, Raft.reads, Raft.gets, Storage.get_current_term.
  unfold bind at 1 2, get at 1. rewrite Ht, Z.ltb_irrefl. unfold ret, bind at 1 2, get at 1 2. simpl.
  rewrite Hl, bool_decide_false, Z.eqb_refl, Hf by (intros []; done). simpl. unfold k.
  by destruct (_ =? -1).
Qed.

Lemma refused_reply_next rnd id reply now (w : Raft.World C S T) :
  Raft.state (Raft.node w) = LEADER → aer_term reply = Storage.current_term (Raft.storage w) →
  aer_success reply = false →
  Raft.next_index (Raft.node (Raft.handle_append_entries_reply rnd id reply now w).2) !! id =
    Some (if aer_conflict_term reply =? -1 then Z.max 1 (aer_conflict_index reply)
          else let li := Raft.last_index_of (aer_conflict_term reply) (Storage.entries (Raft.storage w)) in
               if 0 <? li then li + 1 else aer_conflict_index reply).
Proof.
  intros Hl Ht Hf. rewrite (refused_reply_eq rnd id reply now w Hl Ht Hf). cbv zeta.
  match goal with |- context [Raft.set_next_index (<[id := ?x]> _) _] => generalize x as k end. intros k.
  unfold Raft.send_append_entries_to, Raft.send, Raft.reads, Raft.gets, bind, get, modify. simpl. by rewrite lookup_insert_eq.
Qed.

(** Backtracking makes progress: when a follower refuses an append of
    the leader of its term because of the entry before it, the leader's reply
    handler moves its [next_index] for that follower to a value between 1 and
    the refused previous index, strictly below the refused attempt, whatever
    happened in between: retries terminate and never go below the first
    entry. *)
Theorem backtracking_progress evs evs' id1 id2 s1 s2 rnd rnd' args now now' (t1 t2 : T) w1' reply :
  Cluster.slots (Cluster.run tmin tmax hb ids evs start) !! id1 = Some s1 →
  Cluster.slots (Cluster.run tmin tmax hb ids (evs ++ evs') start) !! id2 = Some s2 →
  Raft.handle_append_entries rnd args now (Cluster.world s1 t1) = (Ok reply, w1') →
  aer_success reply = false → Storage.current_term (Cluster.slot_storage s1) ≤ ae_term args →
  let L := Storage.entries (Cluster.slot_storage s2) in
  let prev := ae_prev_log_index args in
  prev ≤ zlen L → ae_prev_log_term args = term_at prev L →
  Raft.state (Cluster.slot_node s2) = LEADER → Storage.current_term (Cluster.slot_storage s2) = ae_term args →
  ∃ k, Raft.next_index (Raft.node (Raft.handle_append_entries_reply rnd' id1 reply now' (Cluster.world s2 t2)).2)
         !! id1 = Some k ∧ 1 ≤ k < prev + 1.
Proof.
  intros H1 H2 Hr Hf Hterm L prev Hprev Hpt Hl Ht2.
  destruct (append_refused _ _ _ _ _ _ Hr Hf Hterm) as (Hp & Ht & Hc). simpl in Hc. fold prev in Hp, Hc.
  assert (Hpl : 1 ≤ prev ≤ zlen (log_of s2)) by (split; [lia|exact Hprev]).
  eexists. split; [apply refused_reply_next; simpl; [done|congruence|done]|]. simpl. fold L.
  assert (Hne : term_at prev (log_of s1) ≠ term_at prev L).
  { destruct Hc as [(E & _)|(_ & E & _)]; [|congruence]. rewrite E.
    destruct (one_point_any tmin tmax hb ids Hids sm0 t0 Ht0 (evs ++ evs')) as (G & Hfr & HI).
    destruct (slot_ok _ _ _ _ _ _ _ Hfr HI H2) as (_ & Hg & _).
    pose proof (Logs.good_log_positive G (λ t, Inv.to_terms _ _ _ (Inv.i_term _ _ HI t)) _ Hg prev Hpl).
    fold L in H. lia. }
  pose proof (next_after_conflict_bounds evs evs' id1 id2 s1 s2 prev H1 H2 Hpl Hne) as Hb.
  unfold next_after_conflict in Hb. fold L in Hb.
  destruct Hc as [(E & E1 & E2)|(E & _ & E1 & E2)]; rewrite E1, E2.
  - rewrite E, Z.eqb_refl in Hb. rewrite Z.eqb_refl. lia.
  - rewrite (proj2 (Z.eqb_neq (term_at prev (log_of s1)) (-1))) in * by done. lia.
Qed.
End progress.

Lemma backtracking_progress_witness :
  let s2 := Demo.slot "a" (Demo.after (Demo.elect ++ Demo.settle)) in
  let reply := mkAppendEntriesReply 1 false "c" 0 1 (-1) in
  ∃ k, Raft.next_index (Raft.node (Raft.handle_append_entries_reply Demo.high "c" reply F.zero
         (Cluster.world s2 (Net.init (C := LedgerEntry)))).2) !! "c" = Some k ∧ 1 ≤ k < 2 + 1.
Proof.
  cbv zeta.
  apply (backtracking_progress Demo.tmin Demo.tmax Demo.hb Demo.ids Demo.ids_nodup (Ledger.init ∅) Net.init
    Net.queued_init Demo.elect Demo.settle "c" "a"
    (Demo.slot "c" (Demo.after Demo.elect)) (Demo.slot "a" (Demo.after (Demo.elect ++ Demo.settle)))
    Demo.high Demo.high (mkAppendEntriesArgs 1 "a" 2 1 [] 0) F.zero F.zero Net.init Net.init
    (Raft.handle_append_entries Demo.high (mkAppendEntriesArgs 1 "a" 2 1 [] 0) F.zero
       (Cluster.world (Demo.slot "c" (Demo.after Demo.elect)) Net.init)).2
    (mkAppendEntriesReply 1 false "c" 0 1 (-1)));
    vm_compute; reflexivity || discriminate.
Defined.

(** ** Where the code departs from its comments *)

(** A stable leader grants pre-votes: [handle_prevote] is meant to refuse
    while a leader is active, but a leader never updates its own
    [_last_leader_contact]; a leader that has not itself followed another
    leader within the election timeout grants the pre-vote of every up-to-date
    candidate, while it is leading. *)
Theorem leader_grants_prevote {C S T : Type} (args : PreVoteArgs) now (w : Raft.World C S T) :
  Raft.state (Raft.node w) = LEADER →
  F.lt (F.sub now (Raft.last_leader_contact (Raft.node w))) (Raft.election_timeout_min (Raft.node w)) = false →
  Storage.current_term (Raft.storage w) < pv_term args →
  Spec.up_to_date (Storage.entries (Raft.storage w)) (pv_last_log_index args) (pv_last_log_term args) = true →
  ∃ reply, Raft.handle_prevote args now w = (Ok reply, w) ∧ pvr_vote_granted reply = true ∧
    pvr_voter_id reply = Raft.node_id (Raft.node w).
Proof.
  intros _ Hc Ht Hu. unfold Raft.handle_prevote, Raft.reads, Raft.gets, Storage.get_current_term, bind, get, ret.
  rewrite Hc, andb_false_r. rewrite (proj2 (Z.leb_gt _ _)) by lia.
  rewrite Refine.log_up_to_date_eq, Hu. simpl. by eexists.
Qed.

Lemma leader_grants_prevote_witness :
  let w := Cluster.world (Demo.slot "a" (Demo.after Demo.isolate)) (Net.init (C := LedgerEntry)) in
  ∃ reply, Raft.handle_prevote (mkPreVoteArgs 2 "c" 0 0) (F.of_Z 461) w = (Ok reply, w) ∧
    pvr_vote_granted reply = true ∧ pvr_voter_id reply = Raft.node_id (Raft.node w).
Proof. apply leader_grants_prevote; vm_compute; reflexivity. Defined.

(** A reconnecting node deposes a stable leader: in a three-node cluster
    whose leader [a] has exchanged heartbeats with [b] throughout, a node [c]
    that was partitioned and reconnects with the same term and log, and times
    out before the next heartbeat reaches it, wins a pre-vote round with the
    leader's own vote, although [b] refuses; [a] then steps down in favour of
    the new term.  This is the disruption that pre-voting exists to prevent. *)
Theorem rejoining_node_deposes_leader :
  let before := Demo.after Demo.isolate in
  let after := Demo.after (Demo.isolate ++ Demo.depose) in
  Raft.state (Cluster.slot_node (Demo.slot "a" before)) = LEADER ∧
  Raft.leader_id (Cluster.slot_node (Demo.slot "b" before)) = Some "a" ∧
  F.lt (F.sub (F.of_Z 462) (Raft.last_leader_contact (Cluster.slot_node (Demo.slot "b" before)))) Demo.tmin = true ∧
  Storage.current_term (Cluster.slot_storage (Demo.slot "c" before)) =
    Storage.current_term (Cluster.slot_storage (Demo.slot "a" before)) ∧
  Raft.prevotes_received (Cluster.slot_node (Demo.slot "c" after)) = {["a"; "c"]} ∧
  Raft.state (Cluster.slot_node (Demo.slot "a" after)) = FOLLOWER ∧
  Storage.current_term (Cluster.slot_storage (Demo.slot "a" after)) = 2.
Proof. vm_compute. by split_and!. Qed.

Section quiet.
Context {C S T : Type} {Hsm : StateMachine C S} {Htr : Transport C T}.
Variable random_fn : nat → float → float → float.
Abbreviation World := (Raft.World C S T).

(** Sending changes neither the node nor its storage. *)
Lemma broadcast_keeps (f : string → Message C) (l : list string) (w : World) :
  wp (for_each (λ p, Raft.send p (f p)) l)
    (λ _ w', Raft.node w' = Raft.node w ∧ Raft.storage w' = Raft.storage w ∧ Raft.machine w' = Raft.machine w) w.
Proof.
  apply (wp_for_each _ l (λ w', Raft.node w' = Raft.node w ∧ Raft.storage w' = Raft.storage w ∧
    Raft.machine w' = Raft.machine w)); [|by split_and!].
  intros p v _ (E1 & E2 & E3). apply wp_modify. by split_and!.
Qed.

Lemma broadcast_append_entries_keeps now (w : World) :
  wp (Raft.broadcast_append_entries now)
    (λ _ w', Raft.state (Raft.node w') = Raft.state (Raft.node w) ∧
       Raft.commit_index (Raft.node w') = Raft.commit_index (Raft.node w) ∧
       Raft.storage w' = Raft.storage w ∧ Raft.machine w' = Raft.machine w) w.
Proof.
  unfold Raft.broadcast_append_entries, Raft.gets, Raft.on_node. py_run.
  eapply wp_mono; [apply (wp_for_each _ _ (λ w', Raft.state (Raft.node w') = Raft.state (Raft.node w) ∧
    Raft.commit_index (Raft.node w') = Raft.commit_index (Raft.node w) ∧
    Raft.storage w' = Raft.storage w ∧ Raft.machine w' = Raft.machine w)); [|by split_and!]|done].
  intros p v _ (E1 & E2 & E3 & E4). unfold Raft.send_append_entries_to, Raft.gets, Raft.reads, Raft.send.
  py_run. by split_and!.
Qed.

(** A candidacy moves the node to the next term and out of the follower state. *)
Lemma become_candidate_effect now (w : World) :
  wp (Raft.become_candidate random_fn now)
    (λ _ w', Storage.current_term (Raft.storage w') = Storage.current_term (Raft.storage w) + 1 ∧
       Raft.state (Raft.node w') ≠ FOLLOWER ∧
       Raft.commit_index (Raft.node w') = Raft.commit_index (Raft.node w)) w.
Proof.
  unfold Raft.become_candidate, Raft.reset_election_deadline, Raft.random, Raft.broadcast_request_vote,
    Raft.maybe_become_leader_from_votes, Raft.gets, Raft.reads, Raft.on_storage, Raft.on_node.
  py_run. eapply wp_mono; [apply broadcast_keeps|].
  intros [] w1 (E1 & E2 & E3). py_run. rewrite E1. simpl. py_run.
  apply wp_when; intros _; [|by rewrite E1, E2].
  unfold Raft.become_leader, Raft.gets, Raft.reads, Raft.on_node. py_run.
  eapply wp_mono; [apply broadcast_append_entries_keeps|]. simpl.
  intros [] w2 (F1 & F2 & F3 & _). rewrite F1, F2, F3, E1, E2. by split_and!.
Qed.

(** Stale pre-votes are counted: the comment in [_handle_prevote_reply]
    says replies are ignored once the node has heard from a leader.  They are
    not: a granted reply that completes the majority starts a candidacy in the
    next term even when a leader of the current term has been heard from since
    the round began. *)
Theorem stale_prevote_campaigns reply now (w : World) leader :
  Raft.state (Raft.node w) = FOLLOWER → Raft.leader_id (Raft.node w) = Some leader →
  Raft.prevote_target_term (Raft.node w) = Storage.current_term (Raft.storage w) + 1 →
  pvr_term reply ≤ Storage.current_term (Raft.storage w) → pvr_vote_granted reply = true →
  Raft.majority_of (Raft.peer_ids (Raft.node w)) ≤
    Z.of_nat (size (Raft.prevotes_received (Raft.node w) ∪ {[pvr_voter_id reply]})) →
  ∃ w', Raft.handle_prevote_reply random_fn reply now w = (Ok tt, w') ∧
    Storage.current_term (Raft.storage w') = Storage.current_term (Raft.storage w) + 1 ∧
    Raft.state (Raft.node w') ≠ FOLLOWER.
Proof.
  intros Hst _ Htg Ht Hg Hmaj.
  assert (H : wp (Raft.handle_prevote_reply random_fn reply now)
    (λ _ w', Storage.current_term (Raft.storage w') = Storage.current_term (Raft.storage w) + 1 ∧
       Raft.state (Raft.node w') ≠ FOLLOWER) w).
  { unfold Raft.handle_prevote_reply, Raft.stepped_down, Raft.gets, Raft.reads, Raft.on_node,
      Storage.get_current_term. py_run. rewrite (proj2 (Z.ltb_ge _ _)) by lia. py_run.
    rewrite Hst, Htg, Z.eqb_refl, bool_decide_false, Hg by (intros []; done). simpl. py_run.
    unfold Raft.maybe_win_prevote, Raft.gets. py_run. apply wp_when; simpl; [|lia].
    intros _. eapply wp_mono; [apply become_candidate_effect|]. simpl. by intros [] w' (? & ? & _). }
  apply wp_inv in H as ([] & w' & E & H1 & H2). by exists w'.
Qed.
(** A node without peers: it sends nothing and commits nothing. *)
Definition alone (t : T) (w : World) : Prop :=
  Raft.peer_ids (Raft.node w) = [] ∧ Raft.commit_index (Raft.node w) = 0 ∧
  Raft.last_applied (Raft.node w) = 0 ∧ Raft.transport w = t.

Ltac alone_run := unfold Raft.gets, Raft.reads, Raft.on_node, Raft.on_storage; py_run.

Lemma alone_reset t now w :
  alone t w → wp (Raft.reset_election_deadline random_fn now) (λ _, alone t) w.
Proof. intros Hw. unfold Raft.reset_election_deadline, Raft.random. alone_run. apply Hw. Qed.

Lemma alone_broadcast_append t now w : alone t w → wp (Raft.broadcast_append_entries now) (λ _, alone t) w.
Proof. intros Hw. unfold Raft.broadcast_append_entries. alone_run. simpl. rewrite (proj1 Hw). apply Hw. Qed.

Lemma alone_maybe_lead t now w : alone t w → wp (Raft.maybe_become_leader_from_votes now) (λ _, alone t) w.
Proof.
  intros Hw. unfold Raft.maybe_become_leader_from_votes. alone_run. case_bool_decide; [by py_run|]. py_run.
  apply wp_when; intros _; [|done]. unfold Raft.become_leader. alone_run. by apply alone_broadcast_append.
Qed.

Lemma alone_campaign t now w : alone t w → wp (Raft.become_candidate random_fn now) (λ _, alone t) w.
Proof.
  intros Hw. unfold Raft.become_candidate. alone_run.
  eapply wp_mono; [by apply alone_reset|]. intros [] w1 Hw1.
  unfold Raft.broadcast_request_vote. alone_run. rewrite (proj1 Hw1). simpl. py_run. by apply alone_maybe_lead.
Qed.

Lemma alone_prevote t now w : alone t w → wp (Raft.start_prevote random_fn now) (λ _, alone t) w.
Proof.
  intros Hw. unfold Raft.start_prevote. alone_run.
  eapply wp_mono; [by apply alone_reset|]. intros [] w1 Hw1. py_run. rewrite (proj1 Hw1). simpl. py_run.
  unfold Raft.maybe_win_prevote. alone_run. apply wp_when; intros _; [by apply alone_campaign|done].
Qed.

Lemma alone_tick t now w : alone t w → wp (Raft.tick random_fn now) (λ _, alone t) w.
Proof.
  intros Hw. unfold Raft.tick. alone_run.
  case_bool_decide; py_run; apply wp_when; intros _; [by apply alone_broadcast_append|done|by apply alone_prevote|done].
Qed.

Lemma alone_propose t c now w : alone t w → wp (Raft.propose c now) (λ _, alone t) w.
Proof.
  intros Hw. unfold Raft.propose. alone_run. case_bool_decide; [by py_run|]. alone_run.
  eapply wp_mono; [by apply alone_broadcast_append|]. intros [] w1 Hw1. by py_run.
Qed.
End quiet.

Section single.
Context {C S T : Type} {Hsm : StateMachine C S}.
Context {Htr : Transport C T} {Hnet : Network C T} {Hlaws : NetworkLaws C T}.
Variables tmin tmax hb : float.
Variable id : string.
Variable sm0 : S.
Variable t0 : T.
Hypothesis Ht0 : net_sent t0 [].

Definition single_ok (cl : Cluster.Cluster C S T) : Prop :=
  net_sent (Cluster.network cl) [] ∧
  ∀ id' s, Cluster.slots cl !! id' = Some s →
    id' = id ∧ Raft.peer_ids (Cluster.slot_node s) = [] ∧ Raft.commit_index (Cluster.slot_node s) = 0 ∧
    Raft.last_applied (Cluster.slot_node s) = 0.

Lemma put_single_ok (cl : Cluster.Cluster C S T) t w : net_sent t [] → single_ok cl → alone t w → single_ok (Cluster.put id w cl).
Proof.
  intros Ht [_ Hs] (Hp & Hc & Ha & Et). split; simpl; [by rewrite Et|].
  intros id' s. destruct (decide (id = id')) as [<-|].
  - rewrite lookup_insert_eq. by intros [= <-].
  - rewrite lookup_insert_ne by done. apply Hs.
Qed.

Lemma on_slot_single_ok {A} id' (m : Py (Raft.World C S T) A) (cl : Cluster.Cluster C S T) :
  (∀ w, alone (Cluster.network cl) w → wp m (λ _, alone (Cluster.network cl)) w) →
  single_ok cl → single_ok (Cluster.on_slot id' m cl).2.
Proof.
  intros Hm Hcl. unfold Cluster.on_slot. destruct (Cluster.slots cl !! id') as [s|] eqn:E; [|done].
  destruct Hcl as [Hn Hs]. destruct (Hs _ _ E) as (-> & Hp & Hc & Ha).
  destruct (wp_inv _ _ _ (Hm (Cluster.world s (Cluster.network cl)) (conj Hp (conj Hc (conj Ha eq_refl)))))
    as (a & w' & -> & Hw). by eapply put_single_ok.
Qed.

Lemma init_alone st t : alone (t_register id t) (Cluster.build_node tmin tmax hb [id] id st sm0 t).
Proof.
  split_and!; try done. simpl. unfold Cluster.peers. by rewrite filter_cons_False by (intros Hne; by apply Hne).
Qed.

Lemma exec_single_ok ev rnd (cl : Cluster.Cluster C S T) :
  single_ok cl → single_ok (Cluster.exec tmin tmax hb [id] ev rnd cl).2.
Proof.
  intros Hcl. destruct ev as [i now|i now|i choice now|i c now|i|move]; simpl.
  - pose proof (on_slot_single_ok i (Raft.start rnd now) cl (λ w, alone_reset rnd _ now w) Hcl).
    by destruct (Cluster.on_slot _ _ _).
  - pose proof (on_slot_single_ok i (Raft.tick rnd now) cl (λ w, alone_tick rnd _ now w) Hcl).
    by destruct (Cluster.on_slot _ _ _).
  - destruct (n_take choice i (Cluster.network cl)) as [[e t']|] eqn:E; [|done].
    destruct (net_take _ _ _ _ _ _ (proj1 Hcl) E) as (_ & He & _). by apply not_elem_of_nil in He.
  - pose proof (on_slot_single_ok i (Raft.propose c now) cl (λ w, alone_propose _ c now w) Hcl).
    by destruct (Cluster.on_slot _ _ _).
  - destruct (Cluster.slots cl !! i) as [s|] eqn:E; [|done]. destruct Hcl as [Hn Hs].
    destruct (Hs _ _ E) as (-> & _). simpl. eapply put_single_ok; [by apply net_register, Hn|by split|].
    split_and!; try done. simpl. unfold Cluster.peers. by rewrite filter_cons_False by (intros Hne; by apply Hne).
  - destruct Hcl as [Hn Hs]. split; [by apply net_moved|done].
Qed.

(** A single-node cluster never commits: the commit index is advanced
    only by replies to appends, so a cluster of one node, which elects itself
    and accepts proposals, never commits or applies any of them. *)
Theorem single_node_never_commits evs id' s :
  Cluster.slots (Cluster.run tmin tmax hb [id] evs (Cluster.init tmin tmax hb [id] sm0 t0)) !! id' = Some s →
  Raft.commit_index (Cluster.slot_node s) = 0 ∧ Raft.last_applied (Cluster.slot_node s) = 0.
Proof.
  intros Hs.
  assert (Hinit : single_ok (Cluster.init tmin tmax hb [id] sm0 t0)).
  { unfold Cluster.init. simpl. eapply put_single_ok; [by apply net_register, Ht0| |apply init_alone].
    split; [done|]. intros i s'. simpl. by rewrite lookup_empty. }
  assert (Hrun : single_ok (Cluster.run tmin tmax hb [id] evs (Cluster.init tmin tmax hb [id] sm0 t0))).
  { clear Hs. revert Hinit. generalize (Cluster.init tmin tmax hb [id] sm0 t0).
    induction evs as [|ev evs IH]; intros cl Hcl; [done|]. apply (IH _ (exec_single_ok ev.1 ev.2 cl Hcl)). }
  destruct Hrun as [_ H]. by destruct (H _ _ Hs) as (_ & _ & ? & ?).
Qed.
End single.

(** A single node that leads and holds a proposal. *)
Definition single_run : list (Cluster.Event LedgerEntry (Net.InMemoryTransport LedgerEntry) * (nat → float → float → float)) :=
  [(Cluster.Start "a" F.zero, Demo.low); Demo.at_ 150 (Cluster.Tick "a"); Demo.at_ 160 (Cluster.Propose "a" Demo.credit);
   Demo.at_ 300 (Cluster.Tick "a")].

Lemma single_node_never_commits_witness :
  let cl := Cluster.run Demo.tmin Demo.tmax Demo.hb ["a"] single_run
              (Cluster.init Demo.tmin Demo.tmax Demo.hb ["a"] (Ledger.init ∅) Net.init) in
  Raft.state (Cluster.slot_node (Demo.slot "a" cl)) = LEADER ∧
  length (Storage.entries (Cluster.slot_storage (Demo.slot "a" cl))) = 1%nat ∧
  Raft.commit_index (Cluster.slot_node (Demo.slot "a" cl)) = 0 ∧
  Raft.last_applied (Cluster.slot_node (Demo.slot "a" cl)) = 0.
Proof.
  split; [vm_compute; reflexivity|]. split; [vm_compute; reflexivity|].
  apply (single_node_never_commits Demo.tmin Demo.tmax Demo.hb "a" (Ledger.init ∅) Net.init Net.queued_init
    single_run "a"). vm_compute. reflexivity.
Defined.

Lemma stale_prevote_campaigns_witness :
  let w := Cluster.world (Demo.slot "c" (Demo.after Demo.stale)) (Net.init (C := LedgerEntry)) in
  ∃ w', Raft.handle_prevote_reply Demo.high (mkPreVoteReply 1 true "b") (F.of_Z 502) w = (Ok tt, w') ∧
    Storage.current_term (Raft.storage w') = Storage.current_term (Raft.storage w) + 1 ∧
    Raft.state (Raft.node w') ≠ FOLLOWER.
Proof.
  apply (stale_prevote_campaigns Demo.high (mkPreVoteReply 1 true "b") (F.of_Z 502)
    (Cluster.world (Demo.slot "c" (Demo.after Demo.stale)) Net.init) "a"); vm_compute; reflexivity || discriminate.
Defined.
