(* ===== verification/Partitioner.v ===== *)
(** * Key partitioning (streaming/partitioner.py)

    [key_to_partition] with the MD5 digest of Python's [hashlib] written out
    (RFC 1321) on 32-bit words.  A [string] here is the UTF-8 encoding of the
    Python string. *)

From stdpp Require Import base strings list.
From Stdlib Require Import ZArith Lia Ascii.
From S2P Require Import Prelude.

Local Open Scope Z_scope.

Module MD5.

Definition word (z : Z) : Z := z mod 2 ^ 32.
Definition rotl (x c : Z) : Z := word (Z.lor (Z.shiftl x c) (Z.shiftr x (32 - c))).
Definition wnot (x : Z) : Z := Z.lxor x (2 ^ 32 - 1).

Definition sines : list Z :=
  [3614090360; 3905402710; 606105819; 3250441966; 4118548399; 1200080426; 2821735955; 4249261313;
   1770035416; 2336552879; 4294925233; 2304563134; 1804603682; 4254626195; 2792965006; 1236535329;
   4129170786; 3225465664; 643717713; 3921069994; 3593408605; 38016083; 3634488961; 3889429448;
   568446438; 3275163606; 4107603335; 1163531501; 2850285829; 4243563512; 1735328473; 2368359562;
   4294588738; 2272392833; 1839030562; 4259657740; 2763975236; 1272893353; 4139469664; 3200236656;
   681279174; 3936430074; 3572445317; 76029189; 3654602809; 3873151461; 530742520; 3299628645;
   4096336452; 1126891415; 2878612391; 4237533241; 1700485571; 2399980690; 4293915773; 2240044497;
   1873313359; 4264355552; 2734768916; 1309151649; 4149444226; 3174756917; 718787259; 3951481745].

Definition shifts : list Z :=
  concat (replicate 4 [7; 12; 17; 22]) ++ concat (replicate 4 [5; 9; 14; 20])
  ++ concat (replicate 4 [4; 11; 16; 23]) ++ concat (replicate 4 [6; 10; 15; 21]).

(** [n] little-endian bytes of [z]. *)
Fixpoint le_bytes (n : nat) (z : Z) : list Z :=
  match n with O => [] | S n => z mod 256 :: le_bytes n (z / 256) end.
Fixpoint le_value (l : list Z) : Z :=
  match l with [] => 0 | b :: l => b + 256 * le_value l end.

Definition pad (msg : list Z) : list Z :=
  let len := Z.of_nat (length msg) in
  msg ++ [128] ++ replicate (Z.to_nat ((55 - len) mod 64)) 0 ++ le_bytes 8 ((8 * len) mod 2 ^ 64).

Definition State : Type := Z * Z * Z * Z.

(** One of the 64 steps, on the 16 words of the block. *)
Definition step (words : list Z) (i : nat) (st : State) : State :=
  let '(a, b, c, d) := st in
  let '(f, g) :=
    if (i <? 16)%nat then (Z.lor (Z.land b c) (Z.land (wnot b) d), i)
    else if (i <? 32)%nat then (Z.lor (Z.land d b) (Z.land (wnot d) c), ((5 * i + 1) mod 16)%nat)
    else if (i <? 48)%nat then (Z.lxor (Z.lxor b c) d, ((3 * i + 5) mod 16)%nat)
    else (Z.lxor c (Z.lor b (wnot d)), ((7 * i) mod 16)%nat) in
  let f := word (f + a + nth i sines 0 + nth g words 0) in
  (d, word (b + rotl f (nth i shifts 0)), b, c).

Fixpoint words_of (n : nat) (block : list Z) : list Z :=
  match n with O => [] | S n => le_value (take 4 block) :: words_of n (drop 4 block) end.

Definition block (st : State) (bytes : list Z) : State :=
  let words := words_of 16 bytes in
  let '(a, b, c, d) := foldl (λ s i, step words i s) st (seq 0 64) in
  let '(a0, b0, c0, d0) := st in
  (word (a0 + a), word (b0 + b), word (c0 + c), word (d0 + d)).

(** The blocks of the padded message; its length bounds their number. *)
Fixpoint blocks (fuel : nat) (st : State) (bytes : list Z) : State :=
  match fuel, bytes with
  | O, _ | _, [] => st
  | S fuel, _ => blocks fuel (block st (take 64 bytes)) (drop 64 bytes)
  end.

Definition md5 (msg : list Z) : list Z :=
  let p := pad msg in
  let '(a, b, c, d) := blocks (length p) (1732584193, 4023233417, 2562383102, 271733878) p in
  le_bytes 4 a ++ le_bytes 4 b ++ le_bytes 4 c ++ le_bytes 4 d.

End MD5.

Module Partitioner.

Definition encode (key : string) : list Z := (λ c, Z.of_N (N_of_ascii c)) <$> String.list_ascii_of_string key.

(** [int.from_bytes(bytes, byteorder="big")] *)
Definition from_bytes_big (bytes : list Z) : Z := foldl (λ acc b, acc * 256 + b) 0 bytes.

Definition key_to_partition (key : string) (num_partitions : Z) : res Z :=
  if num_partitions <=? 0 then Raise (ValueError "num_partitions must be positive")
  else
    let digest := MD5.md5 (encode key) in
    Ok (from_bytes_big (take 4 digest) mod num_partitions).

Lemma key_to_partition_range key n :
  0 < n → ∃ p, key_to_partition key n = Ok p ∧ 0 ≤ p < n.
Proof.
  intros Hn. unfold key_to_partition. destruct (Z.leb_spec n 0); [lia|].
  eexists. split; [done|]. by apply Z.mod_pos_bound.
Qed.

(** Known digests. *)
Example md5_empty : from_bytes_big (MD5.md5 (encode "")) = 281949768489412648962353822266799178366.
Proof. vm_compute. reflexivity. Qed.
Example md5_abc : from_bytes_big (MD5.md5 (encode "abc")) = 191415658344158766168031473277922803570.
Proof. vm_compute. reflexivity. Qed.
Example md5_two_blocks : from_bytes_big (MD5.md5 (encode
  "12345678901234567890123456789012345678901234567890123456789012345678901234567890")) = 116878371745249285768420430739153598074.
Proof. vm_compute. reflexivity. Qed.

End Partitioner.
