(* ===== verification/Broker.v ===== *)
(** * The partitioned log (streaming/broker.py), its producer and partitioner

    Each partition is an append-only list; offsets are positions.  A method
    body runs under the partition's (or the offsets') lock, so it is one step.
    The type of the values is a parameter. *)

From stdpp Require Import base gmap strings list.
From Stdlib Require Import ZArith Lia.
From S2P Require Import Prelude Models Partitioner.

Local Open Scope Z_scope.

Module Broker.
Section broker.
Context {V : Type}.

Record LogRecord := mkRecord {
  rec_partition : Z;
  rec_offset : Z;
  rec_key : string;
  rec_value : V;
  rec_produced_at : datetime
}.

Record PartitionedLog := mkLog {
  topic : string;
  partitions : list (list LogRecord);
  committed_offsets : gmap (string * Z) Z
}.

(** [__init__] *)
Definition init (tp : string) (num : Z) : res PartitionedLog :=
  if num <=? 0 then Raise (ValueError "num_partitions must be positive")
  else Ok (mkLog tp (replicate (Z.to_nat num) []) ∅).

Definition num_partitions (l : PartitionedLog) : Z := zlen (partitions l).

(** [self._partitions[partition]], for a checked index. *)
Definition partition_of (p : Z) (l : PartitionedLog) : list LogRecord :=
  default [] (partitions l !! Z.to_nat p).

Abbreviation M := (Py PartitionedLog).

Definition check_partition (partition : Z) : M unit :=
  (n <- get num_partitions ;;
   if (0 <=? partition) && (partition <? n) then ret tt
   else raise (ValueError "partition out of range"))%py.

Definition append (partition : Z) (key : string) (value : V) (now : datetime) : M LogRecord :=
  (check_partition partition ;;;
   offset <- get (λ l, zlen (partition_of partition l)) ;;
   let record := mkRecord partition offset key value now in
   modify (λ l, mkLog (topic l)
                  (<[Z.to_nat partition := partition_of partition l ++ [record]]> (partitions l))
                  (committed_offsets l)) ;;;
   ret record)%py.

Definition read (partition from_offset max_records : Z) : M (list LogRecord) :=
  (check_partition partition ;;;
   if from_offset <? 0 then raise (ValueError "from_offset must be non-negative")
   else get (λ l, slice from_offset (from_offset + max_records) (partition_of partition l)))%py.

Definition latest_offset (partition : Z) : M Z :=
  (check_partition partition ;;; get (λ l, zlen (partition_of partition l)))%py.

Definition commit_offset (group_id : string) (partition offset : Z) : M unit :=
  (check_partition partition ;;;
   modify (λ l, mkLog (topic l) (partitions l)
     (<[(group_id, partition) :=
          Z.max (default 0 (committed_offsets l !! (group_id, partition))) offset]> (committed_offsets l))))%py.

Definition committed (group_id : string) (partition : Z) (l : PartitionedLog) : Z :=
  default 0 (committed_offsets l !! (group_id, partition)).
Definition committed_offset (group_id : string) (partition : Z) : M Z :=
  (check_partition partition ;;; get (committed group_id partition))%py.

(** [Producer.produce] (streaming/producer.py) *)
Definition produce (key : string) (value : V) (now : datetime) : M LogRecord :=
  (n <- get num_partitions ;;
   partition <- lift (Partitioner.key_to_partition key n) ;;
   append partition key value now)%py.

(** ** Execution *)

Definition valid_partition (p : Z) (l : PartitionedLog) : Prop := 0 ≤ p < num_partitions l.

Lemma check_partition_eq p l :
  check_partition p l =
    (if (0 <=? p) && (p <? num_partitions l) then Ok tt else Raise (ValueError "partition out of range"), l).
Proof. unfold check_partition, bind, get, ret, raise. by destruct (_ && _). Qed.

Lemma check_partition_ok p l : valid_partition p l → check_partition p l = (Ok tt, l).
Proof.
  intros Hp. unfold valid_partition in Hp. rewrite check_partition_eq.
  by rewrite (proj2 (Z.leb_le 0 p)), (proj2 (Z.ltb_lt p _)) by lia.
Qed.

Definition appended (p : Z) (r : LogRecord) (l : PartitionedLog) : PartitionedLog :=
  mkLog (topic l) (<[Z.to_nat p := partition_of p l ++ [r]]> (partitions l)) (committed_offsets l).

Lemma append_eq p k v now l :
  valid_partition p l →
  append p k v now l = (Ok (mkRecord p (zlen (partition_of p l)) k v now),
                        appended p (mkRecord p (zlen (partition_of p l)) k v now) l).
Proof. intros Hp. unfold append, bind, get, modify, ret. by rewrite check_partition_ok. Qed.

Lemma appended_partition p q r l :
  valid_partition p l → valid_partition q l →
  partition_of q (appended p r l) = if decide (q = p) then partition_of p l ++ [r] else partition_of q l.
Proof.
  intros Hp Hq. unfold valid_partition, num_partitions, zlen in *. unfold partition_of, appended. simpl.
  case_decide as E.
  - subst q. by rewrite list_lookup_insert_eq by lia.
  - rewrite list_lookup_insert_ne by lia. done.
Qed.

Lemma appended_num p r l : num_partitions (appended p r l) = num_partitions l.
Proof. unfold num_partitions, appended, zlen. simpl. by rewrite length_insert. Qed.

Lemma read_eq p from max l :
  valid_partition p l → 0 ≤ from →
  read p from max l = (Ok (slice from (from + max) (partition_of p l)), l).
Proof.
  intros Hp Hf. unfold read, bind, get. rewrite check_partition_ok by done.
  by rewrite (proj2 (Z.ltb_ge from 0)).
Qed.

Lemma commit_offset_eq g p o l :
  valid_partition p l →
  commit_offset g p o l =
    (Ok tt, mkLog (topic l) (partitions l) (<[(g, p) := Z.max (committed g p l) o]> (committed_offsets l))).
Proof. intros Hp. unfold commit_offset, bind, modify. by rewrite check_partition_ok. Qed.

(** Every record sits at the position and in the partition it names. *)
Definition log_ok (l : PartitionedLog) : Prop :=
  ∀ p, valid_partition p l → ∀ j r, partition_of p l !! j = Some r →
    rec_partition r = p ∧ rec_offset r = Z.of_nat j.

Lemma log_init_ok tp n l : init tp n = Ok l → log_ok l ∧ num_partitions l = n ∧ 0 < n.
Proof.
  unfold init. destruct (Z.leb_spec n 0); [done|]. intros [= <-].
  assert (Hn : num_partitions (mkLog tp (replicate (Z.to_nat n) []) ∅) = n)
    by (unfold num_partitions, zlen; simpl; rewrite length_replicate; lia).
  split; [|done]. intros p Hp j r. unfold partition_of. simpl. unfold valid_partition in Hp.
  rewrite lookup_replicate_2 by lia. done.
Qed.

Lemma append_ok p k v now l : log_ok l → log_ok (append p k v now l).2.
Proof.
  intros Hl. destruct ((0 <=? p) && (p <? num_partitions l)) eqn:E.
  - assert (Hp : valid_partition p l) by (unfold valid_partition; lia).
    rewrite append_eq by done. simpl. intros q Hq j r. unfold valid_partition in Hq. rewrite appended_num in Hq.
    rewrite appended_partition by done. case_decide as Hqp; [|by apply Hl].
    subst q. intros [[_ Hj]|[Hj <-]]%lookup_snoc_Some; [by apply (Hl p)|].
    split; [done|]. unfold zlen. simpl. lia.
  - unfold append, bind. rewrite check_partition_eq, E. done.
Qed.

(** ** Producing *)

Definition produce_all (items : list (string * V)) (now : datetime) : M unit :=
  for_each (λ kv, produce kv.1 kv.2 now ;;; ret tt)%py items.

(** Whether [key] belongs to partition [p] of [n]. *)
Definition routed (n p : Z) (key : string) : bool :=
  match Partitioner.key_to_partition key n with Ok q => q =? p | Raise _ => false end.

Lemma produce_eq k v now l :
  0 < num_partitions l →
  ∃ p, Partitioner.key_to_partition k (num_partitions l) = Ok p ∧ valid_partition p l ∧
    produce k v now l = (Ok (mkRecord p (zlen (partition_of p l)) k v now),
                         appended p (mkRecord p (zlen (partition_of p l)) k v now) l).
Proof.
  intros Hn. destruct (Partitioner.key_to_partition_range k _ Hn) as (p & Hp & Hr).
  exists p. split_and!; [done|done|]. unfold produce, bind, get, lift. rewrite Hp. by apply append_eq.
Qed.

(** Each partition receives the items of its keys, in order. *)
Lemma produce_all_spec items now : ∀ l,
  0 < num_partitions l →
  ∃ l', produce_all items now l = (Ok tt, l') ∧ num_partitions l' = num_partitions l ∧
    ∀ p, valid_partition p l →
      (λ r, (rec_key r, rec_value r)) <$> partition_of p l' =
      ((λ r, (rec_key r, rec_value r)) <$> partition_of p l) ++
        filter (λ kv, routed (num_partitions l) p kv.1) items.
Proof.
  induction items as [|[k v] items IH]; intros l Hn.
  { exists l. split_and!; [done|done|]. intros p _. by rewrite filter_nil, (right_id_L [] (++)). }
  destruct (produce_eq k v now l Hn) as (q & Hq & Hqv & Hpr). set (l1 := appended q _ l) in Hpr.
  destruct (IH l1) as (l' & Hr & Hnl & Hp); [unfold l1; by rewrite appended_num|].
  exists l'. split_and!.
  - unfold produce_all in *. simpl. unfold bind in *. by rewrite Hpr.
  - rewrite Hnl. unfold l1. apply appended_num.
  - intros p Hpv. rewrite Hp by (unfold l1, valid_partition; rewrite appended_num; done).
    unfold l1. rewrite appended_num, appended_partition by done.
    assert (Hrt : routed (num_partitions l) p k = (q =? p)) by (unfold routed; by rewrite Hq).
    rewrite filter_cons. simpl. destruct (decide (p = q)) as [->|Hne].
    + rewrite Z.eqb_refl in Hrt. rewrite decide_True by (by rewrite Hrt).
      by rewrite fmap_app, <- (assoc_L (++)).
    + rewrite (proj2 (Z.eqb_neq q p)) in Hrt by (intros ->; done). rewrite decide_False; [done|]. rewrite Hrt. by intros [].
Qed.

Lemma produce_all_ok items now : ∀ l, log_ok l → 0 < num_partitions l → log_ok (produce_all items now l).2.
Proof.
  induction items as [|[k v] items IH]; intros l Hl Hn; [done|].
  destruct (produce_eq k v now l Hn) as (q & _ & Hqv & Hpr).
  pose proof (append_ok q k v now l Hl) as Ha. rewrite append_eq in Ha by done.
  unfold produce_all in *. simpl. unfold bind in *. rewrite Hpr. apply IH; [exact Ha|]. by rewrite appended_num.
Qed.

Lemma partition_in_log p (r : LogRecord) l : r ∈ partition_of p l → In r (concat (partitions l)).
Proof.
  unfold partition_of. destruct (partitions l !! Z.to_nat p) as [rs|] eqn:E; [|by intros ?%not_elem_of_nil].
  intros Hr. apply in_concat. exists rs. split; apply list_elem_of_In; [by eapply list_elem_of_lookup_2|done].
Qed.

End broker.
Arguments LogRecord V : clear implicits.
Arguments PartitionedLog V : clear implicits.
End Broker.
