(* ===== verification/Group.v ===== *)
(** * Consumer groups (streaming/group.py)

    Membership, heartbeats and round-robin rebalancing.  [self._members] is a
    dict, kept here in insertion order (the order [check_expired_members]
    reports in); the clock value of a call is its argument.  Every method body
    runs under the group's lock. *)

From stdpp Require Import base gmap strings list sorting.
From Stdlib Require Import ZArith Lia.
From S2P Require Import Prelude PyFloat.

Local Open Scope Z_scope.

Module Group.

Record ConsumerGroup := mkGroup {
  group_id : string;
  num_partitions : Z;
  session_timeout_seconds : float;
  members_ : list (string * float);       (* member id, last heartbeat *)
  assignment : gmap string (list Z)
}.

Definition set_members (ms : list (string * float)) (g : ConsumerGroup) : ConsumerGroup :=
  mkGroup (group_id g) (num_partitions g) (session_timeout_seconds g) ms (assignment g).
Definition set_assignment (a : gmap string (list Z)) (g : ConsumerGroup) : ConsumerGroup :=
  mkGroup (group_id g) (num_partitions g) (session_timeout_seconds g) (members_ g) a.

(** [__init__] *)
Definition init (gid : string) (num : Z) (timeout : float) : res ConsumerGroup :=
  if num <=? 0 then Raise (ValueError "num_partitions must be positive")
  else Ok (mkGroup gid num timeout [] ∅).

(** [self._members[member_id] = MemberState(member_id, now)] *)
Fixpoint put_member (id : string) (t : float) (ms : list (string * float)) : list (string * float) :=
  match ms with
  | [] => [(id, t)]
  | (i, t') :: rest => if String.eqb i id then (i, t) :: rest else (i, t') :: put_member id t rest
  end.

Definition is_member (id : string) (ms : list (string * float)) : bool := bool_decide (id ∈ ms.*1).

(** [sorted(self._members)] *)
Definition sorted_ids (ms : list (string * float)) : list string := isort String.leb ms.*1.

(** [range(n)] *)
Definition range (n : Z) : list Z := Z.of_nat <$> seq 0 (Z.to_nat n).

(** One round of the assignment loop: [members[partition % len(members)]]. *)
Definition owner (members : list string) (partition : Z) : option string :=
  members !! Z.to_nat (partition mod zlen members).
Definition assign (members : list string) (a : gmap string (list Z)) (partition : Z) : gmap string (list Z) :=
  match owner members partition with
  | Some o => <[o := default [] (a !! o) ++ [partition]]> a
  | None => a
  end.
Definition assignment_of (members : list string) (n : Z) : gmap string (list Z) :=
  foldl (assign members) (list_to_map ((λ m, (m, [])) <$> members)) (range n).

Abbreviation M := (Py ConsumerGroup).

Definition rebalance : M unit :=
  modify (λ g, set_assignment (assignment_of (sorted_ids (members_ g)) (num_partitions g)) g).

Definition join (member_id : string) (now : float) : M (list Z) :=
  (modify (λ g, set_members (put_member member_id now (members_ g)) g) ;;;
   rebalance ;;;
   a <- get assignment ;;
   match a !! member_id with Some ps => ret ps | None => raise KeyError end)%py.

Definition heartbeat (member_id : string) (now : float) : M unit :=
  (ms <- get members_ ;;
   if negb (is_member member_id ms) then raise (ValueError "unknown member; call join() first")
   else modify (set_members (put_member member_id now ms)))%py.

Definition leave (member_id : string) : M unit :=
  (ms <- get members_ ;;
   if is_member member_id ms then
     modify (set_members (filter (λ m, m.1 ≠ member_id) ms)) ;;; rebalance
   else ret tt)%py.

Definition assignment_for (member_id : string) : M (list Z) :=
  get (λ g, default [] (assignment g !! member_id)).

Definition members : M (list string) := get (λ g, sorted_ids (members_ g)).

(** [now - state.last_heartbeat > self.session_timeout_seconds] *)
Definition expired (now : float) (g : ConsumerGroup) (m : string * float) : bool :=
  F.gt (F.sub now m.2) (session_timeout_seconds g).

Definition check_expired_members (now : float) : M (list string) :=
  (g <- get (λ g, g) ;;
   let gone := (filter (λ m, expired now g m) (members_ g)).*1 in
   modify (set_members (filter (λ m, m.1 ∉ gone) (members_ g))) ;;;
   when (bool_decide (gone ≠ [])) rebalance ;;;
   ret gone)%py.

(** ** The assignment *)

Lemma range_lookup n p : p ∈ range n ↔ 0 ≤ p < n.
Proof.
  unfold range. rewrite list_elem_of_fmap. split.
  - intros (k & -> & Hk). rewrite elem_of_seq in Hk. lia.
  - intros Hp. exists (Z.to_nat p). rewrite elem_of_seq. lia.
Qed.

Lemma owner_is_some ms p : ms ≠ [] → ∃ o, owner ms p = Some o ∧ o ∈ ms.
Proof.
  intros Hne. assert (0 < zlen ms) by (destruct ms; [done|rewrite zlen_cons; pose proof (zlen_nonneg ms); lia]).
  pose proof (Z.mod_pos_bound p (zlen ms) ltac:(lia)).
  destruct (lookup_lt_is_Some_2 ms (Z.to_nat (p mod zlen ms))) as [o Ho]; [unfold zlen in *; lia|].
  exists o. split; [done|]. by eapply list_elem_of_lookup_2.
Qed.

(** Every member gets exactly the partitions it owns, in order. *)
Lemma foldl_assign ms m : ms ≠ [] → ∀ ps a,
  is_Some (a !! m) →
  foldl (assign ms) a ps !! m = Some (default [] (a !! m) ++ filter (λ p, owner ms p = Some m) ps).
Proof.
  intros Hne. induction ps as [|p ps IH]; intros a [l Hl]; simpl.
  { rewrite Hl, filter_nil. simpl. by rewrite (right_id_L [] (++)). }
  destruct (owner_is_some ms p Hne) as (o & Ho & _).
  assert (E : assign ms a p = <[o := default [] (a !! o) ++ [p]]> a) by (unfold assign; by rewrite Ho).
  rewrite E, filter_cons, Ho, Hl. simpl. destruct (decide (o = m)) as [->|Hom].
  - rewrite IH by (by rewrite lookup_insert_eq; eexists). rewrite lookup_insert_eq, Hl. simpl.
    rewrite decide_True by done. by rewrite <- (assoc_L (++)).
  - rewrite IH by (by rewrite lookup_insert_ne by done; exists l). rewrite lookup_insert_ne, Hl by done. simpl.
    by rewrite decide_False by congruence.
Qed.

Lemma initial_lookup ms m :
  (list_to_map ((λ m, (m, [])) <$> ms) : gmap string (list Z)) !! m = if decide (m ∈ ms) then Some [] else None.
Proof.
  induction ms as [|q ms IH]; [done|]. rewrite fmap_cons, list_to_map_cons.
  destruct (decide (m = q)) as [->|Hne].
  - rewrite lookup_insert_eq. by rewrite decide_True by left.
  - rewrite lookup_insert_ne, IH by done. destruct (decide (m ∈ ms)).
    + by rewrite decide_True by (by right).
    + rewrite decide_False; [done|]. by intros [?|?]%elem_of_cons.
Qed.

Lemma assignment_of_lookup ms n m :
  m ∈ ms → assignment_of ms n !! m = Some (filter (λ p, owner ms p = Some m) (range n)).
Proof.
  intros Hm. unfold assignment_of. rewrite foldl_assign.
  - rewrite initial_lookup. by rewrite decide_True.
  - intros ->. by apply not_elem_of_nil in Hm.
  - rewrite initial_lookup. by rewrite decide_True.
Qed.

Lemma foldl_assign_none ms m : m ∉ ms → ∀ ps a, a !! m = None → foldl (assign ms) a ps !! m = None.
Proof.
  intros Hm. induction ps as [|p ps IH]; intros a Ha; simpl; [done|]. apply IH.
  unfold assign. destruct (owner ms p) as [o|] eqn:Ho; [|done].
  rewrite lookup_insert_ne; [done|]. intros ->. apply Hm. by eapply list_elem_of_lookup_2.
Qed.

Lemma assignment_of_none ms n m : m ∉ ms → assignment_of ms n !! m = None.
Proof.
  intros Hm. apply foldl_assign_none; [done|]. rewrite initial_lookup. by rewrite decide_False.
Qed.

(** ** The group invariant *)

(** Member ids are distinct and the assignment is the round-robin one of the
    current members. *)
Definition group_ok (g : ConsumerGroup) : Prop :=
  NoDup (members_ g).*1 ∧
  ∀ m, default [] (assignment g !! m) = default [] (assignment_of (sorted_ids (members_ g)) (num_partitions g) !! m).

Lemma put_member_ids id t ms :
  (put_member id t ms).*1 = if decide (id ∈ ms.*1) then ms.*1 else ms.*1 ++ [id].
Proof.
  induction ms as [|[i t'] ms IH]; [done|].
  cbn -[fmap list_fmap]. rewrite fmap_cons. cbn -[fmap list_fmap].
  destruct (String.eqb_spec i id) as [->|Hne]; rewrite fmap_cons; cbn -[fmap list_fmap].
  - by rewrite decide_True by left.
  - rewrite IH. destruct (decide (id ∈ ms.*1)).
    + by rewrite decide_True by (by right).
    + rewrite decide_False; [done|]. intros [?|?]%elem_of_cons; congruence.
Qed.

Lemma put_member_nodup id t ms : NoDup ms.*1 → NoDup (put_member id t ms).*1.
Proof.
  intros Hn. rewrite put_member_ids. case_decide; [done|]. apply NoDup_app. split_and!; [done| |apply NoDup_singleton].
  intros x Hx ->%list_elem_of_singleton. done.
Qed.

Lemma filter_nodup (P : string * float → Prop) `{∀ x, Decision (P x)} ms : NoDup ms.*1 → NoDup (filter P ms).*1.
Proof.
  induction ms as [|[i t] ms IH]; [done|]. rewrite fmap_cons. intros [Hi Hn]%NoDup_cons.
  rewrite filter_cons. case_decide; [|by apply IH]. rewrite fmap_cons. apply NoDup_cons. split; [|by apply IH].
  intros Hin. apply Hi. apply list_elem_of_fmap in Hin as ([i' t'] & -> & Hin).
  apply list_elem_of_filter in Hin as [_ Hin]. apply list_elem_of_fmap. by exists (i', t').
Qed.

Lemma rebalance_ok g : NoDup (members_ g).*1 → group_ok (rebalance g).2.
Proof. intros Hn. split; [done|]. done. Qed.

Lemma init_group_ok gid n t g : init gid n t = Ok g → group_ok g.
Proof.
  unfold init. destruct (Z.leb_spec n 0); [done|]. intros [= <-]. split; simpl; [apply NoDup_nil_2|].
  intros m. rewrite assignment_of_none; [done|]. apply not_elem_of_nil.
Qed.

Lemma join_ok id now g : group_ok g → group_ok (join id now g).2.
Proof.
  intros [Hn _]. unfold join, bind, modify, get, rebalance. simpl.
  pose proof (rebalance_ok (set_members (put_member id now (members_ g)) g) (put_member_nodup id now _ Hn)) as Hr.
  by case_match.
Qed.

(** A heartbeat moves no partition. *)
Lemma heartbeat_ids id now g :
  (members_ (heartbeat id now g).2).*1 = (members_ g).*1 ∧ assignment (heartbeat id now g).2 = assignment g ∧
  num_partitions (heartbeat id now g).2 = num_partitions g.
Proof.
  unfold heartbeat, bind, get, raise, modify, is_member. case_bool_decide as Hm; simpl; [|done].
  rewrite put_member_ids. by rewrite decide_True.
Qed.

Lemma heartbeat_ok id now g : group_ok g → group_ok (heartbeat id now g).2.
Proof.
  intros [Hn Ha]. destruct (heartbeat_ids id now g) as (E1 & E2 & E3).
  unfold group_ok, sorted_ids in *. rewrite E1, E2, E3. done.
Qed.

Lemma leave_ok id g : group_ok g → group_ok (leave id g).2.
Proof.
  intros Hg. unfold leave, bind, get, modify, ret, rebalance. case_match; [|done].
  apply rebalance_ok. simpl. apply filter_nodup, Hg.
Qed.

Lemma check_expired_ok now g : group_ok g → group_ok (check_expired_members now g).2.
Proof.
  intros Hg. unfold check_expired_members, bind, get, modify, ret, when, rebalance.
  case_bool_decide as Hgone; simpl.
  - split; [|done]. apply filter_nodup, Hg.
  - assert (E : filter (λ m, m.1 ∉ (filter (λ m, expired now g m) (members_ g)).*1) (members_ g) = members_ g).
    { rewrite Hgone. clear.
      induction (members_ g) as [|m ms IH]; [done|]. rewrite filter_cons, IH.
      rewrite decide_True; [done|]. apply not_elem_of_nil. }
    rewrite E. by destruct g.
Qed.

Lemma sorted_ids_elem ms m : m ∈ sorted_ids ms ↔ m ∈ ms.*1.
Proof. unfold sorted_ids. by rewrite isort_perm. Qed.

Lemma sorted_ids_nodup ms : NoDup ms.*1 → NoDup (sorted_ids ms).
Proof. unfold sorted_ids. by rewrite isort_perm. Qed.

Lemma assignment_lookup g m :
  group_ok g → m ∈ (members_ g).*1 →
  default [] (assignment g !! m) =
    filter (λ p, owner (sorted_ids (members_ g)) p = Some m) (range (num_partitions g)).
Proof. intros [_ Ha] Hm. rewrite Ha, assignment_of_lookup; [done|]. by apply sorted_ids_elem. Qed.

Lemma assignment_elem g m p :
  group_ok g →
  p ∈ default [] (assignment g !! m) ↔
    0 ≤ p < num_partitions g ∧ owner (sorted_ids (members_ g)) p = Some m.
Proof.
  intros Hg. destruct (decide (m ∈ (members_ g).*1)) as [Hm|Hm].
  - rewrite assignment_lookup by done. rewrite list_elem_of_filter, range_lookup. naive_solver.
  - destruct Hg as [_ Ha]. rewrite Ha, assignment_of_none by (by rewrite sorted_ids_elem).
    split; [by intros ?%not_elem_of_nil|]. intros [_ Ho]. destruct Hm.
    apply sorted_ids_elem. by eapply list_elem_of_lookup_2.
Qed.

Lemma range_nodup n : NoDup (range n).
Proof. unfold range. apply NoDup_fmap; [apply _|apply NoDup_seq]. Qed.

Lemma assignment_nodup g m : group_ok g → NoDup (default [] (assignment g !! m)).
Proof.
  intros Hg. destruct (decide (m ∈ (members_ g).*1)) as [Hm|Hm].
  - rewrite assignment_lookup by done. apply NoDup_filter, range_nodup.
  - destruct Hg as [_ Ha]. rewrite Ha, assignment_of_none by (by rewrite sorted_ids_elem). apply NoDup_nil_2.
Qed.

(** ** Balance *)

(** How many of [0 .. n-1] are congruent to [i] modulo [k]. *)
Lemma count_mod (k i : Z) (n : nat) :
  0 ≤ i < k →
  zlen (filter (λ p, p mod k = i) (range (Z.of_nat n))) = (Z.of_nat n + (k - 1 - i)) / k.
Proof.
  intros Hi. unfold range. rewrite Nat2Z.id. induction n as [|n IH].
  { symmetry. apply Z.div_small. lia. }
  rewrite seq_S, fmap_app, filter_app, zlen_app, IH. simpl.
  set (a := Z.of_nat n). assert (Ha : 0 ≤ a) by (unfold a; lia).
  replace (Z.of_nat (S n)) with (a + 1) by (unfold a; lia).
  pose proof (Z.div_mod a k ltac:(lia)) as Hd. pose proof (Z.mod_pos_bound a k ltac:(lia)) as Hm.
  set (q := a / k) in *. set (r := a mod k) in *.
  rewrite filter_cons, filter_nil. destruct (decide _) as [E|E].
  - change (zlen [Z.of_nat n]) with 1. fold a r in E.
    rewrite <- (Z.div_unique (a + (k - 1 - i)) k q (k - 1)) by lia.
    rewrite <- (Z.div_unique (a + 1 + (k - 1 - i)) k (q + 1) 0) by lia. done.
  - change (zlen (@nil Z)) with 0. fold a r in E. destruct (Z.lt_ge_cases i r).
    + rewrite <- (Z.div_unique (a + (k - 1 - i)) k (q + 1) (r - i - 1)) by lia.
      rewrite <- (Z.div_unique (a + 1 + (k - 1 - i)) k (q + 1) (r - i)) by lia. lia.
    + rewrite <- (Z.div_unique (a + (k - 1 - i)) k q (r + (k - 1 - i))) by lia.
      rewrite <- (Z.div_unique (a + 1 + (k - 1 - i)) k q (r + 1 + (k - 1 - i))) by lia. lia.
Qed.

Lemma owner_index ms i m p :
  NoDup ms → ms !! i = Some m → owner ms p = Some m ↔ p mod zlen ms = Z.of_nat i.
Proof.
  intros Hnd Hi. pose proof (lookup_lt_Some _ _ _ Hi) as Hlt.
  pose proof (Z.mod_pos_bound p (zlen ms) ltac:(unfold zlen; lia)) as Hm. unfold owner. split.
  - intros Ho. pose proof (NoDup_lookup _ _ _ _ Hnd Ho Hi). lia.
  - intros ->. by rewrite Nat2Z.id.
Qed.

(** A member's share is the number of partitions divided by the number of
    members, rounded up or down. *)
Lemma share g m :
  group_ok g → 0 ≤ num_partitions g → m ∈ (members_ g).*1 →
  let k := zlen (members_ g) in
  num_partitions g / k ≤ zlen (default [] (assignment g !! m)) ≤ num_partitions g / k + 1.
Proof.
  intros Hg Hn Hm k. rewrite assignment_lookup by done.
  apply sorted_ids_elem in Hm as Hs. apply list_elem_of_lookup in Hs as [i Hi].
  pose proof (sorted_ids_nodup _ (proj1 Hg)) as Hnd. pose proof (lookup_lt_Some _ _ _ Hi) as Hlt.
  assert (Hk : zlen (sorted_ids (members_ g)) = k)
    by (unfold k, zlen, sorted_ids; rewrite (Permutation_length (isort_perm String.leb _)), length_fmap; reflexivity).
  assert (Hi' : 0 ≤ Z.of_nat i < k) by (rewrite <- Hk; unfold zlen; lia).
  rewrite (list_filter_iff _ (λ p, p mod k = Z.of_nat i)) by (intros p; rewrite <- Hk; by apply owner_index).
  rewrite <- (Z2Nat.id (num_partitions g) Hn). rewrite count_mod by done.
  rewrite Z2Nat.id by done. set (n := num_partitions g).
  split; [apply Z.div_le_mono; lia|].
  rewrite <- (Z.div_add n 1 k) by lia. apply Z.div_le_mono; lia.
Qed.

(** ** Histories of calls *)

Inductive call :=
| Join (member_id : string) (now : float)
| Heartbeat (member_id : string) (now : float)
| Leave (member_id : string)
| CheckExpired (now : float).

Definition exec (c : call) : ConsumerGroup → ConsumerGroup := λ g,
  match c with
  | Join id now => (join id now g).2
  | Heartbeat id now => (heartbeat id now g).2
  | Leave id => (leave id g).2
  | CheckExpired now => (check_expired_members now g).2
  end.

Definition run (calls : list call) (g : ConsumerGroup) : ConsumerGroup := foldl (λ g c, exec c g) g calls.

Lemma call_ok c g : group_ok g → group_ok (exec c g).
Proof.
  destruct c; simpl; auto using join_ok, heartbeat_ok, leave_ok, check_expired_ok.
Qed.

Lemma exec_num c g : num_partitions (exec c g) = num_partitions g.
Proof.
  destruct c as [id now|id now|id|now]; simpl.
  - unfold join, bind, modify, get, rebalance. simpl. by case_match.
  - apply heartbeat_ids.
  - unfold leave, bind, get, modify, ret. by case_match.
  - unfold check_expired_members, bind, get, modify, ret, when, rebalance. by case_bool_decide.
Qed.

Lemma calls_ok calls : ∀ g, group_ok g → group_ok (run calls g) ∧ num_partitions (run calls g) = num_partitions g.
Proof.
  induction calls as [|c calls IH]; intros g Hg; [done|]. simpl.
  destruct (IH (exec c g)) as [H1 H2]; [by apply call_ok|]. split; [done|]. by rewrite H2, exec_num.
Qed.

Lemma init_num gid n t g : init gid n t = Ok g → num_partitions g = n ∧ 0 < n.
Proof. unfold init. destruct (Z.leb_spec n 0); [done|]. by intros [= <-]. Qed.

(** ** Calls on a well-formed group *)

Lemma put_member_elem id t ms : id ∈ (put_member id t ms).*1.
Proof.
  rewrite put_member_ids. case_decide; [done|]. apply elem_of_app. right. by left.
Qed.

Lemma join_eq id now g :
  let g' := set_members (put_member id now (members_ g)) g in
  let a := assignment_of (sorted_ids (members_ g')) (num_partitions g) in
  join id now g = (Ok (filter (λ p, owner (sorted_ids (members_ g')) p = Some id) (range (num_partitions g))),
                   set_assignment a g').
Proof.
  intros g' a. unfold join, bind, modify, get, rebalance, ret. simpl.
  rewrite assignment_of_lookup; [done|]. apply sorted_ids_elem, put_member_elem.
Qed.

(** The members kept are those whose heartbeat is recent enough. *)
Lemma kept_members now g :
  NoDup (members_ g).*1 →
  filter (λ m, m.1 ∉ (filter (λ m, expired now g m) (members_ g)).*1) (members_ g) =
    filter (λ m, ¬ expired now g m) (members_ g).
Proof.
  intros Hnd. apply filter_ext_in. intros m Hm. rewrite list_elem_of_fmap. split.
  - intros Hn He. apply Hn. exists m. split; [done|]. by apply list_elem_of_filter.
  - intros Hn (m' & Heq & [He Hm']%list_elem_of_filter). destruct Hn.
    by rewrite (nodup_fst_inj _ _ _ Hnd Hm Hm' Heq).
Qed.

Lemma check_expired_eq now g :
  group_ok g →
  let gone := (filter (λ m, expired now g m) (members_ g)).*1 in
  ∃ g', check_expired_members now g = (Ok gone, g') ∧ group_ok g' ∧
    members_ g' = filter (λ m, ¬ expired now g m) (members_ g) ∧
    num_partitions g' = num_partitions g ∧
    (gone = [] → assignment g' = assignment g).
Proof.
  intros Hg gone. exists (check_expired_members now g).2. pose proof (check_expired_ok now g Hg) as Hg'.
  pose proof (kept_members now g (proj1 Hg)) as Hk.
  revert Hg'. unfold check_expired_members, bind, get, modify, ret, when, rebalance. fold gone. fold gone in Hk.
  case_bool_decide as Hgone; simpl; rewrite Hk; intros Hg'; split_and!; try done.
Qed.

Lemma put_member_in id t ms : (id, t) ∈ put_member id t ms.
Proof.
  induction ms as [|[i t'] ms IH]; simpl; [by left|]. destruct (String.eqb_spec i id) as [->|]; [by left|by right].
Qed.

Lemma heartbeat_eq id now g :
  id ∈ (members_ g).*1 →
  ∃ g', heartbeat id now g = (Ok tt, g') ∧ (id, now) ∈ members_ g' ∧
    session_timeout_seconds g' = session_timeout_seconds g.
Proof.
  intros Hm. exists (set_members (put_member id now (members_ g)) g). split; [|split; [apply put_member_in|done]].
  unfold heartbeat, bind, get, modify, is_member. by rewrite bool_decide_true.
Qed.

End Group.
