(* ===== verification/Consumer.v ===== *)
(** * Readers of the partitioned log (streaming/consumer.py)

    [Consumer] keeps its own offsets; [GroupConsumer] reads the partitions its
    group assigns to it and commits to the broker.  The log and the group are
    shared objects: they are components of the world of the methods. *)

From stdpp Require Import base gmap strings list.
From Stdlib Require Import ZArith Lia.
From S2P Require Import Prelude PyFloat Models Broker Group.

Local Open Scope Z_scope.

Module Consumer.
Section consumer.
Context {V : Type}.

Record World := mkWorld {
  log : Broker.PartitionedLog V;
  partitions : list Z;
  offsets : gmap Z Z
}.

(** [__init__] *)
Definition init (l : Broker.PartitionedLog V) (ps : option (list Z)) : World :=
  let ps := default (Group.range (Broker.num_partitions l)) ps in
  mkWorld l ps (list_to_map ((λ p, (p, 0)) <$> ps)).

Definition on_log {A} (m : Py (Broker.PartitionedLog V) A) : Py World A :=
  zoom log (λ l w, mkWorld l (partitions w) (offsets w)) m.

(** [self._offsets[partition]] *)
Definition offset (partition : Z) : Py World Z :=
  (os <- get offsets ;;
   match os !! partition with Some o => ret o | None => raise KeyError end)%py.

Fixpoint poll_each (ps : list Z) (max_records : Z) (batch : list (Broker.LogRecord V))
    : Py World (list (Broker.LogRecord V)) :=
  match ps with
  | [] => ret batch
  | partition :: ps =>
      (o <- offset partition ;;
       records <- on_log (Broker.read partition o max_records) ;;
       poll_each ps max_records (batch ++ records))%py
  end.
Definition poll (max_records_per_partition : Z) : Py World (list (Broker.LogRecord V)) :=
  (ps <- get partitions ;; poll_each ps max_records_per_partition [])%py.

Definition commit (record : Broker.LogRecord V) : Py World unit :=
  (o <- offset (Broker.rec_partition record) ;;
   modify (λ w, mkWorld (log w) (partitions w)
     (<[Broker.rec_partition record := Z.max o (Broker.rec_offset record + 1)]> (offsets w))))%py.

(** The offsets cover the partitions, which exist in the log. *)
Definition consumer_ok (w : World) : Prop :=
  ∀ p, p ∈ partitions w → Broker.valid_partition p (log w) ∧ ∃ o, offsets w !! p = Some o ∧ 0 ≤ o.

Definition position (p : Z) (w : World) : Z := default 0 (offsets w !! p).

Lemma init_consumer_ok l ps :
  (∀ p, p ∈ default (Group.range (Broker.num_partitions l)) ps → Broker.valid_partition p l) →
  consumer_ok (init l ps).
Proof.
  intros Hps p Hp. split; [by apply Hps|]. exists 0. split; [|done]. unfold init in *. simpl in *.
  apply elem_of_list_to_map_1'.
  - by intros o (q & [= <- <-] & _)%list_elem_of_fmap.
  - apply list_elem_of_fmap. by exists p.
Qed.

Lemma poll_each_eq max w : ∀ ps batch,
  (∀ p, p ∈ ps → Broker.valid_partition p (log w) ∧ ∃ o, offsets w !! p = Some o ∧ 0 ≤ o) →
  poll_each ps max batch w =
    (Ok (batch ++ concat ((λ p, slice (position p w) (position p w + max) (Broker.partition_of p (log w))) <$> ps)), w).
Proof.
  induction ps as [|p ps IH]; intros batch Hps; [by rewrite fmap_nil, app_nil_r|].
  destruct (Hps p ltac:(by left)) as (Hv & o & Ho & Hpos).
  assert (Hpo : position p w = o) by (unfold position; by rewrite Ho).
  simpl. unfold bind, offset, get, ret, on_log, zoom. unfold bind. rewrite Ho, Broker.read_eq by done.
  destruct w as [l ps0 os]. simpl in *. rewrite IH by (intros q Hq; apply Hps; by right).
  by rewrite Hpo, <- (assoc_L (++)).
Qed.

Lemma commit_ok record w :
  consumer_ok w → Broker.rec_partition record ∈ partitions w →
  commit record w =
    (Ok tt, mkWorld (log w) (partitions w)
       (<[Broker.rec_partition record :=
            Z.max (position (Broker.rec_partition record) w) (Broker.rec_offset record + 1)]> (offsets w))).
Proof.
  intros Hw Hp. destruct (Hw _ Hp) as (_ & o & Ho & _). unfold commit, offset, bind, get, ret, modify, position.
  by rewrite Ho.
Qed.

End consumer.
Arguments World V : clear implicits.
End Consumer.

Module GroupConsumer.
Section group_consumer.
Context {V : Type}.

Record World := mkWorld {
  log : Broker.PartitionedLog V;
  group : Group.ConsumerGroup
}.

Definition on_log {A} (m : Py (Broker.PartitionedLog V) A) : Py World A :=
  zoom log (λ l w, mkWorld l (group w)) m.
Definition on_group {A} (m : Py Group.ConsumerGroup A) : Py World A :=
  zoom group (λ g w, mkWorld (log w) g) m.

Definition join (member_id : string) (now : float) : Py World (list Z) := on_group (Group.join member_id now).
Definition heartbeat (member_id : string) (now : float) : Py World unit := on_group (Group.heartbeat member_id now).
Definition assigned_partitions (member_id : string) : Py World (list Z) := on_group (Group.assignment_for member_id).

Definition group_offset (partition : Z) : Py World Z :=
  (gid <- get (λ w, Group.group_id (group w)) ;; on_log (Broker.committed_offset gid partition))%py.
Definition poll_partition (partition max_records : Z) : Py World (list (Broker.LogRecord V)) :=
  (offset <- group_offset partition ;; on_log (Broker.read partition offset max_records))%py.

Definition commit (record : Broker.LogRecord V) : Py World unit :=
  (gid <- get (λ w, Group.group_id (group w)) ;;
   on_log (Broker.commit_offset gid (Broker.rec_partition record) (Broker.rec_offset record + 1)))%py.

(** ** Execution *)

Definition committed (p : Z) (w : World) : Z := Broker.committed (Group.group_id (group w)) p (log w).

Lemma group_offset_eq p w :
  Broker.valid_partition p (log w) → group_offset p w = (Ok (committed p w), w).
Proof.
  intros Hv. unfold group_offset, Broker.committed_offset, on_log, zoom, bind, get.
  rewrite Broker.check_partition_ok by done. by destruct w.
Qed.

Lemma poll_eq p max w :
  Broker.valid_partition p (log w) → 0 ≤ committed p w →
  poll_partition p max w = (Ok (slice (committed p w) (committed p w + max) (Broker.partition_of p (log w))), w).
Proof.
  intros Hv Hc. unfold poll_partition, bind. rewrite group_offset_eq by done.
  unfold on_log, zoom. rewrite Broker.read_eq by done. by destruct w.
Qed.

Definition set_committed (p o : Z) (w : World) : World :=
  mkWorld (Broker.mkLog (Broker.topic (log w)) (Broker.partitions (log w))
             (<[(Group.group_id (group w), p) := Z.max (committed p w) o]> (Broker.committed_offsets (log w))))
          (group w).

Lemma commit_eq record w :
  Broker.valid_partition (Broker.rec_partition record) (log w) →
  commit record w = (Ok tt, set_committed (Broker.rec_partition record) (Broker.rec_offset record + 1) w).
Proof. intros Hv. unfold commit, bind, get, on_log, zoom. by rewrite Broker.commit_offset_eq. Qed.

Lemma committed_set p q o w :
  committed q (set_committed p o w) = if decide (q = p) then Z.max (committed p w) o else committed q w.
Proof.
  unfold committed at 1, Broker.committed, set_committed. simpl. case_decide as E.
  - subst. by rewrite lookup_insert_eq.
  - rewrite lookup_insert_ne by congruence. done.
Qed.

End group_consumer.
Arguments World V : clear implicits.
End GroupConsumer.
