(* ===== verification/Scorer.v ===== *)
(** * The fraud scorer (fraud/scorer.py)

    Rule weights in binary64 floats, the large-amount rule on [Decimal]s, and
    the velocity rule on the recent timestamps of each account.  The readings
    of the two clocks of a call, [now_fn] and the default of [scored_at], are
    its arguments.  [timedelta] and the subtraction of a [datetime] are those
    of Python's [datetime] module, in microseconds. *)

From stdpp Require Import base gmap strings list sorting.
From Stdlib Require Import ZArith SpecFloat Lia.
From S2P Require Import Prelude PyDecimal PyFloat Models.

Local Open Scope Z_scope.

Module Timedelta.

(** The nearest integer to [num / 2^k], ties to even. *)
Definition round_half_even (num k : Z) : Z :=
  Z.sgn num * Dec.div_half_even (Z.abs num) (2 ^ k).

Definition signed (s : bool) (m : Z) : Z := if s then - m else m.

(** [math.modf]: the integral part and the fraction of a finite float. *)
Definition modf (s : bool) (m : positive) (e : Z) : Z * float :=
  if 0 <=? e then (signed s (Z.pos m * 2 ^ e), F.zero)
  else
    let q := Z.pos m / 2 ^ (- e) in
    let r := Z.pos m mod 2 ^ (- e) in
    (signed s q, binary_normalize 53 1024 (signed s r) e false).

(** A finite float rounded to an integer, ties to even. *)
Definition round_float (f : float) : Z :=
  match f with
  | S754_finite s m e =>
      if 0 <=? e then signed s (Z.pos m * 2 ^ e) else round_half_even (signed s (Z.pos m)) (- e)
  | _ => 0
  end.

Definition max_days : Z := 999999999.

(** [timedelta(seconds=x)], in microseconds. *)
Definition of_seconds (x : float) : res Z :=
  match x with
  | S754_nan => Raise (ValueError "cannot convert float NaN to integer")
  | S754_infinity _ => Raise OverflowError
  | S754_zero _ => Ok 0
  | S754_finite s m e =>
      let '(whole, frac) := modf s m e in
      let us := whole * 1000000 + round_float (F.mul (F.of_Z 1000000) frac) in
      if Z.abs (us / 86400000000) <=? max_days then Ok us else Raise OverflowError
  end.

(** [datetime.min] and [datetime.max], in microseconds since the epoch. *)
Definition datetime_min : Z := -62135596800000000.
Definition datetime_max : Z := 253402300799999999.

(** [t - timedelta] *)
Definition before (t us : Z) : res Z :=
  let d := t - us in
  if (datetime_min <=? d) && (d <=? datetime_max) then Ok d else Raise OverflowError.

Example sixty : of_seconds (F.lit 60 0) = Ok 60000000.
Proof. reflexivity. Qed.
Example tenth : of_seconds (F.lit 1 1) = Ok 100000.
Proof. reflexivity. Qed.
Example neg_half_us : of_seconds (F.div (F.of_Z (-15)) (F.of_Z 10000000)) = Ok (-2).
Proof. reflexivity. Qed.

End Timedelta.

Module Scorer.

Record ScorerConfig := mkConfig {
  large_amount_threshold : Decimal;
  velocity_window_seconds : float;
  velocity_max_transactions : Z;
  device_flag_weight : float;
  large_amount_weight : float;
  velocity_weight : float;
  fraud_threshold : float
}.

(** The field defaults. *)
Definition default_config : ScorerConfig :=
  mkConfig (Dec.of_Z 10000) (F.lit 60 0) 5 (F.lit 6 1) (F.lit 5 1) (F.lit 6 1) (F.lit 5 1).

Record RuleBasedScorer := mkScorer {
  worker_id : string;
  config : ScorerConfig;
  recent_by_account : gmap string (list datetime)
}.

(** [__init__] *)
Definition init (wid : string) (cfg : option ScorerConfig) : RuleBasedScorer :=
  mkScorer wid (default default_config cfg) ∅.

Definition set_recent (account : string) (window : list datetime) (s : RuleBasedScorer) : RuleBasedScorer :=
  mkScorer (worker_id s) (config s) (<[account := window]> (recent_by_account s)).

(** The [defaultdict] lookup. *)
Definition window_of (account : string) (s : RuleBasedScorer) : list datetime :=
  default [] (recent_by_account s !! account).

(** [while window and window[0] < cutoff: window.popleft()] *)
Fixpoint expire (cutoff : datetime) (window : list datetime) : list datetime :=
  match window with
  | t :: rest => if t <? cutoff then expire cutoff rest else window
  | [] => []
  end.

Abbreviation M := (Py RuleBasedScorer).

(** [_record_and_count] *)
Definition record_and_count (txn : Transaction) (now : datetime) : M Z :=
  (window <- get (window_of (tx_account_id txn)) ;;
   let window := window ++ [now] in
   modify (set_recent (tx_account_id txn) window) ;;;
   cfg <- get config ;;
   delta <- lift (Timedelta.of_seconds (velocity_window_seconds cfg)) ;;
   cutoff <- lift (Timedelta.before now delta) ;;
   let window := expire cutoff window in
   modify (set_recent (tx_account_id txn) window) ;;;
   ret (zlen window))%py.

(** The f-strings of the reasons. *)
Definition amount_reason (txn : Transaction) (cfg : ScorerConfig) : fstring :=
  [FLit "amount "; FDec (tx_amount txn); FLit " >= large-amount threshold "; FDec (large_amount_threshold cfg)].
Definition device_reason : fstring := [FLit "device flagged"].
Definition velocity_reason (velocity : Z) (txn : Transaction) (cfg : ScorerConfig) : fstring :=
  [FLit "velocity "; FInt velocity; FLit " transactions for "; FStr (tx_account_id txn);
   FLit " within "; FFloat (velocity_window_seconds cfg); FLit "s window"].

(** One rule: when it fires, its weight is added and its reason appended. *)
Definition rule (fires : bool) (w : float) (reason : fstring) (acc : float * list fstring) : float * list fstring :=
  if fires then (F.add acc.1 w, acc.2 ++ [reason]) else acc.

Definition device_flagged (txn : Transaction) : bool :=
  match tx_metadata txn !! "device_flagged"%string with Some v => String.eqb v "true" | None => false end.

Definition score (txn : Transaction) (now scored_at : datetime) : M FraudScore :=
  (cfg <- get config ;;
   large <- lift (Dec.ge (tx_amount txn) (large_amount_threshold cfg)) ;;
   let acc := rule large (large_amount_weight cfg) (amount_reason txn cfg) (F.zero, []) in
   let acc := rule (device_flagged txn) (device_flag_weight cfg) device_reason acc in
   velocity <- record_and_count txn now ;;
   let '(weight, reasons) :=
     rule (velocity_max_transactions cfg <? velocity) (velocity_weight cfg) (velocity_reason velocity txn cfg) acc in
   let score := F.min weight (F.lit 1 0) in
   wid <- get worker_id ;;
   lift (FraudScore_post_init
     (mkFraudScore (tx_id txn) wid score (F.ge score (fraud_threshold cfg)) reasons scored_at)))%py.

(** ** The velocity window *)

Lemma expire_suffix cutoff window : expire cutoff window `suffix_of` window.
Proof.
  induction window as [|t w IH]; simpl; [done|]. destruct (t <? cutoff); [|done]. by apply suffix_cons_r.
Qed.

(** On a window in time order the loop removes exactly the old timestamps. *)
Lemma expire_filter cutoff window :
  StronglySorted Z.le window → expire cutoff window = filter (λ t, cutoff ≤ t) window.
Proof.
  induction 1 as [|t w Hs IH Ht]; simpl; [done|]. rewrite filter_cons.
  destruct (Z.ltb_spec t cutoff).
  - rewrite decide_False by lia. done.
  - rewrite decide_True by done. rewrite filter_all; [done|]. intros u Hu.
    rewrite Forall_forall in Ht. specialize (Ht u Hu). lia.
Qed.

(** [record_and_count] when the clock is inside [datetime]'s range. *)
Lemma record_and_count_eq txn now s delta cutoff :
  Timedelta.of_seconds (velocity_window_seconds (config s)) = Ok delta →
  Timedelta.before now delta = Ok cutoff →
  record_and_count txn now s =
    (Ok (zlen (expire cutoff (window_of (tx_account_id txn) s ++ [now]))),
     set_recent (tx_account_id txn) (expire cutoff (window_of (tx_account_id txn) s ++ [now])) s).
Proof.
  intros Hd Hc. unfold record_and_count, bind, get, modify, lift, ret. simpl. rewrite Hd, Hc.
  unfold set_recent. simpl. by rewrite insert_insert_eq.
Qed.

Lemma window_set a b w s : window_of a (set_recent b w s) = if decide (a = b) then w else window_of a s.
Proof.
  unfold window_of, set_recent. simpl. case_decide as E.
  - subst. by rewrite lookup_insert_eq.
  - by rewrite lookup_insert_ne.
Qed.

(** ** Scores *)

Lemma score_eq txn now at_ s large delta cutoff :
  Dec.ge (tx_amount txn) (large_amount_threshold (config s)) = Ok large →
  Timedelta.of_seconds (velocity_window_seconds (config s)) = Ok delta →
  Timedelta.before now delta = Ok cutoff →
  let window := expire cutoff (window_of (tx_account_id txn) s ++ [now]) in
  let fast := velocity_max_transactions (config s) <? zlen window in
  let acc := rule fast (velocity_weight (config s)) (velocity_reason (zlen window) txn (config s))
    (rule (device_flagged txn) (device_flag_weight (config s)) device_reason
      (rule large (large_amount_weight (config s)) (amount_reason txn (config s)) (F.zero, []))) in
  score txn now at_ s =
    (FraudScore_post_init (mkFraudScore (tx_id txn) (worker_id s) (F.min acc.1 (F.lit 1 0))
       (F.ge (F.min acc.1 (F.lit 1 0)) (fraud_threshold (config s))) acc.2 at_),
     set_recent (tx_account_id txn) window s).
Proof.
  intros Hl Hd Hc window fast acc. unfold score, bind, get, lift at 1. rewrite Hl.
  rewrite (record_and_count_eq txn now s delta cutoff Hd Hc). fold window.
  change (config (set_recent _ _ _)) with (config s). fold fast. fold acc.
  by destruct acc.
Qed.

(** With the default weights and threshold, the eight outcomes of the rules. *)
Lemma default_weights (large device fast : bool) (ra rd rv : fstring) :
  let c := default_config in
  let acc := rule fast (velocity_weight c) rv
    (rule device (device_flag_weight c) rd (rule large (large_amount_weight c) ra (F.zero, []))) in
  let s := F.min acc.1 (F.lit 1 0) in
  F.le F.zero s && F.le s (F.lit 1 0) = true ∧
  F.ge s (fraud_threshold c) = large || device || fast ∧
  acc.2 = (if large then [ra] else []) ++ (if device then [rd] else []) ++ (if fast then [rv] else []).
Proof. destruct large, device, fast; vm_compute; done. Qed.

(** ** Histories of scored transactions *)

(** The scorer after a list of scored transactions with their clock readings;
    a raised exception leaves the state it reached. *)
Definition run (events : list (Transaction * datetime)) (s : RuleBasedScorer) : RuleBasedScorer :=
  foldl (λ s e, (score e.1 e.2 e.2 s).2) s events.

(** The readings of one account. *)
Definition times_of (account : string) (events : list (Transaction * datetime)) : list datetime :=
  (filter (λ e, tx_account_id e.1 = account) events).*2.

(** What a history must satisfy for no call to raise: comparable amounts and
    clock readings from which the window can be subtracted. *)
Definition scorable (cfg : ScorerConfig) (delta : Z) (e : Transaction * datetime) : Prop :=
  res_is_ok (Dec.ge (tx_amount e.1) (large_amount_threshold cfg)) = true ∧
  res_is_ok (Timedelta.before e.2 delta) = true.

Lemma before_eq now delta : res_is_ok (Timedelta.before now delta) = true → Timedelta.before now delta = Ok (now - delta).
Proof. unfold Timedelta.before. by case_match. Qed.

Lemma score_state txn now at_ s delta :
  Timedelta.of_seconds (velocity_window_seconds (config s)) = Ok delta →
  scorable (config s) delta (txn, now) →
  (score txn now at_ s).2 =
    set_recent (tx_account_id txn) (expire (now - delta) (window_of (tx_account_id txn) s ++ [now])) s.
Proof.
  intros Hd [Ha Hb]. simpl in Ha, Hb. destruct (Dec.ge _ _) as [large|] eqn:El; [|done].
  by rewrite (score_eq txn now at_ s large delta (now - delta) El Hd (before_eq _ _ Hb)).
Qed.

Lemma score_config txn now at_ s delta :
  Timedelta.of_seconds (velocity_window_seconds (config s)) = Ok delta →
  scorable (config s) delta (txn, now) → config (score txn now at_ s).2 = config s.
Proof. intros Hd Hs. by rewrite (score_state _ _ _ _ _ Hd Hs). Qed.

Lemma times_of_snoc a events txn now :
  times_of a (events ++ [(txn, now)]) =
    if decide (tx_account_id txn = a) then times_of a events ++ [now] else times_of a events.
Proof.
  unfold times_of. rewrite filter_app, fmap_app, filter_cons, filter_nil. cbn [fst].
  case_decide; [done|]. by rewrite fmap_nil, app_nil_r.
Qed.

Lemma run_snoc events e s : run (events ++ [e]) s = (score e.1 e.2 e.2 (run events s)).2.
Proof. unfold run. by rewrite foldl_app. Qed.

Lemma run_config delta events s :
  Timedelta.of_seconds (velocity_window_seconds (config s)) = Ok delta →
  Forall (scorable (config s) delta) events → config (run events s) = config s.
Proof.
  intros Hd. induction events as [|[txn now] events IH] using rev_ind; intros Hs; [done|].
  rewrite Forall_app, Forall_singleton in Hs. destruct Hs as [Hs Hn]. specialize (IH Hs). rewrite run_snoc. cbn [fst snd].
  by rewrite (score_config _ _ _ _ delta) by (by rewrite IH).
Qed.

Lemma sorted_snoc (l : list Z) x : StronglySorted Z.le (l ++ [x]) → StronglySorted Z.le l ∧ ∀ y, y ∈ l → y ≤ x.
Proof.
  induction l as [|z l IH]; simpl; [intros _; split; [constructor|by intros y ?%not_elem_of_nil]|].
  intros H. apply StronglySorted_inv in H as [Hl Hz]. destruct (IH Hl) as [H1 H2].
  rewrite Forall_app, Forall_singleton in Hz. destruct Hz as [Hz Hx]. split; [by constructor|].
  intros y [->|Hy]%elem_of_cons; [done|by apply H2].
Qed.

Lemma sorted_app_one (l : list Z) x : StronglySorted Z.le l → (∀ y, y ∈ l → y ≤ x) → StronglySorted Z.le (l ++ [x]).
Proof.
  induction 1 as [|z l Hs IH Hz]; intros Hx; simpl; [repeat constructor|]. constructor.
  - apply IH. intros y Hy. apply Hx. by right.
  - apply Forall_app. split; [done|]. apply Forall_singleton, Hx. by left.
Qed.

Lemma sorted_filter (P : Z → Prop) `{∀ x, Decision (P x)} (l : list Z) :
  StronglySorted Z.le l → StronglySorted Z.le (filter P l).
Proof.
  induction 1 as [|z l Hs IH Hz]; [constructor|]. rewrite filter_cons. case_decide; [|done].
  constructor; [done|]. rewrite Forall_forall in *. intros y [_ Hy]%list_elem_of_filter. by apply Hz.
Qed.

Lemma sorted_times a (events : list (Transaction * datetime)) :
  StronglySorted Z.le events.*2 → StronglySorted Z.le (times_of a events).
Proof.
  induction events as [|[txn now] events IH]; [intros; constructor|]. rewrite fmap_cons.
  intros [Hs Hf]%StronglySorted_inv. unfold times_of. rewrite filter_cons. case_decide; [|by apply IH].
  rewrite fmap_cons. constructor; [by apply IH|]. rewrite Forall_forall in *. intros t Ht. apply Hf.
  apply list_elem_of_fmap in Ht as (e & -> & [_ He]%list_elem_of_filter). by apply list_elem_of_fmap_2.
Qed.

Lemma times_of_elem a events t : t ∈ times_of a events → t ∈ events.*2.
Proof.
  unfold times_of. intros (e & -> & [_ He]%list_elem_of_filter)%list_elem_of_fmap. by apply list_elem_of_fmap_2.
Qed.

Lemma filter_window (l : list Z) a b : a ≤ b → filter (λ t, b ≤ t) (filter (λ t, a ≤ t) l) = filter (λ t, b ≤ t) l.
Proof. intros Hab. rewrite list_filter_filter. apply list_filter_iff. intros t. lia. Qed.

(** The window of an account holds its readings of the last [delta]
    microseconds, counted back from its latest one. *)
Lemma run_window delta events s a :
  Timedelta.of_seconds (velocity_window_seconds (config s)) = Ok delta → 0 ≤ delta →
  Forall (scorable (config s) delta) events → StronglySorted Z.le events.*2 →
  window_of a s = [] →
  window_of a (run events s) =
    match last (times_of a events) with
    | Some t => filter (λ u, t - delta ≤ u) (times_of a events)
    | None => []
    end.
Proof.
  intros Hd Hd0 Hs Hst Ha. revert Hs Hst. induction events as [|[txn now] events IH] using rev_ind; intros Hs Hst; [done|].
  rewrite Forall_app, Forall_singleton in Hs. destruct Hs as [Hs Hn]. pose proof (sorted_times a _ Hst) as Hta. rewrite fmap_app in Hst. apply sorted_snoc in Hst as [Hst Hle].
  simpl in Hle. specialize (IH Hs Hst). rewrite run_snoc. cbn [fst snd]. pose proof (run_config delta events s Hd Hs) as Hc.
  rewrite (score_state txn now now (run events s) delta) by (by rewrite Hc).
  rewrite window_set. rewrite times_of_snoc in Hta |- *. destruct (decide (a = tx_account_id txn)) as [->|Hne].
  2: { by rewrite decide_False by congruence. }
  rewrite decide_True in Hta by done. rewrite decide_True by done. rewrite last_snoc, IH. clear IH.
  destruct (last (times_of (tx_account_id txn) events)) as [t|] eqn:El.
  - assert (Ht : t ≤ now) by (apply Hle, (times_of_elem (tx_account_id txn)), last_Some_elem_of, El).
    rewrite expire_filter.
    + rewrite !filter_app, filter_window by lia. done.
    + apply sorted_snoc in Hta as Hta'. destruct Hta' as [Hts Hall]. apply sorted_app_one.
      * by apply sorted_filter.
      * intros u [_ Hu]%list_elem_of_filter. by apply Hall.
  - apply last_None in El. rewrite El. simpl. rewrite filter_cons, filter_nil.
    destruct (Z.ltb_spec now (now - delta)); [lia|]. by rewrite decide_True by lia.
Qed.

End Scorer.
