(* ===== verification/Worker.v ===== *)
(** * The fraud worker (fraud/worker.py)

    [run_once] pulls at most as many records as its bounded output queue has
    room for, scores each, puts it on the queue and commits its offset.  The
    second half is the same code one shared access at a time, as a thread runs
    it between the accesses of other threads, with the theorem that an
    undisturbed thread does what [run_once] does. *)

From stdpp Require Import base gmap strings list.
From Stdlib Require Import ZArith Lia.
From S2P Require Import Prelude PyFloat Models Broker Group Consumer Scorer.

Local Open Scope Z_scope.

(** [queue.Queue]: a maximum size of 0 or less is no bound. *)
Module Queue.
Section queue.
Context {T : Type}.

Record Queue := mkQueue { items : list T; maxsize : Z }.

Definition qsize (q : Queue) : Z := zlen (items q).
Definition full (q : Queue) : bool := (0 <? maxsize q) && (maxsize q <=? qsize q).
Definition put_nowait (x : T) : Py Queue unit := λ q,
  if full q then (Raise QueueFull, q) else (Ok tt, mkQueue (items q ++ [x]) (maxsize q)).
(** [get(timeout=...)]: [None] when the queue stays empty. *)
Definition get_one : Py Queue (option T) := λ q,
  match items q with [] => (Ok None, q) | x :: rest => (Ok (Some x), mkQueue rest (maxsize q)) end.

Definition within_bound (q : Queue) : Prop := 0 < maxsize q → qsize q ≤ maxsize q.

Lemma put_within x q : within_bound q → within_bound (put_nowait x q).2.
Proof.
  unfold within_bound, put_nowait, full, qsize. destruct (Z.ltb_spec 0 (maxsize q)); simpl.
  - destruct (Z.leb_spec (maxsize q) (zlen (items q))); simpl; [done|].
    intros. rewrite zlen_app. change (zlen [x]) with 1. lia.
  - lia.
Qed.

Lemma get_within q : within_bound q → within_bound (get_one q).2.
Proof.
  unfold within_bound, get_one, qsize. destruct (items q) as [|y l] eqn:E; simpl; rewrite ?E; [done|].
  rewrite zlen_cons. lia.
Qed.
End queue.
Arguments Queue T : clear implicits.
End Queue.

Module Worker.

Record FraudWorker := mkWorker { member_id : string; max_batch : Z }.

(** The objects the worker refers to. *)
Record World := mkWorld {
  consumer : GroupConsumer.World Transaction;
  scorer : Scorer.RuleBasedScorer;
  output_queue : Queue.Queue ScoredTransaction
}.

Abbreviation M := (Py World).
Abbreviation LogRecord := (Broker.LogRecord Transaction).

Definition on_consumer {A} (m : Py (GroupConsumer.World Transaction) A) : M A :=
  zoom consumer (λ c w, mkWorld c (scorer w) (output_queue w)) m.
Definition on_scorer {A} (m : Py Scorer.RuleBasedScorer A) : M A :=
  zoom scorer (λ s w, mkWorld (consumer w) s (output_queue w)) m.
Definition on_queue {A} (m : Py (Queue.Queue ScoredTransaction) A) : M A :=
  zoom output_queue (λ q w, mkWorld (consumer w) (scorer w) q) m.

Definition join (self : FraudWorker) (now : float) : M (list Z) :=
  on_consumer (GroupConsumer.join (member_id self) now).
Definition heartbeat (self : FraudWorker) (now : float) : M unit :=
  on_consumer (GroupConsumer.heartbeat (member_id self) now).

Definition available_capacity (self : FraudWorker) : M Z :=
  (q <- get output_queue ;;
   if Queue.maxsize q <=? 0 then ret (max_batch self)
   else
     let room := Queue.maxsize q - Queue.qsize q in
     ret (Z.max 0 (Z.min (max_batch self) room)))%py.

(** Scoring one record and handing it to the output queue; [at_] are the
    readings of the two clocks. *)
Definition emit (record : LogRecord) (at_ : datetime * datetime) : M ScoredTransaction :=
  (let transaction := Broker.rec_value record in
   score <- on_scorer (Scorer.score transaction at_.1 at_.2) ;;
   let scored := mkScored transaction score in
   on_queue (Queue.put_nowait scored) ;;;
   ret scored)%py.

Section run_once.
(** The clock readings for the n-th record scored by the call. *)
Context (clock : nat → datetime * datetime) (self : FraudWorker).

(** [for record in records] *)
Fixpoint each_record (records : list LogRecord) (capacity : Z) (produced : list ScoredTransaction)
    : M (Z * list ScoredTransaction) :=
  match records with
  | [] => ret (capacity, produced)
  | record :: records =>
      (scored <- emit record (clock (length produced)) ;;
       on_consumer (GroupConsumer.commit record) ;;;
       each_record records (capacity - 1) (produced ++ [scored]))%py
  end.

(** [for partition in self._consumer.assigned_partitions] *)
Fixpoint each_partition (ps : list Z) (capacity : Z) (produced : list ScoredTransaction)
    : M (list ScoredTransaction) :=
  match ps with
  | [] => ret produced
  | partition :: ps =>
      if capacity <=? 0 then ret produced
      else
        (records <- on_consumer (GroupConsumer.poll_partition partition capacity) ;;
         state <- each_record records capacity produced ;;
         each_partition ps state.1 state.2)%py
  end.

Definition run_once : M (list ScoredTransaction) :=
  (capacity <- available_capacity self ;;
   if capacity <=? 0 then ret []
   else
     ps <- on_consumer (GroupConsumer.assigned_partitions (member_id self)) ;;
     each_partition ps capacity [])%py.

(** ** One shared access at a time *)

(** Where a thread is in [run_once]: about to read the queue size, the
    assignment, the committed offset, the records; to score and put a record;
    to commit it; or ended by an exception. *)
Inductive Phase :=
| Idle
| Ready (capacity : Z)
| Loop (ps : list Z) (capacity : Z)
| Fetch (partition offset : Z) (ps : list Z) (capacity : Z)
| Batch (records : list LogRecord) (ps : list Z) (capacity : Z)
| Commit (record : LogRecord) (records : list LogRecord) (ps : list Z) (capacity : Z)
| Dead (e : exn).

(** The phase and the local list [produced]. *)
Abbreviation Local_ := (Phase * list ScoredTransaction)%type.

(** Runs an access and goes on from its result. *)
Definition access {A} (m : M A) (k : A → Local_) (produced : list ScoredTransaction) (w : World) : Local_ * World :=
  match m w with
  | (Ok a, w') => (k a, w')
  | (Raise e, w') => ((Dead e, produced), w')
  end.

Definition step (t : Local_) (at_ : datetime * datetime) (w : World) : Local_ * World :=
  let produced := t.2 in
  match t.1 with
  | Idle =>
      access (available_capacity self) (λ c, if c <=? 0 then (Idle, []) else (Ready c, [])) [] w
  | Ready c =>
      access (on_consumer (GroupConsumer.assigned_partitions (member_id self))) (λ ps, (Loop ps c, produced)) produced w
  | Loop [] _ => ((Idle, produced), w)
  | Loop (p :: ps) c =>
      if c <=? 0 then ((Idle, produced), w)
      else access (on_consumer (GroupConsumer.group_offset p)) (λ o, (Fetch p o ps c, produced)) produced w
  | Fetch p o ps c =>
      access (on_consumer (GroupConsumer.on_log (Broker.read p o c))) (λ rs, (Batch rs ps c, produced)) produced w
  | Batch [] ps c => ((Loop ps c, produced), w)
  | Batch (r :: rs) ps c =>
      access (emit r at_) (λ scored, (Commit r rs ps c, produced ++ [scored])) produced w
  | Commit r rs ps c =>
      access (on_consumer (GroupConsumer.commit r)) (λ _, (Batch rs ps (c - 1), produced)) produced w
  | Dead e => (t, w)
  end.

(** A thread that runs alone, with the clock readings of [run_once]. *)
Fixpoint steps (n : nat) (t : Local_) (w : World) : Local_ * World :=
  match n with
  | O => (t, w)
  | S n => let '(t', w') := step t (clock (length t.2)) w in steps n t' w'
  end.

Lemma steps_app n m t w : steps (n + m) t w = let '(t', w') := steps n t w in steps m t' w'.
Proof.
  revert t w. induction n as [|n IH]; intros t w; simpl; [done|].
  destruct (step t _ w) as [t' w']. apply IH.
Qed.

(** [t] from [w] reaches [t'] and [w']. *)
Definition reaches (t : Local_) (w : World) (t' : Local_) (w' : World) : Prop :=
  ∃ n, steps n t w = (t', w').

Lemma reaches_refl t w : reaches t w t w.
Proof. by exists O. Qed.

Lemma reaches_step t w t' w' t1 w1 :
  step t (clock (length t.2)) w = (t1, w1) → reaches t1 w1 t' w' → reaches t w t' w'.
Proof. intros Hs [n Hn]. exists (S n). simpl. by rewrite Hs. Qed.

Lemma reaches_trans t w t1 w1 t2 w2 : reaches t w t1 w1 → reaches t1 w1 t2 w2 → reaches t w t2 w2.
Proof. intros [n Hn] [m Hm]. exists (n + m)%nat. by rewrite steps_app, Hn. Qed.

(** The outcome of a block of [run_once] and where the thread is after it. *)
Definition ends {A} (r : res A) (k : A → Local_) (t : Local_) : Prop :=
  match r with Ok a => t = k a | Raise e => t.1 = Dead e end.

Lemma each_record_steps records ps : ∀ c produced w,
  let '(r, w') := each_record records c produced w in
  ∃ t, reaches (Batch records ps c, produced) w t w' ∧ ends r (λ s, (Batch [] ps s.1, s.2)) t.
Proof.
  induction records as [|x records IH]; intros c produced w; simpl.
  { eexists. split; [apply reaches_refl|done]. }
  unfold bind at 1. destruct (emit x _ w) as [[scored|e] w1] eqn:He.
  2: { exists (Dead e, produced). split; [|done].
       eapply reaches_step; [|apply reaches_refl]. unfold step, access; cbn [fst snd]. by rewrite He. }
  unfold bind. destruct (on_consumer (GroupConsumer.commit x) w1) as [[[]|e] w2] eqn:Hc.
  2: { exists (Dead e, produced ++ [scored]). split; [|done].
       eapply reaches_step; [unfold step, access; cbn [fst snd]; rewrite He; reflexivity|].
       eapply reaches_step; [|apply reaches_refl]. unfold step, access; cbn [fst snd]. by rewrite Hc. }
  specialize (IH (c - 1) (produced ++ [scored]) w2).
  destruct (each_record records (c - 1) (produced ++ [scored]) w2) as [r w3]. destruct IH as (t & Ht & Hr).
  exists t. split; [|done].
  eapply reaches_step; [unfold step, access; cbn [fst snd]; rewrite He; reflexivity|].
  eapply reaches_step; [unfold step, access; cbn [fst snd]; rewrite Hc; reflexivity|]. done.
Qed.

Lemma poll_steps p ps c produced w :
  (c <=? 0) = false →
  let '(r, w') := on_consumer (GroupConsumer.poll_partition p c) w in
  ∃ t, reaches (Loop (p :: ps) c, produced) w t w' ∧ ends r (λ rs, (Batch rs ps c, produced)) t.
Proof.
  intros Hc. destruct (on_consumer (GroupConsumer.poll_partition p c) w) as [r w'] eqn:E.
  assert (E' : (o <- on_consumer (GroupConsumer.group_offset p) ;;
                on_consumer (GroupConsumer.on_log (Broker.read p o c)))%py w = (r, w')).
  { rewrite <- E. unfold GroupConsumer.poll_partition, on_consumer, zoom, bind.
    destruct (GroupConsumer.group_offset p (consumer w)) as [[o|e] c1]; [|done]. simpl.
    by destruct (GroupConsumer.on_log _ c1). }
  clear E. revert E'. unfold bind. destruct (on_consumer (GroupConsumer.group_offset p) w) as [[o|e] w1] eqn:Ho.
  - intros Hr. exists (match r with Ok rs => (Batch rs ps c, produced) | Raise e => (Dead e, produced) end).
    split; [|by destruct r].
    eapply reaches_step; [unfold step, access; cbn [fst snd]; rewrite Hc, Ho; reflexivity|].
    eapply reaches_step; [|apply reaches_refl]. unfold step, access; cbn [fst snd]. rewrite Hr. by destruct r.
  - intros [= <- <-]. exists (Dead e, produced). split; [|done].
    eapply reaches_step; [|apply reaches_refl]. unfold step, access; cbn [fst snd]. by rewrite Hc, Ho.
Qed.

Lemma each_partition_steps ps : ∀ c produced w,
  let '(r, w') := each_partition ps c produced w in
  ∃ t, reaches (Loop ps c, produced) w t w' ∧ ends r (λ l, (Idle, l)) t.
Proof.
  induction ps as [|p ps IH]; intros c produced w; simpl.
  { eexists. split; [|done]. eapply reaches_step; [done|apply reaches_refl]. }
  destruct (c <=? 0) eqn:Hc.
  { eexists. split; [|done]. eapply reaches_step; [unfold step; cbn [fst snd]; rewrite Hc; reflexivity|apply reaches_refl]. }
  unfold bind at 1. pose proof (poll_steps p ps c produced w Hc) as Hp.
  destruct (on_consumer (GroupConsumer.poll_partition p c) w) as [[records|e] w1]; [|done].
  destruct Hp as (t1 & Ht1 & ->). unfold bind. pose proof (each_record_steps records ps c produced w1) as Hr.
  destruct (each_record records c produced w1) as [[[c' produced']|e] w2]; destruct Hr as (t2 & Ht2 & E2).
  2: { exists t2. split; [|done]. by eapply reaches_trans. }
  simpl in E2. subst t2. simpl. specialize (IH c' produced' w2).
  destruct (each_partition ps c' produced' w2) as [r w3]. destruct IH as (t3 & Ht3 & E3). exists t3.
  split; [|done]. eapply reaches_trans; [done|]. eapply reaches_trans; [done|].
  by eapply reaches_step; [simpl; reflexivity|].
Qed.

(** A thread that runs alone from [Idle] does what [run_once] does. *)
Lemma run_once_steps old w :
  let '(r, w') := run_once w in
  ∃ t, reaches (Idle, old) w t w' ∧ ends r (λ l, (Idle, l)) t.
Proof.
  destruct (available_capacity self w) as [[c|e] w1] eqn:Ha.
  2: { exfalso. revert Ha. unfold available_capacity, bind, get, ret. by case_match. }
  assert (Hw1 : w1 = w) by (revert Ha; unfold available_capacity, bind, get, ret; case_match; by intros [= _ ->]).
  subst w1. unfold run_once, bind at 1. rewrite Ha. destruct (c <=? 0) eqn:Hc.
  { eexists. split; [|done]. eapply reaches_step; [unfold step, access; cbn [fst snd]; rewrite Ha, Hc; reflexivity|apply reaches_refl]. }
  unfold bind. destruct (on_consumer _ w) as [[ps|e] w1] eqn:Hg.
  - pose proof (each_partition_steps ps c [] w1) as Hp. destruct (each_partition ps c [] w1) as [r w2].
    destruct Hp as (t & Ht & E). exists t. split; [|done].
    eapply reaches_step; [unfold step, access; cbn [fst snd]; rewrite Ha, Hc; reflexivity|].
    eapply reaches_step; [unfold step, access; cbn [fst snd]; rewrite Hg; reflexivity|]. done.
  - exists (Dead e, []). split; [|done].
    eapply reaches_step; [unfold step, access; cbn [fst snd]; rewrite Ha, Hc; reflexivity|].
    eapply reaches_step; [unfold step, access; cbn [fst snd]; rewrite Hg; reflexivity|]. apply reaches_refl.
Qed.

End run_once.
End Worker.
