(* ===== verification/WorkerRun.v ===== *)
(** * What one [run_once] of a fraud worker does (fraud/worker.py)

    The invariant of the world of a worker and the functional behaviour of
    [run_once] on it: which records it scores, what it leaves unread and how
    full the output queue gets. *)

From stdpp Require Import base gmap strings list.
From Stdlib Require Import ZArith Lia.
From S2P Require Import Prelude PyDecimal PyFloat Models Broker Group Consumer Scorer Worker.

Local Open Scope Z_scope.

Module WorkerRun.

Abbreviation World := Worker.World.
Abbreviation LogRecord := (Broker.LogRecord Transaction).

Definition log_of (w : World) : Broker.PartitionedLog Transaction := GroupConsumer.log (Worker.consumer w).
Definition queue_of (w : World) : list ScoredTransaction := Queue.items (Worker.output_queue w).
Definition committed (p : Z) (w : World) : Z := GroupConsumer.committed p (Worker.consumer w).
Definition partition_of (p : Z) (w : World) : list LogRecord := Broker.partition_of p (log_of w).

(** The records of a partition from the group's committed offset on. *)
Definition unread (p : Z) (w : World) : list LogRecord := sfx (committed p w) (partition_of p w).

(** How many items the output queue takes before it is full. *)
Definition has_room (n : Z) (w : World) : Prop :=
  let q := Worker.output_queue w in 0 < Queue.maxsize q → Queue.qsize q + n ≤ Queue.maxsize q.

(** A transaction that the default scorer scores at these clock readings. *)
Definition scorable (txn : Transaction) (at_ : datetime * datetime) : Prop :=
  Scorer.scorable Scorer.default_config 60000000 (txn, at_.1).

(** The log is well formed, the offsets point into it, the scorer has the
    default configuration. *)
Record world_ok (w : World) : Prop := mkOk {
  ok_log : Broker.log_ok (log_of w);
  ok_offsets : ∀ p, Broker.valid_partition p (log_of w) → 0 ≤ committed p w ≤ zlen (partition_of p w);
  ok_config : Scorer.config (Worker.scorer w) = Scorer.default_config
}.

Lemma score_total txn at_ s :
  Scorer.config s = Scorer.default_config → scorable txn at_ →
  ∃ fs s', Scorer.score txn at_.1 at_.2 s = (Ok fs, s') ∧ Scorer.config s' = Scorer.default_config.
Proof.
  intros Hc [Ha Hb]. cbn [fst snd] in Ha, Hb. rewrite <- Hc in Ha.
  destruct (Dec.ge (tx_amount txn) _) as [large|] eqn:El; [|done].
  assert (Hd : Timedelta.of_seconds (Scorer.velocity_window_seconds (Scorer.config s)) = Ok 60000000)
    by (rewrite Hc; vm_compute; reflexivity).
  rewrite (Scorer.score_eq txn at_.1 at_.2 s large _ _ El Hd (Scorer.before_eq _ _ Hb)).
  rewrite Hc.
  match goal with |- context [Scorer.rule ?f _ ?rv (Scorer.rule ?d _ ?rd (Scorer.rule _ _ ?ra _))] =>
    destruct (Scorer.default_weights large d f ra rd rv) as (Hr & _) end.
  unfold FraudScore_post_init. cbn [fs_score]. cbv zeta in Hr. rewrite Hr. by do 2 eexists.
Qed.

(** What a commit of the next unread record leaves. *)
Lemma commit_next p r rest w :
  world_ok w → Broker.valid_partition p (log_of w) → unread p w = r :: rest →
  Broker.rec_partition r = p ∧ Broker.rec_offset r = committed p w ∧ sfx (committed p w + 1) (partition_of p w) = rest.
Proof.
  intros Hw Hv Hu. pose proof (ok_offsets w Hw p Hv) as Ho.
  assert (Hr : partition_of p w !! Z.to_nat (committed p w) = Some r).
  { unfold unread, sfx in Hu. rewrite <- (Nat.add_0_r (Z.to_nat _)), <- lookup_drop. by rewrite Hu. }
  destruct (ok_log w Hw p Hv _ _ Hr) as [H1 H2]. split_and!; [done|lia|].
  unfold unread, sfx in *. replace (Z.to_nat (committed p w + 1)) with (Z.to_nat (committed p w) + 1)%nat by lia.
  rewrite <- drop_drop, Hu. done.
Qed.

(** The effect of scoring, queueing and committing one record. *)
Definition after_record (p : Z) (scored : ScoredTransaction) (s : Scorer.RuleBasedScorer) (w : World) : World :=
  Worker.mkWorld (GroupConsumer.set_committed p (committed p w + 1) (Worker.consumer w)) s
    (Queue.mkQueue (queue_of w ++ [scored]) (Queue.maxsize (Worker.output_queue w))).

Lemma record_step p r rest at_ w :
  world_ok w → Broker.valid_partition p (log_of w) → unread p w = r :: rest →
  has_room 1 w → scorable (Broker.rec_value r) at_ →
  ∃ scored s w1, Worker.emit r at_ w = (Ok scored, w1) ∧
    st_transaction scored = Broker.rec_value r ∧
    Worker.on_consumer (GroupConsumer.commit r) w1 = (Ok tt, after_record p scored s w) ∧
    Scorer.config s = Scorer.default_config.
Proof.
  intros Hw Hv Hu Hroom Hs. destruct (commit_next p r rest w Hw Hv Hu) as (H1 & H2 & _).
  destruct (score_total (Broker.rec_value r) at_ (Worker.scorer w) (ok_config w Hw) Hs) as (fs & s & Hsc & Hcfg).
  exists (mkScored (Broker.rec_value r) fs), s.
  assert (Hfull : Queue.full (Worker.output_queue w) = false).
  { unfold has_room in Hroom. unfold Queue.full, Queue.qsize in *. destruct (Z.ltb_spec 0 (Queue.maxsize (Worker.output_queue w))); [|done].
    simpl. apply Z.leb_gt. lia. }
  eexists. split_and!; [|done| |done].
  - unfold Worker.emit, bind, Worker.on_scorer, Worker.on_queue, zoom, ret. rewrite Hsc. simpl.
    unfold Queue.put_nowait. rewrite Hfull. reflexivity.
  - unfold Worker.on_consumer, zoom. cbn [Worker.consumer]. rewrite GroupConsumer.commit_eq by (by rewrite H1).
    rewrite H1, H2. done.
Qed.

Section after.
Context (p : Z) (scored : ScoredTransaction) (s : Scorer.RuleBasedScorer) (w : World).
Let w' := after_record p scored s w.

Lemma after_committed q : 0 ≤ committed p w →
  committed q w' = if decide (q = p) then committed p w + 1 else committed q w.
Proof.
  intros H0. unfold w', after_record, committed. cbn [Worker.consumer]. rewrite GroupConsumer.committed_set.
  case_decide; [lia|done].
Qed.

Lemma after_unread q : world_ok w → Broker.valid_partition p (log_of w) →
  unread q w' = if decide (q = p) then sfx (committed p w + 1) (partition_of p w) else unread q w.
Proof.
  intros Hw Hv. unfold unread. rewrite after_committed by (by apply (ok_offsets w Hw)).
  case_decide as E; [by subst q|done].
Qed.

Lemma after_ok : world_ok w → Broker.valid_partition p (log_of w) → committed p w < zlen (partition_of p w) →
  Scorer.config s = Scorer.default_config → world_ok w'.
Proof.
  intros Hw Hv Hlt Hc. split; [exact (ok_log w Hw)| |done].
  intros q Hq. pose proof (ok_offsets w Hw p Hv). rewrite after_committed by lia.
  case_decide as E; [|by apply (ok_offsets w Hw)]. subst q. change (partition_of p w') with (partition_of p w). lia.
Qed.

Lemma after_room n : has_room (n + 1) w → has_room n w'.
Proof.
  unfold has_room, w', after_record, Queue.qsize. simpl. rewrite zlen_app. change (zlen [scored]) with 1.
  unfold queue_of. intros H Hm. specialize (H Hm). lia.
Qed.
End after.

(** What scoring some records changes and what it does not. *)
Record frame (w w' : World) (outs : list ScoredTransaction) : Prop := mkFrame {
  frame_ok : world_ok w';
  frame_log : Broker.partitions (log_of w') = Broker.partitions (log_of w);
  frame_group : GroupConsumer.group (Worker.consumer w') = GroupConsumer.group (Worker.consumer w);
  frame_queue : queue_of w' = queue_of w ++ outs;
  frame_max : Queue.maxsize (Worker.output_queue w') = Queue.maxsize (Worker.output_queue w)
}.

Lemma frame_refl w : world_ok w → frame w w [].
Proof. intros Hw. split; try done. by rewrite app_nil_r. Qed.

Lemma frame_trans w1 w2 w3 o1 o2 : frame w1 w2 o1 → frame w2 w3 o2 → frame w1 w3 (o1 ++ o2).
Proof.
  intros [? L1 G1 Q1 M1] [? L2 G2 Q2 M2]. split; try congruence. rewrite Q2, Q1. by rewrite (assoc_L (++)).
Qed.

Lemma frame_valid w w' o p : frame w w' o → Broker.valid_partition p (log_of w) → Broker.valid_partition p (log_of w').
Proof. intros [_ L _ _ _]. unfold Broker.valid_partition, Broker.num_partitions. by rewrite L. Qed.

Lemma frame_partition w w' o p : frame w w' o → partition_of p w' = partition_of p w.
Proof. intros [_ L _ _ _]. unfold partition_of, Broker.partition_of. by rewrite L. Qed.

Lemma frame_room w w' o n : frame w w' o → has_room (n + zlen o) w → has_room n w'.
Proof.
  intros [_ _ _ Q M]. unfold has_room, Queue.qsize. unfold queue_of in Q. rewrite Q, M, zlen_app.
  intros H Hm. specialize (H Hm). lia.
Qed.

Section run.
Context (clock : nat → datetime * datetime) (self : Worker.FraudWorker).

Definition all_scorable (p : Z) (w : World) : Prop :=
  ∀ r n, r ∈ partition_of p w → scorable (Broker.rec_value r) (clock n).

Lemma each_record_spec p records rest : ∀ c produced w,
  world_ok w → Broker.valid_partition p (log_of w) → all_scorable p w →
  unread p w = records ++ rest → has_room (zlen records) w →
  ∃ outs w', Worker.each_record clock records c produced w = (Ok (c - zlen records, produced ++ outs), w') ∧
    st_transaction <$> outs = Broker.rec_value <$> records ∧ frame w w' outs ∧
    unread p w' = rest ∧ ∀ q, q ≠ p → unread q w' = unread q w.
Proof.
  induction records as [|r records IH]; intros c produced w Hw Hv Hs Hu Hroom.
  { exists [], w. split_and!; [|done|by apply frame_refl|done|done].
    simpl. unfold ret. rewrite Z.sub_0_r, app_nil_r. done. }
  rewrite zlen_cons in Hroom. assert (Hr : r ∈ partition_of p w).
  { assert (Hin : r ∈ unread p w) by (rewrite Hu; by left). unfold unread, sfx in Hin.
    rewrite <- (take_drop (Z.to_nat (committed p w)) (partition_of p w)). apply elem_of_app. by right. }
  pose proof (zlen_nonneg records) as Hnn.
  destruct (record_step p r (records ++ rest) (clock (length produced)) w Hw Hv Hu) as (scored & s & w1 & He & Ht & Hc & Hcfg);
    [intros Hm; specialize (Hroom Hm); lia|by apply Hs|].
  assert (Hlt : committed p w < zlen (partition_of p w)).
  { unfold unread, sfx in Hu. apply (f_equal length) in Hu. rewrite length_drop in Hu. simpl in Hu.
    pose proof (ok_offsets w Hw p Hv). unfold zlen. lia. }
  destruct (commit_next p r _ w Hw Hv Hu) as (_ & _ & Hrest).
  set (w2 := after_record p scored s w) in *.
  assert (Hw2 : world_ok w2) by (by apply after_ok).
  destruct (IH (c - 1) (produced ++ [scored]) w2) as (outs & w' & H1 & H2 & H3 & H4 & H5); [done|done|done| | |].
  { unfold w2. rewrite after_unread, decide_True by done. exact Hrest. }
  { apply after_room. by rewrite Z.add_comm. }
  exists (scored :: outs), w'. split_and!.
  - simpl. unfold bind. rewrite He, Hc, H1. rewrite zlen_cons, <- (assoc_L (++)). simpl. do 3 f_equal. lia.
  - rewrite !fmap_cons. by rewrite Ht, H2.
  - change (scored :: outs) with ([scored] ++ outs). eapply frame_trans; [|exact H3]. by split.
  - done.
  - intros q Hq. rewrite H5 by done. unfold w2. by rewrite after_unread, decide_False by done.
Qed.

(** The unread records of a list of partitions, in the order they are read. *)
Definition backlog (ps : list Z) (w : World) : list Transaction :=
  concat ((λ p, Broker.rec_value <$> unread p w) <$> ps).

Lemma poll_unread p c w :
  world_ok w → Broker.valid_partition p (log_of w) → 0 ≤ c →
  Worker.on_consumer (GroupConsumer.poll_partition p c) w = (Ok (pfx c (unread p w)), w).
Proof.
  intros Hw Hv Hc. destruct (ok_offsets w Hw p Hv) as [H0 Hle]. unfold Worker.on_consumer, zoom.
  rewrite GroupConsumer.poll_eq by done. destruct w as [cw sw qw]. simpl. repeat f_equal.
  unfold slice, unread, sfx, pfx, committed, partition_of, log_of in *. simpl in *.
  set (o := GroupConsumer.committed p cw) in *. set (l := Broker.partition_of p _) in *.
  rewrite (proj2 (Z.ltb_ge o 0)), (proj2 (Z.ltb_ge (o + c) 0)) by lia.
  rewrite Z.min_l by lia. rewrite skipn_firstn_comm.
  destruct (Z.le_gt_cases (o + c) (zlen l)).
  - rewrite Z.min_l by lia. f_equal. lia.
  - rewrite Z.min_r by lia. rewrite !take_ge; [done|rewrite length_drop; unfold zlen in *; lia..].
Qed.

Lemma zlen_fmap {A B} (f : A → B) (l : list A) : zlen (f <$> l) = zlen l.
Proof. unfold zlen. by rewrite length_fmap. Qed.

Lemma backlog_cons p ps w : backlog (p :: ps) w = (Broker.rec_value <$> unread p w) ++ backlog ps w.
Proof. unfold backlog. by rewrite fmap_cons. Qed.

Lemma backlog_same ps w w' : (∀ p, p ∈ ps → unread p w' = unread p w) → backlog ps w' = backlog ps w.
Proof.
  intros H. induction ps as [|p ps IH]; [done|]. rewrite !backlog_cons, H by left. f_equal.
  apply IH. intros q Hq. apply H. by right.
Qed.

Lemma each_partition_spec ps : ∀ c produced w,
  world_ok w → NoDup ps → (∀ p, p ∈ ps → Broker.valid_partition p (log_of w) ∧ all_scorable p w) →
  0 ≤ c → has_room c w →
  ∃ outs w', Worker.each_partition clock ps c produced w = (Ok (produced ++ outs), w') ∧ frame w w' outs ∧
    zlen outs = Z.min c (zlen (backlog ps w)) ∧
    backlog ps w = (st_transaction <$> outs) ++ backlog ps w' ∧
    ∀ q, q ∉ ps → unread q w' = unread q w.
Proof.
  induction ps as [|p ps IH]; intros c produced w Hw Hnd Hps Hc Hroom.
  { exists [], w. split_and!; [by rewrite app_nil_r|by apply frame_refl| |done|done].
    change (zlen (backlog [] w)) with 0. change (zlen []) with 0. lia. }
  apply NoDup_cons in Hnd as [Hp Hnd]. simpl. destruct (Z.leb_spec c 0).
  { exists [], w. split_and!; [by rewrite app_nil_r|by apply frame_refl| |done|done].
    pose proof (zlen_nonneg (backlog (p :: ps) w)). change (zlen []) with 0. lia. }
  destruct (Hps p ltac:(by left)) as [Hv Hsc]. unfold bind at 1. rewrite poll_unread by done.
  set (records := pfx c (unread p w)).
  assert (Hlen : zlen records = Z.min c (zlen (unread p w))).
  { unfold records, zlen, pfx. rewrite length_take. lia. }
  destruct (each_record_spec p records (sfx c (unread p w)) c produced w) as (o1 & w1 & H1 & H2 & H3 & H4 & H5);
    [done|done|done|symmetry; apply pfx_sfx|intros Hm; specialize (Hroom Hm); lia|].
  assert (Ho1 : zlen o1 = zlen records).
  { apply (f_equal zlen) in H2. by rewrite !zlen_fmap in H2. }
  unfold bind. rewrite H1. cbn [fst snd].
  destruct (IH (c - zlen records) (produced ++ o1) w1) as (o2 & w2 & G1 & G2 & G3 & G4 & G5);
    [exact (frame_ok _ _ _ H3)|done| |lia| |].
  { intros q Hq. destruct (Hps q ltac:(by right)) as [Hqv Hqs]. split; [by eapply frame_valid|].
    intros r n. rewrite (frame_partition _ _ _ q H3). apply Hqs. }
  { eapply frame_room; [exact H3|]. by rewrite Ho1, Z.sub_add. }
  assert (Hb : backlog ps w1 = backlog ps w) by (apply backlog_same; intros q Hq; apply H5; by intros ->).
  exists (o1 ++ o2), w2. split_and!.
  - rewrite G1. by rewrite (assoc_L (++)).
  - by eapply frame_trans.
  - rewrite zlen_app, G3, Hb, backlog_cons, zlen_app, Ho1, Hlen, zlen_fmap. pose proof (zlen_nonneg (backlog ps w)). pose proof (zlen_nonneg (unread p w)). lia.
  - rewrite !backlog_cons, fmap_app, H2. rewrite <- Hb, G4. rewrite (G5 p Hp), H4.
    destruct (Z.le_gt_cases (zlen (unread p w)) c).
    + assert (E : sfx c (unread p w) = []) by (unfold sfx; apply drop_ge; unfold zlen in *; lia).
      rewrite E, fmap_nil. simpl. unfold records. rewrite pfx_all by done. by rewrite (assoc_L (++)).
    + assert (Ho2 : o2 = []).
      { destruct o2; [done|]. exfalso. rewrite zlen_cons in G3. pose proof (zlen_nonneg o2). lia. }
      rewrite Ho2, fmap_nil, app_nil_r. simpl. rewrite (assoc_L (++)), <- fmap_app. unfold records.
      by rewrite pfx_sfx.
  - intros q [Hqp Hq]%not_elem_of_cons. rewrite G5, H5 by done. done.
Qed.

(** ** The whole of [run_once] *)

(** The partitions that are the worker's. *)
Definition assigned (w : World) : list Z :=
  default [] (Group.assignment (GroupConsumer.group (Worker.consumer w)) !! Worker.member_id self).

(** How many items the bounded output queue still takes. *)
Definition room (w : World) : Z := Queue.maxsize (Worker.output_queue w) - Queue.qsize (Worker.output_queue w).

(** The group shares out the partitions of the log; the queue is bounded. *)
Record able (w : World) : Prop := mkAble {
  ab_world : world_ok w;
  ab_group : Group.group_ok (GroupConsumer.group (Worker.consumer w));
  ab_num : Group.num_partitions (GroupConsumer.group (Worker.consumer w)) = Broker.num_partitions (log_of w);
  ab_batch : 0 ≤ Worker.max_batch self;
  ab_bounded : 0 < Queue.maxsize (Worker.output_queue w);
  ab_room : 0 ≤ room w
}.

Lemma frame_able w w' outs : frame w w' outs → able w → 0 ≤ room w' → able w'.
Proof.
  intros [Hw Hl Hg _ Hm] [_ Ag An Ab Aq _] Hr. split; try done; [by rewrite Hg|rewrite Hg, An; unfold Broker.num_partitions; by rewrite Hl|by rewrite Hm].
Qed.

Lemma frame_left w w' outs : frame w w' outs → room w' = room w - zlen outs.
Proof. intros [_ _ _ Hq Hm]. unfold room, Queue.qsize, queue_of in *. rewrite Hq, Hm, zlen_app. lia. Qed.

Lemma frame_assigned w w' outs : frame w w' outs → assigned w' = assigned w.
Proof. intros [_ _ Hg _ _]. unfold assigned. by rewrite Hg. Qed.

Lemma frame_scorable w w' outs p : frame w w' outs → all_scorable p w → all_scorable p w'.
Proof. intros Hf Hs r n. rewrite (frame_partition _ _ _ p Hf). apply Hs. Qed.

Lemma run_once_spec w : able w → (∀ p, all_scorable p w) →
  ∃ outs w', Worker.run_once clock self w = (Ok outs, w') ∧ frame w w' outs ∧
    zlen outs = Z.min (Z.min (Worker.max_batch self) (room w)) (zlen (backlog (assigned w) w)) ∧
    backlog (assigned w) w = (st_transaction <$> outs) ++ backlog (assigned w) w' ∧
    (∀ p, p ∉ assigned w → unread p w' = unread p w).
Proof.
  intros [Hw Hg Hnum Hb Hm Hq] Hsc. set (ps := assigned w). set (capacity := Z.min _ (room w)).
  assert (Hps : ∀ p, p ∈ ps → Broker.valid_partition p (log_of w)).
  { intros p [Hp _]%(Group.assignment_elem _ _ _ Hg). unfold Broker.valid_partition, log_of in *. lia. }
  assert (Hnd : NoDup ps) by (by apply Group.assignment_nodup).
  assert (Hav : Worker.available_capacity self w = (Ok capacity, w)).
  { unfold Worker.available_capacity, bind, get, ret. rewrite (proj2 (Z.leb_gt _ _)) by done.
    cbv zeta. unfold capacity, room in *. do 2 f_equal. lia. }
  assert (Has : Worker.on_consumer (GroupConsumer.assigned_partitions (Worker.member_id self)) w = (Ok ps, w)).
  { unfold Worker.on_consumer, GroupConsumer.assigned_partitions, GroupConsumer.on_group, zoom, Group.assignment_for, get.
    unfold ps, assigned. by destruct w as [[l g] s q]. }
  unfold Worker.run_once, bind. rewrite Hav. destruct (Z.leb_spec capacity 0) as [Hc|Hc].
  - exists [], w. split_and!; [done|by apply frame_refl| |done|done].
    pose proof (zlen_nonneg (backlog ps w)). change (zlen []) with 0. unfold capacity in *. lia.
  - rewrite Has. destruct (each_partition_spec ps capacity [] w) as (outs & w' & H1 & H2 & H3 & H4 & H5);
      [done|done|by intros p Hp; split; [apply Hps|apply Hsc]|lia|unfold has_room, capacity, room; lia|].
    exists outs, w'. by split_and!.
Qed.

(** A worker's own thread, left alone with enough room in the queue, empties
    its backlog: each [run_once] takes its share of it. *)
Lemma drains n : ∀ old w, length (backlog (assigned w) w) = n → able w → (∀ p, all_scorable p w) →
  0 < Worker.max_batch self → zlen (backlog (assigned w) w) ≤ room w →
  ∃ last outs w', Worker.reaches clock self (Worker.Idle, old) w (Worker.Idle, last) w' ∧ frame w w' outs ∧
    st_transaction <$> outs = backlog (assigned w) w ∧ backlog (assigned w) w' = [] ∧
    (∀ p, p ∉ assigned w → unread p w' = unread p w).
Proof.
  induction (lt_wf n) as [n _ IH]. intros old w En Ha Hsc Hb Hroom.
  destruct (backlog (assigned w) w) as [|x rest] eqn:Eb.
  { exists old, [], w. split_and!; [apply Worker.reaches_refl|apply frame_refl, Ha|done|done|done]. }
  destruct (run_once_spec w Ha Hsc) as (outs & w1 & H1 & Hf & Hl & Hbl & Ho).
  pose proof (Worker.run_once_steps clock self old w) as Hst. rewrite H1 in Hst. destruct Hst as (t & Ht & He). simpl in He. subst t.
  pose proof (frame_assigned _ _ _ Hf) as Ea. pose proof (frame_left _ _ _ Hf) as Er. rewrite Eb in Hl, Hbl.
  assert (Hpos : 0 < zlen outs) by (rewrite Hl; rewrite zlen_cons in *; pose proof (zlen_nonneg rest); lia).
  assert (Hlen : zlen (x :: rest) = zlen outs + zlen (backlog (assigned w) w1)) by (rewrite Hbl, zlen_app, zlen_fmap; done).
  pose proof (zlen_nonneg (backlog (assigned w) w1)).
  destruct (IH (length (backlog (assigned w1) w1))) with (old := outs) (w := w1) as (last & outs' & w' & R & F & T & E & O).
  - rewrite Ea. rewrite <- En. unfold zlen in *. lia.
  - done.
  - eapply frame_able; [exact Hf|exact Ha|]. lia.
  - intros p. by eapply frame_scorable.
  - done.
  - rewrite Ea. lia.
  - exists last, (outs ++ outs'), w'. rewrite Ea in *. split_and!.
    + by eapply Worker.reaches_trans.
    + by eapply frame_trans.
    + by rewrite fmap_app, T, <- Hbl.
    + done.
    + intros p Hp. by rewrite O, Ho.
Qed.

(** Nothing unread: the group's offset is at the end. *)
Lemma backlog_nil ps w p : world_ok w → backlog ps w = [] → p ∈ ps → Broker.valid_partition p (log_of w) →
  committed p w = zlen (partition_of p w).
Proof.
  intros Hw Hb Hp Hv. destruct (ok_offsets w Hw p Hv) as [H0 Hle].
  assert (Hu : unread p w = []).
  { induction ps as [|q ps IH]; [by apply not_elem_of_nil in Hp|].
    rewrite backlog_cons in Hb. apply app_eq_nil in Hb as [Hq Hb]. apply elem_of_cons in Hp as [->|Hp]; [|by apply IH].
    by apply fmap_nil_inv in Hq. }
  unfold unread, sfx in Hu. apply (f_equal length) in Hu. rewrite length_drop in Hu. simpl in Hu. unfold zlen in *. lia.
Qed.

End run.
End WorkerRun.
