(* ===== verification/WorkerSystem.v ===== *)
(** * Fraud workers running concurrently

    Worker threads (fraud/worker.py driven by coordinator/fraud_runtime.py)
    over one log, one consumer group and one bounded queue, interleaved one
    shared access at a time with producers, membership changes, the consumer
    of the queue, crashes and new workers.  The history of what was put on the
    queue is kept beside the state. *)

From stdpp Require Import base gmap strings list.
From Stdlib Require Import ZArith Lia.
From S2P Require Import Prelude PyFloat Models Broker Group Consumer Scorer Worker.

Local Open Scope Z_scope.

Module WorkerSystem.

Abbreviation LogRecord := (Broker.LogRecord Transaction).
Abbreviation Log := (Broker.PartitionedLog Transaction).

Record Thread := mkThread {
  worker : Worker.FraudWorker;
  scorer : Scorer.RuleBasedScorer;
  phase : Worker.Phase;
  produced : list ScoredTransaction
}.

Record System := mkSystem {
  shared : GroupConsumer.World Transaction;
  queue : Queue.Queue ScoredTransaction;
  threads : gmap string Thread;
  emitted : list ScoredTransaction
}.

Definition init (l : Log) (g : Group.ConsumerGroup) (maxsize : Z) : System :=
  mkSystem (GroupConsumer.mkWorld l g) (Queue.mkQueue [] maxsize) ∅ [].

Inductive Event :=
| Step (id : string) (at_ : datetime * datetime)      (* the next access of a thread *)
| Produce (key : string) (txn : Transaction) (now : datetime)
| GroupCall (c : Group.call)                         (* joins, heartbeats, evictions *)
| Take                                               (* the submitter's [get] *)
| Crash (id : string)
| Spawn (id : string) (w : Worker.FraudWorker) (s : Scorer.RuleBasedScorer).

(** The objects a thread works on. *)
Definition world_of (t : Thread) (s : System) : Worker.World :=
  Worker.mkWorld (shared s) (scorer t) (queue s).

Definition thread_step (id : string) (t : Thread) (at_ : datetime * datetime) (s : System) : System :=
  let '((ph, out), w) := Worker.step (worker t) (phase t, produced t) at_ (world_of t s) in
  mkSystem (Worker.consumer w) (Worker.output_queue w)
    (<[id := mkThread (worker t) (Worker.scorer w) ph out]> (threads s))
    (emitted s ++ sfx (Queue.qsize (queue s)) (Queue.items (Worker.output_queue w))).

Definition exec (e : Event) (s : System) : System :=
  match e with
  | Step id at_ =>
      match threads s !! id with Some t => thread_step id t at_ s | None => s end
  | Produce key txn now =>
      mkSystem (GroupConsumer.mkWorld (Broker.produce key txn now (GroupConsumer.log (shared s))).2
                  (GroupConsumer.group (shared s))) (queue s) (threads s) (emitted s)
  | GroupCall c =>
      mkSystem (GroupConsumer.mkWorld (GroupConsumer.log (shared s)) (Group.exec c (GroupConsumer.group (shared s))))
        (queue s) (threads s) (emitted s)
  | Take => mkSystem (shared s) (Queue.get_one (queue s)).2 (threads s) (emitted s)
  | Crash id => mkSystem (shared s) (queue s) (delete id (threads s)) (emitted s)
  | Spawn id w sc =>
      mkSystem (shared s) (queue s) (<[id := mkThread w sc Worker.Idle []]> (threads s)) (emitted s)
  end.

Definition run (es : list Event) (s : System) : System := foldl (λ s e, exec e s) s es.

Definition log_of (s : System) : Log := GroupConsumer.log (shared s).
Definition committed (p : Z) (s : System) : Z := GroupConsumer.committed p (shared s).

(** ** What is delivered *)

Definition delivered (out : list ScoredTransaction) (r : LogRecord) : Prop :=
  ∃ sc, sc ∈ out ∧ st_transaction sc = Broker.rec_value r.

(** The first [o] records of a partition are delivered. *)
Definition covered (l : Log) (out : list ScoredTransaction) (p o : Z) : Prop :=
  0 ≤ o ≤ zlen (Broker.partition_of p l) ∧ Forall (delivered out) (pfx o (Broker.partition_of p l)).

(** The records [rs] are those of the partition from position [o] on. *)
Definition segment (l : Log) (p o : Z) (rs : list LogRecord) : Prop :=
  rs `prefix_of` sfx o (Broker.partition_of p l).

(** What a thread may do next is justified by what has been delivered. *)
Definition phase_ok (l : Log) (out : list ScoredTransaction) (ph : Worker.Phase) : Prop :=
  match ph with
  | Worker.Fetch p o _ _ => Broker.valid_partition p l ∧ covered l out p o
  | Worker.Batch rs _ _ =>
      ∃ p o, Broker.valid_partition p l ∧ covered l out p o ∧ segment l p o rs
  | Worker.Commit r rs _ _ =>
      ∃ p o, Broker.valid_partition p l ∧ covered l out p o ∧ segment l p o rs ∧
        Broker.rec_partition r = p ∧ Broker.rec_offset r + 1 = o
  | _ => True
  end.

Record system_ok (s : System) : Prop := mkOk {
  ok_log : Broker.log_ok (log_of s);
  ok_num : 0 < Broker.num_partitions (log_of s);
  ok_commits : ∀ p, covered (log_of s) (emitted s) p (committed p s);
  ok_threads : ∀ id t, threads s !! id = Some t → phase_ok (log_of s) (emitted s) (phase t);
  ok_queue : Queue.within_bound (queue s)
}.

(** ** Growth *)

Definition grows (l l' : Log) : Prop :=
  Broker.num_partitions l' = Broker.num_partitions l ∧
  ∀ p, Broker.partition_of p l `prefix_of` Broker.partition_of p l'.

Lemma grows_same l l' : Broker.partitions l' = Broker.partitions l → grows l l'.
Proof. intros E. unfold grows, Broker.num_partitions, Broker.partition_of. by rewrite E. Qed.

Lemma pfx_grow {A} o (l l' : list A) : l `prefix_of` l' → o ≤ zlen l → pfx o l' = pfx o l.
Proof. intros. by apply pfx_prefix. Qed.

Lemma sfx_grow {A} o (l l' : list A) : l `prefix_of` l' → sfx o l `prefix_of` sfx o l'.
Proof.
  intros [k ->]. unfold sfx. rewrite drop_app. eexists. reflexivity.
Qed.

Lemma covered_grows l l' out out' p o :
  grows l l' → out `prefix_of` out' → covered l out p o → covered l' out' p o.
Proof.
  intros [_ Hp] [k ->] [Ho Hd]. pose proof (prefix_length _ _ (Hp p)). split; [unfold zlen in *; lia|].
  rewrite (pfx_grow _ _ _ (Hp p)) by lia. eapply Forall_impl; [exact Hd|].
  intros r (sc & Hin & E). exists sc. split; [|done]. apply elem_of_app. by left.
Qed.

Lemma segment_grows l l' p o rs : grows l l' → segment l p o rs → segment l' p o rs.
Proof. intros [_ Hp] Hs. unfold segment in *. etrans; [exact Hs|]. by apply sfx_grow. Qed.

Lemma valid_grows l l' p : grows l l' → Broker.valid_partition p l → Broker.valid_partition p l'.
Proof. intros [Hn _]. unfold Broker.valid_partition. by rewrite Hn. Qed.

Lemma phase_ok_grows l l' out out' ph :
  grows l l' → out `prefix_of` out' → phase_ok l out ph → phase_ok l' out' ph.
Proof.
  intros Hg Ho. destruct ph; simpl; try done.
  - intros [Hv Hc]. split; [by eapply valid_grows|by eapply covered_grows].
  - intros (p & o & ? & ? & ?). exists p, o.
    split; [by eapply valid_grows|]. split; [by eapply covered_grows|by eapply segment_grows].
  - intros (p & o & ? & ? & ? & ?). exists p, o.
    split; [by eapply valid_grows|]. split; [by eapply covered_grows|]. split; [by eapply segment_grows|done].
Qed.

(** What [produce] leaves in each partition. *)
Lemma produce_partitions key txn now (l : Log) q :
  0 < Broker.num_partitions l →
  Broker.partition_of q (Broker.produce key txn now l).2 = Broker.partition_of q l ∨
  ∃ r, Broker.rec_value r = txn ∧ Broker.partition_of q (Broker.produce key txn now l).2 = Broker.partition_of q l ++ [r].
Proof.
  intros Hn. destruct (Broker.produce_eq key txn now l Hn) as (p & _ & Hv & E). rewrite E. simpl.
  destruct (decide (0 ≤ q < Broker.num_partitions l)) as [Hq|Hq].
  - rewrite Broker.appended_partition by done. case_decide; [|by left]. subst q. right. eexists. split; [|reflexivity]. done.
  - unfold Broker.partition_of, Broker.appended. cbn [Broker.partitions].
    unfold Broker.valid_partition in Hv. destruct (decide (Z.to_nat q = Z.to_nat p)) as [->|Hne].
    + rewrite list_lookup_insert_eq by (unfold Broker.num_partitions, zlen in *; lia). right.
      eexists. split; [|reflexivity]. done.
    + rewrite list_lookup_insert_ne by done. by left.
Qed.

Lemma produce_grows key txn now (l : Log) :
  0 < Broker.num_partitions l → grows l (Broker.produce key txn now l).2 ∧
  (Broker.log_ok l → Broker.log_ok (Broker.produce key txn now l).2) ∧
  Broker.committed_offsets (Broker.produce key txn now l).2 = Broker.committed_offsets l.
Proof.
  intros Hn. destruct (Broker.produce_eq key txn now l Hn) as (p & Hk & Hv & E). split.
  - split; [rewrite E; apply Broker.appended_num|]. intros q.
    destruct (produce_partitions key txn now l q Hn) as [->|(r & _ & ->)]; [reflexivity|by apply prefix_app_r].
  - rewrite E. simpl. split; [intros Hl|done].
    pose proof (Broker.append_ok p key txn now l Hl) as Ha. by rewrite Broker.append_eq in Ha.
Qed.

(** ** One access of a thread *)

Lemma covered_next l out p o r :
  Broker.log_ok l → Broker.valid_partition p l → covered l out p o → segment l p o [r] → delivered out r →
  Broker.rec_partition r = p ∧ Broker.rec_offset r = o ∧ covered l out p (o + 1).
Proof.
  intros Hl Hv [Ho Hd] [k Hk] Hr.
  assert (Hat : Broker.partition_of p l !! Z.to_nat o = Some r).
  { unfold sfx in Hk. rewrite <- (Nat.add_0_r (Z.to_nat o)), <- lookup_drop. by rewrite Hk. }
  destruct (Hl p Hv _ _ Hat) as [H1 H2]. split; [done|]. split; [lia|].
  pose proof (lookup_lt_Some _ _ _ Hat). split; [unfold zlen; lia|].
  unfold pfx in *. replace (Z.to_nat (o + 1)) with (S (Z.to_nat o)) by lia.
  rewrite (take_S_r _ _ r Hat). apply Forall_app. split; [done|]. by apply Forall_singleton.
Qed.

Lemma segment_cons l p o r rs : 0 ≤ o → segment l p o (r :: rs) → segment l p o [r] ∧ segment l p (o + 1) rs.
Proof.
  unfold segment. intros Ho [k Hk]. split; [by exists (rs ++ k)|]. exists k.
  unfold sfx in *. replace (Z.to_nat (o + 1)) with (Z.to_nat o + 1)%nat by lia.
  rewrite <- drop_drop, Hk. done.
Qed.

Lemma delivered_snoc out sc r : st_transaction sc = Broker.rec_value r → delivered (out ++ [sc]) r.
Proof. intros E. exists sc. split; [|done]. apply elem_of_app. right. by left. Qed.

(** What a single access of a thread leaves: the objects it shares are related
    to what they were, and its next phase is justified. *)
Record access_ok (w : Worker.World) (out : list ScoredTransaction) (ph : Worker.Phase) (w' : Worker.World)
    (out' : list ScoredTransaction) : Prop := mkAccess {
  acc_partitions : Broker.partitions (GroupConsumer.log (Worker.consumer w')) =
                   Broker.partitions (GroupConsumer.log (Worker.consumer w));
  acc_group : GroupConsumer.group (Worker.consumer w') = GroupConsumer.group (Worker.consumer w);
  acc_out : out `prefix_of` out';
  acc_commits : ∀ p, GroupConsumer.committed p (Worker.consumer w') = GroupConsumer.committed p (Worker.consumer w) ∨
    covered (GroupConsumer.log (Worker.consumer w)) out' p (GroupConsumer.committed p (Worker.consumer w'));
  acc_queue : Queue.within_bound (Worker.output_queue w) → Queue.within_bound (Worker.output_queue w');
  acc_phase : phase_ok (GroupConsumer.log (Worker.consumer w')) out' ph
}.

(** The output history after an access. *)
Definition out_of (w w' : Worker.World) (out : list ScoredTransaction) : list ScoredTransaction :=
  out ++ sfx (Queue.qsize (Worker.output_queue w)) (Queue.items (Worker.output_queue w')).

Lemma sfx_self {A} (l : list A) : sfx (zlen l) l = [].
Proof. unfold sfx, zlen. apply drop_ge. lia. Qed.

Lemma sfx_snoc {A} (l : list A) x : sfx (zlen l) (l ++ [x]) = [x].
Proof. unfold sfx, zlen. rewrite Nat2Z.id. by rewrite drop_app_length. Qed.

Lemma out_same w w' out :
  Queue.items (Worker.output_queue w') = Queue.items (Worker.output_queue w) → out_of w w' out = out.
Proof. intros E. unfold out_of, Queue.qsize. by rewrite E, sfx_self, app_nil_r. Qed.

(** An access that leaves the consumer and the queue as they are. *)
Lemma access_quiet w w' out ph :
  Worker.consumer w' = Worker.consumer w → Worker.output_queue w' = Worker.output_queue w →
  phase_ok (GroupConsumer.log (Worker.consumer w)) out ph → access_ok w out ph w' (out_of w w' out).
Proof.
  intros Hc Hq Hp. rewrite out_same by (by rewrite Hq). split; rewrite ?Hc, ?Hq; try done. by left.
Qed.

Lemma on_consumer_read {A} (m : Py (GroupConsumer.World Transaction) A) w r w' :
  (∀ c, (m c).2 = c) → Worker.on_consumer m w = (r, w') → w' = w ∧ (m (Worker.consumer w)).1 = r.
Proof.
  intros Hm. unfold Worker.on_consumer, zoom. specialize (Hm (Worker.consumer w)).
  destruct (m (Worker.consumer w)) as [r0 c]. simpl in Hm. intros [= <- <-]. subst c. by destruct w.
Qed.

Lemma group_offset_read p c : (GroupConsumer.group_offset (V:=Transaction) p c).2 = c.
Proof.
  unfold GroupConsumer.group_offset, GroupConsumer.on_log, zoom, bind, get, Broker.committed_offset, bind, get.
  rewrite Broker.check_partition_eq. destruct c as [l g]. simpl. by destruct (_ && _).
Qed.

Lemma group_offset_ok p c o :
  (GroupConsumer.group_offset (V:=Transaction) p c).1 = Ok o →
  Broker.valid_partition p (GroupConsumer.log c) ∧ o = GroupConsumer.committed p c.
Proof.
  unfold GroupConsumer.group_offset, GroupConsumer.on_log, zoom, bind, get, Broker.committed_offset, bind, get.
  rewrite Broker.check_partition_eq. destruct (_ && _) eqn:E; [|done]. intros [= <-]. split; [|done].
  unfold Broker.valid_partition. lia.
Qed.

Lemma read_read p o n c : (GroupConsumer.on_log (V:=Transaction) (Broker.read p o n) c).2 = c.
Proof.
  unfold GroupConsumer.on_log, zoom, Broker.read, bind, get, raise. rewrite Broker.check_partition_eq.
  destruct c as [l g]. simpl. destruct (_ && _); [|done]. by destruct (o <? 0).
Qed.

Lemma read_segment p o n c rs :
  0 ≤ o ≤ zlen (Broker.partition_of p (GroupConsumer.log c)) →
  (GroupConsumer.on_log (V:=Transaction) (Broker.read p o n) c).1 = Ok rs → segment (GroupConsumer.log c) p o rs.
Proof.
  intros Ho. unfold GroupConsumer.on_log, zoom, Broker.read, bind, get, raise. rewrite Broker.check_partition_eq.
  destruct (_ && _); [|done]. destruct (o <? 0) eqn:E; [done|]. intros [= <-]. unfold segment, slice. rewrite E.
  rewrite Z.min_l by lia. apply sfx_grow, pfx_prefix_of.
Qed.

(** ** Every access preserves the invariant *)

Section access.
Context (self : Worker.FraudWorker) (out : list ScoredTransaction) (w : Worker.World).
Let log := GroupConsumer.log (Worker.consumer w).
Context (Hlog : Broker.log_ok log) (Hcommits : ∀ p, covered log out p (GroupConsumer.committed p (Worker.consumer w))).

Lemma idle_access produced at_ :
  let '((ph, _), w') := Worker.step self (Worker.Idle, produced) at_ w in access_ok w out ph w' (out_of w w' out).
Proof.
  unfold Worker.step, Worker.access; cbn [fst snd].
  unfold Worker.available_capacity, bind, get, ret.
  destruct (Queue.maxsize _ <=? 0); cbv beta zeta iota; destruct (_ <=? 0); by apply access_quiet.
Qed.

Lemma ready_access c produced at_ :
  let '((ph, _), w') := Worker.step self (Worker.Ready c, produced) at_ w in access_ok w out ph w' (out_of w w' out).
Proof.
  unfold Worker.step, Worker.access; cbn [fst snd].
  destruct (Worker.on_consumer _ w) as [r w'] eqn:E. apply on_consumer_read in E as [-> _]; [|by intros []].
  destruct r; by apply access_quiet.
Qed.

Lemma loop_access ps c produced at_ :
  let '((ph, _), w') := Worker.step self (Worker.Loop ps c, produced) at_ w in access_ok w out ph w' (out_of w w' out).
Proof.
  unfold Worker.step, Worker.access; cbn [fst snd]. destruct ps as [|p ps]; [by apply access_quiet|].
  destruct (c <=? 0); [by apply access_quiet|].
  destruct (Worker.on_consumer _ w) as [r w'] eqn:E. apply on_consumer_read in E as [-> Hr]; [|apply group_offset_read].
  destruct r as [o|e]; [|by apply access_quiet]. apply group_offset_ok in Hr as [Hv ->].
  apply access_quiet; [done|done|]. split; [done|]. apply Hcommits.
Qed.

Lemma fetch_access p o ps c produced at_ :
  phase_ok log out (Worker.Fetch p o ps c) →
  let '((ph, _), w') := Worker.step self (Worker.Fetch p o ps c, produced) at_ w in access_ok w out ph w' (out_of w w' out).
Proof.
  intros [Hv Hc]. unfold Worker.step, Worker.access; cbn [fst snd].
  destruct (Worker.on_consumer _ w) as [r w'] eqn:E. apply on_consumer_read in E as [-> Hr]; [|apply read_read].
  destruct r as [rs|e]; [|by apply access_quiet]. apply read_segment in Hr; [|apply Hc].
  apply access_quiet; [done|done|]. by exists p, o.
Qed.

Lemma emit_cases r at_ res_ w' :
  Worker.emit r at_ w = (res_, w') →
  Worker.consumer w' = Worker.consumer w ∧
  match res_ with
  | Ok sc => st_transaction sc = Broker.rec_value r ∧
      Worker.output_queue w' = (Queue.put_nowait sc (Worker.output_queue w)).2 ∧
      Queue.items (Worker.output_queue w') = Queue.items (Worker.output_queue w) ++ [sc]
  | Raise _ => Worker.output_queue w' = Worker.output_queue w
  end.
Proof.
  unfold Worker.emit, bind, Worker.on_scorer, Worker.on_queue, zoom, ret, Queue.put_nowait.
  destruct (Scorer.score _ _ _ _) as [[fs|e] s]; [|by intros [= <- <-]]. simpl.
  destruct (Queue.full _); by intros [= <- <-].
Qed.

Lemma batch_access rs ps c produced at_ :
  phase_ok log out (Worker.Batch rs ps c) →
  let '((ph, _), w') := Worker.step self (Worker.Batch rs ps c, produced) at_ w in access_ok w out ph w' (out_of w w' out).
Proof.
  intros (p & o & Hv & Hc & Hs). unfold Worker.step, Worker.access; cbn [fst snd].
  destruct rs as [|r rs]; [by apply access_quiet|]. destruct (Worker.emit r at_ w) as [res_ w'] eqn:E.
  apply emit_cases in E as [Ec Eq]. destruct res_ as [sc|e]; [|by apply access_quiet]. destruct Eq as (Et & Eq & Ei).
  assert (Ho : out_of w w' out = out ++ [sc]) by (unfold out_of, Queue.qsize; by rewrite Ei, sfx_snoc).
  rewrite Ho. split; rewrite ?Ec; [done|done|by eexists|by left| |].
  - rewrite Eq. apply Queue.put_within.
  - apply segment_cons in Hs as [Hr Hs]; [|by apply Hc].
    destruct (covered_next log (out ++ [sc]) p o r) as (H1 & H2 & H3); [done|done| |done|by apply delivered_snoc|].
    { eapply covered_grows; [by apply grows_same|by eexists|done]. }
    exists p, (o + 1). split; [done|]. split; [done|]. split; [done|]. split; [done|]. by rewrite H2.
Qed.

Lemma commit_access r rs ps c produced at_ :
  phase_ok log out (Worker.Commit r rs ps c) →
  let '((ph, _), w') := Worker.step self (Worker.Commit r rs ps c, produced) at_ w in access_ok w out ph w' (out_of w w' out).
Proof.
  intros (p & o & Hv & Hc & Hs & Hp & Ho). unfold Worker.step, Worker.access; cbn [fst snd].
  unfold Worker.on_consumer, zoom. rewrite GroupConsumer.commit_eq by (by rewrite Hp). rewrite Hp, Ho.
  rewrite out_same by done. split; cbn [Worker.consumer Worker.output_queue]; [done|done|done| |done|].
  - intros q. rewrite GroupConsumer.committed_set. case_decide as E; [subst q; right|by left].
    destruct (Z.max_spec_le (GroupConsumer.committed p (Worker.consumer w)) o) as [[_ ->]|[_ ->]]; [done|apply Hcommits].
  - by exists p, o.
Qed.

Lemma step_access ph produced at_ :
  phase_ok log out ph →
  let '((ph', _), w') := Worker.step self (ph, produced) at_ w in access_ok w out ph' w' (out_of w w' out).
Proof.
  intros Hp. destruct ph; [apply idle_access|apply ready_access|apply loop_access|by apply fetch_access
    |by apply batch_access|by apply commit_access|by apply access_quiet].
Qed.
End access.

(** ** Every event preserves the invariant *)

Lemma thread_step_ok id t at_ s : threads s !! id = Some t → system_ok s → system_ok (thread_step id t at_ s).
Proof.
  intros Ht [Hl Hn Hc Hp Hq]. unfold thread_step.
  pose proof (step_access (worker t) (emitted s) (world_of t s) Hl Hc (phase t) (produced t) at_ (Hp id t Ht)) as Ha.
  destruct (Worker.step _ _ _ _) as [[ph out] w]. destruct Ha as [A1 A2 A3 A4 A5 A6]. unfold out_of in *. simpl in *.
  assert (Hg : grows (log_of s) (GroupConsumer.log (Worker.consumer w))) by (by apply grows_same).
  assert (Hpart : ∀ p, Broker.partition_of p (GroupConsumer.log (Worker.consumer w)) = Broker.partition_of p (log_of s))
    by (intros p; unfold Broker.partition_of, log_of; by rewrite A1).
  split; unfold log_of, committed; simpl.
  - intros p Hv. rewrite Hpart. apply Hl. unfold Broker.valid_partition in *. by rewrite <- (proj1 Hg).
  - by rewrite (proj1 Hg).
  - intros p. destruct (A4 p) as [->|H].
    + eapply covered_grows; [exact Hg|exact A3|apply Hc].
    + eapply covered_grows; [exact Hg|reflexivity|exact H].
  - intros id' t'. destruct (decide (id' = id)) as [->|Hne].
    + rewrite lookup_insert_eq. intros [= <-]. done.
    + rewrite lookup_insert_ne by done. intros H'. eapply phase_ok_grows; [exact Hg|exact A3|by eapply Hp].
  - by apply A5.
Qed.

Lemma group_id_exec c g : Group.group_id (Group.exec c g) = Group.group_id g.
Proof.
  destruct c as [id now|id now|id|now]; simpl.
  - unfold Group.join, bind, modify, get, Group.rebalance. simpl. by case_match.
  - unfold Group.heartbeat, bind, get, raise, modify. by case_match.
  - unfold Group.leave, bind, get, modify, ret. by case_match.
  - unfold Group.check_expired_members, bind, get, modify, ret, when, Group.rebalance. by case_bool_decide.
Qed.

Lemma event_ok e s : system_ok s → system_ok (exec e s).
Proof.
  intros Hs. destruct e as [id at_|key txn now|c| |id|id w sc]; simpl.
  - destruct (threads s !! id) as [t|] eqn:Ht; [by apply thread_step_ok|done].
  - destruct Hs as [Hl Hn Hc Hp Hq]. destruct (produce_grows key txn now (log_of s) Hn) as (Hg & Hlo & Hco).
    unfold log_of in *. split; unfold log_of, committed; simpl; [by apply Hlo|by rewrite (proj1 Hg)| | |done].
    + intros p. unfold GroupConsumer.committed, Broker.committed. simpl. rewrite Hco.
      eapply covered_grows; [exact Hg|reflexivity|apply Hc].
    + intros id t Ht. eapply phase_ok_grows; [exact Hg|reflexivity|by eapply Hp].
  - destruct Hs as [Hl Hn Hc Hp Hq]. split; unfold log_of, committed, GroupConsumer.committed; simpl; try done.
    intros p. rewrite group_id_exec. apply Hc.
  - destruct Hs as [Hl Hn Hc Hp Hq]. split; try done. by apply Queue.get_within.
  - destruct Hs as [Hl Hn Hc Hp Hq]. split; try done. intros id' t. simpl.
    intros [_ Ht]%lookup_delete_Some. by eapply Hp.
  - destruct Hs as [Hl Hn Hc Hp Hq]. split; try done. intros id' t. simpl.
    intros [[_ <-]|[_ Ht]]%lookup_insert_Some; [done|by eapply Hp].
Qed.

Lemma events_ok es : ∀ s, system_ok s → system_ok (run es s).
Proof. induction es as [|e es IH]; intros s Hs; [done|]. apply IH. by apply event_ok. Qed.

Lemma system_init_ok tp n g maxsize l : Broker.init tp n = Ok l → system_ok (init l g maxsize).
Proof.
  intros Hi. destruct (Broker.log_init_ok tp n l Hi) as (H1 & H2 & H3). split; unfold log_of, committed; simpl; try done.
  - lia.
  - intros p. unfold GroupConsumer.committed, Broker.committed. simpl.
    assert (E : Broker.committed_offsets l = ∅) by (revert Hi; unfold Broker.init; case_match; by intros [= <-]).
    rewrite E, lookup_empty. simpl. split; [pose proof (zlen_nonneg (Broker.partition_of p l)); lia|]. constructor.
  - intros Hm. unfold Queue.qsize. simpl in *. change (zlen []) with 0. lia.
Qed.

(** What is below a committed offset is delivered. *)
Lemma committed_delivered s p j r :
  system_ok s → Z.of_nat j < committed p s → Broker.partition_of p (log_of s) !! j = Some r → delivered (emitted s) r.
Proof.
  intros Hs Hj Hr. destruct (ok_commits s Hs p) as [_ Hd]. rewrite Forall_forall in Hd. apply Hd.
  apply list_elem_of_lookup. exists j. unfold pfx. by rewrite lookup_take_lt by lia.
Qed.

(** ** The bound of the queue is fixed *)

Lemma on_consumer_queue {A} (m : Py (GroupConsumer.World Transaction) A) w r w' :
  Worker.on_consumer m w = (r, w') → Worker.output_queue w' = Worker.output_queue w.
Proof.
  unfold Worker.on_consumer, zoom. destruct (m (Worker.consumer w)) as [r0 c]. by intros [= _ <-].
Qed.

Lemma put_maxsize {T} (x : T) q : Queue.maxsize (Queue.put_nowait x q).2 = Queue.maxsize q.
Proof. unfold Queue.put_nowait. by destruct (Queue.full q). Qed.

Lemma step_maxsize self t at_ w :
  Queue.maxsize (Worker.output_queue (Worker.step self t at_ w).2) = Queue.maxsize (Worker.output_queue w).
Proof.
  destruct t as [ph pr]. unfold Worker.step, Worker.access; cbn [fst snd]. destruct ph; [| | | | | |done].
  - unfold Worker.available_capacity, bind, get, ret. by destruct (Queue.maxsize _ <=? 0).
  - destruct (Worker.on_consumer _ w) as [r w'] eqn:E. apply on_consumer_queue in E. by destruct r; simpl; rewrite E.
  - destruct ps as [|p ps]; [done|]. destruct (capacity <=? 0); [done|].
    destruct (Worker.on_consumer _ w) as [r w'] eqn:E. apply on_consumer_queue in E. by destruct r; simpl; rewrite E.
  - destruct (Worker.on_consumer _ w) as [r w'] eqn:E. apply on_consumer_queue in E. by destruct r; simpl; rewrite E.
  - destruct records as [|r rs]; [done|]. destruct (Worker.emit r at_ w) as [x w'] eqn:E.
    apply emit_cases in E as [_ E]. destruct x as [sc|e]; simpl; [|by rewrite E].
    destruct E as (_ & E & _). rewrite E. apply put_maxsize.
  - destruct (Worker.on_consumer _ w) as [r w'] eqn:E. apply on_consumer_queue in E. by destruct r; simpl; rewrite E.
Qed.

(** A thread only appends to the queue. *)
Lemma step_appends self t at_ w :
  Queue.items (Worker.output_queue w) `prefix_of` Queue.items (Worker.output_queue (Worker.step self t at_ w).2).
Proof.
  destruct t as [ph pr]. unfold Worker.step, Worker.access; cbn [fst snd]. destruct ph; [| | | | | |done].
  - unfold Worker.available_capacity, bind, get, ret. by destruct (Queue.maxsize _ <=? 0).
  - destruct (Worker.on_consumer _ w) as [r w'] eqn:E. apply on_consumer_queue in E. by destruct r; simpl; rewrite E.
  - destruct ps as [|p ps]; [done|]. destruct (capacity <=? 0); [done|].
    destruct (Worker.on_consumer _ w) as [r w'] eqn:E. apply on_consumer_queue in E. by destruct r; simpl; rewrite E.
  - destruct (Worker.on_consumer _ w) as [r w'] eqn:E. apply on_consumer_queue in E. by destruct r; simpl; rewrite E.
  - destruct records as [|r rs]; [done|]. destruct (Worker.emit r at_ w) as [x w'] eqn:E.
    apply emit_cases in E as [_ E]. destruct x as [sc|e]; simpl; [|by rewrite E].
    destruct E as (_ & _ & E). rewrite E. by eexists.
  - destruct (Worker.on_consumer _ w) as [r w'] eqn:E. apply on_consumer_queue in E. by destruct r; simpl; rewrite E.
Qed.

(** The history ends with what is on the queue. *)
Definition history (taken : list ScoredTransaction) (s : System) : Prop :=
  emitted s = taken ++ Queue.items (queue s).

Lemma queue_history_step id at_ s taken : history taken s → history taken (exec (Step id at_) s).
Proof.
  intros Hh. simpl. destruct (threads s !! id) as [t|]; [|done]. unfold thread_step.
  pose proof (step_appends (worker t) (phase t, produced t) at_ (world_of t s)) as Ha.
  destruct (Worker.step _ _ _ _) as [[ph out] w]. destruct Ha as [k Hk]. simpl in Hk.
  unfold history, Queue.qsize in *. simpl. rewrite Hk, Hh, <- app_assoc. do 2 f_equal.
  unfold sfx, zlen. by rewrite Nat2Z.id, drop_app_length.
Qed.

Lemma exec_maxsize e s : Queue.maxsize (queue (exec e s)) = Queue.maxsize (queue s).
Proof.
  destruct e as [id at_|key txn now|c| |id|id w sc]; simpl; try done.
  - destruct (threads s !! id) as [t|]; [|done]. unfold thread_step.
    pose proof (step_maxsize (worker t) (phase t, produced t) at_ (world_of t s)) as H.
    destruct (Worker.step _ _ _ _) as [[ph out] w]. exact H.
  - unfold Queue.get_one. by destruct (Queue.items (queue s)).
Qed.

Lemma run_maxsize es : ∀ s, Queue.maxsize (queue (run es s)) = Queue.maxsize (queue s).
Proof. induction es as [|e es IH]; intros s; [done|]. simpl. by rewrite IH, exec_maxsize. Qed.

(** ** Where the transactions come from *)

Section sourced.
Variable Q : Transaction → Prop.

Definition log_sourced (l : Log) : Prop := ∀ p r, r ∈ Broker.partition_of p l → Q (Broker.rec_value r).
Definition sourced (s : System) : Prop :=
  log_sourced (log_of s) ∧ Forall (λ sc, Q (st_transaction sc)) (emitted s).
Definition produces (e : Event) : Prop := match e with Produce _ txn _ => Q txn | _ => True end.

(** What an access of a thread adds to the queue is a scored record of the
    log. *)
Lemma step_emits self ph pr at_ w out :
  phase_ok (GroupConsumer.log (Worker.consumer w)) out ph → log_sourced (GroupConsumer.log (Worker.consumer w)) →
  Forall (λ sc, Q (st_transaction sc)) out →
  Forall (λ sc, Q (st_transaction sc)) (out_of w (Worker.step self (ph, pr) at_ w).2 out).
Proof.
  intros Hph Hl Hout. unfold Worker.step, Worker.access; cbn [fst snd]. destruct ph as [|c|ps c|p o ps c|rs ps c|r rs ps c|e].
  - unfold Worker.available_capacity, bind, get, ret. destruct (Queue.maxsize _ <=? 0); simpl; by rewrite out_same.
  - destruct (Worker.on_consumer _ w) as [r w'] eqn:E. apply on_consumer_queue in E.
    destruct r; simpl; by rewrite out_same by (by rewrite E).
  - destruct ps as [|p ps]; [by rewrite out_same|]. destruct (c <=? 0); [by rewrite out_same|].
    destruct (Worker.on_consumer _ w) as [r w'] eqn:E. apply on_consumer_queue in E.
    destruct r; simpl; by rewrite out_same by (by rewrite E).
  - destruct (Worker.on_consumer _ w) as [r w'] eqn:E. apply on_consumer_queue in E.
    destruct r; simpl; by rewrite out_same by (by rewrite E).
  - destruct rs as [|r rs]; [by rewrite out_same|]. destruct (Worker.emit r at_ w) as [x w'] eqn:E.
    apply emit_cases in E as [_ E]. destruct x as [sc|e]; simpl; [|by rewrite out_same by (by rewrite E)].
    destruct E as (Et & _ & Ei). unfold out_of, Queue.qsize. rewrite Ei, sfx_snoc. apply Forall_app. split; [done|].
    apply Forall_singleton. rewrite Et. destruct Hph as (p & o & _ & _ & [k Hk]). apply (Hl p).
    rewrite <- (pfx_sfx o), Hk. apply elem_of_app. right. left.
  - destruct (Worker.on_consumer _ w) as [x w'] eqn:E. apply on_consumer_queue in E.
    destruct x; simpl; by rewrite out_same by (by rewrite E).
  - by rewrite out_same.
Qed.

Lemma produce_sourced key txn now (l : Log) :
  0 < Broker.num_partitions l → Q txn → log_sourced l → log_sourced (Broker.produce key txn now l).2.
Proof.
  intros Hn Hq Hl p r. destruct (produce_partitions key txn now l p Hn) as [->|(r' & <- & ->)]; [apply Hl|].
  rewrite elem_of_app, list_elem_of_singleton. intros [Hr| ->]; [by apply (Hl p)|done].
Qed.

Lemma event_sourced e s : system_ok s → produces e → sourced s → sourced (exec e s).
Proof.
  intros Hok He [Hl Hem]. destruct e as [id at_|key txn now|c| |id|id w sc]; simpl.
  - destruct (threads s !! id) as [t|] eqn:Ht; [|by split]. unfold thread_step.
    pose proof (step_access (worker t) (emitted s) (world_of t s) (ok_log s Hok) (ok_commits s Hok) (phase t) (produced t) at_
      (ok_threads s Hok id t Ht)) as Ha.
    pose proof (step_emits (worker t) (phase t) (produced t) at_ (world_of t s) (emitted s) (ok_threads s Hok id t Ht) Hl Hem) as He'.
    destruct (Worker.step _ _ _ _) as [[ph out] w]. split; [|exact He']. destruct Ha as [A1 _ _ _ _ _].
    unfold log_sourced, log_of, Broker.partition_of in *. simpl in *. by rewrite A1.
  - split; [|done]. by apply produce_sourced; [apply ok_num|..].
  - by split.
  - by split.
  - by split.
  - by split.
Qed.

Lemma events_sourced es : ∀ s, system_ok s → Forall produces es → sourced s → sourced (run es s).
Proof.
  induction es as [|e es IH]; intros s Hok Hp Hs; [done|]. apply Forall_cons in Hp as [He Hes]. simpl.
  apply IH; [by apply event_ok|done|by apply event_sourced].
Qed.

Lemma init_sourced tp n g maxsize l : Broker.init tp n = Ok l → sourced (init l g maxsize).
Proof.
  intros Hi. split; [|by constructor]. intros p r Hr. exfalso. revert Hr. unfold log_of, init; simpl.
  revert Hi. unfold Broker.init. case_match; [done|]. intros [= <-]. unfold Broker.partition_of. simpl.
  destruct (replicate _ _ !! _) as [l'|] eqn:E; simpl; [|by intros ?%not_elem_of_nil].
  apply lookup_replicate in E as [-> _]. by intros ?%not_elem_of_nil.
Qed.
End sourced.

End WorkerSystem.
