(* ===== verification/StreamProps.v ===== *)
(** * Properties of the stream and of the fraud workers

    The log, the consumer groups, the readers, the scorer and the workers. *)

From stdpp Require Import base gmap strings list sorting.
From Stdlib Require Import ZArith Lia.
From S2P Require Import Prelude PyDecimal PyFloat Models Partitioner Broker Group Consumer.
From S2P Require Import Scorer Worker WorkerRun WorkerSystem.

Local Open Scope Z_scope.

(** ** Concrete objects for the witnesses *)

(** A transaction of an account, and clock readings. *)
Definition payment (account id : string) : Transaction :=
  mkTransaction account DEBIT (DFin 2500 (-2)) None "USD" "us-east" PENDING id 0 ∅.
Definition reading (t : Z) : datetime * datetime := (t, t).

Definition one_partition : Broker.PartitionedLog Transaction := Broker.mkLog "transactions" [[]] ∅.
Definition empty_group (n : Z) : Group.ConsumerGroup := Group.mkGroup "fraud-workers" n (F.lit 1 0) [] ∅.

Definition spawn (id : string) : list WorkerSystem.Event :=
  [WorkerSystem.GroupCall (Group.Join id F.zero);
   WorkerSystem.Spawn id (Worker.mkWorker id 50) (Scorer.init id None)].
Definition turns (id : string) (n : nat) : list WorkerSystem.Event :=
  replicate n (WorkerSystem.Step id (reading 1000000)).

(** Two payments are produced; a worker scores the first, commits it and
    crashes between scoring and committing the second. *)
Definition crash_mid_batch : list WorkerSystem.Event :=
  spawn "w1" ++
  [WorkerSystem.Produce "alice" (payment "alice" "t1") 1; WorkerSystem.Produce "dave" (payment "dave" "t2") 2] ++
  turns "w1" 7 ++ [WorkerSystem.Crash "w1"].

(** ** Workers *)

(** C31 (at-least-once delivery): however the accesses of any number of
    workers interleave with producers, rebalancing, the consumer of the queue,
    crashes at any point and restarts, every record below a committed offset
    has been scored and put on the output queue, with its transaction. *)
Theorem at_least_once tp n l g maxsize es p j (r : Broker.LogRecord Transaction) :
  Broker.init tp n = Ok l →
  let s := WorkerSystem.run es (WorkerSystem.init l g maxsize) in
  Z.of_nat j < WorkerSystem.committed p s →
  Broker.partition_of p (WorkerSystem.log_of s) !! j = Some r →
  WorkerSystem.delivered (WorkerSystem.emitted s) r.
Proof.
  intros Hi s. apply WorkerSystem.committed_delivered. by apply WorkerSystem.events_ok, (WorkerSystem.system_init_ok tp n).
Qed.

Lemma at_least_once_witness :
  let s := WorkerSystem.run crash_mid_batch (WorkerSystem.init one_partition (empty_group 1) 1000) in
  WorkerSystem.committed 0 s = 1 ∧ zlen (WorkerSystem.emitted s) = 2 ∧
  WorkerSystem.delivered (WorkerSystem.emitted s)
    (Broker.mkRecord 0 0 "alice" (payment "alice" "t1") 1).
Proof.
  split; [vm_compute; reflexivity|]. split; [vm_compute; reflexivity|].
  apply (at_least_once "transactions" 1 one_partition (empty_group 1) 1000 crash_mid_batch 0 0);
    vm_compute; reflexivity.
Defined.

(** Backpressure: the output queue never holds more than its maximum
    size, in any interleaving. *)
Theorem output_queue_bounded tp n l g maxsize es :
  Broker.init tp n = Ok l → 0 < maxsize →
  Queue.qsize (WorkerSystem.queue (WorkerSystem.run es (WorkerSystem.init l g maxsize))) ≤ maxsize.
Proof.
  intros Hi Hm. pose proof (WorkerSystem.events_ok es _ (WorkerSystem.system_init_ok tp n g maxsize l Hi)) as Hs.
  pose proof (WorkerSystem.ok_queue _ Hs) as Hq. unfold Queue.within_bound in Hq.
  rewrite WorkerSystem.run_maxsize in Hq. by apply Hq.
Qed.

Lemma output_queue_bounded_witness :
  Queue.qsize (WorkerSystem.queue
    (WorkerSystem.run crash_mid_batch (WorkerSystem.init one_partition (empty_group 1) 2))) ≤ 2.
Proof. apply (output_queue_bounded "transactions" 1); [vm_compute; reflexivity|lia]. Defined.

(** C32 (one [run_once]): a worker of a group over the partitions of the log,
    with the default scorer and comparable amounts, scores exactly the first
    records of its unread backlog, as many as its batch size and the room in
    the queue allow; it puts them on the queue in order, commits them, and
    leaves the rest of the backlog, and every other partition, unread.  In
    particular [QueueFull] is not raised. *)
Theorem run_once_delivers clock self w :
  let c := Worker.consumer w in
  let ps := default [] (Group.assignment (GroupConsumer.group c) !! Worker.member_id self) in
  WorkerRun.world_ok w → Group.group_ok (GroupConsumer.group c) →
  Group.num_partitions (GroupConsumer.group c) = Broker.num_partitions (GroupConsumer.log c) →
  (∀ p, WorkerRun.all_scorable clock p w) →
  0 ≤ Worker.max_batch self →
  0 < Queue.maxsize (Worker.output_queue w) → Queue.within_bound (Worker.output_queue w) →
  let capacity := Z.min (Worker.max_batch self)
    (Queue.maxsize (Worker.output_queue w) - Queue.qsize (Worker.output_queue w)) in
  ∃ outs w', Worker.run_once clock self w = (Ok outs, w') ∧
    zlen outs = Z.min capacity (zlen (WorkerRun.backlog ps w)) ∧
    WorkerRun.backlog ps w = (st_transaction <$> outs) ++ WorkerRun.backlog ps w' ∧
    WorkerRun.queue_of w' = WorkerRun.queue_of w ++ outs ∧
    (∀ p, p ∉ ps → WorkerRun.unread p w' = WorkerRun.unread p w) ∧
    WorkerRun.world_ok w'.
Proof.
  intros c ps Hw Hg Hnum Hsc Hb Hm Hq capacity. specialize (Hq Hm).
  destruct (WorkerRun.run_once_spec clock self w) as (outs & w' & H1 & H2 & H3 & H4 & H5);
    [split; try done; unfold WorkerRun.room; lia|done|].
  exists outs, w'. split_and!; [done|done|done|by apply (WorkerRun.frame_queue _ _ _ H2)|done|by apply (WorkerRun.frame_ok _ _ _ H2)].
Qed.

(** A log of two partitions read by one worker. *)
Definition backlog_world : Worker.World :=
  let l := (Broker.produce_all [("alice", payment "alice" "t1"); ("dave", payment "dave" "t2"); ("alice", payment "alice" "t3")] 0
             (Broker.mkLog "transactions" [[]; []] ∅)).2 in
  Worker.mkWorld (GroupConsumer.mkWorld l (Group.exec (Group.Join "w1" F.zero) (empty_group 2)))
    (Scorer.init "w1" None) (Queue.mkQueue [] 2).

Lemma backlog_world_ok : WorkerRun.world_ok backlog_world.
Proof.
  split; [| |done].
  - destruct (Broker.log_init_ok (V:=Transaction) "transactions" 2 (Broker.mkLog "transactions" [[]; []] ∅)) as (Hl & _); [done|].
    apply (Broker.produce_all_ok _ 0 (Broker.mkLog "transactions" [[]; []] ∅)); [exact Hl|done].
  - intros p Hp. change (0 <= p < 2) in Hp. assert (E : p = 0 ∨ p = 1) by lia.
    destruct E as [-> | ->]; vm_compute; split; discriminate.
Qed.

Lemma backlog_scorable p : WorkerRun.all_scorable (λ _, reading 1000000) p backlog_world.
Proof.
  intros r n Hr%Broker.partition_in_log.
  assert (E : forallb (λ r, res_is_ok (Dec.ge (tx_amount (Broker.rec_value r)) (Dec.of_Z 10000)))
    (concat (Broker.partitions (WorkerRun.log_of backlog_world))) = true) by (vm_compute; reflexivity).
  rewrite forallb_forall in E. split; [exact (E r Hr)|vm_compute; reflexivity].
Qed.

Lemma run_once_delivers_witness :
  ∃ outs w', Worker.run_once (λ _, reading 1000000) (Worker.mkWorker "w1" 50) backlog_world = (Ok outs, w') ∧
    zlen outs = 2 ∧ WorkerRun.queue_of w' = WorkerRun.queue_of backlog_world ++ outs.
Proof.
  destruct (run_once_delivers (λ _, reading 1000000) (Worker.mkWorker "w1" 50) backlog_world) as (outs & w' & H1 & H2 & _ & H4 & _).
  - exact backlog_world_ok.
  - apply Group.call_ok. apply (Group.init_group_ok "fraud-workers" 2 (F.lit 1 0)). reflexivity.
  - vm_compute. reflexivity.
  - exact backlog_scorable.
  - simpl. lia.
  - vm_compute. reflexivity.
  - intros _. vm_compute. discriminate.
  - exists outs, w'. split; [exact H1|]. split; [|exact H4]. rewrite H2. vm_compute. reflexivity.
Defined.

(** C33 (a worker drains its partitions): a worker's thread, taking one shared
    access at a time and left alone while the queue has room for its backlog,
    comes after finitely many accesses to a state in which everything it was
    assigned is done: each record that was unread in its partitions has been
    scored and put on the queue, once and in order, however many batches that
    takes; the group's offset of each of these partitions is at its end; and
    the other partitions, and the log itself, are as they were. *)
Theorem worker_drains_partitions clock self old w :
  let ps := WorkerRun.assigned self w in
  WorkerRun.able self w → (∀ p, WorkerRun.all_scorable clock p w) →
  0 < Worker.max_batch self → zlen (WorkerRun.backlog ps w) ≤ WorkerRun.room w →
  ∃ n last outs w', Worker.steps clock self n (Worker.Idle, old) w = ((Worker.Idle, last), w') ∧
    WorkerRun.queue_of w' = WorkerRun.queue_of w ++ outs ∧
    st_transaction <$> outs = WorkerRun.backlog ps w ∧
    (∀ p, p ∈ ps → WorkerRun.committed p w' = zlen (WorkerRun.partition_of p w)) ∧
    (∀ p, p ∉ ps → WorkerRun.unread p w' = WorkerRun.unread p w) ∧
    (∀ p, WorkerRun.partition_of p w' = WorkerRun.partition_of p w).
Proof.
  intros ps Ha Hsc Hb Hroom.
  destruct (WorkerRun.drains clock self _ old w eq_refl Ha Hsc Hb Hroom) as (last & outs & w' & [n Hn] & Hf & Ht & He & Ho).
  exists n, last, outs, w'. split_and!; [exact Hn|by apply (WorkerRun.frame_queue _ _ _ Hf)|exact Ht| |exact Ho|].
  - intros p Hp. rewrite <- (WorkerRun.frame_partition _ _ _ p Hf). eapply WorkerRun.backlog_nil; [by apply (WorkerRun.frame_ok _ _ _ Hf)|exact He|exact Hp|].
    eapply WorkerRun.frame_valid; [exact Hf|]. apply (Group.assignment_elem _ _ _ (WorkerRun.ab_group _ _ Ha)) in Hp as [Hp _].
    unfold Broker.valid_partition. rewrite <- (WorkerRun.ab_num _ _ Ha). exact Hp.
  - intros p. by apply (WorkerRun.frame_partition _ _ _ p Hf).
Qed.

(** Three records in two partitions, two of them a batch. *)
Definition draining_world : Worker.World :=
  Worker.mkWorld (Worker.consumer backlog_world) (Worker.scorer backlog_world) (Queue.mkQueue [] 3).
Definition pair_worker : Worker.FraudWorker := Worker.mkWorker "w1" 2.

Lemma worker_drains_partitions_witness :
  WorkerRun.assigned pair_worker draining_world = [0; 1] ∧
  ∃ n last outs w', Worker.steps (λ _, reading 1000000) pair_worker n (Worker.Idle, []) draining_world = ((Worker.Idle, last), w') ∧
    WorkerRun.queue_of w' = outs ∧ st_transaction <$> outs = WorkerRun.backlog [0; 1] draining_world ∧ length outs = 3%nat.
Proof.
  split; [vm_compute; reflexivity|].
  destruct (worker_drains_partitions (λ _, reading 1000000) pair_worker [] draining_world) as (n & last & outs & w' & H1 & H2 & H3 & _).
  - split.
    + destruct backlog_world_ok as [H1 H2 H3]. by split.
    + apply Group.call_ok. apply (Group.init_group_ok "fraud-workers" 2 (F.lit 1 0)). reflexivity.
    + vm_compute. reflexivity.
    + vm_compute. discriminate.
    + vm_compute. reflexivity.
    + vm_compute. discriminate.
  - exact backlog_scorable.
  - vm_compute. reflexivity.
  - vm_compute. discriminate.
  - exists n, last, outs, w'. split; [exact H1|]. split; [exact H2|].
    assert (Hl : length (WorkerRun.backlog [0; 1] draining_world) = 3%nat) by (vm_compute; reflexivity).
    change (WorkerRun.assigned pair_worker draining_world) with [0; 1] in H3.
    split; [exact H3|]. by rewrite <- Hl, <- H3, length_fmap.
Defined.

(** Two workers with a record each and one place left in the queue: both read
    the queue's size before either puts. *)
Definition full_race : list WorkerSystem.Event :=
  spawn "w1" ++ spawn "w2" ++
  [WorkerSystem.Produce "alice" (payment "alice" "t1") 1; WorkerSystem.Produce "dave" (payment "dave" "t2") 2] ++
  turns "w1" 1 ++ turns "w2" 1 ++ turns "w1" 4 ++ turns "w2" 4.

(** The capacity check is not atomic with the put: two workers that
    share the output queue can both see its last place; the second one's
    [put_nowait] then raises [QueueFull], which nothing in the worker or its
    runtime handles, and the thread ends.  Its record stays uncommitted. *)
Theorem concurrent_workers_overfill :
  let l := Broker.mkLog "transactions" [[]; []] ∅ in
  let s := WorkerSystem.run full_race (WorkerSystem.init l (empty_group 2) 1) in
  WorkerSystem.phase <$> WorkerSystem.threads s !! "w2"%string = Some (Worker.Dead QueueFull) ∧
  zlen (WorkerSystem.emitted s) = 1 ∧ Queue.qsize (WorkerSystem.queue s) = 1.
Proof. vm_compute. done. Qed.

(** ** Consumer groups *)

(** C38 (every partition has one owner): after any sequence of joins,
    heartbeats, departures and expiry checks, if the group has a member then
    every partition is assigned to exactly one member of the group, and
    nothing else is assigned. *)
Theorem partitions_owned_once gid n timeout g calls :
  Group.init gid n timeout = Ok g →
  let g' := Group.run calls g in
  let assigned m := default [] (Group.assignment g' !! m) in
  (Group.members_ g' ≠ [] → ∀ p, 0 ≤ p < n → ∃ m, m ∈ (Group.members_ g').*1 ∧ p ∈ assigned m ∧
     ∀ m', p ∈ assigned m' → m' = m) ∧
  (∀ m p, p ∈ assigned m → 0 ≤ p < n ∧ m ∈ (Group.members_ g').*1) ∧
  (∀ m, NoDup (assigned m)).
Proof.
  intros Hi g' assigned. destruct (Group.calls_ok calls g (Group.init_group_ok _ _ _ _ Hi)) as [Hg Hn].
  destruct (Group.init_num _ _ _ _ Hi) as [Hn0 _]. fold g' in Hg, Hn. rewrite Hn0 in Hn.
  assert (Hmem : ∀ m p, p ∈ assigned m ↔ 0 ≤ p < n ∧ Group.owner (Group.sorted_ids (Group.members_ g')) p = Some m)
    by (intros m p; unfold assigned; rewrite <- Hn; by apply Group.assignment_elem).
  split_and!.
  - intros Hne p Hp. destruct (Group.owner_is_some (Group.sorted_ids (Group.members_ g')) p) as (m & Ho & Hm).
    { intros E. apply Hne. apply (fmap_nil_inv fst). apply Permutation_nil_r.
      rewrite <- E. symmetry. apply isort_perm. }
    exists m. split; [by apply Group.sorted_ids_elem|]. split; [by apply Hmem|].
    intros m' [_ Ho']%Hmem. congruence.
  - intros m p [Hp Ho]%Hmem. split; [done|]. apply Group.sorted_ids_elem. by eapply list_elem_of_lookup_2.
  - intros m. by apply Group.assignment_nodup.
Qed.

Definition some_calls : list Group.call :=
  [Group.Join "w2" F.zero; Group.Join "w1" F.zero; Group.Join "w3" (F.lit 5 0); Group.Heartbeat "w1" (F.lit 5 0);
   Group.CheckExpired (F.lit 5 0)].

Lemma partitions_owned_once_witness :
  let g' := Group.run some_calls (empty_group 5) in
  Group.assignment g' !! "w1"%string = Some [0; 2; 4] ∧
  ∃ m, m ∈ (Group.members_ g').*1 ∧ 3 ∈ default [] (Group.assignment g' !! m) ∧
    ∀ m', 3 ∈ default [] (Group.assignment g' !! m') → m' = m.
Proof.
  split; [vm_compute; reflexivity|].
  apply (partitions_owned_once "fraud-workers" 5 (F.lit 1 0) (empty_group 5) some_calls);
    [vm_compute; reflexivity|vm_compute; discriminate|lia].
Defined.

(** Balance: two members of the group never differ by more than one in
    the number of partitions assigned to them. *)
Theorem assignment_balanced gid n timeout g calls m m' :
  Group.init gid n timeout = Ok g →
  let g' := Group.run calls g in
  m ∈ (Group.members_ g').*1 → m' ∈ (Group.members_ g').*1 →
  zlen (default [] (Group.assignment g' !! m)) ≤ zlen (default [] (Group.assignment g' !! m')) + 1.
Proof.
  intros Hi g' Hm Hm'. destruct (Group.calls_ok calls g (Group.init_group_ok _ _ _ _ Hi)) as [Hg Hn].
  destruct (Group.init_num _ _ _ _ Hi) as [Hn0 Hpos]. fold g' in Hg, Hn.
  pose proof (Group.share g' m Hg ltac:(lia) Hm) as H. pose proof (Group.share g' m' Hg ltac:(lia) Hm') as H'.
  cbv zeta in H, H'. lia.
Qed.

Lemma assignment_balanced_witness :
  zlen (default [] (Group.assignment (Group.run some_calls (empty_group 5)) !! "w1"%string)) ≤
  zlen (default [] (Group.assignment (Group.run some_calls (empty_group 5)) !! "w3"%string)) + 1.
Proof.
  apply (assignment_balanced "fraud-workers" 5 (F.lit 1 0) (empty_group 5) some_calls "w1" "w3");
    [vm_compute; reflexivity|apply (bool_decide_unpack _); vm_compute; exact I..].
Defined.

(** Expiry: [check_expired_members] returns, and evicts, exactly the
    members whose last heartbeat is older than the session timeout; the other
    members keep their heartbeats, and when nobody is evicted no partition
    moves. *)
Theorem expiry_exact now g :
  Group.group_ok g →
  ∃ gone g', Group.check_expired_members now g = (Ok gone, g') ∧ Group.group_ok g' ∧
    (∀ id, id ∈ gone ↔ ∃ t, (id, t) ∈ Group.members_ g ∧ F.gt (F.sub now t) (Group.session_timeout_seconds g) = true) ∧
    (∀ id t, (id, t) ∈ Group.members_ g' ↔
       (id, t) ∈ Group.members_ g ∧ F.gt (F.sub now t) (Group.session_timeout_seconds g) = false) ∧
    (gone = [] → Group.assignment g' = Group.assignment g).
Proof.
  intros Hg. destruct (Group.check_expired_eq now g Hg) as (g' & H1 & H2 & H3 & _ & H5).
  eexists _, g'. split; [exact H1|]. split; [done|]. split; [|split; [|exact H5]].
  - intros id. rewrite list_elem_of_fmap. split.
    + intros ([i t] & -> & [He Hin]%list_elem_of_filter). exists t. split; [done|]. by apply Is_true_true in He.
    + intros (t & Hin & He). exists (id, t). split; [done|]. apply list_elem_of_filter. split; [|done].
      by apply Is_true_true.
  - intros id t. rewrite H3, list_elem_of_filter. unfold Group.expired. cbn [snd].
    destruct (F.gt _ _); naive_solver.
Qed.

Definition two_members : Group.ConsumerGroup :=
  Group.run [Group.Join "w2" F.zero; Group.Join "w1" (F.lit 5 0)] (empty_group 4).

Lemma two_members_ok : Group.group_ok two_members.
Proof. apply Group.calls_ok. apply (Group.init_group_ok "fraud-workers" 4 (F.lit 1 0)). reflexivity. Qed.

Lemma expiry_exact_witness :
  Group.check_expired_members (F.lit 5 0) two_members = (Ok ["w2"%string], (Group.check_expired_members (F.lit 5 0) two_members).2) ∧
  ∃ gone g', Group.check_expired_members (F.lit 5 0) two_members = (Ok gone, g') ∧ Group.group_ok g'.
Proof.
  split; [vm_compute; reflexivity|].
  destruct (expiry_exact (F.lit 5 0) two_members two_members_ok) as (gone & g' & H & Hg & _). by exists gone, g'.
Defined.

(** A live member is not evicted: a member that has sent a heartbeat is
    still a member after an expiry check within the session timeout, and if no
    other member expires it keeps its partitions; a heartbeat itself moves no
    partition. *)
Theorem heartbeat_keeps_member id now now' g :
  Group.group_ok g → id ∈ (Group.members_ g).*1 →
  F.gt (F.sub now' now) (Group.session_timeout_seconds g) = false →
  ∃ g1 gone g2, Group.heartbeat id now g = (Ok tt, g1) ∧ Group.assignment g1 = Group.assignment g ∧
    Group.check_expired_members now' g1 = (Ok gone, g2) ∧ id ∉ gone ∧ (id, now) ∈ Group.members_ g2 ∧
    (gone = [] → Group.assignment g2 = Group.assignment g).
Proof.
  intros Hg Hm Ht. destruct (Group.heartbeat_eq id now g Hm) as (g1 & H1 & Hin & Hto).
  pose proof (Group.heartbeat_ids id now g) as (_ & Ha & _). pose proof (Group.heartbeat_ok id now g Hg) as Hg1.
  rewrite H1 in Ha, Hg1. simpl in Ha, Hg1.
  destruct (Group.check_expired_eq now' g1 Hg1) as (g2 & E1 & _ & E3 & _ & E5).
  assert (Hne : Group.expired now' g1 (id, now) = false) by (unfold Group.expired; by rewrite Hto).
  exists g1. eexists _, g2. split; [done|]. split; [done|]. split; [exact E1|]. split; [|split].
  - intros ([i t] & -> & [He Hit]%list_elem_of_filter)%list_elem_of_fmap. cbn [fst] in *.
    pose proof (nodup_fst_inj _ _ _ (proj1 Hg1) Hit Hin eq_refl) as [= ->].
    apply Is_true_true in He. congruence.
  - rewrite E3. apply list_elem_of_filter. split; [|done]. rewrite Hne. by intros [].
  - intros Hgone. rewrite <- Ha. by apply E5.
Qed.

Lemma heartbeat_keeps_member_witness :
  ∃ g1 gone g2, Group.heartbeat "w2" (F.lit 5 0) two_members = (Ok tt, g1) ∧
    Group.check_expired_members (F.lit 5 0) g1 = (Ok gone, g2) ∧ "w2"%string ∉ gone ∧
    (gone = [] → Group.assignment g2 = Group.assignment two_members).
Proof.
  destruct (heartbeat_keeps_member "w2" (F.lit 5 0) (F.lit 5 0) two_members) as (g1 & gone & g2 & H1 & _ & H3 & H4 & _ & H6).
  - exact two_members_ok.
  - apply (bool_decide_unpack _). vm_compute. exact I.
  - vm_compute. reflexivity.
  - exists g1, gone, g2. split; [exact H1|]. split; [exact H3|]. split; [exact H4|exact H6].
Defined.

(** ** The log *)

(** Per-key order: producing a sequence of items on a log succeeds, and
    each partition receives, after what it held, exactly the items whose key
    is routed to it, in the order they were produced; so the items of one key
    stay in order on one partition. *)
Theorem production_order {V : Type} (items : list (string * V)) now (l : Broker.PartitionedLog V) :
  0 < Broker.num_partitions l →
  ∃ l', Broker.produce_all items now l = (Ok tt, l') ∧
    (∀ p, Broker.valid_partition p l →
      (λ r, (Broker.rec_key r, Broker.rec_value r)) <$> Broker.partition_of p l' =
      ((λ r, (Broker.rec_key r, Broker.rec_value r)) <$> Broker.partition_of p l) ++
        filter (λ kv, Broker.routed (Broker.num_partitions l) p kv.1) items) ∧
    (∀ k, ∃ p, Broker.valid_partition p l ∧ ∀ q, Broker.routed (Broker.num_partitions l) q k = true ↔ q = p).
Proof.
  intros Hn. destruct (Broker.produce_all_spec items now l Hn) as (l' & H1 & _ & H3).
  exists l'. split; [done|]. split; [exact H3|]. intros k.
  destruct (Partitioner.key_to_partition_range k _ Hn) as (p & Hp & Hr). exists p. split; [done|].
  intros q. unfold Broker.routed. rewrite Hp. rewrite Z.eqb_eq. split; congruence.
Qed.

Lemma production_order_witness :
  let items := [("alice", 1); ("dave", 2); ("alice", 3)] in
  let l : Broker.PartitionedLog Z := Broker.mkLog "transactions" [[]; []] ∅ in
  ∃ l', Broker.produce_all items 0 l = (Ok tt, l') ∧
    Broker.rec_value <$> Broker.partition_of 0 l' = [1; 3].
Proof.
  intros items l. destruct (production_order items 0 l) as (l' & H1 & H2 & _); [vm_compute; reflexivity|].
  exists l'. split; [exact H1|]. specialize (H2 0).
  assert (Hv : Broker.valid_partition 0 l) by (vm_compute; split; [discriminate|reflexivity]).
  specialize (H2 Hv). apply (f_equal (fmap snd)) in H2. rewrite <- list_fmap_compose in H2.
  etransitivity; [exact H2|]. vm_compute. reflexivity.
Defined.

(** Append/read round trip: on a partition of the log [append] returns
    a record with the next offset, from which [read] gives the record back;
    [latest_offset] moves past it, and every window of the log that was
    complete before reads the same after. *)
Theorem append_read {V : Type} p k (v : V) now l :
  Broker.valid_partition p l →
  ∃ r l', Broker.append p k v now l = (Ok r, l') ∧
    r = Broker.mkRecord p (Broker.rec_offset r) k v now ∧
    Broker.latest_offset p l = (Ok (Broker.rec_offset r), l) ∧
    Broker.latest_offset p l' = (Ok (Broker.rec_offset r + 1), l') ∧
    (∀ m, 0 < m → Broker.read p (Broker.rec_offset r) m l' = (Ok [r], l')) ∧
    (∀ q from m, Broker.valid_partition q l → 0 ≤ from → 0 ≤ m → from + m ≤ zlen (Broker.partition_of q l) →
       (Broker.read q from m l').1 = (Broker.read q from m l).1).
Proof.
  intros Hp. set (o := zlen (Broker.partition_of p l)). set (r := Broker.mkRecord p o k v now).
  assert (Hval : ∀ q, Broker.valid_partition q l → Broker.valid_partition q (Broker.appended p r l))
    by (intros q Hq; unfold Broker.valid_partition; by rewrite Broker.appended_num).
  exists r, (Broker.appended p r l). split; [by apply Broker.append_eq|]. split; [done|].
  assert (Hlen : zlen (Broker.partition_of p (Broker.appended p r l)) = o + 1).
  { rewrite Broker.appended_partition, decide_True by done. by rewrite zlen_app. }
  assert (Ho : 0 ≤ o) by apply zlen_nonneg.
  split; [|split; [|split]].
  - unfold Broker.latest_offset, bind, get. by rewrite Broker.check_partition_ok.
  - unfold Broker.latest_offset, bind, get. rewrite Broker.check_partition_ok by (by apply Hval). by rewrite Hlen.
  - intros m Hm. rewrite Broker.read_eq; [|by apply Hval|exact Ho]. do 2 f_equal.
    rewrite Broker.appended_partition, decide_True by done. unfold r at 1. cbn [Broker.rec_offset].
    by apply slice_last.
  - intros q from m Hq Hf Hm Hle. rewrite !Broker.read_eq by (done || by apply Hval). cbn [fst]. f_equal.
    rewrite Broker.appended_partition by done. case_decide as E; [|done]. subst q.
    by apply slice_app.
Qed.

Lemma append_read_witness :
  let l : Broker.PartitionedLog Z := Broker.mkLog "transactions" [[]; []] ∅ in
  ∃ r l', Broker.append 1 "dave" 7 0 l = (Ok r, l') ∧ Broker.read 1 (Broker.rec_offset r) 10 l' = (Ok [r], l').
Proof.
  intros l. destruct (append_read 1 "dave" 7 0 l) as (r & l' & H1 & _ & _ & _ & H5 & _);
    [vm_compute; split; [discriminate|reflexivity]|].
  exists r, l'. split; [exact H1|]. apply (H5 10). lia.
Defined.

(** Commits never rewind: after any sequence of commits, by any groups,
    to partitions of the log and in any order, the committed offset of a group
    on a partition is the largest of what it was and what was committed there;
    the records are untouched. *)
Theorem commits_keep_maximum {V : Type} (commits : list (string * Z * Z)) g p (l : Broker.PartitionedLog V) :
  Forall (λ c, Broker.valid_partition c.1.2 l) commits →
  let l' := foldl (λ l c, (Broker.commit_offset c.1.1 c.1.2 c.2 l).2) l commits in
  Broker.committed g p l' =
    foldl Z.max (Broker.committed g p l) (filter (λ c, c.1 = (g, p)) commits).*2 ∧
  Broker.partitions l' = Broker.partitions l.
Proof.
  revert l. induction commits as [|[[g1 p1] o] commits IH]; intros l Hv; [done|].
  apply Forall_cons in Hv as [Hv Hvs]. cbn [fst snd] in Hv. cbn [foldl fst snd].
  rewrite Broker.commit_offset_eq by done. cbn [snd].
  destruct (IH (Broker.mkLog (Broker.topic l) (Broker.partitions l)
    (<[(g1, p1) := Z.max (Broker.committed g1 p1 l) o]> (Broker.committed_offsets l))) Hvs) as [H1 H2].
  split; [|exact H2]. etransitivity; [exact H1|]. clear H1 H2. rewrite filter_cons. cbn [fst].
  unfold Broker.committed at 1. cbn [Broker.committed_offsets]. case_decide as E.
  - injection E as -> ->. by rewrite lookup_insert_eq.
  - by rewrite lookup_insert_ne.
Qed.

Lemma commits_keep_maximum_witness :
  let l : Broker.PartitionedLog Z := Broker.mkLog "transactions" [[]; []] ∅ in
  let l' := foldl (λ l c, (Broker.commit_offset c.1.1 c.1.2 c.2 l).2) l [("g", 0, 5); ("h", 0, 9); ("g", 0, 3)] in
  Broker.committed "g" 0 l' = 5 ∧ Broker.partitions l' = [[]; []].
Proof.
  intros l l'. destruct (commits_keep_maximum [("g", 0, 5); ("h", 0, 9); ("g", 0, 3)]%string "g" 0 l) as [H1 H2].
  - repeat constructor; vm_compute; discriminate || reflexivity.
  - split; [etransitivity; [exact H1|]; vm_compute; reflexivity|exact H2].
Defined.

(** A consumer resumes after what it committed: polling reads, from the
    consumer's own position, every one of its partitions and moves nothing, so
    uncommitted records are delivered again; committing the record at index
    [j] of a partition moves the position of that partition, and of no other,
    to [j + 1], never back. *)
Theorem consumer_resumes {V : Type} max p j (r : Broker.LogRecord V) w :
  Consumer.consumer_ok w → Broker.log_ok (Consumer.log w) → p ∈ Consumer.partitions w →
  Broker.partition_of p (Consumer.log w) !! j = Some r →
  let window w q := slice (Consumer.position q w) (Consumer.position q w + max)
    (Broker.partition_of q (Consumer.log w)) in
  let batch w := concat (window w <$> Consumer.partitions w) in
  Consumer.poll max w = (Ok (batch w), w) ∧
  ∃ w', Consumer.commit r w = (Ok tt, w') ∧ Consumer.poll max w' = (Ok (batch w'), w') ∧
    Consumer.position p w' = Z.max (Consumer.position p w) (Z.of_nat j + 1) ∧
    ∀ q, q ≠ p → Consumer.position q w' = Consumer.position q w.
Proof.
  intros Hw Hl Hp Hr window batch. pose proof (Consumer.poll_each_eq (V:=V) max) as Hpoll.
  split; [unfold Consumer.poll, bind, get; by rewrite Hpoll|].
  destruct (Hl p (proj1 (Hw p Hp)) j r Hr) as [H1 H2]. subst p.
  eexists. split; [by apply Consumer.commit_ok|].
  set (w' := Consumer.mkWorld _ _ _). assert (Hw' : Consumer.consumer_ok w').
  { intros q Hq. destruct (Hw q Hq) as [Hv (o & Ho & Hpos)]. split; [exact Hv|]. unfold w'. simpl.
    destruct (decide (q = Broker.rec_partition r)) as [->|Hne].
    - rewrite lookup_insert_eq. eexists. split; [done|]. lia.
    - rewrite lookup_insert_ne by done. by exists o. }
  split; [unfold Consumer.poll, bind, get; by rewrite Hpoll|]. unfold Consumer.position at 1 3, w'. simpl. split.
  - rewrite lookup_insert_eq. simpl. by rewrite H2.
  - intros q Hq. by rewrite lookup_insert_ne.
Qed.

Definition one_reader : Consumer.World Z :=
  Consumer.init (Broker.produce_all [("alice", 1); ("dave", 2); ("alice", 3)] 0
    (Broker.mkLog "transactions" [[]; []] ∅)).2 None.

Lemma one_reader_ok : Consumer.consumer_ok one_reader ∧ Broker.log_ok (Consumer.log one_reader).
Proof.
  split.
  - apply Consumer.init_consumer_ok. intros p Hp%Group.range_lookup. exact Hp.
  - apply Broker.produce_all_ok; [|done].
    destruct (Broker.log_init_ok (V:=Z) "transactions" 2 (Broker.mkLog "transactions" [[]; []] ∅)) as (Hl & _); done.
Qed.

Lemma consumer_resumes_witness :
  ∃ w', Consumer.commit (Broker.mkRecord 0 0 "alice" 1 0) one_reader = (Ok tt, w') ∧ Consumer.position 0 w' = 1.
Proof.
  destruct (consumer_resumes 10 0 0 (Broker.mkRecord 0 0 "alice" 1 0) one_reader (proj1 one_reader_ok) (proj2 one_reader_ok))
    as (_ & w' & H1 & _ & H3 & _).
  - apply (bool_decide_unpack _). vm_compute. exact I.
  - vm_compute. reflexivity.
  - exists w'. split; [exact H1|]. rewrite H3. vm_compute. reflexivity.
Defined.

(** ** The scorer *)

(** Default verdict: with the default configuration a transaction of a
    comparable amount is always scored, the score is in range, it is fraud
    exactly when one of the three rules fires, and the reasons are those of
    the rules that fire, in order. *)
Theorem default_verdict txn now at_ s large :
  Scorer.config s = Scorer.default_config →
  Dec.ge (tx_amount txn) (Dec.of_Z 10000) = Ok large →
  res_is_ok (Timedelta.before now 60000000) = true →
  let window := Scorer.expire (now - 60000000) (Scorer.window_of (tx_account_id txn) s ++ [now]) in
  let fast := 5 <? zlen window in
  let device := Scorer.device_flagged txn in
  ∃ fs, Scorer.score txn now at_ s = (Ok fs, Scorer.set_recent (tx_account_id txn) window s) ∧
    fs_is_fraud fs = large || device || fast ∧
    F.le F.zero (fs_score fs) && F.le (fs_score fs) (F.lit 1 0) = true ∧
    fs_transaction_id fs = tx_id txn ∧ fs_worker_id fs = Scorer.worker_id s ∧
    fs_reasons fs =
      (if large then [Scorer.amount_reason txn Scorer.default_config] else []) ++
      (if device then [Scorer.device_reason] else []) ++
      (if fast then [Scorer.velocity_reason (zlen window) txn Scorer.default_config] else []).
Proof.
  intros Hc Hl Hb window fast device.
  assert (Hl' : Dec.ge (tx_amount txn) (Scorer.large_amount_threshold (Scorer.config s)) = Ok large) by (by rewrite Hc).
  assert (Hd : Timedelta.of_seconds (Scorer.velocity_window_seconds (Scorer.config s)) = Ok 60000000)
    by (rewrite Hc; vm_compute; reflexivity).
  rewrite (Scorer.score_eq txn now at_ s large _ _ Hl' Hd (Scorer.before_eq _ _ Hb)). rewrite Hc.
  fold window. change (Scorer.velocity_max_transactions Scorer.default_config <? zlen window) with fast. fold device.
  destruct (Scorer.default_weights large device fast (Scorer.amount_reason txn Scorer.default_config) Scorer.device_reason
    (Scorer.velocity_reason (zlen window) txn Scorer.default_config)) as (H1 & H2 & H3). cbv zeta in H1, H2, H3.
  unfold FraudScore_post_init. cbn [fs_score]. rewrite H1. eexists. split; [reflexivity|].
  cbn [fs_is_fraud fs_score fs_transaction_id fs_worker_id fs_reasons]. by rewrite H1, H2, H3.
Qed.

Lemma default_verdict_witness :
  let s := Scorer.init "w1" None in
  ∃ fs, Scorer.score (payment "alice" "t1") 1000000 2000000 s =
      (Ok fs, Scorer.set_recent "alice" [1000000] s) ∧ fs_is_fraud fs = false.
Proof.
  intros s. destruct (default_verdict (payment "alice" "t1") 1000000 2000000 s false) as (fs & H1 & H2 & _);
    [reflexivity|vm_compute; reflexivity|vm_compute; reflexivity|].
  exists fs. split; [rewrite H1; f_equal|rewrite H2]; vm_compute; reflexivity.
Defined.

(** C39 (the velocity window): after scoring any history of transactions whose
    clock readings do not decrease, the window kept for an account holds
    exactly the readings of that account's transactions in the [delta]
    microseconds up to its last one; so the velocity a call counts is the
    number of them, whatever other accounts did. *)
Theorem velocity_window delta events s account :
  Timedelta.of_seconds (Scorer.velocity_window_seconds (Scorer.config s)) = Ok delta → 0 ≤ delta →
  Forall (Scorer.scorable (Scorer.config s) delta) events → StronglySorted Z.le events.*2 →
  Scorer.recent_by_account s = ∅ →
  Scorer.window_of account (Scorer.run events s) =
    match last (Scorer.times_of account events) with
    | Some t => filter (λ u, t - delta ≤ u) (Scorer.times_of account events)
    | None => []
    end.
Proof.
  intros Hd Hd0 Hs Hst He. apply (Scorer.run_window delta); try done.
  unfold Scorer.window_of. by rewrite He, lookup_empty.
Qed.

Lemma velocity_window_witness :
  Scorer.window_of "alice" (Scorer.run
    [(payment "alice" "t1", 0); (payment "dave" "t2", 30000000); (payment "alice" "t3", 40000000);
     (payment "alice" "t4", 70000000)] (Scorer.init "w1" None)) = [40000000; 70000000].
Proof.
  rewrite (velocity_window 60000000).
  - vm_compute. reflexivity.
  - vm_compute. reflexivity.
  - lia.
  - repeat (apply Forall_cons; split; [split; vm_compute; reflexivity|]). apply Forall_nil. exact I.
  - repeat constructor; discriminate.
  - reflexivity.
Defined.
