(* ===== verification/RaftFrame.v ===== *)
(** * What a node may do to its transport

    Every method of [RaftNode] (raft/node.py) changes the transport only by
    [self._transport.send(self.node_id, recipient, ...)], and only for a peer
    or, when it answers a message, for its sender; the id and the peers of a
    node never change.  [framed] says so of a computation; the tactic
    [frame_go] proves it by following the code. *)

From stdpp Require Import base gmap strings list.
From Stdlib Require Import ZArith Lia.
From S2P Require Import Prelude PyFloat RaftTypes Storage StateMachine Transport RaftNode.

Local Open Scope Z_scope.

Module Frame.
Section frame.
Context {C S T : Type} {Hsm : StateMachine C S} {Htr : Transport C T}.
Variable random_fn : nat → float → float → float.

Abbreviation World := (Raft.World C S T).
Abbreviation M := (Py World).
Implicit Types (w : World) (ok : string → Prop).

(** A sequence of sends by [id]. *)
Definition sent_by (id : string) (msgs : list (string * Message C)) (t : T) : T :=
  foldl (λ t m, t_send id m.1 m.2 t) t msgs.

Record sends_only ok w w' : Prop := mkSends {
  sends_id : Raft.node_id (Raft.node w') = Raft.node_id (Raft.node w);
  sends_peers : Raft.peer_ids (Raft.node w') = Raft.peer_ids (Raft.node w);
  sends_msgs : ∃ msgs, Forall (λ m, ok m.1) msgs ∧
    Raft.transport w' = sent_by (Raft.node_id (Raft.node w)) msgs (Raft.transport w)
}.

Lemma sends_refl ok w : sends_only ok w w.
Proof. split; [done|done|]. by exists []. Qed.

Lemma sends_trans ok w1 w2 w3 : sends_only ok w1 w2 → sends_only ok w2 w3 → sends_only ok w1 w3.
Proof.
  intros [I1 P1 (m1 & F1 & T1)] [I2 P2 (m2 & F2 & T2)]. split; [congruence|congruence|].
  exists (m1 ++ m2). split; [by apply Forall_app|]. unfold sent_by in *. by rewrite foldl_app, <- T1, <- I1.
Qed.

(** [m], run in [w], sends only to recipients in [ok], which contains the peers. *)
Definition framed {A} ok (m : M A) w : Prop :=
  (∀ p, p ∈ Raft.peer_ids (Raft.node w) → ok p) → sends_only ok w (m w).2.

(** A computation that leaves the id, the peers and the transport alone. *)
Definition silent {A} (m : M A) : Prop := ∀ w,
  Raft.node_id (Raft.node (m w).2) = Raft.node_id (Raft.node w) ∧
  Raft.peer_ids (Raft.node (m w).2) = Raft.peer_ids (Raft.node w) ∧
  Raft.transport (m w).2 = Raft.transport w.

Lemma framed_silent {A} ok (m : M A) w : silent m → framed ok m w.
Proof. intros Hm _. destruct (Hm w) as (H1 & H2 & H3). split; [done|done|]. by exists []. Qed.

Lemma framed_bind {A B} ok (m : M A) (k : A → M B) w :
  framed ok m w → (∀ a w', framed ok (k a) w') → framed ok (bind m k) w.
Proof.
  intros Hm Hk Hp. specialize (Hm Hp). unfold bind. destruct (m w) as [[a|e] w1]; [|done]. simpl in *.
  eapply sends_trans; [exact Hm|]. apply Hk. intros p. rewrite (sends_peers _ _ _ Hm). apply Hp.
Qed.

Lemma framed_get {A B} ok (f : World → A) (k : A → M B) w : framed ok (k (f w)) w → framed ok (bind (get f) k) w.
Proof. done. Qed.

Lemma framed_send ok p m w : (p ∈ Raft.peer_ids (Raft.node w) ∨ ok p) → framed ok (Raft.send p m) w.
Proof.
  intros Hp Hok. split; [done|done|]. exists [(p, m)]. split; [|done]. apply Forall_singleton.
  destruct Hp; auto.
Qed.

Lemma framed_for_each {A} ok (f : A → M unit) (l : list A) : ∀ w,
  (∀ x w', x ∈ l → Raft.peer_ids (Raft.node w') = Raft.peer_ids (Raft.node w) → framed ok (f x) w') →
  framed ok (for_each f l) w.
Proof.
  induction l as [|x l IH]; intros w Hf Hp; [apply sends_refl|].
  assert (Hx : framed ok (f x) w) by (apply Hf; [left|done]). specialize (Hx Hp).
  simpl. unfold bind. destruct (f x w) as [[[]|e] w1]; [|done]. simpl in *.
  pose proof (sends_peers _ _ _ Hx) as Hpe. eapply sends_trans; [exact Hx|]. apply IH.
  - intros y w' Hy Hw'. apply Hf; [by right|]. by rewrite Hw'.
  - intros p. rewrite Hpe. apply Hp.
Qed.

Lemma silent_on_node f :
  (∀ n, Raft.node_id (f n) = Raft.node_id n ∧ Raft.peer_ids (f n) = Raft.peer_ids n) → silent (Raft.on_node f).
Proof. intros Hf w. simpl. destruct (Hf (Raft.node w)). done. Qed.

Lemma silent_on_storage f : silent (Raft.on_storage f).
Proof. done. Qed.

Lemma silent_ret {A} (a : A) : silent (ret a).
Proof. done. Qed.

Lemma silent_raise {A} e : silent (raise e : M A).
Proof. done. Qed.

Lemma silent_get {A} (f : World → A) : silent (get f).
Proof. done. Qed.

Lemma silent_truncate i : silent (Raft.truncate_from i).
Proof. intros w. unfold Raft.truncate_from, zoom. by destruct (Storage.truncate_from i (Raft.storage w)). Qed.

Lemma silent_machine c : silent (Raft.machine_apply c).
Proof. intros w. unfold Raft.machine_apply, zoom. by destruct (sm_apply c (Raft.machine w)). Qed.

End frame.

(** Follows the structure of a handler. *)
Ltac frame_step :=
  cbv beta zeta;
  lazymatch goal with
  | |- framed _ (bind (Raft.gets _) _) _ => apply framed_get
  | |- framed _ (bind (Raft.reads _) _) _ => apply framed_get
  | |- framed _ (bind (get _) _) _ => apply framed_get
  | |- framed _ (bind _ _) _ => apply framed_bind; [|intros ? ?]
  | |- framed _ (when ?b _) _ => destruct b; unfold when
  | |- framed _ (if ?b then _ else _) _ => destruct b
  | |- framed _ (match ?o with Some _ => _ | None => _ end) _ => destruct o
  | |- framed _ (Raft.on_node _) _ => apply framed_silent, silent_on_node; intros ?; split; reflexivity
  | |- framed _ (Raft.on_storage _) _ => apply framed_silent, silent_on_storage
  | |- framed _ (Raft.truncate_from _) _ => apply framed_silent, silent_truncate
  | |- framed _ (Raft.machine_apply _) _ => apply framed_silent, silent_machine
  | |- framed _ (Raft.gets _) _ => apply framed_silent, silent_get
  | |- framed _ (Raft.reads _) _ => apply framed_silent, silent_get
  | |- framed _ (ret _) _ => apply framed_silent, silent_ret
  | |- framed _ (raise _) _ => apply framed_silent, silent_raise
  end.
Ltac frame_go := repeat first [solve [auto with frame] | frame_step].
Create HintDb frame.

Section methods.
Context {C S T : Type} {Hsm : StateMachine C S} {Htr : Transport C T}.
Variable random_fn : nat → float → float → float.
Abbreviation World := (Raft.World C S T).
Implicit Types (w : World) (ok : string → Prop).

Lemma framed_reset ok now w : framed ok (Raft.reset_election_deadline random_fn now) w.
Proof. unfold Raft.reset_election_deadline, Raft.random. frame_go. Qed.
#[local] Hint Resolve framed_reset : frame.

Lemma framed_send_append ok p now w :
  (p ∈ Raft.peer_ids (Raft.node w) ∨ ok p) → framed ok (Raft.send_append_entries_to p now) w.
Proof. intros Hp. unfold Raft.send_append_entries_to. frame_go. by apply framed_send. Qed.

Lemma framed_broadcast ok (f : string → Message C) w :
  framed ok (for_each (λ p, Raft.send p (f p)) (Raft.peer_ids (Raft.node w))) w.
Proof. apply framed_for_each. intros p w' Hp Hw'. apply framed_send. left. by rewrite Hw'. Qed.

Lemma framed_broadcast_append ok now w : framed ok (Raft.broadcast_append_entries now) w.
Proof.
  unfold Raft.broadcast_append_entries. frame_step. frame_step; [frame_step|]. frame_step.
  apply framed_for_each. intros p v Hp Hv. apply framed_send_append. left. by rewrite Hv.
Qed.

(** Broadcasting entries returns and keeps the storage. *)
Lemma broadcast_append_ok now w :
  ∃ w', Raft.broadcast_append_entries now w = (Ok tt, w') ∧ Raft.storage w' = Raft.storage w.
Proof.
  unfold Raft.broadcast_append_entries, Raft.gets, Raft.on_node, bind, get, modify. cbn [Raft.node].
  set (w1 := Raft.mkWorld _ _ _ _). change (Raft.storage w) with (Raft.storage w1). generalize w1 as v. clear w1.
  match goal with |- ∀ v, ∃ w', for_each _ ?l0 v = _ ∧ _ => generalize l0 as l end.
  induction l as [|p l IH]; intros v; [exists v; by split|]. simpl.
  unfold bind at 1, Raft.send_append_entries_to, Raft.gets, Raft.reads, Raft.send, bind, get, modify.
  match goal with |- ∃ w', for_each _ l ?v1 = _ ∧ _ => destruct (IH v1) as (w' & E & Hst) end.
  exists w'. split; [exact E|]. by rewrite Hst.
Qed.

(** [propose] at a node that does not lead does nothing; a leader appends the
    command to its log in its own term. *)
Lemma propose_effect c now w :
  if Raft.is_leader (Raft.node w) then
    let st := Raft.storage w in
    let e := mkEntry (Storage.current_term st) (zlen (Storage.entries st) + 1) c in
    ∃ w', Raft.propose c now w = (Ok (Some e), w') ∧ Raft.storage w' = Storage.append [e] st
  else Raft.propose c now w = (Ok None, w).
Proof.
  unfold Raft.propose, Raft.is_leader, Raft.gets, bind, get. destruct (Raft.state (Raft.node w)) eqn:Est.
  1,2: by rewrite bool_decide_false by done.
  rewrite bool_decide_true, bool_decide_false by (done || by intros []). cbv zeta.
  unfold Raft.reads, Raft.on_storage, get, modify.
  set (e := mkEntry _ _ c). edestruct broadcast_append_ok as (w' & Hb & Hst). rewrite Hb. by exists w'.
Qed.

Lemma framed_broadcast_vote ok now w : framed ok (Raft.broadcast_request_vote now) w.
Proof.
  unfold Raft.broadcast_request_vote. do 5 frame_step.
  apply (framed_broadcast ok (λ _, MRequestVoteArgs (mkRequestVoteArgs _ _ _ _))).
Qed.
#[local] Hint Resolve framed_broadcast_append framed_broadcast_vote : frame.

Lemma framed_apply_loop ok fuel : ∀ w, framed ok (Raft.apply_loop fuel) w.
Proof. induction fuel as [|f IH]; intros w; simpl; frame_go. Qed.
#[local] Hint Resolve framed_apply_loop : frame.

Lemma framed_apply ok w : framed ok Raft.apply_committed w.
Proof. unfold Raft.apply_committed. frame_go. Qed.
#[local] Hint Resolve framed_apply : frame.

Lemma framed_advance ok w : framed ok Raft.advance_commit_index w.
Proof. unfold Raft.advance_commit_index. frame_go. Qed.

Lemma framed_follower ok t now w : framed ok (Raft.become_follower random_fn t now) w.
Proof. unfold Raft.become_follower. frame_go. Qed.

Lemma framed_leader ok now w : framed ok (Raft.become_leader now) w.
Proof. unfold Raft.become_leader. frame_go. Qed.
#[local] Hint Resolve framed_advance framed_follower framed_leader : frame.

Lemma framed_maybe_leader ok now w : framed ok (Raft.maybe_become_leader_from_votes now) w.
Proof. unfold Raft.maybe_become_leader_from_votes. frame_go. Qed.
#[local] Hint Resolve framed_maybe_leader : frame.

Lemma framed_candidate ok now w : framed ok (Raft.become_candidate random_fn now) w.
Proof. unfold Raft.become_candidate. frame_go. Qed.
#[local] Hint Resolve framed_candidate : frame.

Lemma framed_win_prevote ok now w : framed ok (Raft.maybe_win_prevote random_fn now) w.
Proof. unfold Raft.maybe_win_prevote. frame_go. Qed.
#[local] Hint Resolve framed_win_prevote : frame.

Lemma framed_prevote_round ok now w : framed ok (Raft.start_prevote random_fn now) w.
Proof.
  unfold Raft.start_prevote. frame_go.
  apply (framed_broadcast ok (λ _, MPreVoteArgs (mkPreVoteArgs _ _ _ _))).
Qed.
#[local] Hint Resolve framed_prevote_round : frame.

Lemma framed_log_up_to_date ok li lt w : framed ok (Raft.log_up_to_date li lt) w.
Proof. unfold Raft.log_up_to_date. frame_go. Qed.
#[local] Hint Resolve framed_log_up_to_date : frame.

Lemma framed_observe ok t now w : framed ok (Raft.observe_term random_fn t now) w.
Proof. unfold Raft.observe_term. frame_go. Qed.
#[local] Hint Resolve framed_observe : frame.

Lemma framed_stepped_down ok t now w : framed ok (Raft.stepped_down random_fn t now) w.
Proof. unfold Raft.stepped_down. frame_go. Qed.
#[local] Hint Resolve framed_stepped_down : frame.

Lemma framed_append_loop ok es : ∀ idx w, framed ok (Raft.append_loop idx es) w.
Proof. induction es as [|e es IH]; intros idx w; simpl; frame_go. Qed.
#[local] Hint Resolve framed_append_loop : frame.

Lemma framed_append_and_commit ok args t w : framed ok (Raft.append_and_commit args t) w.
Proof. unfold Raft.append_and_commit. frame_go. Qed.
#[local] Hint Resolve framed_append_and_commit : frame.

Lemma framed_tick ok now w : framed ok (Raft.tick random_fn now) w.
Proof. unfold Raft.tick. frame_go. Qed.

Lemma framed_propose ok c now w : framed ok (Raft.propose c now) w.
Proof. unfold Raft.propose. frame_go. Qed.

Lemma framed_start ok now w : framed ok (Raft.start random_fn now) w.
Proof. unfold Raft.start. frame_go. Qed.

Lemma framed_handle_prevote ok args now w : framed ok (Raft.handle_prevote args now) w.
Proof. unfold Raft.handle_prevote. frame_go. Qed.

Lemma framed_handle_request_vote ok args now w : framed ok (Raft.handle_request_vote random_fn args now) w.
Proof. unfold Raft.handle_request_vote. frame_go. Qed.

Lemma framed_handle_append_entries ok args now w : framed ok (Raft.handle_append_entries random_fn args now) w.
Proof. unfold Raft.handle_append_entries, Raft.first_index_of_term. frame_go. Qed.

Lemma framed_prevote_reply ok reply now w : framed ok (Raft.handle_prevote_reply random_fn reply now) w.
Proof. unfold Raft.handle_prevote_reply. frame_go. Qed.

Lemma framed_vote_reply ok reply now w : framed ok (Raft.handle_request_vote_reply random_fn reply now) w.
Proof. unfold Raft.handle_request_vote_reply. frame_go. Qed.

Lemma framed_append_reply ok sender reply now w :
  ok sender → framed ok (Raft.handle_append_entries_reply random_fn sender reply now) w.
Proof.
  intros Hs. unfold Raft.handle_append_entries_reply, Raft.last_index_of_term.
  frame_go; apply framed_send_append; by right.
Qed.

(** A delivered envelope is answered to its sender only. *)
Lemma framed_receive ok e now w : ok (env_sender e) → framed ok (Raft.receive random_fn e now) w.
Proof.
  intros He. unfold Raft.receive. destruct (env_message e).
  - apply framed_bind; [apply framed_handle_request_vote|]. intros. apply framed_send. by right.
  - apply framed_vote_reply.
  - apply framed_bind; [apply framed_handle_append_entries|]. intros. apply framed_send. by right.
  - by apply framed_append_reply.
  - apply framed_bind; [apply framed_handle_prevote|]. intros. apply framed_send. by right.
  - apply framed_prevote_reply.
Qed.

End methods.
#[export] Hint Resolve framed_tick framed_propose framed_start framed_handle_prevote framed_handle_request_vote
  framed_handle_append_entries framed_prevote_reply framed_vote_reply framed_append_reply framed_receive : frame.
End Frame.
