(* ===== verification/Progress.v ===== *)
(** * One exchange between a leader and a follower

    The steps of replication as the two ends take them, in closed form: what
    a leader sends ([request]), what a follower of the same or an older term
    answers, and what the answer makes the leader do.  All of it is about one
    call into one node; ProgressProps.v puts the calls together. *)

From stdpp Require Import base gmap strings list fin_sets.
From Stdlib Require Import ZArith Lia.
From S2P Require Import Prelude PyFloat RaftTypes Storage StateMachine Transport RaftNode.
From S2P Require Import RaftSpec RaftLogs RaftRefine RaftHistory Cluster RaftProps CommitProps NodeProps.

Local Open Scope Z_scope.

Module Progress.

(** ** What committing and applying leave alone *)

Section core.
Context {C S T : Type} {Hsm : StateMachine C S} {Htr : Transport C T}.
Abbreviation World := (Raft.World C S T).
Abbreviation M := (Py World).
Implicit Types w : World.

(** Everything but the log, the two indices and the machine is the same. *)
Record core w w' : Prop := {
  co_node : ∃ c a, Raft.node w' = Raft.set_commit_index c (Raft.set_last_applied a (Raft.node w));
  co_transport : Raft.transport w' = Raft.transport w;
  co_term : Storage.current_term (Raft.storage w') = Storage.current_term (Raft.storage w)
}.

#[global] Instance core_preorder : PreOrder core.
Proof.
  split.
  - intros w. split; [|done|done]. exists (Raft.commit_index (Raft.node w)), (Raft.last_applied (Raft.node w)).
    by destruct (Raft.node w).
  - intros w1 w2 w3 [(c & a & N1) T1 S1] [(c' & a' & N2) T2 S2]. split; [|congruence|congruence].
    exists c', a'. by rewrite N2, N1.
Qed.

Definition keeps_core {A} (m : M A) : Prop := ∀ w, core w (m w).2.

Lemma keeps_ret {A} (a : A) : keeps_core (ret a).
Proof. intros w. simpl. reflexivity. Qed.
Lemma keeps_raise {A} x : keeps_core (raise x : M A).
Proof. intros w. simpl. reflexivity. Qed.
Lemma keeps_get {A} (f : World → A) : keeps_core (get f).
Proof. intros w. simpl. reflexivity. Qed.
Lemma keeps_bind {A B} (m : M A) (k : A → M B) : keeps_core m → (∀ a, keeps_core (k a)) → keeps_core (bind m k).
Proof.
  intros Hm Hk w. specialize (Hm w). unfold bind. destruct (m w) as [[a|x] w1]; [|done].
  etransitivity; [exact Hm|apply Hk].
Qed.
Lemma keeps_commit v : keeps_core (Raft.on_node (Raft.set_commit_index v)).
Proof. intros w. split; [|done|done]. exists v, (Raft.last_applied (Raft.node w)). by destruct w as [[] ? ? ?]. Qed.
Lemma keeps_applied v : keeps_core (Raft.on_node (Raft.set_last_applied v)).
Proof. intros w. split; [|done|done]. exists (Raft.commit_index (Raft.node w)), v. by destruct w as [[] ? ? ?]. Qed.
Lemma keeps_append es : keeps_core (Raft.on_storage (Storage.append es)).
Proof. intros w. split; [|done|done]. exists (Raft.commit_index (Raft.node w)), (Raft.last_applied (Raft.node w)). by destruct w as [[] ? ? ?]. Qed.
Lemma keeps_truncate i : keeps_core (Raft.truncate_from i).
Proof.
  intros w. unfold Raft.truncate_from, zoom, Storage.truncate_from. destruct w as [[] [] ? ?]. simpl.
  destruct (i <=? 0); (split; [by eexists _, _|done|done]).
Qed.
Lemma keeps_machine c : keeps_core (Raft.machine_apply c).
Proof.
  intros w. unfold Raft.machine_apply, zoom. destruct w as [[] ? ? ?]. simpl.
  destruct (sm_apply c _) as [r m]. split; [by eexists _, _|done|done].
Qed.
End core.
#[local] Hint Resolve keeps_ret keeps_raise keeps_get keeps_commit keeps_applied keeps_append keeps_truncate keeps_machine : core_kept.
Ltac core_step :=
  lazymatch goal with
  | |- keeps_core (bind _ _) => apply keeps_bind; [|intros ?]
  | |- keeps_core (if ?b then _ else _) => destruct b
  | |- keeps_core (match ?o with Some _ => _ | None => _ end) => destruct o
  end.
Ltac core_go := unfold Raft.gets, Raft.reads; repeat first [solve [auto with core_kept] | core_step].

Section methods.
Context {C S T : Type} {Hsm : StateMachine C S} {Htr : Transport C T}.
Abbreviation World := (Raft.World C S T).
Implicit Types w : World.

Lemma keeps_apply_loop fuel : keeps_core (C := C) (S := S) (T := T) (Raft.apply_loop fuel).
Proof. induction fuel as [|f IH]; simpl; core_go. Qed.
#[local] Hint Resolve keeps_apply_loop : core_kept.

Lemma keeps_apply : keeps_core (C := C) (S := S) (T := T) Raft.apply_committed.
Proof. unfold Raft.apply_committed. core_go. Qed.
#[local] Hint Resolve keeps_apply : core_kept.

Lemma keeps_advance : keeps_core (C := C) (S := S) (T := T) Raft.advance_commit_index.
Proof. unfold Raft.advance_commit_index. core_go. Qed.

Lemma keeps_append_loop es : ∀ idx, keeps_core (C := C) (S := S) (T := T) (Raft.append_loop idx es).
Proof. induction es as [|e es IH]; intros idx; simpl; core_go. Qed.
#[local] Hint Resolve keeps_append_loop : core_kept.

Lemma keeps_append_and_commit args t : keeps_core (C := C) (S := S) (T := T) (Raft.append_and_commit args t).
Proof. unfold Raft.append_and_commit. core_go. Qed.

(** ** What a leader sends *)

(** The [AppendEntriesArgs] that [_send_append_entries_to] builds for a peer. *)
Definition next_of (n : Raft.RaftNode) (log : list (LogEntry C)) (peer : string) : Z :=
  default (zlen log + 1) (Raft.next_index n !! peer).
Definition request (t : Z) (id : string) (log : list (LogEntry C)) (k commit : Z) : Message C :=
  MAppendEntriesArgs (mkAppendEntriesArgs t id (k - 1) (Storage.term_at_of (k - 1) log)
    (Storage.entries_from_of k log) commit).
Definition request_of w (peer : string) : Message C :=
  request (Storage.current_term (Raft.storage w)) (Raft.node_id (Raft.node w)) (Storage.entries (Raft.storage w))
    (next_of (Raft.node w) (Storage.entries (Raft.storage w)) peer) (Raft.commit_index (Raft.node w)).

Definition with_transport (t : T) w : World := Raft.mkWorld (Raft.node w) (Raft.storage w) t (Raft.machine w).

Lemma send_append_eq peer now w :
  Raft.send_append_entries_to peer now w =
    (Ok tt, with_transport (t_send (Raft.node_id (Raft.node w)) peer (request_of w peer) (Raft.transport w)) w).
Proof. done. Qed.

Lemma broadcast_eq now w :
  Raft.broadcast_append_entries now w =
    (Ok tt, Raft.mkWorld
       (Raft.set_next_heartbeat_deadline (F.add now (Raft.heartbeat_interval (Raft.node w))) (Raft.node w))
       (Raft.storage w)
       (foldl (λ t p, t_send (Raft.node_id (Raft.node w)) p (request_of w p) t) (Raft.transport w) (Raft.peer_ids (Raft.node w)))
       (Raft.machine w)).
Proof.
  unfold Raft.broadcast_append_entries, Raft.gets, Raft.on_node, bind, get, modify. cbn [Raft.node].
  set (w1 := Raft.mkWorld _ _ _ _).
  assert (Hfold : ∀ l v, for_each (λ p, Raft.send_append_entries_to p now) l v =
    (Ok tt, with_transport (foldl (λ t p, t_send (Raft.node_id (Raft.node v)) p (request_of v p) t) (Raft.transport v) l) v)).
  { induction l as [|p l IH]; intros v; [by destruct v|]. cbn [for_each]. unfold bind. rewrite send_append_eq, IH. done. }
  exact (Hfold (Raft.peer_ids (Raft.node w)) w1).
Qed.

(** [propose] at a leader. *)
Lemma propose_eq c now w : Raft.state (Raft.node w) = LEADER →
  let st := Raft.storage w in
  let e := mkEntry (Storage.current_term st) (zlen (Storage.entries st) + 1) c in
  let w1 := Raft.mkWorld (Raft.node w) (Storage.append [e] st) (Raft.transport w) (Raft.machine w) in
  Raft.propose c now w =
    (Ok (Some e), Raft.mkWorld
       (Raft.set_next_heartbeat_deadline (F.add now (Raft.heartbeat_interval (Raft.node w))) (Raft.node w))
       (Raft.storage w1)
       (foldl (λ t p, t_send (Raft.node_id (Raft.node w)) p (request_of w1 p) t) (Raft.transport w) (Raft.peer_ids (Raft.node w)))
       (Raft.machine w)).
Proof.
  intros Hl st e w1. unfold Raft.propose, Raft.gets, Raft.reads, Raft.on_storage, bind, get, modify.
  rewrite Hl, bool_decide_false by (intros []; done). unfold Storage.get_current_term, Storage.last_index.
  change (Raft.mkWorld (Raft.node w) _ _ _) with w1. by rewrite (broadcast_eq now w1).
Qed.
End methods.

(** ** The in-process network *)

Section net.
Context {C : Type}.
Abbreviation T := (Net.InMemoryTransport C).
Implicit Types t : T.

(** Two nodes that exchange messages now: neither is cut off. *)
Definition connected (p q : string) t : Prop := p ∉ Net.partitioned t ∧ q ∉ Net.partitioned t.

Lemma send_connected p q m t : connected p q t →
  Net.partitioned (Net.send p q m t) = Net.partitioned t ∧
  ∀ n, Net.inbox n (Net.send p q m t) = if decide (n = q) then Net.inbox q t ++ [mkEnvelope p q m] else Net.inbox n t.
Proof.
  intros [Hp Hq]. unfold Net.send. rewrite !bool_decide_false by done. split; [done|]. intros n. apply Net.inbox_insert.
Qed.

Lemma send_other p q n m t :
  n ≠ q → Net.inbox n (Net.send p q m t) = Net.inbox n t.
Proof. intros Hn. unfold Net.send. destruct (_ || _); [done|]. by rewrite Net.inbox_insert, decide_False. Qed.

Lemma send_partitioned p q m t : Net.partitioned (Net.send p q m t) = Net.partitioned t.
Proof. unfold Net.send. by destruct (_ || _). Qed.

(** One message to each peer. *)
Lemma inbox_sends id (f : string → Message C) l : ∀ t, NoDup l →
  let t' := foldl (λ t p, Net.send id p (f p) t) t l in
  Net.partitioned t' = Net.partitioned t ∧
  (∀ n, n ∉ l → Net.inbox n t' = Net.inbox n t) ∧
  (∀ n, n ∈ l → connected id n t → Net.inbox n t' = Net.inbox n t ++ [mkEnvelope id n (f n)]).
Proof.
  induction l as [|p l IH]; intros t Hnd; simpl; [split_and!; [done|done|by intros n ?%not_elem_of_nil]|].
  apply NoDup_cons in Hnd as [Hp Hnd]. destruct (IH (Net.send id p (f p) t) Hnd) as (H1 & H2 & H3). split_and!.
  - by rewrite H1, send_partitioned.
  - intros n [Hn Hl]%not_elem_of_cons. by rewrite H2, send_other.
  - intros n Hn [Hi Hc]. destruct (decide (n = p)) as [->|Hne].
    + rewrite H2 by done. destruct (send_connected id p (f p) t (conj Hi Hc)) as [_ ->]. by rewrite decide_True.
    + apply elem_of_cons in Hn as [?|Hn]; [done|]. rewrite H3, send_other by (done || by split; rewrite send_partitioned).
      done.
Qed.

Lemma popleft_single n e t : Net.inbox n t = [e] →
  ∃ t', Net.popleft n t = Some (e, t') ∧ Net.partitioned t' = Net.partitioned t ∧
    ∀ n', Net.inbox n' t' = if decide (n' = n) then [] else Net.inbox n' t.
Proof.
  intros Hn. unfold Net.popleft. rewrite Hn. eexists. split; [done|]. split; [done|]. intros n'. apply Net.inbox_insert.
Qed.

Lemma popleft_empty n t : Net.inbox n t = [] → Net.popleft n t = None.
Proof. intros Hn. unfold Net.popleft. by rewrite Hn. Qed.
End net.

(** ** The answer of a follower *)

Section follower.
Context {C S T : Type} {Hsm : StateMachine C S} {Htr : Transport C T}.
Variables (allowed : C → Prop) (fine : S → Prop).
Context {Htotal : TotalSM allowed fine}.
Abbreviation World := (Raft.World C S T).
Implicit Types w : World.
Abbreviation entries w := (Storage.entries (Raft.storage w)).
Abbreviation commit w := (Raft.commit_index (Raft.node w)).
Abbreviation applied w := (Raft.last_applied (Raft.node w)).

(** A node whose entries are allowed and whose machine has not failed. *)
Record healthy w : Prop := {
  h_log : History.all_allowed allowed (entries w);
  h_machine : fine (Raft.machine w);
  h_applied : 0 ≤ applied w
}.

(** Applying what is committed, and in the log, returns. *)
Lemma apply_loop_total fuel : ∀ w, healthy w → commit w ≤ zlen (entries w) →
  (Raft.apply_loop fuel w).1 = Ok tt.
Proof.
  induction fuel as [|f IH]; intros w Hw Hc; cbn [Raft.apply_loop]; [done|].
  unfold bind at 1 2, Raft.gets, get. destruct (Z.ltb_spec (applied w) (commit w)) as [Hlt|]; [|done].
  destruct Hw as [Hl Hm Ha]. unfold bind at 1 2, Raft.on_node, modify, Raft.reads, get. cbn [Raft.storage Raft.node].
  destruct (Storage.get_inside (applied w + 1) (entries w)) as (e & He & Hin); [lia|]. unfold Storage.get. rewrite He.
  unfold bind at 1, Raft.machine_apply, zoom. cbn [Raft.machine].
  assert (Hal : allowed (entry_command e)).
  { unfold History.all_allowed in Hl. rewrite Forall_forall in Hl. apply Hl. by eapply list_elem_of_lookup_2. }
  destruct (total_apply (entry_command e) _ Hal Hm) as (m & -> & Hm'). apply IH; [|done]. split; [done|done|simpl; lia].
Qed.

Lemma apply_total w : healthy w → commit w ≤ zlen (entries w) → (Raft.apply_committed w).1 = Ok tt.
Proof. intros Hw Hc. unfold Raft.apply_committed, bind, Raft.gets, get. by apply apply_loop_total. Qed.

Lemma append_and_commit_total args t w :
  healthy w → History.all_allowed allowed (ae_entries args) → 0 ≤ ae_prev_log_index args →
  (Raft.append_and_commit args t w).1 =
    Ok (mkAppendEntriesReply t true (Raft.node_id (Raft.node w)) (ae_prev_log_index args + zlen (ae_entries args)) 0 (-1)).
Proof.
  intros [Hl Hm Ha] He Hp. unfold Raft.append_and_commit. unfold bind at 1.
  rewrite Refine.append_loop_eq by lia. set (l := Spec.merge _ _ _).
  assert (Hl' : History.all_allowed allowed l) by (by apply History.merge_allowed).
  unfold bind at 1, Raft.gets, get at 1. cbn [Refine.with_entries Raft.node Raft.storage].
  unfold bind at 1. destruct (_ <? ae_leader_commit args); [|done].
  unfold bind at 1 2, Raft.reads, get at 1, Raft.on_node, modify.
  match goal with |- context [Raft.apply_committed ?v] => set (w1 := v) end.
  assert (Hok : (Raft.apply_committed w1).1 = Ok tt).
  { apply apply_total; [by split|]. simpl. unfold Storage.last_index. simpl. lia. }
  pose proof (keeps_apply w1) as [(c & a & Hn) _ _]. destruct (Raft.apply_committed w1) as [r w2]. simpl in Hok, Hn. subst r.
  unfold bind, get. by rewrite Hn.
Qed.

(** What a follower answers to a request of a term at least its own: it does
    not fail, it is of that term afterwards, and its answer is a success for
    all the entries of the request, or a refusal because of the entry before
    them. *)
Lemma follower_answers rnd args now w :
  healthy w → Storage.current_term (Raft.storage w) ≤ ae_term args →
  History.all_allowed allowed (ae_entries args) → 0 ≤ ae_prev_log_index args →
  ∃ reply w', Raft.handle_append_entries rnd args now w = (Ok reply, w') ∧
    Raft.transport w' = Raft.transport w ∧ Raft.node_id (Raft.node w') = Raft.node_id (Raft.node w) ∧
    Storage.current_term (Raft.storage w') = ae_term args ∧ aer_term reply = ae_term args ∧
    (aer_success reply = true → aer_match_index reply = ae_prev_log_index args + zlen (ae_entries args) ∧
       (0 < ae_prev_log_index args → Storage.term_at_of (ae_prev_log_index args) (entries w) ≠ -1 ∧
          Storage.term_at_of (ae_prev_log_index args) (entries w) = ae_prev_log_term args)).
Proof.
  intros Hw Ht He Hp. destruct (handle_append_entries_eq rnd args now w Ht) as (w2 & Hh & E). cbv zeta in E.
  assert (Hw2 : healthy w2) by (destruct Hh, Hw; split; congruence).
  pose proof (append_and_commit_total args (ae_term args) w2 Hw2 He Hp) as Hok.
  pose proof (keeps_append_and_commit args (ae_term args) w2) as [(c & a & Hn) Htr' Hst].
  destruct Hh as [G1 G2 G3 G4 G5 G6 G7]. rewrite E.
  destruct (Raft.append_and_commit args (ae_term args) w2) as [r w3]. simpl in Hok, Hn, Htr', Hst. subst r.
  assert (Hn3 : Raft.node_id (Raft.node w3) = Raft.node_id (Raft.node w)) by (by rewrite Hn).
  destruct (Z.ltb_spec 0 (ae_prev_log_index args)) as [Hpos|]; simpl.
  2: { eexists _, w3. split; [done|]. split_and!; try (simpl; congruence). intros _. split; [done|lia]. }
  destruct (Z.eqb_spec (Storage.term_at_of (ae_prev_log_index args) (entries w)) (-1)); simpl.
  { eexists _, w2. split; [done|]. by split_and!. }
  destruct (Z.eqb_spec (Storage.term_at_of (ae_prev_log_index args) (entries w)) (ae_prev_log_term args)); simpl.
  - eexists _, w3. split; [done|]. split_and!; try (simpl; congruence). done.
  - eexists _, w2. split; [done|]. by split_and!.
Qed.

(** ** What a leader does with an answer *)

Lemma advance_total w : Commit.leader_ok w → healthy w → (Raft.advance_commit_index w).1 = Ok tt.
Proof.
  intros Hok [Hl Hm Ha]. unfold Raft.advance_commit_index. unfold bind at 1 2 3, Raft.reads, Raft.gets, get.
  change (Storage.last_index (Raft.storage w)) with (zlen (entries w)).
  destruct (Commit.candidate_some w Hok) as [c Hc]. rewrite Hc. unfold bind at 1 2 3, get.
  destruct (Z.ltb_spec (commit w) c) as [Hlt|]; cbn [andb]; [|done]. unfold Storage.get_current_term.
  destruct (Z.eqb_spec (Storage.term_at c (Raft.storage w)) (Storage.current_term (Raft.storage w))) as [Ht|]; [|done].
  unfold bind at 1, Raft.on_node, modify. apply apply_total; [by split|]. simpl.
  destruct (Z.le_gt_cases c (zlen (entries w))); [done|]. exfalso.
  unfold Storage.term_at in Ht. rewrite Storage.term_at_outside in Ht by lia. pose proof (Commit.lo_term w Hok). lia.
Qed.

(** Either the last entry is not committed yet, or everything committed has
    been applied. *)
Definition settled w : Prop := commit w < zlen (entries w) ∨ applied w = commit w.

Lemma leader_success rnd p reply now w m0 :
  Commit.leader_ok w → healthy w → Raft.state (Raft.node w) = LEADER →
  aer_term reply = Storage.current_term (Raft.storage w) → aer_success reply = true →
  aer_match_index reply = zlen (entries w) → Raft.match_index (Raft.node w) !! p = Some m0 →
  ∃ w', Raft.handle_append_entries_reply rnd p reply now w = (Ok tt, w') ∧
    Raft.transport w' = Raft.transport w ∧ Raft.storage w' = Raft.storage w ∧
    Raft.state (Raft.node w') = LEADER ∧ Raft.node_id (Raft.node w') = Raft.node_id (Raft.node w) ∧
    Raft.peer_ids (Raft.node w') = Raft.peer_ids (Raft.node w) ∧
    Raft.next_index (Raft.node w') = <[p := zlen (entries w) + 1]> (Raft.next_index (Raft.node w)) ∧
    Raft.match_index (Raft.node w') = <[p := zlen (entries w)]> (Raft.match_index (Raft.node w)) ∧
    (∀ n, Commit.committable w' n → n ≤ commit w') ∧ (settled w → settled w').
Proof.
  intros Hok Hw Hl Ht Hsu Hm Hm0.
  destruct (success_reply rnd p reply now w m0 Hl Ht Hsu Hm0) as
    (w1 & -> & E1 & E2 & E3 & E4 & E5 & E6 & E7 & E8 & E9 & E10).
  pose proof (Commit.lo_match w Hok p m0 Hm0) as Hb. rewrite Hm, Z.max_r in E1, E8 by done.
  assert (Hok1 : Commit.leader_ok w1).
  { destruct Hok as [O1 O2 O3 O4 O5 O6]. split; rewrite ?E1, ?E2, ?E3, ?E4, ?E5; try done.
    - intros q m [[<- <-]|[_ Hq]]%lookup_insert_Some; [done|by eapply O5].
    - etrans; [|exact O6]. apply map_size_insert_Some. by exists m0. }
  assert (Hw1 : healthy w1) by (destruct Hw; split; congruence).
  pose proof (advance_total w1 Hok1 Hw1) as Hr. pose proof (keeps_advance w1) as [(c & a & Hn) Htr' _].
  pose proof (Commit.advance_exact w1 Hok1) as Ha. destruct (Raft.advance_commit_index w1) as [r w'].
  destruct Ha as (A1 & A2 & A3 & A4 & A5 & A6). simpl in Hr, Hn, Htr'. subst r. exists w'. split; [done|].
  assert (Hst : Raft.state (Raft.node w') = LEADER) by (rewrite Hn; simpl; by rewrite E6).
  assert (Hnx : Raft.next_index (Raft.node w') = Raft.next_index (Raft.node w1)) by (by rewrite Hn).
  assert (Hid : Raft.node_id (Raft.node w') = Raft.node_id (Raft.node w1)) by (by rewrite Hn).
  split_and!; try congruence.
  - intros n Hcm. apply A6. unfold Commit.committable in *. by rewrite A1, A2, A3 in Hcm.
  - intros Hset. unfold settled in *. rewrite A3, E3. destruct A5 as [[-> _]|[_ A5]]; [by rewrite E4, E5|right; by apply A5].
Qed.
End follower.
End Progress.
