(* ===== verification/Exchange.v ===== *)
(** * Replication from a leader to a majority, in runs of the cluster

    The calls of Progress.v composed in the event model of Cluster.v, over the
    in-process network of raft/transport.py: what a proposal sends, what one
    round trip achieves, and what a sweep over a majority achieves.  Nothing
    here is about time: the schedules say which messages get through, with any
    clock values and any random draws. *)

From stdpp Require Import base gmap strings list fin_sets fin_maps.
From Stdlib Require Import ZArith Lia.
From S2P Require Import Prelude PyFloat RaftTypes Storage StateMachine Transport RaftNode.
From S2P Require Import RaftSpec RaftInv RaftLogs RaftRefine RaftHistory Cluster RaftProps.
From S2P Require Import CommitProps NodeProps Progress.
Import Cluster Progress.

Local Open Scope Z_scope.

Section progress.
Context {C S : Type} {Hsm : StateMachine C S}.
Abbreviation T := (Net.InMemoryTransport C).
Variables tmin tmax hb : float.
Variable ids : list string.
Hypothesis Hids : NoDup ids.
Variable sm0 : S.
Variables (allowed : C → Prop) (fine : S → Prop).
Context {Htotal : TotalSM allowed fine}.
Hypothesis Hfine : fine sm0.

Abbreviation Cl := (Cluster C S T).
Abbreviation start := (Cluster.init tmin tmax hb ids sm0 (Net.init (C := C))).
Abbreviation run := (Cluster.run tmin tmax hb ids).
Abbreviation exec := (Cluster.exec tmin tmax hb ids).
Abbreviation Schedule := (list (Event C T * (nat → float → float → float))).
Abbreviation log_of s := (Storage.entries (slot_storage s)).
Abbreviation term_of s := (Storage.current_term (slot_storage s)).
Implicit Types (cl : Cl) (s f : Slot (C := C) (S := S)).

(** ** The states of a run *)

Definition reached cl : Prop :=
  ∃ evs : Schedule, Forall (λ ev, event_allowed allowed ev.1) evs ∧ cl = run evs start.

Lemma reached_exec ev rnd cl : event_allowed allowed ev → reached cl → reached (exec ev rnd cl).2.
Proof.
  intros Hev (evs & He & ->). exists (evs ++ [(ev, rnd)]). split; [apply Forall_app; by split; [|constructor]|].
  unfold Cluster.run. by rewrite foldl_app.
Qed.

(** What holds of a node of a run. *)
Record node_facts (id : string) s : Prop := {
  nf_healthy (t : T) : healthy allowed fine (world s t);
  nf_id : Raft.node_id (slot_node s) = id;
  nf_peers p : p ∈ Raft.peer_ids (slot_node s) ↔ p ∈ ids ∧ p ≠ id;
  nf_nodup : NoDup (Raft.peer_ids (slot_node s));
  nf_next p : 1 ≤ next_of (slot_node s) (log_of s) p;
  nf_commit : Raft.commit_index (slot_node s) ≤ zlen (log_of s);
  nf_positive : Logs.positive_terms (log_of s);
  nf_sorted : sorted_terms (log_of s)
}.

Lemma reached_node cl id s : reached cl → slots cl !! id = Some s → node_facts id s.
Proof.
  intros (evs & He & ->) Hs.
  destruct (one_point tmin tmax hb ids Hids sm0 Net.init Net.queued_init allowed evs He) as (G & Hf & HI).
  destruct (slot_anode _ _ _ _ _ _ _ Hf Hs) as (h & Hm & Hv).
  destruct (slot_ok _ _ _ _ _ _ _ Hf HI Hs) as (_ & Hg & _ & Ha & Hc).
  destruct (f_slot _ _ _ _ _ Hf _ _ Hs) as [Hid HR]. pose proof (f_reachable _ _ _ _ _ Hf) as Hr.
  pose proof (History.valid_reachable _ _ _ Hr) as Hval.
  destruct (History.history_longest _ G id HI (History.history_reachable _ _ _ Hr id)) as (ps & l & Hh & _ & Hcm & Hall & _).
  rewrite Hv in Hh. simpl in Hh.
  assert (Hl : History.all_allowed allowed (log_of s)) by (pose proof (History.v_log _ _ Hval id) as Hlog; by rewrite Hv in Hlog).
  assert (Hah : Forall allowed h).
  { pose proof (History.committed_cmds_allowed _ _ _ _ Hval Hcm) as Hal. rewrite Hh. apply Forall_concat.
    eapply Forall_impl; [exact Hall|]. intros p [r Er]. rewrite Er in Hal. by apply Forall_app in Hal as [? _]. }
  pose proof (λ t, Inv.to_terms _ _ _ (Inv.i_term _ _ HI t)) as Hterms. split.
  - intros t. split; [done| |simpl; lia]. simpl. rewrite Hm. by apply (effects_fine allowed).
  - apply (Refine.r_id _ _ _ _ _ HR).
  - intros p. rewrite (Refine.r_peers _ _ _ _ _ HR). unfold Spec.peers_of. set_solver.
  - apply (Refine.r_nodup _ _ _ _ _ HR).
  - intros p. unfold next_of. destruct (Raft.next_index (slot_node s) !! p) as [k|] eqn:E; simpl.
    + by apply (Refine.r_next _ _ _ _ _ HR p).
    + pose proof (zlen_nonneg (log_of s)). lia.
  - done.
  - by apply (Logs.good_log_positive G).
  - intros i j ? ?. by apply (Logs.good_log_sorted G Hterms).
Qed.

Lemma reached_some cl id : reached cl → id ∈ ids → is_Some (slots cl !! id).
Proof.
  intros (evs & _ & ->) Hid. destruct (one_point_any tmin tmax hb ids Hids sm0 Net.init Net.queued_init evs) as (G & Hf & _).
  by apply (f_slots _ _ _ _ _ Hf).
Qed.

Lemma reached_leader cl id s (t : T) : reached cl → slots cl !! id = Some s → Raft.state (slot_node s) = LEADER →
  Commit.leader_ok (world s t) ∧ ∀ p, p ∈ ids → p ≠ id → is_Some (Raft.match_index (slot_node s) !! p).
Proof. intros (evs & _ & ->). apply (leader_slot tmin tmax hb ids Hids sm0 Net.init Net.queued_init). Qed.

(** A refused attempt moves [next_index] down. *)
Lemma retry_bound cl q f L s prev : reached cl → slots cl !! q = Some f → slots cl !! L = Some s →
  1 ≤ prev → (prev ≤ zlen (log_of s) → Storage.term_at_of prev (log_of f) ≠ Storage.term_at_of prev (log_of s)) →
  1 ≤ next_after_conflict (log_of f) (log_of s) prev ≤ prev.
Proof.
  intros Hr Hf Hs Hp Hne. destruct (Z.le_gt_cases prev (zlen (log_of s))) as [Hin|Hout].
  - destruct Hr as (evs & _ & ->).
    apply (next_after_conflict_bounds tmin tmax hb ids Hids sm0 Net.init Net.queued_init evs [] q L f s); try done.
    + by rewrite app_nil_r.
    + by apply Hne.
  - apply next_after_conflict_beyond; [|by eapply (nf_sorted _ s), reached_node|done|lia].
    by eapply (nf_positive _ f), reached_node.
Qed.

(** ** One exchange *)

Section exchange.
Variable L : string.
Variable tm : Z.
Variable log : list (LogEntry C).

(** [L] leads its term with this log. *)
Record leading cl s : Prop := {
  ld_slot : slots cl !! L = Some s;
  ld_state : Raft.state (slot_node s) = LEADER;
  ld_term : term_of s = tm;
  ld_log : log_of s = log;
  ld_inbox : Net.inbox L (network cl) = [];
  ld_joined : L ∉ Net.partitioned (network cl)
}.

(** [q] can answer the leader: it is connected and of no later term. *)
Record follower cl q : Prop := {
  fo_ids : q ∈ ids;
  fo_ne : q ≠ L;
  fo_joined : q ∉ Net.partitioned (network cl);
  fo_term f : slots cl !! q = Some f → term_of f ≤ tm
}.

(** The leader's request to [q], and nothing else, waits for it. *)
Definition pending cl s q (k : Z) : Prop :=
  next_of (slot_node s) log q = k ∧
  ∃ c, Net.inbox q (network cl) = [mkEnvelope L q (request tm L log k c)].

(** [q] holds the log, and the leader knows it. *)
Definition caught_up cl s q : Prop :=
  Net.inbox q (network cl) = [] ∧ Raft.next_index (slot_node s) !! q = Some (zlen log + 1) ∧
  Raft.match_index (slot_node s) !! q = Some (zlen log).

(** The leader has committed what it may. *)
Definition saturated cl s : Prop :=
  ∀ n, Commit.committable (world s (network cl)) n → n ≤ Raft.commit_index (slot_node s).

(** Nothing but exchanges between the leader and nodes of [Q] happened. *)
Record only_with (Q : list string) cl s cl' s' : Prop := {
  ow_reached : reached cl';
  ow_leading : leading cl' s';
  ow_follower p : follower cl p → follower cl' p;
  ow_settled : settled (world s (network cl)) → settled (world s' (network cl'));
  ow_slots p : p ∉ Q → p ≠ L → slots cl' !! p = slots cl !! p;
  ow_inbox p : p ∉ Q → p ≠ L → Net.inbox p (network cl') = Net.inbox p (network cl);
  ow_partitioned : Net.partitioned (network cl') = Net.partitioned (network cl);
  ow_next p : p ∉ Q → Raft.next_index (slot_node s') !! p = Raft.next_index (slot_node s) !! p;
  ow_match p : p ∉ Q → Raft.match_index (slot_node s') !! p = Raft.match_index (slot_node s) !! p
}.

Lemma only_with_refl Q cl s : reached cl → leading cl s → only_with Q cl s cl s.
Proof. by split. Qed.

Lemma only_with_trans Q cl1 s1 cl2 s2 cl3 s3 :
  only_with Q cl1 s1 cl2 s2 → only_with Q cl2 s2 cl3 s3 → only_with Q cl1 s1 cl3 s3.
Proof.
  intros [] []. split; try done; try congruence; [by auto|by auto|..]; intros p Hp; try intros Hp'.
  - by rewrite ow_slots1, ow_slots0.
  - by rewrite ow_inbox1, ow_inbox0.
  - by rewrite ow_next1, ow_next0.
  - by rewrite ow_match1, ow_match0.
Qed.

Lemma only_with_weaken Q Q' cl s cl' s' : Q ⊆ Q' → only_with Q cl s cl' s' → only_with Q' cl s cl' s'.
Proof. intros HQ []. split; try done; intros p Hp; auto. Qed.

(** The request reaches the follower, and its answer the leader's inbox. *)
Lemma deliver_request cl s q k now rnd :
  reached cl → leading cl s → follower cl q → pending cl s q k →
  let cl' := (exec (Deliver q tt now) rnd cl).2 in
  ∃ f f' reply, slots cl !! q = Some f ∧ slots cl' = <[q := f']> (slots cl) ∧ term_of f' = tm ∧
    aer_term reply = tm ∧
    Net.inbox L (network cl') = [mkEnvelope q L (MAppendEntriesReply reply)] ∧
    (∀ p, p ≠ L → Net.inbox p (network cl') = if decide (p = q) then [] else Net.inbox p (network cl)) ∧
    Net.partitioned (network cl') = Net.partitioned (network cl) ∧
    if aer_success reply then aer_match_index reply = zlen log
    else (if aer_conflict_term reply =? -1 then Z.max 1 (aer_conflict_index reply)
          else let li := Raft.last_index_of (aer_conflict_term reply) log in
               if 0 <? li then li + 1 else aer_conflict_index reply) = next_after_conflict (log_of f) log (k - 1) ∧
         1 ≤ next_after_conflict (log_of f) log (k - 1) < k.
Proof.
  intros Hr Hld Hfo [Hk (c & Hin)]. destruct (reached_some cl q Hr (fo_ids _ _ Hfo)) as [f Hf].
  pose proof (reached_node _ _ _ Hr Hf) as Nf. pose proof (reached_node _ _ _ Hr (ld_slot _ _ Hld)) as Ns.
  pose proof (nf_next _ _ Ns q) as Hk1. rewrite (ld_log _ _ Hld), Hk in Hk1.
  destruct (popleft_single q _ _ Hin) as (t' & Hpop & Hpart & Hbox).
  assert (Hal : History.all_allowed allowed log).
  { rewrite <- (ld_log _ _ Hld). apply (h_log _ _ _ (nf_healthy _ _ Ns (network cl))). }
  rewrite <- Hk in *. set (k0 := next_of _ _ _) in *.
  set (args := mkAppendEntriesArgs tm L (k0 - 1) (Storage.term_at_of (k0 - 1) log) (Storage.entries_from_of k0 log) c).
  assert (Hea : History.all_allowed allowed (ae_entries args)).
  { simpl. rewrite Storage.entries_from_sfx by lia. by apply Forall_drop. }
  destruct (follower_answers allowed fine rnd args now (world f t') (nf_healthy _ _ Nf t')
    (fo_term _ _ Hfo f Hf) Hea ltac:(simpl; lia)) as (reply & w' & E & F1 & F2 & F3 & F4 & F5).
  simpl in F1, F2, F3, F4, F5. rewrite (nf_id _ _ Nf) in F2.
  assert (Hcon : connected q L t').
  { split; rewrite Hpart; [apply (fo_joined _ _ Hfo)|apply (ld_joined _ _ Hld)]. }
  destruct (send_connected q L (MAppendEntriesReply reply) t' Hcon) as [Hp2 Hb2].
  simpl. rewrite Hpop. unfold on_slot. cbn [slots network]. rewrite Hf. unfold Raft.receive. cbn [env_message env_sender request].
  fold args. unfold bind. rewrite E. unfold Raft.send, modify. cbn. rewrite F1, F2.
  pose proof (fo_ne _ _ Hfo) as Hne. eexists f, _, reply. split; [done|]. split; [done|]. split; [done|]. split; [done|]. split_and!.
  - by rewrite Hb2, decide_True, Hbox, decide_False, (ld_inbox _ _ Hld).
  - intros p Hp. by rewrite Hb2, decide_False, Hbox.
  - by rewrite Hp2, Hpart.
  - destruct (aer_success reply) eqn:Es.
    + destruct (F5 eq_refl) as [-> Hprev]. rewrite Storage.entries_from_sfx by lia.
      assert (k0 - 1 ≤ zlen log).
      { destruct (Z.le_gt_cases (k0 - 1) (zlen log)) as [|Hgt]; [done|]. pose proof (zlen_nonneg log).
        destruct (Hprev ltac:(lia)) as [H1 H2]. by rewrite H2, Storage.term_at_outside in H1 by lia. }
      rewrite zlen_sfx by lia. lia.
    + destruct (append_refused rnd args now (world f t') w' reply E Es (fo_term _ _ Hfo f Hf)) as (Hp & _ & Hc).
      simpl in Hp, Hc.
      assert (Hb : 1 ≤ next_after_conflict (log_of f) (log_of s) (k0 - 1) ≤ k0 - 1).
      { eapply retry_bound; [done..|apply (ld_slot _ _ Hld)|lia|]. rewrite (ld_log _ _ Hld). intros Hle.
        pose proof (nf_positive _ _ Ns (k0 - 1)) as Hpos. rewrite (ld_log _ _ Hld) in Hpos. specialize (Hpos ltac:(lia)).
        destruct Hc as [(-> & _)|(_ & ? & _)]; [lia|done]. }
      rewrite (ld_log _ _ Hld) in Hb. split; [|lia].
      unfold next_after_conflict. destruct Hc as [(-> & -> & ->)|(H1 & _ & -> & ->)]; [done|].
      by rewrite (proj2 (Z.eqb_neq _ _) H1).
Qed.

(** The leader's reaction: the exchange is over, or a request for an earlier
    entry is on its way. *)
Lemma deliver_answer cl s q (F : list (LogEntry C)) f' k reply now rnd :
  reached cl → follower cl q → slots cl !! L = Some s → Raft.state (slot_node s) = LEADER → term_of s = tm →
  log_of s = log → L ∉ Net.partitioned (network cl) →
  slots cl !! q = Some f' → Net.inbox L (network cl) = [mkEnvelope q L (MAppendEntriesReply reply)] →
  Net.inbox q (network cl) = [] → aer_term reply = tm →
  (if aer_success reply then aer_match_index reply = zlen log
   else (if aer_conflict_term reply =? -1 then Z.max 1 (aer_conflict_index reply)
         else let li := Raft.last_index_of (aer_conflict_term reply) log in
              if 0 <? li then li + 1 else aer_conflict_index reply) = next_after_conflict F log (k - 1) ∧
        1 ≤ next_after_conflict F log (k - 1) < k) →
  let cl' := (exec (Deliver L tt now) rnd cl).2 in
  ∃ s', slots cl' = <[L := s']> (slots cl) ∧ leading cl' s' ∧
    (∀ p, p ≠ q → p ≠ L → Net.inbox p (network cl') = Net.inbox p (network cl)) ∧
    Net.partitioned (network cl') = Net.partitioned (network cl) ∧
    (∀ p, p ≠ q → Raft.next_index (slot_node s') !! p = Raft.next_index (slot_node s) !! p) ∧
    (∀ p, p ≠ q → Raft.match_index (slot_node s') !! p = Raft.match_index (slot_node s) !! p) ∧
    (settled (world s (network cl)) → settled (world s' (network cl'))) ∧
    (caught_up cl' s' q ∧ saturated cl' s' ∨ ∃ k', 1 ≤ k' < k ∧ pending cl' s' q k').
Proof.
  intros Hr [Hq Hne Hjq Hft] HL Hld Htm Hlog HjL Hf' Hin Hinq Ht Hrep.
  pose proof (reached_node _ _ _ Hr HL) as Ns. destruct (popleft_single L _ _ Hin) as (t' & Hpop & Hpart & Hbox).
  simpl. rewrite Hpop. unfold on_slot. cbn [slots network]. rewrite HL. unfold Raft.receive. cbn [env_message env_sender].
  assert (Htr : aer_term reply = Storage.current_term (Raft.storage (world s t'))) by (simpl; congruence).
  destruct (reached_leader cl L s t' Hr HL Hld) as [Hok Hms]. destruct (Hms q Hq Hne) as [m0 Hm0].
  destruct (aer_success reply) eqn:Es.
  - destruct (leader_success allowed fine rnd q reply now (world s t') m0 Hok (nf_healthy _ _ Ns t') Hld Htr Es
      ltac:(simpl; congruence) Hm0) as (w' & -> & E1 & E2 & E3 & E4 & E5 & E6 & E7 & E8 & E9).
    simpl in E1, E2, E6, E7. eexists. split; [done|]. split.
    { split; cbn; rewrite ?E1, ?E2; try done; [by rewrite lookup_insert_eq|by rewrite Hbox, decide_True|by rewrite Hpart]. }
    rewrite Hlog in E6, E7. cbn. rewrite E1. split_and!.
    + intros p Hp HpL. by rewrite Hbox, decide_False.
    + done.
    + intros p Hp. by rewrite E6, lookup_insert_ne.
    + intros p Hp. by rewrite E7, lookup_insert_ne.
    + by destruct w'.
    + left. split; [split_and!|]; cbn; [by rewrite E1, Hbox, decide_False|by rewrite E6, lookup_insert_eq|by rewrite E7, lookup_insert_eq|].
      intros n Hn. apply E8. by destruct w'.
  - destruct Hrep as [Hnext Hb]. cbn zeta in Hnext.
    rewrite (refused_reply_eq rnd q reply now (world s t') Hld Htr Es). cbn [world Raft.node Raft.storage Raft.transport Raft.machine]. rewrite Hlog, Hnext.
    set (k' := next_after_conflict F log (k - 1)) in *. rewrite send_append_eq. cbn. rewrite (nf_id _ _ Ns).
    destruct (send_connected L q (request_of (Raft.mkWorld (Raft.set_next_index (<[q:=k']> (Raft.next_index (slot_node s)))
      (slot_node s)) (slot_storage s) t' (slot_machine s)) q) t') as [Hp2 Hb2]; [by split; rewrite Hpart|].
    eexists. split; [done|]. split.
    { split; cbn; try done; [by rewrite lookup_insert_eq| |by rewrite Hp2, Hpart]. by rewrite Hb2, decide_False, Hbox, decide_True. }
    cbn. split_and!.
    + intros p Hp HpL. by rewrite Hb2, decide_False, Hbox, decide_False.
    + by rewrite Hp2.
    + intros p Hp. by rewrite lookup_insert_ne.
    + done.
    + done.
    + right. exists k'. split; [done|].
      assert (Hkk : default (zlen log + 1) (<[q:=k']> (Raft.next_index (slot_node s)) !! q) = k') by (by rewrite lookup_insert_eq).
      split; [exact Hkk|]. eexists. cbn. rewrite Hb2, decide_True, Hbox, decide_False, Hinq by done.
      unfold request_of, next_of. cbn. by rewrite Hlog, Htm, (nf_id _ _ Ns), Hkk.
Qed.

(** One round trip. *)
Lemma exchange_once cl s q k t1 r1 t2 r2 :
  reached cl → leading cl s → follower cl q → pending cl s q k →
  let cl' := run [(Deliver q tt t1, r1); (Deliver L tt t2, r2)] cl in
  ∃ s', only_with [q] cl s cl' s' ∧ (caught_up cl' s' q ∧ saturated cl' s' ∨ ∃ k', 1 ≤ k' < k ∧ pending cl' s' q k').
Proof.
  intros Hr Hld Hfo Hp. destruct (deliver_request cl s q k t1 r1 Hr Hld Hfo Hp) as
    (f & f' & reply & Hf & Hsl & Htf & Ht & HL & Hbox & Hpart & Hrep).
  pose proof (reached_exec (Deliver q tt t1) r1 cl I Hr) as Hr1.
  cbn [Cluster.run foldl fst snd]. match type of Hr1 with reached ?c => set (cl1 := c) in * end. cbn zeta in *.
  pose proof (reached_exec (Deliver L tt t2) r2 cl1 I Hr1 : reached (exec (Deliver L tt t2) r2 cl1).2) as Hr2.
  destruct Hfo as [Hq Hne Hjq Hft]. destruct Hld as [D1 D2 D3 D4 D5 D6].
  assert (Hfo1 : follower cl1 q).
  { split; [done|done|by rewrite Hpart|]. intros g. rewrite Hsl, lookup_insert_eq. intros [= <-]. lia. }
  destruct (deliver_answer cl1 s q (log_of f) f' k reply t2 r2) as (s' & Hsl2 & Hld2 & Hbox2 & Hpart2 & Hn2 & Hm2 & Hset & Hout); try done.
  { by rewrite Hsl, lookup_insert_ne. }
  { by rewrite Hpart. }
  { by rewrite Hsl, lookup_insert_eq. }
  { by rewrite Hbox, decide_True. }
  exists s'. split; [|done]. split; try done.
  - intros p [Hp1 Hp2 Hp3 Hp4]. split; [done|done|by rewrite Hpart2, Hpart|]. intros g. rewrite Hsl2, Hsl, lookup_insert_ne by done.
    destruct (decide (p = q)) as [->|]; [rewrite lookup_insert_eq; intros [= <-]; lia|]. rewrite lookup_insert_ne by done. auto.
  - intros p Hp1%not_elem_of_cons Hp2. rewrite Hsl2, Hsl, !lookup_insert_ne by naive_solver. done.
  - intros p [Hp1 _]%not_elem_of_cons Hp2. by rewrite Hbox2, Hbox, decide_False.
  - by rewrite Hpart2.
  - intros p [Hp1 _]%not_elem_of_cons. auto.
  - intros p [Hp1 _]%not_elem_of_cons. auto.
Qed.

(** ** Rounds *)

(** [n] round trips between [q] and the leader, at any times. *)
Inductive round_trips (q : string) : nat → Schedule → Prop :=
| trips_0 : round_trips q 0 []
| trips_S n t1 r1 t2 r2 evs : round_trips q n evs →
    round_trips q (Datatypes.S n) ([(Deliver q tt t1, r1); (Deliver L tt t2, r2)] ++ evs).

(** [n] round trips with each of these nodes, one node after the other. *)
Inductive sweep (n : nat) : list string → Schedule → Prop :=
| sweep_nil : sweep n [] []
| sweep_cons q Q evs evs' : round_trips q n evs → sweep n Q evs' → sweep n (q :: Q) (evs ++ evs').

Lemma reached_trips q n evs cl : round_trips q n evs → reached cl → reached (run evs cl).
Proof.
  intros He. revert cl. induction He as [|n t1 r1 t2 r2 evs He IH]; intros cl Hr; [done|]. rewrite run_app.
  apply IH. cbn [Cluster.run foldl fst snd]. by do 2 (apply reached_exec; [exact I|]).
Qed.

(** Nothing is delivered when both inboxes are empty. *)
Lemma trips_idle q n evs cl : round_trips q n evs →
  Net.inbox q (network cl) = [] → Net.inbox L (network cl) = [] → run evs cl = cl.
Proof.
  intros He Hq HL. induction He as [|n t1 r1 t2 r2 evs He IH]; [done|]. rewrite run_app. simpl.
  rewrite (popleft_empty q) by done. simpl. by rewrite (popleft_empty L) by done.
Qed.

Lemma trips_finish q n evs : round_trips q n evs → ∀ cl s k,
  reached cl → leading cl s → follower cl q → pending cl s q k → 1 ≤ k ≤ Z.of_nat n →
  ∃ s', only_with [q] cl s (run evs cl) s' ∧ caught_up (run evs cl) s' q ∧ saturated (run evs cl) s'.
Proof.
  induction 1 as [|n t1 r1 t2 r2 evs He IH]; intros cl s k Hr Hld Hfo Hp Hk; [lia|]. rewrite run_app.
  destruct (exchange_once cl s q k t1 r1 t2 r2 Hr Hld Hfo Hp) as (s1 & Ho & Hout). cbv zeta in *.
  match type of Ho with only_with _ _ _ ?c _ => set (cl1 := c) in * end.
  destruct Hout as [Hd|(k' & Hk' & Hp')].
  - exists s1. rewrite (trips_idle q n evs cl1 He); [done|apply Hd|apply (ld_inbox _ _ (ow_leading _ _ _ _ _ Ho))].
  - destruct (IH cl1 s1 k') as (s2 & Ho2 & Hd2); try apply Ho; [done|done|lia|].
    exists s2. split; [by eapply only_with_trans|done].
Qed.

(** Every node of [Q] has a request of the leader to answer. *)
Definition asked cl s (n : nat) (Q : list string) : Prop :=
  ∀ q, q ∈ Q → follower cl q ∧ ∃ k, pending cl s q k ∧ 1 ≤ k ≤ Z.of_nat n.

Lemma asked_only_with q cl s cl' s' n Q : only_with [q] cl s cl' s' → q ∉ Q → asked cl s n Q → asked cl' s' n Q.
Proof.
  intros Ho Hq Ha p Hp. destruct (Ha p Hp) as [Hfo (k & (Hk & c & Hc) & Hb)].
  assert (Hpq : p ∉ [q]) by (intros ->%list_elem_of_singleton; done). split; [by apply Ho|].
  exists k. split; [|done]. split; [unfold next_of in *; by rewrite (ow_next _ _ _ _ _ Ho)|].
  exists c. rewrite (ow_inbox _ _ _ _ _ Ho); [done|done|apply (fo_ne _ _ Hfo)].
Qed.

(** After the sweep the leader knows that all of [Q] holds its log, and has
    committed what it may. *)
Lemma sweep_finish n Q evs : sweep n Q evs → ∀ cl s,
  reached cl → leading cl s → asked cl s n Q → NoDup Q → Q ≠ [] →
  ∃ s', only_with Q cl s (run evs cl) s' ∧ (∀ q, q ∈ Q → caught_up (run evs cl) s' q) ∧ saturated (run evs cl) s'.
Proof.
  induction 1 as [|q Q evs evs' He Hs IH]; intros cl s Hr Hld Ha Hnd Hne; [done|].
  apply NoDup_cons in Hnd as [Hq Hnd]. destruct (Ha q ltac:(left)) as [Hfo (k & Hp & Hk)].
  destruct (trips_finish q n evs He cl s k Hr Hld Hfo Hp Hk) as (s1 & Ho & Hcu & Hsat). rewrite run_app.
  destruct (decide (Q = [])) as [->|HQ].
  - inversion Hs; subst. exists s1. split_and!; [done| |done]. by intros p ->%list_elem_of_singleton.
  - destruct (IH (run evs cl) s1) as (s2 & Ho2 & Hcu2 & Hsat2); try apply Ho; [|done|done|].
    { eapply asked_only_with; [done|done|]. intros p Hp2. apply Ha. by right. }
    exists s2. split_and!; [| |done].
    + eapply only_with_trans; eapply only_with_weaken; [|exact Ho| |exact Ho2]; set_solver.
    + intros p [->|Hp2]%elem_of_cons; [|by apply Hcu2]. destruct Hcu as (C1 & C2 & C3).
      split_and!; [rewrite (ow_inbox _ _ _ _ _ Ho2); [done|done|apply (fo_ne _ _ Hfo)]|..].
      * by rewrite (ow_next _ _ _ _ _ Ho2).
      * by rewrite (ow_match _ _ _ _ _ Ho2).
Qed.
End exchange.

(** ** From a proposal to its commit *)

(** The network is quiet around the leader [L] and the nodes [Q]: they are
    connected, and none has a message waiting. *)
Definition quiet cl (l : list string) : Prop :=
  ∀ p, p ∈ l → p ∉ Net.partitioned (network cl) ∧ Net.inbox p (network cl) = [].

(** A proposal sends the new entry, after what each peer is thought to lack. *)
Lemma propose_asks cl L s c now rnd n Q :
  reached cl → slots cl !! L = Some s → Raft.state (slot_node s) = LEADER → allowed c → quiet cl (L :: Q) →
  let log := log_of s ++ [mkEntry (term_of s) (zlen (log_of s) + 1) c] in
  (∀ q, q ∈ Q → q ∈ ids ∧ q ≠ L ∧ next_of (slot_node s) log q ≤ Z.of_nat n ∧
     ∀ f, slots cl !! q = Some f → term_of f ≤ term_of s) →
  let cl' := ((exec (Propose L c now) rnd cl).2) in
  ∃ s', reached cl' ∧ leading L (term_of s) log cl' s' ∧ settled (world s' (network cl')) ∧ asked L (term_of s) log cl' s' n Q ∧
    Raft.peer_ids (slot_node s') = Raft.peer_ids (slot_node s).
Proof.
  intros Hr Hs Hl Hc Hq log HQ cl'. pose proof (reached_node _ _ _ Hr Hs) as [N1 N2 N3 N4 N5 N6 _ _].
  pose proof (reached_exec (Propose L c now) rnd cl Hc Hr) as Hr'. fold cl' in Hr'. revert Hr'.
  unfold cl'. cbn [Cluster.exec]. unfold on_slot. rewrite Hs, (propose_eq c now (world s (network cl)) Hl).
  set (w1 := Raft.mkWorld (slot_node s) (Storage.append [mkEntry (term_of s) (zlen (log_of s) + 1) c] (slot_storage s))
    (network cl) (slot_machine s)).
  cbn -[request_of]. rewrite N2. pose proof (inbox_sends L (request_of w1) (Raft.peer_ids (slot_node s)) (network cl) N4) as (B1 & B2 & B3). cbn -[request_of] in B1, B2, B3.
  fold w1. match type of B1 with Net.partitioned ?t = _ => set (net := t) in * end. intros Hr'. eexists. split; [done|].
  pose proof (Hq L ltac:(left)) as [HjL HiL].
  assert (HL : Net.inbox L net = []) by (rewrite B2; [done|rewrite N3; naive_solver]).
  split_and!; [| |intros q Hin; destruct (HQ q Hin) as (Hi & Hne & Hn & Ht); destruct (Hq q ltac:(by right)) as [Hj Hiq]; split|].
  - split; cbn; [by rewrite lookup_insert_eq|done|done|done|done|by rewrite B1].
  - left. cbn. rewrite zlen_app. change (zlen [_]) with 1. lia.
  - split; [done|done|cbn; by rewrite B1|]. intros g. cbn. rewrite lookup_insert_ne by done. apply Ht.
  - pose proof (N5 q) as Hk1. unfold next_of in Hk1. pose proof (zlen_nonneg (log_of s)).
    exists (next_of (slot_node s) log q). split; [|split; [|done]].
    + split; [done|]. exists (Raft.commit_index (slot_node s)). cbn. rewrite B3; [|rewrite N3; done|by split].
      rewrite Hiq. unfold request_of. cbn. by rewrite N2.
    + unfold next_of, log in *. destruct (Raft.next_index (slot_node s) !! q); simpl in *; [done|].
      rewrite zlen_app. change (zlen [_]) with 1. lia.
  - done.
Qed.

(** With its log held by a majority, a leader has committed all of it when
    the last entry is of its term. *)
Lemma saturated_commits cl s L tm log Q : reached cl → leading L tm log cl s → NoDup Q →
  (∀ q, q ∈ Q → caught_up log cl s q) → saturated cl s →
  Raft.majority_of (Raft.peer_ids (slot_node s)) ≤ zlen Q + 1 → 1 ≤ zlen log →
  Storage.term_at_of (zlen log) log = tm → Raft.commit_index (slot_node s) = zlen log.
Proof.
  intros Hr [E1 E2 E3 E4 _ _] Hnd Hcu Hsat Hmaj Hlen Ht.
  pose proof (nf_commit _ _ (reached_node _ _ _ Hr E1)) as Hci. rewrite E4 in Hci.
  assert (Hlast : Commit.committable (world s (network cl)) (zlen log)); [|apply Hsat in Hlast; lia].
  split; [cbn; rewrite E4; lia|]. split; [cbn; unfold Storage.term_at; by rewrite E3, E4|].
  cbn. rewrite E4. unfold Commit.holding. rewrite filter_cons_True, zlen_cons by lia.
  pose proof (Commit.holding_known (zlen log) (Raft.match_index (slot_node s)) Q Hnd (λ q Hq, proj2 (proj2 (Hcu q Hq)))) as Hk.
  unfold Commit.holding in Hk. lia.
Qed.

(** The peers of a node never change. *)
Lemma reached_majority cl cl' id s s' : reached cl → reached cl' → slots cl !! id = Some s → slots cl' !! id = Some s' →
  Raft.majority_of (Raft.peer_ids (slot_node s')) = Raft.majority_of (Raft.peer_ids (slot_node s)).
Proof.
  intros Hr Hr' Hs Hs'. pose proof (reached_node _ _ _ Hr Hs) as [_ _ P1 P2 _ _ _ _].
  pose proof (reached_node _ _ _ Hr' Hs') as [_ _ P3 P4 _ _ _ _]. unfold Raft.majority_of, zlen. do 4 f_equal.
  apply Permutation_length, NoDup_Permutation; [done|done|]. intros p. by rewrite P1, P3.
Qed.

(** A proposal and a sweep over a majority commit it. *)
Lemma proposal_commits cl L s c now rnd n Q sched :
  reached cl → allowed c → slots cl !! L = Some s → Raft.state (slot_node s) = LEADER →
  Q ≠ [] → NoDup Q → Raft.majority_of (Raft.peer_ids (slot_node s)) ≤ zlen Q + 1 → quiet cl (L :: Q) →
  let log := log_of s ++ [mkEntry (term_of s) (zlen (log_of s) + 1) c] in
  (∀ q, q ∈ Q → q ∈ ids ∧ q ≠ L ∧ next_of (slot_node s) log q ≤ Z.of_nat n ∧
     ∀ f, slots cl !! q = Some f → term_of f ≤ term_of s) →
  sweep L n Q sched →
  let cl' := run ((Propose L c now, rnd) :: sched) cl in
  ∃ s', reached cl' ∧ leading L (term_of s) log cl' s' ∧
    Raft.commit_index (slot_node s') = zlen log ∧ Raft.last_applied (slot_node s') = zlen log.
Proof.
  intros Hr Hc Hs Hl HQ Hnd Hmaj Hq log Hall Hsw cl'.
  destruct (propose_asks _ L s c now rnd n Q Hr Hs Hl Hc Hq Hall) as (s1 & Hr1 & Hld1 & Hset & Ha1 & Hpe). fold log in Hld1, Ha1.
  destruct (sweep_finish L _ log n Q sched Hsw _ s1 Hr1 Hld1 Ha1 Hnd HQ) as (s2 & Ho & Hcu & Hsat).
  assert (Hlen : zlen log = zlen (log_of s) + 1) by (unfold log; by rewrite zlen_app).
  pose proof (zlen_nonneg (log_of s)). pose proof (ow_reached _ _ _ _ _ _ _ _ Ho) as Hr2.
  pose proof (ow_leading _ _ _ _ _ _ _ _ Ho) as Hld2. pose proof (ow_settled _ _ _ _ _ _ _ _ Ho Hset) as Hset2.
  assert (Hcm : Raft.commit_index (slot_node s2) = zlen log).
  { eapply saturated_commits; [done..| |lia|].
    - by rewrite (reached_majority _ _ L s s2 Hr Hr2 Hs (ld_slot _ _ _ _ _ Hld2)).
    - rewrite Hlen. unfold log. by rewrite Storage.term_at_snoc. }
  exists s2. split_and!; [done|done|done|].
  destruct Hset2 as [Hset2|Hset2]; cbn in Hset2; [rewrite (ld_log _ _ _ _ _ Hld2) in Hset2|]; lia.
Qed.
End progress.
