(* ===== verification/Election.v ===== *)
(** * The election of a leader by a live majority

    The two rounds of an election in closed form: the pre-votes a node asks
    for when its election deadline has passed, and the votes of the candidacy
    they lead to.  Both rounds are one [poll]: the node collects the answers of
    its voters one by one until they make a majority with itself. *)

From stdpp Require Import base gmap strings list fin_sets fin_maps.
From Stdlib Require Import ZArith Lia.
From S2P Require Import Prelude PyFloat RaftTypes Storage StateMachine Transport RaftNode.
From S2P Require Import RaftSpec RaftLogs RaftRefine RaftHistory Cluster RaftProps CommitProps NodeProps RaftFrame Progress Exchange.
Import Cluster Progress.

Local Open Scope Z_scope.

Module Election.

(** ** The steps of a candidate *)

Section node.
Context {C S T : Type} {Hsm : StateMachine C S} {Htr : Transport C T}.
Variable rnd : nat → float → float → float.
Abbreviation World := (Raft.World C S T).
Implicit Types w : World.
Abbreviation term w := (Storage.current_term (Raft.storage w)).
Abbreviation entries w := (Storage.entries (Raft.storage w)).

(** The two messages a node asks its peers with. *)
Definition prevote_ask (t : Z) (id : string) (log : list (LogEntry C)) : Message C :=
  MPreVoteArgs (mkPreVoteArgs t id (zlen log) (Storage.last_term_of log)).
Definition vote_ask (t : Z) (id : string) (log : list (LogEntry C)) : Message C :=
  MRequestVoteArgs (mkRequestVoteArgs t id (zlen log) (Storage.last_term_of log)).

(** One message to each peer. *)
Definition send_all (id : string) (m : Message C) (l : list string) (t : T) : T := foldl (λ t p, t_send id p m t) t l.

Lemma send_all_eq m l : ∀ w,
  for_each (λ p, Raft.send p m) l w = (Ok tt, with_transport (send_all (Raft.node_id (Raft.node w)) m l (Raft.transport w)) w).
Proof.
  induction l as [|p l IH]; intros w; [by destruct w|]. cbn [for_each]. unfold bind, Raft.send at 1, modify.
  by rewrite IH.
Qed.

(** A node keeps its identity. *)
Definition same_id (n n' : Raft.RaftNode) : Prop :=
  Raft.node_id n' = Raft.node_id n ∧ Raft.peer_ids n' = Raft.peer_ids n.

Lemma opens_prevote now w :
  Raft.state (Raft.node w) ≠ LEADER → F.ge now (Raft.election_deadline (Raft.node w)) = true →
  1 < Raft.majority_of (Raft.peer_ids (Raft.node w)) →
  ∃ n', Raft.tick rnd now w = (Ok tt, Raft.mkWorld n' (Raft.storage w)
      (send_all (Raft.node_id (Raft.node w)) (prevote_ask (term w + 1) (Raft.node_id (Raft.node w)) (entries w))
         (Raft.peer_ids (Raft.node w)) (Raft.transport w)) (Raft.machine w)) ∧
    same_id (Raft.node w) n' ∧ Raft.state n' = FOLLOWER ∧ Raft.prevote_target_term n' = term w + 1 ∧
    Raft.prevotes_received n' = {[Raft.node_id (Raft.node w)]}.
Proof.
  intros Hst Hd Hmaj. unfold Raft.tick, Raft.gets, bind, get. rewrite bool_decide_false, Hd by done. cbn [when].
  unfold Raft.start_prevote, Raft.reset_election_deadline, Raft.random, Raft.on_node, Raft.reads, Raft.gets, Storage.get_current_term.
  unfold bind, get, modify, ret. rewrite send_all_eq. cbn.
  unfold Raft.maybe_win_prevote, Raft.gets, bind, get, when. cbn. rewrite size_singleton.
  rewrite (proj2 (Z.leb_gt _ _)) by lia. eexists. split; [reflexivity|]. by split_and!.
Qed.

(** A granted pre-vote is counted, and the last one needed makes a candidate. *)
Lemma prevote_counted reply now w :
  Raft.state (Raft.node w) = FOLLOWER → Raft.prevote_target_term (Raft.node w) = term w + 1 →
  pvr_term reply ≤ term w → pvr_vote_granted reply = true →
  Raft.handle_prevote_reply rnd reply now w =
    Raft.maybe_win_prevote rnd now (Raft.mkWorld
      (Raft.set_prevotes_received (Raft.prevotes_received (Raft.node w) ∪ {[pvr_voter_id reply]}) (Raft.node w))
      (Raft.storage w) (Raft.transport w) (Raft.machine w)).
Proof.
  intros Hst Htg Ht Hg. unfold Raft.handle_prevote_reply, Raft.stepped_down, Raft.gets, Raft.reads, Raft.on_node, Storage.get_current_term.
  unfold bind, get, modify, ret. rewrite (proj2 (Z.ltb_ge _ _)) by lia.
  rewrite Hst, Htg, Z.eqb_refl, bool_decide_false, Hg by (intros []; done). done.
Qed.

Lemma candidacy now w : 1 < Raft.majority_of (Raft.peer_ids (Raft.node w)) →
  ∃ n', Raft.become_candidate rnd now w = (Ok tt, Raft.mkWorld n'
      (Storage.mkStorage (term w + 1) (Some (Raft.node_id (Raft.node w))) (entries w))
      (send_all (Raft.node_id (Raft.node w)) (vote_ask (term w + 1) (Raft.node_id (Raft.node w)) (entries w))
         (Raft.peer_ids (Raft.node w)) (Raft.transport w)) (Raft.machine w)) ∧
    same_id (Raft.node w) n' ∧ Raft.state n' = CANDIDATE ∧ Raft.votes_received n' = {[Raft.node_id (Raft.node w)]}.
Proof.
  intros Hmaj. unfold Raft.become_candidate, Raft.broadcast_request_vote, Raft.reset_election_deadline, Raft.random, Raft.on_node,
    Raft.on_storage, Raft.reads, Raft.gets, Storage.get_current_term.
  unfold bind, get, modify, ret. rewrite send_all_eq. cbn.
  unfold Raft.maybe_become_leader_from_votes, Raft.gets, bind, get, when. cbn.
  rewrite bool_decide_false by (intros Hc; by apply Hc). unfold with_transport. cbn. rewrite size_singleton.
  rewrite (proj2 (Z.leb_gt _ _)) by lia. eexists. split; [reflexivity|]. by split_and!.
Qed.

(** A granted vote of the candidate's term is counted. *)
Lemma vote_counted reply now w :
  Raft.state (Raft.node w) = CANDIDATE → rvr_term reply = term w → rvr_vote_granted reply = true →
  Raft.handle_request_vote_reply rnd reply now w =
    Raft.maybe_become_leader_from_votes now (Raft.mkWorld
      (Raft.set_votes_received (Raft.votes_received (Raft.node w) ∪ {[rvr_voter_id reply]}) (Raft.node w))
      (Raft.storage w) (Raft.transport w) (Raft.machine w)).
Proof.
  intros Hst Ht Hg. unfold Raft.handle_request_vote_reply, Raft.stepped_down, Raft.gets, Raft.reads, Raft.on_node, Storage.get_current_term.
  unfold bind, get, modify, ret. rewrite Ht, Z.ltb_irrefl, Hst, Z.eqb_refl, Hg, bool_decide_false by (intros []; done). done.
Qed.

(** A new leader asks every peer to append after the end of its log. *)
Lemma accession now w :
  ∃ n', Raft.become_leader now w = (Ok tt, Raft.mkWorld n' (Raft.storage w)
      (foldl (λ t p, t_send (Raft.node_id (Raft.node w)) p (request (term w) (Raft.node_id (Raft.node w)) (entries w)
           (next_of n' (entries w) p) (Raft.commit_index n')) t)
         (Raft.transport w) (Raft.peer_ids (Raft.node w))) (Raft.machine w)) ∧
    same_id (Raft.node w) n' ∧ Raft.state n' = LEADER ∧ ∀ p, next_of n' (entries w) p = zlen (entries w) + 1.
Proof.
  unfold Raft.become_leader, Raft.on_node, Raft.gets, Raft.reads, bind, get, modify, Storage.last_index. rewrite broadcast_eq.
  cbv zeta. match goal with |- ∃ n', (_, Raft.mkWorld ?n _ _ _) = _ ∧ _ => exists n end. split; [reflexivity|]. split; [done|]. split; [done|]. intros p. unfold next_of. cbn.
  destruct (list_to_map _ !! p) as [k|] eqn:E; [|done]. apply elem_of_list_to_map_2, list_elem_of_fmap in E as (q & [= _ ->] & _).
  done.
Qed.

(** What the asking node does with one more answer: it goes on collecting, or
    takes the next step and tells its peers. *)
Lemma prevote_received q id v t now w :
  Raft.state (Raft.node w) = FOLLOWER → Raft.prevote_target_term (Raft.node w) = term w + 1 → t ≤ term w →
  v ∉ Raft.prevotes_received (Raft.node w) → 1 < Raft.majority_of (Raft.peer_ids (Raft.node w)) →
  let V := Raft.prevotes_received (Raft.node w) in
  let reply := MPreVoteReply (mkPreVoteReply t true v) in
  ∃ n', same_id (Raft.node w) n' ∧
    if Raft.majority_of (Raft.peer_ids (Raft.node w)) <=? Z.of_nat (size V) + 1 then
      Raft.state n' = CANDIDATE ∧ Raft.votes_received n' = {[Raft.node_id (Raft.node w)]} ∧
      Raft.receive rnd (mkEnvelope q id reply) now w = (Ok tt, Raft.mkWorld n'
        (Storage.mkStorage (term w + 1) (Some (Raft.node_id (Raft.node w))) (entries w))
        (send_all (Raft.node_id (Raft.node w)) (vote_ask (term w + 1) (Raft.node_id (Raft.node w)) (entries w))
           (Raft.peer_ids (Raft.node w)) (Raft.transport w)) (Raft.machine w))
    else
      Raft.state n' = FOLLOWER ∧ Raft.prevote_target_term n' = term w + 1 ∧ Raft.prevotes_received n' = V ∪ {[v]} ∧
      Raft.receive rnd (mkEnvelope q id reply) now w = (Ok tt, Raft.mkWorld n' (Raft.storage w) (Raft.transport w) (Raft.machine w)).
Proof.
  intros Hst Htg Ht Hv Hmaj V reply. unfold reply, Raft.receive. cbn [env_message env_sender].
  rewrite prevote_counted by done. fold V in Hv |- *. cbn [pvr_voter_id].
  unfold Raft.maybe_win_prevote, Raft.gets, bind, get. cbn [Raft.node Raft.peer_ids Raft.set_prevotes_received Raft.prevotes_received].
  rewrite size_union, size_singleton by set_solver.
  replace (Z.of_nat (size V + 1)) with (Z.of_nat (size V) + 1) by lia.
  destruct (_ <=? _); cbn [when].
  - match goal with |- context [Raft.become_candidate rnd now ?x] => destruct (candidacy now x Hmaj) as (n' & -> & I1 & I2 & I3) end.
    exists n'. split; [exact I1|]. split; [exact I2|]. split; [exact I3|reflexivity].
  - eexists. split; [|split; [|split; [|split; [|reflexivity]]]]; done.
Qed.

Lemma vote_received q id v now w :
  Raft.state (Raft.node w) = CANDIDATE → v ∉ Raft.votes_received (Raft.node w) →
  let V := Raft.votes_received (Raft.node w) in
  let reply := MRequestVoteReply (mkRequestVoteReply (term w) true v) in
  ∃ n', same_id (Raft.node w) n' ∧
    if Raft.majority_of (Raft.peer_ids (Raft.node w)) <=? Z.of_nat (size V) + 1 then
      Raft.state n' = LEADER ∧ (∀ p, next_of n' (entries w) p = zlen (entries w) + 1) ∧
      Raft.receive rnd (mkEnvelope q id reply) now w = (Ok tt, Raft.mkWorld n' (Raft.storage w)
        (foldl (λ t p, t_send (Raft.node_id (Raft.node w)) p (request (term w) (Raft.node_id (Raft.node w)) (entries w)
           (next_of n' (entries w) p) (Raft.commit_index n')) t)
         (Raft.transport w) (Raft.peer_ids (Raft.node w))) (Raft.machine w))
    else
      Raft.state n' = CANDIDATE ∧ Raft.votes_received n' = V ∪ {[v]} ∧
      Raft.receive rnd (mkEnvelope q id reply) now w = (Ok tt, Raft.mkWorld n' (Raft.storage w) (Raft.transport w) (Raft.machine w)).
Proof.
  intros Hst Hv V reply. unfold reply, Raft.receive. cbn [env_message env_sender].
  rewrite vote_counted by done. fold V in Hv |- *. cbn [rvr_voter_id].
  unfold Raft.maybe_become_leader_from_votes, Raft.gets, bind, get.
  cbn [Raft.node Raft.peer_ids Raft.state Raft.set_votes_received Raft.votes_received].
  rewrite Hst, bool_decide_false by (by intros Hn; apply Hn).
  cbn [Raft.node Raft.peer_ids Raft.set_votes_received Raft.votes_received]. rewrite size_union, size_singleton by set_solver.
  replace (Z.of_nat (size V + 1)) with (Z.of_nat (size V) + 1) by lia.
  destruct (_ <=? _); cbn [when].
  - match goal with |- context [Raft.become_leader now ?x] => destruct (accession now x) as (n' & -> & I1 & I2 & I3) end.
    exists n'. split; [exact I1|]. split; [exact I2|]. split; [exact I3|reflexivity].
  - eexists. split; [|split; [|split; [|reflexivity]]]; done.
Qed.
End node.

(** ** Polls *)

Section polls.
Context {C S : Type} {Hsm : StateMachine C S}.
Abbreviation T := (Net.InMemoryTransport C).
Variables tmin tmax hb : float.
Variable ids : list string.
Hypothesis Hids : NoDup ids.
Variable sm0 : S.
Variables (allowed : C → Prop) (fine : S → Prop).
Context {Htotal : TotalSM allowed fine}.
Hypothesis Hfine : fine sm0.

Abbreviation Cl := (Cluster C S T).
Abbreviation run := (Cluster.run tmin tmax hb ids).
Abbreviation exec := (Cluster.exec tmin tmax hb ids).
Abbreviation reached := (reached tmin tmax hb ids sm0 allowed).
Abbreviation Schedule := (list (Event C T * (nat → float → float → float))).
Abbreviation log_of s := (Storage.entries (slot_storage s)).
Abbreviation term_of s := (Storage.current_term (slot_storage s)).
Implicit Types (cl : Cl) (s f : Slot (C := C) (S := S)).

(** The node that asks. *)
Variable c : string.

Section poll.
Variable majority : Z.
(** The states of the node that asks, before and after it has won. *)
Variable collecting : Cl → Slot (C := C) (S := S) → gset string → Prop.
Variable won : Cl → Slot (C := C) (S := S) → Prop.
(** The states of a voter, before and after it has answered. *)
Variables willing answered : string → Slot (C := C) (S := S) → Prop.
(** What a voter is asked, and what it is sent by the winner. *)
Variable ask : string → Envelope C.
Variable next : Slot (C := C) (S := S) → string → Envelope C → Prop.
(** One round trip with a voter. *)
Variable trip : string → Schedule → Prop.

(** Only the asking node and nodes of [Q] took part. *)
Record polled (Q : list string) cl cl' : Prop := {
  po_reached : reached cl';
  po_partitioned : Net.partitioned (network cl') = Net.partitioned (network cl);
  po_slots p : p ∉ Q → p ≠ c → slots cl' !! p = slots cl !! p
}.

Lemma polled_trans Q1 Q2 cl1 cl2 cl3 : polled Q1 cl1 cl2 → polled Q2 cl2 cl3 → polled (Q1 ++ Q2) cl1 cl3.
Proof.
  intros [] []. split; [done|congruence|]. intros p [H1 H2]%not_elem_of_app Hc. by rewrite po_slots1, po_slots0.
Qed.

Record voter cl q : Prop := {
  vo_ids : q ∈ ids;
  vo_ne : q ≠ c;
  vo_joined : q ∉ Net.partitioned (network cl);
  vo_willing f : slots cl !! q = Some f → willing q f
}.

Definition trip_counts : Prop := ∀ cl s V q evs,
  reached cl → collecting cl s V → voter cl q → q ∉ V → Net.inbox q (network cl) = [ask q] → trip q evs →
  let cl' := run evs cl in
  ∃ s', polled [q] cl cl' ∧ (∀ f, slots cl' !! q = Some f → answered q f) ∧
    if majority <=? Z.of_nat (size V) + 1 then
      won cl' s' ∧ ∀ p, p ∈ ids → p ≠ c → p ∉ Net.partitioned (network cl) →
        ∃ e, next s' p e ∧ Net.inbox p (network cl') = (if decide (p = q) then [] else Net.inbox p (network cl)) ++ [e]
    else
      collecting cl' s' (V ∪ {[q]}) ∧
      ∀ p, p ≠ c → Net.inbox p (network cl') = if decide (p = q) then [] else Net.inbox p (network cl).
Hypothesis Hcounts : trip_counts.

Inductive polls : list string → Schedule → Prop :=
| polls_nil : polls [] []
| polls_cons q Q evs evs' : trip q evs → polls Q evs' → polls (q :: Q) (evs ++ evs').

(** When the answers are just enough, the last one wins the poll. *)
Lemma poll_finish Q evs : polls Q evs → ∀ cl s V,
  reached cl → collecting cl s V → NoDup Q → Q ≠ [] → majority = Z.of_nat (size V) + zlen Q →
  (∀ q, q ∈ Q → voter cl q ∧ (q ∉ V) ∧ Net.inbox q (network cl) = [ask q]) →
  ∃ s', polled Q cl (run evs cl) ∧ won (run evs cl) s' ∧
    (∀ q f, q ∈ Q → slots (run evs cl) !! q = Some f → answered q f) ∧
    ∀ p, p ∈ ids → p ≠ c → p ∉ Net.partitioned (network cl) → p ∈ Q ∨ Net.inbox p (network cl) = [] →
      ∃ e, next s' p e ∧ Net.inbox p (network (run evs cl)) = [e].
Proof.
  induction 1 as [|q Q evs evs' Ht Hp IH]; intros cl s V Hr Hc Hnd Hne Hmaj HQ; [done|].
  apply NoDup_cons in Hnd as [Hq Hnd]. destruct (HQ q ltac:(left)) as (Hvo & HqV & Hin).
  destruct (Hcounts cl s V q evs Hr Hc Hvo HqV Hin Ht) as (s1 & Hpo & Han & Hout).
  rewrite (run_app tmin tmax hb ids). rewrite zlen_cons in Hmaj. pose proof (zlen_nonneg Q).
  destruct (decide (Q = [])) as [->|HQne].
  - inversion Hp; subst. change (zlen (@nil string)) with 0 in *. rewrite (proj2 (Z.leb_le _ _)) in Hout by lia.
    destruct Hout as [Hwon Hbox]. exists s1. simpl. split_and!; [done|done|by intros q' f ->%list_elem_of_singleton; apply Han|].
    intros p Hi Hpc Hj Hor. destruct (Hbox p Hi Hpc Hj) as (e & He & ->). exists e. split; [done|].
    case_decide; [done|]. destruct Hor as [->%list_elem_of_singleton| ->]; done.
  - assert (1 ≤ zlen Q) by (destruct Q; [done|rewrite zlen_cons; pose proof (zlen_nonneg Q); lia]).
    rewrite (proj2 (Z.leb_gt _ _)) in Hout by lia. destruct Hout as [Hc1 Hbox]. destruct Hpo as [Hr1 Hpart Hsl].
    assert (Hdisj : ∀ p, p ∈ Q → p ≠ q) by (by intros p ? ->).
    destruct (IH (run evs cl) s1 (V ∪ {[q]})) as (s2 & Hpo2 & Hwon & Han2 & Hnext); try done.
    { rewrite size_union, size_singleton by set_solver. lia. }
    { intros p Hp2. destruct (HQ p ltac:(by right)) as ([V1 V2 V3 V4] & HpV & Hpin). specialize (Hdisj p Hp2). split_and!.
      - split; [done|done|by rewrite Hpart|]. intros f. rewrite Hsl by (done || by intros ->%list_elem_of_singleton). apply V4.
      - set_solver.
      - by rewrite Hbox, decide_False. }
    exists s2. split_and!; [|done| |].
    + by apply (polled_trans [q] Q _ (run evs cl)); [split|].
    + intros p f [->|Hp2]%elem_of_cons; [|by apply Han2]. rewrite (po_slots _ _ _ Hpo2); [by apply Han|done|apply (vo_ne _ _ Hvo)].
    + intros p Hi Hpc Hj Hor. apply Hnext; [done|done|by rewrite Hpart|].
      rewrite Hbox by done. case_decide; [by right|]. destruct Hor as [[?|?]%elem_of_cons|?]; [done|by left|by right].
Qed.
End poll.

(** ** The two rounds of an election *)

Section election.
Variable tm : Z.
Variable log : list (LogEntry C).
Variable majority : Z.
Hypothesis Hmajority : 1 < majority.
(** When a voter does not believe in a leader any more. *)
Variable patience : string → float → Prop.

(** What the asking node is between two answers. *)
Record asking (t : Z) cl s : Prop := {
  as_slot : slots cl !! c = Some s;
  as_term : term_of s = t;
  as_log : log_of s = log;
  as_majority : Raft.majority_of (Raft.peer_ids (slot_node s)) = majority;
  as_inbox : Net.inbox c (network cl) = [];
  as_joined : c ∉ Net.partitioned (network cl)
}.
Definition prevoting cl s (V : gset string) : Prop :=
  asking tm cl s ∧ Raft.state (slot_node s) = FOLLOWER ∧ Raft.prevote_target_term (slot_node s) = tm + 1 ∧
  Raft.prevotes_received (slot_node s) = V.
Definition voting cl s (V : gset string) : Prop :=
  asking (tm + 1) cl s ∧ Raft.state (slot_node s) = CANDIDATE ∧ Raft.votes_received (slot_node s) = V.

(** A voter whose log is not ahead of the candidate's. *)
Definition behind (q : string) f : Prop :=
  term_of f ≤ tm ∧ Spec.up_to_date (log_of f) (zlen log) (Storage.last_term_of log) = true.
Definition ready (q : string) f : Prop :=
  behind q f ∧ ∀ t w, patience q t → leader_active t (C := C) (S := S) (T := T) (world f w) = false.
Definition voted (q : string) f : Prop := term_of f ≤ tm + 1.

Definition prevote_of (q : string) : Envelope C := mkEnvelope c q (prevote_ask (tm + 1) c log).
Definition vote_of (q : string) : Envelope C := mkEnvelope c q (vote_ask (tm + 1) c log).

(** A round trip with a voter: its answer is delivered after it gave it. *)
Definition trip (ok : string → float → Prop) (q : string) (evs : Schedule) : Prop :=
  ∃ t1 r1 t2 r2, ok q t1 ∧ evs = [(Deliver q tt t1, r1); (Deliver c tt t2, r2)].

(** After the voter's half of a trip: [q] has become [f'] and its answer [m]
    waits for the asking node. *)
Record answer_waits cl cl1 q f' (m : Message C) : Prop := {
  aw_reached : reached cl1;
  aw_slots : slots cl1 = <[q := f']> (slots cl);
  aw_inbox : Net.inbox c (network cl1) = [mkEnvelope q c m];
  aw_others p : p ≠ c → Net.inbox p (network cl1) = if decide (p = q) then [] else Net.inbox p (network cl);
  aw_partitioned : Net.partitioned (network cl1) = Net.partitioned (network cl)
}.

Lemma deliver_ask t cl s q f e t1 r1 m (P : Slot (C := C) (S := S) → Prop) :
  reached cl → asking t cl s → slots cl !! q = Some f → q ≠ c → q ∉ Net.partitioned (network cl) →
  Net.inbox q (network cl) = [mkEnvelope c q e] →
  (∀ w, ∃ f', Raft.receive r1 (mkEnvelope c q e) t1 (world f w) = Raft.send c m (world f' w) ∧
     Raft.node_id (slot_node f') = q ∧ P f') →
  ∃ f', P f' ∧ answer_waits cl (exec (Deliver q tt t1) r1 cl).2 q f' m.
Proof.
  intros Hr [A1 A2 A3 A4 Hinc Hjc] Hf Hne Hjq Hin Hrecv. destruct (popleft_single q _ _ Hin) as (t' & Hpop & Hpart & Hbox).
  destruct (Hrecv t') as (f' & E & Hid' & HP). exists f'. split; [done|].
  pose proof (reached_exec tmin tmax hb ids sm0 allowed (Deliver q tt t1) r1 cl I Hr) as Hr1. revert Hr1. simpl.
  rewrite Hpop. unfold on_slot. cbn [slots network]. rewrite Hf, E. unfold Raft.send, modify. cbn in *. rewrite Hid'.
  destruct (send_connected q c m t') as [Hp2 Hb2]; [by split; rewrite Hpart|]. intros Hr1. split; cbn.
  - done.
  - by destruct f'.
  - by rewrite Hb2, decide_True, Hbox, decide_False, Hinc.
  - intros p Hp. by rewrite Hb2, decide_False, Hbox.
  - by rewrite Hp2, Hpart.
Qed.

Lemma reached_id cl id s : reached cl → slots cl !! id = Some s → Raft.node_id (slot_node s) = id.
Proof. intros Hr Hs. by eapply nf_id, (reached_node tmin tmax hb ids Hids sm0 allowed fine Hfine). Qed.

(** The other half: the answer is counted, and the asking node sends
    [msgs p] to each [p] of [l]. *)
Lemma deliver_count cl cl1 t s q f' m t2 r2 l (P : Slot (C := C) (S := S) → (string → Message C) → Prop) :
  answer_waits cl cl1 q f' m → asking t cl s → q ≠ c → NoDup l → c ∉ l →
  (∀ w, ∃ s' msgs, Raft.receive r2 (mkEnvelope q c m) t2 (world s w) =
     (Ok tt, world s' (foldl (λ t p, t_send c p (msgs p) t) w l)) ∧ P s' msgs) →
  let cl2 := (exec (Deliver c tt t2) r2 cl1).2 in
  ∃ s' msgs, P s' msgs ∧ polled [q] cl cl2 ∧ slots cl2 = <[c := s']> (<[q := f']> (slots cl)) ∧ Net.inbox c (network cl2) = [] ∧
  (∀ p, p ≠ c → p ∉ l → Net.inbox p (network cl2) = if decide (p = q) then [] else Net.inbox p (network cl)) ∧
  (∀ p, p ≠ c → p ∈ l → p ∉ Net.partitioned (network cl) → Net.inbox p (network cl2) =
     (if decide (p = q) then [] else Net.inbox p (network cl)) ++ [mkEnvelope c p (msgs p)]).
Proof.
  intros [Hr1 Hsl Hbc Hbo Hpart] [Hs _ _ _ _ Hjc] Hne Hnd Hcl Hrecv.
  pose proof (reached_exec tmin tmax hb ids sm0 allowed (Deliver c tt t2) r2 cl1 I Hr1) as Hr2. revert Hr2. cbv zeta.
  destruct (popleft_single c _ _ Hbc) as (t' & Hpop & Hpt & Hbx). cbn [Cluster.exec n_take Net.net_network]. rewrite Hpop.
  unfold on_slot. cbn [slots network]. rewrite Hsl, lookup_insert_ne, Hs by done.
  destruct (Hrecv t') as (s' & msgs & -> & HP). cbn. intros Hr2. exists s', msgs. split; [done|].
  destruct (inbox_sends c msgs l t' Hnd) as (B1 & B2 & B3). cbn in B1, B2, B3.
  split; [split; [done|cbn; by rewrite B1, Hpt|]|split_and!; [by destruct s'|by rewrite B2, Hbx, decide_True|..]].
  - intros p Hp1%not_elem_of_cons Hp2. cbn. rewrite !lookup_insert_ne by naive_solver. done.
  - intros p Hp1 Hp2. by rewrite B2, Hbx, decide_False, Hbo.
  - intros p Hp1 Hp2 Hj. rewrite B3; [|done|by split; rewrite Hpt, Hpart]. by rewrite Hbx, decide_False, Hbo.
Qed.

Lemma asking_again t t' cl cl2 s q f' s' : asking t cl s → polled [q] cl cl2 →
  slots cl2 = <[c := s']> (<[q := f']> (slots cl)) → Net.inbox c (network cl2) = [] →
  same_id (slot_node s) (slot_node s') → log_of s' = log → term_of s' = t' → asking t' cl2 s'.
Proof.
  intros [A1 A2 A3 A4 A5 A6] [P1 P2 P3] Hsl Hin [I1 I2] He Ht.
  split; [by rewrite Hsl, lookup_insert_eq|done|done|by rewrite I2|done|by rewrite P2].
Qed.

(** The peers of the asking node. *)
Lemma asking_peers t cl s : reached cl → asking t cl s →
  NoDup (Raft.peer_ids (slot_node s)) ∧ (c ∉ Raft.peer_ids (slot_node s)) ∧ ∀ p, p ∈ ids → p ≠ c → p ∈ Raft.peer_ids (slot_node s).
Proof.
  intros Hr Ha. destruct (reached_node tmin tmax hb ids Hids sm0 allowed fine Hfine cl c s Hr (as_slot _ _ _ Ha)) as [_ _ N3 N4 _ _ _ _].
  split_and!; [done|rewrite N3; naive_solver|]. intros p ? ?. by apply N3.
Qed.

(** ** The pre-vote round *)

Lemma prevote_answer cl s q t1 r1 : reached cl → asking tm cl s → voter ready cl q →
  Net.inbox q (network cl) = [prevote_of q] → patience q t1 →
  ∃ f, behind q f ∧
    answer_waits cl (exec (Deliver q tt t1) r1 cl).2 q f (MPreVoteReply (mkPreVoteReply (term_of f) true q)).
Proof.
  intros Hr Has [Vi Vn Vj Vw] Hin Hpat.
  destruct (reached_some tmin tmax hb ids Hids sm0 allowed cl q Hr Vi) as [f Hf]. destruct (Vw f Hf) as [[Hft Hup] Hact].
  destruct (deliver_ask tm cl s q f (prevote_ask (tm + 1) c log) t1 r1
    (MPreVoteReply (mkPreVoteReply (term_of f) true q)) (λ f', f' = f)) as (f' & -> & Haw); [done..| |by exists f].
  intros w. exists f. split; [|split; [by eapply reached_id|done]].
  unfold Raft.receive. cbn [env_message env_sender prevote_ask]. unfold bind. rewrite prevote_decision. cbn.
  rewrite (Hact t1 w Hpat), Hup, (proj2 (Z.ltb_lt _ _)) by lia. cbn. by rewrite (reached_id cl q f Hr Hf).
Qed.

Lemma prevote_trip :
  trip_counts majority prevoting (λ cl s, voting cl s {[c]}) ready behind prevote_of (λ _ p e, e = vote_of p) (trip patience).
Proof.
  intros cl s V q evs Hr (Has & Hst & Htg & HV) Hvo HqV Hin (t1 & r1 & t2 & r2 & Hpat & ->).
  destruct (prevote_answer cl s q t1 r1 Hr Has Hvo Hin Hpat) as (f & Hbf & Haw). pose proof (vo_ne _ _ _ Hvo) as Vn.
  pose proof Has as [A1 A2 A3 A4 A5 A6]. destruct (asking_peers _ _ _ Hr Has) as (N1 & N2 & N3).
  cbn [Cluster.run foldl fst snd] in *. match type of Haw with answer_waits _ ?x _ _ _ => set (cl1 := x) in * end.
  assert (Hcnt : ∀ t, ∃ n', _) by (intros t; destruct (prevote_received r2 q c q (term_of f) t2 (world s t)) as (n' & Hn);
    [cbn; destruct Hbf; congruence || lia..|exists n'; exact Hn]).
  cbn -[Raft.receive send_all] in Hcnt. rewrite (reached_id cl c s Hr A1), A2, A3, A4, HV in Hcnt.
  assert (Han : ∀ s' g, <[c:=s']> (<[q:=f]> (slots cl)) !! q = Some g → behind q g).
  { intros s' g. rewrite lookup_insert_ne, lookup_insert_eq by done. by intros [= <-]. }
  destruct (majority <=? Z.of_nat (size V) + 1) eqn:Em.
  - destruct (deliver_count cl cl1 tm s q f _ t2 r2 (Raft.peer_ids (slot_node s))
      (λ s' msgs, same_id (slot_node s) (slot_node s') ∧ Raft.state (slot_node s') = CANDIDATE ∧
         Raft.votes_received (slot_node s') = {[c]} ∧ term_of s' = tm + 1 ∧ log_of s' = log ∧ msgs = λ _, vote_ask (tm + 1) c log)
      Haw Has Vn N1 N2) as (s' & msgs & (I1 & I2 & I3 & I4 & I5 & ->) & Hpo & Hsl2 & Hin2 & _ & Hall).
    { intros t. destruct (Hcnt t) as (n' & I & I2 & I3 & E). rewrite E.
      by eexists (mkSlot n' (Storage.mkStorage (tm + 1) (Some c) log) (slot_machine s)), _. }
    exists s'. split; [done|]. split; [rewrite Hsl2; apply Han|].
    split; [split; [by eapply asking_again|done]|]. intros p Hi Hpc Hj. eexists. split; [done|]. apply Hall; auto.
  - destruct (deliver_count cl cl1 tm s q f _ t2 r2 []
      (λ s' msgs, same_id (slot_node s) (slot_node s') ∧ Raft.state (slot_node s') = FOLLOWER ∧
         Raft.prevote_target_term (slot_node s') = tm + 1 ∧ Raft.prevotes_received (slot_node s') = V ∪ {[q]} ∧
         slot_storage s' = slot_storage s)
      Haw Has Vn (NoDup_nil_2) (not_elem_of_nil c)) as (s' & msgs & (I1 & I2 & I3 & I4 & I5) & Hpo & Hsl2 & Hin2 & Hall & _).
    { intros t. destruct (Hcnt t) as (n' & I & I2 & I3 & I4 & E). rewrite E.
      by eexists (mkSlot n' (slot_storage s) (slot_machine s)), (λ _, vote_ask 0 c log). }
    exists s'. split; [done|]. split; [rewrite Hsl2; apply Han|].
    split; [split; [|done]|]. { eapply (asking_again tm tm); [exact Has|exact Hpo|exact Hsl2|exact Hin2|exact I1|..]; by rewrite I5. }
    intros p Hp. apply Hall; [done|]. apply not_elem_of_nil.
Qed.

(** ** The vote round *)

Lemma vote_answer cl s q t1 r1 : reached cl → asking (tm + 1) cl s → voter behind cl q →
  Net.inbox q (network cl) = [vote_of q] →
  ∃ f', voted q f' ∧
    answer_waits cl (exec (Deliver q tt t1) r1 cl).2 q f' (MRequestVoteReply (mkRequestVoteReply (tm + 1) true q)).
Proof.
  intros Hr Has [Vi Vn Vj Vw] Hin.
  destruct (reached_some tmin tmax hb ids Hids sm0 allowed cl q Hr Vi) as [f Hf]. destruct (Vw f Hf) as [Hft Hup].
  apply (deliver_ask (tm + 1) cl s q f (vote_ask (tm + 1) c log) t1 r1); [done..|]. intros w.
  destruct (request_vote_decision r1 (mkRequestVoteArgs (tm + 1) c (zlen log) (Storage.last_term_of log)) t1 (world f w)) as
    (w' & E & Est & _ & Etr & Esm). cbv zeta in *. cbn in E, Est, Etr, Esm.
  rewrite (reached_id cl q f Hr Hf), Hup, Z.max_r, Z.eqb_refl, (proj2 (Z.ltb_lt _ _)) in E by lia.
  rewrite Z.max_r in Est by lia. cbn in E.
  pose proof (Frame.sends_id _ _ _ (Frame.framed_handle_request_vote r1 (λ _, True)
    (mkRequestVoteArgs (tm + 1) c (zlen log) (Storage.last_term_of log)) t1 (world f w) (λ _ _, I))) as Hid. rewrite E in Hid. cbn in Hid.
  exists (mkSlot (Raft.node w') (Raft.storage w') (Raft.machine w')). split.
  - unfold Raft.receive. cbn [env_message env_sender vote_ask]. unfold bind. rewrite E. f_equal. rewrite <- Etr. by destruct w'.
  - cbn. rewrite Hid. split; [by eapply reached_id|]. unfold voted. cbn. rewrite Est. cbn. lia.
Qed.

Lemma vote_trip :
  trip_counts majority voting (leading c (tm + 1) log) behind voted vote_of
    (λ s p e, next_of (slot_node s) log p = zlen log + 1 ∧
       ∃ i, e = mkEnvelope c p (request (tm + 1) c log (zlen log + 1) i)) (trip (λ _ _, True)).
Proof.
  intros cl s V q evs Hr (Has & Hst & HV) Hvo HqV Hin (t1 & r1 & t2 & r2 & _ & ->).
  destruct (vote_answer cl s q t1 r1 Hr Has Hvo Hin) as (f & Hbf & Haw). pose proof (vo_ne _ _ _ Hvo) as Vn.
  pose proof Has as [A1 A2 A3 A4 A5 A6]. destruct (asking_peers _ _ _ Hr Has) as (N1 & N2 & N3).
  cbn [Cluster.run foldl fst snd] in *. match type of Haw with answer_waits _ ?x _ _ _ => set (cl1 := x) in * end.
  assert (Hcnt : ∀ t, ∃ n', _) by (intros t; destruct (vote_received r2 q c q t2 (world s t)) as (n' & Hn');
    [cbn; congruence..|exists n'; exact Hn']).
  cbn -[Raft.receive next_of] in Hcnt. rewrite (reached_id cl c s Hr A1), A2, A3, A4, HV in Hcnt.
  assert (Han : ∀ s' g, <[c:=s']> (<[q:=f]> (slots cl)) !! q = Some g → voted q g).
  { intros s' g. rewrite lookup_insert_ne, lookup_insert_eq by done. by intros [= <-]. }
  destruct (majority <=? Z.of_nat (size V) + 1) eqn:Em.
  - destruct (deliver_count cl cl1 (tm + 1) s q f _ t2 r2 (Raft.peer_ids (slot_node s))
      (λ s' msgs, same_id (slot_node s) (slot_node s') ∧ Raft.state (slot_node s') = LEADER ∧ slot_storage s' = slot_storage s ∧
         (∀ p, next_of (slot_node s') log p = zlen log + 1) ∧
         ∀ p, msgs p = request (tm + 1) c log (zlen log + 1) (Raft.commit_index (slot_node s')))
      Haw Has Vn N1 N2) as (s' & msgs & (I1 & I2 & I3 & I4 & I5) & Hpo & Hsl2 & Hin2 & _ & Hall).
    { intros t. destruct (Hcnt t) as (n' & I & I2 & I3 & E). rewrite E.
      eexists (mkSlot n' (slot_storage s) (slot_machine s)), _. split; [reflexivity|]. split_and!; try done.
      intros p. cbn. by rewrite I3. }
    exists s'. split; [done|]. split; [rewrite Hsl2; apply Han|]. split.
    { split; [by rewrite Hsl2, lookup_insert_eq|done|by rewrite I3|by rewrite I3|done|by rewrite (po_partitioned _ _ _ Hpo)]. }
    intros p Hi Hpc Hj. exists (mkEnvelope c p (msgs p)). split; [split; [apply I4|]|by apply Hall; auto].
    exists (Raft.commit_index (slot_node s')). by rewrite I5.
  - destruct (deliver_count cl cl1 (tm + 1) s q f _ t2 r2 []
      (λ s' msgs, same_id (slot_node s) (slot_node s') ∧ Raft.state (slot_node s') = CANDIDATE ∧
         Raft.votes_received (slot_node s') = V ∪ {[q]} ∧ slot_storage s' = slot_storage s)
      Haw Has Vn (NoDup_nil_2) (not_elem_of_nil c)) as (s' & msgs & (I1 & I2 & I3 & I5) & Hpo & Hsl2 & Hin2 & Hall & _).
    { intros t. destruct (Hcnt t) as (n' & I & I2 & I3 & E). rewrite E.
      by eexists (mkSlot n' (slot_storage s) (slot_machine s)), (λ _, vote_ask 0 c log). }
    exists s'. split; [done|]. split; [rewrite Hsl2; apply Han|].
    split; [split; [|done]|]. { eapply (asking_again (tm + 1)); [exact Has|exact Hpo|exact Hsl2|exact Hin2|exact I1|..]; by rewrite I5. }
    intros p Hp. apply Hall; [done|]. apply not_elem_of_nil.
Qed.

(** ** The whole election *)

(** A node whose election deadline has passed asks everybody for a pre-vote. *)
Lemma tick_asks cl s now rnd :
  reached cl → asking tm cl s → Raft.state (slot_node s) ≠ LEADER →
  F.ge now (Raft.election_deadline (slot_node s)) = true →
  let cl' := (exec (Tick c now) rnd cl).2 in
  ∃ s', polled [] cl cl' ∧ prevoting cl' s' {[c]} ∧
    ∀ p, p ∈ ids → p ≠ c → p ∉ Net.partitioned (network cl) → Net.inbox p (network cl') = Net.inbox p (network cl) ++ [prevote_of p].
Proof.
  intros Hr Has Hst Hd. pose proof (reached_exec tmin tmax hb ids sm0 allowed (Tick c now) rnd cl I Hr) as Hr1. revert Hr1.
  pose proof Has as [A1 A2 A3 A4 A5 A6]. destruct (asking_peers _ _ _ Hr Has) as (N1 & N2 & N3).
  destruct (opens_prevote rnd now (world s (network cl)) Hst Hd) as (n' & E & [I1 I2] & I3 & I4 & I5); [cbn; by rewrite A4|].
  cbn -[send_all Raft.tick] in E, I1, I2, I4, I5. rewrite (reached_id cl c s Hr A1), A2, A3 in *.
  cbn [Cluster.exec]. unfold on_slot. rewrite A1, E. cbn. intros Hr1. exists (mkSlot n' (slot_storage s) (slot_machine s)).
  destruct (inbox_sends c (λ _, prevote_ask (tm + 1) c log) (Raft.peer_ids (slot_node s)) (network cl) N1) as (B1 & B2 & B3).
  split; [split; [done|by cbn; rewrite <- B1|]|split].
  - intros p _ Hp. cbn. by rewrite lookup_insert_ne.
  - split; [|done]. split; cbn; [by rewrite lookup_insert_eq|done|done|by rewrite I2| |].
    + rewrite <- A5. by apply B2.
    + rewrite <- B1 in A6. exact A6.
  - intros p Hp Hne Hj. apply B3; [by apply N3|by split].
Qed.

(** The election: the node leads the next term, and has asked the voters for
    what follows its log. *)
Lemma election_asks cl s now rnd n Q evs1 evs2 :
  reached cl → asking tm cl s → Raft.state (slot_node s) ≠ LEADER →
  F.ge now (Raft.election_deadline (slot_node s)) = true → majority = zlen Q + 1 → Q ≠ [] → NoDup Q → quiet cl Q →
  (∀ q, q ∈ Q → q ∈ ids ∧ q ≠ c ∧ ∀ f, slots cl !! q = Some f → ready q f) →
  polls (trip patience) Q evs1 → polls (trip (λ _ _, True)) Q evs2 → zlen log + 1 ≤ Z.of_nat n →
  let cl' := run ((Tick c now, rnd) :: evs1 ++ evs2) cl in
  ∃ s', reached cl' ∧ leading c (tm + 1) log cl' s' ∧ asked ids c (tm + 1) log cl' s' n Q ∧
    ∀ q, q ∈ Q → next_of (slot_node s') log q = zlen log + 1.
Proof.
  intros Hr Has Hst Hd Hmaj Hne Hnd Hq HQ Hp1 Hp2 Hn.
  destruct (tick_asks cl s now rnd Hr Has Hst Hd) as (s1 & [R1 P1 S1] & V1 & B1). cbv zeta.
  cbn [Cluster.run foldl fst snd]. rewrite foldl_app. set (cl1 := (exec (Tick c now) rnd cl).2) in *.
  assert (Hmaj1 : majority = Z.of_nat (size ({[c]} : gset string)) + zlen Q) by (rewrite size_singleton; lia).
  destruct (poll_finish _ _ _ _ _ _ _ _ prevote_trip Q evs1 Hp1 cl1 s1 {[c]} R1 V1 Hnd Hne Hmaj1) as
    (s2 & [R2 P2 S2] & V2 & An2 & B2).
  { intros q Hin. destruct (HQ q Hin) as (H1 & H2 & H3). destruct (Hq q Hin) as [Hj Hbox]. split_and!; [|set_solver|].
    - split; [done|done|by rewrite P1|]. intros f. rewrite S1 by (done || apply not_elem_of_nil). apply H3.
    - by rewrite B1, Hbox. }
  change (foldl (λ cl ev, (exec ev.1 ev.2 cl).2) cl1 evs1) with (run evs1 cl1). set (cl2 := run evs1 cl1) in *.
  destruct (poll_finish _ _ _ _ _ _ _ _ vote_trip Q evs2 Hp2 cl2 s2 {[c]} R2 V2 Hnd Hne Hmaj1) as
    (s3 & [R3 P3 S3] & V3 & An3 & B3).
  { intros q Hin. destruct (HQ q Hin) as (H1 & H2 & _). destruct (Hq q Hin) as [Hj Hbox]. split_and!; [|set_solver|].
    - split; [done|done|by rewrite P2, P1|]. intros f. by apply An2.
    - destruct (B2 q H1 H2) as (e & -> & ->); [by rewrite P1|by left|done]. }
  change (foldl (λ cl ev, (exec ev.1 ev.2 cl).2) cl2 evs2) with (run evs2 cl2). exists s3. split; [done|]. split; [done|].
  assert (Hnext : ∀ q, q ∈ Q → next_of (slot_node s3) log q = zlen log + 1 ∧
    ∃ i, Net.inbox q (network (run evs2 cl2)) = [mkEnvelope c q (request (tm + 1) c log (zlen log + 1) i)]).
  { intros q Hin. destruct (HQ q Hin) as (H1 & H2 & _). destruct (Hq q Hin) as [Hj _].
    destruct (B3 q H1 H2) as (e & (Hk & i & ->) & Hb); [by rewrite P2, P1|by left|]. split; [done|by exists i]. }
  split; [|intros q Hin; apply (Hnext q Hin)].
  intros q Hin. destruct (HQ q Hin) as (H1 & H2 & _). destruct (Hq q Hin) as [Hj _]. destruct (Hnext q Hin) as [Hk Hi].
  split; [split; [done|done|by rewrite P3, P2, P1|intros f Hf; exact (An3 q f Hin Hf)]|].
  exists (zlen log + 1). pose proof (zlen_nonneg log). split; [by split|lia].
Qed.
End election.
End polls.
End Election.
