(* ===== verification/ProgressProps.v ===== *)
(** * Progress: a live majority elects, commits and recovers

    What the safety theorems of RaftProps.v do not say: that something
    happens.  The theorems are about explicit schedules of the event model
    over the in-process network, with any clock values and any random draws:
    which nodes take part, and how many round trips are enough. *)

From stdpp Require Import base gmap strings list fin_sets fin_maps.
From Stdlib Require Import ZArith Lia.
From S2P Require Import Prelude PyDecimal PyFloat RaftTypes Storage StateMachine Transport RaftNode.
From S2P Require Import RaftSpec RaftHistory Cluster Models Ledger Demo RaftProps CommitProps NodeProps.
From S2P Require Import Progress Exchange Election.
Import Cluster Progress Election.

Local Open Scope Z_scope.

Section progress.
Context {C S : Type} {Hsm : StateMachine C S} {Hidem : IdempotentSM C S}.
Abbreviation T := (Net.InMemoryTransport C).
Variables tmin tmax hb : float.
Variable ids : list string.
Hypothesis Hids : NoDup ids.
Variable sm0 : S.
(** The state machine never raises on the commands that are proposed. *)
Variables (allowed : C → Prop) (fine : S → Prop).
Context {Htotal : TotalSM allowed fine}.
Hypothesis Hfine : fine sm0.

Abbreviation start := (Cluster.init tmin tmax hb ids sm0 (Net.init (C := C))).
Abbreviation run := (Cluster.run tmin tmax hb ids).
Abbreviation log_of s := (Storage.entries (slot_storage s)).
Abbreviation term_of s := (Storage.current_term (slot_storage s)).
Implicit Types (s f : Slot (C := C) (S := S)).

(** A command that a node has applied is done in its machine. *)
Lemma applied_done cl id s c : reached tmin tmax hb ids sm0 allowed cl → slots cl !! id = Some s →
  c ∈ History.cmds (pfx (Raft.last_applied (slot_node s)) (log_of s)) → sm_done c (slot_machine s).
Proof.
  intros (evs & He & ->) Hs Hc.
  destruct (one_point tmin tmax hb ids Hids sm0 Net.init Net.queued_init allowed evs He) as (G & Hf & HI).
  destruct (slot_commands ids sm0 allowed _ G id s Hf HI Hs) as (l & [r Hl] & _ & Hall & Hm).
  destruct (total_run allowed fine l sm0 Hall Hfine) as [s' Hrun]. rewrite (Hm s' Hrun).
  apply sm_run_all_done in Hrun. rewrite Forall_forall in Hrun. apply Hrun. rewrite Hl. apply elem_of_app. by left.
Qed.

(** A leader whose whole log is committed and applied, with a proposal at
    its end. *)
Definition proposal_done (cl : Cluster C S T) (L : string) (t : Z) (log : list (LogEntry C)) (c : C) : Prop :=
  ∃ s, slots cl !! L = Some s ∧ Raft.state (slot_node s) = LEADER ∧ term_of s = t ∧
    log_of s = log ++ [mkEntry t (zlen log + 1) c] ∧
    Raft.commit_index (slot_node s) = zlen log + 1 ∧ Raft.last_applied (slot_node s) = zlen log + 1 ∧
    sm_done c (slot_machine s).

Lemma leading_done cl L t log c s : reached tmin tmax hb ids sm0 allowed cl →
  leading L t (log ++ [mkEntry t (zlen log + 1) c]) cl s →
  Raft.commit_index (slot_node s) = zlen (log ++ [mkEntry t (zlen log + 1) c]) →
  Raft.last_applied (slot_node s) = zlen (log ++ [mkEntry t (zlen log + 1) c]) → proposal_done cl L t log c.
Proof.
  intros Hr [E1 E2 E3 E4 _ _] Hci Ha. assert (Hd : sm_done c (slot_machine s)).
  { eapply applied_done; [done..|]. rewrite Ha, E4, pfx_all by lia. unfold History.cmds. rewrite fmap_app.
    apply elem_of_app. right. by left. }
  rewrite zlen_app in Hci, Ha. change (zlen [_]) with 1 in Hci, Ha. exists s. by split_and!.
Qed.

(** C8 (a leader with a live majority commits): let the state machine never
    raise on what is proposed.  When a leader, in any state of any run, takes a
    proposal while it and some followers that make a majority with it are
    connected, of no later term and without a message waiting, then after at
    most [next_index] round trips with each of these followers the leader
    still leads its term, has committed and applied its whole log, the new
    entry included, and the command is done in its machine.  The other nodes
    may be down, cut off or slow, and the followers' logs may diverge from the
    leader's. *)
Theorem live_majority_commits evs L s c now rnd n Q sched :
  Forall (λ ev, event_allowed allowed ev.1) evs → allowed c →
  slots (run evs start) !! L = Some s → Raft.state (slot_node s) = LEADER →
  Q ≠ [] → NoDup Q → Raft.majority_of (Raft.peer_ids (slot_node s)) ≤ zlen Q + 1 →
  quiet (run evs start) (L :: Q) →
  (∀ q, q ∈ Q → q ∈ ids ∧ q ≠ L ∧
     next_of (slot_node s) (log_of s ++ [mkEntry (term_of s) (zlen (log_of s) + 1) c]) q ≤ Z.of_nat n ∧
     ∀ f, slots (run evs start) !! q = Some f → term_of f ≤ term_of s) →
  sweep L n Q sched →
  proposal_done (run (evs ++ (Propose L c now, rnd) :: sched) start) L (term_of s) (log_of s) c.
Proof.
  intros He Hc Hs Hl HQ Hnd Hmaj Hq Hall Hsw. assert (Hr : reached tmin tmax hb ids sm0 allowed (run evs start)) by (by exists evs).
  destruct (proposal_commits tmin tmax hb ids Hids sm0 allowed fine Hfine _ L s c now rnd n Q sched
    Hr Hc Hs Hl HQ Hnd Hmaj Hq Hall Hsw) as (s' & Hr' & Hld & Hci & Ha).
  rewrite run_app. by eapply leading_done.
Qed.

(** C9 (a live majority recovers): when no leader is heard of, a node whose
    election deadline has passed and some others that make a bare majority
    with it, connected, without a message waiting and with logs and terms that
    are not ahead of the node's, elect it with one round trip each for the
    pre-vote and for the vote; as many round trips as its log has entries,
    and one, bring their logs to its log; and the next proposal is committed,
    applied and done.  So the cluster survives the loss of any minority. *)
Theorem live_majority_recovers evs c s Q cmd now rnd now' rnd' n evs1 evs2 evs3 evs4 :
  Forall (λ ev, event_allowed allowed ev.1) evs → allowed cmd →
  slots (run evs start) !! c = Some s → Raft.state (slot_node s) ≠ LEADER →
  F.ge now (Raft.election_deadline (slot_node s)) = true →
  Q ≠ [] → NoDup Q → Raft.majority_of (Raft.peer_ids (slot_node s)) = zlen Q + 1 →
  quiet (run evs start) (c :: Q) →
  (∀ q, q ∈ Q → q ∈ ids ∧ q ≠ c ∧
     ∀ f, slots (run evs start) !! q = Some f → behind (term_of s) (log_of s) q f) →
  let no_leader q t := ∀ f (w : T), slots (run evs start) !! q = Some f → leader_active t (world f w) = false in
  zlen (log_of s) + 1 ≤ Z.of_nat n →
  polls (trip c no_leader) Q evs1 → polls (trip c (λ _ _, True)) Q evs2 → sweep c n Q evs3 → sweep c n Q evs4 →
  proposal_done (run (evs ++ ((Tick c now, rnd) :: evs1 ++ evs2) ++ evs3 ++ (Propose c cmd now', rnd') :: evs4) start)
    c (term_of s + 1) (log_of s) cmd.
Proof.
  intros He Hc Hs Hst Hd HQ Hnd Hmaj Hq Hall patience Hn Hp1 Hp2 Hs3 Hs4.
  assert (Hr : reached tmin tmax hb ids sm0 allowed (run evs start)) by (by exists evs). set (cl := run evs start) in *.
  assert (H1 : 1 ≤ zlen Q) by (destruct Q; [done|rewrite zlen_cons; pose proof (zlen_nonneg Q); lia]).
  destruct (Hq c ltac:(left)) as [Hjc Hic].
  destruct (election_asks tmin tmax hb ids Hids sm0 allowed fine Hfine c (term_of s) (log_of s) (zlen Q + 1) ltac:(lia)
    patience cl s now rnd n Q evs1 evs2) as (s1 & Hr1 & Hld1 & Ha1 & Hn1); try done.
  { intros q Hin. apply Hq. by right. }
  { intros q Hin. destruct (Hall q Hin) as (H2 & H3 & H4). split_and!; [done|done|]. intros f Hf.
    split; [by apply H4|]. intros t w Ht. by apply Ht. }
  rewrite !run_app. fold cl. set (cl1 := run ((Tick c now, rnd) :: evs1 ++ evs2) cl) in *.
  destruct (sweep_finish tmin tmax hb ids Hids sm0 allowed fine Hfine c _ _ n Q evs3 Hs3 cl1 s1 Hr1 Hld1 Ha1 Hnd HQ) as
    (s2 & [Hr2 [E1 E2 E3 E4 E5 E6] Hfo _ _ _ Hpart _ _] & Hcu & _).
  assert (Hlen : zlen (log_of s ++ [mkEntry (term_of s + 1) (zlen (log_of s) + 1) cmd]) = zlen (log_of s) + 1) by (by rewrite zlen_app).
  destruct (proposal_commits tmin tmax hb ids Hids sm0 allowed fine Hfine _ c s2 cmd now' rnd' n Q evs4 Hr2 Hc E1 E2 HQ Hnd)
    as (s3 & Hr3 & Hld3 & Hci & Ha); [| | |done|].
  - rewrite (reached_majority tmin tmax hb ids Hids sm0 allowed fine Hfine cl _ c s s2 Hr Hr2 Hs E1). lia.
  - intros p [->|Hp]%elem_of_cons; [by split|]. destruct (Ha1 p Hp) as [Hfp _].
    split; [apply (fo_joined _ _ _ _ _ (Hfo p Hfp))|apply (Hcu p Hp)].
  - rewrite E4. intros q Hin. destruct (Hall q Hin) as (H2 & H3 & _). destruct (Ha1 q Hin) as [Hfq _].
    split_and!; [done|done| |by rewrite E3; apply (fo_term _ _ _ _ _ (Hfo q Hfq))].
    unfold next_of. rewrite (proj1 (proj2 (Hcu q Hin))). simpl. lia.
  - rewrite E3, E4 in *. by eapply leading_done.
Qed.
End progress.

(** ** Witnesses: the ledger on three nodes, one of them cut off *)

Section witnesses.
Abbreviation wids := ({["t1"; "t2"]} : gset string).
Abbreviation wallowed := (Ledger.settleable (-2) 10000 wids).
Abbreviation wfine := (Ledger.within (-2) 10000 0 wids).

Definition cut_off : Demo.Schedule := [(Env (Net.MPartition ["c"]), Demo.high)].
(** The leader [a] has heard from both followers when [c] is cut off. *)
Definition led : Demo.Schedule :=
  Demo.elect ++ [Demo.deliver "b" 156; Demo.deliver "c" 156; Demo.deliver "a" 156; Demo.deliver "a" 156] ++ cut_off.
(** The nodes have started, and [a]'s timeout is the first to pass. *)
Definition started : Demo.Schedule :=
  [(Start "a" F.zero, Demo.low); (Start "b" F.zero, Demo.high); (Start "c" F.zero, Demo.high)] ++ cut_off.
Definition trip_at (t : Z) : Demo.Schedule := [Demo.deliver "b" t; Demo.deliver "a" t].

Lemma ledger_never_raises : TotalSM wallowed wfine.
Proof. apply Ledger.ledger_total; [split; vm_compute; discriminate|vm_compute; discriminate|vm_compute; reflexivity]. Qed.

Lemma empty_ledger_fine : wfine (Ledger.init ∅).
Proof.
  exists (Ledger.spec_init (λ _, 0)). split; [|split; [simpl; set_solver|intros a; vm_compute; split; discriminate]].
  split; [|done]. intros a. split; [split; vm_compute; discriminate|reflexivity].
Qed.

Lemma credit_allowed : wallowed Demo.credit.
Proof. split; [split; [split; vm_compute; discriminate|vm_compute; discriminate]|]. unfold Demo.credit. simpl. set_solver. Qed.

Lemma no_proposal (evs : Demo.Schedule) :
  forallb (λ ev, match ev.1 with Propose _ _ _ => false | _ => true end) evs = true →
  Forall (λ ev, event_allowed wallowed ev.1) evs.
Proof. rewrite forallb_forall, Forall_forall. intros He ev Hev%list_elem_of_In. specialize (He ev Hev). by destruct ev as [[] ?]. Qed.

Lemma sweep_one t : sweep "a" 1 ["b"] (trip_at t).
Proof.
  rewrite <- (app_nil_r (trip_at t)). constructor; [|constructor].
  change (trip_at t) with (trip_at t ++ []). apply (trips_S "a" "b" 0). constructor.
Qed.

Lemma polls_one (ok : string → float → Prop) t : ok "b" (F.of_Z t) → polls (trip "a" ok) ["b"] (trip_at t).
Proof.
  intros Hok. rewrite <- (app_nil_r (trip_at t)). constructor; [|constructor].
  exists (F.of_Z t), Demo.high, (F.of_Z t), Demo.high. by split.
Qed.

Lemma live_majority_commits_witness :
  proposal_done (Demo.after (led ++ Demo.at_ 160 (Propose "a" Demo.credit) :: trip_at 161)) "a" 1 [] Demo.credit.
Proof.
  assert (Hs : slots (Demo.after led) !! "a" = Some (Demo.slot "a" (Demo.after led))) by (vm_compute; reflexivity).
  assert (Hl : Raft.state (slot_node (Demo.slot "a" (Demo.after led))) = LEADER) by (vm_compute; reflexivity).
  pose proof (live_majority_commits (Htotal := ledger_never_raises) Demo.tmin Demo.tmax Demo.hb Demo.ids Demo.ids_nodup
    (Ledger.init ∅) _ _ empty_ledger_fine led "a" (Demo.slot "a" (Demo.after led)) Demo.credit (F.of_Z 160) Demo.high 1 ["b"]
    (trip_at 161)) as H.
  assert (Ht : Storage.current_term (slot_storage (Demo.slot "a" (Demo.after led))) = 1) by (vm_compute; reflexivity).
  assert (He : Storage.entries (slot_storage (Demo.slot "a" (Demo.after led))) = []) by (vm_compute; reflexivity).
  rewrite Ht, He in H. apply H; clear H.
  - apply no_proposal. vm_compute. reflexivity.
  - exact credit_allowed.
  - exact Hs.
  - exact Hl.
  - discriminate.
  - repeat constructor. apply not_elem_of_nil.
  - vm_compute. discriminate.
  - intros p [->|[->|[]%elem_of_nil]%elem_of_cons]%elem_of_cons; (split; [apply (bool_decide_unpack _); vm_compute; exact I|vm_compute; reflexivity]).
  - intros q ->%list_elem_of_singleton. split; [apply (bool_decide_unpack _); vm_compute; exact I|]. split; [discriminate|]. split; [vm_compute; discriminate|].
    intros f Hf. assert (Hb : slots (Demo.after led) !! "b" = Some (Demo.slot "b" (Demo.after led))) by (vm_compute; reflexivity).
    unfold Demo.after, Demo.start in Hb. rewrite Hb in Hf. apply (inj Some) in Hf. rewrite <- Hf. vm_compute. discriminate.
  - apply sweep_one.
Defined.

Lemma live_majority_recovers_witness :
  proposal_done (Demo.after (started ++ (Demo.at_ 150 (Tick "a") :: trip_at 151 ++ trip_at 152) ++ trip_at 153 ++
    Demo.at_ 160 (Propose "a" Demo.credit) :: trip_at 161)) "a" 1 [] Demo.credit.
Proof.
  assert (Hs : slots (Demo.after started) !! "a" = Some (Demo.slot "a" (Demo.after started))) by (vm_compute; reflexivity).
  assert (Hb : slots (Demo.after started) !! "b" = Some (Demo.slot "b" (Demo.after started))) by (vm_compute; reflexivity).
  assert (Hst : Raft.state (slot_node (Demo.slot "a" (Demo.after started))) = FOLLOWER) by (vm_compute; reflexivity).
  assert (Ht : Storage.current_term (slot_storage (Demo.slot "a" (Demo.after started))) = 0) by (vm_compute; reflexivity).
  assert (He : Storage.entries (slot_storage (Demo.slot "a" (Demo.after started))) = []) by (vm_compute; reflexivity).
  assert (Hn : Raft.leader_id (slot_node (Demo.slot "b" (Demo.after started))) = None) by (vm_compute; reflexivity).
  pose proof (live_majority_recovers (Htotal := ledger_never_raises) Demo.tmin Demo.tmax Demo.hb Demo.ids Demo.ids_nodup
    (Ledger.init ∅) _ _ empty_ledger_fine started "a" (Demo.slot "a" (Demo.after started)) ["b"] Demo.credit
    (F.of_Z 150) Demo.high (F.of_Z 160) Demo.high 1 (trip_at 151) (trip_at 152) (trip_at 153) (trip_at 161)) as H.
  rewrite Ht, He in H. apply H; clear H.
  - apply no_proposal. vm_compute. reflexivity.
  - exact credit_allowed.
  - exact Hs.
  - rewrite Hst. discriminate.
  - vm_compute. reflexivity.
  - discriminate.
  - repeat constructor. apply not_elem_of_nil.
  - vm_compute. reflexivity.
  - intros p [->|[->|[]%elem_of_nil]%elem_of_cons]%elem_of_cons;
      (split; [apply (bool_decide_unpack _); vm_compute; exact I|vm_compute; reflexivity]).
  - intros q ->%list_elem_of_singleton. split; [apply (bool_decide_unpack _); vm_compute; exact I|]. split; [discriminate|].
    intros f Hf. unfold Demo.after, Demo.start in Hb. rewrite Hb in Hf. apply (inj Some) in Hf. rewrite <- Hf.
    split; [vm_compute; discriminate|vm_compute; reflexivity].
  - vm_compute. discriminate.
  - apply polls_one. intros f w Hf. unfold Demo.after, Demo.start in Hb, Hn. rewrite Hb in Hf. apply (inj Some) in Hf. rewrite <- Hf.
    unfold leader_active. cbn [world Raft.node]. by rewrite Hn.
  - by apply polls_one.
  - apply sweep_one.
  - apply sweep_one.
Defined.
End witnesses.
