(* ===== verification/Runtime.v ===== *)
(** * The node runtime (coordinator/raft_runtime.py)

    [RaftNodeRuntime] serialises the calls into one [RaftNode] with a lock, so
    each method is one step on the world of the node, with the reading of
    [time.monotonic()] as its argument.  One turn of the background thread is
    [turn]: a tick, then everything in the node's inbox
    ([InMemoryTransport.deliver_to], raft/transport.py). *)

From stdpp Require Import base gmap strings list.
From Stdlib Require Import ZArith Lia.
From S2P Require Import Prelude PyFloat RaftTypes Storage StateMachine Transport RaftNode RaftFrame Cluster.

Local Open Scope Z_scope.

(** [Transport.deliver_to(node_id, handler)], with a handler that acts on the
    world of the node. *)
Class Delivery (C S T : Type) :=
  deliver_to : string → (Envelope C → Py (Raft.World C S T) unit) → Py (Raft.World C S T) Z.

Module Runtime.

(** ** The calls under the lock *)

Section calls.
Context {C S T : Type} {Hsm : StateMachine C S} {Htr : Transport C T}.
Variable random_fn : nat → float → float → float.
Abbreviation M := (Py (Raft.World C S T)).

Definition start (now : float) : M unit := Raft.start random_fn now.
Definition propose (command : C) (now : float) : M (option (LogEntry C)) := Raft.propose command now.
Definition handle_request_vote (args : RequestVoteArgs) (now : float) : M RequestVoteReply :=
  Raft.handle_request_vote random_fn args now.
Definition handle_prevote (args : PreVoteArgs) (now : float) : M PreVoteReply := Raft.handle_prevote args now.
Definition handle_append_entries (args : AppendEntriesArgs C) (now : float) : M AppendEntriesReply :=
  Raft.handle_append_entries random_fn args now.
Definition receive (envelope : Envelope C) (now : float) : M unit := Raft.receive random_fn envelope now.
Definition node_id : M string := Raft.gets Raft.node_id.
Definition is_leader : M bool := Raft.gets Raft.is_leader.
Definition current_term : M Z := Raft.reads Storage.get_current_term.
Definition leader_id : M (option string) := Raft.gets Raft.leader_id.
Definition commit_index : M Z := Raft.gets Raft.commit_index.

(** One turn of [_run]. *)
Definition turn `{!Delivery C S T} (now : float) : M unit :=
  (Raft.tick random_fn now ;;;
   id <- node_id ;;
   deliver_to id (λ env, Raft.receive random_fn env now) ;;;
   ret tt)%py.
End calls.

Section runtime.
Context {C S : Type} {Hsm : StateMachine C S}.
Variable random_fn : nat → float → float → float.

Abbreviation T := (Net.InMemoryTransport C).
Abbreviation World := (Raft.World C S T).
Abbreviation M := (Py World).
Implicit Types w : World.

(** ** [InMemoryTransport.deliver_to] *)

Definition with_transport (t : T) (w : World) : World :=
  Raft.mkWorld (Raft.node w) (Raft.storage w) t (Raft.machine w).

(** [while inbox: envelope = inbox.popleft(); handler(envelope); delivered += 1] *)
Fixpoint deliver_loop (fuel : nat) (node_id : string) (handler : Envelope C → M unit) (delivered : Z) : M Z :=
  match fuel with
  | O => raise OutOfFuel
  | Datatypes.S fuel =>
      (next <- get (λ w, Net.popleft node_id (Raft.transport w)) ;;
       match next with
       | None => ret delivered
       | Some (envelope, rest) =>
           modify (with_transport rest) ;;;
           handler envelope ;;;
           deliver_loop fuel node_id handler (delivered + 1)
       end)%py
  end.

(** One turn of that loop: whether there was a message. *)
Definition deliver_next (node_id : string) (handler : Envelope C → M unit) : M bool :=
  (next <- get (λ w, Net.popleft node_id (Raft.transport w)) ;;
   match next with
   | None => ret false
   | Some (envelope, rest) => modify (with_transport rest) ;;; handler envelope ;;; ret true
   end)%py.

(** The handler of a node adds nothing to the node's own inbox, so that one
    turn more than the messages now in it is enough fuel. *)
#[global] Instance deliver_inbox : Delivery C S T := λ node_id handler,
  (n <- get (λ w, Net.inbox_size node_id (Raft.transport w)) ;;
   deliver_loop (Datatypes.S n) node_id handler 0)%py.

(** ** The loop ends *)

Abbreviation inbox id w := (Net.inbox id (Raft.transport w)).

(** No message of [id]'s inbox is from [id], and [id] is not its own peer. *)
Definition no_echo (id : string) (w : World) : Prop :=
  Raft.node_id (Raft.node w) = id ∧ id ∉ Raft.peer_ids (Raft.node w) ∧
  ∀ e, e ∈ inbox id w → env_sender e ≠ id.

Lemma inbox_send id s r m (t : T) : r ≠ id → Net.inbox id (Net.send s r m t) = Net.inbox id t.
Proof.
  intros Hr. unfold Net.send. case_match; [done|]. rewrite Net.inbox_insert. by rewrite decide_False.
Qed.

Lemma inbox_sent id s msgs : ∀ t : T, Forall (λ m, m.1 ≠ id) msgs → Net.inbox id (Frame.sent_by s msgs t) = Net.inbox id t.
Proof.
  induction msgs as [|[r m] msgs IH]; intros t Hm; [done|]. apply Forall_cons in Hm as [Hr Hm].
  unfold Frame.sent_by in *. simpl. rewrite IH by done. by apply inbox_send.
Qed.

(** A call of the node leaves its own inbox alone. *)
Lemma framed_inbox {A} id (m : M A) w :
  no_echo id w → Frame.framed (λ p, p ≠ id) m w → inbox id (m w).2 = inbox id w ∧ no_echo id (m w).2.
Proof.
  intros (Hid & Hp & He) Hm. destruct Hm as [I P (msgs & Hok & Ht)]; [by intros p Hin ->|].
  assert (Hin : inbox id (m w).2 = inbox id w) by (rewrite Ht; by apply inbox_sent).
  split; [done|]. split_and!; [congruence|by rewrite P|by rewrite Hin].
Qed.

Lemma popleft_echo id e rest w :
  no_echo id w → Net.popleft id (Raft.transport w) = Some (e, rest) →
  env_sender e ≠ id ∧ no_echo id (with_transport rest w) ∧
  inbox id w = e :: inbox id (with_transport rest w).
Proof.
  intros (Hid & Hp & He). unfold Net.popleft. destruct (inbox id w) as [|e' l] eqn:E; [done|]. intros [= -> <-].
  assert (Hl : Net.inbox id (Net.mkTransport (<[id := l]> (Net.inboxes (Raft.transport w))) (Net.partitioned (Raft.transport w))) = l)
    by (by rewrite Net.inbox_insert, decide_True).
  split_and!; [apply He; left| |by simpl; rewrite Hl]. split_and!; [done|done|]. simpl. rewrite Hl.
  intros x Hx. apply He. by right.
Qed.

Section ends.
Variable now : float.
(** An invariant of the node's world that the calls keep, and what they raise. *)
Variable J : World → Prop.
Variable bad : exn → Prop.
Definition keeps {A} (r : res A * World) : Prop := J r.2 ∧ ∀ x, r.1 = Raise x → bad x.
Hypothesis Htick : ∀ w, J w → keeps (Raft.tick random_fn now w).
Hypothesis Hreceive : ∀ id w e rest, Raft.node_id (Raft.node w) = id → J w →
  Net.popleft id (Raft.transport w) = Some (e, rest) →
  keeps (Raft.receive random_fn e now (with_transport rest w)).

(** With fuel for every message of the inbox the loop ends by itself: it
    returns the number of messages handled and an empty inbox, unless a handler
    raises. *)
Lemma deliver_loop_ends id fuel : ∀ w d,
  J w → no_echo id w → (length (inbox id w) < fuel)%nat →
  match deliver_loop fuel id (λ e, Raft.receive random_fn e now) d w with
  | (Ok n, w') => n = d + zlen (inbox id w) ∧ inbox id w' = []
  | (Raise x, _) => bad x
  end.
Proof.
  induction fuel as [|fuel IH]; intros w d HJ Hw Hf; [lia|]. simpl. unfold bind, get, modify.
  destruct (Net.popleft id (Raft.transport w)) as [[e rest]|] eqn:Hpop.
  - destruct (popleft_echo id e rest w Hw Hpop) as (Hs & Hw1 & Hin).
    pose proof (framed_inbox id (Raft.receive random_fn e now) _ Hw1 (Frame.framed_receive random_fn _ e now _ Hs)) as [Hi2 Hw2].
    destruct (Hreceive id w e rest (proj1 Hw) HJ Hpop) as [HJ2 Hb].
    destruct (Raft.receive random_fn e now (with_transport rest w)) as [[[]|x] w2] eqn:Hr; simpl in Hi2, Hw2, Hin, HJ2.
    + rewrite Hin in Hf |- *. cbn [length] in Hf. rewrite <- Hi2 in Hf.
      specialize (IH w2 (d + 1) HJ2 Hw2 ltac:(lia)).
      destruct (deliver_loop fuel id _ (d + 1) w2) as [[n|x] w3]; [|done].
      destruct IH as (-> & ?). split; [|done]. rewrite Hi2, zlen_cons. lia.
    + by apply Hb.
  - unfold ret. unfold Net.popleft in Hpop. destruct (inbox id w) as [|] eqn:E; [|done].
    split; [change (zlen []) with 0; lia|done].
Qed.

(** A turn ends: with an empty inbox, or because a call raised. *)
Lemma turn_ends id w : J w → no_echo id w →
  match turn random_fn now w with
  | (Ok _, w') => inbox id w' = []
  | (Raise x, _) => bad x
  end.
Proof.
  intros HJ Hw. unfold turn, bind. destruct (Htick w HJ) as [HJ1 Hb].
  pose proof (framed_inbox id (Raft.tick random_fn now) w Hw (Frame.framed_tick random_fn _ now w)) as [_ Hw1].
  destruct (Raft.tick random_fn now w) as [[[]|x] w1]; [|by apply Hb]. simpl in *.
  unfold node_id, Raft.gets, deliver_to, deliver_inbox, bind, get, ret. rewrite (proj1 Hw1).
  pose proof (deliver_loop_ends id (Datatypes.S (Net.inbox_size id (Raft.transport w1))) w1 0 HJ1 Hw1) as Hd.
  destruct (deliver_loop _ _ _ _ _) as [[n|x] w2]; [|apply Hd; unfold Net.inbox_size; lia].
  apply Hd. unfold Net.inbox_size. lia.
Qed.
End ends.

(** ** A turn is a sequence of cluster events *)

Section events.
Variables tmin tmax hb : float.
Variable ids : list string.
Abbreviation Cl := (Cluster.Cluster C S T).
Abbreviation run := (Cluster.run (S := S) tmin tmax hb ids).
Implicit Types cl : Cl.

Definition delivery (id : string) (now : float) : Cluster.Event C T * (nat → float → float → float) :=
  (Cluster.Deliver id tt now, random_fn).

Lemma put_put id w w' cl : Cluster.put id w' (Cluster.put id w cl) = Cluster.put id w' cl.
Proof. unfold Cluster.put. simpl. by rewrite insert_insert_eq. Qed.

Lemma on_put {A} id (m : M A) w cl :
  Cluster.on_slot id m (Cluster.put id w cl) = (Some (m w).1, Cluster.put id (m w).2 cl).
Proof.
  unfold Cluster.on_slot, Cluster.put. simpl. rewrite lookup_insert_eq. unfold Cluster.world. simpl.
  destruct w as [n st t sm]. simpl. destruct (m _) as [r w']. simpl. by rewrite insert_insert_eq.
Qed.

Lemma put_transport id t w cl :
  Cluster.mkCluster (Cluster.slots (Cluster.put id w cl)) t = Cluster.put id (with_transport t w) cl.
Proof. done. Qed.

Lemma deliver_put id now w cl e rest :
  Net.popleft id (Raft.transport w) = Some (e, rest) →
  (Cluster.exec tmin tmax hb ids (Cluster.Deliver id tt now) random_fn (Cluster.put id w cl)).2 =
    Cluster.put id (Raft.receive random_fn e now (with_transport rest w)).2 cl.
Proof.
  intros Hp. unfold Cluster.exec. cbn [n_take Net.net_network Cluster.network Cluster.put]. rewrite Hp.
  fold (Cluster.put id w cl). rewrite put_transport, on_put. done.
Qed.

Lemma deliver_loop_events id now fuel : ∀ w d cl,
  ∃ k, (k ≤ fuel)%nat ∧
    Cluster.put id (deliver_loop fuel id (λ e, Raft.receive random_fn e now) d w).2 cl =
    run (replicate k (delivery id now)) (Cluster.put id w cl).
Proof.
  induction fuel as [|fuel IH]; intros w d cl; [by exists O|]. simpl. unfold bind, get, modify.
  destruct (Net.popleft id (Raft.transport w)) as [[e rest]|] eqn:Hp; [|exists O; split; [lia|done]].
  pose proof (deliver_put id now w cl e rest Hp) as Hd.
  destruct (Raft.receive random_fn e now (with_transport rest w)) as [[[]|x] w2]; simpl in Hd.
  - destruct (IH w2 (d + 1) cl) as (k & Hk & E). exists (Datatypes.S k). split; [lia|]. rewrite E.
    unfold Cluster.run. simpl. unfold Cluster.run in *. f_equal. symmetry. exact Hd.
  - exists 1%nat. split; [lia|]. unfold Cluster.run. simpl. symmetry. exact Hd.
Qed.

(** The effect of a turn of node [id]'s thread on the cluster. *)
Definition turn_on (id : string) (now : float) (cl : Cl) : option (res unit) * Cl :=
  Cluster.on_slot id (turn random_fn now) cl.

Lemma runtime_turn_events id now cl :
  Raft.node_id ∘ Cluster.slot_node <$> Cluster.slots cl !! id = Some id →
  ∃ k, (turn_on id now cl).2 = run ((Cluster.Tick id now, random_fn) :: replicate k (delivery id now)) cl.
Proof.
  unfold turn_on, Cluster.on_slot. destruct (Cluster.slots cl !! id) as [s|] eqn:Es; [|done].
  simpl. intros [= Hid]. set (w := Cluster.world s (Cluster.network cl)).
  assert (Hcl : (Cluster.exec tmin tmax hb ids (Cluster.Tick id now) random_fn cl).2 =
    Cluster.put id (Raft.tick random_fn now w).2 cl).
  { simpl. unfold Cluster.on_slot. rewrite Es. fold w. by destruct (Raft.tick random_fn now w). }
  unfold turn, bind. destruct (Raft.tick random_fn now w) as [[[]|x] w1] eqn:Ht.
  - pose proof (Frame.framed_tick random_fn (λ _, True) now w (λ _ _, I)) as Hfr. rewrite Ht in Hfr. cbn [snd] in Hfr.
    assert (Hid1 : Raft.node_id (Raft.node w1) = id) by (rewrite (Frame.sends_id _ _ _ Hfr); exact Hid).
    unfold node_id, Raft.gets, get, ret. rewrite Hid1. unfold deliver_to, deliver_inbox, bind, get.
    destruct (deliver_loop_events id now (Datatypes.S (Net.inbox_size id (Raft.transport w1))) w1 0 cl) as (k & _ & E).
    exists k. transitivity (run (replicate k (delivery id now)) (Cluster.put id w1 cl)).
    + rewrite <- E. by destruct (deliver_loop _ _ _ _ _) as [[n|x] w2].
    + exact (f_equal (run (replicate k (delivery id now))) (eq_sym Hcl)).
  - exists O. exact (eq_sym Hcl).
Qed.

End events.
End runtime.
End Runtime.
