(* ===== verification/Lifecycle.v ===== *)
(** * The life of a background thread (coordinator/raft_runtime.py,
    coordinator/fraud_runtime.py, settlement/submitter.py, coordinator/coordinator.py)

    [RaftNodeRuntime], [FraudWorkerRuntime], [SettlementSubmitter] and the
    health loop of [Coordinator] start and stop their thread with the same
    code: [start] clears the stop event and starts a thread over [_run], whose
    loop tests the event before each turn; [stop] sets the event, joins the
    thread for at most two seconds and forgets it.  The machine below has the
    owner's calls and the steps of every thread it ever started; the turn of
    the loop, and what [start] does first, are its parameters. *)

From stdpp Require Import base list.
From Stdlib Require Import ZArith Lia.
From S2P Require Import Prelude.

Module Lifecycle.
Section lifecycle.
(** [B] and [A]: the clock readings of a [start] and of a turn.  [W]: what the
    thread shares with others.  [L]: the local variables of [_run]. *)
Context {B A W L : Type}.
Variable prologue : B → Py W unit.
Variable turn : A → L → Py W L.
Variable local0 : L.

Inductive Phase :=
| AtTest (l : L)         (* before [while not self._stop_event.is_set()] *)
| InTurn (l : L)         (* in the body of the loop *)
| Returned
| Died (x : exn).

Definition over (p : Phase) : bool := match p with Returned | Died _ => true | _ => false end.

Record Runtime := mkRuntime {
  stop_event : bool;
  thread : option nat;         (* [self._thread]: which of [threads] *)
  threads : list Phase;        (* every thread started so far *)
  joining : bool;              (* the owner is inside [stop] *)
  shared : W
}.

(** [__init__] *)
Definition init (w : W) : Runtime := mkRuntime false None [] false w.

Inductive Event :=
| Start (b : B)
| StopSet                      (* [stop]: the event is set *)
| StopJoin (timed_out : bool)  (* [stop]: [join(timeout=2.0)] returns *)
| Test (k : nat)
| Turn (k : nat) (a : A).

Definition start (b : B) (r : Runtime) : Runtime :=
  match prologue b (shared r) with
  | (Ok _, w) => mkRuntime false (Some (length (threads r))) (threads r ++ [AtTest local0]) (joining r) w
  | (Raise _, w) => mkRuntime (stop_event r) (thread r) (threads r) (joining r) w
  end.

Definition stop_set (r : Runtime) : Runtime := mkRuntime true (thread r) (threads r) true (shared r).

(** [if self._thread is not None: self._thread.join(timeout=2.0); self._thread = None];
    [None] while the join still waits. *)
Definition stop_join (timed_out : bool) (r : Runtime) : option Runtime :=
  let forgotten := mkRuntime (stop_event r) None (threads r) false (shared r) in
  match thread r with
  | None => Some forgotten
  | Some k => if timed_out || match threads r !! k with Some p => over p | None => true end then Some forgotten else None
  end.

Definition set_phase (k : nat) (p : Phase) (w : W) (r : Runtime) : Runtime :=
  mkRuntime (stop_event r) (thread r) (<[k := p]> (threads r)) (joining r) w.

(** One step; [None] when it cannot be taken. *)
Definition exec (e : Event) (r : Runtime) : option Runtime :=
  match e with
  | Start b => if joining r then None else Some (start b r)
  | StopSet => if joining r then None else Some (stop_set r)
  | StopJoin timed_out => if joining r then stop_join timed_out r else None
  | Test k =>
      match threads r !! k with
      | Some (AtTest l) => Some (set_phase k (if stop_event r then Returned else InTurn l) (shared r) r)
      | _ => None
      end
  | Turn k a =>
      match threads r !! k with
      | Some (InTurn l) =>
          Some (match turn a l (shared r) with
                | (Ok l', w) => set_phase k (AtTest l') w r
                | (Raise x, w) => set_phase k (Died x) w r
                end)
      | _ => None
      end
  end.

Fixpoint run (evs : list Event) (r : Runtime) : option Runtime :=
  match evs with
  | [] => Some r
  | e :: evs => match exec e r with Some r' => run evs r' | None => None end
  end.

(** ** One thread at a time *)

(** [start] is called on a stopped runtime, and no join runs out of time. *)
Fixpoint orderly (evs : list Event) (r : Runtime) : Prop :=
  match evs with
  | [] => True
  | e :: evs =>
      match e with Start _ => thread r = None | StopJoin timed_out => timed_out = false | _ => True end ∧
      match exec e r with Some r' => orderly evs r' | None => True end
  end.

(** Only the thread that [self._thread] names can be alive. *)
Definition single (r : Runtime) : Prop :=
  ∀ k p, threads r !! k = Some p → over p = false → thread r = Some k.

Lemma single_set_phase k p p' w r :
  threads r !! k = Some p → over p = false → single r → single (set_phase k p' w r).
Proof.
  intros Hk Hp Hs j q. simpl. destruct (decide (j = k)) as [->|]; [intros _ _; by apply (Hs k p)|].
  rewrite list_lookup_insert_ne by done. apply Hs.
Qed.

Lemma single_exec e r r' :
  match e with Start _ => thread r = None | StopJoin timed_out => timed_out = false | _ => True end →
  exec e r = Some r' → single r → single r'.
Proof.
  intros Ho He Hs. destruct e as [b| |timed_out|k|k a]; simpl in He.
  - destruct (joining r); [done|]. injection He as <-. unfold start. destruct (prologue b (shared r)) as [[[]|x] w]; [|done].
    intros j p. simpl. intros [Hj|[-> _]]%lookup_snoc_Some Hp; [|done].
    destruct Hj as [_ Hj]. specialize (Hs j p Hj Hp). congruence.
  - destruct (joining r); [done|]. by injection He as <-.
  - destruct (joining r); [|done]. subst timed_out. unfold stop_join in He.
    destruct (thread r) as [k|] eqn:Et.
    + destruct (threads r !! k) as [p|] eqn:Ep; simpl in He.
      * destruct (over p) eqn:Eo; [|done]. injection He as <-. intros j q Hj Hq.
        pose proof (Hs j q Hj Hq) as Hjk. simpl in Hj. rewrite Et in Hjk. injection Hjk as ->. congruence.
      * injection He as <-. intros j q Hj Hq. pose proof (Hs j q Hj Hq) as Hjk. simpl in Hj. rewrite Et in Hjk. congruence.
    + injection He as <-. intros j q Hj Hq. simpl in Hj. pose proof (Hs j q Hj Hq). congruence.
  - destruct (threads r !! k) as [[l|l| |x]|] eqn:Ek; try done. injection He as <-. by eapply single_set_phase.
  - destruct (threads r !! k) as [[l|l| |x]|] eqn:Ek; try done.
    destruct (turn a l (shared r)) as [[l'|x] w]; injection He as <-; by eapply single_set_phase.
Qed.

Lemma single_run evs : ∀ r r', orderly evs r → run evs r = Some r' → single r → single r'.
Proof.
  induction evs as [|e evs IH]; intros r r' Ho Hr Hs; simpl in *; [by injection Hr as <-|].
  destruct Ho as [He Ho]. destruct (exec e r) as [r1|] eqn:E; [|done]. eapply IH; [done..|]. by eapply single_exec.
Qed.

Lemma single_init w : single (init w).
Proof. by intros k p. Qed.

(** ** Stopping *)

Definition is_turn (k : nat) (e : Event) : bool := match e with Turn j _ => Nat.eqb j k | _ => false end.
Definition is_start (e : Event) : bool := match e with Start _ => true | _ => false end.
(** How often thread [k] runs its body in [evs]. *)
Definition turns_of (k : nat) (evs : list Event) : nat := length (List.filter (is_turn k) evs).

(** The turns a thread can still make once the event is set. *)
Definition turns_left (k : nat) (r : Runtime) : nat :=
  match threads r !! k with Some (InTurn _) => 1 | _ => 0 end.

Lemma turns_left_set_phase k j p q w r : threads r !! j = Some q →
  turns_left k (set_phase j p w r) = if decide (k = j) then match p with InTurn _ => 1 | _ => 0 end else turns_left k r.
Proof.
  intros Hj. unfold turns_left, set_phase. simpl. case_decide as Hk.
  - subst j. rewrite list_lookup_insert_eq; [done|]. by eapply lookup_lt_Some.
  - by rewrite list_lookup_insert_ne.
Qed.

Lemma exec_stopped e r r' k : stop_event r = true → is_start e = false → exec e r = Some r' →
  stop_event r' = true ∧ (if is_turn k e then 1 else 0) + turns_left k r' ≤ turns_left k r.
Proof.
  intros Hs Hne He. destruct e as [b| |timed_out|j|j a]; simpl in He; [done| | | |].
  - destruct (joining r); [done|]. by injection He as <-.
  - destruct (joining r); [|done]. unfold stop_join in He. destruct (thread r); [case_match; [|done]|]; by injection He as <-.
  - destruct (threads r !! j) as [[l|l| |x]|] eqn:Ej; try done. injection He as <-. split; [done|].
    rewrite (turns_left_set_phase k j _ _ _ _ Ej), Hs. simpl. case_decide; lia.
  - destruct (threads r !! j) as [[l|l| |x]|] eqn:Ej; try done.
    assert (Hb : (if is_turn k (Turn j a) then 1 else 0) + (if decide (k = j) then 0 else turns_left k r) ≤ turns_left k r).
    { simpl. destruct (Nat.eqb_spec j k); case_decide; subst; try done; try lia. unfold turns_left. by rewrite Ej. }
    destruct (turn a l (shared r)) as [[l'|x] w]; injection He as <-; (split; [done|]);
      by rewrite (turns_left_set_phase k j _ _ _ _ Ej).
Qed.

Lemma run_stopped evs k : ∀ r r', stop_event r = true → existsb is_start evs = false → run evs r = Some r' →
  turns_of k evs ≤ turns_left k r.
Proof.
  induction evs as [|e evs IH]; intros r r' Hs Hne Hr; simpl in *; [unfold turns_of; simpl; lia|].
  apply orb_false_iff in Hne as [Hne1 Hne2]. destruct (exec e r) as [r1|] eqn:E; [|done].
  destruct (exec_stopped e r r1 k Hs Hne1 E) as [Hs1 Hb]. specialize (IH r1 r' Hs1 Hne2 Hr).
  unfold turns_of in *. simpl. destruct (is_turn k e); simpl; lia.
Qed.

(** What is left of [stop] once the event is set: the owner's thread ends its
    turn, sees the event, and the join returns. *)
Definition wind_down (a : A) (r : Runtime) : list Event :=
  match thread r with
  | Some k =>
      match threads r !! k with
      | Some (AtTest _) => [Test k]
      | Some (InTurn l) => if res_is_ok (turn a l (shared r)).1 then [Turn k a; Test k] else [Turn k a]
      | _ => []
      end
  | None => []
  end ++ [StopJoin false].

Lemma wind_down_returns a r : stop_event r = true → joining r = true →
  ∃ r', run (wind_down a r) r = Some r' ∧ thread r' = None ∧ joining r' = false.
Proof.
  destruct r as [se t ts j w]. simpl. intros -> ->. unfold wind_down. simpl.
  destruct t as [k|]; simpl; [|by eexists].
  destruct (ts !! k) as [[l|l| |x]|] eqn:Ek; simpl; rewrite ?Ek; simpl; unfold stop_join; simpl; rewrite ?Ek; simpl; try by eexists.
  - rewrite list_lookup_insert_eq by (by eapply lookup_lt_Some). by eexists.
  - destruct (turn a l w) as [[l'|x] w'] eqn:Et; simpl; rewrite ?Ek, ?Et; simpl;
      rewrite ?list_lookup_insert_eq by (by eapply lookup_lt_Some); simpl; unfold stop_join; simpl;
      rewrite ?list_insert_insert_eq, ?list_lookup_insert_eq by (by eapply lookup_lt_Some); simpl; by eexists.
Qed.

(** ** The loop *)

(** [_run] of a thread that is never stopped, over the readings of its turns *)
Fixpoint loop (l : L) (turns : list A) : Py W L :=
  match turns with
  | [] => ret l
  | a :: turns => (l' <- turn a l ;; loop l' turns)%py
  end.

(** The readings of the turns of thread [k]. *)
Definition readings (k : nat) (evs : list Event) : list A :=
  omap (λ e, match e with Turn j a => if Nat.eqb j k then Some a else None | _ => None end) evs.
Definition is_step_of (k : nat) (e : Event) : bool :=
  match e with Test j | Turn j _ => Nat.eqb j k | _ => false end.

Definition running (l : L) (p : Phase) : Prop := p = AtTest l ∨ p = InTurn l.

(** Where the thread is, and what it shares, are those of the loop. *)
Definition as_loop (k : nat) (o : res L * W) (r : Runtime) : Prop :=
  shared r = o.2 ∧
  match o.1 with
  | Ok l => ∃ p, threads r !! k = Some p ∧ running l p
  | Raise x => threads r !! k = Some (Died x)
  end.

Lemma dead_runs_no_step k x evs r r' : threads r !! k = Some (Died x) → forallb (is_step_of k) evs = true →
  run evs r = Some r' → evs = [].
Proof.
  intros Hk Hf Hr. destruct evs as [|e evs]; [done|]. simpl in *. apply andb_true_iff in Hf as [He _].
  destruct e as [b| |b|j|j a]; simpl in *; try done; apply Nat.eqb_eq in He as ->; by rewrite Hk in Hr.
Qed.

Lemma steps_as_loop k evs : ∀ l p r r',
  stop_event r = false → threads r !! k = Some p → running l p → forallb (is_step_of k) evs = true →
  run evs r = Some r' → as_loop k (loop l (readings k evs) (shared r)) r'.
Proof.
  induction evs as [|e evs IH]; intros l p r r' Hse Hk Hp Hf Hr; simpl in Hr.
  { injection Hr as <-. split; [done|]. by exists p. }
  pose proof (lookup_lt_Some _ _ _ Hk) as Hlt.
  simpl in Hf. apply andb_true_iff in Hf as [He Hf].
  destruct e as [b| |b|j|j a]; try done; simpl in He; apply Nat.eqb_eq in He as ->; simpl in Hr |- *; rewrite Hk in Hr.
  - destruct Hp as [->| ->]; [|done]. rewrite Hse in Hr.
    refine (IH l (InTurn l) (set_phase k (InTurn l) (shared r) r) r' Hse _ (or_intror eq_refl) Hf Hr).
    by apply list_lookup_insert_eq.
  - destruct Hp as [->| ->]; [done|]. rewrite Nat.eqb_refl. simpl. unfold bind.
    destruct (turn a l (shared r)) as [[l'|x] w] eqn:Et.
    + refine (IH l' (AtTest l') (set_phase k (AtTest l') w r) r' Hse _ (or_introl eq_refl) Hf Hr).
      by apply list_lookup_insert_eq.
    + assert (Hd : threads (set_phase k (Died x) w r) !! k = Some (Died x)) by by apply list_lookup_insert_eq.
      pose proof (dead_runs_no_step k x evs _ _ Hd Hf Hr) as ->. simpl in Hr. injection Hr as <-. done.
Qed.

(** C23 (one thread at a time): in every run in which [start] is only called
    on a stopped runtime and no join of [stop] runs out of time, at most one
    of the threads ever started is alive, and none after [stop] has returned.
    From any state in which the event is set until the next [start], also when
    a join does run out of time, a thread finishes the turn it is in and makes
    no other; and [stop] returns as soon as that turn, however it ends, and
    one more test of the event are over. *)
Theorem one_thread_at_a_time w evs r :
  orderly evs (init w) → run evs (init w) = Some r →
  (∀ j k p q, threads r !! j = Some p → threads r !! k = Some q → over p = false → over q = false → j = k) ∧
  (thread r = None → ∀ k p, threads r !! k = Some p → over p = true) ∧
  (stop_event r = true →
     (∀ evs' r', existsb is_start evs' = false → run evs' r = Some r' → ∀ k, turns_of k evs' ≤ turns_left k r) ∧
     (joining r = true → ∀ a, ∃ r', run (wind_down a r) r = Some r' ∧ thread r' = None ∧ joining r' = false)).
Proof.
  intros Ho Hr. pose proof (single_run evs _ _ Ho Hr (single_init w)) as Hs. split_and!.
  - intros j k p q Hj Hk Hp Hq. pose proof (Hs j p Hj Hp). pose proof (Hs k q Hk Hq). congruence.
  - intros Ht k p Hk. destruct (over p) eqn:Eo; [done|]. pose proof (Hs k p Hk Eo). congruence.
  - intros Hse. split.
    + intros evs' r' Hne Hr' k. by eapply run_stopped.
    + intros Hj a. by apply wind_down_returns.
Qed.
End lifecycle.

Arguments Event : clear implicits.
Arguments Runtime : clear implicits.

(** ** A concrete run *)

(** A thread that counts its turns, and dies of a reading above 9. *)
Definition counting (a : Z) (l : unit) : Py Z unit :=
  if (9 <? a)%Z then raise KeyError else modify (Z.add a).

Definition nothing (_ : unit) : Py Z unit := ret tt.

Definition two_lives : list (Event unit Z) :=
  [Start tt; Test 0; Turn 0 3%Z; Test 0; StopSet; Turn 0 4%Z; Test 0; StopJoin false; Start tt; Test 1; StopSet].

Definition after_two_lives : Runtime Z unit :=
  mkRuntime true (Some 1) [Returned; InTurn tt] true 7%Z.

Lemma one_thread_at_a_time_witness :
  run nothing counting tt two_lives (init 0%Z) = Some after_two_lives ∧
  turns_left 1 after_two_lives = 1 ∧
  ∃ r', run nothing counting tt (wind_down counting 10%Z after_two_lives) after_two_lives = Some r' ∧
    thread r' = None ∧ joining r' = false.
Proof.
  assert (Hr : run nothing counting tt two_lives (init 0%Z) = Some after_two_lives) by reflexivity.
  split; [exact Hr|]. split; [reflexivity|].
  refine (proj2 (proj2 (proj2 (one_thread_at_a_time nothing counting tt 0%Z two_lives after_two_lives _ Hr)) eq_refl) eq_refl 10%Z).
  repeat split.
Defined.

(** ** A join that runs out of time

    The turn of the submitter may wait in [propose] for as long as [stop] waits
    in [join].  When the join gives up first, the old thread is still alive;
    a following [start] clears the event it has not yet looked at, and two
    threads run over the same object. *)
Definition restarted_early : list (Event unit Z) :=
  [Start tt; Test 0; StopSet; StopJoin true; Start tt; Test 1; Turn 0 3%Z; Test 0; Turn 1 4%Z].

Lemma early_restart_doubles :
  ∃ r, run nothing counting tt restarted_early (init 0%Z) = Some r ∧
    threads r = [InTurn tt; AtTest tt] ∧ thread r = Some 1 ∧ shared r = 7%Z.
Proof. by eexists. Qed.
End Lifecycle.
