(* ===== verification/RaftCluster.v ===== *)
(** * The in-process Raft cluster (coordinator/raft_cluster.py)

    Runtimes over one [InMemoryTransport], with the operations that kill and
    revive a node, and the client calls [find_leader], [propose] and
    [snapshot].  The client runs concurrently with the threads of the nodes:
    before its [k]-th access to a shared object the operations [others k] of
    other threads have happened, and [clock k] is what [time.monotonic()]
    answers there.  A runtime is named by its node id. *)

From stdpp Require Import base gmap strings list relations.
From Stdlib Require Import ZArith SpecFloat Lia.
From S2P Require Import Prelude PyDecimal PyFloat Models RaftTypes Storage StateMachine Ledger Submitter.
From S2P Require Import Transport RaftNode RaftFrame RaftSpec Cluster Runtime.

Local Open Scope Z_scope.

Module RaftCluster.
Section raft_cluster.
Context {C S : Type} {Hsm : StateMachine C S}.
(** The timing arguments of [__init__], and [node_ids]. *)
Variables tmin tmax hb : float.
Variable ids : list string.

Abbreviation T := (Net.InMemoryTransport C).
Abbreviation Cl := (Cluster.Cluster C S T).
Abbreviation World_ := (Raft.World C S T).

Record RaftCluster := mkCluster {
  cluster : Cl;             (* runtimes' nodes, storages, state machines, transport *)
  running : gset string     (* the nodes whose thread runs *)
}.

(** [__init__] *)
Definition init (state_machine : S) : RaftCluster :=
  mkCluster (Cluster.init tmin tmax hb ids state_machine Net.init) ∅.

Abbreviation M := (Py RaftCluster).

Definition with_cluster (cl : Cl) (rc : RaftCluster) : RaftCluster := mkCluster cl (running rc).
Definition on_transport (f : T → T) : M unit :=
  modify (λ rc, with_cluster (Cluster.mkCluster (Cluster.slots (cluster rc)) (f (Cluster.network (cluster rc)))) rc).
Definition set_running (f : gset string → gset string) : M unit :=
  modify (λ rc, mkCluster (cluster rc) (f (running rc))).

(** A call into [self.runtimes[node_id]]. *)
Definition on_runtime {A} (node_id : string) (m : Py World_ A) : M A := λ rc,
  match Cluster.slots (cluster rc) !! node_id with
  | Some s =>
      let '(r, w) := m (Cluster.world s (Cluster.network (cluster rc))) in
      (r, with_cluster (Cluster.put node_id w (cluster rc)) rc)
  | None => (Raise KeyError, rc)
  end.

(** What [random.uniform] returns to each node in a call: the [k]-th draw of
    the node object. *)
Definition Draws : Type := string → nat → float → float → float.

(** [RaftNodeRuntime.start] of one runtime *)
Definition start_one (rnd : Draws) (node_id : string) (now : float) : M unit :=
  (on_runtime node_id (Runtime.start (rnd node_id) now) ;;; set_running (λ r, r ∪ {[node_id]}))%py.

(** [start], with the clock reading of each runtime's start *)
Definition start (rnd : Draws) (now : string → float) : M unit := for_each (λ id, start_one rnd id (now id)) ids.
Definition stop : M unit := for_each (λ id, set_running (λ r, r ∖ {[id]})) ids.

Definition kill (node_id : string) : M unit :=
  (known <- get (λ rc, bool_decide (is_Some (Cluster.slots (cluster rc) !! node_id))) ;;
   if negb known then raise KeyError
   else
     set_running (λ r, r ∖ {[node_id]}) ;;;
     on_transport (Net.partition [node_id]))%py.

(** [_build_runtime]: a new node over the surviving storage and state machine *)
Definition build_runtime (node_id : string) : M unit := λ rc,
  match Cluster.slots (cluster rc) !! node_id with
  | Some s =>
      (Ok tt, with_cluster (Cluster.put node_id
         (Cluster.build_node tmin tmax hb ids node_id (Cluster.slot_storage s) (Cluster.slot_machine s)
            (Cluster.network (cluster rc))) (cluster rc)) rc)
  | None => (Raise KeyError, rc)
  end.

Definition revive (rnd : Draws) (node_id : string) (now : float) : M unit :=
  (on_transport (Net.rejoin [node_id]) ;;;
   build_runtime node_id ;;;
   start_one rnd node_id now)%py.

Definition is_alive (node_id : string) (rc : RaftCluster) : bool :=
  negb (Net.is_partitioned node_id (Cluster.network (cluster rc))).

(** One turn of a running node's thread; an exception ends the thread. *)
Definition turn (rnd : Draws) (node_id : string) (now : float) (rc : RaftCluster) : RaftCluster :=
  if bool_decide (node_id ∈ running rc) then
    match on_runtime node_id (Runtime.turn (rnd node_id) now) rc with
    | (Ok _, rc') => rc'
    | (Raise _, rc') => mkCluster (cluster rc') (running rc' ∖ {[node_id]})
    end
  else rc.

(** A step of a node's thread inside a turn; an exception ends the thread. *)
Definition thread_step {A} (node_id : string) (m : Py World_ A) (rc : RaftCluster) : RaftCluster :=
  match on_runtime node_id m rc with
  | (Ok _, rc') => rc'
  | (Raise _, rc') => mkCluster (cluster rc') (running rc' ∖ {[node_id]})
  end.

(** The two kinds of steps a turn is made of.  The lock of the runtime does not
    keep other nodes from sending to this one between them.  The loop has
    tested its event before, so that neither looks at [running]. *)
Definition turn_tick (rnd : Draws) (node_id : string) (now : float) : RaftCluster → RaftCluster :=
  thread_step node_id (Raft.tick (rnd node_id) now).
Definition turn_deliver (rnd : Draws) (node_id : string) (now : float) : RaftCluster → RaftCluster :=
  thread_step node_id (Runtime.deliver_next node_id (λ env, Raft.receive (rnd node_id) env now)).

(** What other threads do: the nodes' own threads, and callers of the
    cluster's methods.  [Turn] is a turn during which nothing else happens;
    [TurnTick] and [TurnDeliver] are its steps. *)
Inductive Op :=
| Turn (node_id : string) (now : float)
| TurnTick (node_id : string) (now : float)
| TurnDeliver (node_id : string) (now : float)
| Kill (node_id : string)
| Revive (node_id : string) (now : float)
| StartAll (now : string → float)
| StopAll
| ProposeAt (node_id : string) (command : C) (now : float).

Definition exec (op : Op) (rnd : Draws) (rc : RaftCluster) : RaftCluster :=
  match op with
  | Turn id now => turn rnd id now rc
  | TurnTick id now => turn_tick rnd id now rc
  | TurnDeliver id now => turn_deliver rnd id now rc
  | Kill id => (kill id rc).2
  | Revive id now => (revive rnd id now rc).2
  | StartAll now => (start rnd now rc).2
  | StopAll => (stop rc).2
  | ProposeAt id c now => (on_runtime id (Runtime.propose c now) rc).2
  end.

Definition run (ops : list (Op * Draws)) (rc : RaftCluster) : RaftCluster := foldl (λ rc op, exec op.1 op.2 rc) rc ops.

(** ** A turn among other threads

    Before the [k]-th access of the turn to its inbox (the tick is the 0-th)
    the operations [others k] happen. *)

(** [while inbox: envelope = inbox.popleft(); handler(envelope); delivered += 1];
    the messages handled instead of their number. *)
Fixpoint drain (fuel : nat) (rnd : Draws) (node_id : string) (now : float) (others : nat → list (Op * Draws))
    (k : nat) (handled : list (Envelope C)) (rc : RaftCluster) : res (list (Envelope C)) * RaftCluster :=
  match fuel with
  | O => (Raise OutOfFuel, rc)
  | Datatypes.S fuel =>
      let rc1 := run (others k) rc in
      match Net.popleft node_id (Cluster.network (cluster rc1)) with
      | None => (Ok handled, rc1)
      | Some (envelope, _) =>
          let rc2 := turn_deliver rnd node_id now rc1 in
          match (on_runtime node_id (Runtime.deliver_next node_id (λ env, Raft.receive (rnd node_id) env now)) rc1).1 with
          | Ok _ => drain fuel rnd node_id now others (Datatypes.S k) (handled ++ [envelope]) rc2
          | Raise x => (Raise x, rc2)
          end
      end
  end.

Definition turn_among (fuel : nat) (rnd : Draws) (node_id : string) (now : float) (others : nat → list (Op * Draws))
    (rc : RaftCluster) : res (list (Envelope C)) * RaftCluster :=
  let rc1 := run (others 0%nat) rc in
  let rc2 := turn_tick rnd node_id now rc1 in
  match (on_runtime node_id (Raft.tick (rnd node_id) now) rc1).1 with
  | Ok _ => drain fuel rnd node_id now others 1 [] rc2
  | Raise x => (Raise x, rc2)
  end.

(** The runtime of [node_id] is locked: the others do not call into it, and it
    is not started again. *)
Definition leaves (node_id : string) (op : Op) : Prop :=
  match op with
  | Turn id _ | TurnTick id _ | TurnDeliver id _ | Revive id _ | ProposeAt id _ _ => id ≠ node_id
  | StartAll _ => False
  | Kill _ | StopAll => True
  end.

(** ** The client's calls *)

Section client.
Variable others : nat → list (Op * Draws).
Variable clock : nat → float.

Record Client := mkClient {
  shared : RaftCluster;
  last_known_leader : option string;
  accesses : nat                       (* shared accesses and clock readings so far *)
}.

Abbreviation K := (Py Client).

(** What the other threads leave at the next access. *)
Definition elapse (w : Client) : RaftCluster := run (others (accesses w)) (shared w).

Definition access {A} (m : M A) : K A := λ w,
  let '(r, rc) := m (elapse w) in (r, mkClient rc (last_known_leader w) (Datatypes.S (accesses w))).

(** [time.monotonic()] *)
Definition monotonic : K float := λ w,
  (Ok (clock (accesses w)), mkClient (elapse w) (last_known_leader w) (Datatypes.S (accesses w))).

Definition set_last (l : option string) : K unit := modify (λ w, mkClient (shared w) l (accesses w)).

Definition alive (node_id : string) : K bool := access (get (is_alive node_id)).
Definition leads (node_id : string) : K bool := access (on_runtime node_id Runtime.is_leader).

(** [self.is_alive(node_id) and runtime.is_leader] *)
Definition alive_leader (node_id : string) : K bool :=
  (a <- alive node_id ;; if (a : bool) then leads node_id else ret false)%py.

(** [if self._last_known_leader is not None: ...]; an id that is not a key of
    [runtimes] counts as no leader. *)
Definition cached_leader : K (option string) :=
  (cached <- get last_known_leader ;;
   match cached with
   | None => ret None
   | Some id =>
       if bool_decide (id ∈ ids) then
         hit <- alive_leader id ;;
         ret (if hit : bool then Some id else None)
       else ret None
   end)%py.

(** [for node_id, runtime in self.runtimes.items(): ...] *)
Fixpoint scan (l : list string) : K (option string) :=
  match l with
  | [] => ret None
  | id :: l =>
      (hit <- alive_leader id ;;
       if (hit : bool) then set_last (Some id) ;;; ret (Some id) else scan l)%py
  end.

Fixpoint find_loop (fuel : nat) (deadline : float) : K (option string) :=
  match fuel with
  | O => raise OutOfFuel
  | Datatypes.S fuel =>
      (c <- cached_leader ;;
       match c with
       | Some id => ret (Some id)
       | None =>
           found <- scan ids ;;
           match found with
           | Some id => ret (Some id)
           | None =>
               now <- monotonic ;;
               if F.ge now deadline then ret None else find_loop fuel deadline
           end
       end)%py
  end.

Definition find_leader (fuel : nat) (timeout : float) : K (option string) :=
  (now <- monotonic ;; find_loop fuel (F.add now timeout))%py.

(** [leader.propose(command)]: the clock is read under the runtime's lock. *)
Definition propose_at (node_id : string) (command : C) : K (option (LogEntry C)) := λ w,
  access (on_runtime node_id (Runtime.propose command (clock (accesses w)))) w.

Definition no_leader : exn := TimeoutError "no leader available to accept the proposal within timeout".

Fixpoint propose_loop (fuel find_fuel : nat) (command : C) (deadline : float) : K (LogEntry C) :=
  match fuel with
  | O => raise OutOfFuel
  | Datatypes.S fuel =>
      (now <- monotonic ;;
       if negb (F.lt now deadline) then raise no_leader
       else
         now <- monotonic ;;
         leader <- find_leader find_fuel (F.max F.zero (F.sub deadline now)) ;;
         match leader with
         | None => raise no_leader
         | Some id =>
             entry <- propose_at id command ;;
             match entry with
             | Some e => ret e
             | None => set_last None ;;; propose_loop fuel find_fuel command deadline
             end
         end)%py
  end.

Definition propose (fuel : nat) (command : C) (timeout : float) : K (LogEntry C) :=
  (now <- monotonic ;; propose_loop fuel fuel command (F.add now timeout))%py.

(** [snapshot]: each attribute is read under its own lock acquisition. *)
Record NodeStatus := mkStatus { st_is_leader : bool; st_term : Z; st_leader_id : option string }.
Fixpoint snapshot_each (l : list string) : K (list (string * NodeStatus)) :=
  match l with
  | [] => ret []
  | id :: l =>
      (a <- alive id ;;
       if (a : bool) then
         is_l <- leads id ;;
         term <- access (on_runtime id Runtime.current_term) ;;
         lead <- access (on_runtime id Runtime.leader_id) ;;
         rest <- snapshot_each l ;;
         ret ((id, mkStatus is_l term lead) :: rest)
       else snapshot_each l)%py
  end.
Definition snapshot : K (list (string * NodeStatus)) := snapshot_each ids.

End client.

(** ** Every operation is a run of cluster events *)

Abbreviation events := (list (Cluster.Event C T * (nat → float → float → float))).
Abbreviation run_events := (Cluster.run (S := S) tmin tmax hb ids).
Implicit Types (rc : RaftCluster) (cl : Cl).

Section histories.
(** The commands that the proposals may carry. *)
Variable allowed : C → Prop.

Definition evolves cl cl' : Prop :=
  ∃ evs, Forall (λ ev, Cluster.event_allowed allowed ev.1) evs ∧ cl' = run_events evs cl.

Lemma evolves_refl cl : evolves cl cl.
Proof. by exists []. Qed.

Lemma evolves_trans cl1 cl2 cl3 : evolves cl1 cl2 → evolves cl2 cl3 → evolves cl1 cl3.
Proof.
  intros (e1 & A1 & ->) (e2 & A2 & ->). exists (e1 ++ e2). split; [by apply Forall_app|].
  unfold Cluster.run. by rewrite foldl_app.
Qed.

Lemma evolves_event ev rnd cl : Cluster.event_allowed allowed ev → evolves cl (Cluster.exec tmin tmax hb ids ev rnd cl).2.
Proof. intros Hev. exists [(ev, rnd)]. split; [by apply Forall_singleton|done]. Qed.

(** Every slot holds a node of its own name. *)
Definition named cl : Prop :=
  ∀ id s, Cluster.slots cl !! id = Some s → Raft.node_id (Cluster.slot_node s) = id.

Lemma named_put id w cl : named cl → Raft.node_id (Raft.node w) = id → named (Cluster.put id w cl).
Proof.
  intros Hc Hw id' s. unfold Cluster.put. simpl. intros [[<- <-]|[_ Hs]]%lookup_insert_Some; [done|by apply Hc].
Qed.

Lemma named_on_slot {A} id (m : Py World_ A) cl :
  (∀ w, Frame.framed (λ _, True) m w) → named cl → named (Cluster.on_slot id m cl).2.
Proof.
  intros Hm Hc. unfold Cluster.on_slot. destruct (Cluster.slots cl !! id) as [s|] eqn:E; [|done].
  specialize (Hm (Cluster.world s (Cluster.network cl)) (λ _ _, I)). destruct (m _) as [r w]. simpl in *.
  apply named_put; [done|]. rewrite (Frame.sends_id _ _ _ Hm). by apply Hc.
Qed.

Lemma named_exec ev rnd cl : named cl → named (Cluster.exec tmin tmax hb ids ev rnd cl).2.
Proof.
  intros Hc. destruct ev as [id now|id now|id choice now|id c now|id|move]; simpl.
  - pose proof (named_on_slot id (Raft.start rnd now) cl (λ w, Frame.framed_start rnd _ now w) Hc).
    by destruct (Cluster.on_slot _ _ _).
  - pose proof (named_on_slot id (Raft.tick rnd now) cl (λ w, Frame.framed_tick rnd _ now w) Hc).
    by destruct (Cluster.on_slot _ _ _).
  - destruct (Net.popleft id (Cluster.network cl)) as [[e t]|]; [|done].
    pose proof (named_on_slot id (Raft.receive rnd e now) (Cluster.mkCluster (Cluster.slots cl) t)
      (λ w, Frame.framed_receive rnd _ e now w I) Hc). by destruct (Cluster.on_slot _ _ _).
  - pose proof (named_on_slot id (Raft.propose c now) cl (λ w, Frame.framed_propose _ c now w) Hc).
    by destruct (Cluster.on_slot _ _ _).
  - destruct (Cluster.slots cl !! id) as [s|] eqn:E; [|done]. by apply named_put.
  - exact Hc.
Qed.

Lemma named_evolves cl cl' : evolves cl cl' → named cl → named cl'.
Proof.
  intros (evs & _ & ->). revert cl. induction evs as [|ev evs IH]; intros cl Hc; [done|]. simpl.
  by apply IH, named_exec.
Qed.

Lemma on_runtime_slot {A} id (m : Py World_ A) rc :
  cluster (on_runtime id m rc).2 = (Cluster.on_slot id m (cluster rc)).2 ∧
  running (on_runtime id m rc).2 = running rc.
Proof.
  unfold on_runtime, Cluster.on_slot. destruct (Cluster.slots _ !! id) as [s|]; [|done]. by destruct (m _).
Qed.

Lemma start_slot_events rnd id now cl : evolves cl (Cluster.on_slot id (Raft.start rnd now) cl).2.
Proof.
  pose proof (evolves_event (Cluster.Start id now) rnd cl I) as Hev. simpl in Hev.
  by destruct (Cluster.on_slot id (Raft.start rnd now) cl).
Qed.

Lemma propose_slot_events id c now cl : allowed c → evolves cl (Cluster.on_slot id (Raft.propose c now) cl).2.
Proof.
  intros Hc. pose proof (evolves_event (Cluster.Propose id c now) (λ _ x _, x) cl Hc) as Hev. simpl in Hev.
  by destruct (Cluster.on_slot id (Raft.propose c now) cl).
Qed.

Lemma start_one_events rnd id now rc : evolves (cluster rc) (cluster (start_one rnd id now rc).2).
Proof.
  pose proof (start_slot_events (rnd id) id now (cluster rc)) as Hev.
  destruct (on_runtime_slot id (Runtime.start (rnd id) now) rc) as [E _].
  unfold start_one, bind, set_running, modify. unfold Runtime.start in *. rewrite <- E in Hev.
  destruct (on_runtime id (Raft.start (rnd id) now) rc) as [[]]; exact Hev.
Qed.

Lemma start_events rnd now l : ∀ rc, evolves (cluster rc) (cluster (for_each (λ id, start_one rnd id (now id)) l rc).2).
Proof.
  induction l as [|id l IH]; intros rc; [apply evolves_refl|]. simpl. unfold bind.
  pose proof (start_one_events rnd id (now id) rc) as H1. destruct (start_one rnd id (now id) rc) as [[[]|x] rc1]; [|done].
  eapply evolves_trans; [exact H1|]. apply IH.
Qed.

Lemma stop_cluster l : ∀ rc, cluster (for_each (λ id, set_running (λ r, r ∖ {[id]})) l rc).2 = cluster rc.
Proof. induction l as [|id l IH]; intros rc; [done|]. simpl. unfold bind, set_running, modify. by rewrite IH. Qed.

Lemma turn_events rnd id now rc : named (cluster rc) → evolves (cluster rc) (cluster (turn rnd id now rc)).
Proof.
  intros Hn. unfold turn. case_bool_decide; [|apply evolves_refl].
  destruct (on_runtime_slot id (Runtime.turn (rnd id) now) rc) as [E _].
  assert (Hev : evolves (cluster rc) (cluster (on_runtime id (Runtime.turn (rnd id) now) rc).2)).
  { rewrite E. destruct (Cluster.slots (cluster rc) !! id) as [s|] eqn:Es.
    - destruct (Runtime.runtime_turn_events (rnd id) tmin tmax hb ids id now (cluster rc)) as (k & Hk).
      + rewrite Es. simpl. f_equal. by apply Hn.
      + unfold Runtime.turn_on in Hk. rewrite Hk. eexists. split; [|done].
        apply Forall_cons. split; [exact I|]. apply Forall_replicate. exact I.
    - unfold Cluster.on_slot. rewrite Es. apply evolves_refl. }
  by destruct (on_runtime id (Runtime.turn (rnd id) now) rc) as [[]].
Qed.

Lemma thread_step_cluster {A} id (m : Py World_ A) rc :
  cluster (thread_step id m rc) = (Cluster.on_slot id m (cluster rc)).2.
Proof.
  unfold thread_step. destruct (on_runtime_slot id m rc) as [<- _]. by destruct (on_runtime id m rc) as [[]].
Qed.

Lemma turn_tick_cluster rnd id now rc :
  cluster (turn_tick rnd id now rc) = (Cluster.exec tmin tmax hb ids (Cluster.Tick id now) (rnd id) (cluster rc)).2.
Proof. unfold turn_tick. rewrite thread_step_cluster. simpl. by destruct (Cluster.on_slot _ _ _). Qed.

(** Calling [deliver_next] on a node is delivering the first message of its
    inbox, if there is one. *)
Lemma turn_deliver_cluster rnd id now rc : is_Some (Cluster.slots (cluster rc) !! id) →
  cluster (turn_deliver rnd id now rc) = (Cluster.exec tmin tmax hb ids (Cluster.Deliver id tt now) (rnd id) (cluster rc)).2.
Proof.
  intros [s Hs]. unfold turn_deliver. rewrite thread_step_cluster. set (w := Cluster.world s (Cluster.network (cluster rc))).
  assert (Hput : Cluster.put id w (cluster rc) = cluster rc).
  { unfold Cluster.put, w. destruct (cluster rc) as [sl net]. simpl in *. f_equal. rewrite insert_id; [done|]. by destruct s. }
  unfold Cluster.on_slot. rewrite Hs. fold w.
  destruct (Net.popleft id (Raft.transport w)) as [[e rest]|] eqn:Hp.
  - transitivity ((Cluster.exec tmin tmax hb ids (Cluster.Deliver id tt now) (rnd id) (Cluster.put id w (cluster rc))).2);
      [|by rewrite Hput].
    rewrite (Runtime.deliver_put (rnd id) tmin tmax hb ids id now w (cluster rc) e rest Hp).
    unfold Runtime.deliver_next, bind, get, modify, ret. rewrite Hp. by destruct (Raft.receive _ _ _ _) as [[[]|x] w'].
  - unfold Runtime.deliver_next, bind, get, ret. rewrite Hp. simpl. simpl in Hp. by rewrite Hp, Hput.
Qed.

Lemma turn_tick_events rnd id now rc : evolves (cluster rc) (cluster (turn_tick rnd id now rc)).
Proof. rewrite turn_tick_cluster. by apply evolves_event. Qed.

Lemma turn_deliver_events rnd id now rc : evolves (cluster rc) (cluster (turn_deliver rnd id now rc)).
Proof.
  destruct (Cluster.slots (cluster rc) !! id) as [s|] eqn:Es; [rewrite turn_deliver_cluster by (by eexists); by apply evolves_event|].
  unfold turn_deliver. rewrite thread_step_cluster. unfold Cluster.on_slot. rewrite Es. apply evolves_refl.
Qed.

Lemma env_events move rc :
  evolves (cluster rc) (Cluster.mkCluster (Cluster.slots (cluster rc)) (n_moved move (Cluster.network (cluster rc)))).
Proof. exact (evolves_event (Cluster.Env move) (λ _ x _, x) (cluster rc) I). Qed.

Lemma build_runtime_events id rc : evolves (cluster rc) (cluster (build_runtime id rc).2).
Proof.
  pose proof (evolves_event (Cluster.Restart id) (λ _ x _, x) (cluster rc) I) as H. unfold build_runtime. simpl in H.
  destruct (Cluster.slots (cluster rc) !! id) as [s|]; [exact H|apply evolves_refl].
Qed.

Lemma revive_events rnd id now rc : evolves (cluster rc) (cluster (revive rnd id now rc).2).
Proof.
  unfold revive, bind. pose proof (env_events (Net.MRejoin [id]) rc) as H1.
  destruct (on_transport (Net.rejoin [id]) rc) as [[u|x] rc1] eqn:E1; [|discriminate E1].
  assert (E : cluster rc1 = Cluster.mkCluster (Cluster.slots (cluster rc)) (n_moved (Net.MRejoin [id]) (Cluster.network (cluster rc))))
    by (by injection E1 as _ <-).
  rewrite <- E in H1. pose proof (build_runtime_events id rc1) as H2.
  destruct (build_runtime id rc1) as [[[]|x] rc2]; [|by eapply evolves_trans].
  eapply evolves_trans; [exact H1|]. eapply evolves_trans; [exact H2|]. apply start_one_events.
Qed.

(** Whatever the threads and the callers of the cluster do, the nodes go
    through a run of the events of Cluster.v. *)
Definition op_allowed (op : Op) : Prop := match op with ProposeAt _ c _ => allowed c | _ => True end.

Lemma exec_events op rnd rc : op_allowed op → named (cluster rc) → evolves (cluster rc) (cluster (exec op rnd rc)).
Proof.
  intros Hop Hn. destruct op as [id now|id now|id now|id|id now|now| |id c now]; simpl.
  - by apply turn_events.
  - apply turn_tick_events.
  - apply turn_deliver_events.
  - unfold kill, bind, get. case_bool_decide; simpl; [|apply evolves_refl]. apply (env_events (Net.MPartition [id])).
  - apply revive_events.
  - apply start_events.
  - unfold stop. rewrite stop_cluster. apply evolves_refl.
  - rewrite (proj1 (on_runtime_slot id (Runtime.propose c now) rc)). by apply propose_slot_events.
Qed.

Lemma ops_events ops : Forall (λ op, op_allowed op.1) ops → ∀ rc, named (cluster rc) → evolves (cluster rc) (cluster (run ops rc)).
Proof.
  induction 1 as [|op ops Hop _ IH]; intros rc Hn; [apply evolves_refl|]. simpl.
  pose proof (exec_events op.1 op.2 rc Hop Hn) as H1. eapply evolves_trans; [exact H1|].
  apply IH. by eapply named_evolves.
Qed.

Lemma init_named sm : named (cluster (init sm)).
Proof.
  unfold init, Cluster.init. simpl.
  assert (H : ∀ l cl, named cl → named (foldl (λ cl id, Cluster.put id
    (Cluster.build_node tmin tmax hb ids id Storage.init sm (Cluster.network cl)) cl) cl l)).
  { induction l as [|id l IH]; intros cl Hc; [done|]. simpl. apply IH. by apply named_put. }
  apply H. intros id s Hs. simpl in Hs. by rewrite lookup_empty in Hs.
Qed.

End histories.

Lemma history_slots ops sm id : NoDup ids → id ∈ ids → is_Some (Cluster.slots (cluster (run ops (init sm))) !! id).
Proof.
  intros Hids Hid. destruct (ops_events (λ _, True) ops) with (rc := init sm) as (evs & Hev & E).
  - apply Forall_forall. by intros [[] ?].
  - apply init_named.
  - rewrite E. destruct (Cluster.run_refines tmin tmax hb ids Hids sm (λ _, True) evs (cluster (init sm)) Spec.initial) as (G & Hf & _).
    + apply Cluster.init_refines; [done|apply Net.queued_init].
    + done.
    + by apply (Cluster.f_slots _ _ _ _ _ Hf).
Qed.

(** ** No node sends to itself *)

(** No node is its own peer, and no inbox holds a message of its owner. *)
Record clean cl : Prop := {
  clean_named : named cl;
  clean_peers id s : Cluster.slots cl !! id = Some s → id ∉ Raft.peer_ids (Cluster.slot_node s);
  clean_inbox id e : e ∈ Net.inbox id (Cluster.network cl) → env_sender e ≠ id
}.

Lemma clean_no_echo id s cl : clean cl → Cluster.slots cl !! id = Some s →
  Runtime.no_echo id (Cluster.world s (Cluster.network cl)).
Proof. intros Hc Hs. split; [by apply (clean_named _ Hc)|]. split; [by eapply clean_peers|by apply clean_inbox]. Qed.

Lemma inbox_sent_by s msgs id e : ∀ t : T,
  Forall (λ m, m.1 ≠ s) msgs → (∀ e, e ∈ Net.inbox id t → env_sender e ≠ id) →
  e ∈ Net.inbox id (Frame.sent_by s msgs t) → env_sender e ≠ id.
Proof.
  induction msgs as [|[r m] msgs IH]; intros t Hm Ht; [by apply Ht|]. apply Forall_cons in Hm as [Hr Hm].
  apply IH; [done|]. clear IH. intros x. simpl. unfold Net.send. case_match; [by apply Ht|].
  rewrite Net.inbox_insert. destruct (decide (id = r)) as [->|]; [|by apply Ht]. simpl in Hr.
  intros [Hx|Hx%list_elem_of_singleton]%elem_of_app; [by apply Ht|]. subst x. simpl. intros E. by apply Hr.
Qed.

Lemma clean_on_slot {A} id (m : Py World_ A) cl :
  (∀ w, Frame.framed (λ p, p ≠ id) m w) → clean cl → clean (Cluster.on_slot id m cl).2.
Proof.
  intros Hm [Hn Hp Hi]. unfold Cluster.on_slot. destruct (Cluster.slots cl !! id) as [s|] eqn:E; [|done].
  destruct (Hm (Cluster.world s (Cluster.network cl))) as [I P (msgs & Hok & Ht)].
  { intros p Hin ->. by apply (Hp _ _ E). }
  destruct (m _) as [r w]. simpl in *. split.
  - apply named_put; [done|]. rewrite I. by apply Hn.
  - unfold Cluster.put. simpl. intros id' s' [[<- <-]|[_ Hs']]%lookup_insert_Some; [simpl; rewrite P; by apply Hp|by eapply Hp].
  - intros id' e. simpl. rewrite Ht. rewrite (Hn _ _ E). apply inbox_sent_by; [done|]. apply Hi.
Qed.

Lemma clean_build id st sm cl : clean cl →
  clean (Cluster.put id (Cluster.build_node tmin tmax hb ids id st sm (Cluster.network cl)) cl).
Proof.
  intros [Hn Hp Hi]. split.
  - by apply named_put.
  - unfold Cluster.put. simpl. intros id' s' [[<- <-]|[_ Hs']]%lookup_insert_Some; [|by eapply Hp]. simpl.
    unfold Cluster.peers. rewrite list_elem_of_filter. by intros [].
  - intros id' e. simpl. unfold Net.register. destruct (Net.inboxes _ !! id) eqn:E; [apply Hi|].
    rewrite Net.inbox_insert. destruct (decide _); [by intros ?%not_elem_of_nil|apply Hi].
Qed.

Lemma clean_exec ev rnd cl : clean cl → clean (Cluster.exec tmin tmax hb ids ev rnd cl).2.
Proof.
  intros Hc. destruct ev as [id now|id now|id choice now|id c now|id|move]; simpl.
  - pose proof (clean_on_slot id (Raft.start rnd now) cl (λ w, Frame.framed_start rnd _ now w) Hc).
    by destruct (Cluster.on_slot _ _ _).
  - pose proof (clean_on_slot id (Raft.tick rnd now) cl (λ w, Frame.framed_tick rnd _ now w) Hc).
    by destruct (Cluster.on_slot _ _ _).
  - unfold Net.popleft. destruct (Net.inbox id (Cluster.network cl)) as [|e l] eqn:E; [done|].
    assert (Hc1 : clean (Cluster.mkCluster (Cluster.slots cl)
      (Net.mkTransport (<[id := l]> (Net.inboxes (Cluster.network cl))) (Net.partitioned (Cluster.network cl))))).
    { destruct Hc as [Hn Hp Hi]. split; [done|done|]. intros id' x. simpl. rewrite Net.inbox_insert.
      destruct (decide (id' = id)) as [->|]; [|by apply Hi]. intros Hx. apply Hi. rewrite E. by right. }
    assert (He : env_sender e ≠ id) by (apply (clean_inbox _ Hc); rewrite E; left).
    pose proof (clean_on_slot id (Raft.receive rnd e now) _ (λ w, Frame.framed_receive rnd _ e now w He) Hc1).
    by destruct (Cluster.on_slot _ _ _).
  - pose proof (clean_on_slot id (Raft.propose c now) cl (λ w, Frame.framed_propose _ c now w) Hc).
    by destruct (Cluster.on_slot _ _ _).
  - destruct (Cluster.slots cl !! id) as [s|] eqn:E; [|done]. by apply clean_build.
  - destruct Hc as [Hn Hp Hi]. split; [done|done|]. intros id e. destruct move; apply Hi.
Qed.

Lemma clean_evolves allowed cl cl' : evolves allowed cl cl' → clean cl → clean cl'.
Proof.
  intros (evs & _ & ->). revert cl. induction evs as [|ev evs IH]; intros cl Hc; [done|]. simpl.
  by apply IH, clean_exec.
Qed.

Lemma init_clean sm : clean (cluster (init sm)).
Proof.
  unfold init, Cluster.init. simpl.
  assert (H : ∀ l cl, clean cl → clean (foldl (λ cl id, Cluster.put id
    (Cluster.build_node tmin tmax hb ids id Storage.init sm (Cluster.network cl)) cl) cl l)).
  { induction l as [|id l IH]; intros cl Hc; [done|]. simpl. by apply IH, clean_build. }
  apply H. split; [intros ? ?; simpl; by rewrite lookup_empty..|]. intros id e. unfold Net.inbox. simpl.
  by intros ?%not_elem_of_nil.
Qed.

(** ** The client *)

Section client_lemmas.
Variable others : nat → list (Op * Draws).
Variable clock : nat → float.
Abbreviation K := (Py Client).
Implicit Types w : Client.

(** What the other threads do in the next [n] accesses. *)
Definition elapsed (n : nat) w : RaftCluster := run (concat (others <$> seq (accesses w) n)) (shared w).

Lemma elapsed_one w : elapsed 1 w = elapse others w.
Proof. unfold elapsed, elapse. simpl. by rewrite app_nil_r. Qed.

(** Only the other threads and the clock act between [w] and [w']. *)
Definition quiet w w' : Prop :=
  ∃ n, shared w' = elapsed n w ∧ accesses w' = (accesses w + n)%nat.

Lemma quiet_refl w : quiet w w.
Proof. exists O. split; [done|lia]. Qed.

Lemma quiet_trans w1 w2 w3 : quiet w1 w2 → quiet w2 w3 → quiet w1 w3.
Proof.
  intros (n & E1 & A1) (m & E2 & A2). exists (n + m)%nat. split; [|lia]. rewrite E2. unfold elapsed, run.
  rewrite E1, A1, seq_app, fmap_app, concat_app, foldl_app. done.
Qed.

Lemma quiet_one w last : quiet w (mkClient (elapse others w) last (Datatypes.S (accesses w))).
Proof. exists 1%nat. split; [by rewrite elapsed_one|simpl; lia]. Qed.

(** Reading an attribute of a node changes nothing. *)
Lemma on_runtime_get {A} id (f : World_ → A) rc :
  on_runtime id (get f) rc =
    (match Cluster.slots (cluster rc) !! id with
     | Some s => Ok (f (Cluster.world s (Cluster.network (cluster rc))))
     | None => Raise KeyError
     end, rc).
Proof.
  unfold on_runtime. destruct (Cluster.slots (cluster rc) !! id) as [s|] eqn:E; [|done]. simpl.
  destruct rc as [[sl net] ru]. unfold with_cluster, Cluster.put. simpl in *. rewrite insert_id; [done|]. by destruct s.
Qed.

Lemma on_runtime_read {A} id (f : Raft.RaftNode → A) rc :
  on_runtime id (Raft.gets f) rc =
    (match Cluster.slots (cluster rc) !! id with Some s => Ok (f (Cluster.slot_node s)) | None => Raise KeyError end, rc).
Proof. unfold Raft.gets. rewrite on_runtime_get. by destruct (Cluster.slots (cluster rc) !! id). Qed.

Lemma access_read {A} (m : Py RaftCluster A) w : (∀ rc, (m rc).2 = rc) →
  access others m w = ((m (elapse others w)).1, mkClient (elapse others w) (last_known_leader w) (Datatypes.S (accesses w))).
Proof. intros Hm. unfold access. specialize (Hm (elapse others w)). destruct (m _) as [r rc]. simpl in Hm. by subst rc. Qed.

Definition leads_in id rc : bool :=
  match Cluster.slots (cluster rc) !! id with Some s => Raft.is_leader (Cluster.slot_node s) | None => false end.

(** The nodes of [ids] exist. *)
Definition has_slots rc : Prop := ∀ id, id ∈ ids → is_Some (Cluster.slots (cluster rc) !! id).

(** The shape of every result of the search for a leader. *)
Definition found (id : string) w : Prop := leads_in id (shared w) = true ∧ id ∈ ids.

Lemma alive_leader_spec id w :
  (∀ n, has_slots (elapsed n w)) → id ∈ ids →
  ∃ b w', alive_leader others id w = (Ok b, w') ∧ quiet w w' ∧ last_known_leader w' = last_known_leader w ∧
    (accesses w < accesses w')%nat ∧ (b = true → leads_in id (shared w') = true).
Proof.
  intros Hs Hid. unfold alive_leader, bind, alive. rewrite access_read by done. simpl.
  set (w1 := mkClient (elapse others w) (last_known_leader w) (Datatypes.S (accesses w))).
  destruct (is_alive id (elapse others w)).
  - unfold leads. rewrite access_read by (intros rc; unfold Runtime.is_leader; by rewrite on_runtime_read).
    unfold Runtime.is_leader. rewrite on_runtime_read. simpl.
    pose proof (Hs 2%nat id Hid) as [s Hsl].
    assert (E : elapsed 2 w = elapse others w1).
    { unfold elapsed, elapse, run. simpl. rewrite app_nil_r, foldl_app. done. }
    rewrite E in Hsl. rewrite Hsl. eexists _, _. split; [reflexivity|].
    split; [eapply quiet_trans; apply quiet_one|]. split; [done|]. split; [simpl; lia|].
    simpl. intros Hl. unfold leads_in. by rewrite Hsl.
  - eexists false, _. split; [reflexivity|]. split; [apply quiet_one|]. split; [done|]. split; [simpl; lia|done].
Qed.

Lemma has_slots_later w w' : quiet w w' → (∀ n, has_slots (elapsed n w)) → ∀ n, has_slots (elapsed n w').
Proof.
  intros (m & E & A) Hs n. specialize (Hs (m + n)%nat). unfold elapsed, run in *.
  by rewrite E, A, <- foldl_app, <- concat_app, <- fmap_app, <- seq_app.
Qed.

Lemma scan_spec l : ∀ w, (∀ n, has_slots (elapsed n w)) → (∀ id, id ∈ l → id ∈ ids) →
  ∃ r w', scan others l w = (Ok r, w') ∧ quiet w w' ∧ (accesses w ≤ accesses w')%nat ∧
    match r with Some id => found id w' ∧ last_known_leader w' = Some id | None => True end.
Proof.
  induction l as [|id l IH]; intros w Hs Hl; simpl.
  { exists None, w. split; [done|]. split; [apply quiet_refl|]. split; [lia|done]. }
  destruct (alive_leader_spec id w Hs (Hl id (list_elem_of_here _ _))) as (b & w1 & E & Hq & _ & Ha & Hb).
  unfold bind. rewrite E. destruct b.
  - eexists (Some id), _. split; [reflexivity|]. simpl. split; [exact Hq|]. split; [lia|]. split; [|done].
    split; [by apply Hb|]. apply Hl. left.
  - destruct (IH w1) as (r & w2 & E2 & Hq2 & Ha2 & Hr); [by eapply has_slots_later|intros i Hi; apply Hl; by right|].
    exists r, w2. split; [done|]. split; [by eapply quiet_trans|]. split; [lia|done].
Qed.

Lemma cached_spec w : (∀ n, has_slots (elapsed n w)) →
  ∃ r w', cached_leader others w = (Ok r, w') ∧ quiet w w' ∧ (accesses w ≤ accesses w')%nat ∧
    match r with Some id => found id w' ∧ last_known_leader w' = Some id | None => True end.
Proof.
  intros Hs. unfold cached_leader, bind, get. destruct (last_known_leader w) as [id|] eqn:El.
  2: { exists None, w. split; [done|]. split; [apply quiet_refl|]. split; [lia|done]. }
  case_bool_decide as Hid.
  2: { exists None, w. split; [done|]. split; [apply quiet_refl|]. split; [lia|done]. }
  destruct (alive_leader_spec id w Hs Hid) as (b & w1 & E & Hq & Hll & Ha & Hb). rewrite E.
  eexists _, w1. split; [reflexivity|]. split; [done|]. split; [lia|]. destruct b; [|done].
  split; [by split; [apply Hb|]|]. by rewrite Hll.
Qed.

(** [find_leader] answers with a node that is the leader when it is read last,
    or with nothing once the clock has reached the deadline. *)
Lemma find_loop_spec fuel deadline : ∀ w, (∀ n, has_slots (elapsed n w)) →
  ∃ r w', find_loop others clock fuel deadline w = (r, w') ∧ quiet w w' ∧ (accesses w ≤ accesses w')%nat ∧
    match r with
    | Ok (Some id) => found id w' ∧ last_known_leader w' = Some id
    | Ok None => (accesses w < accesses w')%nat ∧ F.ge (clock (accesses w' - 1)) deadline = true
    | Raise x => x = OutOfFuel ∧ ∀ m, (∀ k, (m ≤ k)%nat → F.ge (clock k) deadline = true) →
        (fuel + accesses w ≤ Nat.max m (accesses w))%nat
    end.
Proof.
  induction fuel as [|fuel IH]; intros w Hs; simpl.
  { eexists _, w. split; [reflexivity|]. split; [apply quiet_refl|]. split; [lia|]. split; [done|]. intros. lia. }
  destruct (cached_spec w Hs) as (c & w1 & E1 & Q1 & A1 & R1). unfold bind at 1. rewrite E1.
  destruct c as [id|].
  { eexists _, w1. split; [reflexivity|]. by split. }
  destruct (scan_spec ids w1 (has_slots_later _ _ Q1 Hs)) as (f & w2 & E2 & Q2 & A2 & R2); [done|].
  unfold bind at 1. rewrite E2. pose proof (quiet_trans _ _ _ Q1 Q2) as Q12. destruct f as [id|].
  { eexists _, w2. split; [reflexivity|]. split; [done|]. split; [lia|done]. }
  unfold bind, monotonic. pose proof (quiet_one w2 (last_known_leader w2)) as Q3.
  set (w3 := mkClient _ _ _) in *. pose proof (quiet_trans _ _ _ Q12 Q3) as Q13.
  assert (A3 : accesses w3 = Datatypes.S (accesses w2)) by done.
  destruct (F.ge (clock (accesses w2)) deadline) eqn:Hge.
  { eexists _, w3. split; [reflexivity|]. split; [done|]. split; [lia|]. split; [lia|].
    rewrite A3. simpl. by rewrite Nat.sub_0_r. }
  destruct (IH w3 (has_slots_later _ _ Q13 Hs)) as (r & w4 & E4 & Q4 & A4 & R4).
  exists r, w4. split; [done|]. split; [by eapply quiet_trans|]. split; [lia|].
  destruct r as [[id|]|x]; [done|split; [lia|apply R4]|]. destruct R4 as [-> Hk]. split; [done|]. intros m Hm. specialize (Hk m Hm).
  destruct (Nat.le_gt_cases m (accesses w2)) as [Hle|]; [rewrite Hm in Hge by done; done|lia].
Qed.

Lemma find_leader_spec fuel timeout w : (∀ n, has_slots (elapsed n w)) →
  ∃ r w', find_leader others clock fuel timeout w = (r, w') ∧ quiet w w' ∧ (accesses w < accesses w')%nat ∧
    match r with
    | Ok (Some id) => found id w' ∧ last_known_leader w' = Some id
    | Ok None => (Datatypes.S (accesses w) < accesses w')%nat ∧
        F.ge (clock (accesses w' - 1)) (F.add (clock (accesses w)) timeout) = true
    | Raise x => x = OutOfFuel ∧
        ∀ m, (∀ k, (m ≤ k)%nat → F.ge (clock k) (F.add (clock (accesses w)) timeout) = true) → (fuel ≤ m)%nat
    end.
Proof.
  intros Hs. unfold find_leader, bind, monotonic. pose proof (quiet_one w (last_known_leader w)) as Q1.
  set (w1 := mkClient _ _ _) in *.
  destruct (find_loop_spec fuel (F.add (clock (accesses w)) timeout) w1 (has_slots_later _ _ Q1 Hs)) as (r & w2 & E & Q2 & A2 & R2).
  exists r, w2. rewrite E. split; [done|]. split; [by eapply quiet_trans|].
  change (accesses w1) with (Datatypes.S (accesses w)) in *. split; [lia|].
  destruct r as [[id|]|x]; [done|done|]. destruct R2 as [-> Hk]. split; [done|]. intros m Hm. specialize (Hk m Hm). lia.
Qed.

(** A proposal at a node that does not lead changes nothing; at a leader it
    appends the command to the leader's log. *)
Lemma propose_cases id c now rc :
  match Cluster.slots (cluster rc) !! id with
  | None => on_runtime id (Runtime.propose c now) rc = (Raise KeyError, rc)
  | Some s =>
      if Raft.is_leader (Cluster.slot_node s) then
        let st := Cluster.slot_storage s in
        let e := mkEntry (Storage.current_term st) (zlen (Storage.entries st) + 1) c in
        ∃ rc' s', on_runtime id (Runtime.propose c now) rc = (Ok (Some e), rc') ∧
          Cluster.slots (cluster rc') !! id = Some s' ∧
          Cluster.slot_storage s' = Storage.append [e] st
      else on_runtime id (Runtime.propose c now) rc = (Ok None, rc)
  end.
Proof.
  unfold on_runtime, Runtime.propose. destruct (Cluster.slots (cluster rc) !! id) as [s|] eqn:Es; [|done].
  pose proof (Frame.propose_effect c now (Cluster.world s (Cluster.network (cluster rc)))) as Hp.
  change (Raft.node (Cluster.world s (Cluster.network (cluster rc)))) with (Cluster.slot_node s) in Hp.
  destruct (Raft.is_leader (Cluster.slot_node s)).
  - destruct Hp as (w' & -> & Hst). eexists _, _. split; [reflexivity|]. simpl. by rewrite lookup_insert_eq.
  - rewrite Hp. destruct rc as [[sl net] ru]. unfold with_cluster, Cluster.put. simpl in *.
    rewrite insert_id; [done|]. by destruct s.
Qed.

(** [c] was appended to the log of a node that leads, after the others had
    acted, and nothing happened since. *)
Definition appended (c : C) (e : LogEntry C) w w' : Prop := ∃ n id s s',
  Cluster.slots (cluster (elapsed n w)) !! id = Some s ∧ Raft.state (Cluster.slot_node s) = LEADER ∧ id ∈ ids ∧
  e = mkEntry (Storage.current_term (Cluster.slot_storage s)) (zlen (Storage.entries (Cluster.slot_storage s)) + 1) c ∧
  shared w' = (on_runtime id (Runtime.propose c (clock (accesses w' - 1))) (elapsed n w)).2 ∧
  Cluster.slots (cluster (shared w')) !! id = Some s' ∧
  Cluster.slot_storage s' = Storage.append [e] (Cluster.slot_storage s) ∧
  last_known_leader w' = Some id.

Lemma appended_later c e w w1 w2 : quiet w w1 → appended c e w1 w2 → appended c e w w2.
Proof.
  intros (n & E & A) (n' & id & s & s' & H). exists (n + n')%nat, id, s, s'.
  assert (Hel : elapsed (n + n') w = elapsed n' w1).
  { unfold elapsed, run in E |- *. by rewrite E, A, <- foldl_app, <- concat_app, <- fmap_app, <- seq_app. }
  by rewrite Hel.
Qed.

Lemma propose_at_spec id c w : (∀ n, has_slots (elapsed n w)) → id ∈ ids → last_known_leader w = Some id →
  ∃ r w', propose_at others clock id c w = (Ok r, w') ∧ accesses w' = Datatypes.S (accesses w) ∧
    match r with
    | Some e => appended c e w w'
    | None => quiet w w'
    end.
Proof.
  intros Hs Hid Hl. unfold propose_at, access. pose proof (propose_cases id c (clock (accesses w)) (elapse others w)) as Hp.
  pose proof (elapsed_one w) as E1.
  pose proof (Hs 1%nat id Hid) as [s Hsl]. rewrite E1 in Hsl. rewrite Hsl in Hp.
  unfold Raft.is_leader in Hp. case_bool_decide as Hst.
  - destruct Hp as (rc' & s' & E & Hs' & Hsto).
    exists (Some (mkEntry (Storage.current_term (Cluster.slot_storage s)) (zlen (Storage.entries (Cluster.slot_storage s)) + 1) c)),
      (mkClient rc' (last_known_leader w) (Datatypes.S (accesses w))).
    split; [by rewrite E|]. split; [done|]. exists 1%nat, id, s, s'. rewrite E1. simpl (shared _).
    split; [done|]. split; [done|]. split; [done|]. split; [done|]. split; [|by split].
    simpl. rewrite Nat.sub_0_r. exact (eq_sym (f_equal snd E)).
  - rewrite Hp. eexists None, _. split; [reflexivity|]. split; [done|]. apply quiet_one.
Qed.

(** From the [m]-th reading on the clock is past [deadline], and from the
    [n]-th on past every deadline of a search that starts before. *)
Definition expires (deadline : float) (m n : nat) : Prop :=
  (∀ k, (m ≤ k)%nat → F.lt (clock k) deadline = false) ∧
  ∀ i j k, (i ≤ m)%nat → (j ≤ m + 1)%nat → (n ≤ k)%nat →
    F.ge (clock k) (F.add (clock j) (F.max F.zero (F.sub deadline (clock i)))) = true.

(** The last thing the call did was to read the clock: at the test of the loop
    and not before [deadline], or at the end of a search for a leader and past
    the deadline of that search, which is what was left of the time when it
    began; a search only begins when the test before it was passed. *)
Definition timed_out (deadline : float) w w' : Prop :=
  (accesses w < accesses w')%nat ∧
  let k := (accesses w' - 1)%nat in
  (F.lt (clock k) deadline = false ∨
   ∃ i, (accesses w < i)%nat ∧ (i + 1 < k)%nat ∧ F.lt (clock (i - 1)) deadline = true ∧
     F.ge (clock k) (F.add (clock (i + 1)) (F.max F.zero (F.sub deadline (clock i)))) = true).

Lemma timed_out_later deadline w w1 w2 : (accesses w ≤ accesses w1)%nat → timed_out deadline w1 w2 → timed_out deadline w w2.
Proof.
  intros Ha [H1 H2]. split; [lia|]. destruct H2 as [H2|(i & Hi & H2)]; [by left|right]. exists i. split; [lia|done].
Qed.

Lemma propose_loop_spec fuel find_fuel c deadline : ∀ w, (∀ n, has_slots (elapsed n w)) →
  ∃ r w', propose_loop others clock fuel find_fuel c deadline w = (r, w') ∧
    match r with
    | Ok e => appended c e w w' ∧ F.lt (clock (accesses w)) deadline = true
    | Raise x => quiet w w' ∧
        (x = no_leader ∧ timed_out deadline w w' ∨
         x = OutOfFuel ∧ ∀ m n, expires deadline m n → (n < find_fuel)%nat → (fuel + accesses w ≤ Nat.max m (accesses w))%nat)
    end.
Proof.
  induction fuel as [|fuel IH]; intros w Hs; simpl.
  { eexists _, w. split; [reflexivity|]. split; [apply quiet_refl|]. right. split; [done|]. intros. lia. }
  unfold bind at 1, monotonic at 1. pose proof (quiet_one w (last_known_leader w)) as Q1.
  set (w1 := mkClient _ _ _) in *. destruct (F.lt (clock (accesses w)) deadline) eqn:Hlt; simpl.
  2: { eexists _, w1. split; [reflexivity|]. split; [done|]. left. split; [done|].
    split; [simpl; lia|]. left. simpl. by rewrite Nat.sub_0_r. }
  unfold bind at 1, monotonic at 1. pose proof (quiet_one w1 (last_known_leader w1)) as Q2.
  set (w2 := mkClient (elapse others w1) _ _) in *. pose proof (quiet_trans _ _ _ Q1 Q2) as Q12. clear Q2.
  assert (A2 : accesses w2 = Datatypes.S (Datatypes.S (accesses w))) by done.
  unfold bind at 1. destruct (find_leader_spec find_fuel (F.max F.zero (F.sub deadline (clock (accesses w1)))) w2
    (has_slots_later _ _ Q12 Hs)) as (r & w3 & E3 & Q3 & A3 & R3). rewrite E3.
  pose proof (quiet_trans _ _ _ Q12 Q3) as Q13. destruct r as [[id|]|x].
  - destruct R3 as [[_ Hid] Hl]. unfold bind at 1.
    destruct (propose_at_spec id c w3 (has_slots_later _ _ Q13 Hs) Hid Hl) as (r & w4 & E4 & A4 & R4). rewrite E4.
    destruct r as [e|].
    { eexists _, w4. split; [reflexivity|]. split; [by eapply appended_later|done]. }
    pose proof (quiet_trans _ _ _ Q13 R4) as Q14. unfold bind, set_last, modify. set (w5 := mkClient _ _ _).
    assert (Q15 : quiet w w5) by (destruct Q14 as (n & ? & ?); by exists n).
    destruct (IH w5 (has_slots_later _ _ Q15 Hs)) as (r & w6 & E6 & R6). exists r, w6. split; [done|].
    assert (A15 : (accesses w ≤ accesses w5)%nat) by (change (accesses w5) with (accesses w4); lia).
    destruct r as [e|x]; [split; [eapply appended_later; [done|apply R6]|done]|].
    destruct R6 as [Q6 R6]. split; [by eapply quiet_trans|].
    destruct R6 as [[-> R6]|[-> R6]]; [left; split; [done|by eapply timed_out_later]|]. right. split; [done|].
    intros m n Hm Hn. specialize (R6 m n Hm Hn). change (accesses w5) with (accesses w4) in R6.
    destruct (Nat.le_gt_cases m (accesses w)) as [Hle|]; [|lia]. by rewrite (proj1 Hm) in Hlt.
  - eexists _, w3. split; [reflexivity|]. split; [done|]. left. split; [done|].
    destruct R3 as (Hlast & Hk). split; [lia|]. right. exists (Datatypes.S (accesses w)).
    split; [lia|]. split; [lia|]. split; [by rewrite Nat.sub_succ, Nat.sub_0_r|].
    replace (Datatypes.S (accesses w) + 1)%nat with (accesses w2) by lia. exact Hk.
  - destruct R3 as [-> R3]. eexists _, w3. split; [reflexivity|]. split; [done|]. right. split; [done|].
    intros m n [Hm Hn] Hf. destruct (Nat.le_gt_cases m (accesses w)) as [Hle|Hgt]; [by rewrite Hm in Hlt|].
    specialize (R3 n). exfalso. enough (find_fuel ≤ n)%nat by lia. apply R3. intros k Hk. apply Hn; [change (accesses w1) with (Datatypes.S (accesses w)); lia|lia|done].
Qed.

Lemma propose_spec fuel c timeout w : (∀ n, has_slots (elapsed n w)) →
  let deadline := F.add (clock (accesses w)) timeout in
  ∃ r w', propose others clock fuel c timeout w = (r, w') ∧
    match r with
    | Ok e => appended c e w w' ∧ F.lt (clock (Datatypes.S (accesses w))) deadline = true
    | Raise x => quiet w w' ∧
        (x = no_leader ∧ timed_out deadline w w' ∨
         x = OutOfFuel ∧ ∀ m n, expires deadline m n → (fuel ≤ Nat.max m n)%nat)
    end.
Proof.
  intros Hs deadline. unfold propose, bind at 1, monotonic at 1. pose proof (quiet_one w (last_known_leader w)) as Q1.
  set (w1 := mkClient _ _ _) in *. fold deadline.
  destruct (propose_loop_spec fuel fuel c deadline w1 (has_slots_later _ _ Q1 Hs)) as (r & w2 & E & R).
  exists r, w2. split; [exact E|]. assert (A1 : (accesses w ≤ accesses w1)%nat) by (simpl; lia).
  destruct r as [e|x]; [split; [eapply appended_later; [done|apply R]|apply R]|]. destruct R as [Q2 R].
  split; [by eapply quiet_trans|]. destruct R as [[-> R]|[-> R]]; [left; split; [done|by eapply timed_out_later]|]. right. split; [done|].
  intros m n Hmn. destruct (Nat.le_gt_cases fuel n) as [|Hn]; [lia|]. specialize (R m n Hmn Hn). lia.
Qed.
End client_lemmas.

End raft_cluster.

(** The interface the settlement submitter proposes through. *)
Section proposer.
Context {S : Type} {Hsm : StateMachine LedgerEntry S}.
Definition proposer (tmin tmax hb : float) (ids : list string)
    (others : nat → list (Op (C := LedgerEntry) * Draws)) (clock : nat → float) (fuel : nat) :
    Proposer (Client (C := LedgerEntry) (S := S)) := λ entry timeout,
  (propose tmin tmax hb ids others clock fuel entry timeout ;;; ret tt)%py.
End proposer.

Arguments RaftCluster C S : clear implicits.
Arguments Op C : clear implicits.
Arguments Client C S : clear implicits.
End RaftCluster.
