(* ===== verification/RaftTurn.v ===== *)
(** * A turn of a node's thread among the other threads

    While [deliver_to] empties a node's inbox, the other nodes may send to it:
    the lock of the runtime keeps callers out, not messages.  The turn of
    RaftCluster.v with its interleaving: it is a run of operations, it takes
    the messages in the order of their arrival, and it ends when nobody sends
    any more. *)

From stdpp Require Import base gmap strings list.
From Stdlib Require Import ZArith Lia.
From S2P Require Import Prelude PyFloat StateMachine RaftTypes Storage Transport RaftNode RaftFrame.
From S2P Require Import RaftSpec RaftRefine Cluster Runtime RaftCluster.

Local Open Scope Z_scope.

Module RaftTurn.
Section turn.
Context {C S : Type} {Hsm : StateMachine C S}.
Variables tmin tmax hb : float.
Variable ids : list string.

Abbreviation T := (Net.InMemoryTransport C).
Abbreviation Cl := (Cluster.Cluster C S T).
Abbreviation World := (Raft.World C S T).
Abbreviation Op := (RaftCluster.Op C).
Abbreviation RC := (RaftCluster.RaftCluster C S).
Abbreviation exec_event := (Cluster.exec tmin tmax hb ids).
Abbreviation run_ops := (RaftCluster.run (S := S) tmin tmax hb ids).
Abbreviation inbox id cl := (Net.inbox id (Cluster.network cl)).
Implicit Types (cl : Cl) (rc : RC).

(** ** What others do to an inbox *)

Lemma sent_by_prefix id s msgs : ∀ t : T, Net.inbox id t `prefix_of` Net.inbox id (Frame.sent_by s msgs t).
Proof.
  induction msgs as [|[r m] msgs IH]; intros t; [done|]. etrans; [|apply IH]. simpl. unfold Net.send.
  destruct (_ || _); [done|]. rewrite Net.inbox_insert. case_decide as E; [rewrite E; by apply prefix_app_r|done].
Qed.

Lemma on_slot_prefix {A} id i (m : Py World A) cl : (∀ w, Frame.framed (λ _, True) m w) →
  inbox id cl `prefix_of` inbox id (Cluster.on_slot i m cl).2.
Proof.
  intros Hm. unfold Cluster.on_slot. destruct (Cluster.slots cl !! i) as [s|]; [|done].
  destruct (Hm (Cluster.world s (Cluster.network cl)) (λ _ _, I)) as [_ _ (msgs & _ & Ht)].
  destruct (m _) as [r w]. simpl in *. rewrite Ht. apply sent_by_prefix.
Qed.

Lemma tick_prefix id i rnd now cl : inbox id cl `prefix_of` inbox id (exec_event (Cluster.Tick i now) rnd cl).2.
Proof.
  pose proof (on_slot_prefix id i (Raft.tick rnd now) cl (λ w, Frame.framed_tick rnd _ now w)) as H.
  simpl. by destruct (Cluster.on_slot _ _ _).
Qed.

Lemma deliver_prefix id i rnd now cl : i ≠ id → inbox id cl `prefix_of` inbox id (exec_event (Cluster.Deliver i tt now) rnd cl).2.
Proof.
  intros Hi. simpl. unfold Net.popleft. destruct (Net.inbox i (Cluster.network cl)) as [|e l] eqn:E; [done|].
  set (t := Net.mkTransport _ _).
  pose proof (on_slot_prefix id i (Raft.receive rnd e now) (Cluster.mkCluster (Cluster.slots cl) t)
    (λ w, Frame.framed_receive rnd _ e now w I)) as H. simpl in H.
  assert (Ht : Net.inbox id t = inbox id cl) by (unfold t; rewrite Net.inbox_insert; by rewrite decide_False).
  rewrite Ht in H. by destruct (Cluster.on_slot _ _ _).
Qed.

Lemma deliveries_prefix id i rnd now k : i ≠ id → ∀ cl,
  inbox id cl `prefix_of` inbox id (Cluster.run tmin tmax hb ids (replicate k (Runtime.delivery rnd i now)) cl).
Proof.
  intros Hi. unfold Cluster.run. induction k as [|k IH]; intros cl; [done|]. cbn [replicate foldl].
  etrans; [by apply (deliver_prefix id i rnd now)|]. apply IH.
Qed.

Lemma turn_prefix id i rnd now rc : RaftCluster.named (RaftCluster.cluster rc) → i ≠ id →
  inbox id (RaftCluster.cluster rc) `prefix_of` inbox id (RaftCluster.cluster (RaftCluster.turn rnd i now rc)).
Proof.
  intros Hn Hi. unfold RaftCluster.turn. case_bool_decide as Hr; [|done].
  destruct (RaftCluster.on_runtime_slot i (Runtime.turn (rnd i) now) rc) as [E _].
  assert (H : inbox id (RaftCluster.cluster rc) `prefix_of` inbox id (RaftCluster.cluster (RaftCluster.on_runtime i (Runtime.turn (rnd i) now) rc).2)).
  { rewrite E. destruct (Cluster.slots (RaftCluster.cluster rc) !! i) as [s|] eqn:Es; [|by unfold Cluster.on_slot; rewrite Es].
    destruct (Runtime.runtime_turn_events (rnd i) tmin tmax hb ids i now (RaftCluster.cluster rc)) as (k & Hk).
    { rewrite Es. simpl. f_equal. by apply Hn. }
    unfold Runtime.turn_on in Hk. rewrite Hk. etrans; [apply (tick_prefix id i (rnd i) now)|].
    by apply deliveries_prefix. }
  by destruct (RaftCluster.on_runtime i (Runtime.turn (rnd i) now) rc) as [[]].
Qed.

Lemma build_prefix id i rc : inbox id (RaftCluster.cluster rc) `prefix_of`
  inbox id (RaftCluster.cluster (RaftCluster.build_runtime tmin tmax hb ids i rc).2).
Proof.
  unfold RaftCluster.build_runtime. destruct (Cluster.slots _ !! i) as [s|]; [|done]. simpl. unfold Net.register.
  destruct (Net.inboxes _ !! i) as [q|] eqn:Eq; [done|]. rewrite Net.inbox_insert. case_decide as E; [|done].
  rewrite E. unfold Net.inbox. by rewrite Eq.
Qed.

Lemma start_one_prefix id i rnd now rc : inbox id (RaftCluster.cluster rc) `prefix_of`
  inbox id (RaftCluster.cluster (RaftCluster.start_one rnd i now rc).2).
Proof.
  destruct (RaftCluster.on_runtime_slot i (Runtime.start (rnd i) now) rc) as [E _].
  pose proof (on_slot_prefix id i (Raft.start (rnd i) now) (RaftCluster.cluster rc) (λ w, Frame.framed_start (rnd i) _ now w)) as H.
  unfold RaftCluster.start_one, bind, RaftCluster.set_running, modify. unfold Runtime.start in *. rewrite <- E in H.
  by destruct (RaftCluster.on_runtime i (Raft.start (rnd i) now) rc) as [[]].
Qed.

(** Whatever the others do, what is in the inbox stays in front. *)
Lemma op_prefix id op rnd rc : RaftCluster.leaves id op → RaftCluster.named (RaftCluster.cluster rc) →
  inbox id (RaftCluster.cluster rc) `prefix_of` inbox id (RaftCluster.cluster (RaftCluster.exec tmin tmax hb ids op rnd rc)).
Proof.
  intros Hl Hn. destruct op as [i now|i now|i now|i|i now|now| |i c now]; simpl in *.
  - by apply turn_prefix.
  - rewrite (RaftCluster.turn_tick_cluster tmin tmax hb ids). apply tick_prefix.
  - destruct (Cluster.slots (RaftCluster.cluster rc) !! i) as [s|] eqn:Es.
    + rewrite (RaftCluster.turn_deliver_cluster tmin tmax hb ids) by by eexists. by apply deliver_prefix.
    + unfold RaftCluster.turn_deliver. rewrite RaftCluster.thread_step_cluster. unfold Cluster.on_slot. by rewrite Es.
  - unfold RaftCluster.kill, bind, get. by case_bool_decide.
  - unfold RaftCluster.revive, bind. destruct (RaftCluster.on_transport (Net.rejoin [i]) rc) as [[u|x] rc1] eqn:E1; [|discriminate E1].
    assert (Hin : inbox id (RaftCluster.cluster rc1) = inbox id (RaftCluster.cluster rc)) by (by injection E1 as _ <-).
    rewrite <- Hin. pose proof (build_prefix id i rc1) as H2.
    destruct (RaftCluster.build_runtime tmin tmax hb ids i rc1) as [[[]|x] rc2]; [|done]. etrans; [exact H2|]. apply start_one_prefix.
  - done.
  - unfold RaftCluster.stop. by rewrite RaftCluster.stop_cluster.
  - rewrite (proj1 (RaftCluster.on_runtime_slot i (Runtime.propose c now) rc)). apply on_slot_prefix.
    intros w. apply Frame.framed_propose.
Qed.

(** ** The turn *)

Section ends.
Variable id : string.
Variable now : float.
Variable rnd : RaftCluster.Draws.
Variable others : nat → list (Op * RaftCluster.Draws).
Abbreviation drain := (RaftCluster.drain tmin tmax hb ids).
Abbreviation turn_among := (RaftCluster.turn_among tmin tmax hb ids).

(** What happens in a turn: the steps of the thread, and the others'. *)
Definition of_turn (op : Op * RaftCluster.Draws) : Prop :=
  op.1 = RaftCluster.TurnTick id now ∨ op.1 = RaftCluster.TurnDeliver id now ∨ ∃ k, op ∈ others k.

Lemma ops_snoc op ops rc : run_ops (ops ++ [op]) rc = RaftCluster.exec tmin tmax hb ids op.1 op.2 (run_ops ops rc).
Proof. unfold RaftCluster.run. by rewrite foldl_app. Qed.

Lemma ops_app ops ops' rc : run_ops (ops ++ ops') rc = run_ops ops' (run_ops ops rc).
Proof. unfold RaftCluster.run. by rewrite foldl_app. Qed.

Lemma others_of_turn k : Forall of_turn (others k).
Proof. apply Forall_forall. intros op Hop. right. right. by exists k. Qed.

Lemma drain_run fuel : ∀ k handled rc, ∃ ops, Forall of_turn ops ∧
  (drain fuel rnd id now others k handled rc).2 = run_ops ops rc.
Proof.
  induction fuel as [|fuel IH]; intros k handled rc; simpl; [by exists []|].
  destruct (Net.popleft id _) as [[e rest]|]; [|exists (others k); split; [apply others_of_turn|done]].
  set (rc1 := run_ops (others k) rc). set (rc2 := RaftCluster.turn_deliver rnd id now rc1).
  assert (E : rc2 = run_ops (others k ++ [(RaftCluster.TurnDeliver id now, rnd)]) rc) by by rewrite ops_snoc.
  assert (Hof : Forall of_turn (others k ++ [(RaftCluster.TurnDeliver id now, rnd)])).
  { apply Forall_app. split; [apply others_of_turn|]. apply Forall_singleton. right. by left. }
  destruct (RaftCluster.on_runtime id _ rc1).1 as [b|x]; [|eexists; split; [exact Hof|exact E]].
  destruct (IH (Datatypes.S k) (handled ++ [e]) rc2) as (ops & Ho & ->).
  exists ((others k ++ [(RaftCluster.TurnDeliver id now, rnd)]) ++ ops). split; [by apply Forall_app_2|].
  rewrite ops_app. f_equal. exact E.
Qed.

Lemma turn_among_run fuel rc : ∃ ops, Forall of_turn ops ∧ (turn_among fuel rnd id now others rc).2 = run_ops ops rc.
Proof.
  unfold RaftCluster.turn_among. set (rc1 := run_ops (others 0%nat) rc). set (rc2 := RaftCluster.turn_tick rnd id now rc1).
  assert (E : rc2 = run_ops (others 0%nat ++ [(RaftCluster.TurnTick id now, rnd)]) rc) by by rewrite ops_snoc.
  assert (Hof : Forall of_turn (others 0%nat ++ [(RaftCluster.TurnTick id now, rnd)])).
  { apply Forall_app. split; [apply others_of_turn|]. apply Forall_singleton. by left. }
  destruct (RaftCluster.on_runtime id _ rc1).1 as [u|x]; [|eexists; split; [exact Hof|exact E]].
  destruct (drain_run fuel 1 [] rc2) as (ops & Ho & ->).
  exists ((others 0%nat ++ [(RaftCluster.TurnTick id now, rnd)]) ++ ops). split; [by apply Forall_app_2|]. rewrite ops_app. f_equal. exact E.
Qed.

(** The states the cluster can be in, and what the node may raise there. *)
Variable J : RC → Prop.
Variable bad : exn → Prop.
Hypothesis Jrun : ∀ ops rc, J rc → J (run_ops ops rc).
Hypothesis Jclean : ∀ rc, J rc → RaftCluster.clean (RaftCluster.cluster rc).
Hypothesis Jslot : ∀ rc, J rc → is_Some (Cluster.slots (RaftCluster.cluster rc) !! id).
Hypothesis Jtick : ∀ rc s x, J rc → Cluster.slots (RaftCluster.cluster rc) !! id = Some s →
  (Raft.tick (rnd id) now (Cluster.world s (Cluster.network (RaftCluster.cluster rc)))).1 = Raise x → bad x.
Hypothesis Jreceive : ∀ rc s e rest x, J rc → Cluster.slots (RaftCluster.cluster rc) !! id = Some s →
  Net.popleft id (Cluster.network (RaftCluster.cluster rc)) = Some (e, rest) →
  (Raft.receive (rnd id) e now (Runtime.with_transport rest (Cluster.world s (Cluster.network (RaftCluster.cluster rc))))).1 = Raise x →
  bad x.
Hypothesis Hothers : ∀ k, Forall (λ op, RaftCluster.leaves id op.1) (others k).

Abbreviation box rc := (inbox id (RaftCluster.cluster rc)).

Lemma others_prefix ops : Forall (λ op, RaftCluster.leaves id op.1) ops → ∀ rc, J rc → box rc `prefix_of` box (run_ops ops rc).
Proof.
  induction 1 as [|op ops Hop _ IH]; intros rc Hrc; [done|].
  etrans; [|exact (IH _ (Jrun [op] rc Hrc))].
  apply op_prefix; [done|]. apply RaftCluster.clean_named. by apply Jclean.
Qed.

Lemma tick_step rc : J rc →
  match (RaftCluster.on_runtime id (Raft.tick (rnd id) now) rc).1 with Ok _ => True | Raise x => bad x end ∧
  box (RaftCluster.turn_tick rnd id now rc) = box rc ∧ J (RaftCluster.turn_tick rnd id now rc).
Proof.
  intros HJ. destruct (Jslot rc HJ) as [s Hs]. split_and!.
  - unfold RaftCluster.on_runtime. rewrite Hs. pose proof (Jtick rc s) as Hx.
    destruct (Raft.tick _ _ _) as [[u|x] w]; [done|]. by apply Hx.
  - unfold RaftCluster.turn_tick. rewrite RaftCluster.thread_step_cluster. unfold Cluster.on_slot. rewrite Hs.
    pose proof (RaftCluster.clean_no_echo id s _ (Jclean rc HJ) Hs) as Hw.
    destruct (Runtime.framed_inbox id (Raft.tick (rnd id) now) _ Hw (Frame.framed_tick (rnd id) _ now _)) as [Hi _].
    destruct (Raft.tick _ _ _) as [r w]. exact Hi.
  - exact (Jrun [(RaftCluster.TurnTick id now, rnd)] rc HJ).
Qed.

(** Handling a message takes it off the front, and leaves the rest. *)
Lemma deliver_step rc e rest : J rc → Net.popleft id (Cluster.network (RaftCluster.cluster rc)) = Some (e, rest) →
  match (RaftCluster.on_runtime id (Runtime.deliver_next id (λ env, Raft.receive (rnd id) env now)) rc).1 with
  | Ok _ => True | Raise x => bad x end ∧
  box rc = e :: box (RaftCluster.turn_deliver rnd id now rc) ∧ J (RaftCluster.turn_deliver rnd id now rc).
Proof.
  intros HJ Hp. destruct (Jslot rc HJ) as [s Hs].
  pose proof (RaftCluster.clean_no_echo id s _ (Jclean rc HJ) Hs) as Hw.
  set (w := Cluster.world s (Cluster.network (RaftCluster.cluster rc))) in *.
  destruct (Runtime.popleft_echo id e rest w Hw Hp) as (He & Hw1 & Hin). split_and!.
  - unfold RaftCluster.on_runtime. rewrite Hs. fold w. unfold Runtime.deliver_next, bind, get, modify, ret.
    change (Raft.transport w) with (Cluster.network (RaftCluster.cluster rc)). rewrite Hp. pose proof (Jreceive rc s e rest) as Hx.
    fold w in Hx. destruct (Raft.receive _ _ _ _) as [[u|x] w']; [done|]. by apply Hx.
  - unfold RaftCluster.turn_deliver. rewrite RaftCluster.thread_step_cluster. unfold Cluster.on_slot. rewrite Hs. fold w.
    change (box rc) with (Net.inbox id (Raft.transport w)). rewrite Hin. f_equal.
    unfold Runtime.deliver_next, bind, get, modify, ret.
    change (Raft.transport w) with (Cluster.network (RaftCluster.cluster rc)). rewrite Hp.
    destruct (Runtime.framed_inbox id (Raft.receive (rnd id) e now) _ Hw1 (Frame.framed_receive (rnd id) _ e now _ He)) as [Hi _].
    destruct (Raft.receive _ _ _ _) as [[u|x] w']; exact (eq_sym Hi).
  - exact (Jrun [(RaftCluster.TurnDeliver id now, rnd)] rc HJ).
Qed.

Lemma popleft_none rc : Net.popleft id (Cluster.network (RaftCluster.cluster rc)) = None → box rc = [].
Proof. unfold Net.popleft. by destruct (Net.inbox _ _). Qed.

(** With nobody else at work, as many deliveries as there are messages. *)
Lemma drain_quiet fuel : ∀ k handled rc, J rc → (∀ j, (k ≤ j)%nat → others j = []) → (length (box rc) < fuel)%nat →
  match drain fuel rnd id now others k handled rc with
  | (Ok h, rc') => h = handled ++ box rc ∧ box rc' = []
  | (Raise x, _) => bad x
  end.
Proof.
  induction fuel as [|fuel IH]; intros k handled rc HJ Hq Hf; [lia|]. cbn [RaftCluster.drain].
  rewrite Hq by lia. change (run_ops [] rc) with rc.
  destruct (Net.popleft id _) as [[e rest]|] eqn:Hp; [|apply popleft_none in Hp as E; by rewrite E, app_nil_r].
  destruct (deliver_step rc e rest HJ Hp) as (Hx & Hb & HJ2). destruct (RaftCluster.on_runtime id _ rc).1 as [b|x]; [|exact Hx].
  rewrite Hb in Hf |- *. specialize (IH (Datatypes.S k) (handled ++ [e]) _ HJ2 (λ j Hj, Hq j ltac:(lia)) ltac:(simpl in Hf; lia)).
  destruct (drain fuel _ _ _ _ _ _ _) as [[h|y] rc']; [|exact IH]. destruct IH as [-> ?]. split; [|done]. by rewrite <- app_assoc.
Qed.

(** The loop takes the messages in order, and ends when the others rest. *)
Lemma drain_ends m d : ∀ k handled rc, J rc → (∀ j, (m ≤ j)%nat → others j = []) → (m ≤ k + d)%nat →
  ∃ n, ∀ fuel, (n ≤ fuel)%nat →
    match drain fuel rnd id now others k handled rc with
    | (Ok h, rc') => (handled ++ box rc) `prefix_of` h ∧ box rc' = []
    | (Raise x, _) => bad x
    end.
Proof.
  induction d as [|d IH]; intros k handled rc HJ Hq Hm.
  { exists (Datatypes.S (length (box rc))). intros fuel Hf.
    pose proof (drain_quiet fuel k handled rc HJ (λ j Hj, Hq j ltac:(lia)) ltac:(lia)) as H.
    destruct (drain fuel _ _ _ _ _ _ _) as [[h|y] rc']; [|exact H]. by destruct H as [-> ?]. }
  set (rc1 := run_ops (others k) rc). pose proof (Jrun (others k) rc HJ) as HJ1. fold rc1 in HJ1.
  pose proof (others_prefix (others k) (Hothers k) rc HJ) as Hpre. fold rc1 in Hpre.
  destruct (Net.popleft id (Cluster.network (RaftCluster.cluster rc1))) as [[e rest]|] eqn:Hp.
  - destruct (deliver_step rc1 e rest HJ1 Hp) as (Hx & Hb & HJ2).
    destruct (IH (Datatypes.S k) (handled ++ [e]) _ HJ2 Hq ltac:(lia)) as [n Hn].
    exists (Datatypes.S n). intros [|fuel] Hf; [lia|]. cbn [RaftCluster.drain]. fold rc1. rewrite Hp.
    destruct (RaftCluster.on_runtime id _ rc1).1 as [b|x]; [|exact Hx]. specialize (Hn fuel ltac:(lia)).
    destruct (drain fuel _ _ _ _ _ _ _) as [[h|y] rc']; [|exact Hn]. destruct Hn as [Hh ?]. split; [|done].
    etrans; [|exact Hh]. rewrite <- app_assoc. apply prefix_app. simpl. by rewrite <- Hb.
  - exists 1%nat. intros [|fuel] Hf; [lia|]. cbn [RaftCluster.drain]. fold rc1. rewrite Hp.
    apply popleft_none in Hp as E. rewrite E in Hpre. apply prefix_nil_inv in Hpre. by rewrite Hpre, app_nil_r.
Qed.

Lemma turn_among_ends m rc : J rc → (∀ j, (m ≤ j)%nat → others j = []) →
  ∃ n, ∀ fuel, (n ≤ fuel)%nat →
    match turn_among fuel rnd id now others rc with
    | (Ok h, rc') => box (run_ops (others 0%nat) rc) `prefix_of` h ∧ box rc' = []
    | (Raise x, _) => bad x
    end.
Proof.
  intros HJ Hq. destruct (tick_step _ (Jrun (others 0%nat) rc HJ)) as (Hx & Hb & HJ2).
  destruct (drain_ends m m 1 [] _ HJ2 Hq ltac:(lia)) as [n Hn]. exists n. intros fuel Hf.
  unfold RaftCluster.turn_among. destruct (RaftCluster.on_runtime id _ _).1 as [u|x]; [|exact Hx].
  specialize (Hn fuel Hf). by rewrite Hb in Hn.
Qed.

Lemma turn_among_quiet fuel rc : J rc → (∀ j, others j = []) → (length (box rc) < fuel)%nat →
  match turn_among fuel rnd id now others rc with
  | (Ok h, rc') => h = box rc ∧ box rc' = []
  | (Raise x, _) => bad x
  end.
Proof.
  intros HJ Hq Hf. destruct (tick_step rc HJ) as (Hx & Hb & HJ2).
  unfold RaftCluster.turn_among. rewrite Hq. change (run_ops [] rc) with rc.
  destruct (RaftCluster.on_runtime id _ rc).1 as [u|x]; [|exact Hx]. rewrite <- Hb in Hf |- *.
  exact (drain_quiet fuel 1 [] _ HJ2 (λ j _, Hq j) Hf).
Qed.
End ends.
End turn.
End RaftTurn.
