(* ===== verification/ClusterProps.v ===== *)
(** * The in-process cluster: its threads and its client

    What the threads of [RaftCluster] do is a run of the events of Cluster.v,
    so the theorems of RaftProps.v hold of it; a turn of a thread ends; and
    the contract of the client's [propose], on its own and under the
    settlement submitter. *)

From stdpp Require Import base gmap strings list.
From Stdlib Require Import ZArith SpecFloat Lia.
From S2P Require Import Prelude PyDecimal PyFloat Models StateMachine Ledger Submitter.
From S2P Require Import RaftTypes Storage Transport RaftNode RaftFrame RaftSpec RaftRefine Cluster Runtime RaftCluster RaftTurn Demo.

Local Open Scope Z_scope.

Section props.
Context {C S : Type} {Hsm : StateMachine C S}.
Variables tmin tmax hb : float.
Variable ids : list string.
Hypothesis Hids : NoDup ids.
Variable sm0 : S.

Abbreviation start := (RaftCluster.init (C := C) tmin tmax hb ids sm0).
Abbreviation run := (RaftCluster.run tmin tmax hb ids).
Abbreviation events := (Cluster.run (S := S) (T := Net.InMemoryTransport C) tmin tmax hb ids).
Abbreviation members := (list_to_set ids : gset string).

(** C20 (the threads refine the event model): whatever the nodes' threads and
    the callers of [start], [stop], [kill], [revive] and [propose] do, in any
    interleaving of their calls, and also when others come between the tick
    and the deliveries of a turn, the cluster is in a state that a run of
    events reaches from the initial cluster, and only the same commands are
    proposed in it.  The guarantees on runs of events are guarantees on the
    running cluster. *)
Theorem threads_refine_events (allowed : C → Prop) ops :
  Forall (λ op, RaftCluster.op_allowed allowed op.1) ops →
  ∃ evs, Forall (λ ev, Cluster.event_allowed allowed ev.1) evs ∧
    RaftCluster.cluster (run ops start) = events evs (Cluster.init tmin tmax hb ids sm0 Net.init).
Proof. intros Hops. apply RaftCluster.ops_events; [done|]. apply RaftCluster.init_named. Qed.

Lemma run_simulated ops :
  ∃ G, Cluster.refines ids sm0 (λ _, True) (RaftCluster.cluster (run ops start)) G.
Proof.
  destruct (RaftCluster.ops_events tmin tmax hb ids (λ _, True) ops) with (rc := start) as (evs & Hev & ->).
  - apply Forall_forall. by intros [[] ?].
  - apply RaftCluster.init_named.
  - destruct (Cluster.run_refines tmin tmax hb ids Hids sm0 (λ _, True) evs (RaftCluster.cluster start) Spec.initial)
      as (G & Hf & _); [apply Cluster.init_refines; [done|apply Net.queued_init]|done|]. by exists G.
Qed.

Lemma run_clean ops : RaftCluster.clean (RaftCluster.cluster (run ops start)).
Proof.
  eapply (RaftCluster.clean_evolves tmin tmax hb ids (λ _, True)); [|apply RaftCluster.init_clean].
  apply RaftCluster.ops_events; [apply Forall_forall; by intros [[] ?]|apply RaftCluster.init_named].
Qed.

(** A tick, and the handling of a message taken off the inbox, keep a node
    related to the protocol, and raise only what the state machine raises. *)
Lemma tick_keeps id rnd now w : id ∈ members → (∃ G, Refine.R members sm0 id w G) →
  Runtime.keeps (λ w, ∃ G, Refine.R members sm0 id w G) (Refine.machine_exn (C := C) (S := S)) (Raft.tick rnd now w).
Proof.
  intros Hm (G & HR).
  destruct (Refine.sim_tick members (λ _, True) sm0 id Hm rnd now w G (λ _ _ _, True) HR) as (G' & _ & HR' & HQ); [done|].
  split; [by exists G'|]. intros x Hx. by rewrite Hx in HQ.
Qed.

Lemma receive_keeps id rnd now id' w e rest : id ∈ members → Raft.node_id (Raft.node w) = id' →
  (∃ G, Refine.R members sm0 id w G) → Net.popleft id' (Raft.transport w) = Some (e, rest) →
  Runtime.keeps (λ w, ∃ G, Refine.R members sm0 id w G) (Refine.machine_exn (C := C) (S := S))
    (Raft.receive rnd e now (Runtime.with_transport rest w)).
Proof.
  intros Hm Hid' (G & HR) Hpop. rewrite (Refine.r_id _ _ _ _ _ HR) in Hid'. subst id'.
  destruct (net_take (NetworkLaws := Net.net_laws (C := C)) _ _ tt _ _ _ (Refine.r_net _ _ _ _ _ HR) Hpop) as (Hn & He & Hr).
  destruct (Refine.sim_receive members (λ _, True) sm0 id Hm rnd e now (Runtime.with_transport rest w) G
    (λ _ _ _, True)) as (G' & _ & HR' & HQ); [destruct HR; by split|done..|].
  split; [by exists G'|]. intros x Hx. by rewrite Hx in HQ.
Qed.

(** The states of a running cluster. *)
Definition reached (rc : RaftCluster.RaftCluster C S) : Prop := ∃ ops, rc = run ops start.

Lemma reached_run ops rc : reached rc → reached (run ops rc).
Proof. intros [ops0 ->]. exists (ops0 ++ ops). unfold RaftCluster.run. by rewrite foldl_app. Qed.

Lemma reached_clean rc : reached rc → RaftCluster.clean (RaftCluster.cluster rc).
Proof. intros [ops ->]. apply run_clean. Qed.

Lemma reached_slot id : id ∈ ids → ∀ rc, reached rc → is_Some (Cluster.slots (RaftCluster.cluster rc) !! id).
Proof. intros Hid rc [ops ->]. by apply RaftCluster.history_slots. Qed.

Lemma reached_R rc id s : reached rc → Cluster.slots (RaftCluster.cluster rc) !! id = Some s →
  ∃ G, Refine.R members sm0 id (Cluster.world s (Cluster.network (RaftCluster.cluster rc))) G.
Proof.
  intros [ops ->] Hs. destruct (run_simulated ops) as (G & Hf). exists G.
  by destruct (Cluster.f_slot _ _ _ _ _ Hf _ _ Hs).
Qed.

Lemma reached_tick id rnd now : id ∈ ids → ∀ rc s x, reached rc → Cluster.slots (RaftCluster.cluster rc) !! id = Some s →
  (Raft.tick rnd now (Cluster.world s (Cluster.network (RaftCluster.cluster rc)))).1 = Raise x → Refine.machine_exn (C := C) (S := S) x.
Proof.
  intros Hid rc s x Hr Hs. assert (Hm : id ∈ members) by set_solver.
  destruct (tick_keeps id rnd now _ Hm (reached_R rc id s Hr Hs)) as [_ H]. apply H.
Qed.

Lemma reached_receive id rnd now : id ∈ ids → ∀ rc s e rest x, reached rc →
  Cluster.slots (RaftCluster.cluster rc) !! id = Some s →
  Net.popleft id (Cluster.network (RaftCluster.cluster rc)) = Some (e, rest) →
  (Raft.receive rnd e now (Runtime.with_transport rest (Cluster.world s (Cluster.network (RaftCluster.cluster rc))))).1 = Raise x →
  Refine.machine_exn (C := C) (S := S) x.
Proof.
  intros Hid rc s e rest x Hr Hs Hp. assert (Hm : id ∈ members) by set_solver.
  pose proof (RaftCluster.clean_named _ (reached_clean rc Hr) _ _ Hs) as Hn.
  destruct (receive_keeps id rnd now id (Cluster.world s (Cluster.network (RaftCluster.cluster rc))) e rest Hm Hn (reached_R rc id s Hr Hs) Hp) as [_ H]. apply H.
Qed.

(** C21 (a turn ends): take any state of a running cluster and a turn of a
    node's thread, while the other threads do anything but call into the locked
    runtime: they may send to the node between any two deliveries, or kill it,
    which cuts it off.  When they rest from some access of the turn on, the turn
    ends: it has handled first, in their order, the messages that were waiting
    when it began, nothing is left in the inbox, and with nobody else at work it
    has handled exactly those; or the state machine has raised.  The node's own
    handling cannot feed the loop.  Whatever the others do, the turn is a run
    of operations: its tick, its deliveries and theirs. *)
Theorem turn_terminates ops id rnd now others m :
  id ∈ ids → (∀ k, Forall (λ op, RaftCluster.leaves id op.1) (others k)) → (∀ k, (m ≤ k)%nat → others k = []) →
  let rc := run ops start in
  (∃ n, ∀ fuel, (n ≤ fuel)%nat →
     match RaftCluster.turn_among tmin tmax hb ids fuel rnd id now others rc with
     | (Ok handled, rc') =>
         Net.inbox id (Cluster.network (RaftCluster.cluster (run (others 0%nat) rc))) `prefix_of` handled ∧
         Net.inbox id (Cluster.network (RaftCluster.cluster rc')) = [] ∧
         ((∀ k, others k = []) → handled = Net.inbox id (Cluster.network (RaftCluster.cluster rc)))
     | (Raise x, _) => ∃ (c : C) (m m' : S), sm_apply c m = (Raise x, m')
     end) ∧
  ∀ fuel, ∃ ops', Forall (RaftTurn.of_turn id now others) ops' ∧
    (RaftCluster.turn_among tmin tmax hb ids fuel rnd id now others rc).2 = run ops' rc.
Proof.
  intros Hid Hl Hq rc. split; [|intros fuel; apply RaftTurn.turn_among_run].
  assert (HJ : reached rc) by by exists ops.
  destruct (RaftTurn.turn_among_ends tmin tmax hb ids id now rnd others reached (Refine.machine_exn (C := C) (S := S))
    reached_run reached_clean (reached_slot id Hid) (reached_tick id (rnd id) now Hid) (reached_receive id (rnd id) now Hid)
    Hl m rc HJ Hq) as [n Hn].
  exists (Nat.max n (Datatypes.S (length (Net.inbox id (Cluster.network (RaftCluster.cluster rc)))))). intros fuel Hf.
  specialize (Hn fuel ltac:(lia)).
  pose proof (λ Hnone, RaftTurn.turn_among_quiet tmin tmax hb ids id now rnd others reached (Refine.machine_exn (C := C) (S := S))
    reached_run reached_clean (reached_slot id Hid) (reached_tick id (rnd id) now Hid) (reached_receive id (rnd id) now Hid)
    fuel rc HJ Hnone ltac:(lia)) as Hquiet.
  destruct (RaftCluster.turn_among _ _ _ _ _ _ _ _ _ _) as [[h|x] rc']; [|exact Hn].
  destruct Hn as [H1 H2]. split; [exact H1|]. split; [exact H2|]. intros Hnone. by destruct (Hquiet Hnone).
Qed.

(** The turn as one step ([Runtime.turn], with its computed fuel), in every
    state of a running cluster: it ends with an empty inbox, unless the state
    machine raises. *)
Theorem whole_turn_ends ops id s rnd now :
  Cluster.slots (RaftCluster.cluster (run ops start)) !! id = Some s →
  match Runtime.turn rnd now (Cluster.world s (Cluster.network (RaftCluster.cluster (run ops start)))) with
  | (Ok _, w') => Net.inbox id (Raft.transport w') = []
  | (Raise x, _) => ∃ (c : C) (m m' : S), sm_apply c m = (Raise x, m')
  end.
Proof.
  intros Hs. destruct (run_simulated ops) as (G0 & Hf).
  destruct (Cluster.f_slot _ _ _ _ _ Hf _ _ Hs) as [Hid HR0]. assert (Hm : id ∈ members) by set_solver.
  apply (Runtime.turn_ends rnd now (λ w, ∃ G, Refine.R members sm0 id w G) (Refine.machine_exn (C := C) (S := S))).
  - intros w. by apply tick_keeps.
  - intros id' w e rest. by apply receive_keeps.
  - by exists G0.
  - apply RaftCluster.clean_no_echo; [apply run_clean|done].
Qed.

Section client.
Variable others : nat → list (RaftCluster.Op C * RaftCluster.Draws).
Variable clock : nat → float.
Abbreviation propose := (RaftCluster.propose tmin tmax hb ids others clock).

(** The client of a cluster that has run [ops]. *)
Lemma client_slots ops (w : RaftCluster.Client C S) : RaftCluster.shared w = run ops start →
  ∀ n, RaftCluster.has_slots ids (RaftCluster.elapsed tmin tmax hb ids others n w).
Proof.
  intros E n id Hid. unfold RaftCluster.elapsed. rewrite E. unfold RaftCluster.run. rewrite <- foldl_app.
  by apply RaftCluster.history_slots.
Qed.

(** C22 (contract of [propose]): take any cluster a history of operations
    leads to, let other threads do anything meanwhile, and let the clock pass
    the deadline from its [m]-th reading on, and from the [n]-th on the
    deadlines of the leader searches started before.  Then [propose] ends in at
    most [max m n] rounds.  Either it returns an entry with the command, which
    it has just appended at the end of the log of a node in leader state, in
    that node's term, it remembers that node, and its first test found the
    deadline ahead; or it raises [TimeoutError] with nothing done to the cluster
    by the call, and the last thing it did was to read the clock and find the
    deadline passed, or that of a leader search, which ends when the time left
    at its start has passed. *)
Theorem propose_contract ops fuel c timeout m n (w : RaftCluster.Client C S) :
  let deadline := F.add (clock (RaftCluster.accesses w)) timeout in
  RaftCluster.shared w = run ops start →
  RaftCluster.expires clock deadline m n → (Nat.max m n < fuel)%nat →
  match propose fuel c timeout w with
  | (Ok e, w') => entry_command e = c ∧ RaftCluster.appended tmin tmax hb ids others clock c e w w' ∧
      F.lt (clock (Datatypes.S (RaftCluster.accesses w))) deadline = true
  | (Raise x, w') => x = RaftCluster.no_leader ∧
      RaftCluster.quiet tmin tmax hb ids others w w' ∧ RaftCluster.timed_out clock deadline w w'
  end.
Proof.
  intros deadline E Hx Hf.
  destruct (RaftCluster.propose_spec tmin tmax hb ids others clock fuel c timeout w (client_slots ops w E))
    as (r & w' & -> & R). destruct r as [e|x].
  - split; [|done]. by destruct R as [(n' & id & s & s' & _ & _ & _ & -> & _) _].
  - destruct R as [Q [[-> R]|[-> R]]]; [done|]. specialize (R m n Hx). lia.
Qed.

End client.
End props.

(** ** The submitter over the cluster *)

Section settle.
Context {S : Type} {Hsm : StateMachine LedgerEntry S}.
Variables tmin tmax hb : float.
Variable ids : list string.
Hypothesis Hids : NoDup ids.
Variable sm0 : S.
Variable others : nat → list (RaftCluster.Op LedgerEntry * RaftCluster.Draws).
Variable clock : nat → float.
Variable fuel : nat.

#[local] Instance cluster_proposer : Proposer (RaftCluster.Client LedgerEntry S) :=
  RaftCluster.proposer tmin tmax hb ids others clock fuel.

(** Settling through the cluster: a cleared transaction of a valid
    amount that the submitter handles over a running cluster either is counted
    as submitted, and its entry was appended to the log of a leader; or is
    listed as failed, and the call did nothing to the cluster.  No other
    exception escapes. *)
Theorem settles_through_cluster ops scored now (w : Submitter.World (RaftCluster.Client LedgerEntry S)) k x m n :
  RaftCluster.shared (Submitter.cluster w) = RaftCluster.run tmin tmax hb ids ops (RaftCluster.init tmin tmax hb ids sm0) →
  fs_is_fraud (st_score scored) = false →
  tx_amount (st_transaction scored) = DFin k x → 0 < k < 10 ^ Dec.prec → Dec.Etiny ≤ x ≤ Dec.Etop →
  RaftCluster.expires clock (F.add (clock (RaftCluster.accesses (Submitter.cluster w)))
    (Submitter.propose_timeout (Submitter.submitter w))) m n → (Nat.max m n < fuel)%nat →
  let tx := st_transaction scored in
  let entry := mkLedgerEntry (tx_id tx) (tx_account_id tx)
                 (DFin (if bool_decide (tx_type tx = CREDIT) then k else - k) x) (tx_id tx) now in
  ∃ w', Submitter.handle scored now w = (Ok tt, w') ∧
  ((∃ e, Submitter.submitter w' = Submitter.count_submitted (Submitter.submitter w) ∧
      RaftCluster.appended tmin tmax hb ids others clock entry e (Submitter.cluster w) (Submitter.cluster w')) ∨
   (Submitter.submitter w' = Submitter.add_failed (tx_id tx) (Submitter.submitter w) ∧
      RaftCluster.quiet tmin tmax hb ids others (Submitter.cluster w) (Submitter.cluster w'))).
Proof.
  intros E Hf Ha Hk Hx Hex Hfuel tx entry.
  pose proof (Submitter.handle_cleared scored now w entry Hf (Submitter.entry_for_exact _ now k x Ha Hk Hx)) as Hc.
  destruct (RaftCluster.propose_spec tmin tmax hb ids others clock fuel entry
    (Submitter.propose_timeout (Submitter.submitter w)) (Submitter.cluster w)
    (client_slots tmin tmax hb ids Hids sm0 others ops _ E)) as (r1 & c1 & Ep & R).
  assert (Eq : cluster_propose entry (Submitter.propose_timeout (Submitter.submitter w)) (Submitter.cluster w) =
    (match r1 with Ok _ => Ok tt | Raise y => Raise y end, c1)).
  { unfold cluster_propose, cluster_proposer, RaftCluster.proposer, bind. rewrite Ep. by destruct r1. }
  rewrite Eq in Hc. rewrite Hc. destruct r1 as [e|y].
  - eexists. split; [reflexivity|]. left. exists e. split; [done|apply R].
  - destruct R as [Q [[-> _]|[-> R]]]; [|specialize (R m n Hex); lia].
    eexists. split; [reflexivity|]. right. by split.
Qed.
End settle.

(** ** Concrete runs *)

Module Threads.

Abbreviation Op := (RaftCluster.Op LedgerEntry * RaftCluster.Draws)%type.
Definition draws : RaftCluster.Draws := λ _, Demo.low.
Definition T (id : string) (t : Z) : Op := (RaftCluster.Turn id (F.of_Z t), draws).
Abbreviation start := (RaftCluster.init (C := LedgerEntry) Demo.tmin Demo.tmax Demo.hb Demo.ids (Ledger.init ∅)).
Abbreviation run := (RaftCluster.run (S := Ledger.LedgerStateMachine) Demo.tmin Demo.tmax Demo.hb Demo.ids).

(** [a] is elected by the threads' turns. *)
Definition elect : list Op :=
  [(RaftCluster.StartAll (λ _, F.zero), draws); T "a" 150; T "b" 151; T "c" 151; T "a" 152; T "b" 153; T "c" 153; T "a" 154].
(** [c], which has heard nothing for its election timeout, deposes [a]. *)
Definition depose : list Op :=
  [T "a" 210; T "b" 211; T "a" 212; T "c" 400; T "b" 401; T "a" 401; T "c" 402; T "b" 403; T "a" 403; T "c" 404].

(** A clock that stops at 10, and threads that do nothing. *)
Definition clock (k : nat) : float := F.of_Z (Z.of_nat (Nat.min k 10)).
Definition idle (k : nat) : list Op := [].
Definition client (ops : list Op) : RaftCluster.Client LedgerEntry Ledger.LedgerStateMachine :=
  RaftCluster.mkClient (run ops start) None 0.

Lemma client_shared ops : RaftCluster.shared (client ops) = run ops start.
Proof. reflexivity. Qed.

Lemma clock_stops k : (10 ≤ k)%nat → clock k = F.of_Z 10.
Proof. intros Hk. unfold clock. by rewrite Nat.min_r. Qed.

(** Of the readings from the [m]-th on only ten differ. *)
Lemma readings (P : float → bool) m : forallb (λ k, P (clock k)) (seq m (11 - m)) = true → (m ≤ 10)%nat →
  ∀ k, (m ≤ k)%nat → P (clock k) = true.
Proof.
  intros Hall Hm k Hk. rewrite forallb_forall in Hall. destruct (Nat.le_gt_cases k 10) as [Hk10|].
  - apply Hall. apply in_seq. lia.
  - rewrite clock_stops, <- (clock_stops 10) by lia. apply Hall. apply in_seq. lia.
Qed.

Lemma clock_expires : RaftCluster.expires clock (F.add (clock 0) (F.of_Z 3)) 3 7.
Proof.
  split.
  - intros k Hk. apply negb_true_iff. apply (readings (λ t, negb (F.lt t _)) 3); [vm_compute; reflexivity|lia|done].
  - intros i j k Hi Hj Hk. revert k Hk.
    assert (Hall : forallb (λ i, forallb (λ j, forallb (λ k, F.ge (clock k)
      (F.add (clock j) (F.max F.zero (F.sub (F.add (clock 0) (F.of_Z 3)) (clock i))))) (seq 7 4)) (seq 0 5)) (seq 0 4) = true)
      by (vm_compute; reflexivity).
    rewrite forallb_forall in Hall. specialize (Hall i ltac:(apply in_seq; lia)).
    rewrite forallb_forall in Hall. specialize (Hall j ltac:(apply in_seq; lia)).
    apply (readings (λ t, F.ge t _) 7); [exact Hall|lia].
Qed.

End Threads.

Lemma threads_refine_events_witness :
  ∃ evs, RaftCluster.cluster (Threads.run Threads.elect Threads.start) =
    Cluster.run Demo.tmin Demo.tmax Demo.hb Demo.ids evs Demo.start.
Proof.
  destruct (threads_refine_events Demo.tmin Demo.tmax Demo.hb Demo.ids (Ledger.init ∅) (λ _, True) Threads.elect)
    as (evs & _ & E); [by repeat apply Forall_cons_2|]. exists evs. exact E.
Defined.

(** [c] takes a turn with two messages in its inbox, and [a] sends it a third
    before the first delivery. *)
Definition late_sender (k : nat) : list Threads.Op := if Nat.eqb k 1 then [(RaftCluster.TurnTick "a" (F.of_Z 900), Threads.draws)] else [].

Definition among_late_sender : option (list (Envelope LedgerEntry)) :=
  match (RaftCluster.turn_among Demo.tmin Demo.tmax Demo.hb Demo.ids 10 (λ _, Demo.low) "c" (F.of_Z 151) late_sender
    (Threads.run (take 3 Threads.elect) Threads.start)).1 with Ok handled => Some handled | Raise _ => None end.

Lemma turn_terminates_witness :
  let rc := Threads.run (take 3 Threads.elect) Threads.start in
  length (Net.inbox "c" (Cluster.network (RaftCluster.cluster rc))) = 2%nat ∧
  length <$> among_late_sender = Some 3%nat ∧
  ∃ n, ∀ fuel, (n ≤ fuel)%nat →
    match RaftCluster.turn_among Demo.tmin Demo.tmax Demo.hb Demo.ids fuel (λ _, Demo.low) "c" (F.of_Z 151) late_sender rc with
    | (Ok handled, rc') => Net.inbox "c" (Cluster.network (RaftCluster.cluster rc')) = []
    | (Raise x, _) => ∃ c m m', sm_apply c m = (Raise x, m')
    end.
Proof.
  cbv zeta. split; [vm_compute; reflexivity|]. split; [vm_compute; reflexivity|].
  destruct (turn_terminates Demo.tmin Demo.tmax Demo.hb Demo.ids Demo.ids_nodup (Ledger.init ∅)
    (take 3 Threads.elect) "c" (λ _, Demo.low) (F.of_Z 151) late_sender 2) as [[n Hn] _].
  - right. right. left.
  - intros k. unfold late_sender. destruct (Nat.eqb k 1); repeat constructor. simpl. discriminate.
  - intros [|[|k]] Hk; [lia|lia|reflexivity].
  - exists n. intros fuel Hf. specialize (Hn fuel Hf).
    destruct (RaftCluster.turn_among _ _ _ _ _ _ _ _ _ _) as [[h|x] rc']; [apply Hn|exact Hn].
Defined.

Abbreviation demo_propose := (RaftCluster.propose Demo.tmin Demo.tmax Demo.hb Demo.ids Threads.idle Threads.clock).

Lemma propose_contract_witness :
  match demo_propose 8 Demo.credit (F.of_Z 3) (Threads.client Threads.elect) with
  | (Ok e, w') => entry_command e = Demo.credit ∧
      RaftCluster.appended Demo.tmin Demo.tmax Demo.hb Demo.ids Threads.idle Threads.clock
        Demo.credit e (Threads.client Threads.elect) w'
  | (Raise _, _) => False
  end ∧ (demo_propose 8 Demo.credit (F.of_Z 3) (Threads.client [])).1 = Raise RaftCluster.no_leader.
Proof.
  split; [|vm_compute; reflexivity].
  pose proof (propose_contract Demo.tmin Demo.tmax Demo.hb Demo.ids Demo.ids_nodup (Ledger.init ∅)
    Threads.idle Threads.clock Threads.elect 8 Demo.credit (F.of_Z 3) 3 7 (Threads.client Threads.elect) (Threads.client_shared _)
    Threads.clock_expires ltac:(lia)) as H.
  assert (Hok : res_is_ok (demo_propose 8 Demo.credit (F.of_Z 3) (Threads.client Threads.elect)).1 = true)
    by (vm_compute; reflexivity).
  destruct (demo_propose 8 Demo.credit (F.of_Z 3) (Threads.client Threads.elect)) as [[e|x] w'];
    [exact (conj (proj1 H) (proj1 (proj2 H)))|discriminate Hok].
Defined.

Definition cleared_credit : ScoredTransaction :=
  mkScored (mkTransaction "alice" CREDIT (DFin 10000 (-2)) None "USD" "us-east" PENDING "t1" 0 ∅)
    (mkFraudScore "t1" "w1" F.zero false [] 0).

Lemma settles_through_cluster_witness :
  let w := Submitter.mkWorld (Submitter.init (F.of_Z 3)) [] (Threads.client Threads.elect) in
  ∃ w', @Submitter.handle _ (cluster_proposer Demo.tmin Demo.tmax Demo.hb Demo.ids Threads.idle Threads.clock 8)
          cleared_credit 0 w = (Ok tt, w') ∧ Submitter.submitted_count (Submitter.submitter w') = 1.
Proof.
  intros w.
  destruct (settles_through_cluster Demo.tmin Demo.tmax Demo.hb Demo.ids Demo.ids_nodup (Ledger.init ∅)
    Threads.idle Threads.clock 8 Threads.elect cleared_credit 0 w 10000 (-2) 3 7) as (w' & E & H).
  - apply Threads.client_shared.
  - reflexivity.
  - reflexivity.
  - split; vm_compute; reflexivity.
  - split; vm_compute; discriminate.
  - exact Threads.clock_expires.
  - lia.
  - exists w'. split; [exact E|]. revert E H.
    assert (Hc : Submitter.submitted_count (Submitter.submitter (@Submitter.handle _ (cluster_proposer Demo.tmin Demo.tmax
      Demo.hb Demo.ids Threads.idle Threads.clock 8) cleared_credit 0 w).2) = 1) by (vm_compute; reflexivity).
    intros E _. rewrite E in Hc. exact Hc.
Defined.

(** A snapshot can show two leaders of one term: [snapshot] reads
    [is_leader], [current_term] and [leader_id] of a node under three separate
    acquisitions of its lock.  When [c] deposes [a] between the first two reads
    of [a], the snapshot reports both [a] and [c] as leader of term 2, though
    [a] led in term 1 only: the report is of no state of the cluster. *)
Theorem snapshot_two_leaders :
  let others k := if Nat.eqb k 2 then Threads.depose else [] in
  let shot := (RaftCluster.snapshot Demo.tmin Demo.tmax Demo.hb Demo.ids others (Threads.client Threads.elect)).1 in
  shot = Ok [("a", RaftCluster.mkStatus true 2 None); ("b", RaftCluster.mkStatus false 2 None);
             ("c", RaftCluster.mkStatus true 2 (Some "c"))] ∧
  Forall (λ n, match Cluster.slots (RaftCluster.cluster (Threads.run (Threads.elect ++ take n Threads.depose) Threads.start)) !! "a" with
               | Some s => Raft.is_leader (Cluster.slot_node s) = true → Storage.current_term (Cluster.slot_storage s) = 1
               | None => False
               end) (seq 0 11).
Proof.
  split; [vm_compute; reflexivity|]. apply Forall_forall.
  assert (H : forallb (λ n, match Cluster.slots (RaftCluster.cluster (Threads.run (Threads.elect ++ take n Threads.depose) Threads.start)) !! "a" with
               | Some s => negb (Raft.is_leader (Cluster.slot_node s)) || (Storage.current_term (Cluster.slot_storage s) =? 1)
               | None => false
               end) (seq 0 11) = true) by (vm_compute; reflexivity).
  intros n Hn. rewrite forallb_forall in H. specialize (H n). rewrite <- list_elem_of_In in H. specialize (H Hn).
  destruct (Cluster.slots _ !! "a") as [s|]; [|discriminate H].
  intros Hl. rewrite Hl in H. by apply Z.eqb_eq in H.
Qed.

(** ** A transaction counted as submitted can be lost *)

Module Lost.
Definition op (o : RaftCluster.Op LedgerEntry) : Threads.Op := (o, Threads.draws).
(** [a] leads, and then is alone. *)
Definition minority : list Threads.Op :=
  Threads.elect ++ [Threads.T "b" 155; Threads.T "c" 155; Threads.T "a" 156; op (RaftCluster.Kill "b"); op (RaftCluster.Kill "c")].
(** [a] crashes, the others come back and elect [b], [a] comes back, and [b]
    replicates another entry. *)
Definition recover : list Threads.Op :=
  [op (RaftCluster.Kill "a"); op (RaftCluster.Revive "b" (F.of_Z 200)); (RaftCluster.Revive "c" (F.of_Z 200), λ _, Demo.high);
   Threads.T "b" 360; Threads.T "c" 361; Threads.T "b" 362; Threads.T "c" 363; Threads.T "b" 364; Threads.T "c" 365;
   Threads.T "b" 366; op (RaftCluster.Revive "a" (F.of_Z 370)); Threads.T "b" 420; Threads.T "a" 421; Threads.T "b" 422;
   op (RaftCluster.ProposeAt "b" Demo.debit (F.of_Z 425)); Threads.T "a" 426; Threads.T "c" 426; Threads.T "b" 427;
   Threads.T "b" 480; Threads.T "a" 481; Threads.T "c" 481].
#[local] Instance proposer : Proposer (RaftCluster.Client LedgerEntry Ledger.LedgerStateMachine) :=
  RaftCluster.proposer Demo.tmin Demo.tmax Demo.hb Demo.ids Threads.idle Threads.clock 8.
Definition handled : res unit * Submitter.World (RaftCluster.Client LedgerEntry Ledger.LedgerStateMachine) :=
  Submitter.handle cleared_credit 0 (Submitter.mkWorld (Submitter.init (F.of_Z 3)) [] (Threads.client minority)).
Definition final : Cluster.Cluster LedgerEntry Ledger.LedgerStateMachine (Net.InMemoryTransport LedgerEntry) :=
  RaftCluster.cluster (Threads.run recover (RaftCluster.shared (Submitter.cluster handled.2))).
Definition log_ids (id : string) : list string :=
  (λ e, le_entry_id (entry_command e)) <$> Storage.entries (Cluster.slot_storage (Demo.slot id final)).
End Lost.

(** Counted, then lost: [propose] returns when a leader has appended the
    entry, not when it is committed, and the submitter counts it as submitted
    then.  Here a leader without a majority takes the transaction [t1], crashes,
    and the other two elect a leader without it; in the end [t1] is in no log,
    another entry is committed in its place, and the submitter reports one
    submitted transaction and no failed one. *)
Theorem submitted_then_lost :
  Lost.handled.1 = Ok tt ∧
  Submitter.submitted_count (Submitter.submitter Lost.handled.2) = 1 ∧
  Submitter.failed_transaction_ids (Submitter.submitter Lost.handled.2) = [] ∧
  (Lost.log_ids <$> Demo.ids) = [["t2"]; ["t2"]; ["t2"]] ∧
  Raft.commit_index (Cluster.slot_node (Demo.slot "a" Lost.final)) = 1.
Proof. vm_compute. by split_and!. Qed.
