(* ===== verification/Harness.v ===== *)
(** * The simulated cluster of the Raft tests (raft/tests/harness.py)

    One logical clock drives every node's [tick] and the delivery of every
    message in lockstep; a test scripts kills, partitions and proposals
    between two advances of the clock.  The nodes, storages and state machines
    are those of Cluster.v.  All nodes draw from one [random.Random]: what its
    [uniform] answers is a parameter, one function for each call into a node. *)

From stdpp Require Import base gmap strings list.
From Stdlib Require Import ZArith Lia.
From S2P Require Import Prelude PyFloat RaftTypes Storage StateMachine Transport RaftNode Cluster Runtime.

Local Open Scope Z_scope.

Module Harness.
Section harness.
Context {C S : Type} {Hsm : StateMachine C S}.
Variables tmin tmax hb : float.
Variable ids : list string.
Variable uniform : nat → nat → float → float → float.

Abbreviation T := (Net.InMemoryTransport C).
Abbreviation Cl := (Cluster.Cluster C S T).
Abbreviation World_ := (Raft.World C S T).

Record Harness := mkHarness {
  cluster : Cl;              (* [nodes], [storages], [state_machines], [transport] *)
  now : float;
  killed : gset string;
  calls : nat                (* calls into nodes so far *)
}.

Abbreviation M := (Py Harness).

Definition with_cluster (cl : Cl) (h : Harness) : Harness := mkHarness cl (now h) (killed h) (calls h).
Definition on_transport (f : T → T) : M unit :=
  modify (λ h, with_cluster (Cluster.mkCluster (Cluster.slots (cluster h)) (f (Cluster.network (cluster h)))) h).

(** A call into [self.nodes[id]] *)
Definition call {A} (id : string) (m : (nat → float → float → float) → Py World_ A) : M A := λ h,
  match Cluster.slots (cluster h) !! id with
  | Some s =>
      let '(r, w) := m (uniform (calls h)) (Cluster.world s (Cluster.network (cluster h))) in
      (r, mkHarness (Cluster.put id w (cluster h)) (now h) (killed h) (Datatypes.S (calls h)))
  | None => (Raise KeyError, h)
  end.

Definition start_node (id : string) : M unit :=
  (t <- get now ;; call id (λ rnd, Raft.start rnd t))%py.

(** ** Construction *)

(** One turn of the loop of [__init__]: an empty storage, a state machine of
    its own, and a node over them that is started. *)
Definition add_node (state_machine : S) (id : string) : M unit :=
  (modify (λ h, with_cluster (Cluster.put id
     (Cluster.build_node tmin tmax hb ids id Storage.init state_machine (Cluster.network (cluster h))) (cluster h)) h) ;;;
   start_node id)%py.

Definition init (state_machine : S) : res unit * Harness :=
  for_each (add_node state_machine) ids (mkHarness (Cluster.mkCluster ∅ Net.init) F.zero ∅ 0).

(** [self.nodes[node_id] = self._build_node(node_id)], over what survives *)
Definition build_node (id : string) : M unit := λ h,
  match Cluster.slots (cluster h) !! id with
  | Some s =>
      (Ok tt, with_cluster (Cluster.put id (Cluster.build_node tmin tmax hb ids id (Cluster.slot_storage s)
         (Cluster.slot_machine s) (Cluster.network (cluster h))) (cluster h)) h)
  | None => (Raise KeyError, h)
  end.

(** ** Driving the simulation *)

Definition is_killed (id : string) : M bool := get (λ h, bool_decide (id ∈ killed h)).

Definition tick_one (id : string) : M unit :=
  (dead <- is_killed id ;;
   if dead : bool then ret tt
   else t <- get now ;; call id (λ rnd, Raft.tick rnd t))%py.

Definition deliver_one (id : string) : M Z :=
  (t <- get now ;; call id (λ rnd, deliver_to id (λ env, Raft.receive rnd env t)))%py.

(** One pass over the nodes; whether anything was delivered *)
Fixpoint drain_pass (l : list string) (delivered_any : bool) : M bool :=
  match l with
  | [] => ret delivered_any
  | id :: l =>
      (dead <- is_killed id ;;
       if dead : bool then drain_pass l delivered_any
       else
         delivered <- deliver_one id ;;
         drain_pass l (delivered_any || (0 <? delivered)))%py
  end.

Definition no_quiescence : exn := RuntimeError "message delivery did not quiesce -- likely an infinite reply loop".

Fixpoint drain_passes (n : nat) : M unit :=
  match n with
  | O => raise no_quiescence
  | Datatypes.S n => (any <- drain_pass ids false ;; if any : bool then drain_passes n else ret tt)%py
  end.
Definition drain_messages : M unit := drain_passes 1000.

Definition pump : M unit := (for_each tick_one ids ;;; drain_messages)%py.

Fixpoint advance (dt : float) (steps : nat) : M unit :=
  match steps with
  | O => ret tt
  | Datatypes.S steps =>
      (modify (λ h, mkHarness (cluster h) (F.add (now h) dt) (killed h) (calls h)) ;;;
       pump ;;; advance dt steps)%py
  end.

(** ** Fault injection *)

Definition set_killed (f : gset string → gset string) : M unit :=
  modify (λ h, mkHarness (cluster h) (now h) (f (killed h)) (calls h)).

Definition kill (id : string) : M unit :=
  (set_killed (λ k, {[id]} ∪ k) ;;; on_transport (Net.partition [id]))%py.
Definition revive (id : string) : M unit :=
  (set_killed (λ k, k ∖ {[id]}) ;;; on_transport (Net.rejoin [id]) ;;; build_node id ;;; start_node id)%py.
Definition partition (node_ids : list string) : M unit := on_transport (Net.partition node_ids).
Definition heal : M unit := on_transport Net.heal.

(** ** Assertions and queries *)

Definition leader_term (h : Harness) (id : string) : option (string * Z) :=
  if bool_decide (id ∈ killed h) then None
  else
    match Cluster.slots (cluster h) !! id with
    | Some s =>
        if Raft.is_leader (Cluster.slot_node s) then Some (id, Storage.current_term (Cluster.slot_storage s)) else None
    | None => None
    end.
(** The nodes that are not killed and lead, with their terms *)
Definition live_leaders (h : Harness) : list (string * Z) := omap (leader_term h) ids.

(** [by_term.setdefault(node.current_term, []).append(nid)] *)
Definition add_leader (by_term : gmap Z (list string)) (l : string * Z) : gmap Z (list string) :=
  <[l.2 := default [] (by_term !! l.2) ++ [l.1]]> by_term.
Definition by_term (h : Harness) : gmap Z (list string) := foldl add_leader ∅ (live_leaders h).

Definition assert_election_safety : M unit :=
  (leaders <- get by_term ;;
   if bool_decide (map_Forall (λ _ l, (length l ≤ 1)%nat) leaders) then ret tt else raise AssertionError)%py.

(** [max(live_leaders, key=lambda n: n.current_term)]: the first of the greatest *)
Fixpoint max_term (best : string * Z) (l : list (string * Z)) : string * Z :=
  match l with
  | [] => best
  | x :: l => max_term (if best.2 <? x.2 then x else best) l
  end.

Definition leader : M (option string) :=
  (assert_election_safety ;;;
   live <- get live_leaders ;;
   ret (match live with [] => None | x :: l => Some (max_term x l).1 end))%py.

Definition no_leader_elected : exn := TimeoutError "no leader elected within simulated time budget".

Fixpoint elect_leader (dt : float) (max_steps : nat) (min_term : Z) : M string :=
  match max_steps with
  | O => raise no_leader_elected
  | Datatypes.S n =>
      (advance dt 1 ;;;
       found <- leader ;;
       match found with
       | Some id =>
           term <- call id (λ _, Raft.reads Storage.get_current_term) ;;
           if min_term <? term then ret id else elect_leader dt n min_term
       | None => elect_leader dt n min_term
       end)%py
  end.

Definition propose (command : C) : M (LogEntry C) :=
  (found <- leader ;;
   id <- match found with Some id => ret id | None => elect_leader (F.of_Z 10) 100 0 end ;;
   t <- get now ;;
   entry <- call id (λ _, Raft.propose command t) ;;
   match entry with Some e => ret e | None => raise AssertionError end)%py.

Definition settle (dt : float) (rounds : nat) : M unit := advance dt rounds.

(** [list(self.state_machines[node_id].applied)] *)
Definition applied {X} (applied_of : S → list X) (id : string) : M (list X) := λ h,
  match Cluster.slots (cluster h) !! id with
  | Some s => (Ok (applied_of (Cluster.slot_machine s)), h)
  | None => (Raise KeyError, h)
  end.

Definition live_node_ids (h : Harness) : list string := filter (λ id, id ∉ killed h) ids.

(** What a test does with the cluster. *)
Inductive Op :=
| Advance (dt : float) (steps : nat)
| Kill (id : string)
| Revive (id : string)
| Partition (node_ids : list string)
| Heal
| Leader
| ElectLeader (dt : float) (max_steps : nat) (min_term : Z)
| Propose (command : C)
| AssertElectionSafety.

Definition exec (op : Op) : M unit :=
  match op with
  | Advance dt steps => advance dt steps
  | Kill id => kill id
  | Revive id => revive id
  | Partition l => partition l
  | Heal => heal
  | Leader => (_ <- leader ;; ret tt)%py
  | ElectLeader dt n t => (_ <- elect_leader dt n t ;; ret tt)%py
  | Propose c => (_ <- propose c ;; ret tt)%py
  | AssertElectionSafety => assert_election_safety
  end.
(** A script, over the operations that raise. *)
Definition run (ops : list Op) (h : Harness) : Harness := foldl (λ h op, (exec op h).2) h ops.
End harness.
Arguments Harness C S : clear implicits.
Arguments Op C : clear implicits.
End Harness.
