(* ===== verification/HarnessProps.v ===== *)
(** * Every script of the test harness

    What a test can do with the simulated cluster is a run of the events of
    Cluster.v, so its own assertions cannot fail, and it raises only for want
    of a leader or of quiescence, for an unknown node, or what the state
    machine raises. *)

From stdpp Require Import base gmap strings list.
From Stdlib Require Import ZArith Lia.
From S2P Require Import Prelude PyFloat RaftTypes Storage StateMachine Ledger Transport RaftNode RaftFrame.
From S2P Require Import RaftSpec RaftInv RaftHistory RaftRefine Cluster RaftProps Runtime RaftCluster ClusterProps Demo Harness.
Import Harness.

Local Open Scope Z_scope.

Section props.
Context {C S : Type} {Hsm : StateMachine C S}.
Variables tmin tmax hb : float.
Variable ids : list string.
Hypothesis Hids : NoDup ids.
Variable uniform : nat → nat → float → float → float.
Variable sm0 : S.

Abbreviation H := (Harness C S).
Abbreviation M := (Py H).
Abbreviation T := (Net.InMemoryTransport C).
Abbreviation start0 := (Cluster.init (C := C) tmin tmax hb ids sm0 Net.init).
Abbreviation evolves := (RaftCluster.evolves (C := C) (S := S) tmin tmax hb ids (λ _, True)).
Abbreviation events := (Cluster.run (S := S) (T := T) tmin tmax hb ids).
Abbreviation members := (list_to_set ids : gset string).
Abbreviation machine_exn := (Refine.machine_exn (C := C) (S := S)).
Abbreviation call := (Harness.call (C := C) (S := S) uniform).
Implicit Types h : H.

(** The cluster of the harness is that of a run of events. *)
Definition Good h : Prop := evolves start0 (cluster h).

Lemma good_clean h : Good h → RaftCluster.clean (cluster h).
Proof. intros Hg. eapply RaftCluster.clean_evolves; [exact Hg|]. apply (RaftCluster.init_clean tmin tmax hb ids sm0). Qed.

Lemma good_refines h : Good h → ∃ G, Cluster.refines ids sm0 (λ _, True) (cluster h) G ∧ Inv.inv members G.
Proof. intros (evs & He & ->). exact (one_point tmin tmax hb ids Hids sm0 Net.init Net.queued_init (λ _, True) evs He). Qed.

Lemma good_slots h id : Good h → id ∈ ids → is_Some (Cluster.slots (cluster h) !! id).
Proof. intros Hg Hid. destruct (good_refines h Hg) as (G & Hf & _). by apply (Cluster.f_slots _ _ _ _ _ Hf). Qed.

Lemma good_slot_in h id s : Good h → Cluster.slots (cluster h) !! id = Some s → id ∈ ids.
Proof. intros Hg Hs. destruct (good_refines h Hg) as (G & Hf & _). by destruct (Cluster.f_slot _ _ _ _ _ Hf _ _ Hs). Qed.

Lemma good_event ev rnd h cl : Good h → Cluster.event_allowed (λ _, True) ev →
  cl = (Cluster.exec tmin tmax hb ids ev rnd (cluster h)).2 → Good (with_cluster cl h).
Proof. intros Hg Hev ->. eapply RaftCluster.evolves_trans; [exact Hg|]. by apply RaftCluster.evolves_event. Qed.

(** ** Calls that keep the harness good, and what they raise *)

Definition fine (bad : exn → Prop) {A} (m : M A) : Prop :=
  ∀ h, Good h → Good (m h).2 ∧ ∀ x, (m h).1 = Raise x → bad x.

Lemma fine_weaken (bad bad' : exn → Prop) {A} (m : M A) : (∀ x, bad x → bad' x) → fine bad m → fine bad' m.
Proof. intros Hb Hm h Hg. destruct (Hm h Hg) as [H1 H2]. split; [done|]. intros x Hx. by apply Hb, H2. Qed.

Lemma fine_ret bad {A} (a : A) : fine bad (ret a).
Proof. by intros h Hg. Qed.

Lemma fine_get bad {A} (f : H → A) : fine bad (get f).
Proof. by intros h Hg. Qed.

Lemma fine_raise (bad : exn → Prop) {A} x : bad x → fine bad (raise (A := A) x).
Proof. intros Hx h Hg. split; [done|]. by intros ? [= <-]. Qed.

Lemma fine_bind bad {A B} (m : M A) (k : A → M B) : fine bad m → (∀ a, fine bad (k a)) → fine bad (bind m k).
Proof.
  intros Hm Hk h Hg. destruct (Hm h Hg) as [H1 H2]. unfold bind. destruct (m h) as [[a|x] h1]; [by apply Hk|].
  split; [done|]. intros y [= <-]. by apply H2.
Qed.

Lemma fine_for_each bad {A} (f : A → M unit) l : (∀ a, a ∈ l → fine bad (f a)) → fine bad (for_each f l).
Proof.
  induction l as [|a l IH]; intros Hf; [apply fine_ret|]. simpl. apply fine_bind; [apply Hf; left|].
  intros _. apply IH. intros b Hb. apply Hf. by right.
Qed.

(** A change of the clock or of the set of killed nodes *)
Lemma fine_modify bad (f : H → H) : (∀ h, cluster (f h) = cluster h) → fine bad (modify f).
Proof. intros Hf h Hg. split; [|done]. unfold Good. simpl. by rewrite Hf. Qed.

Lemma fine_move bad (f : T → T) move : (∀ t, f t = n_moved move t) → fine bad (on_transport f).
Proof.
  intros Hf h Hg. split; [|done]. apply (good_event (Cluster.Env move) (λ _ x _, x) h _ Hg I). simpl. by rewrite Hf.
Qed.

(** A call into a node that is an event of the cluster *)
Lemma fine_call {A} id (m : (nat → float → float → float) → Py (Raft.World C S T) A) ev (f : A → Cluster.Outcome) :
  (∀ rnd cl, Cluster.exec tmin tmax hb ids ev rnd cl =
     let '(r, cl') := Cluster.on_slot id (m rnd) cl in (Cluster.outcome f r, cl')) →
  Cluster.event_allowed (λ _, True) ev → id ∈ ids → fine machine_exn (call id m).
Proof.
  intros Hev Hall Hid h Hg. destruct (good_slots h id Hg Hid) as [s Hs].
  specialize (Hev (uniform (calls h)) (cluster h)).
  pose proof (good_event ev (uniform (calls h)) h _ Hg Hall eq_refl) as Hg'.
  destruct (good_refines h Hg) as (G & Hf & _).
  destruct (Cluster.exec_refines tmin tmax hb ids Hids sm0 (λ _, True) ev (uniform (calls h)) _ G Hf Hall) as (_ & _ & _ & Hno).
  unfold Harness.call. rewrite Hs. unfold Cluster.on_slot in Hev. rewrite Hs in Hev.
  destruct (m (uniform (calls h)) _) as [r w]. rewrite Hev in Hg', Hno. simpl in *. split; [exact Hg'|].
  intros x ->. exact Hno.
Qed.

Lemma fine_start id : id ∈ ids → fine machine_exn (start_node (C := C) (S := S) uniform id).
Proof.
  intros Hid. apply fine_bind; [apply fine_get|]. intros t.
  apply (fine_call id _ (Cluster.Start id t) (λ _, Cluster.Done)); [done|exact I|done].
Qed.

Lemma fine_tick id : id ∈ ids → fine machine_exn (tick_one (C := C) (S := S) uniform id).
Proof.
  intros Hid. apply fine_bind; [apply fine_get|]. intros [|]; [apply fine_ret|].
  apply fine_bind; [apply fine_get|]. intros t.
  apply (fine_call id _ (Cluster.Tick id t) (λ _, Cluster.Done)); [done|exact I|done].
Qed.

Lemma fine_deliver id : id ∈ ids → fine machine_exn (deliver_one (C := C) (S := S) uniform id).
Proof.
  intros Hid. apply fine_bind; [apply fine_get|]. intros t h Hg. destruct (good_slots h id Hg Hid) as [s Hs].
  unfold Harness.call. rewrite Hs. set (w := Cluster.world s (Cluster.network (cluster h))).
  pose proof (RaftCluster.clean_no_echo id s _ (good_clean h Hg) Hs) as Hecho. fold w in Hecho.
  unfold deliver_to, Runtime.deliver_inbox, bind, get. set (fuel := Datatypes.S _).
  set (rnd := uniform (calls h)).
  destruct (good_refines h Hg) as (G & Hf & _). destruct (Cluster.f_slot _ _ _ _ _ Hf _ _ Hs) as [_ HR].
  assert (Hm : id ∈ members) by set_solver.
  pose proof (Runtime.deliver_loop_ends rnd t (λ w, ∃ G, Refine.R members sm0 id w G) machine_exn
    (λ id' v e rest, receive_keeps ids sm0 id rnd t id' v e rest Hm) id fuel w 0 (ex_intro _ G HR) Hecho (le_n _)) as Hend.
  destruct (Runtime.deliver_loop_events rnd tmin tmax hb ids id t fuel w 0 (cluster h)) as (k & _ & Hev).
  assert (Hput : Cluster.put id w (cluster h) = cluster h).
  { unfold Cluster.put, w. destruct (cluster h) as [sl net]. simpl in *. f_equal. rewrite insert_id; [done|]. by destruct s. }
  rewrite Hput in Hev. destruct (Runtime.deliver_loop _ _ _ _ w) as [r w']. simpl in *. split.
  - unfold Good. simpl. rewrite Hev. eapply RaftCluster.evolves_trans; [exact Hg|]. eexists. split; [|reflexivity].
    apply Forall_replicate. exact I.
  - intros x ->. exact Hend.
Qed.

(** ** At most one leader a term *)

Lemma leaders_agree h id1 id2 t : Good h →
  leader_term h id1 = Some (id1, t) → leader_term h id2 = Some (id2, t) → id1 = id2.
Proof.
  intros Hg H1 H2. destruct (good_refines h Hg) as (G & Hf & HI).
  assert (Hl : ∀ id, leader_term h id = Some (id, t) → Spec.leader G t = Some id).
  { intros id. unfold leader_term. case_bool_decide; [done|].
    destruct (Cluster.slots (cluster h) !! id) as [s|] eqn:Es; [|done].
    unfold Raft.is_leader. case_bool_decide as Hst; [|done]. intros [= <-].
    destruct (slot_anode _ _ _ _ _ _ _ Hf Es) as (a & _ & Hv).
    destruct (Inv.no_leader _ _ _ (Inv.i_node _ _ HI id)) as (HL & _); [by rewrite Hv|].
    by rewrite Hv in HL. }
  apply Hl in H1. apply Hl in H2. congruence.
Qed.

Lemma leader_term_id h id l : leader_term h id = Some l → l.1 = id.
Proof. unfold leader_term. repeat case_match; first [done | by intros [= <-]]. Qed.

Lemma live_leaders_nodup h : NoDup (live_leaders ids h).
Proof.
  unfold live_leaders. generalize Hids. generalize ids. clear Hids ids. induction 1 as [|id l Hni Hnd IH]; [constructor|]. simpl.
  destruct (leader_term h id) as [x|] eqn:E; [|done]. constructor; [|done].
  rewrite list_elem_of_omap. intros (id' & Hin & E'). apply leader_term_id in E, E'. congruence.
Qed.

Lemma live_leader_term h l : l ∈ live_leaders ids h → leader_term h l.1 = Some l ∧ l.1 ∈ ids.
Proof. unfold live_leaders. rewrite list_elem_of_omap. intros (id & Hin & E). by rewrite (leader_term_id _ _ _ E). Qed.

(** The leaders of a term, as the dict of the assertion holds them *)
Lemma by_term_lookup t L : ∀ m : gmap Z (list string),
  length (default [] (foldl add_leader m L !! t)) =
  (length (default [] (m !! t)) + length (filter (λ l, l.2 = t) L))%nat.
Proof.
  induction L as [|l L IH]; intros m; simpl; [lia|]. rewrite IH. unfold add_leader. rewrite filter_cons.
  case_decide as E.
  - rewrite E, lookup_insert_eq. simpl. rewrite length_app. simpl. lia.
  - by rewrite lookup_insert_ne.
Qed.

Lemma short {A} (l : list A) : NoDup l → (∀ x y, x ∈ l → y ∈ l → x = y) → (length l ≤ 1)%nat.
Proof.
  intros Hnd Heq. destruct l as [|x [|y l]]; simpl; [lia..|]. exfalso.
  apply NoDup_cons in Hnd as [Hni _]. apply Hni. rewrite (Heq x y); [left|left|right; left].
Qed.

Lemma assertion_holds h : Good h → assert_election_safety ids h = (Ok tt, h).
Proof.
  intros Hg. unfold assert_election_safety, bind, get. rewrite bool_decide_true; [done|].
  intros t l Hl. unfold by_term in Hl. pose proof (by_term_lookup t (live_leaders ids h) ∅) as Hlen.
  rewrite Hl, lookup_empty in Hlen. simpl in Hlen. rewrite Hlen.
  apply short; [apply NoDup_filter, live_leaders_nodup|].
  intros [x u] [y v] [Hx Hxl]%list_elem_of_filter [Hy Hyl]%list_elem_of_filter. simpl in Hx, Hy. subst u v.
  apply live_leader_term in Hxl as [Hxl _], Hyl as [Hyl _]. f_equal. by apply (leaders_agree h x y t).
Qed.

Lemma max_term_spec L : ∀ best, max_term best L ∈ best :: L ∧ ∀ x, x ∈ best :: L → x.2 ≤ (max_term best L).2.
Proof.
  induction L as [|y L IH]; intros best; simpl.
  { split; [left|]. by intros x ->%list_elem_of_singleton. }
  destruct (IH (if best.2 <? y.2 then y else best)) as [Hin Hmax].
  pose proof (Hmax _ ltac:(left)) as Hb. split.
  - apply elem_of_cons in Hin as [->|Hin]; [destruct (best.2 <? y.2); [right; left|left]|right; by right].
  - intros x [-> | [-> |Hx]%elem_of_cons]%elem_of_cons; [| |apply Hmax; by right];
      destruct (Z.ltb_spec best.2 y.2); lia.
Qed.

(** [leader] finds the live leader of the greatest term. *)
Definition finds h (o : option string) : Prop :=
  match o with
  | None => live_leaders ids h = []
  | Some id => ∃ t, (id, t) ∈ live_leaders ids h ∧ ∀ l, l ∈ live_leaders ids h → l.2 ≤ t
  end.

Lemma leader_spec h : Good h → ∃ o, leader ids h = (Ok o, h) ∧ finds h o.
Proof.
  intros Hg. unfold leader, bind. rewrite assertion_holds by done. unfold get, ret. eexists. split; [reflexivity|].
  unfold finds. destruct (live_leaders ids h) as [|x L]; [done|].
  destruct (max_term_spec L x) as [Hin Hmax]. exists (max_term x L).2. rewrite <- surjective_pairing. by split.
Qed.

Lemma fine_leader bad : fine bad (leader (C := C) (S := S) ids).
Proof. intros h Hg. destruct (leader_spec h Hg) as (o & -> & _). by split. Qed.

(** ** The operations *)

(** What an operation may raise. *)
Definition may_raise (x : exn) : Prop := x = no_quiescence ∨ machine_exn x.

Lemma fine_machine {A} (m : M A) : fine machine_exn m → fine may_raise m.
Proof. apply fine_weaken. intros x Hx. by right. Qed.

Lemma fine_drain_pass l : ∀ any, (∀ id, id ∈ l → id ∈ ids) → fine may_raise (drain_pass (C := C) (S := S) uniform l any).
Proof.
  induction l as [|id l IH]; intros any Hl; [apply fine_ret|]. simpl.
  apply fine_bind; [apply fine_get|]. intros [|].
  - apply IH. intros x Hx. apply Hl. by right.
  - apply fine_bind; [apply fine_machine, fine_deliver, Hl; left|]. intros d. apply IH. intros x Hx. apply Hl. by right.
Qed.

Lemma fine_drain n : fine may_raise (drain_passes (C := C) (S := S) ids uniform n).
Proof.
  induction n as [|n IH]; [apply fine_raise; by left|]. simpl.
  apply fine_bind; [by apply fine_drain_pass|]. intros [|]; [exact IH|apply fine_ret].
Qed.

Lemma fine_advance dt steps : fine may_raise (advance (C := C) (S := S) ids uniform dt steps).
Proof.
  induction steps as [|n IH]; [apply fine_ret|]. simpl.
  apply fine_bind; [by apply fine_modify|]. intros _. apply fine_bind; [|done].
  apply fine_bind; [|intros _; apply fine_drain].
  apply fine_for_each. intros id Hid. by apply fine_machine, fine_tick.
Qed.

Definition may_not_elect (x : exn) : Prop := x = no_leader_elected ∨ may_raise x.

(** A node that is alive and leads *)
Definition leads h (id : string) : Prop := ∃ t, (id, t) ∈ live_leaders ids h.

Lemma leads_slot h id : leads h id →
  id ∈ ids ∧ (id ∉ killed h) ∧ ∃ s, Cluster.slots (cluster h) !! id = Some s ∧ Raft.is_leader (Cluster.slot_node s) = true.
Proof.
  intros (t & [E Hid]%live_leader_term). simpl in *. split; [done|]. unfold leader_term in E.
  case_bool_decide; [done|]. split; [done|]. destruct (Cluster.slots (cluster h) !! id) as [s|]; [|done].
  exists s. split; [done|]. by destruct (Raft.is_leader (Cluster.slot_node s)).
Qed.

Lemma read_term h id : Good h → id ∈ ids →
  ∃ t n, call id (λ _, Raft.reads Storage.get_current_term) h = (Ok t, mkHarness (cluster h) (now h) (killed h) n).
Proof.
  intros Hg Hid. destruct (good_slots h id Hg Hid) as [s Hs]. unfold Harness.call. rewrite Hs.
  eexists _, _. unfold Raft.reads, get. f_equal. f_equal. unfold Cluster.put. destruct (cluster h) as [sl net]. simpl in *.
  f_equal. rewrite insert_id; [done|]. by destruct s.
Qed.

(** [elect_leader] returns a live leader, or raises. *)
Lemma elect_leader_spec dt n t : ∀ h, Good h →
  let '(r, h') := elect_leader ids uniform dt n t h in
  Good h' ∧ match r with Ok id => leads h' id | Raise x => may_not_elect x end.
Proof.
  induction n as [|n IH]; intros h Hg; [split; [done|by left]|]. cbn [elect_leader]. unfold bind at 1.
  destruct (fine_advance dt 1 h Hg) as [Hg1 Hx].
  destruct (advance ids uniform dt 1 h) as [[[]|x] h1]; [|split; [done|right; by apply Hx]]. simpl in Hg1.
  unfold bind at 1. destruct (leader_spec h1 Hg1) as (o & -> & Ho). destruct o as [id|]; [|by apply IH].
  destruct Ho as (u & Hin & _). assert (Hl : leads h1 id) by by exists u.
  unfold bind. destruct (leads_slot h1 id Hl) as [Hid _]. destruct (read_term h1 id Hg1 Hid) as (v & k & ->).
  destruct (t <? v); [|by apply IH]. split; [exact Hg1|]. exists u. exact Hin.
Qed.

(** What a proposal that is accepted leaves: the command is the last entry of
    the log of a live leader, in its term. *)
Definition accepted (c : C) (e : LogEntry C) h : Prop :=
  entry_command e = c ∧
  ∃ id s, (id ∉ killed h) ∧ Cluster.slots (cluster h) !! id = Some s ∧
    last (Storage.entries (Cluster.slot_storage s)) = Some e ∧
    entry_term e = Storage.current_term (Cluster.slot_storage s) ∧
    entry_index e = zlen (Storage.entries (Cluster.slot_storage s)).

(** A live leader takes every proposal: the assertion of [propose] holds. *)
Lemma propose_at_leader c id h t : Good h → leads h id →
  ∃ e h', call id (λ _, Raft.propose c t) h = (Ok (Some e), h') ∧ accepted c e h' ∧ Good h'.
Proof.
  intros Hg Hl. destruct (leads_slot h id Hl) as (Hid & Hk & s & Hs & Hlead).
  pose proof (fine_call id (λ _, Raft.propose c t) (Cluster.Propose id c t) Cluster.Proposed
    (λ _ _, eq_refl) I Hid h Hg) as [Hg' _].
  unfold Harness.call in Hg' |- *. rewrite Hs in Hg' |- *.
  pose proof (Frame.propose_effect c t (Cluster.world s (Cluster.network (cluster h)))) as Hp.
  change (Raft.node (Cluster.world s (Cluster.network (cluster h)))) with (Cluster.slot_node s) in Hp. rewrite Hlead in Hp.
  destruct Hp as (w' & E & Hst). rewrite E in Hg' |- *. eexists _, _. split; [reflexivity|]. split; [|exact Hg'].
  split; [done|]. eexists id, _. split; [exact Hk|]. split; [simpl; by rewrite lookup_insert_eq|]. simpl. rewrite Hst.
  unfold Storage.append. simpl. split_and!; [by rewrite last_snoc|done|by rewrite zlen_app].
Qed.

Lemma harness_propose c h : Good h →
  let '(r, h') := propose ids uniform c h in
  Good h' ∧ match r with Ok e => accepted c e h' | Raise x => may_not_elect x end.
Proof.
  intros Hg. unfold propose. unfold bind at 1. destruct (leader_spec h Hg) as (o & -> & Ho).
  assert (Hf : ∀ id h1, Good h1 → leads h1 id →
    let '(r, h') := (t <- get now ;; entry <- call id (λ _, Raft.propose c t) ;;
      match entry with Some e => ret e | None => raise AssertionError end)%py h1 in
    Good h' ∧ match r with Ok e => accepted c e h' | Raise x => may_not_elect x end).
  { intros id h1 Hg1 Hl. unfold bind, get. destruct (propose_at_leader c id h1 (now h1) Hg1 Hl) as (e & h2 & -> & Ha & Hg2).
    by split. }
  destruct o as [id|].
  - apply Hf; [done|]. destruct Ho as (t & Hin & _). by exists t.
  - unfold bind at 1. pose proof (elect_leader_spec (F.of_Z 10) 100 0 h Hg) as He.
    destruct (elect_leader _ _ _ _ _ h) as [[id|x] h1]; destruct He as [Hg1 He]; [by apply Hf|by split].
Qed.

Lemma fine_build id : fine (λ x, x = KeyError ∧ id ∉ ids) (build_node (C := C) (S := S) tmin tmax hb ids id).
Proof.
  intros h Hg. unfold build_node. pose proof (good_event (Cluster.Restart id) (λ _ x _, x) h _ Hg I eq_refl) as Hg'.
  simpl in Hg'. destruct (Cluster.slots (cluster h) !! id) as [s|] eqn:Es; [by split|].
  split; [done|]. intros x [= <-]. split; [done|]. intros Hid. destruct (good_slots h id Hg Hid). congruence.
Qed.

(** What one operation of a script may raise *)
Definition op_raises (op : Op C) (x : exn) : Prop :=
  may_not_elect x ∨ x = KeyError ∧ ∃ id, op = Revive id ∧ id ∉ ids.

Lemma fine_elect {A} (op : Op C) (m : M A) : fine may_not_elect m → fine (op_raises op) m.
Proof. apply fine_weaken. intros x Hx. by left. Qed.

Lemma fine_revive id : fine (op_raises (Revive id)) (revive (C := C) (S := S) tmin tmax hb ids uniform id).
Proof.
  apply fine_bind; [by apply fine_modify|intros _].
  apply fine_bind; [by apply (fine_move _ _ (Net.MRejoin [id]))|intros _].
  intros h Hg. destruct (decide (id ∈ ids)) as [Hid|Hid].
  - assert (Hf : fine machine_exn (build_node (C := C) (S := S) tmin tmax hb ids id ;;; start_node uniform id)%py).
    { apply fine_bind; [|intros _; by apply fine_start]. eapply fine_weaken; [|apply fine_build]. by intros x [_ ?]. }
    destruct (Hf h Hg) as [Hg' Hx]. split; [exact Hg'|]. intros x E. left. right. right. by apply Hx.
  - destruct (fine_build id h Hg) as [Hg' Hx]. unfold bind, build_node in *.
    destruct (Cluster.slots (cluster h) !! id) as [s|] eqn:Es; [by destruct (Hid (good_slot_in h id s Hg Es))|].
    split; [exact Hg'|]. intros x [= <-]. right. split; [done|]. by exists id.
Qed.

Lemma fine_exec op : fine (op_raises op) (exec tmin tmax hb ids uniform op).
Proof.
  destruct op as [dt n|id|id|l| | |dt n t|c|].
  - apply fine_elect. eapply fine_weaken; [|apply fine_advance]. intros x Hx. by right.
  - apply fine_bind; [by apply fine_modify|intros _]. by apply (fine_move _ _ (Net.MPartition [id])).
  - apply fine_revive.
  - by apply (fine_move _ _ (Net.MPartition l)).
  - by apply (fine_move _ _ Net.MHeal).
  - apply fine_bind; [apply fine_leader|]. intros _. apply fine_ret.
  - apply fine_bind; [|intros _; apply fine_ret]. apply fine_elect. intros h Hg. pose proof (elect_leader_spec dt n t h Hg) as He.
    destruct (elect_leader _ _ _ _ _ h) as [[id|x] h1]; destruct He as [Hg1 He]; (split; [exact Hg1|]); [done|by intros y [= <-]].
  - apply fine_bind; [|intros _; apply fine_ret]. apply fine_elect. intros h Hg. pose proof (harness_propose c h Hg) as He.
    destruct (propose _ _ _ h) as [[e|x] h1]; destruct He as [Hg1 He]; (split; [exact Hg1|]); [done|by intros y [= <-]].
  - intros h Hg. simpl. rewrite assertion_holds by done. by split.
Qed.

Lemma run_good ops : ∀ h, Good h → Good (run tmin tmax hb ids uniform ops h).
Proof. induction ops as [|op ops IH]; intros h Hg; [done|]. simpl. apply IH. by apply fine_exec. Qed.

(** ** Construction *)

Abbreviation Cl := (Cluster.Cluster C S T).
Definition fresh (cl : Cl) (id : string) : Cl :=
  Cluster.put id (Cluster.build_node tmin tmax hb ids id Storage.init sm0 (Cluster.network cl)) cl.
Definition started (n : nat) (t : float) (id : string) (cl : Cl) : Cl :=
  (Cluster.on_slot id (Raft.start (uniform n) t) cl).2.

(** Arming the election timeout of a node concerns that node alone. *)
Lemma started_fresh n t id id' cl : id ≠ id' → is_Some (Cluster.slots cl !! id) →
  started n t id (fresh cl id') = fresh (started n t id cl) id'.
Proof.
  intros Hne [s Hs]. unfold started, fresh. destruct cl as [sl net]. simpl in *.
  unfold Cluster.on_slot, Cluster.put. simpl. rewrite lookup_insert_ne by done. rewrite Hs. simpl.
  by rewrite insert_insert_ne.
Qed.

Lemma started_freshes n t id l : ∀ cl, id ∉ l → is_Some (Cluster.slots cl !! id) →
  started n t id (foldl fresh cl l) = foldl fresh (started n t id cl) l.
Proof.
  induction l as [|x l IH]; intros cl Hni Hs; [done|]. simpl. apply not_elem_of_cons in Hni as [Hx Hni].
  rewrite IH; [by rewrite started_fresh|done|]. unfold fresh, Cluster.put. simpl. by rewrite lookup_insert_ne.
Qed.

Lemma add_node_eq id h : ∃ h',
  add_node tmin tmax hb ids uniform sm0 id h = (Ok tt, h') ∧
  cluster h' = started (calls h) (now h) id (fresh (cluster h) id).
Proof.
  unfold add_node, start_node, bind, get, modify. unfold Harness.call, started, Cluster.on_slot, fresh. simpl.
  rewrite lookup_insert_eq. simpl. eexists. by split.
Qed.

Lemma add_nodes_events l : NoDup l → ∀ h, ∃ h',
  for_each (add_node tmin tmax hb ids uniform sm0) l h = (Ok tt, h') ∧
  evolves (foldl fresh (cluster h) l) (cluster h').
Proof.
  induction 1 as [|id l Hni Hnd IH]; intros h.
  { exists h. split; [done|]. apply RaftCluster.evolves_refl. }
  cbn [for_each foldl]. unfold bind. destruct (add_node_eq id h) as (h1 & -> & Hc1).
  destruct (IH h1) as (h' & -> & Hev). exists h'. split; [done|].
  eapply RaftCluster.evolves_trans; [|exact Hev]. rewrite Hc1.
  rewrite <- started_freshes; [|done|unfold fresh, Cluster.put; simpl; by rewrite lookup_insert_eq].
  apply (RaftCluster.start_slot_events tmin tmax hb ids (λ _, True)).
Qed.

Lemma init_good : ∃ h, init tmin tmax hb ids uniform sm0 = (Ok tt, h) ∧ Good h.
Proof. destruct (add_nodes_events ids Hids (mkHarness (Cluster.mkCluster ∅ Net.init) F.zero ∅ 0)) as (h & E & Hev). by exists h. Qed.

(** C25 (test scripts): whatever a test does with the simulated cluster,
    [__init__] returns and the cluster is always in a state that a run of
    events reaches, so that the guarantees on runs are guarantees on every
    test.  The harness's own assertions cannot fail: [assert_election_safety]
    returns, [leader] answers with a live leader of the greatest term exactly
    when there is one, and a proposal that returns is the last entry of the
    log of a live leader, in its term.  An operation raises only when delivery
    does not quiesce, no leader is elected in time, [revive] is given an
    unknown node, or the state machine raises. *)
Theorem harness_assertions_hold ops :
  ∃ h0, init tmin tmax hb ids uniform sm0 = (Ok tt, h0) ∧
  let h := run tmin tmax hb ids uniform ops h0 in
  (∃ evs, cluster h = events evs start0) ∧
  assert_election_safety ids h = (Ok tt, h) ∧
  (∃ o, leader ids h = (Ok o, h) ∧ finds h o) ∧
  (∀ op x, (exec tmin tmax hb ids uniform op h).1 = Raise x → op_raises op x) ∧
  (∀ c e h', propose ids uniform c h = (Ok e, h') → accepted c e h').
Proof.
  destruct init_good as (h0 & E & Hg0). exists h0. split; [exact E|]. intros h.
  assert (Hg : Good h) by by apply run_good.
  split_and!.
  - destruct Hg as (evs & _ & Hc). by exists evs.
  - by apply assertion_holds.
  - by apply leader_spec.
  - intros op. by apply fine_exec.
  - intros c e h' Hp. pose proof (harness_propose c h Hg) as Hs. rewrite Hp in Hs. apply Hs.
Qed.
End props.

(** ** A concrete script *)

Module Script.
(** Every third call draws the short timeout, that of [a]'s start first. *)
Definition uniform (k : nat) : nat → float → float → float := if Nat.eqb (Nat.modulo k 3) 0 then Demo.low else Demo.high.
Definition start : Harness Demo.C Demo.S := (init Demo.tmin Demo.tmax Demo.hb Demo.ids uniform (Ledger.init ∅)).2.
Abbreviation go := (run Demo.tmin Demo.tmax Demo.hb Demo.ids uniform).
(** [a] is elected, takes a command, and is killed; the other two replace it. *)
Definition script : list (Op Demo.C) :=
  [Advance (F.of_Z 150) 1; Propose Demo.credit; Advance (F.of_Z 50) 2; Kill "a"; Advance (F.of_Z 150) 4].
Definition final : Harness Demo.C Demo.S := go script start.

Definition summary : option string * list (string * Z) :=
  (match (leader Demo.ids final).1 with Ok o => o | Raise _ => None end, live_leaders Demo.ids final).
End Script.

Lemma harness_assertions_hold_witness :
  live_leaders Demo.ids (Script.go (take 1 Script.script) Script.start) = [("a", 1)] ∧
  Script.summary = (Some "c", [("c", 2)]) ∧
  assert_election_safety Demo.ids Script.final = (Ok tt, Script.final).
Proof.
  split; [vm_compute; reflexivity|]. split; [vm_compute; reflexivity|].
  destruct (harness_assertions_hold Demo.tmin Demo.tmax Demo.hb Demo.ids Demo.ids_nodup Script.uniform (Ledger.init ∅) Script.script)
    as (h0 & E & _ & Ha & _).
  unfold Script.final, Script.start. rewrite E. exact Ha.
Defined.
