(* ===== verification/Serialization.v ===== *)
(** * gRPC messages and their conversions (proto/raft.proto,
      coordinator/grpc/serialization.py)

    [Pb] has the messages of the proto file.  The protobuf runtime and pickle
    are interfaces: [Protobuf] gives what assigning a number to an [int64]
    field does, [Pickle] the conversion of commands to bytes. *)

From stdpp Require Import base strings list.
From Stdlib Require Import ZArith Lia.
From S2P Require Import Prelude RaftTypes.

Local Open Scope Z_scope.

Module Pb.
Section messages.
Context {B : Type}.

Record LogEntry := mkLogEntry { term : Z; index : Z; command : B }.
Record RequestVoteArgs := mkRequestVoteArgs {
  rv_term : Z; rv_candidate_id : string; rv_last_log_index : Z; rv_last_log_term : Z
}.
Record RequestVoteReply := mkRequestVoteReply { rvr_term : Z; rvr_vote_granted : bool; rvr_voter_id : string }.
Record PreVoteArgs := mkPreVoteArgs {
  pv_term : Z; pv_candidate_id : string; pv_last_log_index : Z; pv_last_log_term : Z
}.
Record PreVoteReply := mkPreVoteReply { pvr_term : Z; pvr_vote_granted : bool; pvr_voter_id : string }.
Record AppendEntriesArgs := mkAppendEntriesArgs {
  ae_term : Z; ae_leader_id : string; ae_prev_log_index : Z; ae_prev_log_term : Z;
  ae_entries : list LogEntry; ae_leader_commit : Z
}.
Record AppendEntriesReply := mkAppendEntriesReply {
  aer_term : Z; aer_success : bool; aer_responder_id : string;
  aer_match_index : Z; aer_conflict_index : Z; aer_conflict_term : Z
}.
Record ProposeRequest := mkProposeRequest { pq_command : B }.
Record ProposeReply := mkProposeReply {
  pp_accepted : bool; pp_term : Z; pp_index : Z; pp_leader_hint : string
}.
End messages.
Arguments LogEntry B : clear implicits.
Arguments AppendEntriesArgs B : clear implicits.
Arguments ProposeRequest B : clear implicits.
End Pb.

(** ** The libraries *)

Definition in_int64 (z : Z) : Prop := -2 ^ 63 ≤ z < 2 ^ 63.
#[export] Instance in_int64_dec z : Decision (in_int64 z).
Proof. apply and_dec; apply _. Defined.

(** An [int64] field takes the values of its range and refuses all others. *)
Class Protobuf := {
  int64 : Z → res Z;
  int64_in z : in_int64 z → int64 z = Ok z;
  int64_out z : ¬ in_int64 z → int64 z = Raise (ValueError "Value out of range")
}.

(** Commands that pickle, to bytes [B] and back. *)
Class Pickle (C B : Type) := {
  dumps : C → B;
  loads : B → res C;
  loads_dumps c : loads (dumps c) = Ok c
}.

(** [[f(e) for e in l]] *)
Fixpoint res_map {A B} (f : A → res B) (l : list A) : res (list B) :=
  match l with
  | [] => Ok []
  | x :: l => (y <-? f x ;; ys <-? res_map f l ;; Ok (y :: ys))%py
  end.

Module Serialization.
Section serialization.
Context {C B : Type} {Hpb : Protobuf} {Hpickle : Pickle C B}.

Definition log_entry_to_proto (entry : LogEntry C) : res (Pb.LogEntry B) :=
  (term <-? int64 (entry_term entry) ;;
   index <-? int64 (entry_index entry) ;;
   Ok (Pb.mkLogEntry term index (dumps (entry_command entry))))%py.
Definition log_entry_from_proto (proto : Pb.LogEntry B) : res (LogEntry C) :=
  (command <-? loads (Pb.command proto) ;;
   Ok (mkEntry (Pb.term proto) (Pb.index proto) command))%py.

Definition request_vote_args_to_proto (args : RequestVoteArgs) : res Pb.RequestVoteArgs :=
  (term <-? int64 (rv_term args) ;;
   last_log_index <-? int64 (rv_last_log_index args) ;;
   last_log_term <-? int64 (rv_last_log_term args) ;;
   Ok (Pb.mkRequestVoteArgs term (rv_candidate_id args) last_log_index last_log_term))%py.
Definition request_vote_args_from_proto (proto : Pb.RequestVoteArgs) : RequestVoteArgs :=
  mkRequestVoteArgs (Pb.rv_term proto) (Pb.rv_candidate_id proto) (Pb.rv_last_log_index proto) (Pb.rv_last_log_term proto).

Definition request_vote_reply_to_proto (reply : RequestVoteReply) : res Pb.RequestVoteReply :=
  (term <-? int64 (rvr_term reply) ;;
   Ok (Pb.mkRequestVoteReply term (rvr_vote_granted reply) (rvr_voter_id reply)))%py.
Definition request_vote_reply_from_proto (proto : Pb.RequestVoteReply) : RequestVoteReply :=
  mkRequestVoteReply (Pb.rvr_term proto) (Pb.rvr_vote_granted proto) (Pb.rvr_voter_id proto).

Definition prevote_args_to_proto (args : PreVoteArgs) : res Pb.PreVoteArgs :=
  (term <-? int64 (pv_term args) ;;
   last_log_index <-? int64 (pv_last_log_index args) ;;
   last_log_term <-? int64 (pv_last_log_term args) ;;
   Ok (Pb.mkPreVoteArgs term (pv_candidate_id args) last_log_index last_log_term))%py.
Definition prevote_args_from_proto (proto : Pb.PreVoteArgs) : PreVoteArgs :=
  mkPreVoteArgs (Pb.pv_term proto) (Pb.pv_candidate_id proto) (Pb.pv_last_log_index proto) (Pb.pv_last_log_term proto).

Definition prevote_reply_to_proto (reply : PreVoteReply) : res Pb.PreVoteReply :=
  (term <-? int64 (pvr_term reply) ;;
   Ok (Pb.mkPreVoteReply term (pvr_vote_granted reply) (pvr_voter_id reply)))%py.
Definition prevote_reply_from_proto (proto : Pb.PreVoteReply) : PreVoteReply :=
  mkPreVoteReply (Pb.pvr_term proto) (Pb.pvr_vote_granted proto) (Pb.pvr_voter_id proto).

(** The list of entries is converted before the message is built. *)
Definition append_entries_args_to_proto (args : AppendEntriesArgs C) : res (Pb.AppendEntriesArgs B) :=
  (entries <-? res_map log_entry_to_proto (ae_entries args) ;;
   term <-? int64 (ae_term args) ;;
   prev_log_index <-? int64 (ae_prev_log_index args) ;;
   prev_log_term <-? int64 (ae_prev_log_term args) ;;
   leader_commit <-? int64 (ae_leader_commit args) ;;
   Ok (Pb.mkAppendEntriesArgs term (ae_leader_id args) prev_log_index prev_log_term entries leader_commit))%py.
Definition append_entries_args_from_proto (proto : Pb.AppendEntriesArgs B) : res (AppendEntriesArgs C) :=
  (entries <-? res_map log_entry_from_proto (Pb.ae_entries proto) ;;
   Ok (mkAppendEntriesArgs (Pb.ae_term proto) (Pb.ae_leader_id proto) (Pb.ae_prev_log_index proto)
         (Pb.ae_prev_log_term proto) entries (Pb.ae_leader_commit proto)))%py.

Definition append_entries_reply_to_proto (reply : AppendEntriesReply) : res Pb.AppendEntriesReply :=
  (term <-? int64 (aer_term reply) ;;
   match_index <-? int64 (aer_match_index reply) ;;
   conflict_index <-? int64 (aer_conflict_index reply) ;;
   conflict_term <-? int64 (aer_conflict_term reply) ;;
   Ok (Pb.mkAppendEntriesReply term (aer_success reply) (aer_responder_id reply) match_index conflict_index conflict_term))%py.
Definition append_entries_reply_from_proto (proto : Pb.AppendEntriesReply) : AppendEntriesReply :=
  mkAppendEntriesReply (Pb.aer_term proto) (Pb.aer_success proto) (Pb.aer_responder_id proto)
    (Pb.aer_match_index proto) (Pb.aer_conflict_index proto) (Pb.aer_conflict_term proto).

(** ** What the conversions promise *)

(** [to] converts exactly the messages of [fits], [from] is its left inverse
    there, and everything else is refused. *)
Record Codec {A P} (to : A → res P) (from : P → res A) (fits : A → Prop) : Prop := {
  codec_fits a : fits a → ∃ p, to a = Ok p ∧ from p = Ok a;
  codec_refuses a : ¬ fits a → to a = Raise (ValueError "Value out of range")
}.

Lemma codec_round_trip {A P} {to : A → res P} {from fits} `{∀ a, Decision (fits a)} :
  Codec to from fits → ∀ a p, to a = Ok p → from p = Ok a.
Proof.
  intros [Hf Hr] a p E. destruct (decide (fits a)) as [Ha|Ha]; [|by rewrite Hr in E].
  destruct (Hf a Ha) as (p' & E' & ?). congruence.
Qed.

Lemma codec_map {A P} {to : A → res P} {from fits} `{∀ a, Decision (fits a)} :
  Codec to from fits → Codec (res_map to) (res_map from) (Forall fits).
Proof.
  intros Hc. split.
  - induction 1 as [|a l Ha _ (ps & E & E')]; [by exists []|].
    destruct (codec_fits _ _ _ Hc a Ha) as (p & Ep & Ep'). exists (p :: ps). simpl. by rewrite Ep, E, Ep', E'.
  - intros l. induction l as [|a l IH]; intros Hl; [by destruct Hl|]. simpl.
    destruct (decide (fits a)) as [Ha|Ha]; [|by rewrite (codec_refuses _ _ _ Hc a Ha)].
    destruct (codec_fits _ _ _ Hc a Ha) as (p & -> & _). simpl. rewrite IH; [done|]. intros ?. apply Hl. by constructor.
Qed.

(** One [int64] field after the others. *)
Lemma int64_step {P} z (k : Z → res P) :
  (x <-? int64 z ;; k x)%py = if decide (in_int64 z) then k z else Raise (ValueError "Value out of range").
Proof. case_decide; [by rewrite int64_in|by rewrite int64_out]. Qed.

Definition entry_fits (e : LogEntry C) : Prop := in_int64 (entry_term e) ∧ in_int64 (entry_index e).
Definition rv_fits (a : RequestVoteArgs) : Prop :=
  in_int64 (rv_term a) ∧ in_int64 (rv_last_log_index a) ∧ in_int64 (rv_last_log_term a).
Definition rvr_fits (r : RequestVoteReply) : Prop := in_int64 (rvr_term r).
Definition pv_fits (a : PreVoteArgs) : Prop :=
  in_int64 (pv_term a) ∧ in_int64 (pv_last_log_index a) ∧ in_int64 (pv_last_log_term a).
Definition pvr_fits (r : PreVoteReply) : Prop := in_int64 (pvr_term r).
Definition ae_fits (a : AppendEntriesArgs C) : Prop :=
  Forall entry_fits (ae_entries a) ∧ in_int64 (ae_term a) ∧ in_int64 (ae_prev_log_index a) ∧
  in_int64 (ae_prev_log_term a) ∧ in_int64 (ae_leader_commit a).
Definition aer_fits (r : AppendEntriesReply) : Prop :=
  in_int64 (aer_term r) ∧ in_int64 (aer_match_index r) ∧ in_int64 (aer_conflict_index r) ∧ in_int64 (aer_conflict_term r).

#[export] Instance entry_fits_dec e : Decision (entry_fits e).
Proof. unfold entry_fits. apply _. Defined.
#[export] Instance rv_fits_dec a : Decision (rv_fits a).
Proof. unfold rv_fits. apply _. Defined.
#[export] Instance rvr_fits_dec r : Decision (rvr_fits r).
Proof. unfold rvr_fits. apply _. Defined.
#[export] Instance pv_fits_dec a : Decision (pv_fits a).
Proof. unfold pv_fits. apply _. Defined.
#[export] Instance pvr_fits_dec r : Decision (pvr_fits r).
Proof. unfold pvr_fits. apply _. Defined.
#[export] Instance ae_fits_dec a : Decision (ae_fits a).
Proof. unfold ae_fits. apply _. Defined.
#[export] Instance aer_fits_dec r : Decision (aer_fits r).
Proof. unfold aer_fits. apply _. Defined.

Lemma entry_codec : Codec log_entry_to_proto log_entry_from_proto entry_fits.
Proof.
  split; intros [t i c]; unfold entry_fits, log_entry_to_proto; simpl; rewrite !int64_step.
  - intros [H1 H2]. rewrite !decide_True by done. eexists. split; [done|]. unfold log_entry_from_proto. simpl.
    by rewrite loads_dumps.
  - intros Hn. repeat case_decide; [tauto|done..].
Qed.

(** A message all of whose fields convert one by one. *)
Ltac fields :=
  split; [intros []; simpl; intros; rewrite !int64_step, !decide_True by tauto; by eexists|];
  intros a Ha; rewrite ?int64_step; repeat case_decide; [exfalso; tauto|done..].

Lemma request_vote_args_codec :
  Codec request_vote_args_to_proto (λ p, Ok (request_vote_args_from_proto p)) rv_fits.
Proof. unfold request_vote_args_to_proto, rv_fits. fields. Qed.
Lemma request_vote_reply_codec :
  Codec request_vote_reply_to_proto (λ p, Ok (request_vote_reply_from_proto p)) rvr_fits.
Proof. unfold request_vote_reply_to_proto, rvr_fits. fields. Qed.
Lemma prevote_args_codec : Codec prevote_args_to_proto (λ p, Ok (prevote_args_from_proto p)) pv_fits.
Proof. unfold prevote_args_to_proto, pv_fits. fields. Qed.
Lemma prevote_reply_codec : Codec prevote_reply_to_proto (λ p, Ok (prevote_reply_from_proto p)) pvr_fits.
Proof. unfold prevote_reply_to_proto, pvr_fits. fields. Qed.
Lemma append_entries_reply_codec :
  Codec append_entries_reply_to_proto (λ p, Ok (append_entries_reply_from_proto p)) aer_fits.
Proof. unfold append_entries_reply_to_proto, aer_fits. fields. Qed.

Lemma append_entries_args_codec : Codec append_entries_args_to_proto append_entries_args_from_proto ae_fits.
Proof.
  pose proof (codec_map entry_codec) as Hc. unfold append_entries_args_to_proto, ae_fits. split; intros a.
  - intros (He & H1 & H2 & H3 & H4). destruct (codec_fits _ _ _ Hc _ He) as (ps & E & E'). rewrite E. simpl.
    rewrite !int64_step, !decide_True by done. eexists. split; [done|]. unfold append_entries_args_from_proto. simpl.
    rewrite E'. by destruct a.
  - intros Hn. destruct (decide (Forall entry_fits (ae_entries a))) as [He|He].
    + destruct (codec_fits _ _ _ Hc _ He) as (ps & E & _). rewrite E. simpl. repeat (rewrite int64_step; case_decide); try done. tauto.
    + by rewrite (codec_refuses _ _ _ Hc _ He).
Qed.
End serialization.
End Serialization.
