(* ===== verification/GrpcStub.v ===== *)
(** * Client stub and server registration (coordinator/grpc/raft_pb2_grpc.py)

    The generated code that ties the four methods of the service to their
    paths and message types: [Stub] on the client side of a channel,
    [rpc_method_handlers] on the server side.  Bytes are [B]; [Wire] is the
    serialization of a message, [Server] the part of grpc that finds the
    handler of a path.  [link] is what the network makes of a call. *)

From stdpp Require Import base strings list.
From Stdlib Require Import ZArith.
From S2P Require Import Prelude RaftTypes Serialization.

(** [SerializeToString] and [FromString] of a message type. *)
Class Wire (P B : Type) := {
  SerializeToString : P → B;
  FromString : B → res P;
  FromString_Serialize p : FromString (SerializeToString p) = Ok p
}.

(** [grpc.unary_unary_rpc_method_handler(behavior, request_deserializer, response_serializer)] *)
Inductive MethodHandler (W B : Type) : Type :=
| unary_unary_rpc_method_handler {Req Resp : Type}
    (behavior : Req → Py W Resp) (request_deserializer : B → res Req) (response_serializer : Resp → B).
Arguments unary_unary_rpc_method_handler {W B Req Resp}.

(** What a server does for a request. *)
Definition invoke {W B} (h : MethodHandler W B) (request : B) : Py W B :=
  match h with
  | unary_unary_rpc_method_handler behavior deserialize serialize =>
      (req <- lift (deserialize request) ;; resp <- behavior req ;; ret (serialize resp))%py
  end.

Abbreviation Handlers W B := (list (string * MethodHandler W B)).
Fixpoint handler_of {W B} (name : string) (handlers : Handlers W B) : option (MethodHandler W B) :=
  match handlers with
  | [] => None
  | (n, h) :: handlers => if decide (n = name) then Some h else handler_of name handlers
  end.

(** A server with one generic handler routes [/service/method] to the
    registered handler of the method. *)
Class Server (W B : Type) := {
  generic_handler : string → Handlers W B → string → B → Py W B;
  generic_handler_routes service handlers name h request :
    handler_of name handlers = Some h →
    generic_handler service handlers ("/" +:+ service +:+ "/" +:+ name) request = invoke h request
}.

(** A channel takes the path and the bytes of a request to the other side,
    whose state is [W], and brings the bytes of the response back. *)
Definition Channel (W B : Type) : Type := string → B → Py W B.

(** What can happen to one call: the request is lost, the request arrives but
    the response does not (or too late), or both arrive.  Whatever goes wrong,
    in the network or in the handler, the caller sees [grpc.RpcError]. *)
Inductive Fate := RequestLost | ResponseLost | Delivered.

Definition link {W B} (fate : Fate) (server : Channel W B) : Channel W B := λ path request w,
  match fate with
  | RequestLost => (Raise RpcError, w)
  | ResponseLost => (Raise RpcError, (server path request w).2)
  | Delivered =>
      match server path request w with
      | (Ok response, w') => (Ok response, w')
      | (Raise _, w') => (Raise RpcError, w')
      end
  end.

Module RaftService.
Section service.
Context {W B : Type}.
Context {Wrv : Wire Pb.RequestVoteArgs B} {Wrvr : Wire Pb.RequestVoteReply B}.
Context {Wpv : Wire Pb.PreVoteArgs B} {Wpvr : Wire Pb.PreVoteReply B}.
Context {Wae : Wire (Pb.AppendEntriesArgs B) B} {Waer : Wire Pb.AppendEntriesReply B}.
Context {Wpq : Wire (Pb.ProposeRequest B) B} {Wpp : Wire Pb.ProposeReply B}.

(** A multi-callable of [channel.unary_unary(path, request_serializer, response_deserializer)] *)
Definition unary_unary {Req Resp} (channel : Channel W B) (path : string)
    (request_serializer : Req → B) (response_deserializer : B → res Resp) : Req → Py W Resp := λ request,
  (response <- channel path (request_serializer request) ;; lift (response_deserializer response))%py.

Record RaftServiceStub := mkStub {
  RequestVote : Pb.RequestVoteArgs → Py W Pb.RequestVoteReply;
  PreVote : Pb.PreVoteArgs → Py W Pb.PreVoteReply;
  AppendEntries : Pb.AppendEntriesArgs B → Py W Pb.AppendEntriesReply;
  Propose : Pb.ProposeRequest B → Py W Pb.ProposeReply
}.

Definition Stub (channel : Channel W B) : RaftServiceStub := {|
  RequestVote := unary_unary channel "/raft.RaftService/RequestVote" SerializeToString FromString;
  PreVote := unary_unary channel "/raft.RaftService/PreVote" SerializeToString FromString;
  AppendEntries := unary_unary channel "/raft.RaftService/AppendEntries" SerializeToString FromString;
  Propose := unary_unary channel "/raft.RaftService/Propose" SerializeToString FromString
|}.

(** The methods of a servicer; [context] only carries the error code of the
    base class, whose methods all raise. *)
Record RaftServiceServicer := mkServicer {
  s_RequestVote : Pb.RequestVoteArgs → Py W Pb.RequestVoteReply;
  s_PreVote : Pb.PreVoteArgs → Py W Pb.PreVoteReply;
  s_AppendEntries : Pb.AppendEntriesArgs B → Py W Pb.AppendEntriesReply;
  s_Propose : Pb.ProposeRequest B → Py W Pb.ProposeReply
}.

Definition unimplemented : exn := NotImplementedError.
Definition base_servicer : RaftServiceServicer :=
  mkServicer (λ _, raise unimplemented) (λ _, raise unimplemented) (λ _, raise unimplemented) (λ _, raise unimplemented).

(** [add_RaftServiceServicer_to_server] *)
Definition rpc_method_handlers (servicer : RaftServiceServicer) : Handlers W B :=
  [("RequestVote", unary_unary_rpc_method_handler (s_RequestVote servicer) FromString SerializeToString);
   ("PreVote", unary_unary_rpc_method_handler (s_PreVote servicer) FromString SerializeToString);
   ("AppendEntries", unary_unary_rpc_method_handler (s_AppendEntries servicer) FromString SerializeToString);
   ("Propose", unary_unary_rpc_method_handler (s_Propose servicer) FromString SerializeToString)].

Definition add_RaftServiceServicer_to_server {Hsrv : Server W B} (servicer : RaftServiceServicer) : Channel W B :=
  generic_handler "raft.RaftService" (rpc_method_handlers servicer).

(** ** A call through the stub is a call of the servicer *)

(** What the network makes of a call of [m]. *)
Definition through {A} (fate : Fate) (m : Py W A) : Py W A := λ w,
  match fate with
  | RequestLost => (Raise RpcError, w)
  | ResponseLost => (Raise RpcError, (m w).2)
  | Delivered => match m w with (Ok a, w') => (Ok a, w') | (Raise _, w') => (Raise RpcError, w') end
  end.

Lemma unary_call {Req Resp} {Wq : Wire Req B} {Wr : Wire Resp B} fate (server : Channel W B) path
    (behavior : Req → Py W Resp) request w :
  (∀ b, server path b = invoke (unary_unary_rpc_method_handler behavior FromString SerializeToString) b) →
  unary_unary (link fate server) path SerializeToString FromString request w = through fate (behavior request) w.
Proof.
  intros Hs. unfold unary_unary, link, through, bind, lift. destruct fate; [done| |]; rewrite Hs; simpl;
    unfold bind, lift, ret; rewrite FromString_Serialize; destruct (behavior request w) as [[a|x] w']; try done.
  by rewrite FromString_Serialize.
Qed.

Lemma stub_calls {Hsrv : Server W B} fate (servicer : RaftServiceServicer) w :
  let stub := Stub (link fate (add_RaftServiceServicer_to_server servicer)) in
  (∀ q, RequestVote stub q w = through fate (s_RequestVote servicer q) w) ∧
  (∀ q, PreVote stub q w = through fate (s_PreVote servicer q) w) ∧
  (∀ q, AppendEntries stub q w = through fate (s_AppendEntries servicer q) w) ∧
  (∀ q, Propose stub q w = through fate (s_Propose servicer q) w).
Proof.
  split_and!; intros q; apply unary_call; intros b;
    [exact (generic_handler_routes "raft.RaftService" (rpc_method_handlers servicer) "RequestVote" _ b eq_refl)
    |exact (generic_handler_routes "raft.RaftService" (rpc_method_handlers servicer) "PreVote" _ b eq_refl)
    |exact (generic_handler_routes "raft.RaftService" (rpc_method_handlers servicer) "AppendEntries" _ b eq_refl)
    |exact (generic_handler_routes "raft.RaftService" (rpc_method_handlers servicer) "Propose" _ b eq_refl)].
Qed.
End service.
Arguments RaftServiceStub : clear implicits.
Arguments RaftServiceServicer : clear implicits.
End RaftService.

(** ** The static methods of [class RaftService]: one call without a stub

    [grpc.experimental.unary_unary] calls a method of a target by itself: it
    opens (or reuses) the channel to the target that the options ask for. *)

(** The keyword arguments of a static method; credentials and compression are
    objects of grpc, of type [O].  All of them default to the empty ones. *)
Record CallOptions (O : Type) := mkCallOptions {
  options : list (string * string);
  channel_credentials : option O;
  call_credentials : option O;
  insecure : bool;
  compression : option O;
  wait_for_ready : option bool;
  timeout : option Z;
  metadata : option (list (string * string))
}.
Arguments mkCallOptions {O}.
Definition default_options {O} : CallOptions O := mkCallOptions [] None None false None None None None.

Class Experimental (W B O : Type) := {
  experimental_unary_unary {Req Resp : Type} :
    Req → string → string → (Req → B) → (B → res Resp) → CallOptions O → Py W Resp;
  channel_to : string → CallOptions O → Channel W B;
  experimental_calls {Req Resp} (request : Req) target path serializer (deserializer : B → res Resp) opts :
    experimental_unary_unary request target path serializer deserializer opts =
    RaftService.unary_unary (channel_to target opts) path serializer deserializer request
}.

Module StaticService.
Section static.
Context {W B O : Type} {Hexp : Experimental W B O}.
Context {Wrv : Wire Pb.RequestVoteArgs B} {Wrvr : Wire Pb.RequestVoteReply B}.
Context {Wpv : Wire Pb.PreVoteArgs B} {Wpvr : Wire Pb.PreVoteReply B}.
Context {Wae : Wire (Pb.AppendEntriesArgs B) B} {Waer : Wire Pb.AppendEntriesReply B}.
Context {Wpq : Wire (Pb.ProposeRequest B) B} {Wpp : Wire Pb.ProposeReply B}.

Definition RequestVote (request : Pb.RequestVoteArgs) (target : string) (opts : CallOptions O) : Py W Pb.RequestVoteReply :=
  experimental_unary_unary request target "/raft.RaftService/RequestVote" SerializeToString FromString opts.

Definition PreVote (request : Pb.PreVoteArgs) (target : string) (opts : CallOptions O) : Py W Pb.PreVoteReply :=
  experimental_unary_unary request target "/raft.RaftService/PreVote" SerializeToString FromString opts.

Definition AppendEntries (request : Pb.AppendEntriesArgs B) (target : string) (opts : CallOptions O) : Py W Pb.AppendEntriesReply :=
  experimental_unary_unary request target "/raft.RaftService/AppendEntries" SerializeToString FromString opts.

Definition Propose (request : Pb.ProposeRequest B) (target : string) (opts : CallOptions O) : Py W Pb.ProposeReply :=
  experimental_unary_unary request target "/raft.RaftService/Propose" SerializeToString FromString opts.

(** A static method is the stub's method on the channel to its target. *)
Lemma static_is_stub target opts :
  let stub := RaftService.Stub (channel_to target opts) in
  (∀ q, RequestVote q target opts = RaftService.RequestVote stub q) ∧
  (∀ q, PreVote q target opts = RaftService.PreVote stub q) ∧
  (∀ q, AppendEntries q target opts = RaftService.AppendEntries stub q) ∧
  (∀ q, Propose q target opts = RaftService.Propose stub q).
Proof. split_and!; intros q; apply experimental_calls. Qed.

(** So, when the target's server has the servicer registered, it is a call of
    the servicer, however the network treats it. *)
Lemma static_calls {Hsrv : Server W B} fate (servicer : RaftService.RaftServiceServicer W B) target opts w :
  channel_to target opts = link fate (RaftService.add_RaftServiceServicer_to_server servicer) →
  (∀ q, RequestVote q target opts w = RaftService.through fate (RaftService.s_RequestVote servicer q) w) ∧
  (∀ q, PreVote q target opts w = RaftService.through fate (RaftService.s_PreVote servicer q) w) ∧
  (∀ q, AppendEntries q target opts w = RaftService.through fate (RaftService.s_AppendEntries servicer q) w) ∧
  (∀ q, Propose q target opts w = RaftService.through fate (RaftService.s_Propose servicer q) w).
Proof.
  intros Hc. destruct (static_is_stub target opts) as (H1 & H2 & H3 & H4). rewrite Hc in H1, H2, H3, H4.
  destruct (RaftService.stub_calls fate servicer w) as (S1 & S2 & S3 & S4).
  split_and!; intros q; [rewrite H1; apply S1|rewrite H2; apply S2|rewrite H3; apply S3|rewrite H4; apply S4].
Qed.
End static.
End StaticService.
