(* ===== verification/Grpc.v ===== *)
(** * Raft over gRPC (coordinator/grpc/raft_transport.py, raft_service.py,
      node_bootstrap.py)

    [GrpcRaftTransport] hands requests to a thread pool and drops replies; a
    task of the pool calls the recipient's service and injects the answer into
    the local node.  [Service] is the server side.  [System] is a set of nodes,
    each with its own transport, and the answers the pool threads hold.  An
    [Event] is one call into one node; the parts of a task between which other
    threads may run are separate events. *)

From stdpp Require Import base gmap strings list.
From Stdlib Require Import ZArith Lia.
From S2P Require Import Prelude PyFloat RaftTypes Storage StateMachine Transport RaftNode Runtime.
From S2P Require Import Serialization GrpcStub.

Local Open Scope Z_scope.

Module Grpc.

(** ** The transport *)

Section transport.
Context {C : Type}.

Record GrpcRaftTransport := mkTransport {
  addresses : list (string * string);      (* node id -> host:port, in the order of the dict *)
  (** The tasks submitted to the executor and not started.  A task is the
      recipient and the message; the sender is kept for the proofs and read by
      no operation. *)
  tasks : list (Envelope C);
  self_node_id : option string             (* set, with the runtime, by [bind_runtime] *)
}.

Definition new_transport (addresses : list (string * string)) : GrpcRaftTransport := mkTransport addresses [] None.
Definition bind_runtime (node_id : string) (t : GrpcRaftTransport) : GrpcRaftTransport :=
  mkTransport (addresses t) (tasks t) (Some node_id).
Definition with_tasks (l : list (Envelope C)) (t : GrpcRaftTransport) : GrpcRaftTransport :=
  mkTransport (addresses t) l (self_node_id t).

(** [isinstance(message, (RequestVoteReply, PreVoteReply, AppendEntriesReply))] *)
Definition is_reply (message : Message C) : bool :=
  match message with
  | MRequestVoteReply _ | MPreVoteReply _ | MAppendEntriesReply _ => true
  | _ => false
  end.

Definition send (sender_id recipient_id : string) (message : Message C) (t : GrpcRaftTransport) : GrpcRaftTransport :=
  if is_reply message then t
  else with_tasks (tasks t ++ [mkEnvelope sender_id recipient_id message]) t.

#[global] Instance grpc_transport : Transport C GrpcRaftTransport := {
  t_register _ t := t;
  t_send := send
}.

(** Nothing is queued locally. *)
#[global] Instance grpc_delivery {S} : Delivery C S GrpcRaftTransport := λ _ _, ret 0.

(** [self._addresses[node_id]] *)
Fixpoint address_of (node_id : string) (l : list (string * string)) : option string :=
  match l with
  | [] => None
  | (id, a) :: l => if decide (id = node_id) then Some a else address_of node_id l
  end.
End transport.
Arguments GrpcRaftTransport C : clear implicits.

Section service.
Context {C S B : Type} {Hsm : StateMachine C S}.
Variable random_fn : nat → float → float → float.
Context {Hpb : Protobuf} {Hpickle : Pickle C B}.
Context {Wrv : Wire Pb.RequestVoteArgs B} {Wrvr : Wire Pb.RequestVoteReply B}.
Context {Wpv : Wire Pb.PreVoteArgs B} {Wpvr : Wire Pb.PreVoteReply B}.
Context {Wae : Wire (Pb.AppendEntriesArgs B) B} {Waer : Wire Pb.AppendEntriesReply B}.
Context {Wpq : Wire (Pb.ProposeRequest B) B} {Wpp : Wire Pb.ProposeReply B}.

Abbreviation T := (GrpcRaftTransport C).
Abbreviation World := (Raft.World C S T).
Abbreviation M := (Py World).
Context {Hsrv : Server World B}.

(** ** The service of a node *)

Definition RequestVote (now : float) (request : Pb.RequestVoteArgs) : M Pb.RequestVoteReply :=
  (reply <- Runtime.handle_request_vote random_fn (Serialization.request_vote_args_from_proto request) now ;;
   lift (Serialization.request_vote_reply_to_proto reply))%py.

Definition PreVote (now : float) (request : Pb.PreVoteArgs) : M Pb.PreVoteReply :=
  (reply <- Runtime.handle_prevote (Serialization.prevote_args_from_proto request) now ;;
   lift (Serialization.prevote_reply_to_proto reply))%py.

Definition AppendEntries (now : float) (request : Pb.AppendEntriesArgs B) : M Pb.AppendEntriesReply :=
  (args <- lift (Serialization.append_entries_args_from_proto request) ;;
   reply <- Runtime.handle_append_entries random_fn args now ;;
   lift (Serialization.append_entries_reply_to_proto reply))%py.

(** The leader hint is read under a lock acquisition of its own: [between] is
    what other threads do to the node before it. *)
Definition Propose (between : M unit) (now : float) (request : Pb.ProposeRequest B) : M Pb.ProposeReply :=
  (command <- lift (loads (Pb.pq_command request)) ;;
   entry <- Runtime.propose command now ;;
   match entry with
   | None =>
       between ;;;
       leader <- Runtime.leader_id ;;
       ret (Pb.mkProposeReply false 0 0 (default "" leader))
   | Some e =>
       id <- Runtime.node_id ;;
       lift (term <-? int64 (entry_term e) ;;
             index <-? int64 (entry_index e) ;;
             Ok (Pb.mkProposeReply true term index id))
   end)%py.

Definition RaftGrpcServicer (between : M unit) (now : float) : RaftService.RaftServiceServicer World B :=
  RaftService.mkServicer (RequestVote now) (PreVote now) (AppendEntries now) (Propose between now).

(** A call of a peer: the stub over the link to the peer's server. *)
Definition stub_for (fate : Fate) (now : float) : RaftService.RaftServiceStub World B :=
  RaftService.Stub (link fate (RaftService.add_RaftServiceServicer_to_server (RaftGrpcServicer (ret tt) now))).

(** [_send_request_and_inject_reply] up to the reply, on the world of the peer. *)
Definition send_request (stub : RaftService.RaftServiceStub World B) (message : Message C) : M (Message C) :=
  match message with
  | MRequestVoteArgs m =>
      (request <- lift (Serialization.request_vote_args_to_proto m) ;;
       proto_reply <- RaftService.RequestVote stub request ;;
       ret (MRequestVoteReply (Serialization.request_vote_reply_from_proto proto_reply)))%py
  | MPreVoteArgs m =>
      (request <- lift (Serialization.prevote_args_to_proto m) ;;
       proto_reply <- RaftService.PreVote stub request ;;
       ret (MPreVoteReply (Serialization.prevote_reply_from_proto proto_reply)))%py
  | MAppendEntriesArgs m =>
      (request <- lift (Serialization.append_entries_args_to_proto m) ;;
       proto_reply <- RaftService.AppendEntries stub request ;;
       ret (MAppendEntriesReply (Serialization.append_entries_reply_from_proto proto_reply)))%py
  | _ => raise TypeError
  end.

(** The rest of it: [self._runtime.receive(Envelope(...))]. *)
Definition inject_reply (recipient_id : string) (reply : Message C) (now : float) : M unit :=
  (self <- get (λ w, self_node_id (Raft.transport w)) ;;
   match self with
   | Some id => Runtime.receive random_fn (mkEnvelope recipient_id id reply) now
   | None => ret tt
   end)%py.

End service.

(** ** One node, and a system of nodes *)

Section system.
Context {C S B : Type} {Hsm : StateMachine C S}.
Context {Hpb : Protobuf} {Hpickle : Pickle C B}.
Context {Wrv : Wire Pb.RequestVoteArgs B} {Wrvr : Wire Pb.RequestVoteReply B}.
Context {Wpv : Wire Pb.PreVoteArgs B} {Wpvr : Wire Pb.PreVoteReply B}.
Context {Wae : Wire (Pb.AppendEntriesArgs B) B} {Waer : Wire Pb.AppendEntriesReply B}.
Context {Wpq : Wire (Pb.ProposeRequest B) B} {Wpp : Wire Pb.ProposeReply B}.
Abbreviation T := (GrpcRaftTransport C).
Abbreviation World := (Raft.World C S T).
Abbreviation M := (Py World).
Context {Hsrv : Server World B}.

(** The timing arguments of [GrpcRaftNode.__init__]. *)
Variables tmin tmax hb : float.
(** [peer_addresses] of each node, and the node whose server listens at an
    address. *)
Variable peer_addresses : string → list (string * string).
Variable resolve : string → option string.

(** [GrpcRaftNode.__init__] *)
Definition GrpcRaftNode (node_id : string) (storage : Storage.InMemoryStorage C) (state_machine : S) : World :=
  let w := Raft.init node_id (fst <$> peer_addresses node_id) tmin tmax hb storage
             (new_transport (peer_addresses node_id)) state_machine in
  Raft.mkWorld (Raft.node w) (Raft.storage w) (bind_runtime node_id (Raft.transport w)) (Raft.machine w).

(** The nodes, and the replies that pool threads hold: the recipient of the
    envelope is the node whose thread it is, the sender the peer called. *)
Record System := mkSystem {
  nodes : gmap string World;
  replies : list (Envelope C)
}.

Definition init (ids : list string) (sm0 : S) : System :=
  mkSystem (foldr (λ id, <[id := GrpcRaftNode id Storage.init sm0]>) ∅ ids) [].

Definition on_node {A} (id : string) (m : M A) (sys : System) : option (res A) * System :=
  match nodes sys !! id with
  | Some w => let '(r, w') := m w in (Some r, mkSystem (<[id := w']> (nodes sys)) (replies sys))
  | None => (None, sys)
  end.

Inductive Event :=
| Start (id : string) (now : float)
| Turn (id : string) (now : float)
| CallPeer (id : string) (k : nat) (fate : Fate) (now : float)  (* a thread of [id] takes the k-th task *)
| Inject (k : nat) (now : float)                                (* the k-th reply is received *)
| DropReply (k : nat)
| ClientPropose (id : string) (fate : Fate) (request : Pb.ProposeRequest B) (now : float)
| NewContainer (id : string) (sm0 : S).                         (* docker/raft_node_entrypoint.py runs again *)

Definition take_task (id : string) (k : nat) (w : World) : World :=
  Raft.mkWorld (Raft.node w) (Raft.storage w)
    (with_tasks (delete k (tasks (Raft.transport w))) (Raft.transport w))
    (Raft.machine w).

(** A task runs: the address is looked up ([KeyError] ends the task), the peer
    is called, and what comes back is kept for the injection. *)
Definition call_peer (rnd : nat → float → float → float) (id : string) (k : nat) (fate : Fate) (now : float)
    (sys : System) : System :=
  match nodes sys !! id with
  | None => sys
  | Some w =>
      match tasks (Raft.transport w) !! k with
      | None => sys
      | Some task =>
          let sys1 := mkSystem (<[id := take_task id k w]> (nodes sys)) (replies sys) in
          match address_of (env_recipient task) (addresses (Raft.transport w)) ≫= resolve with
          | None => sys1
          | Some peer =>
              match on_node peer (send_request (stub_for rnd fate now) (env_message task)) sys1 with
              | (Some (Ok reply), sys2) =>
                  mkSystem (nodes sys2) (replies sys2 ++ [mkEnvelope (env_recipient task) id reply])
              | (_, sys2) => sys2
              end
          end
      end
  end.

Definition drop_reply (k : nat) (sys : System) : System :=
  mkSystem (nodes sys) (delete k (replies sys)).

Definition exec (ev : Event) (rnd : nat → float → float → float) (sys : System) : System :=
  match ev with
  | Start id now => (on_node id (Runtime.start rnd now) sys).2
  | Turn id now => (on_node id (Runtime.turn rnd now) sys).2
  | CallPeer id k fate now => call_peer rnd id k fate now sys
  | Inject k now =>
      match replies sys !! k with
      | Some e => (on_node (env_recipient e) (inject_reply rnd (env_sender e) (env_message e) now) (drop_reply k sys)).2
      | None => sys
      end
  | DropReply k => drop_reply k sys
  | ClientPropose id fate request now =>
      (on_node id (RaftService.Propose (stub_for rnd fate now) request) sys).2
  | NewContainer id sm0 =>
      match nodes sys !! id with
      | Some _ => mkSystem (<[id := GrpcRaftNode id Storage.init sm0]> (nodes sys)) (filter (λ e, env_recipient e ≠ id) (replies sys))
      | None => sys
      end
  end.

Definition run (evs : list (Event * (nat → float → float → float))) (sys : System) : System :=
  foldl (λ sys ev, exec ev.1 ev.2 sys) sys evs.

End system.
Arguments System C S : clear implicits.
Arguments Event S B : clear implicits.
End Grpc.
