(* ===== verification/GrpcRefine.v ===== *)
(** * The gRPC system implements the protocol

    Each event of a [Grpc.System] whose nodes reach each other at their
    addresses is a sequence of actions of the abstract protocol of RaftSpec.v:
    the simulations of the handlers (RaftRefine.v) carry over, because the
    service calls the same handlers and the conversions either keep a message
    or lose it. *)

From stdpp Require Import base gmap strings list relations fin_sets.
From Stdlib Require Import ZArith Lia.
From S2P Require Import Prelude PyFloat RaftTypes Storage StateMachine Transport RaftNode RaftFrame Runtime.
From S2P Require Import RaftSpec RaftInv RaftActions RaftAppend RaftRefine Cluster.
From S2P Require Import Serialization GrpcStub Grpc.
Import Spec Inv Refine.

Local Open Scope Z_scope.

#[global] Program Instance grpc_laws C : TransportLaws C (Grpc.GrpcRaftTransport C) := {
  net_sent t l := ∀ e, e ∈ Grpc.tasks t → e ∈ l
}.
Next Obligation.
  intros C t l s r m Ht e. simpl. unfold Grpc.send. destruct (Grpc.is_reply m).
  - intros He. apply elem_of_app. left. by apply Ht.
  - simpl. rewrite !elem_of_app. intros [He|He]; [left; by apply Ht|by right].
Qed.
Next Obligation. done. Qed.

Module GrpcRefine.

(** ** Calls through the service *)

Section calls.
Context {C S B : Type} {Hsm : StateMachine C S}.
Context {Hpb : Protobuf} {Hpickle : Pickle C B}.
Context {Wrv : Wire Pb.RequestVoteArgs B} {Wrvr : Wire Pb.RequestVoteReply B}.
Context {Wpv : Wire Pb.PreVoteArgs B} {Wpvr : Wire Pb.PreVoteReply B}.
Context {Wae : Wire (Pb.AppendEntriesArgs B) B} {Waer : Wire Pb.AppendEntriesReply B}.
Context {Wpq : Wire (Pb.ProposeRequest B) B} {Wpp : Wire Pb.ProposeReply B}.
Abbreviation T := (Grpc.GrpcRaftTransport C).
Abbreviation World := (Raft.World C S T).
Abbreviation M := (Py World).
Context {Hsrv : Server World B}.
Variable members : gset string.
Variable allowed : C → Prop.
Variable sm0 : S.
Variable i : string.
Hypothesis Hi : i ∈ members.
Variable rnd : nat → float → float → float.

Abbreviation R := (Refine.R members sm0 i).
Abbreviation steps := (rtc (Spec.step members allowed i)).
Abbreviation sim := (Refine.sim members allowed sm0 i).
Implicit Types (w : World) (G : State C).

(** The reply of a handler, put on the record of what was sent. *)
Lemma R_replied w G p m : R w G → p ∈ peers_of members i → may_send G i p m →
  ∃ G', steps G G' ∧ R w G' ∧ mkEnvelope i p m ∈ sent G'.
Proof.
  intros HR Hp Hm. exists (add_sent (mkEnvelope i p m) G).
  assert (Hs : Spec.step members allowed i G (add_sent (mkEnvelope i p m) G)) by (by constructor).
  split; [by apply rtc_once|]. split.
  - eapply R_step; try done; try apply HR. intros e He. simpl. apply elem_of_app. left. by apply (r_net _ _ _ _ _ HR).
  - simpl. apply elem_of_app. right. by apply list_elem_of_singleton.
Qed.

(** What one call does to the peer: some actions of the protocol, and a reply
    only if it is among the messages sent. *)
Definition served (e : Envelope C) (call : M (Message C)) w G : Prop :=
  ∃ G', steps G G' ∧ R (call w).2 G' ∧ Frame.sends_only (λ _, True) w (call w).2 ∧
    match (call w).1 with Ok reply => mkEnvelope i (env_sender e) reply ∈ sent G' | Raise _ => True end.

Lemma served_stuck e call w G x : R w G → call w = (Raise x, w) → served e call w G.
Proof. intros HR E. exists G. rewrite E. split; [apply rtc_refl|]. split; [done|]. split; [apply Frame.sends_refl|done]. Qed.

(** A call through the stub: the conversions, the handler, and the fate of the
    call in the network. *)
Lemma served_call {A P Rep RP} (e : Envelope C) fate (toA : A → res P) fromA fitsA
    (toR : Rep → res RP) (fromR : RP → Rep) fitsR (handler : A → M Rep) (inj : Rep → Message C)
    (stub : P → M RP) `{∀ a, Decision (fitsA a)} `{∀ r, Decision (fitsR r)} args w G :
  Serialization.Codec toA fromA fitsA → Serialization.Codec toR (λ p, Ok (fromR p)) fitsR →
  (∀ q v, stub q v = RaftService.through fate (args <- lift (fromA q) ;; r <- handler args ;; lift (toR r))%py v) →
  R w G → env_sender e ∈ peers_of members i → (∀ a v, Frame.framed (λ _, True) (handler a) v) →
  sim (handler args) (λ reply w' G', may_send G' i (env_sender e) (inj reply)) w G →
  served e (q <- lift (toA args) ;; p <- stub q ;; ret (inj (fromR p)))%py w G.
Proof.
  intros HcA HcR Hstub HR Hp Hfr (G1 & Hs1 & HR1 & HQ).
  destruct (toA args) as [q|x] eqn:Eq; [|by eapply (served_stuck _ _ _ _ x)].
  pose proof (Serialization.codec_round_trip HcA _ _ Eq) as Eargs.
  pose proof (Hstub q w) as Es. unfold RaftService.through, bind, lift in Es. rewrite Eargs in Es.
  unfold served, bind, lift.
  pose proof (Hfr args w (λ _ _, I)) as Hso.
  destruct fate; [rewrite Es; exists G; split; [apply rtc_refl|]; split; [done|]; split; [apply Frame.sends_refl|done]| |];
    destruct (handler args w) as [[reply|x] w1]; simpl in HR1, HQ, Hso; try (rewrite Es; exists G1; split; [done|]; split; [done|]; split; [exact Hso|done]).
  destruct (toR reply) as [rp|x] eqn:Er; [|rewrite Es; exists G1; split; [done|]; split; [done|]; split; [exact Hso|done]]. rewrite Es.
  destruct (R_replied w1 G1 (env_sender e) (inj reply) HR1 Hp HQ) as (G2 & Hs2 & HR2 & Hin).
  pose proof (Serialization.codec_round_trip HcR _ _ Er) as [= Erep].
  exists G2. split; [by etransitivity|]. split; [done|]. split; [exact Hso|]. simpl. by rewrite Erep.
Qed.

(** Every request a task may carry. *)
Lemma send_request_served e fate now w G :
  R w G → e ∈ sent G → env_recipient e = i →
  served e (Grpc.send_request (Grpc.stub_for rnd fate now) (env_message e)) w G.
Proof.
  intros HR He Hr. pose proof (Refine.sender_peer members sm0 i w G e HR He Hr) as Hp.
  pose proof (λ v, RaftService.stub_calls fate (Grpc.RaftGrpcServicer rnd (ret tt) now) v) as Hstub. cbv zeta in Hstub.
  unfold Grpc.send_request. destruct (env_message e) as [m|m|m|m|m|m] eqn:Em; try by eapply served_stuck.
  - apply (served_call e fate Serialization.request_vote_args_to_proto (λ q, Ok (Serialization.request_vote_args_from_proto q))
      Serialization.rv_fits Serialization.request_vote_reply_to_proto Serialization.request_vote_reply_from_proto
      Serialization.rvr_fits (λ a, Runtime.handle_request_vote rnd a now) MRequestVoteReply); try done; try apply _.
    + exact Serialization.request_vote_args_codec.
    + apply Serialization.request_vote_reply_codec.
    + intros q v. exact (proj1 (Hstub v) q).
    + intros a v. apply Frame.framed_handle_request_vote.
    + by apply sim_handle_request_vote.
  - apply (served_call e fate Serialization.append_entries_args_to_proto Serialization.append_entries_args_from_proto
      Serialization.ae_fits Serialization.append_entries_reply_to_proto Serialization.append_entries_reply_from_proto
      Serialization.aer_fits (λ a, Runtime.handle_append_entries rnd a now) MAppendEntriesReply); try done; try apply _.
    + apply Serialization.append_entries_args_codec.
    + apply Serialization.append_entries_reply_codec.
    + intros q v. exact (proj1 (proj2 (proj2 (Hstub v))) q).
    + intros a v. apply Frame.framed_handle_append_entries.
    + by apply sim_handle_append_entries.
  - apply (served_call e fate Serialization.prevote_args_to_proto (λ q, Ok (Serialization.prevote_args_from_proto q))
      Serialization.pv_fits Serialization.prevote_reply_to_proto Serialization.prevote_reply_from_proto
      Serialization.pvr_fits (λ a, Runtime.handle_prevote a now) MPreVoteReply); try done; try apply _.
    + apply Serialization.prevote_args_codec.
    + apply Serialization.prevote_reply_codec.
    + intros q v. exact (proj1 (proj2 (Hstub v)) q).
    + intros a v. apply Frame.framed_handle_prevote.
    + by apply sim_handle_prevote.
Qed.
End calls.

(** ** The system *)

Section system.
Context {C S B : Type} {Hsm : StateMachine C S}.
Context {Hpb : Protobuf} {Hpickle : Pickle C B}.
Context {Wrv : Wire Pb.RequestVoteArgs B} {Wrvr : Wire Pb.RequestVoteReply B}.
Context {Wpv : Wire Pb.PreVoteArgs B} {Wpvr : Wire Pb.PreVoteReply B}.
Context {Wae : Wire (Pb.AppendEntriesArgs B) B} {Waer : Wire Pb.AppendEntriesReply B}.
Context {Wpq : Wire (Pb.ProposeRequest B) B} {Wpp : Wire Pb.ProposeReply B}.
Abbreviation World := (Raft.World C S (Grpc.GrpcRaftTransport C)).
Abbreviation M := (Py World).
Context {Hsrv : Server World B}.
Variables tmin tmax hb : float.
Variable peer_addresses : string → list (string * string).
Variable resolve : string → option string.
Variable ids : list string.
Variable sm0 : S.

Abbreviation members := (list_to_set ids : gset string).
Abbreviation R := (Refine.R members sm0).
Abbreviation exec := (Grpc.exec tmin tmax hb peer_addresses resolve).
Abbreviation run := (Grpc.run tmin tmax hb peer_addresses resolve).
Abbreviation Event := (Grpc.Event S B).

(** Every node is given the addresses of all the others, and a server that
    answers at the address of a node is the server of that node. *)
Record deployed : Prop := {
  dep_nodup : NoDup ids;
  dep_keys id : id ∈ ids → NoDup (fst <$> peer_addresses id);
  dep_peers id p : id ∈ ids → p ∈ fst <$> peer_addresses id ↔ p ∈ peers_of members id;
  dep_address id p a q : id ∈ ids → Grpc.address_of p (peer_addresses id) = Some a → resolve a = Some q → q = p
}.
Hypothesis Hdep : deployed.

(** The transport of node [id]. *)
Record bound (id : string) (t : Grpc.GrpcRaftTransport C) : Prop := {
  bound_addresses : Grpc.addresses t = peer_addresses id;
  bound_self : Grpc.self_node_id t = Some id;
  bound_tasks e : e ∈ Grpc.tasks t → env_sender e = id
}.

Variable allowed : C → Prop.
Abbreviation steps id := (rtc (Spec.step members allowed id)).
Implicit Types (w : World) (G : State C) (sys : Grpc.System C S).

Record refines sys G : Prop := {
  g_reachable : reachable members allowed G;
  g_present id : id ∈ ids → is_Some (Grpc.nodes sys !! id);
  g_node id w : Grpc.nodes sys !! id = Some w → id ∈ ids ∧ R id w G ∧ bound id (Raft.transport w);
  g_replies e : e ∈ Grpc.replies sys → e ∈ sent G
}.

Lemma bound_sent_by id msgs : ∀ t, bound id t → bound id (Frame.sent_by id msgs t).
Proof.
  induction msgs as [|[r m] msgs IH]; intros t Ht; [done|]. apply IH. destruct Ht as [Ha Hs Ht].
  simpl. unfold Grpc.send. destruct (Grpc.is_reply m); [done|]. split; [done|done|].
  simpl. intros e [He|He%list_elem_of_singleton]%elem_of_app; [by apply Ht|by subst e].
Qed.

Lemma bound_sends id w w' G : R id w G → bound id (Raft.transport w) →
  Frame.sends_only (λ _, True) w w' → bound id (Raft.transport w').
Proof. intros HR Ht [_ _ (msgs & _ & ->)]. rewrite (r_id _ _ _ _ _ HR). by apply bound_sent_by. Qed.

(** Another node's actions leave a node's relation intact. *)
Lemma grpc_R_other id id' w G G' :
  id ≠ id' → id ∈ members → steps id G G' → R id' w G → R id' w G'.
Proof.
  intros Hne Hid Hs HR. pose proof (Refine.steps_inv members allowed id Hid G G' (r_inv _ _ _ _ _ HR) Hs) as HI.
  pose proof (Cluster.steps_other ids allowed id id' G G' Hne Hs) as Hn.
  pose proof (λ e, Refine.steps_sent members allowed id G G' e Hs) as Hsent.
  destruct HR as [? ? ? ? ? ? ? Hnet ?]. split; try done; [|by rewrite Hn]. intros e He. by apply Hsent, Hnet.
Qed.

Lemma grpc_put_refines id w reps sys G G' :
  refines sys G → id ∈ ids → steps id G G' → R id w G' → bound id (Raft.transport w) →
  (∀ e, e ∈ reps → e ∈ sent G') →
  refines (Grpc.mkSystem (<[id := w]> (Grpc.nodes sys)) reps) G' ∧ rtc (Spec.cstep members allowed) G G'.
Proof.
  intros [Hr Hp Hn _] Hid Hs HR Hb Hreps. assert (Hm : id ∈ members) by set_solver.
  pose proof (Cluster.steps_cstep ids allowed id G G' Hm Hs) as Hc. split; [|done]. split.
  - unfold reachable in *. by etransitivity.
  - intros id' Hid'. simpl. destruct (decide (id = id')) as [->|]; simplify_map_eq; auto.
  - intros id' w'. simpl. intros [[<- <-]|[Hne Hw']]%lookup_insert_Some; [done|].
    destruct (Hn _ _ Hw') as (? & HR' & ?). split; [done|]. split; [|done]. by eapply grpc_R_other.
  - exact Hreps.
Qed.

(** A call into one node whose body simulates the protocol. *)
Lemma on_node_refines {A} id (m : M A) sys G :
  refines sys G → (∀ w, Frame.framed (λ _, True) m w) →
  (∀ w, R id w G → bound id (Raft.transport w) → id ∈ members → ∃ G', steps id G G' ∧ R id (m w).2 G') →
  ∃ G', refines (Grpc.on_node id m sys).2 G' ∧ rtc (Spec.cstep members allowed) G G'.
Proof.
  intros Hf Hfr Hm. unfold Grpc.on_node. destruct (Grpc.nodes sys !! id) as [w|] eqn:E; [|exists G; split; [done|apply rtc_refl]].
  destruct (g_node _ _ Hf _ _ E) as (Hid & HR & Hb).
  destruct (Hm w HR Hb ltac:(set_solver)) as (G' & Hs & HR'). specialize (Hfr w (λ _ _, I)).
  destruct (m w) as [r w']. exists G'. eapply grpc_put_refines; try done.
  - exact (bound_sends id w w' G HR Hb Hfr).
  - intros e He. eapply Refine.steps_sent; [exact Hs|]. by apply (g_replies _ _ Hf).
Qed.

(** A pool thread takes a task: nothing the protocol sees. *)
Lemma take_task_refines id k w sys G :
  refines sys G → Grpc.nodes sys !! id = Some w →
  refines (Grpc.mkSystem (<[id := Grpc.take_task id k w]> (Grpc.nodes sys)) (Grpc.replies sys)) G.
Proof.
  intros Hf E. destruct (g_node _ _ Hf _ _ E) as (Hid & HR & Hb).
  assert (Hsub : ∀ e, e ∈ Grpc.tasks (Raft.transport (Grpc.take_task id k w)) → e ∈ Grpc.tasks (Raft.transport w)).
  { intros e. apply elem_of_deleted. }
  eapply grpc_put_refines; [done|done|apply rtc_refl| | |by apply (g_replies _ _ Hf)].
  - destruct HR as [? ? ? ? ? ? ? Hnet ?]. split; try done. intros e He. by apply Hnet, Hsub.
  - destruct Hb as [? ? Ht]. split; [done|done|]. intros e He. by apply Ht, Hsub.
Qed.

Lemma call_peer_refines rnd id k fate now sys G :
  refines sys G →
  ∃ G', refines (Grpc.call_peer resolve rnd id k fate now sys) G' ∧ rtc (Spec.cstep members allowed) G G'.
Proof.
  intros Hf. unfold Grpc.call_peer. assert (Hsame : ∃ G', refines sys G' ∧ rtc (Spec.cstep members allowed) G G')
    by (exists G; split; [done|apply rtc_refl]).
  destruct (Grpc.nodes sys !! id) as [w|] eqn:E; [|done].
  destruct (Grpc.tasks (Raft.transport w) !! k) as [task|] eqn:Ek; [|done]. clear Hsame.
  pose proof (take_task_refines id k w sys G Hf E) as Hf1. set (sys1 := Grpc.mkSystem _ _) in *.
  destruct (g_node _ _ Hf _ _ E) as (Hid & HR & Hb).
  assert (Hin : task ∈ Grpc.tasks (Raft.transport w)) by (by eapply list_elem_of_lookup_2).
  pose proof (r_net _ _ _ _ _ HR task Hin) as Hsent. pose proof (bound_tasks _ _ Hb task Hin) as Hsender.
  destruct (Grpc.address_of _ _ ≫= resolve) as [peer|] eqn:Epeer; [|exists G; split; [done|apply rtc_refl]].
  apply bind_Some in Epeer as (a & Ea & Epeer). rewrite (bound_addresses _ _ Hb) in Ea.
  pose proof (dep_address Hdep id _ a peer Hid Ea Epeer) as ->.
  unfold Grpc.on_node. destruct (Grpc.nodes sys1 !! env_recipient task) as [wp|] eqn:Ep; [|exists G; split; [done|apply rtc_refl]].
  destruct (g_node _ _ Hf1 _ _ Ep) as (Hpid & HRp & Hbp).
  destruct (send_request_served members allowed sm0 (env_recipient task) ltac:(set_solver) rnd task fate now wp G HRp Hsent eq_refl)
    as (G' & Hs & HR' & Hso & Hreply).
  exists G'. destruct (Grpc.send_request _ _ wp) as [r wp']. cbn [fst snd] in HR', Hso, Hreply.
  assert (Hold : ∀ e, e ∈ Grpc.replies sys1 → e ∈ sent G').
  { intros e He. eapply Refine.steps_sent; [exact Hs|]. by apply (g_replies _ _ Hf1). }
  pose proof (bound_sends _ wp wp' G HRp Hbp Hso) as Hbp'.
  destruct r as [reply|x]; (eapply (grpc_put_refines _ wp' _ sys1 G G'); [exact Hf1|exact Hpid|exact Hs|exact HR'|exact Hbp'|]);
    [|exact Hold].
  intros e [He|He%list_elem_of_singleton]%elem_of_app; [by apply Hold|]. subst e. by rewrite <- Hsender.
Qed.

Lemma sim_acts {A} id (m : M A) (Q : A → World → State C → Prop) w G :
  Refine.sim members allowed sm0 id m Q w G → ∃ G', steps id G G' ∧ R id (m w).2 G'.
Proof. intros (G' & Hs & HR & _). by exists G'. Qed.

(** A turn of the driver thread: a tick, and an empty poll. *)
Lemma turn_acts id rnd now w G : id ∈ members → R id w G →
  ∃ G', steps id G G' ∧ R id (Runtime.turn rnd now w).2 G'.
Proof.
  intros Hid HR. destruct (sim_tick members allowed sm0 id Hid rnd now w G (λ _ _ _, True) HR) as (G' & Hs & HR' & _); [done|].
  exists G'. split; [done|]. unfold Runtime.turn, bind. by destruct (Raft.tick rnd now w) as [[[]|x] w1].
Qed.

Lemma turn_framed rnd now w : Frame.framed (λ _, True) (Runtime.turn rnd now) w.
Proof.
  unfold Runtime.turn, Runtime.node_id, deliver_to, Grpc.grpc_delivery.
  apply Frame.framed_bind; [apply Frame.framed_tick|]. intros _ w1. apply Frame.framed_get.
  apply Frame.framed_bind; [|intros _ w2]; apply Frame.framed_silent, Frame.silent_ret.
Qed.

Lemma inject_framed rnd p m now w : Frame.framed (λ _, True) (Grpc.inject_reply rnd p m now) w.
Proof.
  unfold Grpc.inject_reply. apply Frame.framed_get. destruct (Grpc.self_node_id _).
  - by apply Frame.framed_receive.
  - apply Frame.framed_silent, Frame.silent_ret.
Qed.

(** A proposal over gRPC: whatever becomes of the call, the node has done what
    [propose] does, or nothing. *)
Lemma through_acts {A} id fate (m : M A) w G : R id w G →
  (∃ G', steps id G G' ∧ R id (m w).2 G') → ∃ G', steps id G G' ∧ R id (RaftService.through fate m w).2 G'.
Proof.
  intros HR HG. unfold RaftService.through. destruct fate; [exists G; split; [apply rtc_refl|done]|done|].
  by destruct (m w) as [[a|x] w'].
Qed.

Lemma through_framed {A} fate (m : M A) w : Frame.framed (λ _, True) m w → Frame.framed (λ _, True) (RaftService.through fate m) w.
Proof.
  intros Hm Hp. specialize (Hm Hp). unfold RaftService.through. destruct fate; [apply Frame.sends_refl|done|].
  by destruct (m w) as [[a|x] w'].
Qed.

Lemma propose_acts id now (request : Pb.ProposeRequest B) w G :
  id ∈ members → R id w G → (∀ c, loads (Pb.pq_command request) = Ok c → allowed c) →
  ∃ G', steps id G G' ∧ R id (Grpc.Propose (ret tt) now request w).2 G'.
Proof.
  intros Hid HR Hc. unfold Grpc.Propose, bind at 1, lift at 1.
  destruct (loads (Pb.pq_command request)) as [c|x]; [|exists G; split; [apply rtc_refl|done]].
  destruct (sim_propose members allowed sm0 id Hid c now) with (w := w) (G := G) (Q := λ (_ : option (LogEntry C)) (_ : World) (_ : State C), True)
    as (G' & Hs & HR' & _); [done|by apply Hc|done|].
  exists G'. split; [done|]. unfold bind, Runtime.propose. destruct (Raft.propose c now w) as [[[e|]|x] w1]; done.
Qed.

Lemma propose_framed now (request : Pb.ProposeRequest B) w :
  Frame.framed (λ _, True) (Grpc.Propose (ret tt) now request) w.
Proof.
  unfold Grpc.Propose. apply Frame.framed_bind; [by apply Frame.framed_silent|]. intros c w1.
  apply Frame.framed_bind; [apply Frame.framed_propose|]. intros [e|] w2.
  - unfold Runtime.node_id. apply Frame.framed_get. by apply Frame.framed_silent.
  - apply Frame.framed_bind; [apply Frame.framed_silent, Frame.silent_ret|]. intros _ w3. apply Frame.framed_get.
    apply Frame.framed_silent, Frame.silent_ret.
Qed.

(** The events of the theorems: every proposed command is allowed, and no
    container starts again, which would lose the storage. *)
Definition event_ok (ev : Event) : Prop :=
  match ev with
  | Grpc.ClientPropose _ _ request _ => ∀ c, loads (Pb.pq_command request) = Ok c → allowed c
  | Grpc.NewContainer _ _ => False
  | _ => True
  end.

Lemma drop_reply_refines k sys G : refines sys G → refines (Grpc.drop_reply k sys) G.
Proof. intros [Hr Hp Hn Hreps]. split; try done. intros e He. by apply Hreps, (elem_of_deleted k). Qed.

(** One event is a sequence of protocol actions. *)
Lemma grpc_exec_refines ev rnd sys G :
  refines sys G → event_ok ev → ∃ G', refines (exec ev rnd sys) G' ∧ rtc (Spec.cstep members allowed) G G'.
Proof.
  intros Hf Hev. assert (Hsame : ∃ G', refines sys G' ∧ rtc (Spec.cstep members allowed) G G')
    by (exists G; split; [done|apply rtc_refl]).
  destruct ev as [id now|id now|id k fate now|k now|k|id fate request now|id sm]; cbn [Grpc.exec]; [| | | | | |done].
  - apply on_node_refines; [done|intros w; apply Frame.framed_start|]. intros w HR _ Hid.
    eapply sim_acts, (sim_start members allowed sm0 id rnd now w G (λ _ _ _, True)); done.
  - apply on_node_refines; [done|intros w; apply turn_framed|]. intros w HR _ Hid. by apply turn_acts.
  - by apply call_peer_refines.
  - destruct (Grpc.replies sys !! k) as [e|] eqn:Ek; [|done].
    pose proof (drop_reply_refines k sys G Hf) as Hf1.
    assert (He : e ∈ sent G) by (apply (g_replies _ _ Hf); by eapply list_elem_of_lookup_2).
    apply on_node_refines; [done|intros w; apply inject_framed|]. intros w HR Hb Hid.
    assert (Einj : Grpc.inject_reply rnd (env_sender e) (env_message e) now w = Raft.receive rnd e now w).
    { unfold Grpc.inject_reply, bind, get. rewrite (bound_self _ _ Hb). unfold Runtime.receive. by destruct e. }
    rewrite Einj. eapply sim_acts, (sim_receive members allowed sm0 (env_recipient e) Hid rnd e now w G (λ _ _ _, True)); done.
  - exists G. split; [by apply drop_reply_refines|apply rtc_refl].
  - assert (Hst : ∀ w, RaftService.Propose (Grpc.stub_for rnd fate now) request w =
      RaftService.through fate (Grpc.Propose (ret tt) now request) w).
    { intros w. exact (proj2 (proj2 (proj2 (RaftService.stub_calls fate (Grpc.RaftGrpcServicer rnd (ret tt) now) w))) request). }
    apply on_node_refines; [done| |].
    + intros w Hp. rewrite Hst. by apply through_framed; [apply propose_framed|].
    + intros w HR _ Hid. rewrite Hst. apply through_acts; [done|]. by apply propose_acts.
Qed.

Lemma grpc_run_refines evs sys G :
  refines sys G → Forall (λ ev, event_ok ev.1) evs →
  ∃ G', refines (run evs sys) G' ∧ rtc (Spec.cstep members allowed) G G'.
Proof.
  intros Hf Hev. revert sys G Hf. induction Hev as [|ev evs Hev _ IH]; intros sys G Hf.
  { exists G. split; [done|apply rtc_refl]. }
  destruct (grpc_exec_refines ev.1 ev.2 sys G Hf Hev) as (G1 & Hf1 & Hs1).
  destruct (IH _ _ Hf1) as (G2 & Hf2 & Hs2). exists G2. split; [done|]. by etransitivity.
Qed.

(** Freshly started containers implement the initial protocol state. *)
Lemma new_node_R id : id ∈ ids →
  R id (Grpc.GrpcRaftNode tmin tmax hb peer_addresses id Storage.init sm0) initial ∧
  bound id (Raft.transport (Grpc.GrpcRaftNode (C := C) tmin tmax hb peer_addresses id Storage.init sm0)).
Proof.
  intros Hid. split.
  - split; simpl; try done.
    + apply Actions.inv_initial.
    + by apply (dep_keys Hdep).
    + intros p. by apply (dep_peers Hdep).
    + by exists [].
  - split; [done|done|]. intros e He. by apply not_elem_of_nil in He.
Qed.

Lemma grpc_init_refines : refines (Grpc.init tmin tmax hb peer_addresses ids sm0) initial.
Proof.
  assert (H : ∀ l, (∀ id, id ∈ l → id ∈ ids) →
    let nodes := foldr (λ id, <[id := Grpc.GrpcRaftNode tmin tmax hb peer_addresses id Storage.init sm0]>) (∅ : gmap string World) l in
    (∀ id, id ∈ l → is_Some (nodes !! id)) ∧
    ∀ id w, nodes !! id = Some w → id ∈ ids ∧ R id w initial ∧ bound id (Raft.transport w)).
  { induction l as [|id l IH]; intros Hl; simpl.
    { split; [intros id He; by apply not_elem_of_nil in He|]. intros id w. by rewrite lookup_empty. }
    destruct IH as [IH1 IH2]; [intros; apply Hl; by right|]. split.
    - intros id' Hid'. destruct (decide (id = id')) as [->|Hne]; [rewrite lookup_insert_eq; by eexists|].
      rewrite lookup_insert_ne by done. apply IH1. set_solver.
    - intros id' w [[<- <-]|[_ Hw]]%lookup_insert_Some; [|by apply IH2].
      assert (Hin : id ∈ ids) by (apply Hl; left). split; [done|]. by apply new_node_R. }
  destruct (H ids (λ _ Hid, Hid)) as [H1 H2]. split; [apply rtc_refl|done|done|].
  intros e He. by apply not_elem_of_nil in He.
Qed.
End system.
End GrpcRefine.
