(* ===== verification/GrpcClient.v ===== *)
(** * The client of a gRPC cluster (coordinator/grpc/raft_cluster_client.py)

    [GrpcRaftClusterClient] proposes through the service of the nodes: the
    last known leader first, then every node, following leader hints.  Before
    its [k]-th access to the outside (a call, a reading of the clock) the events
    [others k] have happened in the system; [clock k] is what
    [time.monotonic()] answers there and [fate k] what becomes of the call. *)

From stdpp Require Import base gmap strings list.
From Stdlib Require Import ZArith SpecFloat Lia.
From S2P Require Import Prelude PyDecimal PyFloat Models RaftTypes Storage StateMachine Ledger Submitter.
From S2P Require Import Transport RaftNode RaftFrame Runtime Serialization GrpcStub Grpc.

Local Open Scope Z_scope.

Module GrpcClient.
Section client.
Context {C S B : Type} {Hsm : StateMachine C S}.
Context {Hpb : Protobuf} {Hpickle : Pickle C B}.
Context {Wrv : Wire Pb.RequestVoteArgs B} {Wrvr : Wire Pb.RequestVoteReply B}.
Context {Wpv : Wire Pb.PreVoteArgs B} {Wpvr : Wire Pb.PreVoteReply B}.
Context {Wae : Wire (Pb.AppendEntriesArgs B) B} {Waer : Wire Pb.AppendEntriesReply B}.
Context {Wpq : Wire (Pb.ProposeRequest B) B} {Wpp : Wire Pb.ProposeReply B}.
Context {Hsrv : Server (Raft.World C S (Grpc.GrpcRaftTransport C)) B}.
Variables tmin tmax hb : float.
Variable peer_addresses : string → list (string * string).
Variable resolve : string → option string.

Abbreviation Rnd := (nat → float → float → float).
Variable others : nat → list (Grpc.Event S B * Rnd).
Variable clock : nat → float.
Variable fate : nat → Fate.
(** The draws of the service's handlers. *)
Variable rnd : Rnd.

Record GrpcRaftClusterClient := mkClient {
  shared : Grpc.System C S;
  addresses : list (string * string);
  last_known_leader : option string;
  accesses : nat
}.

Abbreviation K := (Py GrpcRaftClusterClient).

Definition elapse (w : GrpcRaftClusterClient) : Grpc.System C S :=
  Grpc.run tmin tmax hb peer_addresses resolve (others (accesses w)) (shared w).

Definition monotonic : K float := λ w,
  (Ok (clock (accesses w)), mkClient (elapse w) (addresses w) (last_known_leader w) (Datatypes.S (accesses w))).

Definition set_last (l : option string) : K unit :=
  modify (λ w, mkClient (shared w) (addresses w) l (accesses w)).

Definition known (node_id : string) (w : GrpcRaftClusterClient) : bool :=
  bool_decide (node_id ∈ fst <$> addresses w).

(** [stub.Propose(raft_pb2.ProposeRequest(command=pickle.dumps(command)), timeout=...)] *)
Definition ask (node_id : string) (command : C) : K Pb.ProposeReply := λ w,
  let sys := elapse w in
  let '(r, sys') :=
    match Grpc.address_of node_id (addresses w) ≫= resolve with
    | None => (None, sys)
    | Some node =>
        Grpc.on_node node (RaftService.Propose (Grpc.stub_for rnd (fate (accesses w)) (clock (accesses w)))
          (Pb.mkProposeRequest (dumps command))) sys
    end in
  (match r with Some r => r | None => Raise RpcError end,
   mkClient sys' (addresses w) (last_known_leader w) (Datatypes.S (accesses w))).

(** One pass of [for node_id in list(ordered)]; [todo] is what is left of the
    copy. *)
Fixpoint try_all (todo : list string) (command : C) (ordered : list string) : K (list string * option (LogEntry C)) :=
  match todo with
  | [] => ret (ordered, None)
  | node_id :: todo =>
      (k <- get (known node_id) ;;
       if negb k then try_all todo command ordered
       else
         reply <- try_ (r <- ask node_id command ;; ret (Some r))
                    (λ e, match e with RpcError => Some (ret None) | _ => None end) ;;
         match reply with
         | None => try_all todo command ordered
         | Some reply =>
             if Pb.pp_accepted reply then
               set_last (Some node_id) ;;;
               ret (ordered, Some (mkEntry (Pb.pp_term reply) (Pb.pp_index reply) command))
             else
               hint <- get (known (Pb.pp_leader_hint reply)) ;;
               try_all todo command
                 (if bool_decide (Pb.pp_leader_hint reply ≠ "") && (hint : bool)
                  then Pb.pp_leader_hint reply :: ordered else ordered)
         end)%py
  end.

Definition no_leader : exn := TimeoutError "no leader accepted the proposal within timeout".

Fixpoint propose_loop (fuel : nat) (command : C) (deadline : float) (ordered : list string) : K (LogEntry C) :=
  match fuel with
  | O => raise OutOfFuel
  | Datatypes.S fuel =>
      (now <- monotonic ;;
       if negb (F.lt now deadline) then raise no_leader
       else
         pass <- try_all ordered command ordered ;;
         match pass with
         | (_, Some entry) => ret entry
         | (ordered, None) => propose_loop fuel command deadline ordered
         end)%py
  end.

(** The candidates a proposal starts with. *)
Definition candidates (w : GrpcRaftClusterClient) : list string :=
  let first := match last_known_leader w with
               | Some id => if bool_decide (id = "") then [] else [id]
               | None => []
               end in
  first ++ filter (λ id, id ∉ first) (fst <$> addresses w).

Definition propose (fuel : nat) (command : C) (timeout : float) : K (LogEntry C) :=
  (now <- monotonic ;;
   ordered <- get candidates ;;
   propose_loop fuel command (F.add now timeout) ordered)%py.

(** ** What a proposal does *)

Implicit Types (w : GrpcRaftClusterClient) (sys : Grpc.System C S).

Definition request (c : C) : Pb.ProposeRequest B := Pb.mkProposeRequest (dumps c).

(** The service of one node. *)
Lemma propose_service c now (wn : Raft.World C S (Grpc.GrpcRaftTransport C)) :
  if Raft.is_leader (Raft.node wn) then
    let st := Raft.storage wn in
    let e := mkEntry (Storage.current_term st) (zlen (Storage.entries st) + 1) c in
    ∃ r wn', Grpc.Propose (ret tt) now (request c) wn = (r, wn') ∧ Raft.storage wn' = Storage.append [e] st ∧
      ∀ reply, r = Ok reply → Pb.pp_accepted reply = true ∧ mkEntry (Pb.pp_term reply) (Pb.pp_index reply) c = e
  else ∃ reply, Grpc.Propose (ret tt) now (request c) wn = (Ok reply, wn) ∧ Pb.pp_accepted reply = false ∧
    Pb.pp_leader_hint reply = default "" (Raft.leader_id (Raft.node wn)).
Proof.
  pose proof (Frame.propose_effect c now wn) as Hp. unfold Grpc.Propose, request. simpl. rewrite loads_dumps.
  destruct (Raft.is_leader (Raft.node wn)); unfold bind, lift, Runtime.propose.
  - destruct Hp as (wn' & -> & Hst). set (e := mkEntry _ _ c) in *.
    unfold Runtime.node_id, Raft.gets, get. eexists _, wn'. split; [reflexivity|]. split; [done|].
    intros reply. rewrite !Serialization.int64_step. repeat case_decide; [|done..]. by intros [= <-].
  - rewrite Hp. eexists. split; [reflexivity|]. by split.
Qed.

(** The system goes through the others' events and proposals of the command. *)
Definition reaches (c : C) sys sys' : Prop := ∃ evs,
  Forall (λ ev, (∃ k, ev ∈ others k) ∨ ∃ id f now, ev = (Grpc.ClientPropose id f (request c) now, rnd)) evs ∧
  sys' = Grpc.run tmin tmax hb peer_addresses resolve evs sys.

Lemma system_reaches_refl c sys : reaches c sys sys.
Proof. by exists []. Qed.

Lemma system_reaches_trans c sys1 sys2 sys3 : reaches c sys1 sys2 → reaches c sys2 sys3 → reaches c sys1 sys3.
Proof.
  intros (e1 & A1 & ->) (e2 & A2 & ->). exists (e1 ++ e2). split; [by apply Forall_app|].
  unfold Grpc.run. by rewrite foldl_app.
Qed.

Lemma elapse_reaches c w : reaches c (shared w) (elapse w).
Proof. exists (others (accesses w)). split; [|done]. apply Forall_forall. intros ev Hev. left. by eexists. Qed.

Definition own (c : C) (node : string) (f : Fate) (now : float) : Grpc.Event S B := Grpc.ClientPropose node f (request c) now.
Definition after (ev : Grpc.Event S B) sys : Grpc.System C S := Grpc.exec tmin tmax hb peer_addresses resolve ev rnd sys.

Lemma own_reaches c node f now sys : reaches c sys (after (own c node f now) sys).
Proof.
  exists [(own c node f now, rnd)]. split; [|done]. apply Forall_singleton. right. by exists node, f, now.
Qed.

(** [e] is the entry that a leader appended for [c], by the last event. *)
Definition appended (c : C) (e : LogEntry C) w w' : Prop := ∃ sys node now wn wn',
  reaches c (shared w) sys ∧ Grpc.nodes sys !! node = Some wn ∧ Raft.state (Raft.node wn) = LEADER ∧
  e = mkEntry (Storage.current_term (Raft.storage wn)) (zlen (Storage.entries (Raft.storage wn)) + 1) c ∧
  shared w' = after (own c node Delivered now) sys ∧
  Grpc.nodes (shared w') !! node = Some wn' ∧ Raft.storage wn' = Storage.append [e] (Raft.storage wn).

Lemma client_appended_later c e w w1 w2 : reaches c (shared w) (shared w1) → appended c e w1 w2 → appended c e w w2.
Proof.
  intros Hr (sys & node & now & wn & wn' & Hr' & H). exists sys, node, now, wn, wn'. split; [|done].
  by eapply system_reaches_trans.
Qed.

(** The client keeps its addresses; the system moves on. *)
Record moves (c : C) w w' : Prop := {
  moves_shared : reaches c (shared w) (shared w');
  moves_addresses : addresses w' = addresses w;
  moves_accesses : (accesses w ≤ accesses w')%nat
}.

Lemma moves_refl c w : moves c w w.
Proof. split; [apply system_reaches_refl|done|done]. Qed.

Lemma moves_trans c w1 w2 w3 : moves c w1 w2 → moves c w2 w3 → moves c w1 w3.
Proof. intros [R1 A1 N1] [R2 A2 N2]. split; [by eapply system_reaches_trans|congruence|lia]. Qed.

Lemma ask_spec id c w :
  let '(r, w') := ask id c w in
  moves c w w' ∧ accesses w' = Datatypes.S (accesses w) ∧
  match r with
  | Ok reply => Pb.pp_accepted reply = true → appended c (mkEntry (Pb.pp_term reply) (Pb.pp_index reply) c) w w'
  | Raise x => x = RpcError
  end.
Proof.
  unfold ask. pose proof (elapse_reaches c w) as He. set (sys := elapse w) in *.
  assert (Hstuck : ∀ a b n, moves c w (mkClient sys a b n) ↔ a = addresses w ∧ (accesses w ≤ n)%nat).
  { intros a b n. split; [by intros [_ ? ?]|]. intros [-> Hn]. by split. }
  destruct (Grpc.address_of id (addresses w) ≫= resolve) as [node|].
  2: { split; [apply Hstuck; split; [done|lia]|by split]. }
  set (now := clock (accesses w)). set (f := fate (accesses w)).
  assert (Hst : ∀ wn, RaftService.Propose (Grpc.stub_for rnd f now) (Pb.mkProposeRequest (dumps c)) wn =
    RaftService.through f (Grpc.Propose (ret tt) now (request c)) wn).
  { intros wn. exact (proj2 (proj2 (proj2 (RaftService.stub_calls f (Grpc.RaftGrpcServicer rnd (ret tt) now) wn))) (request c)). }
  assert (Hown : (Grpc.on_node node (RaftService.Propose (Grpc.stub_for rnd f now) (Pb.mkProposeRequest (dumps c))) sys).2
    = after (own c node f now) sys) by done.
  revert Hown. unfold Grpc.on_node. destruct (Grpc.nodes sys !! node) as [wn|] eqn:En; intros Hown.
  2: { split; [apply Hstuck; split; [done|lia]|by split]. }
  rewrite Hst in Hown |- *. destruct (RaftService.through f _ wn) as [r wn'] eqn:Et. simpl in Hown. split.
  { split; simpl; [|done|lia]. eapply system_reaches_trans; [exact He|]. rewrite Hown. apply own_reaches. }
  split; [done|]. unfold RaftService.through in Et. pose proof (propose_service c now wn) as Hs.
  destruct f eqn:Ef; [by injection Et as <- _|by injection Et as <- _|].
  destruct (Raft.is_leader (Raft.node wn)) eqn:El.
  - destruct Hs as (r0 & wn0 & E0 & Hst0 & Hr0). rewrite E0 in Et. destruct r0 as [reply|x]; injection Et as <- <-; [|done].
    intros _. destruct (Hr0 reply eq_refl) as [_ He0]. rewrite He0. exists sys, node, now, wn, wn0.
    split; [done|]. split; [done|]. split; [by apply bool_decide_eq_true in El|]. split; [done|].
    split; [exact Hown|]. split; [|done]. simpl. by rewrite lookup_insert_eq.
  - destruct Hs as (reply & E0 & Hacc & _). rewrite E0 in Et. injection Et as <- <-. by rewrite Hacc.
Qed.

(** A pass over [todo] either ends with an appended entry, or has asked every
    known node of [todo] and put some hints in front of the candidates. *)
Lemma try_all_spec todo c : ∀ ordered w,
  match try_all todo c ordered w with
  | (Ok (_, Some e), w') => entry_command e = c ∧ appended c e w w' ∧ (accesses w < accesses w')%nat
  | (Ok (ordered', None), w') =>
      moves c w w' ∧ accesses w' = (accesses w + length (filter (λ id, known id w) todo))%nat ∧
      ∃ hints, ordered' = hints ++ ordered ∧ (length hints ≤ length (filter (λ id, known id w) todo))%nat ∧
        Forall (λ id, known id w) hints
  | (Raise _, _) => False
  end.
Proof.
  induction todo as [|id todo IH]; intros ordered w; simpl.
  { unfold ret. split; [apply moves_refl|]. split; [lia|]. by exists []. }
  unfold bind at 1, get at 1. rewrite filter_cons. destruct (known id w) eqn:Hk; simpl.
  2: { apply IH. }
  unfold bind at 1, try_, bind at 1.
  pose proof (ask_spec id c w) as Ha. destruct (ask id c w) as [[reply|x] w1].
  - destruct Ha as (Hm & Hac & Hrep). simpl. destruct (Pb.pp_accepted reply) eqn:Hacc.
    + unfold bind, set_last, modify, ret. split; [done|]. split; [|simpl; lia].
      destruct (Hrep eq_refl) as (sys & node & now & wn & wn' & H). by exists sys, node, now, wn, wn'.
    + clear Hrep. unfold bind at 1, get. set (hint := Pb.pp_leader_hint reply).
      specialize (IH (if bool_decide (hint ≠ "") && known hint w1 then hint :: ordered else ordered) w1).
      unfold known in IH |- *. rewrite (moves_addresses _ _ _ Hm) in IH |- *.
      destruct (try_all _ _ _ w1) as [[[ord [e|]]|x] w2]; [| |done].
      * destruct IH as (? & IH & ?). split; [done|]. split; [|lia]. eapply client_appended_later; [apply Hm|done].
      * destruct IH as (Hm2 & Ha2 & hints & -> & Hlen & Hall). split; [by eapply moves_trans|].
        split; [simpl; lia|]. destruct (_ && _) eqn:Hh.
        -- exists (hints ++ [hint]). rewrite <- app_assoc. split; [done|]. rewrite length_app. simpl. split; [lia|].
           apply Forall_app. split; [done|]. apply Forall_singleton. by apply andb_true_iff in Hh as [_ ->].
        -- exists hints. split; [done|]. simpl. split; [lia|done].
  - destruct Ha as (Hm & Hac & ->). simpl. unfold ret. specialize (IH ordered w1).
    unfold known in IH |- *. rewrite (moves_addresses _ _ _ Hm) in IH.
    destruct (try_all _ _ _ w1) as [[[ord [e|]]|x] w2]; [| |done].
    + destruct IH as (? & IH & ?). split; [done|]. split; [|lia]. eapply client_appended_later; [apply Hm|done].
    + destruct IH as (Hm2 & Ha2 & hints & -> & Hlen & Hall). split; [by eapply moves_trans|].
      split; [simpl; lia|]. exists hints. split; [done|]. split; [simpl; lia|done].
Qed.

Lemma monotonic_moves c w : moves c w (monotonic w).2 ∧ (monotonic w).1 = Ok (clock (accesses w)) ∧
  accesses (monotonic w).2 = Datatypes.S (accesses w).
Proof. split; [|done]. split; simpl; [apply elapse_reaches|done|lia]. Qed.

(** The last thing the call did was to read the clock, not before the
    deadline. *)
Definition read_late (deadline : float) w w' : Prop :=
  (accesses w < accesses w')%nat ∧ F.lt (clock (accesses w' - 1)) deadline = false.

Lemma client_propose_loop_spec fuel c deadline : ∀ ordered w,
  match propose_loop fuel c deadline ordered w with
  | (Ok e, w') => entry_command e = c ∧ appended c e w w' ∧ F.lt (clock (accesses w)) deadline = true
  | (Raise x, w') => moves c w w' ∧
      (x = no_leader ∧ read_late deadline w w' ∧
         (F.lt (clock (accesses w)) deadline = true →
            (accesses w + 1 + length (filter (λ id, known id w) ordered) < accesses w')%nat) ∨
       x = OutOfFuel ∧ ∀ m, (∀ k, (m ≤ k)%nat → F.lt (clock k) deadline = false) →
         (fuel + accesses w ≤ Nat.max m (accesses w))%nat)
  end.
Proof.
  induction fuel as [|fuel IH]; intros ordered w; cbn [propose_loop].
  { split; [apply moves_refl|]. right. split; [done|]. intros. lia. }
  unfold bind at 1. destruct (monotonic_moves c w) as (Hm1 & Er & Ea). destruct (monotonic w) as [r w1].
  cbn [fst snd] in Hm1, Er, Ea. subst r. destruct (F.lt (clock (accesses w)) deadline) eqn:Hlt; cbn [negb].
  2: { split; [done|]. left. split; [done|]. split; [|done]. split; [lia|]. rewrite Ea. simpl. by rewrite Nat.sub_0_r. }
  unfold bind at 1. pose proof (try_all_spec ordered c ordered w1) as Ht.
  destruct (try_all ordered c ordered w1) as [[[ord [e|]]|x] w2]; [| |done].
  - destruct Ht as (? & Ht & Hac). split; [done|]. split; [eapply client_appended_later; [apply Hm1|done]|done].
  - destruct Ht as (Hm2 & Ha2 & _). pose proof (moves_trans _ _ _ _ Hm1 Hm2) as Hm.
    assert (Hk : ∀ id, known id w1 = known id w) by (intros id; unfold known; by rewrite (moves_addresses _ _ _ Hm1)).
    assert (Hlen : length (filter (λ id, known id w1) ordered) = length (filter (λ id, known id w) ordered)).
    { f_equal. apply list_filter_iff. intros id. by rewrite Hk. }
    rewrite Hlen in Ha2. specialize (IH ord w2). destruct (propose_loop fuel c deadline ord w2) as [[e|x] w3].
    + destruct IH as (? & IH & Hin). split; [done|]. split; [eapply client_appended_later; [apply Hm|done]|done].
    + destruct IH as [Hm3 IH]. split; [by eapply moves_trans|]. destruct IH as [(-> & [Hl1 Hl2] & _)|[-> IH]]; [left|right].
      * split; [done|]. split; [split; [pose proof (moves_accesses _ _ _ Hm); lia|done]|]. intros _. lia.
      * split; [done|]. intros m Hmk. specialize (IH m Hmk). pose proof (moves_accesses _ _ _ Hm2).
        destruct (Nat.le_gt_cases m (accesses w)) as [Hle|]; [by rewrite (Hmk _ Hle) in Hlt|]. lia.
Qed.

Lemma client_propose_spec fuel c timeout w :
  let deadline := F.add (clock (accesses w)) timeout in
  match propose fuel c timeout w with
  | (Ok e, w') => entry_command e = c ∧ appended c e w w' ∧ F.lt (clock (Datatypes.S (accesses w))) deadline = true
  | (Raise x, w') => moves c w w' ∧
      (x = no_leader ∧ read_late deadline w w' ∧
         (F.lt (clock (Datatypes.S (accesses w))) deadline = true →
            (accesses w + 2 + length (filter (λ id, known id w) (candidates w)) < accesses w')%nat) ∨
       x = OutOfFuel ∧ ∀ m, (∀ k, (m ≤ k)%nat → F.lt (clock k) deadline = false) → (fuel ≤ m)%nat)
  end.
Proof.
  intros deadline. unfold propose, bind at 1. destruct (monotonic_moves c w) as (Hm1 & Er & Ea).
  assert (Hc : candidates (monotonic w).2 = candidates w ∧ ∀ id, known id (monotonic w).2 = known id w) by done.
  destruct (monotonic w) as [r w1]. cbn [fst snd] in Hm1, Er, Ea, Hc. subst r. unfold bind, get. fold deadline.
  pose proof (client_propose_loop_spec fuel c deadline (candidates w1) w1) as Hl.
  destruct (propose_loop _ _ _ _ w1) as [[e|x] w2].
  - destruct Hl as (? & Hl & Hin). split; [done|]. split; [eapply client_appended_later; [apply Hm1|done]|].
    by rewrite Ea in Hin.
  - destruct Hl as [Hm2 Hl]. split; [by eapply moves_trans|].
    destruct Hl as [(-> & [Hl1 Hl2] & Hall)|[-> Hl]]; [left|right].
    + split; [done|]. split; [split; [lia|done]|]. rewrite Ea in Hall. intros Hlt. specialize (Hall Hlt).
      destruct Hc as [Hc Hk]. rewrite Hc in Hall. rewrite (list_filter_iff _ (λ id, known id w)) in Hall by (intros id; by rewrite Hk). lia.
    + split; [done|]. intros m Hk. specialize (Hl m Hk). lia.
Qed.

End client.
Arguments GrpcRaftClusterClient C S : clear implicits.
End GrpcClient.
