(* ===== verification/Stubs.v ===== *)
(** * Channels and stubs (coordinator/grpc/raft_transport.py, raft_cluster_client.py)

    Both ends of the gRPC transport open a channel to a node on first use and
    keep the stub made over it.  [GrpcRaftTransport._stub_for] is called by the
    workers of its pool, with no lock: the machine below interleaves the
    accesses of those calls.  [grpc.insecure_channel] is a parameter, and a
    stub is the channel it was made over (its methods are in GrpcStub.v). *)

From stdpp Require Import base gmap strings list.
From Stdlib Require Import ZArith Lia.
From S2P Require Import Prelude.

Module Stubs.
Section stubs.
(** What the [k]-th call of [grpc.insecure_channel] of the process returns. *)
Context {Channel : Type}.
Variable insecure_channel : nat → string → Channel.
Variable addresses : gmap string string.

Record RaftServiceStub := mkStub { channel : Channel }.

(** The two dicts of the transport, and what has become of the channels. *)
Record Cache := mkCache {
  channels : gmap string Channel;
  stubs : gmap string RaftServiceStub;
  opened : list Channel;
  closed : list Channel;
  shut : bool             (* whether the pool was shut down *)
}.

(** [__init__] *)
Definition init : Cache := mkCache ∅ ∅ [] [] false.

Abbreviation M := (Py Cache).

Definition address_of (node_id : string) : res string :=
  match addresses !! node_id with Some a => Ok a | None => Raise KeyError end.

Definition connect (address : string) : M Channel := λ c,
  let ch := insecure_channel (length (opened c)) address in
  (Ok ch, mkCache (channels c) (stubs c) (opened c ++ [ch]) (closed c) (shut c)).
Definition set_channel (node_id : string) (ch : Channel) : M unit :=
  modify (λ c, mkCache (<[node_id := ch]> (channels c)) (stubs c) (opened c) (closed c) (shut c)).
Definition set_stub (node_id : string) (s : RaftServiceStub) : M unit :=
  modify (λ c, mkCache (channels c) (<[node_id := s]> (stubs c)) (opened c) (closed c) (shut c)).

(** [GrpcRaftTransport._stub_for] *)
Definition stub_for (node_id : string) : M RaftServiceStub :=
  (cached <- get (λ c, stubs c !! node_id) ;;
   match cached with
   | Some stub => ret stub
   | None =>
       address <- lift (address_of node_id) ;;
       ch <- connect address ;;
       set_channel node_id ch ;;;
       set_stub node_id (mkStub ch) ;;;
       ret (mkStub ch)
   end)%py.

(** [GrpcRaftClusterClient._stub_for], which keeps no channel *)
Definition client_stub_for (node_id : string) : M RaftServiceStub :=
  (cached <- get (λ c, stubs c !! node_id) ;;
   match cached with
   | Some stub => ret stub
   | None =>
       address <- lift (address_of node_id) ;;
       ch <- connect address ;;
       set_stub node_id (mkStub ch) ;;;
       ret (mkStub ch)
   end)%py.

(** [executor.submit], which [GrpcRaftTransport.send] calls: after a shutdown it raises. *)
Definition submit : M unit :=
  (shutdown <- get shut ;;
   if (shutdown : bool) then raise (RuntimeError "cannot schedule new futures after shutdown") else ret tt)%py.

(** [executor.shutdown(wait=False)]: what was submitted still runs. *)
Definition shutdown : M unit :=
  modify (λ c, mkCache (channels c) (stubs c) (opened c) (closed c) true).
Definition close_channel (ch : Channel) : M unit :=
  modify (λ c, mkCache (channels c) (stubs c) (opened c) (closed c ++ [ch]) (shut c)).

(** [GrpcRaftTransport.close] *)
Definition close : M unit :=
  (shutdown ;;;
   values <- get (λ c, (map_to_list (channels c)).*2) ;;
   for_each close_channel values)%py.

(** ** The workers of the pool *)

(** Where a call of [_stub_for] is. *)
Inductive Phase :=
| Entered (node_id : string)
| Missed (node_id : string)
| Connected (node_id : string) (ch : Channel)
| Recorded (node_id : string) (ch : Channel)
| Returned (node_id : string) (stub : RaftServiceStub)
| Failed (node_id : string) (e : exn).

(** The next access of a call. *)
Definition advance (p : Phase) (c : Cache) : Phase * Cache :=
  match p with
  | Entered id => (match stubs c !! id with Some s => Returned id s | None => Missed id end, c)
  | Missed id =>
      match address_of id with
      | Ok a => (Connected id (insecure_channel (length (opened c)) a), (connect a c).2)
      | Raise e => (Failed id e, c)
      end
  | Connected id ch => (Recorded id ch, (set_channel id ch c).2)
  | Recorded id ch => (Returned id (mkStub ch), (set_stub id (mkStub ch) c).2)
  | Returned _ _ | Failed _ _ => (p, c)
  end.

Inductive Event :=
| Call (node_id : string)          (* [send] submits a task for this peer *)
| Step (k : nat)                   (* the [k]-th call so far makes its next access *)
| Shutdown                         (* [close] shuts the pool down *)
| CloseChannel (node_id : string). (* the loop of [close] comes to this entry *)

Definition exec (e : Event) (s : list Phase * Cache) : list Phase * Cache :=
  match e with
  | Call id => match submit s.2 with (Ok _, c) => (s.1 ++ [Entered id], c) | (Raise _, c) => (s.1, c) end
  | Step k =>
      match s.1 !! k with
      | Some p => let '(p', c) := advance p s.2 in (<[k := p']> s.1, c)
      | None => s
      end
  | Shutdown => (s.1, (shutdown s.2).2)
  | CloseChannel id => match channels s.2 !! id with Some ch => (s.1, (close_channel ch s.2).2) | None => s end
  end.
Definition run (es : list Event) (s : list Phase * Cache) : list Phase * Cache := foldl (λ s e, exec e s) s es.

(** Four accesses are a call: alone, a worker does [stub_for]. *)
Definition four (c : Cache) (id : string) : Phase * Cache :=
  Nat.iter 4 (λ s, advance s.1 s.2) (Entered id, c).

Lemma advance_four id c :
  four c id = match stub_for id c with (Ok s, c') => (Returned id s, c') | (Raise e, c') => (Failed id e, c') end.
Proof.
  unfold four, stub_for, bind, get, lift. cbn. destruct (stubs c !! id) as [s|]; [done|]. cbn.
  by destruct (address_of id).
Qed.

(** ** Channels go where they should *)

(** [ch] was opened, to the address of the node. *)
Definition leads_to (c : Cache) (node_id : string) (ch : Channel) : Prop :=
  ∃ k a, addresses !! node_id = Some a ∧ opened c !! k = Some ch ∧ ch = insecure_channel k a.

Definition phase_ok (c : Cache) (p : Phase) : Prop :=
  match p with
  | Connected id ch | Recorded id ch | Returned id (mkStub ch) => leads_to c id ch
  | Failed id e => e = KeyError ∧ addresses !! id = None
  | _ => True
  end.

Record Routed (s : list Phase * Cache) : Prop := {
  routed_stubs id st : stubs s.2 !! id = Some st → leads_to s.2 id (channel st);
  routed_phases p : p ∈ s.1 → phase_ok s.2 p
}.

Lemma leads_to_more c c' id ch : opened c `prefix_of` opened c' → leads_to c id ch → leads_to c' id ch.
Proof. intros Hp (k & a & Ha & Ho & ->). exists k, a. split_and!; [done| |done]. by eapply prefix_lookup_Some. Qed.

Lemma phase_ok_more c c' p : opened c `prefix_of` opened c' → phase_ok c p → phase_ok c' p.
Proof. intros Hp. destruct p as [| |id ch|id ch|id [ch]|id e]; simpl; try done; by apply leads_to_more. Qed.

Lemma address_of_ok id a : address_of id = Ok a → addresses !! id = Some a.
Proof. unfold address_of. case_match; [by intros [= ->]|done]. Qed.

(** One access, by a call that is where it should be. *)
Lemma advance_ok p c : phase_ok c p → (∀ id st, stubs c !! id = Some st → leads_to c id (channel st)) →
  let '(p', c') := advance p c in
  opened c `prefix_of` opened c' ∧ phase_ok c' p' ∧ (∀ id st, stubs c' !! id = Some st → leads_to c' id (channel st)).
Proof.
  intros Hp Hs. destruct p as [id|id|id ch|id ch|id st|id e]; simpl.
  - split_and!; [done| |done]. destruct (stubs c !! id) as [[ch]|] eqn:E; [|done]. by apply Hs in E.
  - destruct (address_of id) as [a|e] eqn:E; simpl.
    + assert (Hpre : opened c `prefix_of` opened c ++ [insecure_channel (length (opened c)) a]) by by apply prefix_app_r.
      split_and!; [done| |].
      * exists (length (opened c)), a. split_and!; [by apply address_of_ok| |done]. simpl. by rewrite list_lookup_middle.
      * intros i st Hi. eapply leads_to_more; [|by apply Hs]. done.
    + split; [done|]. split; [|done]. revert E. unfold address_of. by case_match; intros [= <-].
  - split_and!; [done|exact Hp|exact Hs].
  - split_and!; [done|exact Hp|]. intros i st. destruct (decide (i = id)) as [->|].
    + rewrite lookup_insert_eq. intros [= <-]. exact Hp.
    + rewrite lookup_insert_ne by done. apply Hs.
  - by split_and!.
  - split; [done|]. by split.
Qed.

Lemma exec_routed e s : Routed s → Routed (exec e s).
Proof.
  intros [Hs Hp]. destruct e as [id|k| |id]; simpl;
    [|
     |split; [exact Hs|intros p Hin; eapply phase_ok_more; [|by apply Hp]; done]
     |destruct (channels s.2 !! id); [|by split];
      split; [exact Hs|intros p Hin; eapply phase_ok_more; [|by apply Hp]; done]].
  { unfold submit, bind, get, raise, ret. destruct (shut s.2); [by split|].
    split; [done|]. intros p [Hin|Hin%list_elem_of_singleton]%elem_of_app; [by apply Hp|]. by rewrite Hin. }
  destruct (s.1 !! k) as [p|] eqn:Ek; [|by split].
  pose proof (advance_ok p s.2 (Hp p (list_elem_of_lookup_2 _ _ _ Ek)) Hs) as Ha.
  destruct (advance p s.2) as [p' c']. destruct Ha as (Hpre & Hp' & Hs').
  split; [exact Hs'|]. intros q [j Hj]%list_elem_of_lookup_1. simpl in *.
  destruct (decide (j = k)) as [->|].
  - rewrite list_lookup_insert_eq in Hj by (by eapply lookup_lt_Some). by injection Hj as <-.
  - rewrite list_lookup_insert_ne in Hj by done. eapply phase_ok_more; [done|]. apply Hp. by eapply list_elem_of_lookup_2.
Qed.

Lemma run_routed es : ∀ s, Routed s → Routed (run es s).
Proof. induction es as [|e es IH]; intros s Hs; [done|]. by apply IH, exec_routed. Qed.

(** Once the pool is shut down no call begins. *)
Lemma advance_shut p c : shut (advance p c).2 = shut c.
Proof. destruct p; simpl; try done. by case_match. Qed.
Lemma exec_shut e s : shut s.2 = true → shut (exec e s).2 = true ∧ length (exec e s).1 = length s.1.
Proof.
  intros H. destruct e as [id|k| |id]; simpl; [| |done|].
  - unfold submit, bind, get, raise. by rewrite H.
  - destruct (s.1 !! k) as [p|]; [|done]. pose proof (advance_shut p s.2) as Ha. destruct (advance p s.2) as [p' c].
    simpl in *. by rewrite Ha, length_insert.
  - by destruct (channels s.2 !! id).
Qed.
Lemma run_shut es : ∀ s, shut s.2 = true → shut (run es s).2 = true ∧ length (run es s).1 = length s.1.
Proof.
  induction es as [|e es IH]; intros s H; [done|]. destruct (exec_shut e s H) as [H1 H2].
  destruct (IH _ H1) as [H3 H4]. split; [exact H3|]. simpl in *. by rewrite <- H2.
Qed.

(** The loop of [close]. *)
Lemma close_channels chs : ∀ c, for_each close_channel chs c = (Ok tt, mkCache (channels c) (stubs c) (opened c) (closed c ++ chs) (shut c)).
Proof.
  induction chs as [|ch chs IH]; intros c; simpl; [destruct c; by rewrite app_nil_r|].
  unfold bind at 1. simpl. rewrite IH. simpl. by rewrite <- app_assoc.
Qed.
Lemma close_eq c : close c = (Ok tt, mkCache (channels c) (stubs c) (opened c) (closed c ++ (map_to_list (channels c)).*2) true).
Proof. unfold close, bind, shutdown, modify, get. cbn [channels]. rewrite close_channels. done. Qed.

Lemma init_routed : Routed ([], init).
Proof. split; [done|]. intros p Hp. by apply not_elem_of_nil in Hp. Qed.

(** ** One call at a time *)

(** Every channel that was opened is in the dict, one for each stub. *)
Record Tidy (c : Cache) : Prop := {
  tidy_stubs id : stubs c !! id = mkStub <$> channels c !! id;
  tidy_opened ch : ch ∈ opened c → ∃ id, channels c !! id = Some ch;
  tidy_count : length (opened c) = size (channels c);
  tidy_closed : closed c = [];
  tidy_shut : shut c = false
}.

Lemma init_tidy : Tidy init.
Proof. split; simpl; [intros id; by rewrite !lookup_empty|intros ch Hc; by apply not_elem_of_nil in Hc|done|done|done]. Qed.

Lemma stub_for_tidy id c : Tidy c → Tidy (stub_for id c).2.
Proof.
  intros [Hs Ho Hn Hc Hd]. unfold stub_for, bind, get, lift. destruct (stubs c !! id) as [s|] eqn:E; [by split|].
  destruct (address_of id) as [a|e]; [|by split].
  assert (En : channels c !! id = None) by (rewrite Hs in E; by apply fmap_None in E).
  split; simpl; [| | |done|done].
  - intros i. destruct (decide (i = id)) as [->|]; [by rewrite !lookup_insert_eq|by rewrite !lookup_insert_ne].
  - intros ch [Hin|Hin%list_elem_of_singleton]%elem_of_app.
    + destruct (Ho ch Hin) as [i Hi]. exists i. rewrite lookup_insert_ne; [done|congruence].
    + subst ch. exists id. by rewrite lookup_insert_eq.
  - rewrite length_app, map_size_insert_None by done. simpl. lia.
Qed.

Definition calls (ids : list string) (c : Cache) : Cache := foldl (λ c id, (stub_for id c).2) c ids.

Lemma calls_tidy ids : ∀ c, Tidy c → Tidy (calls ids c).
Proof. induction ids as [|id ids IH]; intros c Hc; [done|]. by apply IH, stub_for_tidy. Qed.

Lemma close_closes c ch id : channels c !! id = Some ch → ch ∈ closed (close c).2.
Proof.
  intros H. rewrite close_eq. apply elem_of_app. right. apply list_elem_of_fmap. exists (id, ch). split; [done|].
  by apply elem_of_map_to_list.
Qed.

(** C29 (channels): the stub of a peer is over a channel opened to that
    peer's address, in every interleaving of the pool's calls of [_stub_for],
    and such a call fails with [KeyError] exactly for a peer that has no
    address; a call on its own is four of those accesses.  When the calls do
    not overlap, there is one channel for each peer that was asked for, and
    [close] closes every channel that was opened.  [close] shuts the pool
    down: from then on a [send] of a request raises [RuntimeError] and no call
    begins, whatever the calls under way do. *)
Theorem channels_reach_peers :
  (∀ es k id st, (run es ([], init)).1 !! k = Some (Returned id st) →
     ∃ n a, addresses !! id = Some a ∧ channel st = insecure_channel n a ∧ channel st ∈ opened (run es ([], init)).2) ∧
  (∀ es k id e, (run es ([], init)).1 !! k = Some (Failed id e) → e = KeyError ∧ addresses !! id = None) ∧
  (∀ c id, four c id = match stub_for id c with (Ok s, c') => (Returned id s, c') | (Raise e, c') => (Failed id e, c') end) ∧
  (∀ ids, let c := calls ids init in
     length (opened c) = size (channels c) ∧ ∀ ch, ch ∈ opened c → ch ∈ closed (close c).2) ∧
  (∀ c phases es, let s := run es (phases, (close c).2) in
     length s.1 = length phases ∧
     (submit s.2).1 = Raise (RuntimeError "cannot schedule new futures after shutdown")).
Proof.
  split_and!.
  - intros es k id [ch] Hk. destruct (run_routed es _ init_routed) as [_ Hp].
    destruct (Hp _ (list_elem_of_lookup_2 _ _ _ Hk)) as (n & a & Ha & Ho & Hch). exists n, a. split_and!; [done|done|].
    by eapply list_elem_of_lookup_2.
  - intros es k id e Hk. destruct (run_routed es _ init_routed) as [_ Hp]. exact (Hp _ (list_elem_of_lookup_2 _ _ _ Hk)).
  - intros c id. apply advance_four.
  - intros ids c. destruct (calls_tidy ids init init_tidy) as [_ Ho Hn _ _]. split; [done|].
    intros ch [id Hid]%Ho. by eapply close_closes.
  - intros c phases es s. destruct (run_shut es (phases, (close c).2)) as [H1 H2]; [by rewrite close_eq|].
    split; [exact H2|]. unfold submit, bind, get. fold s in H1. by rewrite H1.
Qed.
End stubs.

(** ** Overlapping calls

    Two workers with a task for the same peer both miss in [_stubs], and both
    open a channel; the second entry in [_channels] replaces the first, whose
    channel [close] does not close. *)
Definition racing : list Event := [Call "b"; Call "b"; Step 0; Step 1] ++ [Step 0; Step 0; Step 0] ++ [Step 1; Step 1; Step 1].

Lemma racing_calls_leak :
  let c := (run pair {["b" := "b:50051"]} racing ([], init)).2 in
  opened c = [(0, "b:50051"); (1, "b:50051")] ∧ closed (close c).2 = [(1, "b:50051")].
Proof. vm_compute. done. Qed.

Lemma channels_reach_peers_witness :
  let s := run pair {["b" := "b:50051"]} racing ([], init) in
  s.1 !! 1 = Some (Returned "b" (mkStub (1, "b:50051"))) ∧
  ∃ n a, ({["b" := "b:50051"]} : gmap string string) !! "b" = Some a ∧ (1, "b:50051") = (n, a) ∧ (1, "b:50051") ∈ opened s.2.
Proof.
  intros s. assert (H : s.1 !! 1 = Some (Returned "b" (mkStub (1, "b:50051")))) by (vm_compute; reflexivity).
  split; [exact H|]. exact (proj1 (channels_reach_peers pair {["b" := "b:50051"]}) racing 1 "b" _ H).
Defined.
End Stubs.
