(* ===== verification/GrpcDemo.v ===== *)
(** * A concrete gRPC system

    The libraries instantiated by executable definitions, and runs of three
    nodes that replicate the ledger; the witnesses of GrpcProps.v evaluate on
    them. *)

From stdpp Require Import base gmap strings list.
From Stdlib Require Import ZArith.
From S2P Require Import Prelude PyDecimal PyFloat Models StateMachine Ledger.
From S2P Require Import RaftTypes Storage Transport RaftNode Serialization GrpcStub Grpc GrpcRefine Demo.

Local Open Scope Z_scope.

Module GrpcDemo.

Abbreviation C := LedgerEntry.
Abbreviation S := Ledger.LedgerStateMachine.

(** Blobs that remember what was serialized. *)
Inductive Blob :=
| BCommand (c : C)
| BRequestVoteArgs (m : Pb.RequestVoteArgs)
| BRequestVoteReply (m : Pb.RequestVoteReply)
| BPreVoteArgs (m : Pb.PreVoteArgs)
| BPreVoteReply (m : Pb.PreVoteReply)
| BAppendEntriesArgs (m : Pb.AppendEntriesArgs Blob)
| BAppendEntriesReply (m : Pb.AppendEntriesReply)
| BProposeRequest (m : Pb.ProposeRequest Blob)
| BProposeReply (m : Pb.ProposeReply).

#[global] Instance protobuf : Protobuf.
Proof.
  refine {| int64 z := if decide (in_int64 z) then Ok z else Raise (ValueError "Value out of range") |};
    intros z Hz; [by rewrite decide_True|by rewrite decide_False].
Defined.

#[global] Instance pickle : Pickle C Blob := {|
  dumps := BCommand;
  loads b := match b with BCommand c => Ok c | _ => Raise (ValueError "pickle") end;
  loads_dumps c := eq_refl
|}.

Definition not_this : exn := ValueError "Error parsing message".
#[global] Instance wire_rv : Wire Pb.RequestVoteArgs Blob := {|
  SerializeToString := BRequestVoteArgs;
  FromString b := match b with BRequestVoteArgs m => Ok m | _ => Raise not_this end;
  FromString_Serialize m := eq_refl
|}.
#[global] Instance wire_rvr : Wire Pb.RequestVoteReply Blob := {|
  SerializeToString := BRequestVoteReply;
  FromString b := match b with BRequestVoteReply m => Ok m | _ => Raise not_this end;
  FromString_Serialize m := eq_refl
|}.
#[global] Instance wire_pv : Wire Pb.PreVoteArgs Blob := {|
  SerializeToString := BPreVoteArgs;
  FromString b := match b with BPreVoteArgs m => Ok m | _ => Raise not_this end;
  FromString_Serialize m := eq_refl
|}.
#[global] Instance wire_pvr : Wire Pb.PreVoteReply Blob := {|
  SerializeToString := BPreVoteReply;
  FromString b := match b with BPreVoteReply m => Ok m | _ => Raise not_this end;
  FromString_Serialize m := eq_refl
|}.
#[global] Instance wire_ae : Wire (Pb.AppendEntriesArgs Blob) Blob := {|
  SerializeToString := BAppendEntriesArgs;
  FromString b := match b with BAppendEntriesArgs m => Ok m | _ => Raise not_this end;
  FromString_Serialize m := eq_refl
|}.
#[global] Instance wire_aer : Wire Pb.AppendEntriesReply Blob := {|
  SerializeToString := BAppendEntriesReply;
  FromString b := match b with BAppendEntriesReply m => Ok m | _ => Raise not_this end;
  FromString_Serialize m := eq_refl
|}.
#[global] Instance wire_pq : Wire (Pb.ProposeRequest Blob) Blob := {|
  SerializeToString := BProposeRequest;
  FromString b := match b with BProposeRequest m => Ok m | _ => Raise not_this end;
  FromString_Serialize m := eq_refl
|}.
#[global] Instance wire_pp : Wire Pb.ProposeReply Blob := {|
  SerializeToString := BProposeReply;
  FromString b := match b with BProposeReply m => Ok m | _ => Raise not_this end;
  FromString_Serialize m := eq_refl
|}.

(** The first handler whose path is the path of the request. *)
Fixpoint route {W B} (service : string) (handlers : Handlers W B) (path : string) (request : B) : Py W B :=
  match handlers with
  | [] => raise RpcError
  | (name, h) :: handlers =>
      if decide (path = "/" +:+ service +:+ "/" +:+ name) then invoke h request else route service handlers path request
  end.

Lemma app_inj (s a b : string) : s +:+ a = s +:+ b → a = b.
Proof. induction s as [|c s IH]; [done|]. simpl. intros [= E]. by apply IH. Qed.

#[global] Program Instance server W : Server W Blob := { generic_handler := route }.
Next Obligation.
  intros W service handlers name h request. induction handlers as [|[n h'] l IH]; [done|].
  cbn [handler_of route]. destruct (decide (n = name)) as [->|Hn].
  - intros [= ->]. by rewrite decide_True.
  - intros Hl. rewrite decide_False; [by apply IH|]. intros E. apply Hn. symmetry.
    by apply (app_inj "/"), (app_inj service), (app_inj "/") in E.
Qed.

Definition ids : list string := ["a"; "b"; "c"].
Definition address (id : string) : string := id +:+ ":50051".
Definition peer_addresses (id : string) : list (string * string) :=
  (λ p, (p, address p)) <$> filter (λ p, p ≠ id) ids.
Definition resolve (a : string) : option string := snd <$> List.find (λ p, bool_decide (p.1 = a)) ((λ id, (address id, id)) <$> ids).

Abbreviation start := (Grpc.init (C := C) (S := S) Demo.tmin Demo.tmax Demo.hb peer_addresses ids (Ledger.init ∅)).
Abbreviation Event := (Grpc.Event S Blob * (nat → float → float → float))%type.
Abbreviation run evs := (Grpc.run (C := C) (S := S) (B := Blob) Demo.tmin Demo.tmax Demo.hb peer_addresses resolve evs start).

Definition ev (e : Grpc.Event S Blob) : Event := (e, Demo.low).
(** A task of [id] whose reply comes back at once. *)
Definition exchange (id : string) (k : nat) (t : Z) : list Event :=
  [ev (Grpc.CallPeer id k Delivered (F.of_Z t)); ev (Grpc.Inject 0 (F.of_Z t))].
Definition propose (id : string) (c : C) (t : Z) : Event :=
  ev (Grpc.ClientPropose id Delivered (Pb.mkProposeRequest (BCommand c)) (F.of_Z t)).

Definition boot : list Event := (λ id, ev (Grpc.Start id F.zero)) <$> ids.
Definition elect : list Event := boot ++ [ev (Grpc.Turn "a" (F.of_Z 150))] ++ exchange "a" 0 151 ++ exchange "a" 1 152.

Definition node (id : string) (sys : Grpc.System C S) : Raft.World C S (Grpc.GrpcRaftTransport C) :=
  default (Grpc.GrpcRaftNode Demo.tmin Demo.tmax Demo.hb peer_addresses id Storage.init (Ledger.init ∅)) (Grpc.nodes sys !! id).

(** [a] commits a credit with [b]; nothing it sends to [c] arrives. *)
Definition commit : list Event := [propose "a" Demo.credit 160] ++ exchange "a" 4 161.
(** The container of [b] starts again, and [c] is elected by it and commits
    another entry with it. *)
Definition amnesia : list Event :=
  [ev (Grpc.NewContainer "b" (Ledger.init ∅)); ev (Grpc.Start "b" (F.of_Z 300)); ev (Grpc.Turn "c" (F.of_Z 400))]
  ++ exchange "c" 1 401 ++ exchange "c" 2 402 ++ [propose "c" Demo.debit 410] ++ exchange "c" 5 411.
End GrpcDemo.
