(* ===== verification/GrpcProps.v ===== *)
(** * Raft over gRPC: the theorems

    The messages keep their meaning on the wire, a call through the stub is a
    call of the service, the consensus guarantees hold of nodes that run over
    gRPC, and what happens when a container starts again without its storage. *)

From stdpp Require Import base gmap strings list relations fin_sets.
From Stdlib Require Import ZArith Lia.
From S2P Require Import Prelude PyDecimal PyFloat Models StateMachine Ledger.
From S2P Require Import RaftTypes Storage Transport RaftNode RaftSpec RaftInv RaftAppend RaftRefine RaftHistory.
From S2P Require Import Serialization GrpcStub Grpc GrpcRefine GrpcClient Demo GrpcDemo.

Local Open Scope Z_scope.

(** C30 (round trip of the messages): each of the seven conversions to a proto
    message succeeds exactly when every integer field fits in an [int64], and
    then the conversion back gives the message again; when a field does not
    fit it raises [ValueError], whatever the other fields are. *)
Theorem messages_round_trip {C B : Type} `{Hpb : Protobuf} `{Hpk : !Pickle C B} :
  Serialization.Codec (Serialization.log_entry_to_proto (C := C) (B := B)) Serialization.log_entry_from_proto Serialization.entry_fits ∧
  Serialization.Codec Serialization.request_vote_args_to_proto (λ p, Ok (Serialization.request_vote_args_from_proto p)) Serialization.rv_fits ∧
  Serialization.Codec Serialization.request_vote_reply_to_proto (λ p, Ok (Serialization.request_vote_reply_from_proto p)) Serialization.rvr_fits ∧
  Serialization.Codec Serialization.prevote_args_to_proto (λ p, Ok (Serialization.prevote_args_from_proto p)) Serialization.pv_fits ∧
  Serialization.Codec Serialization.prevote_reply_to_proto (λ p, Ok (Serialization.prevote_reply_from_proto p)) Serialization.pvr_fits ∧
  Serialization.Codec (Serialization.append_entries_args_to_proto (C := C) (B := B)) Serialization.append_entries_args_from_proto Serialization.ae_fits ∧
  Serialization.Codec Serialization.append_entries_reply_to_proto (λ p, Ok (Serialization.append_entries_reply_from_proto p)) Serialization.aer_fits.
Proof.
  split_and!; [apply Serialization.entry_codec|apply Serialization.request_vote_args_codec
    |apply Serialization.request_vote_reply_codec|apply Serialization.prevote_args_codec
    |apply Serialization.prevote_reply_codec|apply Serialization.append_entries_args_codec
    |apply Serialization.append_entries_reply_codec].
Qed.

(** The conversions with the libraries of GrpcDemo.v. *)
Lemma messages_round_trip_witness :
  let args := mkAppendEntriesArgs 3 "a" 1 1 [mkEntry 3 2 Demo.credit] 1 in
  (∃ p, Serialization.append_entries_args_to_proto (B := GrpcDemo.Blob) args = Ok p ∧
        Serialization.append_entries_args_from_proto p = Ok args) ∧
  Serialization.request_vote_reply_to_proto (mkRequestVoteReply (2 ^ 63) true "a") = Raise (ValueError "Value out of range").
Proof.
  destruct (messages_round_trip (C := LedgerEntry) (B := GrpcDemo.Blob)) as (_ & _ & Hr & _ & _ & Ha & _). split.
  - apply (Serialization.codec_fits _ _ _ Ha). by apply (bool_decide_unpack _); vm_compute.
  - apply (Serialization.codec_refuses _ _ _ Hr). by apply (bool_decide_unpack _); vm_compute.
Defined.

(** A stub call is a call of the service: over a link to a server with
    the service registered, each of the four stub methods has the effect of the
    method of the same name of the servicer: all of it, with its result, when
    request and response arrive; all of it but with [RpcError] when the response
    is lost; none of it when the request is lost; and whatever the servicer
    raises is an [RpcError] at the caller. *)
Theorem stub_is_servicer {W B : Type} `{!Wire Pb.RequestVoteArgs B, !Wire Pb.RequestVoteReply B}
    `{!Wire Pb.PreVoteArgs B, !Wire Pb.PreVoteReply B} `{!Wire (Pb.AppendEntriesArgs B) B, !Wire Pb.AppendEntriesReply B}
    `{!Wire (Pb.ProposeRequest B) B, !Wire Pb.ProposeReply B} `{!Server W B}
    fate (servicer : RaftService.RaftServiceServicer W B) (w : W) :
  let stub := RaftService.Stub (link fate (RaftService.add_RaftServiceServicer_to_server servicer)) in
  (∀ q, RaftService.RequestVote stub q w = RaftService.through fate (RaftService.s_RequestVote servicer q) w) ∧
  (∀ q, RaftService.PreVote stub q w = RaftService.through fate (RaftService.s_PreVote servicer q) w) ∧
  (∀ q, RaftService.AppendEntries stub q w = RaftService.through fate (RaftService.s_AppendEntries servicer q) w) ∧
  (∀ q, RaftService.Propose stub q w = RaftService.through fate (RaftService.s_Propose servicer q) w).
Proof. apply RaftService.stub_calls. Qed.

Section safety.
Context {C S B : Type} {Hsm : StateMachine C S}.
Context {Hpb : Protobuf} {Hpickle : Pickle C B}.
Context {Wrv : Wire Pb.RequestVoteArgs B} {Wrvr : Wire Pb.RequestVoteReply B}.
Context {Wpv : Wire Pb.PreVoteArgs B} {Wpvr : Wire Pb.PreVoteReply B}.
Context {Wae : Wire (Pb.AppendEntriesArgs B) B} {Waer : Wire Pb.AppendEntriesReply B}.
Context {Wpq : Wire (Pb.ProposeRequest B) B} {Wpp : Wire Pb.ProposeReply B}.
Context {Hsrv : Server (Raft.World C S (Grpc.GrpcRaftTransport C)) B}.
Variables tmin tmax hb : float.
Variable peer_addresses : string → list (string * string).
Variable resolve : string → option string.
Variable ids : list string.
Variable sm0 : S.
Hypothesis Hdep : GrpcRefine.deployed peer_addresses resolve ids.

Abbreviation members := (list_to_set ids : gset string).
Abbreviation start := (Grpc.init tmin tmax hb peer_addresses ids sm0).
Abbreviation run evs := (Grpc.run (B := B) tmin tmax hb peer_addresses resolve evs start).
Abbreviation refines := (GrpcRefine.refines peer_addresses ids sm0).
Abbreviation term_of w := (Storage.current_term (Raft.storage w)).
Abbreviation log_of w := (Storage.entries (Raft.storage w)).
Abbreviation commit_of w := (Raft.commit_index (Raft.node w)).

(** Two points of a run. *)
Lemma grpc_two_points allowed evs evs' :
  Forall (λ ev, GrpcRefine.event_ok allowed ev.1) (evs ++ evs') →
  ∃ G G', refines allowed (run evs) G ∧ refines allowed (run (evs ++ evs')) G' ∧
    Inv.inv members G ∧ Inv.inv members G' ∧ rtc (Spec.cstep members allowed) G G'.
Proof.
  intros [He He']%Forall_app.
  destruct (GrpcRefine.grpc_run_refines tmin tmax hb peer_addresses resolve ids sm0 Hdep allowed evs start Spec.initial) as (G & Hf & _);
    [by apply (GrpcRefine.grpc_init_refines tmin tmax hb peer_addresses resolve ids sm0 Hdep)|done|].
  destruct (GrpcRefine.grpc_run_refines tmin tmax hb peer_addresses resolve ids sm0 Hdep allowed evs' _ G Hf He') as (G' & Hf' & Hs).
  exists G, G'. unfold Grpc.run. rewrite foldl_app. split; [done|]. split; [exact Hf'|].
  split; [|split; [|done]]; eapply Append.inv_reachable, GrpcRefine.g_reachable; done.
Qed.

Lemma grpc_leader allowed sys G id w :
  refines allowed sys G → Inv.inv members G → Grpc.nodes sys !! id = Some w →
  Raft.state (Raft.node w) = LEADER → Spec.leader G (term_of w) = Some id.
Proof.
  intros Hf HI Hw Hl. destruct (GrpcRefine.g_node _ _ _ _ _ _ Hf _ _ Hw) as (_ & HR & _).
  destruct (Refine.r_node _ _ _ _ _ HR) as (h & Hv & _).
  destruct (Inv.no_leader _ _ _ (Inv.i_node _ _ HI id)) as (HL & _); [rewrite Hv; exact Hl|]. by rewrite Hv in HL.
Qed.

Lemma grpc_committed allowed sys G id w :
  refines allowed sys G → Inv.inv members G → Grpc.nodes sys !! id = Some w →
  Spec.committed_prefix members G (term_of w) (commit_of w) (log_of w).
Proof.
  intros Hf HI Hw. destruct (GrpcRefine.g_node _ _ _ _ _ _ Hf _ _ Hw) as (_ & HR & _).
  destruct (Refine.r_node _ _ _ _ _ HR) as (h & Hv & _).
  pose proof (Inv.no_commit _ _ _ (Inv.i_node _ _ HI id)) as [_ Hc]. rewrite Hv in Hc. exact Hc.
Qed.

(** C26 (consensus over gRPC): in every run of nodes that reach each other at
    their addresses and keep their storage, with any loss of requests and of
    responses, any delay of the pool's threads and any turn of the drivers, two
    leaders of one term, at two points of the run, are one node, and what two
    nodes know to be committed agrees. *)
Theorem grpc_safety evs evs' id1 id2 w1 w2 :
  Forall (λ ev, GrpcRefine.event_ok (C := C) (λ _, True) ev.1) (evs ++ evs') →
  Grpc.nodes (run evs) !! id1 = Some w1 → Grpc.nodes (run (evs ++ evs')) !! id2 = Some w2 →
  (Raft.state (Raft.node w1) = LEADER → Raft.state (Raft.node w2) = LEADER → term_of w1 = term_of w2 → id1 = id2) ∧
  ∀ k, k ≤ commit_of w1 → k ≤ commit_of w2 → pfx k (log_of w1) = pfx k (log_of w2).
Proof.
  intros He H1 H2. destruct (grpc_two_points (λ _, True) evs evs' He) as (G & G' & Hf & Hf' & HI & HI' & Hs). split.
  - intros Hl1 Hl2 Ht. pose proof (grpc_leader _ _ _ _ _ Hf HI H1 Hl1) as HL1.
    pose proof (grpc_leader _ _ _ _ _ Hf' HI' H2 Hl2) as HL2.
    apply (History.cstep_leader _ _ _ _ _ _ HI Hs) in HL1. rewrite Ht in HL1. congruence.
  - intros k. apply (History.committed_prefix_agree members G' (term_of w1) _ _ (term_of w2)); [done| |].
    + apply (History.cstep_committed_prefix members (λ _, True) G G'); [done|done|]. by eapply grpc_committed.
    + by eapply grpc_committed.
Qed.
End safety.

(** ** Concrete runs *)

Lemma demo_deployed : GrpcRefine.deployed GrpcDemo.peer_addresses GrpcDemo.resolve GrpcDemo.ids.
Proof.
  assert (Hall : ∀ (P : string → Prop), P "a" → P "b" → P "c" → ∀ id, id ∈ GrpcDemo.ids → P id).
  { intros P Ha Hb Hc id. unfold GrpcDemo.ids. rewrite !elem_of_cons. intros [->|[->|[->|[]%not_elem_of_nil]]]; done. }
  split.
  - compute_done.
  - apply Hall; compute_done.
  - intros id p. revert id. apply Hall; unfold Spec.peers_of; cbn; set_solver.
  - intros id p a q. revert id.
    refine (Hall (λ id, Grpc.address_of p (GrpcDemo.peer_addresses id) = Some a → GrpcDemo.resolve a = Some q → q = p) _ _ _);
    match goal with |- context [GrpcDemo.peer_addresses ?i] =>
      let v := eval vm_compute in (GrpcDemo.peer_addresses i) in change (GrpcDemo.peer_addresses i) with v end;
    cbn [Grpc.address_of]; repeat (case_decide; [subst p; intros [= <-]; vm_compute; congruence|]); done.
Qed.

(** [a] led term 1 and committed an entry with [b]. *)
Lemma grpc_safety_witness :
  let sys := GrpcDemo.run (GrpcDemo.elect ++ GrpcDemo.commit) in
  Raft.state (Raft.node (GrpcDemo.node "a" (GrpcDemo.run GrpcDemo.elect))) = LEADER ∧
  (Raft.state (Raft.node (GrpcDemo.node "b" sys)) = LEADER →
   Storage.current_term (Raft.storage (GrpcDemo.node "a" (GrpcDemo.run GrpcDemo.elect))) =
     Storage.current_term (Raft.storage (GrpcDemo.node "b" sys)) → "a" = "b").
Proof.
  cbv zeta.
  assert (Ha : Raft.state (Raft.node (GrpcDemo.node "a" (GrpcDemo.run GrpcDemo.elect))) = LEADER) by (vm_compute; reflexivity).
  assert (H1 : Grpc.nodes (GrpcDemo.run GrpcDemo.elect) !! "a" = Some (GrpcDemo.node "a" (GrpcDemo.run GrpcDemo.elect)))
    by (vm_compute; reflexivity).
  assert (H2 : Grpc.nodes (GrpcDemo.run (GrpcDemo.elect ++ GrpcDemo.commit)) !! "b" =
    Some (GrpcDemo.node "b" (GrpcDemo.run (GrpcDemo.elect ++ GrpcDemo.commit)))) by (vm_compute; reflexivity).
  split; [exact Ha|]. intros Hl Ht.
  refine (proj1 (grpc_safety Demo.tmin Demo.tmax Demo.hb GrpcDemo.peer_addresses GrpcDemo.resolve GrpcDemo.ids (Ledger.init ∅)
    demo_deployed GrpcDemo.elect GrpcDemo.commit "a" "b" _ _ _ H1 H2) Ha Hl Ht).
  repeat first [apply Forall_nil_2 | apply Forall_cons_2; [first [exact I | intros ? ?; exact I]|]].
Defined.

(** A restarted container forgets its vote: the entry point of the
    containers builds every node over an empty [InMemoryStorage].  When the
    container of [b] starts again after [a], elected by [b] in term 1, has
    committed an entry with it, [c] is elected by [b] in the same term and
    commits a different entry at the same index: two leaders in one term, and
    two ledgers that disagree on a committed entry. *)
Theorem restarted_container_splits :
  let sys := GrpcDemo.run (GrpcDemo.elect ++ GrpcDemo.commit ++ GrpcDemo.amnesia) in
  let a := GrpcDemo.node "a" sys in
  let c := GrpcDemo.node "c" sys in
  Raft.state (Raft.node a) = LEADER ∧ Raft.state (Raft.node c) = LEADER ∧
  Storage.current_term (Raft.storage a) = 1 ∧ Storage.current_term (Raft.storage c) = 1 ∧
  Raft.commit_index (Raft.node a) = 1 ∧ Raft.commit_index (Raft.node c) = 1 ∧
  Storage.entries (Raft.storage a) = [mkEntry 1 1 Demo.credit] ∧
  Storage.entries (Raft.storage c) = [mkEntry 1 1 Demo.debit].
Proof. vm_compute. by split_and!. Qed.

(** ** The client *)

Section client.
Context {C S B : Type} {Hsm : StateMachine C S}.
Context {Hpb : Protobuf} {Hpickle : Pickle C B}.
Context {Wrv : Wire Pb.RequestVoteArgs B} {Wrvr : Wire Pb.RequestVoteReply B}.
Context {Wpv : Wire Pb.PreVoteArgs B} {Wpvr : Wire Pb.PreVoteReply B}.
Context {Wae : Wire (Pb.AppendEntriesArgs B) B} {Waer : Wire Pb.AppendEntriesReply B}.
Context {Wpq : Wire (Pb.ProposeRequest B) B} {Wpp : Wire Pb.ProposeReply B}.
Context {Hsrv : Server (Raft.World C S (Grpc.GrpcRaftTransport C)) B}.
Variables tmin tmax hb : float.
Variable peer_addresses : string → list (string * string).
Variable resolve : string → option string.
Variable others : nat → list (Grpc.Event S B * (nat → float → float → float)).
Variable clock : nat → float.
Variable fate : nat → Fate.
Variable rnd : nat → float → float → float.

Abbreviation client_propose := (GrpcClient.propose tmin tmax hb peer_addresses resolve others clock fate rnd).
Abbreviation appended := (GrpcClient.appended tmin tmax hb peer_addresses resolve others rnd).
Abbreviation moves := (GrpcClient.moves tmin tmax hb peer_addresses resolve others rnd).

(** C27 (contract of the gRPC client): whatever the nodes do and whichever
    requests and responses are lost, when the clock passes the deadline from
    its [m]-th reading on, [propose] ends within [m] passes.  If it returns an
    entry, its command is the one proposed, the last thing that happened is
    that a node in leader state appended it, at the end of its log and in its
    term, and its first test had found the deadline ahead.  If it raises,
    then [TimeoutError], and the last thing it did was to read the clock and
    find the deadline passed; unless it was so at the first test, it has made as
    many calls before as it knows candidates, or more.  The system has then gone through
    the others' events and proposals of the same command, which may have been
    accepted although the client did not hear of it. *)
Theorem client_propose_contract fuel c timeout m (w : GrpcClient.GrpcRaftClusterClient C S) :
  let deadline := F.add (clock (GrpcClient.accesses w)) timeout in
  (∀ k, (m ≤ k)%nat → F.lt (clock k) deadline = false) → (m < fuel)%nat →
  match client_propose fuel c timeout w with
  | (Ok e, w') => entry_command e = c ∧ appended c e w w' ∧ F.lt (clock (Datatypes.S (GrpcClient.accesses w))) deadline = true
  | (Raise x, w') => x = GrpcClient.no_leader ∧ moves c w w' ∧
      (GrpcClient.accesses w < GrpcClient.accesses w')%nat ∧ F.lt (clock (GrpcClient.accesses w' - 1)) deadline = false ∧
      (F.lt (clock (Datatypes.S (GrpcClient.accesses w))) deadline = true →
         (GrpcClient.accesses w + 2 + length (filter (λ id, GrpcClient.known id w) (GrpcClient.candidates w))
            < GrpcClient.accesses w')%nat)
  end.
Proof.
  intros deadline Hm Hf.
  pose proof (GrpcClient.client_propose_spec tmin tmax hb peer_addresses resolve others clock fate rnd fuel c timeout w) as Hs.
  destruct (client_propose fuel c timeout w) as [[e|x] w']; [done|].
  destruct Hs as [Hmv [(-> & [Ha Hl] & Hall)|[-> Hk]]]; [by split_and!|]. specialize (Hk m Hm). lia.
Qed.

(** A pass of the client: a pass over the candidates that ends without
    an accepted proposal has asked every known candidate once, and puts one hint
    in front of the candidates for some of the answers; no candidate is ever
    removed, so that the passes never get shorter and at most double. *)
Theorem client_pass_grows todo c ordered (w : GrpcClient.GrpcRaftClusterClient C S) ordered' w' :
  GrpcClient.try_all tmin tmax hb peer_addresses resolve others clock fate rnd todo c ordered w = (Ok (ordered', None), w') →
  GrpcClient.accesses w' = (GrpcClient.accesses w + length (filter (λ id, GrpcClient.known id w) todo))%nat ∧
  (∃ hints, ordered' = hints ++ ordered) ∧
  (length ordered ≤ length ordered' ≤ length ordered + length todo)%nat.
Proof.
  intros E. pose proof (GrpcClient.try_all_spec tmin tmax hb peer_addresses resolve others clock fate rnd todo c ordered w) as Hs.
  rewrite E in Hs. destruct Hs as (_ & Ha & hints & -> & Hl & _). split; [done|]. split; [by eexists|].
  pose proof (length_filter (λ id, GrpcClient.known id w) todo). rewrite length_app. lia.
Qed.
End client.

(** ** The client of the demo *)

Module ClientDemo.

Definition others (k : nat) : list (Grpc.Event GrpcDemo.S GrpcDemo.Blob * (nat → float → float → float)) := [].
(** [b] and [c] have heard from the leader [a]. *)
Definition led : list GrpcDemo.Event := GrpcDemo.elect ++ GrpcDemo.exchange "a" 2 153 ++ GrpcDemo.exchange "a" 2 154.
Definition addresses : list (string * string) := (λ id, (id, GrpcDemo.address id)) <$> GrpcDemo.ids.
Definition client (evs : list GrpcDemo.Event) : GrpcClient.GrpcRaftClusterClient GrpcDemo.C GrpcDemo.S :=
  GrpcClient.mkClient (GrpcDemo.run evs) addresses None 0.
Abbreviation propose resolve clock :=
  (GrpcClient.propose (B := GrpcDemo.Blob) Demo.tmin Demo.tmax Demo.hb GrpcDemo.peer_addresses resolve others clock (λ _, Delivered) Demo.low).

(** A clock that stops at 10. *)
Definition clock (k : nat) : float := F.of_Z (Z.of_nat (Nat.min k 10)).
Lemma client_clock_expires k : (3 ≤ k)%nat → F.lt (clock k) (F.add (clock 0) (F.of_Z 3)) = false.
Proof.
  intros Hk. assert (H : forallb (λ k, negb (F.lt (clock k) (F.add (clock 0) (F.of_Z 3)))) (seq 3 8) = true) by (vm_compute; reflexivity).
  rewrite forallb_forall in H. apply negb_true_iff. destruct (Nat.le_gt_cases k 10).
  - apply H. apply in_seq. lia.
  - assert (E : clock k = clock 10) by (unfold clock; by rewrite Nat.min_r by lia). rewrite E. apply H. apply in_seq. lia.
Qed.

(** [a] is gone: its calls fail after the call timeout of one second, the
    others answer at once. *)
Definition a_gone (address : string) : option string :=
  if bool_decide (address = GrpcDemo.address "a") then None else GrpcDemo.resolve address.
Definition slow_clock (k : nat) : float :=
  F.of_Z (if (k <=? 2)%nat then 0 else if (k <=? 6)%nat then 1 else if (k <=? 7)%nat then 2 else if (k <=? 8)%nat then 3 else 4).

End ClientDemo.

Lemma client_propose_contract_witness :
  match ClientDemo.propose GrpcDemo.resolve ClientDemo.clock 4 Demo.credit (F.of_Z 3) (ClientDemo.client ClientDemo.led) with
  | (Ok e, w') => entry_command e = Demo.credit ∧
      GrpcClient.appended Demo.tmin Demo.tmax Demo.hb GrpcDemo.peer_addresses GrpcDemo.resolve ClientDemo.others Demo.low
        Demo.credit e (ClientDemo.client ClientDemo.led) w'
  | (Raise _, _) => False
  end.
Proof.
  pose proof (client_propose_contract Demo.tmin Demo.tmax Demo.hb GrpcDemo.peer_addresses GrpcDemo.resolve ClientDemo.others
    ClientDemo.clock (λ _, Delivered) Demo.low 4 Demo.credit (F.of_Z 3) 3 (ClientDemo.client ClientDemo.led)
    ClientDemo.client_clock_expires ltac:(lia)) as H.
  assert (Hok : res_is_ok (ClientDemo.propose GrpcDemo.resolve ClientDemo.clock 4 Demo.credit (F.of_Z 3)
    (ClientDemo.client ClientDemo.led)).1 = true) by (vm_compute; reflexivity).
  destruct (ClientDemo.propose _ _ _ _ _ _) as [[e|x] w']; [exact (conj (proj1 H) (proj1 (proj2 H)))|discriminate Hok].
Defined.

Lemma client_pass_grows_witness :
  let pass := GrpcClient.try_all Demo.tmin Demo.tmax Demo.hb GrpcDemo.peer_addresses ClientDemo.a_gone ClientDemo.others
    ClientDemo.slow_clock (λ _, Delivered) Demo.low GrpcDemo.ids Demo.credit GrpcDemo.ids (ClientDemo.client ClientDemo.led) in
  pass.1 = Ok (["a"; "a"; "a"; "b"; "c"], None) ∧ GrpcClient.accesses pass.2 = 3%nat.
Proof.
  cbv zeta. match goal with |- (?p).1 = _ ∧ _ =>
    assert (E : p.1 = Ok (["a"; "a"; "a"; "b"; "c"], None)) by (vm_compute; reflexivity);
    split; [exact E|]; destruct p as [r w'] eqn:Ep end.
  cbn [fst snd] in E |- *. subst r.
  destruct (client_pass_grows Demo.tmin Demo.tmax Demo.hb GrpcDemo.peer_addresses ClientDemo.a_gone ClientDemo.others
    ClientDemo.slow_clock (λ _, Delivered) Demo.low _ _ _ _ _ _ Ep) as (Ha & _).
  rewrite Ha. vm_compute. reflexivity.
Defined.

(** The deadline is checked between passes only, so the hints of [b] and [c]
    for the dead [a] make the second pass call [a] three times, one call timeout
    each, and a call with a timeout of 2 gives up at 4. *)
Lemma stale_hints_overshoot :
  let run := ClientDemo.propose ClientDemo.a_gone ClientDemo.slow_clock 8 Demo.credit (F.of_Z 2) (ClientDemo.client ClientDemo.led) in
  run.1 = Raise GrpcClient.no_leader ∧ GrpcClient.accesses run.2 = 12%nat ∧ ClientDemo.slow_clock 11 = F.of_Z 4.
Proof. vm_compute. by split_and!. Qed.
