(* ===== verification/FraudRuntime.v ===== *)
(** * The fraud worker runtime (coordinator/fraud_runtime.py)

    The background thread of one worker: a heartbeat when one is due, then
    [run_once].  An exception that escapes a turn ends the thread. *)

From stdpp Require Import base gmap strings list.
From Stdlib Require Import ZArith Lia.
From S2P Require Import Prelude PyFloat Models Group Consumer Scorer Worker.

Local Open Scope Z_scope.

Module FraudRuntime.

Record FraudWorkerRuntime := mkRuntime {
  worker : Worker.FraudWorker;
  poll_interval : float;
  heartbeat_interval : float
}.

(** The clock readings of one turn of [_run]: [now], that of the heartbeat's
    call of the group, and those of the records scored. *)
Record Readings := mkReadings {
  now : float;
  group_now : float;
  record_clock : nat → datetime * datetime
}.

Section runtime.
Variable self : FraudWorkerRuntime.
Abbreviation M := Worker.M.

(** The part of a turn before [run_once]; returns the new [last_heartbeat]. *)
Definition heartbeat_if_due (t : Readings) (last_heartbeat : float) : M float :=
  if F.ge (F.sub (now t) last_heartbeat) (heartbeat_interval self)
  then (Worker.heartbeat (worker self) (group_now t) ;;; ret (now t))%py
  else ret last_heartbeat.

Definition turn (t : Readings) (last_heartbeat : float) : M float :=
  (last <- heartbeat_if_due t last_heartbeat ;;
   produced <- Worker.run_once (record_clock t) (worker self) ;;
   ret last)%py.

(** [_run] over the readings of its turns; it returns when it is stopped. *)
Fixpoint run_from (turns : list Readings) (last_heartbeat : float) : M unit :=
  match turns with
  | [] => ret tt
  | t :: turns => (last <- turn t last_heartbeat ;; run_from turns last)%py
  end.
Definition run (turns : list Readings) : M unit := run_from turns F.zero.

(** [start], up to the thread *)
Definition start (join_now : float) : M (list Z) := Worker.join (worker self) join_now.

(** A worker that is no member of its group and has a heartbeat to send ends
    there: the thread dies with the [ValueError] of the group. *)
Lemma turn_unknown t last w :
  Worker.member_id (worker self) ∉ (Group.members_ (GroupConsumer.group (Worker.consumer w))).*1 →
  F.ge (F.sub (now t) last) (heartbeat_interval self) = true →
  turn t last w = (Raise (ValueError "unknown member; call join() first"), w).
Proof.
  intros Hm Hdue. unfold turn, heartbeat_if_due. rewrite Hdue.
  unfold Worker.heartbeat, Worker.on_consumer, GroupConsumer.heartbeat, GroupConsumer.on_group, zoom, Group.heartbeat,
    bind, get, raise, Group.is_member. rewrite bool_decide_false by done. simpl.
  destruct w as [[l g] s q]. done.
Qed.

Lemma run_unknown t turns last w :
  Worker.member_id (worker self) ∉ (Group.members_ (GroupConsumer.group (Worker.consumer w))).*1 →
  F.ge (F.sub (now t) last) (heartbeat_interval self) = true →
  run_from (t :: turns) last w = (Raise (ValueError "unknown member; call join() first"), w).
Proof. intros Hm Hdue. simpl. unfold bind. by rewrite turn_unknown. Qed.

End runtime.
End FraudRuntime.
