(* ===== verification/Coordinator.v ===== *)
(** * The coordinator (coordinator/coordinator.py)

    The pipeline as one system: transactions are produced to the log, fraud
    workers score them onto the bounded output queue, and the settlement
    submitter takes them from there and proposes to the cluster.  An [Event] is
    one step of one of the threads, or a call of the coordinator.

    A thread that is told to stop ends by itself: [stop] only sets the event its
    loop tests, and waits for it no longer than two seconds.  So a stopped
    thread goes on with the turn it is in, and may make one more turn when it
    had tested the event before; and a worker that is revived while its old
    thread has not ended runs beside it, under the same member id. *)

From stdpp Require Import base gmap strings list pretty.
From Stdlib Require Import ZArith Lia.
From S2P Require Import Prelude PyFloat Models Ledger Submitter Broker Group Consumer Scorer Worker WorkerSystem FraudRuntime.

Local Open Scope Z_scope.

Module Coordinator.
Section coordinator.
Context {P : Type} `{!Proposer P}.

(** A thread runs; or it was told to stop, and makes at most one more turn; or
    it has ended, or was not started. *)
Inductive Life := Runs | Stopping | Ended.

Record Coordinator := mkCoordinator {
  pipeline : WorkerSystem.System;          (* log, group, output_queue, the workers' threads *)
  submitter : Submitter.SettlementSubmitter;
  submitter_life : Life;                   (* of its thread *)
  raft_cluster : P;
  scorer_config : option Scorer.ScorerConfig;
  fraud_runtimes : list (string * string); (* the dict, in order: the member ids, each with the key of its runtime's thread *)
  stopping : gmap string bool              (* the threads told to stop; whether one may begin another turn *)
}.

Definition submitting (c : Coordinator) : bool := match submitter_life c with Ended => false | _ => true end.

Definition with_pipeline (s : WorkerSystem.System) (c : Coordinator) : Coordinator :=
  mkCoordinator s (submitter c) (submitter_life c) (raft_cluster c) (scorer_config c) (fraud_runtimes c) (stopping c).
Definition with_stopping (st : gmap string bool) (c : Coordinator) : Coordinator :=
  mkCoordinator (pipeline c) (submitter c) (submitter_life c) (raft_cluster c) (scorer_config c) (fraud_runtimes c) st.
Definition with_life (l : Life) (c : Coordinator) : Coordinator :=
  mkCoordinator (pipeline c) (submitter c) l (raft_cluster c) (scorer_config c) (fraud_runtimes c) (stopping c).
Definition with_runtimes (rs : list (string * string)) (c : Coordinator) : Coordinator :=
  mkCoordinator (pipeline c) (submitter c) (submitter_life c) (raft_cluster c) (scorer_config c) rs (stopping c).

Definition member_ids (num_fraud_workers : nat) : list string := (λ i, "fraud-" +:+ pretty i) <$> seq 0 num_fraud_workers.

(** [__init__]; the submitter's timeout is its default. *)
Definition init (num_partitions : Z) (num_fraud_workers : nat) (fraud_session_timeout : float)
    (config : option Scorer.ScorerConfig) (propose_timeout : float) (cluster : P) : res Coordinator :=
  (log <-? Broker.init "transactions" num_partitions ;;
   group <-? Group.init "fraud-workers" num_partitions fraud_session_timeout ;;
   Ok (mkCoordinator (WorkerSystem.init log group 1000) (Submitter.init propose_timeout) Ended cluster
         config ((λ m, (m, m)) <$> member_ids num_fraud_workers) ∅))%py.

Inductive Event :=
| Start (now : float)
| Stop
| SubmitTransaction (transaction : Transaction) (now : datetime)
| WorkerStep (thread : string) (at_ : datetime * datetime)
| WorkerHeartbeat (thread : string) (now : float)
| WorkerEnds (thread : string)
| HealthCheck (now : float)
| SubmitterTurn (now : datetime)
| SubmitterEnds
| KillFraudWorker (member_id : string)
| ReviveFraudWorker (member_id : string) (now : float).

(** ** The threads of the workers *)

(** [FraudWorkerRuntime.start] of the runtime of a member: it joins the group,
    and a thread with a scorer of its own runs it. *)
Definition start_worker (config : option Scorer.ScorerConfig) (now : float) (s : WorkerSystem.System) (runtime : string * string)
  : WorkerSystem.System :=
  WorkerSystem.run
    [WorkerSystem.GroupCall (Group.Join runtime.1 now);
     WorkerSystem.Spawn runtime.2 (Worker.mkWorker runtime.1 50) (Scorer.init runtime.1 config)] s.

(** Between two calls of [run_once] a thread sends its heartbeat; the group
    refuses that of a member it has evicted, and the exception ends the
    thread. *)
Definition worker_heartbeat (thread : string) (now : float) (s : WorkerSystem.System) : WorkerSystem.System :=
  match WorkerSystem.threads s !! thread with
  | Some t =>
      match WorkerSystem.phase t with
      | Worker.Idle =>
          let c := WorkerSystem.shared s in
          match Group.heartbeat (Worker.member_id (WorkerSystem.worker t)) now (GroupConsumer.group c) with
          | (Ok _, g) =>
              WorkerSystem.mkSystem (GroupConsumer.mkWorld (GroupConsumer.log c) g) (WorkerSystem.queue s)
                (WorkerSystem.threads s) (WorkerSystem.emitted s)
          | (Raise e, _) =>
              WorkerSystem.mkSystem c (WorkerSystem.queue s)
                (<[thread := WorkerSystem.mkThread (WorkerSystem.worker t) (WorkerSystem.scorer t)
                               (Worker.Dead e) (WorkerSystem.produced t)]> (WorkerSystem.threads s))
                (WorkerSystem.emitted s)
          end
      | _ => s
      end
  | None => s
  end.

(** The thread is between two turns. *)
Definition between_turns (thread : string) (c : Coordinator) : bool :=
  match WorkerSystem.phase <$> WorkerSystem.threads (pipeline c) !! thread with Some Worker.Idle => true | _ => false end.
(** It may do the next one: it was not told to stop, or had tested the event
    before. *)
Definition may_begin (thread : string) (c : Coordinator) : bool := default true (stopping c !! thread).

Definition worker_step (thread : string) (at_ : datetime * datetime) (c : Coordinator) : Coordinator :=
  let c' := with_pipeline (WorkerSystem.exec (WorkerSystem.Step thread at_) (pipeline c)) c in
  if between_turns thread c
  then if may_begin thread c then with_stopping (alter (λ _, false) thread (stopping c)) c' else c
  else c'.

(** The test of the event finds it set. *)
Definition worker_ends (thread : string) (c : Coordinator) : Coordinator :=
  if between_turns thread c && bool_decide (is_Some (stopping c !! thread))
  then with_stopping (delete thread (stopping c)) (with_pipeline (WorkerSystem.exec (WorkerSystem.Crash thread) (pipeline c)) c)
  else c.

(** [FraudWorkerRuntime.stop] of the runtime with this thread: it sets the
    event. *)
Definition stop_worker (c : Coordinator) (thread : string) : Coordinator :=
  match WorkerSystem.threads (pipeline c) !! thread, stopping c !! thread with
  | Some _, None => with_stopping (<[thread := true]> (stopping c)) c
  | _, _ => c
  end.

(** ** The submitter's thread *)

(** One turn of the submitter's loop over the shared queue; a second one of a
    thread that was told to stop does not begin. *)
Definition submitter_turn (now : datetime) (c : Coordinator) : Coordinator :=
  if submitting c then
    let s := pipeline c in
    let q := WorkerSystem.queue s in
    let '(r, w) := Submitter.run [now] (Submitter.mkWorld (submitter c) (Queue.items q) (raft_cluster c)) in
    mkCoordinator
      (WorkerSystem.mkSystem (WorkerSystem.shared s) (Queue.mkQueue (Submitter.input_queue w) (Queue.maxsize q))
         (WorkerSystem.threads s) (WorkerSystem.emitted s))
      (Submitter.submitter w)
      (match r, submitter_life c with Ok _, Runs => Runs | _, _ => Ended end)
      (Submitter.cluster w) (scorer_config c) (fraud_runtimes c) (stopping c)
  else c.
Definition submitter_ends (c : Coordinator) : Coordinator :=
  match submitter_life c with Stopping => with_life Ended c | _ => c end.
Definition stop_submitter (c : Coordinator) : Coordinator :=
  match submitter_life c with Runs => with_life Stopping c | _ => c end.

(** ** The calls of the coordinator

    On what it runs in this process; [start] and [stop] of its own cluster are
    operations of RaftCluster.v. *)

(** The keys of [fraud_runtimes]. *)
Definition runtime_of (member_id : string) (c : Coordinator) : option string :=
  snd <$> List.find (λ r, bool_decide (r.1 = member_id)) (fraud_runtimes c).
Fixpoint put_runtime (member_id thread : string) (rs : list (string * string)) : list (string * string) :=
  match rs with
  | [] => [(member_id, thread)]
  | r :: rs => if bool_decide (r.1 = member_id) then (member_id, thread) :: rs else r :: put_runtime member_id thread rs
  end.

(** [start] is that of a coordinator that has not run: its scorers are new. *)
Definition start (now : float) (c : Coordinator) : Coordinator :=
  with_pipeline (foldl (start_worker (scorer_config c) now) (pipeline c) (fraud_runtimes c)) (with_life Runs c).

(** [FraudWorkerRuntime.stop] of every worker, then the submitter's. *)
Definition stop (c : Coordinator) : Coordinator :=
  stop_submitter (foldl stop_worker c (fraud_runtimes c).*2).

Definition submit_transaction (transaction : Transaction) (now : datetime) (c : Coordinator) : Coordinator :=
  with_pipeline (WorkerSystem.exec (WorkerSystem.Produce (partition_key transaction) transaction now) (pipeline c)) c.

(** No [leave]: the group notices by the missed heartbeats.  An id that is no
    key of [fraud_runtimes] raises [KeyError], with nothing done. *)
Definition kill_fraud_worker (member_id : string) (c : Coordinator) : Coordinator :=
  match runtime_of member_id c with Some thread => stop_worker c thread | None => c end.

(** A key that no thread has: the first of [key], [key'], [key''], ... *)
Fixpoint unused {A} (n : nat) (key : string) (m : gmap string A) : string :=
  match n with
  | O => key
  | S n => match m !! key with None => key | Some _ => unused n (key +:+ "'") m end
  end.
Definition new_thread (member_id : string) (c : Coordinator) : string :=
  unused (size (WorkerSystem.threads (pipeline c))) member_id (WorkerSystem.threads (pipeline c)).

(** [_spawn_fraud_worker]: a new runtime, with no thread yet, takes the place of
    that of the member, or is added. *)
Definition spawn_fraud_worker (member_id thread : string) (c : Coordinator) : Coordinator :=
  with_runtimes (put_runtime member_id thread (fraud_runtimes c)) c.
Definition revive_fraud_worker (member_id : string) (now : float) (c : Coordinator) : Coordinator :=
  let thread := new_thread member_id c in
  with_pipeline (start_worker (scorer_config c) now (pipeline c) (member_id, thread)) (spawn_fraud_worker member_id thread c).

(** One turn of [_health_loop]. *)
Definition health_turn (now : float) (c : Coordinator) : Coordinator :=
  with_pipeline (WorkerSystem.exec (WorkerSystem.GroupCall (Group.CheckExpired now)) (pipeline c)) c.

Definition exec (e : Event) (c : Coordinator) : Coordinator :=
  match e with
  | Start now => start now c
  | Stop => stop c
  | SubmitTransaction txn now => submit_transaction txn now c
  | WorkerStep k at_ => worker_step k at_ c
  | WorkerHeartbeat k now => if may_begin k c then with_pipeline (worker_heartbeat k now (pipeline c)) c else c
  | WorkerEnds k => worker_ends k c
  | HealthCheck now => health_turn now c
  | SubmitterTurn now => submitter_turn now c
  | SubmitterEnds => submitter_ends c
  | KillFraudWorker id => kill_fraud_worker id c
  | ReviveFraudWorker id now => revive_fraud_worker id now c
  end.

Definition run (es : list Event) (c : Coordinator) : Coordinator := foldl (λ c e, exec e c) c es.

(** [status] of the stream and the submitter: the part that reads no Raft
    node. *)
Record Status := mkStatus {
  fraud_partition_assignment : list (string * list Z);
  submitted_count : Z;
  fraud_flagged_count : Z;
  failed_transaction_ids : list string
}.
Definition status (c : Coordinator) : Status :=
  let g := GroupConsumer.group (WorkerSystem.shared (pipeline c)) in
  mkStatus ((λ m, (m, default [] (Group.assignment g !! m))) <$> (fraud_runtimes c).*1)
    (Submitter.submitted_count (submitter c)) (Submitter.fraud_flagged_count (submitter c))
    (Submitter.failed_transaction_ids (submitter c)).

(** ** What an event does to the pipeline *)

(** [c'] differs from [c] in the books kept of threads and runtimes only. *)
Record same_work (c c' : Coordinator) : Prop := {
  sw_pipeline : pipeline c' = pipeline c;
  sw_submitter : submitter c' = submitter c;
  sw_submitting : submitting c' = true → submitting c = true;
  sw_cluster : raft_cluster c' = raft_cluster c;
  sw_config : scorer_config c' = scorer_config c
}.

Lemma stop_worker_same c k : same_work c (stop_worker c k).
Proof. unfold stop_worker. by destruct (WorkerSystem.threads _ !! k), (stopping c !! k). Qed.

Lemma same_trans c1 c2 c3 : same_work c1 c2 → same_work c2 c3 → same_work c1 c3.
Proof. intros [? ? ? ? ?] [? ? ? ? ?]. split; [congruence|congruence|auto|congruence|congruence]. Qed.

Lemma stop_same c : same_work c (stop c).
Proof.
  unfold stop. eapply same_trans.
  - instantiate (1 := foldl stop_worker c (fraud_runtimes c).*2). generalize (fraud_runtimes c).*2. intros ks. revert c.
    induction ks as [|k ks IH]; intros c; [by split|]. eapply same_trans; [apply stop_worker_same|apply IH].
  - unfold stop_submitter, with_life. destruct (submitter_life _) eqn:E; split; try done. unfold submitting. by rewrite E.
Qed.

(** An event that is neither a start nor a turn of the submitter steps the
    pipeline, and leaves the rest. *)
Inductive stepped (e : Event) (c : Coordinator) : WorkerSystem.System → Prop :=
| StNone : stepped e c (pipeline c)
| StSubmit txn now : e = SubmitTransaction txn now →
    stepped e c (WorkerSystem.exec (WorkerSystem.Produce (partition_key txn) txn now) (pipeline c))
| StStep k at_ : stepped e c (WorkerSystem.exec (WorkerSystem.Step k at_) (pipeline c))
| StBeat k now : stepped e c (worker_heartbeat k now (pipeline c))
| StEnd k : stepped e c (WorkerSystem.exec (WorkerSystem.Crash k) (pipeline c))
| StGroup call : stepped e c (WorkerSystem.exec (WorkerSystem.GroupCall call) (pipeline c))
| StSpawn now r : stepped e c (start_worker (scorer_config c) now (pipeline c) r).

Lemma exec_stepped e c :
  match e with
  | Start now => True
  | SubmitterTurn now => True
  | _ => ∃ s, stepped e c s ∧ same_work (with_pipeline s c) (exec e c)
  end.
Proof.
  destruct e as [now| |txn now|k at_|k now|k|now|now| |id|id now]; [done| | | | | | |done| | |]; cbn [exec].
  - exists (pipeline c). split; [constructor|]. destruct c. apply stop_same.
  - eexists. split; [by econstructor 2|]. by split.
  - unfold worker_step. destruct (between_turns k c); [destruct (may_begin k c)|].
    + eexists. split; [by econstructor 3|]. by split.
    + exists (pipeline c). split; [constructor|]. by split.
    + eexists. split; [by econstructor 3|]. by split.
  - destruct (may_begin k c).
    + eexists. split; [by econstructor 4|]. by split.
    + exists (pipeline c). split; [constructor|]. by split.
  - unfold worker_ends. destruct (between_turns k c && _).
    + eexists. split; [by econstructor 5|]. by split.
    + exists (pipeline c). split; [constructor|]. by split.
  - eexists. split; [by econstructor 6|]. by split.
  - exists (pipeline c). split; [constructor|]. unfold submitter_ends. destruct (submitter_life c) eqn:E; split; try done.
  - exists (pipeline c). split; [constructor|]. unfold kill_fraud_worker. destruct (runtime_of id c) as [k|]; [|by split].
    destruct c. apply stop_worker_same.
  - eexists. split; [by econstructor 7|]. by split.
Qed.

Lemma length_prime k : String.length (k +:+ "'") = Datatypes.S (String.length k).
Proof. induction k as [|a k IH]; [done|]. simpl. f_equal. exact IH. Qed.

(** Reviving a worker touches no other thread: an old thread of the member that
    has not ended is still there. *)
Lemma unused_fresh {A} (m : gmap string A) n key (seen : list string) :
  NoDup seen → (∀ k, k ∈ seen → is_Some (m !! k) ∧ (String.length k < String.length key)%nat) →
  (length seen + n = size m)%nat → m !! unused n key m = None.
Proof.
  revert key seen. induction n as [|n IH]; intros key seen Hnd Hs Hlen; simpl.
  - destruct (m !! key) eqn:E; [|done]. exfalso.
    assert (Hsub : (list_to_set (key :: seen) : gset string) ⊆ dom m).
    { intros k [->|Hk]%elem_of_list_to_set%elem_of_cons; apply elem_of_dom; [by eexists|by apply Hs]. }
    apply subseteq_size in Hsub. rewrite size_dom, size_list_to_set in Hsub; [simpl in Hsub; lia|].
    constructor; [|done]. intros [_ Hlt]%Hs. lia.
  - destruct (m !! key) as [x|] eqn:E; [|done]. apply (IH (key +:+ "'") (key :: seen)).
    + constructor; [|done]. intros [_ Hlt]%Hs. lia.
    + intros k [->|Hk]%elem_of_cons; rewrite length_prime; [split; [by eexists|lia]|].
      destruct (Hs k Hk). split; [done|lia].
    + simpl. lia.
Qed.

Lemma revive_keeps_threads id now c k t : WorkerSystem.threads (pipeline c) !! k = Some t →
  WorkerSystem.threads (pipeline (revive_fraud_worker id now c)) !! k = Some t.
Proof.
  intros Hk. change (<[new_thread id c := WorkerSystem.mkThread (Worker.mkWorker id 50) (Scorer.init id (scorer_config c)) Worker.Idle []]>
    (WorkerSystem.threads (pipeline c)) !! k = Some t). rewrite lookup_insert_ne; [done|]. intros E. subst k. revert Hk.
  unfold new_thread. rewrite (unused_fresh _ _ id []); [done|constructor|by intros k ?%not_elem_of_nil|done].
Qed.

(** ** Where every scored transaction is *)

(** [taken] is what the submitter has taken off the queue, in order; it has
    handled all of it, except the item it was at when its thread ended. *)
Record accounted (c : Coordinator) (taken : list ScoredTransaction) : Prop := mkAccounted {
  acc_ok : WorkerSystem.system_ok (pipeline c);
  acc_history : WorkerSystem.history taken (pipeline c);
  acc_handled : Submitter.handled (submitter c) ≤ zlen taken ≤ Submitter.handled (submitter c) + 1;
  acc_running : submitting c = true → zlen taken = Submitter.handled (submitter c)
}.

(** What leaves the queue, the history and the submitter alone. *)
Lemma accounted_pipeline c taken s :
  WorkerSystem.system_ok s → WorkerSystem.history taken s → accounted c taken → accounted (with_pipeline s c) taken.
Proof. intros Hok Hh [_ _ H1 H2]. by split. Qed.

Lemma same_accounted c c' taken : same_work c c' → accounted c taken → accounted c' taken.
Proof. intros [E1 E2 E3 _ _] [H1 H2 H3 H4]. split; rewrite ?E1, ?E2; auto. Qed.

Lemma start_worker_ok config now s r taken :
  WorkerSystem.system_ok s ∧ WorkerSystem.history taken s →
  WorkerSystem.system_ok (start_worker config now s r) ∧ WorkerSystem.history taken (start_worker config now s r).
Proof.
  intros [Hok Hh]. split; [by apply WorkerSystem.events_ok|]. exact Hh.
Qed.

Lemma fold_ok {A} (f : WorkerSystem.System → A → WorkerSystem.System) taken l :
  (∀ s x, WorkerSystem.system_ok s ∧ WorkerSystem.history taken s →
     WorkerSystem.system_ok (f s x) ∧ WorkerSystem.history taken (f s x)) →
  ∀ s, WorkerSystem.system_ok s ∧ WorkerSystem.history taken s →
    WorkerSystem.system_ok (foldl f s l) ∧ WorkerSystem.history taken (foldl f s l).
Proof. intros Hf. induction l as [|x l IH]; intros s Hs; [done|]. apply IH. by apply Hf. Qed.

Lemma worker_heartbeat_ok id now s taken :
  WorkerSystem.system_ok s → WorkerSystem.history taken s →
  WorkerSystem.system_ok (worker_heartbeat id now s) ∧ WorkerSystem.history taken (worker_heartbeat id now s).
Proof.
  intros Hok Hh. unfold worker_heartbeat. destruct (WorkerSystem.threads s !! id) as [t|] eqn:Et; [|done].
  destruct (WorkerSystem.phase t); try done.
  pose proof (WorkerSystem.event_ok (WorkerSystem.GroupCall (Group.Heartbeat (Worker.member_id (WorkerSystem.worker t)) now)) s Hok) as Hg.
  simpl in Hg. destruct (Group.heartbeat _ now _) as [[[]|e] g]; [by split|]. split; [|done].
  destruct Hok as [Hl Hn Hc Hp Hq]. split; try done. intros id' t'. simpl.
  intros [[_ <-]|[_ Ht']]%lookup_insert_Some; [done|by eapply Hp].
Qed.

(** The submitter handles what it takes, or ends there. *)
Lemma submitter_step now q sub (cl : P) r w :
  Submitter.run [now] (Submitter.mkWorld sub q cl) = (r, w) →
  match q with
  | [] => r = Ok tt ∧ Submitter.input_queue w = [] ∧ Submitter.submitter w = sub
  | _ :: rest => Submitter.input_queue w = rest ∧
      match r with
      | Ok _ => Submitter.handled (Submitter.submitter w) = Submitter.handled sub + 1
      | Raise _ => Submitter.submitter w = sub
      end
  end.
Proof.
  simpl. unfold bind at 1, get. simpl. destruct q as [|scored rest]; [by intros [= <- <-]|].
  unfold bind, modify. simpl. set (w1 := Submitter.mkWorld sub rest cl).
  destruct (Submitter.handle scored now w1) as [[[]|e] w2] eqn:Eh; intros [= <- <-].
  - by destruct (Submitter.handle_accounts _ _ _ _ Eh) as [-> ->].
  - pose proof (Submitter.handle_raises _ _ _ _ _ Eh) as [-> ->]. done.
Qed.

Lemma submitter_accounted now c taken : accounted c taken → ∃ taken', accounted (submitter_turn now c) taken'.
Proof.
  intros Ha. unfold submitter_turn. destruct (submitting c) eqn:Es; [|by exists taken].
  destruct Ha as [Hok Hh Hb Hr]. specialize (Hr Es).
  destruct (Submitter.run [now] _) as [r w] eqn:Er. apply submitter_step in Er.
  assert (Htake : ∀ rest, (∃ x, Queue.items (WorkerSystem.queue (pipeline c)) = x :: rest) →
    WorkerSystem.system_ok (WorkerSystem.mkSystem (WorkerSystem.shared (pipeline c))
      (Queue.mkQueue rest (Queue.maxsize (WorkerSystem.queue (pipeline c)))) (WorkerSystem.threads (pipeline c))
      (WorkerSystem.emitted (pipeline c)))).
  { intros rest [x Ex]. pose proof (WorkerSystem.event_ok WorkerSystem.Take (pipeline c) Hok) as Ht. simpl in Ht.
    unfold Queue.get_one in Ht. by rewrite Ex in Ht. }
  destruct (Queue.items (WorkerSystem.queue (pipeline c))) as [|x rest] eqn:Eq.
  - destruct Er as (-> & Hq & Hs). exists taken. split; simpl.
    + rewrite Hq. destruct Hok as [? ? ? ? Hbound]. split; try done.
      revert Hbound. unfold Queue.within_bound, Queue.qsize. by rewrite Eq.
    + unfold WorkerSystem.history in *. simpl. by rewrite Hq, <- Eq.
    + by rewrite Hs.
    + by rewrite Hs.
  - destruct Er as [Hq Hs]. exists (taken ++ [x]).
    assert (Hlen : zlen (taken ++ [x]) = zlen taken + 1) by (by rewrite zlen_app).
    split; simpl.
    + rewrite Hq. by apply Htake; exists x.
    + unfold WorkerSystem.history in *. simpl. by rewrite Hq, <- app_assoc, Hh, Eq.
    + rewrite Hlen. destruct r; rewrite Hs; lia.
    + rewrite Hlen. destruct r; [|done]. intros _. rewrite Hs. lia.
Qed.

Definition no_start (e : Event) : Prop := match e with Start _ => False | _ => True end.

Lemma stepped_ok e c s taken : stepped e c s → accounted c taken →
  WorkerSystem.system_ok s ∧ WorkerSystem.history taken s.
Proof.
  intros Hs [Hok Hh _ _]. destruct Hs; try (by split; [apply WorkerSystem.event_ok|]); [done| | |].
  - by split; [apply WorkerSystem.event_ok|apply WorkerSystem.queue_history_step].
  - by apply worker_heartbeat_ok.
  - by apply start_worker_ok.
Qed.

Lemma exec_accounted e c taken : no_start e → accounted c taken → ∃ taken', accounted (exec e c) taken'.
Proof.
  intros Hns Ha. pose proof (exec_stepped e c) as He.
  destruct e; [done|..]; try (by eapply submitter_accounted);
    (destruct He as (s & Hst & Hsame); exists taken; eapply same_accounted; [exact Hsame|];
     destruct (stepped_ok _ _ _ _ Hst Ha); by apply accounted_pipeline).
Qed.

Lemma run_accounted es : ∀ c taken, Forall no_start es → accounted c taken → ∃ taken', accounted (run es c) taken'.
Proof.
  induction es as [|e es IH]; intros c taken Hns Ha; [by exists taken|]. apply Forall_cons in Hns as [He Hns].
  destruct (exec_accounted e c taken He Ha) as (taken1 & Ha1). by eapply IH.
Qed.

Lemma start_accounted num k timeout config ptimeout cl c now :
  init num k timeout config ptimeout cl = Ok c → accounted (exec (Start now) c) [].
Proof.
  unfold init. destruct (Broker.init "transactions" num) as [log|] eqn:El; [|done]. simpl.
  destruct (Group.init _ _ _) as [g|]; [|done]. intros [= <-]. simpl.
  destruct (fold_ok (start_worker config now) [] ((λ m, (m, m)) <$> member_ids k)) with (s := WorkerSystem.init log g 1000) as [H1 H2].
  - intros s x Hs. by apply start_worker_ok.
  - split; [by eapply WorkerSystem.system_init_ok|done].
  - by split.
Qed.

(** ** Where the scored transactions come from *)

Lemma fold_keeps {A} (R : WorkerSystem.System → Prop) (f : WorkerSystem.System → A → WorkerSystem.System) l :
  (∀ s x, R s → R (f s x)) → ∀ s, R s → R (foldl f s l).
Proof. intros Hf. induction l as [|x l IH]; intros s Hs; [done|]. apply IH. by apply Hf. Qed.

Lemma stepped_emitted e c s : stepped e c s → WorkerSystem.emitted (pipeline c) `prefix_of` WorkerSystem.emitted s.
Proof.
  intros Hs. destruct Hs; try reflexivity.
  - simpl. destruct (WorkerSystem.threads _ !! k) as [t|]; [|reflexivity]. unfold WorkerSystem.thread_step.
    destruct (Worker.step _ _ _ _) as [[ph out] w]. simpl. by eexists.
  - unfold worker_heartbeat. destruct (WorkerSystem.threads _ !! k) as [t|]; [|reflexivity].
    destruct (WorkerSystem.phase t); try reflexivity. by destruct (Group.heartbeat _ _ _) as [[|] g].
Qed.

Lemma exec_emitted e c : WorkerSystem.emitted (pipeline c) `prefix_of` WorkerSystem.emitted (pipeline (exec e c)).
Proof.
  pose proof (exec_stepped e c) as He.
  destruct e; try (destruct He as (s & Hst & [-> _ _ _ _]); by apply (stepped_emitted _ _ _ Hst)); cbn [exec].
  - unfold start. cbn [with_pipeline pipeline].
    apply (fold_keeps (λ s, WorkerSystem.emitted (pipeline c) `prefix_of` WorkerSystem.emitted s)); [|reflexivity]. by intros s x Hs.
  - unfold submitter_turn. destruct (submitting c); [|reflexivity]. by destruct (Submitter.run _ _) as [r w].
Qed.

Section sourced.
Variable Q : Transaction → Prop.
Definition submits (e : Event) : Prop := match e with SubmitTransaction txn _ => Q txn | _ => True end.
Abbreviation sourced s := (WorkerSystem.sourced Q s).

Lemma stepped_sourced e c s : stepped e c s →
  WorkerSystem.system_ok (pipeline c) → submits e → sourced (pipeline c) → sourced s.
Proof.
  intros Hst Hok He Hs. destruct Hst as [|txn now ->| | | | |]; [done| | | | | |]; try (by apply WorkerSystem.event_sourced).
  - unfold worker_heartbeat. destruct (WorkerSystem.threads _ !! k) as [t|]; [|done].
    destruct (WorkerSystem.phase t); try done. by destruct (Group.heartbeat _ _ _) as [[|] g]; destruct Hs.
  - by destruct Hs.
Qed.

Lemma exec_sourced e c :
  WorkerSystem.system_ok (pipeline c) → submits e → sourced (pipeline c) → sourced (pipeline (exec e c)).
Proof.
  intros Hok Hq Hs. pose proof (exec_stepped e c) as He.
  destruct e; try (destruct He as (s & Hst & [-> _ _ _ _]); by apply (stepped_sourced _ _ _ Hst)); cbn [exec].
  - unfold start. cbn [with_pipeline pipeline]. apply (fold_keeps (λ s, sourced s)); [|done]. by intros s x [H1 H2].
  - unfold submitter_turn. destruct (submitting c); [|done]. destruct (Submitter.run _ _) as [r w]. by destruct Hs.
Qed.
End sourced.

End coordinator.
Arguments Coordinator P : clear implicits.
End Coordinator.
