(* ===== verification/Background.v ===== *)
(** * The background threads of the coordinator

    The four objects whose thread has the life of Lifecycle.v, each with its
    prologue and its turn, and what the loop of one of their threads does. *)

From stdpp Require Import base gmap strings list.
From Stdlib Require Import ZArith Lia.
From S2P Require Import Prelude PyFloat Models StateMachine Storage Ledger Submitter Transport RaftNode Runtime.
From S2P Require Import PyDecimal Broker Group Consumer Scorer Worker WorkerRun FraudRuntime WorkerSystem Coordinator Lifecycle.

#[local] Open Scope Z_scope.

Module Background.

(** ** The Raft node runtime (coordinator/raft_runtime.py) *)

Section raft.
Context {C S T : Type} {Hsm : StateMachine C S} `{!Transport C T, !Delivery C S T}.

(** One reading of the clock a call, and the draws [random.uniform] answers. *)
Definition Reading : Type := float * (nat → float → float → float).

Definition node_start (b : Reading) : Py (Raft.World C S T) unit := Runtime.start b.2 b.1.
Definition node_turn (a : Reading) (_ : unit) : Py (Raft.World C S T) unit := Runtime.turn a.2 a.1.
Definition node_run : list (Lifecycle.Event Reading Reading) → Lifecycle.Runtime (Raft.World C S T) unit →
  option (Lifecycle.Runtime (Raft.World C S T) unit) := Lifecycle.run node_start node_turn tt.
End raft.

(** ** The fraud worker runtime (coordinator/fraud_runtime.py) *)

Section fraud.
Variable self : FraudRuntime.FraudWorkerRuntime.

(** [self.worker.join()] before the thread; [last_heartbeat] is the thread's
    local variable. *)
Definition fraud_start (join_now : float) : Worker.M unit := (FraudRuntime.start self join_now ;;; ret tt)%py.

(** The whole life of the object: the events of its owner and its threads *)
Definition fraud_run : list (Lifecycle.Event float FraudRuntime.Readings) → Lifecycle.Runtime Worker.World float →
  option (Lifecycle.Runtime Worker.World float) := Lifecycle.run fraud_start (FraudRuntime.turn self) F.zero.

(** *** What a turn of the worker's thread does *)

Abbreviation me := (FraudRuntime.worker self).
Abbreviation members w := (Group.members_ (GroupConsumer.group (Worker.consumer w))).

(** The world after a call of the group that changed its members. *)
Definition with_members (ms : list (string * float)) (w : Worker.World) : Worker.World :=
  Worker.mkWorld (GroupConsumer.mkWorld (GroupConsumer.log (Worker.consumer w))
    (Group.set_members ms (GroupConsumer.group (Worker.consumer w)))) (Worker.scorer w) (Worker.output_queue w).

Definition due (t : FraudRuntime.Readings) (last : float) : bool :=
  F.ge (F.sub (FraudRuntime.now t) last) (FraudRuntime.heartbeat_interval self).
Definition beat (t : FraudRuntime.Readings) (last : float) (w : Worker.World) : Worker.World :=
  if due t last then with_members (Group.put_member (Worker.member_id me) (FraudRuntime.group_now t) (members w)) w else w.

(** A live worker: it can do its work and is a member of its group. *)
Definition live (w : Worker.World) : Prop := WorkerRun.able me w ∧ Worker.member_id me ∈ (members w).*1.

Lemma with_members_able ms w : ms.*1 = (members w).*1 → live w → live (with_members ms w).
Proof.
  intros E [[Hw [Hn Hg] Hnum Hb Hq Hr] Hm]. split; [|by simpl; rewrite E].
  split; [by destruct Hw; split| |done..]. split; simpl; [by rewrite E|]. intros m. unfold Group.sorted_ids. rewrite E. apply Hg.
Qed.

Lemma heartbeat_due t last w : live w →
  FraudRuntime.heartbeat_if_due self t last w = (Ok (if due t last then FraudRuntime.now t else last), beat t last w) ∧
  live (beat t last w).
Proof.
  intros Hl. pose proof Hl as [_ Hm]. unfold FraudRuntime.heartbeat_if_due, beat. fold (due t last). destruct (due t last); [|done].
  split.
  - unfold bind, Worker.heartbeat, Worker.on_consumer, GroupConsumer.heartbeat, GroupConsumer.on_group, zoom, Group.heartbeat,
      get, modify, Group.is_member. unfold bind. rewrite bool_decide_true by done. done.
  - apply with_members_able; [|done]. by rewrite Group.put_member_ids, decide_True.
Qed.

(** What [beat] leaves alone. *)
Lemma beat_reads t last w : let w' := beat t last w in
  WorkerRun.assigned me w' = WorkerRun.assigned me w ∧ WorkerRun.room w' = WorkerRun.room w ∧
  WorkerRun.queue_of w' = WorkerRun.queue_of w ∧ (∀ p, WorkerRun.unread p w' = WorkerRun.unread p w) ∧
  (∀ p, WorkerRun.partition_of p w' = WorkerRun.partition_of p w).
Proof. unfold beat. by destruct (due t last). Qed.

(** What some turns, with their outputs [outs], have done to the work of the
    worker. *)
Record worked (outs : list ScoredTransaction) (n : Z) (w w' : Worker.World) : Prop := {
  wk_live : live w';
  wk_assigned : WorkerRun.assigned me w' = WorkerRun.assigned me w;
  wk_room : WorkerRun.room w' = WorkerRun.room w - zlen outs;
  wk_queue : WorkerRun.queue_of w' = WorkerRun.queue_of w ++ outs;
  wk_count : zlen outs = Z.min (n * Worker.max_batch me)
    (Z.min (WorkerRun.room w) (zlen (WorkerRun.backlog (WorkerRun.assigned me w) w)));
  wk_backlog : WorkerRun.backlog (WorkerRun.assigned me w) w =
    (st_transaction <$> outs) ++ WorkerRun.backlog (WorkerRun.assigned me w) w';
  wk_others p : p ∉ WorkerRun.assigned me w → WorkerRun.unread p w' = WorkerRun.unread p w;
  wk_log p : WorkerRun.partition_of p w' = WorkerRun.partition_of p w
}.

Lemma worked_none w : live w → worked [] 0 w w.
Proof.
  intros Hl. pose proof Hl as [Ha _]. pose proof (WorkerRun.ab_room _ _ Ha).
  pose proof (zlen_nonneg (WorkerRun.backlog (WorkerRun.assigned me w) w)).
  split; try done; [change (zlen []) with 0; lia|by rewrite app_nil_r|change (zlen []) with 0; lia].
Qed.

Lemma worked_more o1 o2 n w w1 w2 : 0 ≤ n → worked o1 1 w w1 → worked o2 n w1 w2 → worked (o1 ++ o2) (n + 1) w w2.
Proof.
  intros Hn [L1 A1 R1 Q1 C1 B1 O1 P1] [L2 A2 R2 Q2 C2 B2 O2 P2]. rewrite A1 in *.
  pose proof L1 as [Hab _]. pose proof (WorkerRun.ab_batch _ _ Hab).
  assert (Hlen : zlen (WorkerRun.backlog (WorkerRun.assigned me w) w) = zlen o1 + zlen (WorkerRun.backlog (WorkerRun.assigned me w) w1))
    by (rewrite B1 at 1; by rewrite zlen_app, WorkerRun.zlen_fmap).
  pose proof (zlen_nonneg (WorkerRun.backlog (WorkerRun.assigned me w) w1)). pose proof (WorkerRun.ab_room _ _ Hab).
  split; [done|done| | | | | |].
  - rewrite zlen_app. lia.
  - by rewrite Q2, Q1, (assoc_L (++)).
  - rewrite zlen_app. replace ((n + 1) * Worker.max_batch me) with (n * Worker.max_batch me + Worker.max_batch me) by ring.
    assert (0 ≤ n * Worker.max_batch me) by nia. lia.
  - by rewrite fmap_app, B1, B2, (assoc_L (++)).
  - intros p Hp. by rewrite O2, O1.
  - intros p. by rewrite P2, P1.
Qed.

Lemma turn_works t last w : live w → (∀ p, WorkerRun.all_scorable (FraudRuntime.record_clock t) p w) →
  ∃ outs w', FraudRuntime.turn self t last w = (Ok (if due t last then FraudRuntime.now t else last), w') ∧
    worked outs 1 w w' ∧ members w' = members (beat t last w).
Proof.
  intros Hl Hsc. destruct (heartbeat_due t last w Hl) as [E Hl1]. unfold FraudRuntime.turn, bind. rewrite E.
  destruct (beat_reads t last w) as (Ea & Er & Eq & Eu & Ep). set (w1 := beat t last w) in *.
  assert (Eb : ∀ ps, WorkerRun.backlog ps w1 = WorkerRun.backlog ps w) by (intros ps; by apply WorkerRun.backlog_same).
  pose proof Hl1 as [Ha1 Hm1].
  destruct (WorkerRun.run_once_spec (FraudRuntime.record_clock t) me w1 Ha1) as (outs & w' & H1 & Hf & Hn & Hb & Ho).
  { intros p x k. rewrite Ep. apply Hsc. }
  rewrite H1, Ea, Er, !Eb in *. pose proof (WorkerRun.frame_left _ _ _ Hf) as Hroom.
  pose proof (WorkerRun.ab_room _ _ Ha1). pose proof (WorkerRun.frame_group _ _ _ Hf) as Hg.
  exists outs, w'. split; [done|]. split; [|by rewrite Hg]. split.
  - split; [|by rewrite Hg]. eapply WorkerRun.frame_able; [exact Hf|exact Ha1|]. lia.
  - by rewrite (WorkerRun.frame_assigned me _ _ _ Hf).
  - lia.
  - by rewrite (WorkerRun.frame_queue _ _ _ Hf), Eq.
  - rewrite Hn. lia.
  - done.
  - intros p Hp. by rewrite Ho, Eu.
  - intros p. by rewrite (WorkerRun.frame_partition _ _ _ p Hf).
Qed.

(** The last heartbeat of the worker after some turns: that of a turn since
    which none was due, or still the one of before. *)
Definition heard (turns : list FraudRuntime.Readings) (last : float) (w w' : Worker.World) : Prop :=
  (∃ k t, turns !! k = Some t ∧ (Worker.member_id me, FraudRuntime.group_now t) ∈ members w' ∧
     ∀ j t', (k < j)%nat → turns !! j = Some t' → due t' (FraudRuntime.now t) = false) ∨
  (members w' = members w ∧ ∀ t, t ∈ turns → due t last = false).

Lemma loop_works turns : ∀ last w, live w →
  (∀ t p, t ∈ turns → WorkerRun.all_scorable (FraudRuntime.record_clock t) p w) →
  ∃ outs last' w', Lifecycle.loop (FraudRuntime.turn self) last turns w = (Ok last', w') ∧
    worked outs (zlen turns) w w' ∧ heard turns last w w'.
Proof.
  induction turns as [|t turns IH]; intros last w Hl Hsc.
  { exists [], last, w. split; [done|]. split; [by apply worked_none|]. right. split; [done|]. by intros t ?%not_elem_of_nil. }
  destruct (turn_works t last w Hl (λ p, Hsc t p ltac:(left))) as (o1 & w1 & E & Hw & Hmem).
  cbn [Lifecycle.loop]. unfold bind. rewrite E.
  destruct (IH (if due t last then FraudRuntime.now t else last) w1 (wk_live _ _ _ _ Hw)) as (o2 & last' & w2 & E2 & Hw2 & Hh).
  { intros t' p Hin x k. rewrite (wk_log _ _ _ _ Hw). apply Hsc. by right. }
  exists (o1 ++ o2), last', w2. split; [exact E2|]. split.
  { replace (zlen (t :: turns)) with (zlen turns + 1) by (rewrite zlen_cons; lia). eapply worked_more; [apply zlen_nonneg|done|done]. }
  destruct Hh as [(k & t' & Hk & Hin & Hj)|[Hsame Hnone]].
  - left. exists (S k), t'. split; [done|]. split; [done|]. intros [|j] t2 Hlt; [lia|]. apply Hj. lia.
  - rewrite Hmem in Hsame. unfold beat in Hsame. destruct (due t last) eqn:Ed.
    + left. exists 0%nat, t. split; [done|]. split; [rewrite Hsame; apply Group.put_member_in|].
      intros [|j] t' Hlt Hj; [lia|]. apply Hnone. by eapply list_elem_of_lookup_2.
    + right. split; [done|]. intros t' [->|Hin]%elem_of_cons; [done|by apply Hnone].
Qed.

(** [join] makes it a live member. *)
Lemma start_live now ps w w' : WorkerRun.able me w → FraudRuntime.start self now w = (Ok ps, w') →
  live w' ∧ ps = WorkerRun.assigned me w' ∧ (Worker.member_id me, now) ∈ members w' ∧ WorkerRun.room w' = WorkerRun.room w ∧
  WorkerRun.queue_of w' = WorkerRun.queue_of w ∧ (∀ p, WorkerRun.unread p w' = WorkerRun.unread p w) ∧
  (∀ p, WorkerRun.partition_of p w' = WorkerRun.partition_of p w).
Proof.
  intros [Hw Hg Hnum Hb Hq Hr] Hst.
  pose proof (Group.join_ok (Worker.member_id me) now _ Hg) as Hok.
  unfold FraudRuntime.start, Worker.join, Worker.on_consumer, GroupConsumer.join, GroupConsumer.on_group, zoom in Hst.
  pose proof (Group.join_eq (Worker.member_id me) now (GroupConsumer.group (Worker.consumer w))) as Ej. cbv zeta in Ej.
  rewrite Ej in Hst, Hok. injection Hst as <- <-. cbn [snd] in Hok. split; [|split; [|split]].
  - split; [|apply Group.put_member_elem]. split; [by destruct Hw; split|exact Hok|done..].
  - symmetry. apply (Group.assignment_lookup _ (Worker.member_id me) Hok). apply Group.put_member_elem.
  - apply Group.put_member_in.
  - done.
Qed.

Lemma fraud_loop turns : ∀ last w,
  FraudRuntime.run_from self turns last w =
  (match (Lifecycle.loop (FraudRuntime.turn self) last turns w).1 with Ok _ => Ok tt | Raise x => Raise x end,
   (Lifecycle.loop (FraudRuntime.turn self) last turns w).2).
Proof.
  induction turns as [|t turns IH]; intros last w; [done|].
  cbn [FraudRuntime.run_from Lifecycle.loop]. unfold bind.
  destruct (FraudRuntime.turn self t last w) as [[l|x] w']; [apply IH|done].
Qed.
End fraud.

(** ** The settlement submitter (settlement/submitter.py) *)

Section submitter.
Context {P : Type} `{!Proposer P}.

(** [get] with its timeout, and [_handle] of what it answered. *)
Definition submitter_turn (now : datetime) (_ : unit) : Py (Submitter.World P) unit :=
  (queue <- get Submitter.input_queue ;;
   match queue with
   | [] => ret tt
   | scored :: rest =>
       modify (λ w, Submitter.mkWorld (Submitter.submitter w) rest (Submitter.cluster w)) ;;;
       Submitter.handle scored now
   end)%py.
Definition submitter_start (_ : unit) : Py (Submitter.World P) unit := ret tt.

Definition submitter_run : list (Lifecycle.Event unit datetime) → Lifecycle.Runtime (Submitter.World P) unit →
  option (Lifecycle.Runtime (Submitter.World P) unit) := Lifecycle.run submitter_start submitter_turn tt.

Lemma submitter_loop turns : ∀ w, Submitter.run turns w = Lifecycle.loop submitter_turn tt turns w.
Proof.
  induction turns as [|now turns IH]; intros w; [done|].
  cbn [Submitter.run Lifecycle.loop]. unfold submitter_turn at 1, bind, get.
  destruct (Submitter.input_queue w) as [|scored rest]; [apply IH|]. cbn.
  destruct (Submitter.handle scored now _) as [[[]|x] w']; [apply IH|done].
Qed.
End submitter.

(** ** The health loop (coordinator/coordinator.py) *)

Section health.
Context {P : Type} `{!Proposer P}.

(** [Coordinator.start] has started everything else when it clears the event. *)
Definition health_start (b : float) : Py (Coordinator.Coordinator P) unit := modify (Coordinator.start b).
Definition health_turn (a : float) (_ : unit) : Py (Coordinator.Coordinator P) unit := modify (Coordinator.health_turn a).
Definition health_run : list (Lifecycle.Event float float) → Lifecycle.Runtime (Coordinator.Coordinator P) unit →
  option (Lifecycle.Runtime (Coordinator.Coordinator P) unit) := Lifecycle.run health_start health_turn tt.

(** A turn never raises: the loop only ends when it is stopped. *)
Lemma health_never_dies turns : ∀ c, (Lifecycle.loop health_turn tt turns c).1 = Ok tt.
Proof. induction turns as [|a turns IH]; intros c; [done|]. cbn. apply IH. Qed.
End health.

(** The thread of a runtime that has just been started, on its own *)
Lemma started_as_loop {B A W L} (prologue : B → Py W unit) (turn : A → L → Py W L) l0 w evs r :
  forallb (Lifecycle.is_step_of 0%nat) evs = true →
  Lifecycle.run prologue turn l0 evs (Lifecycle.mkRuntime false (Some 0%nat) [Lifecycle.AtTest l0] false w) = Some r →
  let o := Lifecycle.loop turn l0 (Lifecycle.readings 0%nat evs) w in
  Lifecycle.shared r = o.2 ∧
  match o.1 with
  | Ok _ => Lifecycle.over <$> Lifecycle.threads r !! 0%nat = Some false
  | Raise x => Lifecycle.threads r !! 0%nat = Some (Lifecycle.Died x)
  end.
Proof.
  intros Hf Hr.
  destruct (Lifecycle.steps_as_loop prologue turn l0 0%nat evs l0 (Lifecycle.AtTest l0) (Lifecycle.mkRuntime false (Some 0%nat) [Lifecycle.AtTest l0] false w) r eq_refl eq_refl (or_introl eq_refl) Hf Hr) as [Hs Ho].
  split; [exact Hs|]. cbn [Lifecycle.shared] in Ho. destruct (Lifecycle.loop _ _ _ _) as [[l|x] w2]; [|exact Ho].
  destruct Ho as (p & Hp & [-> | ->]); cbn [fst]; by rewrite Hp.
Qed.

(** C24 (the worker's thread): a fraud worker's thread that was just started
    and is left alone, wherever the interleaving of its tests of the event and
    its turns has come to.  It has not died: neither the heartbeat nor
    [run_once] raises.  Its turns have scored, in order, the first records of
    the unread backlog of the partitions it got by joining, as many as the
    batches of that number of turns and the room in the queue allow; these are
    what was added to the queue, the rest is still unread, and nothing was read
    from the other partitions.  It is still a member, and its last heartbeat is
    fresh: it is that of a turn since which no turn found the heartbeat
    interval over, or still the one of joining when no turn has found it over
    since time 0. *)
Theorem worker_thread_works self join_now evs r' w ps w1 :
  WorkerRun.able (FraudRuntime.worker self) w →
  FraudRuntime.start self join_now w = (Ok ps, w1) →
  forallb (Lifecycle.is_step_of 0) evs = true →
  fraud_run self (Lifecycle.Start join_now :: evs) (Lifecycle.init w) = Some r' →
  let turns := Lifecycle.readings 0 evs in
  let id := Worker.member_id (FraudRuntime.worker self) in
  let interval := FraudRuntime.heartbeat_interval self in
  (∀ t p, t ∈ turns → WorkerRun.all_scorable (FraudRuntime.record_clock t) p w) →
  let w' := Lifecycle.shared r' in
  let members := Group.members_ (GroupConsumer.group (Worker.consumer w')) in
  Lifecycle.over <$> Lifecycle.threads r' !! 0%nat = Some false ∧
  (∃ outs, WorkerRun.queue_of w' = WorkerRun.queue_of w ++ outs ∧
    zlen outs = Z.min (zlen turns * Worker.max_batch (FraudRuntime.worker self))
      (Z.min (WorkerRun.room w) (zlen (WorkerRun.backlog ps w))) ∧
    WorkerRun.backlog ps w = (st_transaction <$> outs) ++ WorkerRun.backlog ps w' ∧
    ∀ p, p ∉ ps → WorkerRun.unread p w' = WorkerRun.unread p w) ∧
  ((∃ k t, turns !! k = Some t ∧ (id, FraudRuntime.group_now t) ∈ members ∧
      ∀ j t', (k < j)%nat → turns !! j = Some t' → F.ge (F.sub (FraudRuntime.now t') (FraudRuntime.now t)) interval = false) ∨
   ((id, join_now) ∈ members ∧ ∀ t, t ∈ turns → F.ge (F.sub (FraudRuntime.now t) F.zero) interval = false)).
Proof.
  intros Ha Hst Hf Hr turns id interval Hsc w' members.
  destruct (start_live self join_now ps w w1 Ha Hst) as (Hl & -> & Hin & Er & Eq & Eu & Ep).
  assert (Eb : ∀ ps, WorkerRun.backlog ps w1 = WorkerRun.backlog ps w) by (intros ps; by apply WorkerRun.backlog_same).
  destruct (loop_works self turns F.zero w1 Hl) as (outs & last & w2 & E & Hw & Hh).
  { intros t p Ht x k. rewrite Ep. by apply Hsc. }
  unfold fraud_run in Hr. cbn [Lifecycle.run Lifecycle.exec Lifecycle.joining Lifecycle.init] in Hr.
  unfold Lifecycle.start, fraud_start, bind in Hr. cbn [Lifecycle.shared Lifecycle.init] in Hr. rewrite Hst in Hr.
  pose proof (started_as_loop _ _ _ _ _ _ Hf Hr) as [Hs Ho]. fold turns in Hs, Ho. rewrite E in Hs, Ho.
  cbn [fst snd] in Hs, Ho. fold w' in Hs. unfold members. rewrite Hs in *. split; [exact Ho|]. split.
  - exists outs. destruct Hw as [_ _ Hroom Hq Hn Hb Hoth _]. rewrite Eq, Er, !Eb in *. split_and!; [done|done|done|].
    intros p Hp. by rewrite Hoth, Eu.
  - destruct Hh as [Hh|[Hm Hh]]; [by left|right]. split; [by rewrite Hm|done].
Qed.

(** ** A concrete run *)

Section demo.

Definition payment : Transaction :=
  mkTransaction "alice" DEBIT (DFin 2500 (-2)) None "USD" "us-east" PENDING "t1" 0 ∅.
Definition runtime : FraudRuntime.FraudWorkerRuntime :=
  FraudRuntime.mkRuntime (Worker.mkWorker "w1" 50) (F.lit 2 2) (F.lit 5 2).
(** One payment waits in the only partition; the worker is a new member. *)
Definition waiting : Worker.World :=
  Worker.mkWorld
    (GroupConsumer.mkWorld
       (Broker.mkLog "transactions" [[Broker.mkRecord 0 0 "alice" payment 1]] ∅)
       (Group.mkGroup "fraud-workers" 1 (F.lit 1 0) [] ∅))
    (Scorer.init "w1" None) (Queue.mkQueue [] 1000).
Definition readings (t : float) : FraudRuntime.Readings := FraudRuntime.mkReadings t t (λ _, (1000000, 1000000)).

Definition two_turns : list (Lifecycle.Event float FraudRuntime.Readings) :=
  [Lifecycle.Test 0; Lifecycle.Turn 0 (readings (F.lit 1 0)); Lifecycle.Test 0; Lifecycle.Turn 0 (readings (F.lit 2 0))].

Definition joined : Worker.World := (FraudRuntime.start runtime F.zero waiting).2.
Definition after_two_turns : option (Lifecycle.Runtime Worker.World float) :=
  fraud_run runtime (Lifecycle.Start F.zero :: two_turns) (Lifecycle.init waiting).
End demo.

Lemma waiting_scorable t p : WorkerRun.all_scorable (FraudRuntime.record_clock (readings t)) p waiting.
Proof.
  intros r n Hr%Broker.partition_in_log.
  assert (E : forallb (λ r, res_is_ok (Dec.ge (tx_amount (Broker.rec_value r)) (Dec.of_Z 10000)))
    (concat (Broker.partitions (WorkerRun.log_of waiting))) = true) by (vm_compute; reflexivity).
  rewrite forallb_forall in E. split; [exact (E r Hr)|vm_compute; reflexivity].
Qed.

Lemma waiting_able : WorkerRun.able (FraudRuntime.worker runtime) waiting.
Proof.
  split; [split| | | | |]; try (vm_compute; first [reflexivity|discriminate]).
  - intros p Hp j r Hj. change (0 <= p < 1) in Hp. assert (p = 0) as -> by lia.
    destruct j as [|j]; [|by destruct j]. injection Hj as <-. done.
  - intros p Hp. change (0 <= p < 1) in Hp. assert (p = 0) as -> by lia. vm_compute. split; discriminate.
  - by apply (Group.init_group_ok "fraud-workers" 1 (F.lit 1 0)).
Qed.

(** The payment is on the output queue when the thread has turned twice. *)
Lemma worker_thread_works_witness :
  ∃ r', after_two_turns = Some r' ∧ Lifecycle.over <$> Lifecycle.threads r' !! 0%nat = Some false ∧
    ∃ outs, WorkerRun.queue_of (Lifecycle.shared r') = outs ∧ zlen outs = 1.
Proof.
  destruct after_two_turns as [r'|] eqn:E; [|vm_compute in E; discriminate].
  exists r'. split; [done|].
  assert (Hst : FraudRuntime.start runtime F.zero waiting = (Ok [0], joined)) by (vm_compute; reflexivity).
  destruct (worker_thread_works runtime F.zero two_turns r' waiting [0] joined waiting_able Hst eq_refl E) as (Ho & (outs & Hq & Hn & _) & _).
  - intros t p Ht. assert (Hr : ∃ x, t = readings x).
    { change (Lifecycle.readings 0 two_turns) with [readings (F.lit 1 0); readings (F.lit 2 0)] in Ht.
      apply elem_of_cons in Ht as [->|[->|[]%not_elem_of_nil]%elem_of_cons]; by eexists. }
    destruct Hr as [x ->]. apply waiting_scorable.
  - split; [exact Ho|]. exists outs. split; [exact Hq|]. rewrite Hn. vm_compute. reflexivity.
Defined.
End Background.
