(* ===== verification/Verdicts.v ===== *)
(** * The verdicts on the output queue

    Every scored transaction of the pipeline carries a well-formed verdict of
    the scorer's rules under the configuration of the coordinator: an
    invariant of the worker threads and of the coordinator's events. *)

From stdpp Require Import base gmap strings list.
From Stdlib Require Import ZArith Lia.
From S2P Require Import Prelude PyDecimal PyFloat Models Submitter Broker Group Consumer Scorer Worker WorkerSystem Coordinator.

Local Open Scope Z_scope.

Module Verdicts.

(** [fs] is what the rules of [cfg] say of [txn]: the large-amount rule by its
    amount, the device rule by its metadata, the velocity rule by a count. *)
Record verdict (cfg : Scorer.ScorerConfig) (txn : Transaction) (fs : FraudScore) : Prop := mkVerdict {
  v_transaction : fs_transaction_id fs = tx_id txn;
  v_range : F.le F.zero (fs_score fs) && F.le (fs_score fs) (F.lit 1 0) = true;
  v_threshold : fs_is_fraud fs = F.ge (fs_score fs) (Scorer.fraud_threshold cfg);
  v_rules : ∃ large velocity,
    Dec.ge (tx_amount txn) (Scorer.large_amount_threshold cfg) = Ok large ∧
    let acc := Scorer.rule (Scorer.velocity_max_transactions cfg <? velocity) (Scorer.velocity_weight cfg)
        (Scorer.velocity_reason velocity txn cfg)
      (Scorer.rule (Scorer.device_flagged txn) (Scorer.device_flag_weight cfg) Scorer.device_reason
        (Scorer.rule large (Scorer.large_amount_weight cfg) (Scorer.amount_reason txn cfg) (F.zero, []))) in
    fs_score fs = F.min acc.1 (F.lit 1 0) ∧ fs_reasons fs = acc.2
}.

(** ** One call of the scorer *)

Lemma count_config txn now s : Scorer.config (Scorer.record_and_count txn now s).2 = Scorer.config s.
Proof.
  unfold Scorer.record_and_count, bind, get, modify, lift, ret. simpl.
  destruct (Timedelta.of_seconds _); [|done]. by destruct (Timedelta.before _ _).
Qed.

Lemma score_verdict txn now at_ s :
  let '(r, s') := Scorer.score txn now at_ s in
  Scorer.config s' = Scorer.config s ∧ match r with Ok fs => verdict (Scorer.config s) txn fs | Raise _ => True end.
Proof.
  unfold Scorer.score, bind, get, lift at 1. destruct (Dec.ge _ _) as [large|x] eqn:El; [|done]. cbv zeta.
  pose proof (count_config txn now s) as Hc. destruct (Scorer.record_and_count txn now s) as [[velocity|x] s1]; [|done].
  cbn [snd] in Hc. set (acc := Scorer.rule (_ <? velocity) _ _ _). destruct acc as [weight reasons] eqn:Ea. subst acc.
  unfold FraudScore_post_init, lift. cbn [fs_score]. destruct (F.le F.zero _ && _) eqn:Er; [|done].
  split; [done|]. split; [done|exact Er|done|]. exists large, velocity. split; [exact El|]. cbv zeta. by rewrite Ea.
Qed.

(** With the default weights and threshold the verdict is fraud exactly when a
    rule fires: a large amount and a flagged device always are. *)
Definition default_weighing (cfg : Scorer.ScorerConfig) : Prop :=
  Scorer.large_amount_weight cfg = Scorer.large_amount_weight Scorer.default_config ∧
  Scorer.device_flag_weight cfg = Scorer.device_flag_weight Scorer.default_config ∧
  Scorer.velocity_weight cfg = Scorer.velocity_weight Scorer.default_config ∧
  Scorer.fraud_threshold cfg = Scorer.fraud_threshold Scorer.default_config.

Lemma default_verdict_rules cfg txn fs : default_weighing cfg → verdict cfg txn fs → ∃ large velocity,
  Dec.ge (tx_amount txn) (Scorer.large_amount_threshold cfg) = Ok large ∧
  fs_is_fraud fs = large || Scorer.device_flagged txn || (Scorer.velocity_max_transactions cfg <? velocity).
Proof.
  intros (W1 & W2 & W3 & W4) [_ _ Ht (large & velocity & Hl & Hs & _)]. exists large, velocity. split; [done|].
  rewrite Ht, Hs, W1, W2, W3, W4.
  by destruct (Scorer.default_weights large (Scorer.device_flagged txn) (Scorer.velocity_max_transactions cfg <? velocity)
    (Scorer.amount_reason txn cfg) Scorer.device_reason (Scorer.velocity_reason velocity txn cfg)) as (_ & -> & _).
Qed.

Lemma default_large cfg txn fs : default_weighing cfg → verdict cfg txn fs →
  Dec.ge (tx_amount txn) (Scorer.large_amount_threshold cfg) = Ok true → fs_is_fraud fs = true.
Proof.
  intros Hw Hv Hlarge. destruct (default_verdict_rules cfg txn fs Hw Hv) as (large & velocity & Hl & ->).
  rewrite Hlarge in Hl. by injection Hl as <-.
Qed.

Lemma default_clear cfg txn fs : default_weighing cfg → verdict cfg txn fs → fs_is_fraud fs = false →
  Dec.ge (tx_amount txn) (Scorer.large_amount_threshold cfg) = Ok false ∧ Scorer.device_flagged txn = false.
Proof.
  intros Hw Hv. destruct (default_verdict_rules cfg txn fs Hw Hv) as (large & velocity & Hl & ->).
  intros [[-> ->]%orb_false_iff _]%orb_false_iff. by split.
Qed.

(** ** The worker threads *)

Section threads.
Variable cfg : Scorer.ScorerConfig.
Abbreviation judged := (λ sc, verdict cfg (st_transaction sc) (st_score sc)).

Record judging (s : WorkerSystem.System) : Prop := {
  jd_config id t : WorkerSystem.threads s !! id = Some t → Scorer.config (WorkerSystem.scorer t) = cfg;
  jd_emitted : Forall judged (WorkerSystem.emitted s)
}.

Definition spawns (e : WorkerSystem.Event) : Prop :=
  match e with WorkerSystem.Spawn _ _ sc => Scorer.config sc = cfg | _ => True end.

Lemma on_consumer_scorer {A} (m : Py (GroupConsumer.World Transaction) A) w :
  Worker.scorer (Worker.on_consumer m w).2 = Worker.scorer w.
Proof. unfold Worker.on_consumer, zoom. by destruct (m (Worker.consumer w)). Qed.

Lemma emit_judged r at_ w : Scorer.config (Worker.scorer w) = cfg →
  let '(x, w') := Worker.emit r at_ w in
  Scorer.config (Worker.scorer w') = cfg ∧ match x with Ok sc => judged sc | Raise _ => True end.
Proof.
  intros Hc. unfold Worker.emit, bind at 1, Worker.on_scorer, zoom.
  pose proof (score_verdict (Broker.rec_value r) at_.1 at_.2 (Worker.scorer w)) as Hs. rewrite Hc in Hs.
  destruct (Scorer.score _ _ _ _) as [[fs|x] s]; destruct Hs as [Hs Hv]; [|done].
  unfold bind, Worker.on_queue, zoom, ret. simpl. by destruct (Queue.put_nowait _ _) as [[[]|x] q].
Qed.

(** An access of a thread puts only judged transactions on the queue. *)
Lemma step_judged self ph pr at_ w out : Scorer.config (Worker.scorer w) = cfg → Forall judged out →
  let w' := (Worker.step self (ph, pr) at_ w).2 in
  Scorer.config (Worker.scorer w') = cfg ∧ Forall judged (WorkerSystem.out_of w w' out).
Proof.
  intros Hc Ho. unfold Worker.step, Worker.access; cbn [fst snd].
  assert (Hq : ∀ w', Worker.scorer w' = Worker.scorer w → Worker.output_queue w' = Worker.output_queue w →
    Scorer.config (Worker.scorer w') = cfg ∧ Forall judged (WorkerSystem.out_of w w' out)).
  { intros w' E1 E2. rewrite E1. split; [done|]. by rewrite WorkerSystem.out_same by (by rewrite E2). }
  assert (Hcons : ∀ A (m : Py (GroupConsumer.World Transaction) A) r w', Worker.on_consumer m w = (r, w') →
    Scorer.config (Worker.scorer w') = cfg ∧ Forall judged (WorkerSystem.out_of w w' out)).
  { intros A m r w' E. apply Hq; [|by eapply WorkerSystem.on_consumer_queue]. pose proof (on_consumer_scorer m w) as H. by rewrite E in H. }
  destruct ph as [|c|ps c|p o ps c|rs ps c|r rs ps c|e]; cbn [snd].
  - unfold Worker.available_capacity, bind, get, ret. destruct (Queue.maxsize _ <=? 0); by apply Hq.
  - destruct (Worker.on_consumer _ w) as [[x|x] w'] eqn:E; by eapply Hcons.
  - destruct ps as [|p ps]; [by apply Hq|]. destruct (c <=? 0); [by apply Hq|].
    destruct (Worker.on_consumer _ w) as [[x|x] w'] eqn:E; by eapply Hcons.
  - destruct (Worker.on_consumer _ w) as [[x|x] w'] eqn:E; by eapply Hcons.
  - destruct rs as [|r rs]; [by apply Hq|]. pose proof (emit_judged r at_ w Hc) as Hj.
    destruct (Worker.emit r at_ w) as [[sc|x] w'] eqn:E; destruct Hj as [Hc' Hj]; apply WorkerSystem.emit_cases in E as [_ E]; simpl.
    + destruct E as (_ & _ & Ei). split; [done|]. unfold WorkerSystem.out_of, Queue.qsize. rewrite Ei, WorkerSystem.sfx_snoc.
      apply Forall_app. split; [done|by apply Forall_singleton].
    + split; [done|]. by rewrite WorkerSystem.out_same by (by rewrite E).
  - destruct (Worker.on_consumer _ w) as [[x|x] w'] eqn:E; by eapply Hcons.
  - by apply Hq.
Qed.

Lemma event_judging e s : spawns e → judging s → judging (WorkerSystem.exec e s).
Proof.
  intros He [Hc Hem]. destruct e as [id at_|key txn now|c| |id|id w sc]; simpl; try (by split).
  - destruct (WorkerSystem.threads s !! id) as [t|] eqn:Ht; [|by split]. unfold WorkerSystem.thread_step.
    pose proof (step_judged (WorkerSystem.worker t) (WorkerSystem.phase t) (WorkerSystem.produced t) at_ (WorkerSystem.world_of t s)
      (WorkerSystem.emitted s) (Hc id t Ht) Hem) as [H1 H2].
    destruct (Worker.step _ _ _ _) as [[ph out] w]. split; [|exact H2]. simpl.
    intros id' t' [[_ <-]|[_ Ht']]%lookup_insert_Some; [exact H1|by eapply Hc].
  - split; [|done]. simpl. intros id' t' [_ Ht']%lookup_delete_Some. by eapply Hc.
  - split; [|done]. simpl. intros id' t' [[_ <-]|[_ Ht']]%lookup_insert_Some; [done|by eapply Hc].
Qed.

Lemma events_judging es : ∀ s, Forall spawns es → judging s → judging (WorkerSystem.run es s).
Proof.
  induction es as [|e es IH]; intros s He Hs; [done|]. apply Forall_cons in He as [He Hes]. simpl. apply IH; [done|by apply event_judging].
Qed.

Lemma init_judging l g maxsize : judging (WorkerSystem.init l g maxsize).
Proof. split; [|by constructor]. intros id t. simpl. by rewrite lookup_empty. Qed.
End threads.

(** ** The coordinator *)

Section coordinator.
Context {P : Type} `{!Proposer P}.
(** The configuration every worker of a coordinator is given. *)
Abbreviation config_of c := (default Scorer.default_config (Coordinator.scorer_config c)).
Implicit Types c : Coordinator.Coordinator P.

Lemma start_worker_judging config now s id :
  judging (default Scorer.default_config config) s → judging (default Scorer.default_config config) (Coordinator.start_worker config now s id).
Proof. intros Hs. apply events_judging; [|done]. repeat constructor. Qed.

Lemma heartbeat_judging cfg id now s : judging cfg s → judging cfg (Coordinator.worker_heartbeat id now s).
Proof.
  intros [Hc Hem]. unfold Coordinator.worker_heartbeat. destruct (WorkerSystem.threads s !! id) as [t|] eqn:Et; [|by split].
  destruct (WorkerSystem.phase t); try (by split). destruct (Group.heartbeat _ now _) as [[[]|e] g]; [by split|].
  split; [|done]. simpl. intros id' t' [[_ <-]|[_ Ht']]%lookup_insert_Some; simpl; by eapply Hc.
Qed.

Lemma exec_config e c : Coordinator.scorer_config (Coordinator.exec e c) = Coordinator.scorer_config c.
Proof.
  pose proof (Coordinator.exec_stepped e c) as He.
  destruct e; try (by destruct He as (s & _ & [_ _ _ _ ->])); cbn [Coordinator.exec]; [done|].
  unfold Coordinator.submitter_turn. destruct (Coordinator.submitting c); [|done]. by destruct (Submitter.run _ _).
Qed.

Lemma stepped_judging e c s : Coordinator.stepped e c s → judging (config_of c) (Coordinator.pipeline c) → judging (config_of c) s.
Proof.
  intros Hst Hs. destruct Hst; try (by apply event_judging); [done|by apply heartbeat_judging|by apply start_worker_judging].
Qed.

Lemma exec_judging e c : judging (config_of c) (Coordinator.pipeline c) → judging (config_of c) (Coordinator.pipeline (Coordinator.exec e c)).
Proof.
  intros Hs. pose proof (Coordinator.exec_stepped e c) as He.
  destruct e; try (destruct He as (s & Hst & [-> _ _ _ _]); by apply (stepped_judging _ _ _ Hst)); cbn [Coordinator.exec].
  - unfold Coordinator.start. cbn [Coordinator.with_pipeline Coordinator.pipeline].
    apply (Coordinator.fold_keeps (judging (config_of c))); [|done]. intros s x. apply start_worker_judging.
  - unfold Coordinator.submitter_turn. destruct (Coordinator.submitting c); [|done]. destruct (Submitter.run _ _) as [r w].
    by destruct Hs.
Qed.

Lemma run_judging es : ∀ c, judging (config_of c) (Coordinator.pipeline c) →
  judging (config_of c) (Coordinator.pipeline (Coordinator.run es c)) ∧
  Coordinator.scorer_config (Coordinator.run es c) = Coordinator.scorer_config c.
Proof.
  induction es as [|e es IH]; intros c Hc; [done|]. simpl. pose proof (exec_judging e c Hc) as He.
  destruct (IH (Coordinator.exec e c)) as [H1 H2]; [by rewrite exec_config|]. rewrite exec_config in H1, H2. by split.
Qed.

Lemma coordinator_judging num k timeout config ptimeout cl c es :
  Coordinator.init num k timeout config ptimeout cl = Ok c →
  judging (default Scorer.default_config config) (Coordinator.pipeline (Coordinator.run es c)).
Proof.
  intros Hi. assert (H : Coordinator.scorer_config c = config ∧ judging (default Scorer.default_config config) (Coordinator.pipeline c)).
  { revert Hi. unfold Coordinator.init. destruct (Broker.init _ _); [|done]. simpl. destruct (Group.init _ _ _); [|done]. simpl.
    intros [= <-]. split; [done|apply init_judging]. }
  destruct H as [<- H]. by apply run_judging.
Qed.

(** From the start of a coordinator on, the scored transactions are among the
    submitted ones, each with its verdict, and all of them accounted for. *)
Lemma started_run (Q : Transaction → Prop) num k timeout config ptimeout cl c now es :
  Coordinator.init num k timeout config ptimeout cl = Ok c → Forall Coordinator.no_start es → Forall (Coordinator.submits Q) es →
  let c' := Coordinator.run es (Coordinator.exec (Coordinator.Start now) c) in
  (∃ taken, Coordinator.accounted c' taken) ∧ WorkerSystem.sourced Q (Coordinator.pipeline c') ∧
  judging (default Scorer.default_config config) (Coordinator.pipeline c').
Proof.
  intros Hi Hns Hq c'. assert (Hj : judging (default Scorer.default_config config) (Coordinator.pipeline c')).
  { exact (coordinator_judging num k timeout config ptimeout cl c (Coordinator.Start now :: es) Hi). }
  split; [|split; [|done]].
  - eapply Coordinator.run_accounted; [done|]. by eapply Coordinator.start_accounted.
  - assert (H0 : WorkerSystem.system_ok (Coordinator.pipeline c) ∧ WorkerSystem.sourced Q (Coordinator.pipeline c)).
    { revert Hi. unfold Coordinator.init. destruct (Broker.init "transactions" num) as [log|] eqn:El; [|done]. simpl.
      destruct (Group.init _ _ _) as [g|]; [|done]. simpl. intros [= <-].
      split; [by eapply WorkerSystem.system_init_ok|by eapply WorkerSystem.init_sourced]. }
    destruct H0 as [Hok Hso]. pose proof (Coordinator.exec_sourced Q (Coordinator.Start now) c Hok I Hso) as Hs.
    pose proof (Coordinator.start_accounted _ _ _ _ _ _ _ now Hi) as Ha. revert Hs Ha. unfold c'.
    generalize (Coordinator.exec (Coordinator.Start now) c). generalize (@nil ScoredTransaction).
    clear - Hns Hq. induction es as [|e es IH]; intros taken c Hs Ha; [done|].
    apply Forall_cons in Hns as [He Hns]. apply Forall_cons in Hq as [Hqe Hq].
    destruct (Coordinator.exec_accounted e c taken He Ha) as (taken' & Ha'). simpl. eapply IH; [done|done| |exact Ha'].
    apply Coordinator.exec_sourced; [by destruct Ha|done|done].
Qed.
End coordinator.
End Verdicts.
