(* ===== verification/Chaos.v ===== *)
(** * Fault injection (chaos/fault_injection.py)

    The calls that demo scripts use to kill the current leader and to wait for
    its successor, over the client of RaftCluster.v, and to kill and revive a
    worker of the coordinator. *)

From stdpp Require Import base gmap strings list.
From Stdlib Require Import ZArith SpecFloat Lia.
From S2P Require Import Prelude PyFloat RaftTypes Storage StateMachine Transport RaftNode RaftFrame Cluster Runtime RaftCluster Submitter Coordinator.

Local Open Scope Z_scope.

Module Chaos.

Definition kill_fraud_worker {P} (member_id : string) (c : Coordinator.Coordinator P) : Coordinator.Coordinator P :=
  Coordinator.kill_fraud_worker member_id c.
Definition revive_fraud_worker {P} (member_id : string) (now : float) (c : Coordinator.Coordinator P) : Coordinator.Coordinator P :=
  Coordinator.revive_fraud_worker member_id now c.

Section chaos.
Context {C S : Type} {Hsm : StateMachine C S}.
Variables tmin tmax hb : float.
Variable ids : list string.
Variable others : nat → list (RaftCluster.Op C * RaftCluster.Draws).
Variable clock : nat → float.

Abbreviation K := (Py (RaftCluster.Client C S)).
Abbreviation access := (RaftCluster.access tmin tmax hb ids others).
Abbreviation find_leader := (RaftCluster.find_leader tmin tmax hb ids others clock).
Abbreviation monotonic := (RaftCluster.monotonic tmin tmax hb ids others clock).
Abbreviation elapsed := (RaftCluster.elapsed tmin tmax hb ids others).
Abbreviation quiet := (RaftCluster.quiet tmin tmax hb ids others).
Implicit Types w : RaftCluster.Client C S.

(** Returns the id of the killed node. *)
Definition kill_raft_leader (fuel : nat) (timeout : float) : K string :=
  (leader <- find_leader fuel timeout ;;
   match leader with
   | None => raise (TimeoutError "no leader to kill")
   | Some id => access (RaftCluster.kill id) ;;; ret id
   end)%py.

(** [leader.current_term > exclude_term] of a fresh search, until the deadline. *)
Fixpoint wait_loop (fuel find_fuel : nat) (exclude_term : Z) (deadline : float) : K string :=
  match fuel with
  | O => raise OutOfFuel
  | Datatypes.S fuel =>
      (now <- monotonic ;;
       if negb (F.lt now deadline) then raise (TimeoutError "no new leader elected within timeout")
       else
         candidate <- find_leader find_fuel (F.lit 2 1) ;;
         match candidate with
         | None => wait_loop fuel find_fuel exclude_term deadline
         | Some id =>
             term <- access (RaftCluster.on_runtime id Runtime.current_term) ;;
             if exclude_term <? term then ret id else wait_loop fuel find_fuel exclude_term deadline
         end)%py
  end.

Definition wait_for_new_leader (fuel : nat) (exclude_term : Z) (timeout : float) : K string :=
  (now <- monotonic ;; wait_loop fuel fuel exclude_term (F.add now timeout))%py.

(** ** What they do *)

(** Killing a node cuts it off and stops its thread; its slot stays. *)
Lemma kill_effect id (rc : RaftCluster.RaftCluster C S) : is_Some (Cluster.slots (RaftCluster.cluster rc) !! id) →
  ∃ rc', RaftCluster.kill id rc = (Ok tt, rc') ∧ RaftCluster.is_alive id rc' = false ∧
    id ∉ RaftCluster.running rc' ∧ Cluster.slots (RaftCluster.cluster rc') = Cluster.slots (RaftCluster.cluster rc).
Proof.
  intros Hid. unfold RaftCluster.kill, bind, get, RaftCluster.set_running, RaftCluster.on_transport, modify.
  rewrite bool_decide_true by done. simpl. eexists. split; [reflexivity|]. split; [|split; [simpl; set_solver|done]].
  unfold RaftCluster.is_alive, Net.is_partitioned, Net.partition. simpl. rewrite bool_decide_true; [done|]. set_solver.
Qed.

(** The node killed is one that was found leading, and it is cut off. *)
Lemma kill_raft_leader_spec fuel timeout w : (∀ n, RaftCluster.has_slots ids (elapsed n w)) →
  match kill_raft_leader fuel timeout w with
  | (Ok id, w') => RaftCluster.is_alive id (RaftCluster.shared w') = false ∧ id ∉ RaftCluster.running (RaftCluster.shared w') ∧
      ∃ n, RaftCluster.leads_in id (elapsed n w) = true
  | (Raise x, w') => quiet w w' ∧ (x = TimeoutError "no leader to kill" ∨ x = OutOfFuel)
  end.
Proof.
  intros Hs. unfold kill_raft_leader, bind at 1.
  destruct (RaftCluster.find_leader_spec tmin tmax hb ids others clock fuel timeout w Hs) as (r & w1 & E & Q & _ & R).
  rewrite E. destruct r as [[id|]|x].
  - destruct R as [[Hl Hid] _]. unfold bind, RaftCluster.access.
    destruct Q as (n & Esh & Eac).
    assert (Hs1 : is_Some (Cluster.slots (RaftCluster.cluster (RaftCluster.elapse tmin tmax hb ids others w1)) !! id)).
    { specialize (RaftCluster.has_slots_later tmin tmax hb ids others w w1 (ex_intro _ n (conj Esh Eac)) Hs 1%nat id Hid).
      by rewrite RaftCluster.elapsed_one. }
    destruct (kill_effect id _ Hs1) as (rc' & -> & Ha & Hr & _). simpl. split; [done|]. split; [done|].
    exists n. by rewrite <- Esh.
  - split; [exact Q|by left].
  - split; [exact Q|]. right. by destruct R.
Qed.

(** The node returned was in a term after [exclude_term] when it was asked. *)
Lemma wait_loop_spec fuel find_fuel t deadline : ∀ w, (∀ n, RaftCluster.has_slots ids (elapsed n w)) →
  match wait_loop fuel find_fuel t deadline w with
  | (Ok id, w') => quiet w w' ∧ id ∈ ids ∧
      ∃ s, Cluster.slots (RaftCluster.cluster (RaftCluster.shared w')) !! id = Some s ∧
        t < Storage.current_term (Cluster.slot_storage s)
  | (Raise x, w') => quiet w w' ∧
      (x = TimeoutError "no new leader elected within timeout" ∧ F.lt (clock (RaftCluster.accesses w' - 1)) deadline = false ∨ x = OutOfFuel)
  end.
Proof.
  induction fuel as [|fuel IH]; intros w Hs; cbn [wait_loop].
  { split; [apply RaftCluster.quiet_refl|by right]. }
  unfold bind at 1, RaftCluster.monotonic at 1.
  pose proof (RaftCluster.quiet_one tmin tmax hb ids others w (RaftCluster.last_known_leader w)) as Q1.
  set (w1 := RaftCluster.mkClient _ _ _) in *. pose proof (RaftCluster.has_slots_later _ _ _ _ _ _ _ Q1 Hs) as Hs1.
  destruct (F.lt (clock (RaftCluster.accesses w)) deadline) eqn:Hlt; cbn [negb].
  2: { split; [done|]. left. split; [done|]. simpl. by rewrite Nat.sub_0_r. }
  unfold bind at 1.
  destruct (RaftCluster.find_leader_spec tmin tmax hb ids others clock find_fuel (F.lit 2 1) w1 Hs1) as (r & w2 & E & Q2 & _ & R).
  rewrite E. pose proof (RaftCluster.quiet_trans _ _ _ _ _ _ _ _ Q1 Q2) as Q12.
  pose proof (RaftCluster.has_slots_later _ _ _ _ _ _ _ Q12 Hs) as Hs2.
  assert (Hnext : ∀ w3, quiet w w3 → match wait_loop fuel find_fuel t deadline w3 with
    | (Ok id, w') => quiet w w' ∧ id ∈ ids ∧ ∃ s, Cluster.slots (RaftCluster.cluster (RaftCluster.shared w')) !! id = Some s ∧
        t < Storage.current_term (Cluster.slot_storage s)
    | (Raise x, w') => quiet w w' ∧
        (x = TimeoutError "no new leader elected within timeout" ∧ F.lt (clock (RaftCluster.accesses w' - 1)) deadline = false ∨ x = OutOfFuel) end).
  { intros w3 Q3. specialize (IH w3 (RaftCluster.has_slots_later _ _ _ _ _ _ _ Q3 Hs)).
    destruct (wait_loop fuel find_fuel t deadline w3) as [[id|x] w4]; destruct IH as [Q4 IH];
      (split; [by eapply RaftCluster.quiet_trans|exact IH]). }
  destruct r as [[id|]|x].
  - destruct R as [[Hl Hid] _]. unfold bind at 1.
    rewrite RaftCluster.access_read
      by (intros rc; unfold Runtime.current_term, Raft.reads; by rewrite RaftCluster.on_runtime_get).
    unfold Runtime.current_term, Raft.reads. rewrite RaftCluster.on_runtime_get. cbn [fst].
    pose proof (RaftCluster.quiet_one tmin tmax hb ids others w2 (RaftCluster.last_known_leader w2)) as Q3.
    set (w3 := RaftCluster.mkClient _ _ _) in *. pose proof (RaftCluster.quiet_trans _ _ _ _ _ _ _ _ Q12 Q3) as Q13.
    pose proof (Hs2 1%nat id Hid) as [s Hsl]. rewrite RaftCluster.elapsed_one in Hsl. rewrite Hsl.
    destruct (Z.ltb_spec t (Storage.current_term (Cluster.slot_storage s))) as [Ht|]; cbv zeta iota beta;
      cbn [Cluster.world Raft.storage Storage.get_current_term];
      unfold Storage.get_current_term; [rewrite (proj2 (Z.ltb_lt _ _) Ht)|rewrite (proj2 (Z.ltb_ge _ _)) by done].
    + split; [done|]. split; [done|]. exists s. by split.
    + by apply Hnext.
  - by apply Hnext.
  - split; [done|]. right. by destruct R.
Qed.
End chaos.
End Chaos.
