(* ===== verification/Owned.v ===== *)
(** * The coordinator over a cluster of its own (coordinator/coordinator.py)

    [balance] and the Raft part of [status]: what the coordinator reads of the
    replicas when the cluster runs in its process, over the client of
    RaftCluster.v. *)

From stdpp Require Import base gmap strings list.
From Stdlib Require Import ZArith SpecFloat Lia.
From S2P Require Import Prelude PyDecimal PyFloat Models StateMachine Ledger.
From S2P Require Import RaftTypes Storage Transport RaftNode RaftFrame Cluster Runtime RaftCluster.

Local Open Scope Z_scope.

Module Owned.
Section owned.
Variables tmin tmax hb : float.
Variable ids : list string.
Variable others : nat → list (RaftCluster.Op LedgerEntry * RaftCluster.Draws).
Variable clock : nat → float.
Variable owns_raft_cluster : bool.

Abbreviation C := LedgerEntry.
Abbreviation S := Ledger.LedgerStateMachine.
Abbreviation K := (Py (RaftCluster.Client C S)).
Abbreviation access := (RaftCluster.access tmin tmax hb ids others).
Abbreviation find_leader := (RaftCluster.find_leader tmin tmax hb ids others clock).
Abbreviation elapsed := (RaftCluster.elapsed tmin tmax hb ids others).
Abbreviation quiet := (RaftCluster.quiet tmin tmax hb ids others).
Implicit Types w : RaftCluster.Client C S.

Definition no_leader : exn := TimeoutError "no Raft leader available".

Definition balance (fuel : nat) (account_id : string) (timeout : float) : K Decimal :=
  if negb owns_raft_cluster then raise NotImplementedError
  else
    (leader <- find_leader fuel timeout ;;
     match leader with
     | None => raise no_leader
     | Some id => access (RaftCluster.on_runtime id (get (λ node, Ledger.balance account_id (Raft.machine node))))
     end)%py.

(** The ["raft"] entry of [status]: [None] for [{"mode": "remote"}]. *)
Definition raft_status : K (option (list (string * RaftCluster.NodeStatus))) :=
  if owns_raft_cluster
  then (nodes <- RaftCluster.snapshot tmin tmax hb ids others ;; ret (Some nodes))%py
  else ret None.

(** A balance is that of the replica of a node found leading, one access
    later. *)
Lemma balance_spec fuel account timeout w : owns_raft_cluster = true → (∀ n, RaftCluster.has_slots ids (elapsed n w)) →
  let '(r, w') := balance fuel account timeout w in
  quiet w w' ∧
  match r with
  | Ok b => ∃ n id s, RaftCluster.leads_in id (elapsed n w) = true ∧
      Cluster.slots (RaftCluster.cluster (RaftCluster.shared w')) !! id = Some s ∧
      b = Ledger.balance account (Cluster.slot_machine s)
  | Raise x =>
      x = no_leader ∧ F.ge (clock (RaftCluster.accesses w' - 1)) (F.add (clock (RaftCluster.accesses w)) timeout) = true ∨
      x = OutOfFuel ∧
        ∀ m, (∀ k, (m ≤ k)%nat → F.ge (clock k) (F.add (clock (RaftCluster.accesses w)) timeout) = true) → (fuel ≤ m)%nat
  end.
Proof.
  intros Ho Hs. unfold balance. rewrite Ho. cbn [negb]. unfold bind at 1.
  destruct (RaftCluster.find_leader_spec tmin tmax hb ids others clock fuel timeout w Hs) as (r & w1 & E & Q & _ & R).
  rewrite E. destruct r as [[id|]|x]; [|split; [exact Q|left; split; [done|apply R]]|split; [exact Q|by right]].
  destruct R as [[Hl Hid] _].
  rewrite RaftCluster.access_read by (intros rc; by rewrite RaftCluster.on_runtime_get).
  rewrite RaftCluster.on_runtime_get.
  pose proof (RaftCluster.has_slots_later _ _ _ _ _ _ _ Q Hs 1%nat id Hid) as [s Hsl]. rewrite RaftCluster.elapsed_one in Hsl.
  rewrite Hsl. cbn [fst Cluster.world Raft.machine].
  split; [eapply RaftCluster.quiet_trans; [exact Q|apply RaftCluster.quiet_one]|].
  destruct Q as (n & Esh & _). exists n, id, s. rewrite <- Esh. by split_and!.
Qed.

(** Reading a node of the cluster changes nothing but the time. *)
Lemma read_quiet {A} id (f : Raft.World C S (Net.InMemoryTransport C) → A) w :
  (∀ n, RaftCluster.has_slots ids (elapsed n w)) → id ∈ ids →
  ∃ v w', access (RaftCluster.on_runtime id (get f)) w = (Ok v, w') ∧ quiet w w'.
Proof.
  intros Hs Hid. pose proof (Hs 1%nat id Hid) as [s Hsl]. rewrite RaftCluster.elapsed_one in Hsl.
  rewrite RaftCluster.access_read by (intros rc; by rewrite RaftCluster.on_runtime_get). rewrite RaftCluster.on_runtime_get, Hsl.
  do 2 eexists. split; [reflexivity|apply RaftCluster.quiet_one].
Qed.

(** A snapshot has a row for each node that was alive when it was looked at. *)
Lemma snapshot_spec l : ∀ w, (∀ n, RaftCluster.has_slots ids (elapsed n w)) → (∀ id, id ∈ l → id ∈ ids) →
  ∃ rows w', RaftCluster.snapshot_each tmin tmax hb ids others l w = (Ok rows, w') ∧ quiet w w' ∧ rows.*1 `sublist_of` l.
Proof.
  induction l as [|id l IH]; intros w Hs Hl.
  { exists [], w. split; [reflexivity|]. split; [apply RaftCluster.quiet_refl|by constructor]. }
  cbn [RaftCluster.snapshot_each]. unfold bind at 1, RaftCluster.alive. rewrite RaftCluster.access_read by done. cbn [fst get].
  pose proof (RaftCluster.quiet_one tmin tmax hb ids others w (RaftCluster.last_known_leader w)) as Q1. set (w1 := RaftCluster.mkClient _ _ _) in *.
  pose proof (RaftCluster.has_slots_later _ _ _ _ _ _ _ Q1 Hs) as Hs1.
  destruct (RaftCluster.is_alive id _).
  2: { destruct (IH w1 Hs1) as (rows & w2 & E & Q2 & Hr); [intros id' Hid'; apply Hl; by right|]. exists rows, w2. split; [exact E|].
       split; [by eapply RaftCluster.quiet_trans|by constructor]. }
  assert (Hid : id ∈ ids) by (apply Hl; left).
  unfold RaftCluster.leads, Runtime.is_leader, Runtime.current_term, Runtime.leader_id, Raft.gets, Raft.reads.
  destruct (read_quiet id (λ x, Raft.is_leader (Raft.node x)) w1 Hs1 Hid) as (v1 & w2 & E1 & Q2).
  unfold bind at 1. rewrite E1. pose proof (RaftCluster.has_slots_later _ _ _ _ _ _ _ Q2 Hs1) as Hs2.
  destruct (read_quiet id (λ x, Storage.get_current_term (Raft.storage x)) w2 Hs2 Hid) as (v2 & w3 & E2 & Q3).
  unfold bind at 1. rewrite E2. pose proof (RaftCluster.has_slots_later _ _ _ _ _ _ _ Q3 Hs2) as Hs3.
  destruct (read_quiet id (λ x, Raft.leader_id (Raft.node x)) w3 Hs3 Hid) as (v3 & w4 & E3 & Q4).
  unfold bind at 1. rewrite E3. pose proof (RaftCluster.has_slots_later _ _ _ _ _ _ _ Q4 Hs3) as Hs4.
  destruct (IH w4 Hs4) as (rows & w5 & E4 & Q5 & Hr); [intros id' Hid'; apply Hl; by right|].
  unfold bind. rewrite E4. do 2 eexists. split; [reflexivity|]. split; [|by constructor].
  eapply RaftCluster.quiet_trans; [exact Q1|]. eapply RaftCluster.quiet_trans; [exact Q2|].
  eapply RaftCluster.quiet_trans; [exact Q3|]. by eapply RaftCluster.quiet_trans.
Qed.

(** The Raft part of a status can always be read. *)
Lemma raft_status_spec w : (∀ n, RaftCluster.has_slots ids (elapsed n w)) →
  ∃ v w', raft_status w = (Ok v, w') ∧ quiet w w'.
Proof.
  intros Hs. unfold raft_status. destruct owns_raft_cluster.
  - destruct (snapshot_spec ids w Hs) as (rows & w' & E & Q & _); [done|]. unfold bind, RaftCluster.snapshot. rewrite E. by do 2 eexists.
  - exists None, w. split; [done|apply RaftCluster.quiet_refl].
Qed.

End owned.
End Owned.
