(* ===== verification/Settlement.v ===== *)
(** * The pipeline over its in-process cluster

    The coordinator's submitter proposes through the client of RaftCluster.v.
    What reaches the replicas' logs is then known: the entries of transactions
    that a worker has cleared, and nothing else. *)

From stdpp Require Import base gmap strings list.
From Stdlib Require Import ZArith SpecFloat Lia.
From S2P Require Import Prelude PyDecimal PyFloat Models StateMachine Ledger Submitter.
From S2P Require Import RaftTypes Storage Transport RaftNode RaftSpec RaftInv RaftHistory Cluster RaftProps Runtime RaftCluster.
From S2P Require Import Broker Group Consumer Scorer Worker WorkerSystem Coordinator Verdicts.

Local Open Scope Z_scope.

(** ** The client's calls as operations on the cluster *)

Module Moves.
Section moves.
Context {C S : Type} {Hsm : StateMachine C S}.
Variables tmin tmax hb : float.
Variable ids : list string.
Variable others : nat → list (RaftCluster.Op C * RaftCluster.Draws).
Variable clock : nat → float.
Variable allowed : C → Prop.
Abbreviation ok := (λ op : RaftCluster.Op C * RaftCluster.Draws, RaftCluster.op_allowed allowed op.1).
Abbreviation run := (RaftCluster.run tmin tmax hb ids).
Hypothesis Hothers : ∀ k, Forall ok (others k).
Implicit Types w : RaftCluster.Client C S.

(** From [w] to [w'] only allowed commands were proposed. *)
Definition moved w w' : Prop :=
  ∃ ops, Forall ok ops ∧ RaftCluster.shared w' = run ops (RaftCluster.shared w).

Lemma elapsed_allowed n k : Forall ok (concat (others <$> seq k n)).
Proof. revert k. induction n as [|n IH]; intros k; [constructor|]. simpl. apply Forall_app. by split; [apply Hothers|]. Qed.

Lemma quiet_moved w w' : RaftCluster.quiet tmin tmax hb ids others w w' → moved w w'.
Proof. intros (n & E & _). eexists. split; [apply elapsed_allowed|exact E]. Qed.

Lemma propose_moved fuel c timeout w :
  (∀ n, RaftCluster.has_slots ids (RaftCluster.elapsed tmin tmax hb ids others n w)) → allowed c →
  moved w (RaftCluster.propose tmin tmax hb ids others clock fuel c timeout w).2.
Proof.
  intros Hs Hc. destruct (RaftCluster.propose_spec tmin tmax hb ids others clock fuel c timeout w Hs) as (r & w' & -> & R).
  destruct r as [e|x]; [|exact (quiet_moved _ _ (proj1 R))].
  destruct R as [(n & id & s & s' & _ & _ & _ & _ & E & _) _].
  exists (concat (others <$> seq (RaftCluster.accesses w) n) ++
    [(RaftCluster.ProposeAt id c (clock (RaftCluster.accesses w' - 1)), λ _ _ x _, x)]).
  split; [apply Forall_app; split; [apply elapsed_allowed|by apply Forall_singleton]|].
  simpl. rewrite E. unfold RaftCluster.run. by rewrite foldl_app.
Qed.
End moves.
End Moves.

(** ** The coordinator's runs *)

Module Settlement.
Section settlement.
Variables tmin tmax hb : float.
Variable ids : list string.
Hypothesis Hids : NoDup ids.
Variable w0 : Ledger.LedgerStateMachine.
Variable others : nat → list (RaftCluster.Op LedgerEntry * RaftCluster.Draws).
Variable clock : nat → float.
Variable fuel : nat.

Abbreviation Client := (RaftCluster.Client LedgerEntry Ledger.LedgerStateMachine).
#[local] Instance cluster_proposer : Proposer Client :=
  RaftCluster.proposer tmin tmax hb ids others clock fuel.

Abbreviation start := (RaftCluster.init (C := LedgerEntry) tmin tmax hb ids w0).
Abbreviation run_ops := (RaftCluster.run (S := Ledger.LedgerStateMachine) tmin tmax hb ids).
(** The client of the cluster before anything has run. *)
Definition new_client : Client := RaftCluster.mkClient start None 0.

(** The entry of a transaction that was scored, and cleared. *)
Definition cleared (out : list ScoredTransaction) (c : LedgerEntry) : Prop :=
  ∃ scored now, scored ∈ out ∧ fs_is_fraud (st_score scored) = false ∧ Submitter.entry_for (st_transaction scored) now = Ok c.

Abbreviation ok out := (λ op : RaftCluster.Op LedgerEntry * RaftCluster.Draws, RaftCluster.op_allowed (cleared out) op.1).

Lemma cleared_mono out out' c : out `prefix_of` out' → cleared out c → cleared out' c.
Proof. intros [k ->] (sc & now & Hin & H). exists sc, now. split; [|done]. apply elem_of_app. by left. Qed.

Lemma op_allowed_mono {C} (P Q : C → Prop) (op : RaftCluster.Op C) :
  (∀ c, P c → Q c) → RaftCluster.op_allowed P op → RaftCluster.op_allowed Q op.
Proof. destruct op; simpl; auto. Qed.

(** Nobody but the submitter proposes. *)
Definition silent (ops : list (RaftCluster.Op LedgerEntry * RaftCluster.Draws)) : Prop :=
  Forall (λ op, RaftCluster.op_allowed (λ _, False) op.1) ops.
Hypothesis Hothers : ∀ k, silent (others k).

Lemma silent_ok out ops : silent ops → Forall (ok out) ops.
Proof. intros Hs. eapply Forall_impl; [exact Hs|]. intros op. by apply op_allowed_mono. Qed.

(** The cluster has been through the proposals of cleared transactions. *)
Definition settles (out : list ScoredTransaction) (w : Client) : Prop :=
  ∃ ops, Forall (ok out) ops ∧ RaftCluster.shared w = run_ops ops start.

Lemma settles_mono out out' w : out `prefix_of` out' → settles out w → settles out' w.
Proof.
  intros Ho (ops & Hops & E). exists ops. split; [|done]. eapply Forall_impl; [exact Hops|].
  intros op. apply op_allowed_mono. intros c. by apply cleared_mono.
Qed.

Lemma settles_moved out w w' : Moves.moved tmin tmax hb ids (cleared out) w w' → settles out w → settles out w'.
Proof.
  intros (ops & Hops & E) (ops0 & Hops0 & E0). exists (ops0 ++ ops). split; [by apply Forall_app|].
  rewrite E, E0. unfold RaftCluster.run. by rewrite foldl_app.
Qed.

Lemma handle_settles out scored now (w : Submitter.World Client) :
  scored ∈ out → settles out (Submitter.cluster w) → settles out (Submitter.cluster (Submitter.handle scored now w).2).
Proof.
  intros Hin Hs. destruct (fs_is_fraud (st_score scored)) eqn:Hf; [by rewrite Submitter.handle_flagged|].
  destruct (Submitter.entry_for (st_transaction scored) now) as [entry|x] eqn:He.
  2: { unfold Submitter.handle, bind, lift. by rewrite Hf, He. }
  pose proof (Submitter.handle_cleared scored now w entry Hf He) as Hc.
  assert (Hm : settles out (cluster_propose entry (Submitter.propose_timeout (Submitter.submitter w)) (Submitter.cluster w)).2).
  { eapply settles_moved; [|exact Hs]. unfold cluster_propose, cluster_proposer, RaftCluster.proposer, bind.
    destruct Hs as (ops & _ & E).
    pose proof (Moves.propose_moved tmin tmax hb ids others clock (cleared out)) as Hp.
    specialize (Hp (λ k, silent_ok out _ (Hothers k)) fuel entry (Submitter.propose_timeout (Submitter.submitter w)) (Submitter.cluster w)).
    destruct (RaftCluster.propose _ _ _ _ _ _ _ _ _ _) as [[e|x] w']; (apply Hp; [|by exists scored, now]);
      intros n id Hid; unfold RaftCluster.elapsed; rewrite E; unfold RaftCluster.run; rewrite <- foldl_app;
      by apply RaftCluster.history_slots. }
  destruct (cluster_propose _ _ _) as [r c]. rewrite Hc. by destruct r as [|[]].
Qed.

Lemma turn_settles now (c : Coordinator.Coordinator Client) taken :
  Coordinator.accounted c taken → settles (WorkerSystem.emitted (Coordinator.pipeline c)) (Coordinator.raft_cluster c) →
  settles (WorkerSystem.emitted (Coordinator.pipeline c)) (Coordinator.raft_cluster (Coordinator.submitter_turn now c)).
Proof.
  intros [_ Hh _ _] Hs. unfold Coordinator.submitter_turn. destruct (Coordinator.submitting c); [|done].
  cbn [Submitter.run]. unfold bind at 1, get. cbn [Submitter.input_queue].
  destruct (Queue.items (WorkerSystem.queue (Coordinator.pipeline c))) as [|scored rest] eqn:Eq; [done|].
  unfold bind, modify, ret. cbn [Submitter.submitter Submitter.cluster].
  set (w := Submitter.mkWorld _ rest _).
  pose proof (handle_settles (WorkerSystem.emitted (Coordinator.pipeline c)) scored now w) as Hhs.
  destruct (Submitter.handle scored now w) as [[[]|x] w'] eqn:E; simpl; apply Hhs; try done;
    unfold WorkerSystem.history in Hh; rewrite Hh, Eq; apply elem_of_app; right; left.
Qed.

Lemma exec_settles e c taken :
  Coordinator.accounted c taken → settles (WorkerSystem.emitted (Coordinator.pipeline c)) (Coordinator.raft_cluster c) →
  settles (WorkerSystem.emitted (Coordinator.pipeline (Coordinator.exec e c))) (Coordinator.raft_cluster (Coordinator.exec e c)).
Proof.
  intros Ha Hs. eapply settles_mono; [apply Coordinator.exec_emitted|].
  pose proof (Coordinator.exec_stepped e c) as He.
  destruct e; try (by destruct He as (s & _ & [_ _ _ -> _])); [exact Hs|]. by eapply turn_settles.
Qed.

(** What holds of the coordinator at every point of a run, [cfg] being the
    configuration its workers score with. *)
Record running (cfg : Scorer.ScorerConfig) (Q : Transaction → Prop) (c : Coordinator.Coordinator Client) : Prop := mkRunning {
  run_accounted : ∃ taken, Coordinator.accounted c taken;
  run_sourced : WorkerSystem.sourced Q (Coordinator.pipeline c);
  run_settles : settles (WorkerSystem.emitted (Coordinator.pipeline c)) (Coordinator.raft_cluster c);
  run_config : default Scorer.default_config (Coordinator.scorer_config c) = cfg;
  run_judging : Verdicts.judging cfg (Coordinator.pipeline c)
}.

Lemma run_running cfg Q es : ∀ c, Forall Coordinator.no_start es → Forall (Coordinator.submits Q) es → running cfg Q c →
  running cfg Q (Coordinator.run es c).
Proof.
  induction es as [|e es IH]; intros c Hns Hq Hr; [done|]. apply Forall_cons in Hns as [He Hns]. apply Forall_cons in Hq as [Hqe Hq].
  apply IH; [done|done|]. destruct Hr as [(taken & Ha) Hso Hse Hc Hj]. split.
  - by eapply Coordinator.exec_accounted.
  - apply Coordinator.exec_sourced; [by destruct Ha|done|done].
  - by eapply exec_settles.
  - by rewrite Verdicts.exec_config.
  - subst cfg. by apply Verdicts.exec_judging.
Qed.

Lemma start_running Q num k timeout config ptimeout c now :
  Coordinator.init num k timeout config ptimeout new_client = Ok c →
  running (default Scorer.default_config config) Q (Coordinator.exec (Coordinator.Start now) c).
Proof.
  intros Hi. pose proof (Coordinator.start_accounted num k timeout config ptimeout new_client c now Hi) as Ha.
  pose proof (Verdicts.coordinator_judging num k timeout config ptimeout new_client c [Coordinator.Start now] Hi) as Hj.
  revert Hi. unfold Coordinator.init. destruct (Broker.init "transactions" num) as [log|] eqn:El; [|done]. simpl.
  destruct (Group.init _ _ _) as [g|]; [|done]. intros Ec. split; [by eexists| | | |exact Hj].
  - apply (Coordinator.exec_sourced Q (Coordinator.Start now) c); [|exact I|].
    + injection Ec as <-. by eapply WorkerSystem.system_init_ok.
    + injection Ec as <-. by eapply WorkerSystem.init_sourced.
  - injection Ec as <-. exists []. by split.
  - by injection Ec as <-.
Qed.

(** ** What the replicas hold *)

(** The cluster is at a point of a run of the protocol in which only entries of
    cleared transactions were proposed, also after it has gone on. *)
Lemma settles_point out w tail : settles out w → silent tail →
  ∃ G, Cluster.refines ids w0 (cleared out) (RaftCluster.cluster (run_ops tail (RaftCluster.shared w))) G ∧
    Inv.inv (list_to_set ids) G.
Proof.
  intros (ops & Hops & E) Ht.
  destruct (RaftCluster.ops_events tmin tmax hb ids (cleared out) (ops ++ tail))
    with (rc := RaftCluster.init (C := LedgerEntry) tmin tmax hb ids w0) as (evs & Hev & Ec).
  { apply Forall_app. split; [done|by apply silent_ok]. }
  { apply RaftCluster.init_named. }
  rewrite E. unfold RaftCluster.run in Ec |- *. rewrite foldl_app in Ec. rewrite Ec.
  by apply (one_point tmin tmax hb ids Hids w0 Net.init Net.queued_init).
Qed.

(** Every entry of a replica's log, and every entry its ledger was ever handed,
    is that of a cleared transaction. *)
Lemma settled_replica out w tail id s : settles out w → silent tail →
  Cluster.slots (RaftCluster.cluster (run_ops tail (RaftCluster.shared w))) !! id = Some s →
  Forall (cleared out) (History.cmds (Storage.entries (Cluster.slot_storage s))) ∧
  ∃ h, Cluster.slot_machine s = sm_effects h w0 ∧ Forall (cleared out) h.
Proof.
  intros Hs Ht Hid. destruct (settles_point out w tail Hs Ht) as (G & Hf & HI).
  destruct (slot_anode _ _ _ _ _ _ _ Hf Hid) as (h & Hm & Hv).
  pose proof (Cluster.f_reachable _ _ _ _ _ Hf) as Hr. pose proof (History.valid_reachable _ _ _ Hr) as Hval.
  split.
  - pose proof (History.v_log _ _ Hval id) as Hl. rewrite Hv in Hl. unfold History.cmds. by apply Forall_fmap.
  - exists h. split; [done|]. destruct (History.history_reachable _ _ _ Hr id) as (ps & Eh & Hps). rewrite Hv in Eh. simpl in Eh.
    rewrite Eh. apply Forall_app. split.
    + apply Forall_concat. eapply Forall_impl; [exact Hps|]. intros p. by apply History.committed_cmds_allowed.
    + eapply History.committed_cmds_allowed; [exact Hval|]. by apply History.current_run_committed.
Qed.

(** An invariant of the ledger under the entries of cleared transactions holds
    on every replica. *)
Lemma replica_invariant (I : Ledger.LedgerStateMachine → Prop) out w tail id s :
  I w0 → (∀ c m, cleared out c → I m → I (Ledger.apply c m).2) → settles out w → silent tail →
  Cluster.slots (RaftCluster.cluster (run_ops tail (RaftCluster.shared w))) !! id = Some s → I (Cluster.slot_machine s).
Proof.
  intros H0 Hstep Hs Ht Hid. destruct (settled_replica out w tail id s Hs Ht Hid) as (_ & h & -> & Hall).
  revert H0. generalize w0. induction Hall as [|c h Hc _ IH]; intros m Hm; [done|].
  unfold sm_effects. simpl. apply IH. rewrite Ledger.sm_apply_eq. by apply Hstep.
Qed.

(** The transactions the ledger is exact on: finite amounts, multiples of
    [10^e], of at most [D] units and 28 digits. *)
Definition payable (e D : Z) (tx : Transaction) : Prop :=
  ∃ k x, tx_amount tx = DFin k x ∧ 0 < k < 10 ^ Dec.prec ∧ e ≤ x ≤ Dec.Etop ∧ k * 10 ^ (x - e) ≤ D.

Lemma cleared_bounded e D out c : Dec.Etiny ≤ e ≤ 0 →
  Forall (λ sc, payable e D (st_transaction sc)) out → cleared out c →
  Dec.fits e (le_delta c) ∧ Z.abs (Dec.units e (le_delta c)) ≤ D.
Proof.
  intros He Hall (sc & now & Hin & _ & Hc). rewrite Forall_forall in Hall.
  destruct (Hall sc Hin) as (k & x & Ha & Hk & Hx & HD).
  rewrite (Submitter.entry_for_exact _ now k x Ha Hk ltac:(lia)) in Hc. injection Hc as <-. simpl. split; [lia|].
  pose proof (Dec.pow10_pos (x - e) ltac:(lia)). case_bool_decide; nia.
Qed.

End settlement.
End Settlement.
