(* ===== verification/PyText.v ===== *)
(** * Text: the string methods and the number literals of Python

    [str.split], [str.strip], [str.partition] and dictionaries in insertion
    order, and what [int] and [Decimal] make of a string.  A string is handled
    as the list of its characters, with the whitespace and the digits of
    ASCII. *)

From stdpp Require Import base list strings pretty.
From Stdlib Require Import ZArith Ascii String Lia.
From S2P Require Import Prelude PyDecimal.

Module PyText.

(** ** [str.split], [str.strip] and [str.partition] *)

Abbreviation chars := (list ascii).
Definition comma : ascii := ","%char.
Definition equals : ascii := "="%char.

Fixpoint split (sep : ascii) (s : chars) : list chars :=
  match s with
  | [] => [[]]
  | c :: s =>
      if decide (c = sep) then [] :: split sep s
      else match split sep s with
           | piece :: pieces => (c :: piece) :: pieces
           | [] => [[c]]
           end
  end.

(** Tab to carriage return, the four separators, and space. *)
Definition is_space (c : ascii) : bool :=
  let n := nat_of_ascii c in
  ((9 <=? n) && (n <=? 13) || (28 <=? n) && (n <=? 32))%nat.

Fixpoint lstrip (s : chars) : chars :=
  match s with
  | c :: s' => if is_space c then lstrip s' else s
  | [] => []
  end.
Definition strip (s : chars) : chars := reverse (lstrip (reverse (lstrip s))).

(** Before and after the first separator; nothing after when there is none. *)
Fixpoint partition (sep : ascii) (s : chars) : chars * chars :=
  match s with
  | [] => ([], [])
  | c :: s =>
      if decide (c = sep) then ([], s)
      else let '(before, after) := partition sep s in (c :: before, after)
  end.

(** [d[key] = value] of a dict in insertion order. *)
Fixpoint dict_set {V} (key : string) (value : V) (d : list (string * V)) : list (string * V) :=
  match d with
  | [] => [(key, value)]
  | (k, v) :: d => if decide (k = key) then (k, value) :: d else (k, v) :: dict_set key value d
  end.

Definition spaces (s : chars) : Prop := Forall (λ c, is_space c = true) s.

(** [",".join(pieces)] *)
Fixpoint join (sep : ascii) (pieces : list chars) : chars :=
  match pieces with
  | [] => []
  | [p] => p
  | p :: ps => p ++ sep :: join sep ps
  end.

Lemma split_piece sep p : sep ∉ p → split sep p = [p].
Proof.
  induction p as [|c p IH]; [done|]. intros Hs. simpl. rewrite decide_False by (intros ->; apply Hs; left).
  rewrite IH; [done|]. intros Hp. apply Hs. by right.
Qed.

Lemma split_app sep p s : sep ∉ p → split sep (p ++ sep :: s) = p :: split sep s.
Proof.
  induction p as [|c p IH]; intros Hs; simpl; [by rewrite decide_True|].
  rewrite decide_False by (intros ->; apply Hs; left). rewrite IH; [done|]. intros Hp. apply Hs. by right.
Qed.

Lemma split_join sep pieces : pieces ≠ [] → Forall (λ p, sep ∉ p) pieces → split sep (join sep pieces) = pieces.
Proof.
  induction pieces as [|p ps IH]; [done|]. intros _ [Hp Hps]%Forall_cons. destruct ps as [|q ps]; [by apply split_piece|].
  cbn [join]. rewrite split_app by done. f_equal. by apply IH.
Qed.

Lemma lstrip_spaces pre s : spaces pre → lstrip (pre ++ s) = lstrip s.
Proof. induction 1 as [|c pre Hc _ IH]; [done|]. simpl. by rewrite Hc. Qed.

Lemma lstrip_first s : (∀ c, head s = Some c → is_space c = false) → lstrip s = s.
Proof. destruct s as [|c s]; [done|]. intros Hs. simpl. by rewrite (Hs c). Qed.

Lemma strip_padded pre s post :
  spaces pre → spaces post → (∀ c, head s = Some c → is_space c = false) → (∀ c, last s = Some c → is_space c = false) →
  s ≠ [] → strip (pre ++ s ++ post) = s.
Proof.
  intros Hpre Hpost Hf Hl Hs. unfold strip. rewrite lstrip_spaces by done.
  rewrite (lstrip_first (s ++ post)) by (intros c; rewrite head_app; destruct s; [done|]; apply Hf).
  rewrite reverse_app, lstrip_spaces by (by apply Forall_reverse).
  rewrite lstrip_first; [apply reverse_involutive|]. intros c. rewrite head_reverse. apply Hl.
Qed.

Lemma partition_at sep p s : sep ∉ p → partition sep (p ++ sep :: s) = (p, s).
Proof.
  induction p as [|c p IH]; intros Hs; simpl; [by rewrite decide_True|].
  rewrite decide_False by (intros ->; apply Hs; left). rewrite IH; [done|]. intros Hp. apply Hs. by right.
Qed.

Lemma dict_set_fresh {V} k (v : V) d : k ∉ d.*1 → dict_set k v d = d ++ [(k, v)].
Proof.
  induction d as [|[k' v'] d IH]; intros Hk; [done|]. simpl in *. rewrite decide_False by (intros ->; apply Hk; left).
  rewrite IH; [done|]. intros Hd. apply Hk. by right.
Qed.

(** What no whitespace is does not occur in whitespace. *)
Lemma spaces_avoid c s : is_space c = false → spaces s → c ∉ s.
Proof. intros Hc Hs Hin. unfold spaces in Hs. rewrite Forall_forall in Hs. specialize (Hs _ Hin). congruence. Qed.

Local Open Scope Z_scope.

(** ** Numbers in text *)

Definition digit (c : ascii) : option Z :=
  let n := Z.of_nat (nat_of_ascii c) in if (48 <=? n) && (n <=? 57) then Some (n - 48) else None.
Definition digits (s : chars) : option (list Z) := mapM digit s.
Definition number (ds : list Z) : Z := foldl (λ n d, 10 * n + d) 0 ds.

(** An optional sign: whether it is a minus, and what follows. *)
Definition signed (s : chars) : bool * chars :=
  match s with
  | c :: s' => if decide (c = "-"%char) then (true, s') else if decide (c = "+"%char) then (false, s') else (false, s)
  | [] => (false, [])
  end.
Definition with_sign (negative : bool) (n : Z) : Z := if negative then - n else n.

(** The digits of an integer literal: single underscores may stand between
    them. *)
Fixpoint int_digits (s : chars) : option (list Z) :=
  match s with
  | [] => None
  | c :: s =>
      d ← digit c;
      match s with
      | [] => Some [d]
      | u :: s' => ds ← (if decide (u = "_"%char) then int_digits s' else int_digits s); Some (d :: ds)
      end
  end.

Definition invalid_literal : exn := ValueError "invalid literal for int() with base 10".
(** [sys.get_int_max_str_digits()] *)
Definition max_str_digits : nat := Z.to_nat 4300.

(** [int(value)] *)
Definition int_of (value : chars) : res Z :=
  let '(negative, s) := signed (strip value) in
  match int_digits s with
  | None => Raise invalid_literal
  | Some ds =>
      if bool_decide (max_str_digits < List.length ds)%nat
      then Raise (ValueError "Exceeds the limit for integer string conversion")
      else Ok (with_sign negative (number ds))
  end.

(** The largest and the smallest exponents of any [Decimal]. *)
Definition MAX_EMAX : Z := 999999999999999999.
Definition MIN_ETINY : Z := - MAX_EMAX - (MAX_EMAX - 1).

(** A constructor does not round: what no [Decimal] is exactly is refused. *)
Definition exact (c e : Z) : res Decimal :=
  if c =? 0 then Ok (DFin 0 (Z.max MIN_ETINY (Z.min e MAX_EMAX)))
  else if (MAX_EMAX <? e + Dec.ndigits (Z.abs c) - 1) || (e <? MIN_ETINY) then Raise InvalidOperation
  else Ok (DFin c e).

Definition lower (c : ascii) : ascii :=
  let n := nat_of_ascii c in if ((65 <=? n) && (n <=? 90))%nat then ascii_of_nat (n + 32) else c.

(** What stands before the first [sep], and after it when there is one. *)
Fixpoint split_at (sep : ascii) (s : chars) : chars * option chars :=
  match s with
  | [] => ([], None)
  | c :: s =>
      if decide (c = sep) then ([], Some s)
      else let '(before, after) := split_at sep s in (c :: before, after)
  end.

Definition text (s : string) : chars := list_ascii_of_string s.

(** [digits [. digits]] or [. digits], then an optional exponent. *)
Definition finite_literal (negative : bool) (s : chars) : option (Z * Z) :=
  let '(mantissa, exponent) := split_at "e"%char s in
  let '(whole, fraction) := split_at "."%char mantissa in
  let frac := default [] fraction in
  ds ← digits (whole ++ frac);
  x ← match exponent with
      | None => Some 0
      | Some e =>
          let '(minus, e) := signed e in
          es ← digits e;
          if decide (es = []) then None else Some (with_sign minus (number es))
      end;
  if decide (ds = []) then None else Some (with_sign negative (number ds), x - zlen frac).

(** [nan] or [snan], and a payload.  Signalling and payload are not
    represented. *)
Definition is_nan_literal (s : chars) : bool :=
  let s := match s with c :: s' => if decide (c = "s"%char) then s' else s | [] => s end in
  bool_decide (take 3 s = text "nan") && match digits (drop 3 s) with Some _ => true | None => false end.

(** [Decimal(value)] of a string *)
Definition Decimal_of (value : chars) : res Decimal :=
  let '(negative, s) := signed (filter (λ c, c ≠ "_"%char) (strip value)) in
  let s := lower <$> s in
  if bool_decide (s = text "inf") || bool_decide (s = text "infinity") then Ok (DInf negative)
  else if is_nan_literal s then Ok DNaN
  else match finite_literal negative s with
       | Some (c, e) => exact c e
       | None => Raise InvalidOperation
       end.

(** ** Numbers printed and read back *)

(** [str(n)] of a natural number *)
Definition digits_text (n : N) : chars := text (pretty n).

(** [c * 10^-p] with [p] digits after the point, as in [99.50] and [-0.05]. *)
Definition fixed (c : Z) (p : nat) : chars :=
  let s := digits_text (Z.to_N (Z.abs c)) in
  let s := replicate (p + 1 - List.length s) "0"%char ++ s in
  let whole := take (List.length s - p) s in
  let frac := drop (List.length s - p) s in
  (if c <? 0 then ["-"%char] else []) ++ whole ++ (if decide (p = O) then [] else "."%char :: frac).

Abbreviation is_digit := (λ c, is_Some (digit c)).
Abbreviation horner := (foldl (λ n d, 10 * n + d)).

(** What no number literal treats specially. *)
Record plain (c : ascii) : Prop := {
  pl_space : is_space c = false;
  pl_underscore : c ≠ "_"%char;
  pl_lower : lower c = c
}.

Lemma digit_plain c : is_digit c → plain c.
Proof.
  intros [d Hd]. revert Hd. destruct c as [[] [] [] [] [] [] [] []]; vm_compute; try discriminate; intros _; by split.
Qed.

Lemma digits_are_plain s : Forall is_digit s → Forall plain s.
Proof. intros Hs. eapply Forall_impl; [exact Hs|]. apply digit_plain. Qed.

Lemma minus_plain (negative : bool) : Forall plain (if negative then ["-"%char] else []).
Proof. destruct negative; repeat constructor; done. Qed.

Lemma digit_not c x : digit x = None → is_digit c → c ≠ x.
Proof. by intros Hx [d Hd] ->; rewrite Hx in Hd. Qed.

Lemma digits_Forall s ds : digits s = Some ds → Forall is_digit s.
Proof. intros Hs. apply mapM_is_Some_1. by exists ds. Qed.

Lemma digits_app s t ds es : digits s = Some ds → digits t = Some es → digits (s ++ t) = Some (ds ++ es).
Proof. unfold digits. intros Hs Ht. apply mapM_Some in Hs, Ht. apply mapM_Some. by apply Forall2_app. Qed.

Lemma digits_zeros k s ds : digits s = Some ds → digits (replicate k "0"%char ++ s) = Some (replicate k 0 ++ ds).
Proof. intros Hs. apply digits_app; [|done]. apply mapM_Some. induction k; simpl; constructor; done. Qed.

Lemma number_zeros k ds : number (replicate k 0 ++ ds) = number ds.
Proof. unfold number. rewrite foldl_app. f_equal. by induction k. Qed.

Lemma digit_pretty n : (n < 10)%N → digit (pretty_N_char n) = Some (Z.of_N n).
Proof.
  intros Hn. assert (n = 0 ∨ n = 1 ∨ n = 2 ∨ n = 3 ∨ n = 4 ∨ n = 5 ∨ n = 6 ∨ n = 7 ∨ n = 8 ∨ n = 9)%N as H by lia.
  repeat destruct H as [->|H]; try reflexivity. by subst.
Qed.

Lemma pretty_go_digits n : ∀ s ds, digits (text s) = Some ds →
  ∃ ds', digits (text (pretty_N_go n s)) = Some ds' ∧ number ds' = horner (Z.of_N n) ds ∧ (ds = [] → n ≠ 0%N → ds' ≠ []).
Proof.
  induction (N.lt_wf_0 n) as [n _ IH]. intros s ds Hs.
  destruct (decide (n = 0)%N) as [->|Hn]; [rewrite pretty_N_go_0; by exists ds|].
  rewrite pretty_N_go_step by lia.
  destruct (IH (n `div` 10)%N ltac:(apply N.div_lt; lia) (String (pretty_N_char (n `mod` 10)) s) (Z.of_N (n `mod` 10)%N :: ds))
    as (ds' & Hd & Hv & _).
  { change (digits (pretty_N_char (n `mod` 10) :: text s) = Some (Z.of_N (n `mod` 10)%N :: ds)). unfold digits in *. simpl.
    rewrite digit_pretty by (apply N.mod_lt; lia). simpl. by rewrite Hs. }
  exists ds'. split; [done|]. simpl in Hv. rewrite N2Z.inj_div, N2Z.inj_mod in Hv.
  change (Z.of_N 10) with 10 in Hv. rewrite <- Z.div_mod in Hv by lia. split; [done|]. intros -> _ ->. simpl in Hv.
  unfold number in Hv. simpl in Hv. lia.
Qed.

Lemma digits_text_value n : ∃ ds, digits (digits_text n) = Some ds ∧ number ds = Z.of_N n ∧ ds ≠ [].
Proof.
  unfold digits_text, pretty, pretty_N. case_decide as Hn; [subst; by exists [0]|].
  destruct (pretty_go_digits n "" [] eq_refl) as (ds & Hd & Hv & Hne). exists ds. split; [done|]. split; [done|]. by apply Hne.
Qed.

Lemma plain_strip s : Forall plain s → strip s = s.
Proof.
  intros Hs. assert (Hf : ∀ l, Forall plain l → lstrip l = l).
  { intros l Hl. apply lstrip_first. intros c Hc. destruct Hl as [|x l Hx _]; [done|]. injection Hc as <-. apply Hx. }
  unfold strip. rewrite (Hf s) by done. rewrite Hf by (by apply Forall_reverse). apply reverse_involutive.
Qed.

Lemma plain_clean s : Forall plain s → lower <$> filter (λ c, c ≠ "_"%char) s = s.
Proof.
  induction 1 as [|c s Hc _ IH]; [done|]. rewrite filter_cons_True by apply Hc. cbn [fmap list_fmap].
  by rewrite IH, (pl_lower c Hc).
Qed.

Lemma split_at_none sep s : sep ∉ s → split_at sep s = (s, None).
Proof.
  induction s as [|c s IH]; [done|]. intros [Hc Hs]%not_elem_of_cons. simpl. rewrite decide_False by done. by rewrite IH.
Qed.
Lemma split_at_some sep s t : sep ∉ s → split_at sep (s ++ sep :: t) = (s, Some t).
Proof.
  induction s as [|c s IH]; [simpl; by rewrite decide_True|]. intros [Hc Hs]%not_elem_of_cons. simpl.
  rewrite decide_False by done. by rewrite IH.
Qed.

Lemma digits_avoid x s : digit x = None → Forall is_digit s → x ∉ s.
Proof. intros Hx Hs Hin. rewrite Forall_forall in Hs. by destruct (digit_not x x Hx (Hs x Hin)). Qed.

(** Digits, perhaps with a point inside, and no exponent. *)
Lemma finite_literal_point (negative : bool) (whole frac : chars) ds (p : nat) :
  digits (whole ++ frac) = Some ds → ds ≠ [] → p = List.length frac →
  finite_literal negative (whole ++ (if decide (p = O) then [] else "."%char :: frac)) =
    Some (with_sign negative (number ds), - Z.of_nat p).
Proof.
  intros Hd Hne ->. pose proof (digits_Forall _ _ Hd) as [Hw Hf]%Forall_app. unfold finite_literal.
  rewrite split_at_none.
  2: { rewrite elem_of_app. intros [Hin|Hin]; [by apply (digits_avoid "e"%char) in Hin|]. case_decide; [by inversion Hin|].
    apply elem_of_cons in Hin as [Hin|Hin]; [done|]. by apply (digits_avoid "e"%char) in Hin. }
  case_decide as Hp.
  - apply nil_length_inv in Hp as ->. rewrite !app_nil_r in *. rewrite split_at_none by (by apply digits_avoid).
    cbn [default from_option]. rewrite app_nil_r, Hd. simpl. by rewrite decide_False.
  - rewrite split_at_some by (by apply digits_avoid). cbn [default from_option]. unfold id. rewrite Hd. simpl.
    by rewrite decide_False.
Qed.

(** A literal that starts with a digit after its sign is a number. *)
Lemma Decimal_of_number negative c0 body : is_digit c0 → Forall plain (c0 :: body) →
  Decimal_of ((if negative : bool then ["-"%char] else []) ++ c0 :: body) =
    match finite_literal negative (c0 :: body) with Some (c, e) => exact c e | None => Raise InvalidOperation end.
Proof.
  intros H0 Hb. unfold Decimal_of. rewrite plain_strip by (apply Forall_app; split; [by apply minus_plain|done]).
  assert (Hm : ∀ x, digit x = None → c0 ≠ x) by (intros x Hx; by apply digit_not).
  assert (E : signed (filter (λ c, c ≠ "_"%char) ((if negative then ["-"%char] else []) ++ c0 :: body)) =
              (negative, filter (λ c, c ≠ "_"%char) (c0 :: body))).
  { rewrite filter_app. pose proof (Forall_inv Hb) as Hc. destruct negative; [reflexivity|]. simpl app.
    rewrite filter_cons_True by apply Hc. simpl. by rewrite !decide_False by (by apply Hm). }
  rewrite E, plain_clean by done.
  rewrite !bool_decide_false by (intros Heq; injection Heq as Heq _; revert Heq; by apply Hm). cbn [orb].
  assert (En : is_nan_literal (c0 :: body) = false).
  { unfold is_nan_literal. rewrite decide_False by (by apply Hm). rewrite bool_decide_false; [done|].
    intros Heq. cbn [take] in Heq. injection Heq as Heq _. revert Heq. by apply Hm. }
  by rewrite En.
Qed.

(** [Decimal] reads back what [fixed] prints, up to the exponents a context
    can have. *)
Lemma fixed_round_trip c p : Z.abs c < 10 ^ Dec.prec → Z.of_nat p ≤ - Dec.Etiny →
  Decimal_of (fixed c p) = Ok (DFin c (- Z.of_nat p)).
Proof.
  intros Hc Hp. unfold fixed. destruct (digits_text_value (Z.to_N (Z.abs c))) as (ds & Hd & Hv & Hne).
  rewrite Z2N.id in Hv by lia. set (t := digits_text _) in *.
  set (k := (p + 1 - List.length t)%nat). set (s := replicate k _ ++ t).
  assert (Hs : digits s = Some (replicate k 0 ++ ds)) by (by apply digits_zeros).
  assert (Hlen : (p < List.length s)%nat) by (unfold s; rewrite length_app, length_replicate; lia).
  set (whole := take _ s). set (frac := drop _ s).
  assert (Hfrac : p = List.length frac) by (unfold frac; rewrite length_drop; lia).
  rewrite <- (take_drop (List.length s - p) s) in Hs. fold whole frac in Hs.
  pose proof (digits_Forall _ _ Hs) as [Hwd Hfd]%Forall_app.
  destruct whole as [|c0 whole'] eqn:Ew.
  { apply (f_equal List.length) in Ew. unfold whole in Ew. rewrite length_take in Ew. simpl in Ew. lia. }
  pose proof (finite_literal_point (c <? 0) (c0 :: whole') frac _ p Hs ltac:(by destruct ds, k) Hfrac) as Hfin.
  rewrite <- app_comm_cons in *. rewrite Decimal_of_number.
  - rewrite Hfin, number_zeros, Hv. unfold with_sign, exact.
    replace (if c <? 0 then - Z.abs c else Z.abs c) with c by (destruct (Z.ltb_spec c 0); lia).
    unfold Dec.Etiny, Dec.Emin, Dec.prec, MIN_ETINY, MAX_EMAX in *. destruct (Z.eqb_spec c 0) as [->|Hc0].
    + do 2 f_equal. lia.
    + pose proof (Dec.ndigits_le (Z.abs c) 28 ltac:(lia) Hc ltac:(lia)).
      by rewrite !(proj2 (Z.ltb_ge _ _)) by lia.
  - by apply Forall_inv in Hwd.
  - rewrite app_comm_cons. apply Forall_app. split; [by apply digits_are_plain|].
    case_decide; constructor; [by split|by apply digits_are_plain].
Qed.

(** What is printed is not empty and has no character of a list in it. *)
Lemma fixed_plain c p : fixed c p ≠ [] ∧ Forall plain (fixed c p) ∧ comma ∉ fixed c p.
Proof.
  unfold fixed. destruct (digits_text_value (Z.to_N (Z.abs c))) as (ds & Hd & _). set (t := digits_text _) in *.
  set (k := (p + 1 - List.length t)%nat). pose proof (digits_zeros k t ds Hd) as Hs. set (s := replicate k _ ++ t) in *.
  assert (Hlen : (p < List.length s)%nat) by (unfold s; rewrite length_app, length_replicate; lia).
  pose proof (digits_Forall _ _ Hs) as Hall. rewrite <- (take_drop (List.length s - p) s) in Hall.
  apply Forall_app in Hall as [Hw Hf]. split; [|split].
  - intros [_ [E _]%app_eq_nil]%app_eq_nil. apply (f_equal List.length) in E. rewrite length_take in E. simpl in E. lia.
  - apply Forall_app. split; [apply minus_plain|]. apply Forall_app. split; [by apply digits_are_plain|].
    case_decide; constructor; [by split|by apply digits_are_plain].
  - rewrite !elem_of_app. intros [H|[H|H]].
    + destruct (c <? 0); [by apply list_elem_of_singleton in H|by inversion H].
    + by apply (digits_avoid comma) in H.
    + case_decide; [by inversion H|]. apply elem_of_cons in H as [H|H]; [done|]. by apply (digits_avoid comma) in H.
Qed.

(** A text of a natural number is read as a whole number, by [Decimal] and by
    [int]. *)
Lemma fixed_natural n : fixed (Z.of_N n) 0 = digits_text n.
Proof.
  unfold fixed. rewrite Z.abs_eq, N2Z.id, (proj2 (Z.ltb_ge _ _)) by lia. destruct (digits_text_value n) as (ds & Hd & _ & Hne).
  assert (Hl : (1 ≤ List.length (digits_text n))%nat).
  { destruct (digits_text n); [|simpl; lia]. injection Hd as <-. done. }
  replace (0 + 1 - List.length (digits_text n))%nat with 0%nat by lia. simpl.
  by rewrite Nat.sub_0_r, take_ge, app_nil_r.
Qed.

Lemma Decimal_of_natural n : Z.of_N n < 10 ^ Dec.prec → Decimal_of (digits_text n) = Ok (DFin (Z.of_N n) 0).
Proof. intros Hn. rewrite <- fixed_natural. apply (fixed_round_trip (Z.of_N n) 0); [lia|vm_compute; discriminate]. Qed.

Lemma int_digits_of s ds : digits s = Some ds → ds ≠ [] → int_digits s = Some ds.
Proof.
  revert ds. induction s as [|c s IH]; intros ds Hs Hne; [by injection Hs as <-|].
  unfold digits in Hs. simpl in Hs. apply bind_Some in Hs as (d & Hd & Hs). apply bind_Some in Hs as (ds' & Hs & [= <-]).
  cbn [int_digits]. rewrite Hd. simpl. destruct s as [|u s]; [by injection Hs as <-|].
  pose proof (digits_Forall _ _ Hs) as Hu%Forall_inv. rewrite decide_False by (by apply digit_not).
  rewrite (IH ds' Hs); [done|]. intros ->. by apply length_mapM in Hs.
Qed.

Lemma int_round_trip negative n : (List.length (digits_text n) ≤ max_str_digits)%nat →
  int_of ((if negative : bool then ["-"%char] else []) ++ digits_text n) = Ok (with_sign negative (Z.of_N n)).
Proof.
  intros Hlen. destruct (digits_text_value n) as (ds & Hd & Hv & Hne). pose proof (digits_Forall _ _ Hd) as Hall.
  unfold int_of. rewrite plain_strip.
  2: { apply Forall_app. split; [by apply minus_plain|by apply digits_are_plain]. }
  assert (E : signed ((if negative then ["-"%char] else []) ++ digits_text n) = (negative, digits_text n)).
  { destruct negative; [done|]. simpl. destruct Hall as [|c l Hc _]; [done|]. simpl.
    by rewrite !decide_False by (by apply digit_not). }
  rewrite E, (int_digits_of _ ds) by done. rewrite bool_decide_false; [by rewrite Hv|].
  pose proof (length_mapM _ _ _ Hd). lia.
Qed.

End PyText.
