(* ===== verification/EntryPoint.v ===== *)
(** * The configuration of the containers (docker/raft_node_entrypoint.py,
      docker/coordinator_entrypoint.py)

    How the entry points read the environment variables: the addresses of the
    other nodes, the seed balances, the numbers.  What the containers then run
    is in Containers.v. *)

From stdpp Require Import base gmap list strings.
From Stdlib Require Import ZArith Ascii String Lia.
From S2P Require Import Prelude PyDecimal PyText.

Module EntryPoint.
Import PyText.

(** ** [parse_address_map] *)

Fixpoint parse_pairs (pairs : list chars) (addresses : list (string * string)) : res (list (string * string)) :=
  match pairs with
  | [] => Ok addresses
  | piece :: pairs =>
      match strip piece with
      | [] => parse_pairs pairs addresses
      | c :: cs =>
          let '(node_id, address) := partition equals (c :: cs) in
          if bool_decide (node_id = []) || bool_decide (address = []) then Raise (ValueError "malformed address entry")
          else parse_pairs pairs (dict_set (string_of_list_ascii node_id) (string_of_list_ascii address) addresses)
      end
  end.

Definition parse (none_parsed : string) (value : string) : res (list (string * string)) :=
  res_bind (parse_pairs (split comma (list_ascii_of_string value)) []) (λ addresses,
    if bool_decide (addresses = []) then Raise (ValueError none_parsed) else Ok addresses).

(** The two entry points differ in the message. *)
Definition raft_node_parse_address_map : string → res (list (string * string)) := parse "no peer addresses parsed".
Definition coordinator_parse_address_map : string → res (list (string * string)) := parse "no raft addresses parsed".

(** ** [parse_balances] *)

Fixpoint parse_balance_pairs (pairs : list chars) (balances : gmap string Decimal) : res (gmap string Decimal) :=
  match pairs with
  | [] => Ok balances
  | piece :: pairs =>
      match strip piece with
      | [] => parse_balance_pairs pairs balances
      | c :: cs =>
          let '(account_id, amount) := partition equals (c :: cs) in
          (value <-? Decimal_of amount ;;
           parse_balance_pairs pairs (<[string_of_list_ascii account_id := value]> balances))%py
      end
  end.
Definition parse_balances (value : string) : res (gmap string Decimal) :=
  parse_balance_pairs (split comma (text value)) ∅.

(** ** What the two [main]s read from the environment *)

Abbreviation Environ := (gmap string string).
(** [os.environ[name]] and [os.environ.get(name, default)] *)
Definition environ (name : string) (env : Environ) : res string :=
  match env !! name with Some value => Ok value | None => Raise KeyError end.
Definition environ_get (name fallback : string) (env : Environ) : string := default fallback (env !! name).

Record NodeConfig := mkNodeConfig {
  node_id : string;
  listen_port : Z;
  peer_addresses : list (string * string);
  initial_balances : gmap string Decimal
}.

Definition raft_node_config (env : Environ) : res NodeConfig :=
  (id <-? environ "NODE_ID" env ;;
   port <-? environ "LISTEN_PORT" env ;;
   port <-? int_of (text port) ;;
   peers <-? environ "PEER_ADDRESSES" env ;;
   peers <-? raft_node_parse_address_map peers ;;
   balances <-? parse_balances (environ_get "INITIAL_BALANCES" "" env) ;;
   Ok (mkNodeConfig id port peers balances))%py.

Record CoordinatorConfig := mkCoordinatorConfig {
  raft_addresses : list (string * string);
  num_partitions : Z;
  num_fraud_workers : Z
}.

Definition coordinator_config (env : Environ) : res CoordinatorConfig :=
  (addresses <-? environ "RAFT_ADDRESSES" env ;;
   addresses <-? coordinator_parse_address_map addresses ;;
   partitions <-? int_of (text (environ_get "NUM_PARTITIONS" "4" env)) ;;
   workers <-? int_of (text (environ_get "NUM_FRAUD_WORKERS" "3" env)) ;;
   Ok (mkCoordinatorConfig addresses partitions workers))%py.

(** ** Reading back what is written in the documented format *)

(** An entry [id=address] with optional whitespace around it. *)
Record Entry := mkEntry { before : chars; node : chars; address : chars; after : chars }.
Definition core (e : Entry) : chars := node e ++ equals :: address e.
Definition written (e : Entry) : chars := before e ++ core e ++ after e.

Record entry_ok (e : Entry) : Prop := {
  eo_before : spaces (before e);
  eo_after : spaces (after e);
  eo_node : node e ≠ [];
  eo_address : address e ≠ [];
  eo_equals : equals ∉ node e;
  eo_comma : comma ∉ node e ++ address e;
  eo_first c : head (node e) = Some c → is_space c = false;
  eo_last c : last (address e) = Some c → is_space c = false
}.

Lemma strip_written e : entry_ok e → strip (written e) = core e.
Proof.
  intros He. apply strip_padded; try apply He.
  - intros c. unfold core. rewrite head_app. destruct (node e) eqn:E; [by apply He in E|]. intros [= <-].
    apply (eo_first e He). by rewrite E.
  - intros c. unfold core. rewrite last_app, last_cons.
    destruct (last (address e)) eqn:E; [intros [= <-]; by apply (eo_last e He)|].
    apply last_None in E. by apply He in E.
  - unfold core. by destruct (node e).
Qed.

Definition binding (e : Entry) : string * string := (string_of_list_ascii (node e), string_of_list_ascii (address e)).

Lemma parse_entries es : ∀ d, Forall entry_ok es → NoDup (d.*1 ++ (binding <$> es).*1) →
  parse_pairs (written <$> es) d = Ok (d ++ (binding <$> es)).
Proof.
  induction es as [|e es IH]; intros d He Hnd; [simpl; by rewrite app_nil_r|].
  apply Forall_cons in He as [He Hes]. cbn [fmap list_fmap parse_pairs]. rewrite strip_written by done.
  unfold core. destruct (node e ++ equals :: address e) as [|c cs] eqn:Ec; [by destruct (node e)|]. rewrite <- Ec.
  rewrite partition_at by apply He. rewrite !bool_decide_false by apply He. cbn [orb].
  assert (Hfresh : (binding e).1 ∉ d.*1).
  { cbn [fmap list_fmap] in Hnd. apply NoDup_app in Hnd as (_ & Hdisj & _). intros Hin. apply (Hdisj _ Hin). left. }
  change (string_of_list_ascii (node e)) with (binding e).1. rewrite dict_set_fresh by done.
  change ((binding e).1, string_of_list_ascii (address e)) with (binding e).
  rewrite IH; [by rewrite <- app_assoc|done|]. by rewrite fmap_app, <- app_assoc.
Qed.

(** The commas of the entries are the ones between them. *)
Lemma written_no_comma e : entry_ok e → comma ∉ written e.
Proof.
  intros He. unfold written, core. rewrite !elem_of_app, elem_of_cons. pose proof (eo_comma e He) as Hc.
  rewrite elem_of_app in Hc.
  pose proof (λ s, spaces_avoid comma s eq_refl) as Hsp.
  intros [H|[[H|[H|H]]|H]]; [by apply (Hsp (before e)); [apply He|]|by apply Hc; left|done|by apply Hc; right|].
  by apply (Hsp (after e)); [apply He|].
Qed.

Lemma parse_written msg es : es ≠ [] → Forall entry_ok es → NoDup (binding <$> es).*1 →
  parse msg (string_of_list_ascii (join comma (written <$> es))) = Ok (binding <$> es).
Proof.
  intros Hne He Hnd. unfold parse. rewrite list_ascii_of_string_of_list_ascii, split_join.
  - rewrite parse_entries by done. simpl. rewrite bool_decide_false; [done|]. by destruct es.
  - by destruct es.
  - apply Forall_fmap. eapply Forall_impl; [exact He|]. intros e. apply written_no_comma.
Qed.

(** An account and its seed balance, printed with [p] digits after the
    point. *)
Record Seed := mkSeed { account : chars; coef : Z; places : nat }.
Definition seed_entry (e : Seed) : Entry := mkEntry [] (account e) (fixed (coef e) (places e)) [].

Record seed_ok (e : Seed) : Prop := {
  so_account : account e ≠ [];
  so_equals : equals ∉ account e;
  so_comma : comma ∉ account e;
  so_first c : head (account e) = Some c → is_space c = false;
  so_coef : (Z.abs (coef e) < 10 ^ Dec.prec)%Z;
  so_places : (Z.of_nat (places e) ≤ - Dec.Etiny)%Z
}.

Lemma seed_entry_ok e : seed_ok e → entry_ok (seed_entry e).
Proof.
  intros [H1 H2 H3 H4 _ _]. destruct (fixed_plain (coef e) (places e)) as (Hne & Hpl & Hc).
  split; simpl; try done; [by constructor|by constructor| |].
  - rewrite elem_of_app. by intros [?|?].
  - intros c Hl. apply last_Some_elem_of in Hl. rewrite Forall_forall in Hpl. by apply Hpl.
Qed.

Lemma parse_seeds es : ∀ m, Forall seed_ok es →
  parse_balance_pairs (written ∘ seed_entry <$> es) m =
    Ok (foldl (λ m e, <[string_of_list_ascii (account e) := DFin (coef e) (- Z.of_nat (places e))]> m) m es).
Proof.
  induction es as [|e es IH]; intros m He; [done|]. apply Forall_cons in He as [He Hes].
  cbn [fmap list_fmap compose parse_balance_pairs foldl]. unfold compose at 1.
  rewrite strip_written by (by apply seed_entry_ok). unfold core. cbn [node address seed_entry].
  destruct (account e ++ equals :: fixed (coef e) (places e)) as [|c cs] eqn:Ec; [by destruct (account e)|]. rewrite <- Ec.
  rewrite partition_at, fixed_round_trip by apply He. by apply IH.
Qed.

Lemma parse_balances_written es : es ≠ [] → Forall seed_ok es →
  parse_balances (string_of_list_ascii (join comma (written ∘ seed_entry <$> es))) =
    Ok (foldl (λ m e, <[string_of_list_ascii (account e) := DFin (coef e) (- Z.of_nat (places e))]> m) ∅ es).
Proof.
  intros Hne He. unfold parse_balances, text. rewrite list_ascii_of_string_of_list_ascii, split_join; [by apply parse_seeds|by destruct es|].
  apply Forall_fmap. eapply Forall_impl; [exact He|]. intros e Hok. by apply written_no_comma, seed_entry_ok.
Qed.

End EntryPoint.
