(* ===== verification/Containers.v ===== *)
(** * The containers (docker/raft_node_entrypoint.py,
      docker/coordinator_entrypoint.py, docker-compose.yml)

    [main] of the two entry points, over the gRPC system of Grpc.v: the raft
    container builds its node from the environment, starts it and prints its
    status until it is told to stop; the coordinator container runs the
    pipeline over the gRPC client and submits sample transactions.  The
    environments of docker-compose.yml are at the end. *)

From stdpp Require Import base gmap strings list pretty sorting.
From Stdlib Require Import ZArith SpecFloat Lia.
From S2P Require Import Prelude PyDecimal PyFloat PyText Models StateMachine Ledger Submitter.
From S2P Require Import RaftTypes Storage Transport RaftNode RaftSpec RaftRefine RaftFrame Runtime Serialization GrpcStub Grpc GrpcRefine GrpcClient.
From S2P Require Import Broker Group Scorer Worker WorkerSystem Coordinator Verdicts EntryPoint.

Local Open Scope Z_scope.

Module Containers.
Import PyText.

(** The default timing of [GrpcRaftNode.__init__]. *)
Definition election_timeout_min : float := F.lit 3 1.
Definition election_timeout_max : float := F.lit 6 1.
Definition heartbeat_interval : float := F.lit 1 1.

Abbreviation C := LedgerEntry.
Abbreviation S := Ledger.LedgerStateMachine.
Abbreviation World := (Raft.World C S (Grpc.GrpcRaftTransport C)).
Abbreviation Rnd := (nat → float → float → float).

(** What the containers print. *)
Inductive Line :=
| Starting (id : string) (port : Z) (peers : list string)
| Status (id : string) (term : Z) (leader : bool) (leader_id : option string) (commit_index : Z)
| ShuttingDown (id : string).

(** ** The container of a raft node *)

(** [GrpcRaftNode(node_id, ..., InMemoryStorage(), LedgerStateMachine(initial_balances))] *)
Definition raft_node (cfg : EntryPoint.NodeConfig) : World :=
  Grpc.GrpcRaftNode election_timeout_min election_timeout_max heartbeat_interval
    (λ _, EntryPoint.peer_addresses cfg) (EntryPoint.node_id cfg) Storage.init (Ledger.init (EntryPoint.initial_balances cfg)).

Section raft_node.
Context {B : Type} {Hpb : Protobuf} {Hpickle : Pickle C B}.
Context {Wrv : Wire Pb.RequestVoteArgs B} {Wrvr : Wire Pb.RequestVoteReply B}.
Context {Wpv : Wire Pb.PreVoteArgs B} {Wpvr : Wire Pb.PreVoteReply B}.
Context {Wae : Wire (Pb.AppendEntriesArgs B) B} {Waer : Wire Pb.AppendEntriesReply B}.
Context {Wpq : Wire (Pb.ProposeRequest B) B} {Wpp : Wire Pb.ProposeReply B}.
Context {Hsrv : Server World B}.
Variable peer_addresses : string → list (string * string).
Variable resolve : string → option string.
(** Before the [k]-th access of [main] to anything outside it the events
    [others k] have happened in the system, and [stopped k] tells whether a
    signal has arrived. *)
Variable others : nat → list (Grpc.Event S B * Rnd).
Variable stopped : nat → bool.

Record Host := mkHost {
  system : Grpc.System C S;
  accesses : nat;
  printed : list Line
}.
Abbreviation K := (Py Host).
Implicit Types h : Host.

Definition run_events (evs : list (Grpc.Event S B * Rnd)) (sys : Grpc.System C S) : Grpc.System C S :=
  Grpc.run election_timeout_min election_timeout_max heartbeat_interval peer_addresses resolve evs sys.
Definition elapse h : Grpc.System C S := run_events (others (accesses h)) (system h).

Definition print (line : Line) : K unit := modify (λ h, mkHost (system h) (accesses h) (printed h ++ [line])).
Definition sleep : K unit := modify (λ h, mkHost (elapse h) (Datatypes.S (accesses h)) (printed h)).

(** A call of the node of this container. *)
Definition on_self {A} (id : string) (m : Py World A) : K A := λ h,
  let '(r, sys) := Grpc.on_node id m (elapse h) in
  (match r with Some r => r | None => Raise KeyError end, mkHost sys (Datatypes.S (accesses h)) (printed h)).

(** The node is there from its construction on. *)
Definition build (cfg : EntryPoint.NodeConfig) : K unit :=
  modify (λ h, mkHost (Grpc.mkSystem (<[EntryPoint.node_id cfg := raft_node cfg]> (Grpc.nodes (system h))) (Grpc.replies (system h)))
                 (accesses h) (printed h)).
(** [GrpcRaftNode.stop]: [runtime.stop()], [_server.stop(grace=1.0).wait()] and
    [transport.close()] wait, and the rest goes on meanwhile; none of them
    changes what the node knows (Lifecycle.v and Stubs.v have the thread and
    the channels). *)
Definition wait : K unit := modify (λ h, mkHost (elapse h) (Datatypes.S (accesses h)) (printed h)).
Definition stop : K unit := (wait ;;; wait ;;; wait)%py.

(** [while not stop["flag"]] *)
Fixpoint status_loop (fuel : nat) (id : string) : K unit :=
  match fuel with
  | O => raise OutOfFuel
  | Datatypes.S fuel =>
      (flag <- get (λ h, stopped (accesses h)) ;;
       if flag : bool then ret tt
       else
         sleep ;;;
         term <- on_self id Runtime.current_term ;;
         leader <- on_self id Runtime.is_leader ;;
         leader_id <- on_self id Runtime.leader_id ;;
         commit_index <- on_self id Runtime.commit_index ;;
         print (Status id term leader leader_id commit_index) ;;;
         status_loop fuel id)%py
  end.

(** [main] of raft_node_entrypoint.py; [now] and [rnd] are what [start] reads. *)
Definition raft_node_main (fuel : nat) (env : EntryPoint.Environ) (now : float) (rnd : Rnd) : K unit :=
  (cfg <- lift (EntryPoint.raft_node_config env) ;;
   let id := EntryPoint.node_id cfg in
   build cfg ;;;
   print (Starting id (EntryPoint.listen_port cfg) (fst <$> EntryPoint.peer_addresses cfg)) ;;;
   on_self id (Runtime.start rnd now) ;;;
   try_finally (status_loop fuel id) (print (ShuttingDown id) ;;; stop))%py.

(** ** What it prints *)

(** What has become of the system [sys] when [main], which has started the node
    by its access 0, makes its access [k]. *)
Definition seen (sys : Grpc.System C S) (k : nat) : Grpc.System C S := run_events (concat (others <$> seq 1 k)) sys.

Lemma seen_S sys k : seen sys (Datatypes.S k) = run_events (others (Datatypes.S k)) (seen sys k).
Proof.
  unfold seen, run_events, Grpc.run. rewrite seq_S, fmap_app, concat_app, foldl_app. cbn [fmap list_fmap concat].
  by rewrite app_nil_r.
Qed.

(** A status line of term [t]. *)
Definition status_of (id : string) (t : Z) (line : Line) : Prop :=
  ∃ leader leader_id commit, line = Status id t leader leader_id commit.

(** The line of turn [i] of the loop: each of its four values is the node's at
    the moment the line reads it. *)
Definition status_at (sys : Grpc.System C S) (id : string) (i : nat) (line : Line) : Prop :=
  ∃ w1 w2 w3 w4,
    Grpc.nodes (seen sys (5 * i + 2)) !! id = Some w1 ∧ Grpc.nodes (seen sys (5 * i + 3)) !! id = Some w2 ∧
    Grpc.nodes (seen sys (5 * i + 4)) !! id = Some w3 ∧ Grpc.nodes (seen sys (5 * i + 5)) !! id = Some w4 ∧
    line = Status id (Storage.current_term (Raft.storage w1)) (Raft.is_leader (Raft.node w2)) (Raft.leader_id (Raft.node w3))
      (Raft.commit_index (Raft.node w4)).

(** A protocol step never lowers a term. *)
Lemma step_term {D : Type} (members : gset string) (allowed : D → Prop) n G G' : Spec.step members allowed n G G' →
  ∀ m, Spec.an_term (Spec.nodes G m) ≤ Spec.an_term (Spec.nodes G' m).
Proof.
  intros Hs m. destruct Hs; simpl; try (destruct (decide (m = n)) as [->|];
    [rewrite functions.fn_lookup_insert|rewrite functions.fn_lookup_insert_ne by done]; simpl; first [reflexivity|lia]). reflexivity.
Qed.

Lemma cstep_term {D : Type} (members : gset string) (allowed : D → Prop) G G' m : rtc (Spec.cstep members allowed) G G' →
  Spec.an_term (Spec.nodes G m) ≤ Spec.an_term (Spec.nodes G' m).
Proof.
  induction 1 as [|G1 G2 G3 (n & _ & Hs) _ IH]; [lia|]. pose proof (step_term _ _ _ _ _ Hs m). lia.
Qed.

Section lines.
Variable ids : list string.
Variable sm0 : S.
Hypothesis Hdep : GrpcRefine.deployed peer_addresses resolve ids.
Hypothesis Hothers : ∀ k, Forall (λ ev, GrpcRefine.event_ok (C := C) (λ _, True) ev.1) (others k).
Variable id : string.
Hypothesis Hid : id ∈ ids.
Abbreviation refines := (GrpcRefine.refines peer_addresses ids sm0 (λ _ : C, True)).

(** A system of the protocol in which [id] is in term [t] or a later one. *)
Definition operating (t : Z) (sys : Grpc.System C S) : Prop :=
  ∃ G, refines sys G ∧ t ≤ Spec.an_term (Spec.nodes G id).

Lemma operating_later t sys evs : Forall (λ ev, GrpcRefine.event_ok (C := C) (λ _, True) ev.1) evs →
  operating t sys → operating t (run_events evs sys).
Proof.
  intros He (G & Hf & Ht).
  destruct (GrpcRefine.grpc_run_refines election_timeout_min election_timeout_max heartbeat_interval peer_addresses resolve ids sm0
    Hdep (λ _, True) evs sys G Hf He) as (G' & Hf' & Hs).
  exists G'. split; [done|]. pose proof (cstep_term _ _ _ _ id Hs). lia.
Qed.

(** Reading the node changes nothing but the time. *)
Lemma on_self_read {A} (f : World → A) t h : operating t (system h) →
  ∃ w, Grpc.nodes (elapse h) !! id = Some w ∧
    on_self id (get f) h = (Ok (f w), mkHost (elapse h) (Datatypes.S (accesses h)) (printed h)) ∧
    t ≤ Storage.current_term (Raft.storage w) ∧ operating (Storage.current_term (Raft.storage w)) (elapse h).
Proof.
  intros Ho. apply (operating_later t _ (others (accesses h)) (Hothers _)) in Ho as (G & Hf & Ht).
  destruct (GrpcRefine.g_present _ _ _ _ _ _ Hf id Hid) as [w Hw].
  destruct (GrpcRefine.g_node _ _ _ _ _ _ Hf id w Hw) as (_ & HR & _).
  destruct (Refine.r_node _ _ _ _ _ HR) as (hist & Hv & _).
  exists w. split; [exact Hw|]. unfold on_self, Grpc.on_node. unfold elapse in *. rewrite Hw. cbn [get].
  rewrite insert_id by done. rewrite Hv in Ht. simpl in Ht. split_and!; [by destruct (run_events _ _)|done|].
  exists G. split; [done|]. by rewrite Hv.
Qed.

Lemma operating_from t t' sys : t' ≤ t → operating t sys → operating t' sys.
Proof. intros Ht (G & Hf & Hg). exists G. split; [done|lia]. Qed.

Section loop.
Variable sys0 : Grpc.System C S.
Abbreviation at_access := (seen sys0).

(** [main] is between its accesses [k] and [k + 1]. *)
Definition between (k : nat) h : Prop := accesses h = Datatypes.S k ∧ system h = at_access k.

Lemma between_elapse k h : between k h → elapse h = at_access (Datatypes.S k).
Proof. intros [Ha Hs]. unfold elapse. by rewrite Ha, Hs, seen_S. Qed.
Lemma between_next k h l : between k h → between (Datatypes.S k) (mkHost (elapse h) (Datatypes.S (accesses h)) l).
Proof. intros Hb. split; simpl; [by destruct Hb as [-> _]|by apply between_elapse]. Qed.

Lemma read_between {A} (f : World → A) t k h : operating t (system h) → between k h →
  ∃ w h', Grpc.nodes (at_access (Datatypes.S k)) !! id = Some w ∧ on_self id (get f) h = (Ok (f w), h') ∧
    printed h' = printed h ∧ between (Datatypes.S k) h' ∧
    t ≤ Storage.current_term (Raft.storage w) ∧ operating (Storage.current_term (Raft.storage w)) (system h').
Proof.
  intros Ho Hb. destruct (on_self_read f t h Ho) as (w & Hw & E & Ht & Ho'). rewrite (between_elapse k h Hb) in Hw.
  exists w, (mkHost (elapse h) (Datatypes.S (accesses h)) (printed h)). split_and!; try done. by apply between_next.
Qed.

(** One turn of the loop. *)
Lemma status_turn t i h : operating t (system h) → between (5 * i) h → stopped (accesses h) = false →
  ∃ t' line h', (∀ fuel, status_loop (Datatypes.S fuel) id h = status_loop fuel id h') ∧
    printed h' = printed h ++ [line] ∧ status_at sys0 id i line ∧ status_of id t' line ∧
    t ≤ t' ∧ operating t' (system h') ∧ between (5 * Datatypes.S i) h'.
Proof.
  intros Ho Hb Hst.
  assert (Ho1 : operating t (elapse h)) by exact (operating_later t _ (others (accesses h)) (Hothers _) Ho).
  pose proof (between_next _ _ (printed h) Hb) as Hb1. set (h1 := mkHost (elapse h) _ _) in *.
  destruct (read_between (λ w, Storage.get_current_term (Raft.storage w)) t _ h1 Ho1 Hb1) as (w1 & h2 & Hw1 & E1 & P1 & Hb2 & Ht1 & Ho2).
  destruct (read_between (λ w, Raft.is_leader (Raft.node w)) _ _ h2 Ho2 Hb2) as (w2 & h3 & Hw2 & E2 & P2 & Hb3 & Ht2 & Ho3).
  destruct (read_between (λ w, Raft.leader_id (Raft.node w)) _ _ h3 Ho3 Hb3) as (w3 & h4 & Hw3 & E3 & P3 & Hb4 & Ht3 & Ho4).
  destruct (read_between (λ w, Raft.commit_index (Raft.node w)) _ _ h4 Ho4 Hb4) as (w4 & h5 & Hw4 & E4 & P4 & Hb5 & Ht4 & Ho5).
  set (t1 := Storage.current_term (Raft.storage w1)) in *.
  set (line := Status id t1 (Raft.is_leader (Raft.node w2)) (Raft.leader_id (Raft.node w3)) (Raft.commit_index (Raft.node w4))).
  exists t1, line, (mkHost (system h5) (accesses h5) (printed h5 ++ [line])). split_and!.
  - intros fuel. cbn [status_loop]. unfold bind at 1, get at 1. rewrite Hst.
    unfold bind at 1, sleep, modify at 1. fold h1.
    unfold Runtime.current_term, Raft.reads, Runtime.is_leader, Runtime.leader_id, Runtime.commit_index, Raft.gets.
    unfold bind at 1. rewrite E1. unfold bind at 1. rewrite E2. unfold bind at 1. rewrite E3. unfold bind at 1. rewrite E4. done.
  - simpl. by rewrite P4, P3, P2, P1.
  - exists w1, w2, w3, w4. rewrite <- !plus_n_Sm, <- plus_n_O in *. by split_and!.
  - by do 3 eexists.
  - done.
  - eapply operating_from; [|exact Ho5]. lia.
  - destruct Hb5 as [Ha Hs]. split; simpl; [rewrite Ha; lia|]. rewrite Hs. f_equal. lia.
Qed.

(** The loop prints a line a turn, until it finds the flag set. *)
Lemma status_loop_lines fuel : ∀ t i h, operating t (system h) → between (5 * i) h →
  let '(r, h') := status_loop fuel id h in
  ∃ ts lines, printed h' = printed h ++ lines ∧
    (∀ j, (j < length lines)%nat → stopped (5 * (i + j) + 1) = false) ∧
    (∀ j line, lines !! j = Some line → status_at sys0 id (i + j) line) ∧
    Forall2 (status_of id) ts lines ∧ StronglySorted Z.le ts ∧ Forall (Z.le t) ts ∧
    (r = Ok tt ∧ stopped (5 * (i + length lines) + 1) = true ∨ r = Raise OutOfFuel ∧ length lines = fuel).
Proof.
  induction fuel as [|fuel IH]; intros t i h Ho Hb.
  { exists [], []. rewrite app_nil_r. split_and!; [done|simpl; lia|done|constructor|constructor|constructor|by right]. }
  assert (Hacc : accesses h = (5 * i + 1)%nat) by (destruct Hb; lia).
  destruct (stopped (accesses h)) eqn:Es.
  { cbn [status_loop]. unfold bind at 1, get at 1. rewrite Es.
    exists [], []. rewrite app_nil_r. split_and!; [done|simpl; lia|done|constructor|constructor|constructor|].
    left. split; [done|]. cbn [length]. by rewrite Nat.add_0_r, <- Hacc. }
  destruct (status_turn t i h Ho Hb Es) as (t1 & line & h1 & -> & P1 & Hat & Hof & Ht & Ho1 & Hb1).
  specialize (IH t1 (Datatypes.S i) h1 Ho1 Hb1). destruct (status_loop fuel id h1) as [r h'].
  destruct IH as (ts & lines & Hp & Hf & Hl & H2 & Hs & Hlow & Hr).
  exists (t1 :: ts), (line :: lines). split_and!.
  - by rewrite Hp, P1, <- app_assoc.
  - intros [|j] Hj; [by rewrite Nat.add_0_r, <- Hacc|]. simpl in Hj. replace (i + Datatypes.S j)%nat with (Datatypes.S i + j)%nat by lia.
    apply Hf. lia.
  - intros [|j] l; simpl; [intros [= <-]; by rewrite Nat.add_0_r|].
    intros Hj. replace (i + Datatypes.S j)%nat with (Datatypes.S i + j)%nat by lia. by apply Hl.
  - by constructor.
  - by constructor.
  - constructor; [lia|]. eapply Forall_impl; [exact Hlow|]. intros; simpl in *; lia.
  - simpl length. replace (i + Datatypes.S (length lines))%nat with (Datatypes.S i + length lines)%nat by lia.
    destruct Hr as [?|[-> <-]]; [by left|by right].
Qed.
End loop.

Lemma on_node_start now rnd sys w : Grpc.nodes sys !! id = Some w →
  Grpc.on_node id (Runtime.start rnd now) sys = (Some (Ok tt), run_events [(Grpc.Start id now, rnd)] sys).
Proof. intros Hw. unfold run_events, Grpc.run. simpl. unfold Grpc.on_node. by rewrite Hw. Qed.

(** [main] builds the node the environment describes and starts it. *)
Lemma raft_node_main_starts env cfg now rnd sys : EntryPoint.raft_node_config env = Ok cfg → EntryPoint.node_id cfg = id →
  Grpc.nodes sys !! id = Some (raft_node cfg) → (∃ G, refines sys G) →
  let started := (Grpc.on_node id (Runtime.start rnd now) (run_events (others 0) sys)).2 in
  ∃ t, operating t started ∧ ∀ fuel, raft_node_main fuel env now rnd (mkHost sys 0 []) =
    try_finally (status_loop fuel id) (print (ShuttingDown id) ;;; stop)%py
      (mkHost started 1 [Starting id (EntryPoint.listen_port cfg) (fst <$> EntryPoint.peer_addresses cfg)]).
Proof.
  intros Hc Hi Hn (G & Hf) started. set (t := Spec.an_term (Spec.nodes G id)).
  assert (Ho : operating t (run_events (others 0) sys)) by (apply operating_later; [apply Hothers|by exists G]).
  pose proof Ho as (G1 & Hf1 & _). destruct (GrpcRefine.g_present _ _ _ _ _ _ Hf1 id Hid) as [w Hw].
  pose proof (on_node_start now rnd _ w Hw) as E. exists t. split.
  - unfold started. rewrite E. apply operating_later; [by repeat constructor|done].
  - intros fuel. unfold raft_node_main, bind at 1, lift. rewrite Hc, Hi.
    unfold bind at 1, build, modify at 1. rewrite Hi. cbn [system accesses printed]. rewrite insert_id by done.
    unfold bind at 1, print at 1, modify at 1. cbn [system accesses printed].
    unfold bind at 1, on_self at 1, elapse at 1. cbn [system accesses printed].
    replace (Grpc.mkSystem (Grpc.nodes sys) (Grpc.replies sys)) with sys by (by destruct sys).
    unfold started. rewrite E. done.
Qed.

(** What it prints, from its start to its end. *)
Lemma raft_node_main_lines fuel m env cfg now rnd sys : EntryPoint.raft_node_config env = Ok cfg → EntryPoint.node_id cfg = id →
  Grpc.nodes sys !! id = Some (raft_node cfg) → (∃ G, refines sys G) →
  (∀ k, (m ≤ k)%nat → stopped k = true) → (m < fuel)%nat →
  let started := (Grpc.on_node id (Runtime.start rnd now) (run_events (others 0) sys)).2 in
  let '(r, h') := raft_node_main fuel env now rnd (mkHost sys 0 []) in
  r = Ok tt ∧ ∃ ts lines,
    printed h' = Starting id (EntryPoint.listen_port cfg) (fst <$> EntryPoint.peer_addresses cfg) :: lines ++ [ShuttingDown id] ∧
    (∀ i, (i < length lines)%nat → stopped (5 * i + 1) = false) ∧ stopped (5 * length lines + 1) = true ∧
    (∀ i line, lines !! i = Some line → status_at started id i line) ∧
    Forall2 (status_of id) ts lines ∧ StronglySorted Z.le ts.
Proof.
  intros Hc Hi Hn Hf Hst Hm started. destruct (raft_node_main_starts env cfg now rnd sys Hc Hi Hn Hf) as (t & Ho & ->).
  unfold try_finally. fold started in Ho |- *. set (h1 := mkHost started 1 [_]).
  pose proof (status_loop_lines started fuel t 0 h1 Ho (conj eq_refl eq_refl)) as Hl.
  destruct (status_loop fuel id _) as [r h2].
  destruct Hl as (ts & lines & Hp & Hfl & Hl & H2 & Hs & _ & Hr). unfold bind, print, stop, wait, modify. cbn [printed].
  destruct Hr as [[-> Hr]|[_ Hr]].
  - split; [done|]. exists ts, lines. rewrite Hp. by split_and!.
  - exfalso. specialize (Hfl m). rewrite Hst in Hfl by lia. discriminate Hfl. lia.
Qed.
End lines.
End raft_node.
(** ** The container of the coordinator *)

Definition accounts : list string := (λ i, "acct-" +:+ pretty i) <$> seq 0 10.

(** The draws of one turn of the loop: [random.choice] as an index,
    [random.random], [random.randint(5, 200)]. *)
Record Draws := mkDraws { choice : nat; random : float; randint : Z }.
Record drawn (d : Draws) : Prop := { dr_choice : (choice d < 10)%nat; dr_randint : 5 ≤ randint d ≤ 200 }.

(** [Transaction(account_id=..., transaction_type=DEBIT, amount=...)], with its
    generated id and timestamp. *)
Definition debit (account : string) (amount : Decimal) (id : string) (created_at : datetime) : res Transaction :=
  Transaction_post_init (mkTransaction account DEBIT amount None "USD" "us-east" PENDING id created_at ∅).

Definition is_fraud_shaped (d : Draws) : bool := F.lt (random d) (F.lit 1 1).
Definition sample_amount (d : Draws) : res Decimal :=
  if is_fraud_shaped d then Decimal_of (text "25000") else Decimal_of (text (pretty (randint d))).
Definition sample (d : Draws) (id : string) (created_at : datetime) : res Transaction :=
  match accounts !! choice d with
  | None => Raise IndexError
  | Some account => (amount <-? sample_amount d ;; debit account amount id created_at)%py
  end.

(** One turn: its draws, the id and the clock readings of the transaction and
    of the log, and what the other threads do before and after the
    submission. *)
Record Turn := mkTurn {
  draws : Draws;
  txn_id : string;
  created_at : datetime;
  produced_at : datetime;
  before : list Coordinator.Event;
  meanwhile : list Coordinator.Event
}.

(** What it prints. *)
Inductive Report :=
| CoordinatorStarting (peers : list string)
| CoordinatorStatus (status : Coordinator.Status)
| CoordinatorShuttingDown.

Section coordinator.
Context {P : Type} `{!Proposer P}.

Record Shell := mkShell {
  coordinator : Coordinator.Coordinator P;
  output : list Report
}.
Abbreviation K := (Py Shell).
Definition happens (es : list Coordinator.Event) : K unit :=
  modify (λ s, mkShell (Coordinator.run es (coordinator s)) (output s)).
Definition report (line : Shell → Report) : K unit :=
  modify (λ s, mkShell (coordinator s) (output s ++ [line s])).
Definition print_status : K unit := report (λ s, CoordinatorStatus (Coordinator.status (coordinator s))).

(** [while not stop["flag"]]: the signal arrives after the given turns. *)
Fixpoint traffic (turns : list Turn) : K unit :=
  match turns with
  | [] => ret tt
  | t :: turns =>
      (txn <- lift (sample (draws t) (txn_id t) (created_at t)) ;;
       happens (before t) ;;;
       happens [Coordinator.SubmitTransaction txn (produced_at t)] ;;;
       happens (meanwhile t) ;;;
       print_status ;;;
       traffic turns)%py
  end.

(** [main] of coordinator_entrypoint.py with [cluster] as its client; the
    session timeout of the group and the timeout of a proposal are the
    defaults of the classes. *)
Definition coordinator_main (env : EntryPoint.Environ) (cluster : list (string * string) → P) (now : float) (turns : list Turn)
  : res Shell :=
  (cfg <-? EntryPoint.coordinator_config env ;;
   c <-? Coordinator.init (EntryPoint.num_partitions cfg) (Z.to_nat (EntryPoint.num_fraud_workers cfg)) (F.lit 1 0) None (F.lit 2 0)
     (cluster (EntryPoint.raft_addresses cfg)) ;;
   let '(r, s) :=
     (report (λ _, CoordinatorStarting (EntryPoint.raft_addresses cfg).*1) ;;;
      happens [Coordinator.Start now] ;;;
      try_finally (traffic turns) (report (λ _, CoordinatorShuttingDown) ;;; happens [Coordinator.Stop]))%py (mkShell c []) in
   (_ <-? r ;; Ok s)%py)%py.

(** ** What is submitted *)

(** A sample: a debit of a known account, of 25000 when it is fraud-shaped and
    of 5 to 200 otherwise. *)
Record sampled (d : Draws) (id : string) (txn : Transaction) : Prop := {
  sm_valid : Transaction_post_init txn = Ok txn;
  sm_type : tx_type txn = DEBIT;
  sm_account : tx_account_id txn ∈ accounts;
  sm_id : tx_id txn = id;
  sm_amount : tx_amount txn = DFin (if is_fraud_shaped d then 25000 else randint d) 0
}.

Lemma text_of_nonneg n : 0 ≤ n → text (pretty n) = digits_text (Z.to_N n).
Proof. unfold digits_text, pretty at 1, pretty_Z. by destruct n. Qed.

Lemma sample_amount_eq d : drawn d → sample_amount d = Ok (DFin (if is_fraud_shaped d then 25000 else randint d) 0).
Proof.
  intros [_ Hr]. unfold sample_amount. destruct (is_fraud_shaped d); [vm_compute; reflexivity|].
  rewrite text_of_nonneg, Decimal_of_natural by (rewrite ?Z2N.id; unfold Dec.prec; lia). by rewrite Z2N.id by lia.
Qed.

Lemma debit_ok account k id at_ : account ≠ ""%string → 0 < k →
  ∃ txn, debit account (DFin k 0) id at_ = Ok txn ∧
    Transaction_post_init txn = Ok txn ∧ tx_type txn = DEBIT ∧ tx_account_id txn = account ∧ tx_id txn = id ∧
    tx_amount txn = DFin k 0.
Proof.
  intros Ha Hk. eexists. unfold debit, Transaction_post_init. cbn [tx_account_id tx_amount tx_type].
  rewrite (proj2 (String.eqb_neq _ _) Ha). unfold Dec.le, Dec.ordered, Dec.zero, Dec.of_Z. simpl.
  replace (k * 1) with k by lia. rewrite (proj2 (Z.compare_gt_iff _ _)) by lia. simpl.
  split; [reflexivity|]. cbn [tx_account_id tx_amount tx_type]. rewrite (proj2 (String.eqb_neq _ _) Ha). simpl.
  replace (k * 1) with k by lia. by rewrite (proj2 (Z.compare_gt_iff _ _)) by lia.
Qed.

Lemma accounts_named i a : accounts !! i = Some a → a ≠ ""%string.
Proof. unfold accounts. rewrite list_lookup_fmap. intros (j & _ & ->)%fmap_Some. done. Qed.

Lemma sample_eq d id at_ : drawn d → ∃ txn, sample d id at_ = Ok txn ∧ sampled d id txn.
Proof.
  intros Hd. unfold sample. destruct (accounts !! choice d) as [a|] eqn:Ea.
  2: { apply lookup_ge_None in Ea. unfold accounts in Ea. rewrite length_fmap, length_seq in Ea. destruct Hd. lia. }
  rewrite sample_amount_eq by done. cbn [res_bind].
  destruct (debit_ok a (if is_fraud_shaped d then 25000 else randint d) id at_) as (txn & E & H1 & H2 & H3 & H4 & H5).
  - by eapply accounts_named.
  - destruct Hd as [_ Hr]. destruct (is_fraud_shaped d); lia.
  - exists txn. split; [done|]. split; try done. rewrite H3. by eapply list_elem_of_lookup_2.
Qed.

(** ** The loop as a run of the coordinator *)

(** Nobody else submits or starts the coordinator. *)
Definition background (e : Coordinator.Event) : Prop :=
  match e with Coordinator.Start _ | Coordinator.SubmitTransaction _ _ => False | _ => True end.
Record turn_ok (t : Turn) : Prop := {
  tk_drawn : drawn (draws t);
  tk_before : Forall background (before t);
  tk_meanwhile : Forall background (meanwhile t)
}.

(** A transaction of one of the turns. *)
Definition of_turn (turns : list Turn) (txn : Transaction) : Prop := ∃ t, t ∈ turns ∧ sampled (draws t) (txn_id t) txn.

Lemma background_ok Q es : Forall background es → Forall Coordinator.no_start es ∧ Forall (Coordinator.submits Q) es.
Proof. intros Hb. split; (eapply Forall_impl; [exact Hb|]); by intros []. Qed.

Lemma traffic_run turns : ∀ s, Forall turn_ok turns → ∃ es s',
  traffic turns s = (Ok tt, s') ∧ coordinator s' = Coordinator.run es (coordinator s) ∧
  (∃ sts, output s' = output s ++ (CoordinatorStatus <$> sts) ∧ length sts = length turns) ∧
  Forall Coordinator.no_start es ∧ Forall (Coordinator.submits (of_turn turns)) es.
Proof.
  induction turns as [|t turns IH]; intros s Hok.
  { exists [], s. split_and!; [done|done|exists []; by rewrite app_nil_r|constructor|constructor]. }
  apply Forall_cons in Hok as [[Hd Hb Hm] Hok]. cbn [traffic].
  destruct (sample_eq (draws t) (txn_id t) (created_at t) Hd) as (txn & E & Hs).
  unfold bind at 1, lift. rewrite E. unfold bind at 1 2 3 4, happens, print_status, report, modify.
  set (s1 := mkShell _ _). destruct (IH s1 Hok) as (es & s' & Et & Ec & (sts & El & Hl) & Hns & Hq).
  exists ((before t ++ [Coordinator.SubmitTransaction txn (produced_at t)] ++ meanwhile t) ++ es), s'.
  split; [exact Et|]. split; [|split; [|split]].
  - rewrite Ec. unfold s1. cbn [coordinator]. unfold Coordinator.run. by rewrite !foldl_app.
  - exists (Coordinator.status (coordinator s1) :: sts). rewrite El. unfold s1. cbn [output]. rewrite <- app_assoc. split; [done|simpl; lia].
  - rewrite !Forall_app. split_and!; [by apply (background_ok (λ _, True))|by repeat constructor|by apply (background_ok (λ _, True))|done].
  - rewrite !Forall_app. split_and!; [by apply background_ok| |by apply background_ok|].
    + apply Forall_singleton. exists t. split; [left|done].
    + eapply Forall_impl; [exact Hq|]. intros []; simpl; try done. intros (t' & Hin & H). exists t'. split; [by right|done].
Qed.

(** [main] runs every turn and stops; what the workers scored are the samples,
    with the verdicts of the default rules. *)
Lemma coordinator_main_run env cfg cluster now turns :
  EntryPoint.coordinator_config env = Ok cfg → 0 < EntryPoint.num_partitions cfg → Forall turn_ok turns →
  ∃ s, coordinator_main env cluster now turns = Ok s ∧
    (∃ sts, output s = CoordinatorStarting (EntryPoint.raft_addresses cfg).*1 :: (CoordinatorStatus <$> sts) ++ [CoordinatorShuttingDown] ∧
      length sts = length turns) ∧
    (∃ taken, Coordinator.accounted (coordinator s) taken) ∧
    WorkerSystem.sourced (of_turn turns) (Coordinator.pipeline (coordinator s)) ∧
    Verdicts.judging Scorer.default_config (Coordinator.pipeline (coordinator s)).
Proof.
  intros Hc Hn Hok. unfold coordinator_main. rewrite Hc. cbn [res_bind].
  assert (Hi : ∃ c, Coordinator.init (EntryPoint.num_partitions cfg) (Z.to_nat (EntryPoint.num_fraud_workers cfg)) (F.lit 1 0) None
    (F.lit 2 0) (cluster (EntryPoint.raft_addresses cfg)) = Ok c).
  { unfold Coordinator.init, Broker.init, Group.init. rewrite (proj2 (Z.leb_gt _ _)) by done. by eexists. }
  destruct Hi as (c & Hi). rewrite Hi. cbn [res_bind]. unfold bind, report at 1, happens at 1, modify at 1 2. cbn [coordinator output].
  set (s0 := mkShell _ _). destruct (traffic_run turns s0 Hok) as (es & s1 & Et & Ec & (sts & El & Hl) & Hns & Hq).
  unfold try_finally. rewrite Et. unfold report, happens, modify. cbn [res_bind]. eexists. split; [reflexivity|]. cbn [coordinator output].
  split; [exists sts; rewrite El; by split|]. rewrite Ec. unfold s0. cbn [coordinator].
  change (Coordinator.run [Coordinator.Stop] ?x) with (Coordinator.run [Coordinator.Stop] x).
  assert (E : Coordinator.run [Coordinator.Stop] (Coordinator.run es (Coordinator.run [Coordinator.Start now] c)) =
    Coordinator.run (es ++ [Coordinator.Stop]) (Coordinator.exec (Coordinator.Start now) c))
    by (unfold Coordinator.run; by rewrite foldl_app).
  rewrite E. apply (Verdicts.started_run _ _ _ _ None _ _ _ now _ Hi); apply Forall_app; split; try done; by repeat constructor.
Qed.
End coordinator.
Arguments Shell P : clear implicits.

(** ** The coordinator over gRPC *)

Section grpc.
Context {B : Type} {Hpb : Protobuf} {Hpickle : Pickle C B}.
Context {Wrv : Wire Pb.RequestVoteArgs B} {Wrvr : Wire Pb.RequestVoteReply B}.
Context {Wpv : Wire Pb.PreVoteArgs B} {Wpvr : Wire Pb.PreVoteReply B}.
Context {Wae : Wire (Pb.AppendEntriesArgs B) B} {Waer : Wire Pb.AppendEntriesReply B}.
Context {Wpq : Wire (Pb.ProposeRequest B) B} {Wpp : Wire Pb.ProposeReply B}.
Context {Hsrv : Server World B}.
Variable peer_addresses : string → list (string * string).
Variable resolve : string → option string.
Variable others : nat → list (Grpc.Event S B * Rnd).
Variable clock : nat → float.
Variable fate : nat → Fate.
Variable rnd : Rnd.
Variable fuel : nat.

(** What the submitter proposes through. *)
Definition grpc_proposer : Proposer (GrpcClient.GrpcRaftClusterClient C S) := λ entry timeout,
  (GrpcClient.propose election_timeout_min election_timeout_max heartbeat_interval peer_addresses resolve others clock fate rnd
     fuel entry timeout ;;; ret tt)%py.

(** [GrpcRaftClusterClient(raft_addresses)] towards the system [sys]. *)
Definition grpc_client (sys : Grpc.System C S) (addresses : list (string * string)) : GrpcClient.GrpcRaftClusterClient C S :=
  GrpcClient.mkClient sys addresses None 0.

Definition grpc_coordinator_main (env : EntryPoint.Environ) (sys : Grpc.System C S) (now : float) (turns : list Turn)
  : res (Shell (GrpcClient.GrpcRaftClusterClient C S)) :=
  @coordinator_main _ grpc_proposer env (grpc_client sys) now turns.
End grpc.

(** ** docker-compose.yml *)

Definition raft_service (id peers : string) : string * EntryPoint.Environ :=
  (id, {["NODE_ID" := id; "LISTEN_PORT" := "50051"; "PEER_ADDRESSES" := peers;
         "INITIAL_BALANCES" := "acct-1=1000,acct-2=1000"]}).
Definition raft_services : list (string * EntryPoint.Environ) :=
  [raft_service "raft-1" "raft-2=raft-2:50051,raft-3=raft-3:50051,raft-4=raft-4:50051,raft-5=raft-5:50051";
   raft_service "raft-2" "raft-1=raft-1:50051,raft-3=raft-3:50051,raft-4=raft-4:50051,raft-5=raft-5:50051";
   raft_service "raft-3" "raft-1=raft-1:50051,raft-2=raft-2:50051,raft-4=raft-4:50051,raft-5=raft-5:50051";
   raft_service "raft-4" "raft-1=raft-1:50051,raft-2=raft-2:50051,raft-3=raft-3:50051,raft-5=raft-5:50051";
   raft_service "raft-5" "raft-1=raft-1:50051,raft-2=raft-2:50051,raft-3=raft-3:50051,raft-4=raft-4:50051"].
Definition coordinator_environment : EntryPoint.Environ :=
  {["RAFT_ADDRESSES" := "raft-1=raft-1:50051,raft-2=raft-2:50051,raft-3=raft-3:50051,raft-4=raft-4:50051,raft-5=raft-5:50051";
    "NUM_PARTITIONS" := "4"; "NUM_FRAUD_WORKERS" := "3"]}.

Definition service_ids : list string := raft_services.*1.
Definition config_of (id : string) : res EntryPoint.NodeConfig :=
  match List.find (λ s, bool_decide (s.1 = id)) raft_services with
  | Some s => EntryPoint.raft_node_config s.2
  | None => Raise KeyError
  end.
Definition service_peers (id : string) : list (string * string) :=
  match config_of id with Ok cfg => EntryPoint.peer_addresses cfg | Raise _ => [] end.
(** In the network of the services a service answers at its name and the port
    it listens on. *)
Definition listens_at (s : string * EntryPoint.Environ) : string := s.1 +:+ ":" +:+ default "" (s.2 !! "LISTEN_PORT").
Definition service_at (address : string) : option string :=
  fst <$> List.find (λ s, bool_decide (listens_at s = address)) raft_services.

End Containers.
