(* ===== verification/ContainerProps.v ===== *)
(** * The containers and their configuration

    Claims about the entry points of the containers: what they read from the
    environment, what a raft container prints, what the coordinator's container
    submits, and that the environments of docker-compose.yml describe a
    cluster to which the consensus theorems apply. *)

From stdpp Require Import base gmap strings list sorting.
From Stdlib Require Import ZArith SpecFloat Ascii Lia.
From S2P Require Import Prelude PyDecimal PyFloat PyText Models StateMachine Ledger Submitter.
From S2P Require Import RaftTypes Storage Transport RaftNode RaftSpec Demo Runtime Serialization GrpcStub Grpc GrpcRefine GrpcDemo.
From S2P Require Import Broker Group Scorer Worker WorkerSystem Coordinator Verdicts EntryPoint Containers.

Local Open Scope Z_scope.

(** ** The services of docker-compose.yml *)

Definition compose_balances : gmap string Decimal := {["acct-1" := DFin 1000 0; "acct-2" := DFin 1000 0]}.

Lemma service_cases (P : string → Prop) :
  P "raft-1" → P "raft-2" → P "raft-3" → P "raft-4" → P "raft-5" → ∀ id, id ∈ Containers.service_ids → P id.
Proof.
  intros H1 H2 H3 H4 H5 id. change Containers.service_ids with ["raft-1"; "raft-2"; "raft-3"; "raft-4"; "raft-5"].
  rewrite !elem_of_cons. intros [->|[->|[->|[->|[->|[]%not_elem_of_nil]]]]]; done.
Qed.

(** Evaluates the addresses of one service. *)
Ltac service_peers_eval :=
  match goal with |- context [Containers.service_peers ?i] =>
    let v := eval vm_compute in (Containers.service_peers i) in change (Containers.service_peers i) with v end.

Lemma compose_deployed : GrpcRefine.deployed Containers.service_peers Containers.service_at Containers.service_ids.
Proof.
  split.
  - compute_done.
  - apply service_cases; compute_done.
  - intros id p. revert id. apply service_cases; service_peers_eval; unfold Spec.peers_of;
      change Containers.service_ids with ["raft-1"; "raft-2"; "raft-3"; "raft-4"; "raft-5"]; cbn; set_solver.
  - intros id p a q. revert id.
    refine (service_cases (λ id, Grpc.address_of p (Containers.service_peers id) = Some a → Containers.service_at a = Some q → q = p) _ _ _ _ _);
    service_peers_eval; cbn [Grpc.address_of];
    repeat (case_decide; [subst p; intros [= <-]; vm_compute; congruence|]); done.
Qed.

(** The composed cluster: the environments of docker-compose.yml are read
    without an error; each raft service becomes a node of its own name with
    the seed balances of two accounts, which is the node of an initial
    five-node system; every service knows the four others by addresses at
    which they listen, as the theorems on gRPC clusters require; and the
    coordinator gets four partitions, three workers and an address for each
    of the five. *)
Theorem compose_configuration :
  (∀ id, id ∈ Containers.service_ids → ∃ cfg, Containers.config_of id = Ok cfg ∧
    EntryPoint.node_id cfg = id ∧ EntryPoint.listen_port cfg = 50051 ∧ EntryPoint.initial_balances cfg = compose_balances ∧
    Grpc.nodes (Grpc.init Containers.election_timeout_min Containers.election_timeout_max Containers.heartbeat_interval
      Containers.service_peers Containers.service_ids (Ledger.init compose_balances)) !! id = Some (Containers.raft_node cfg)) ∧
  GrpcRefine.deployed Containers.service_peers Containers.service_at Containers.service_ids ∧
  ∃ addresses, EntryPoint.coordinator_config Containers.coordinator_environment = Ok (EntryPoint.mkCoordinatorConfig addresses 4 3) ∧
    addresses.*1 = Containers.service_ids ∧ Forall (λ a, Containers.service_at a.2 = Some a.1) addresses.
Proof.
  split; [|split].
  - apply service_cases; (eexists; split; [vm_compute; reflexivity|]; split; [reflexivity|]; split; [reflexivity|]; split; vm_compute; reflexivity).
  - exact compose_deployed.
  - eexists. split; [vm_compute; reflexivity|]. split; [vm_compute; reflexivity|].
    repeat (apply Forall_cons; split; [vm_compute; reflexivity|]). by apply Forall_nil.
Qed.

(** The samples of the coordinator's container debit ten accounts, of which
    the raft containers seed two: on every other account a debit is refused
    for insufficient funds, as nothing credits it. *)
Theorem unfunded_debits_rejected account k id at_ :
  account ∈ Containers.accounts → account ≠ "acct-1" → account ≠ "acct-2" → 0 < k < 10 ^ Dec.prec →
  let entry := mkLedgerEntry id account (DFin (- k) 0) id at_ in
  ∃ r w', Ledger.apply entry (Ledger.init compose_balances) = (Ok r, w') ∧ Ledger.ar_accepted r = false ∧
    Ledger.balances w' = Ledger.balances (Ledger.init compose_balances).
Proof.
  intros _ H1 H2 Hk entry. subst entry. unfold Ledger.apply, bind, get, lift. cbn [Ledger.results Ledger.init le_entry_id].
  rewrite lookup_empty. assert (Hb : Ledger.balance account (Ledger.init compose_balances) = Dec.zero).
  { unfold Ledger.balance. cbn [Ledger.balances Ledger.init]. unfold compose_balances. by rewrite lookup_insert_ne, lookup_singleton_ne by done. }
  cbn [le_account_id le_delta]. rewrite Hb. unfold Dec.add, Dec.zero at 1, Dec.of_Z. change (Z.min 0 0) with 0.
  change (10 ^ (0 - 0)) with 1. replace (0 * 1 + - k * 1) with (- k) by lia. rewrite Dec.fix_exact by first [lia | split; vm_compute; discriminate].
  rewrite Dec.lt_zero_fin, (proj2 (Z.ltb_lt _ _)) by lia. unfold ret, modify. do 2 eexists. by split_and!.
Qed.

(** Seed balances: a list of entries [account=amount], where the amounts
    are decimals printed with any number of digits after the point, is read
    as the balances it writes down, a later entry of an account replacing an
    earlier one. *)
Theorem seed_balances_round_trip es :
  es ≠ [] → Forall EntryPoint.seed_ok es →
  EntryPoint.parse_balances (String.string_of_list_ascii
    (PyText.join PyText.comma (EntryPoint.written ∘ EntryPoint.seed_entry <$> es))) =
  Ok (foldl (λ m e, <[String.string_of_list_ascii (EntryPoint.account e) :=
                      DFin (EntryPoint.coef e) (- Z.of_nat (EntryPoint.places e))]> m) ∅ es).
Proof. intros Hne He. by apply EntryPoint.parse_balances_written. Qed.

(** ** A raft container *)

Section raft_container.
Context {B : Type} {Hpb : Protobuf} {Hpickle : Pickle LedgerEntry B}.
Context {Wrv : Wire Pb.RequestVoteArgs B} {Wrvr : Wire Pb.RequestVoteReply B}.
Context {Wpv : Wire Pb.PreVoteArgs B} {Wpvr : Wire Pb.PreVoteReply B}.
Context {Wae : Wire (Pb.AppendEntriesArgs B) B} {Waer : Wire Pb.AppendEntriesReply B}.
Context {Wpq : Wire (Pb.ProposeRequest B) B} {Wpp : Wire Pb.ProposeReply B}.
Context {Hsrv : Server (Raft.World LedgerEntry Ledger.LedgerStateMachine (Grpc.GrpcRaftTransport LedgerEntry)) B}.
Variable peer_addresses : string → list (string * string).
Variable resolve : string → option string.
Variable ids : list string.
Hypothesis Hdep : GrpcRefine.deployed peer_addresses resolve ids.
Variable others : nat → list (Grpc.Event Ledger.LedgerStateMachine B * (nat → float → float → float)).
Variable stopped : nat → bool.

Abbreviation first_nodes sm0 := (Grpc.init (C := LedgerEntry) Containers.election_timeout_min Containers.election_timeout_max
  Containers.heartbeat_interval peer_addresses ids sm0).

Lemma init_node sm0 id : id ∈ ids → Grpc.nodes (first_nodes sm0) !! id =
  Some (Grpc.GrpcRaftNode (S := Ledger.LedgerStateMachine) Containers.election_timeout_min Containers.election_timeout_max
    Containers.heartbeat_interval peer_addresses id Storage.init sm0).
Proof.
  clear Hdep. unfold Grpc.init. cbn [Grpc.nodes]. induction ids as [|i l IH]; [by intros ?%not_elem_of_nil|]. intros Hin. simpl.
  destruct (decide (i = id)) as [->|Hne]; [by rewrite lookup_insert_eq|]. rewrite lookup_insert_ne by done. apply IH.
  by apply elem_of_cons in Hin as [->|?].
Qed.

(** C28 (the status of a raft container): run the entry point of a container
    whose environment gives it the name and the peers of a node, next to the
    other nodes and with any activity of the system between its accesses.  It
    prints what it starts, then one status line for each turn of its loop, then
    that it shuts down.  The loop goes on exactly as long as it finds the flag
    of the signal handler down: each turn found it down, and the one that
    was not made found it up, so the container returns once a signal has
    arrived, and it raises nothing.  The four values of a line are those the
    node has in the system when the line reads them, one after the other; the
    terms of the lines never go back. *)
Theorem raft_container_status fuel env cfg now rnd id m :
  EntryPoint.raft_node_config env = Ok cfg → EntryPoint.node_id cfg = id → EntryPoint.peer_addresses cfg = peer_addresses id →
  id ∈ ids → (∀ k, Forall (λ ev, GrpcRefine.event_ok (C := LedgerEntry) (λ _, True) ev.1) (others k)) →
  (∀ k, (m ≤ k)%nat → stopped k = true) → (m < fuel)%nat →
  let sys := first_nodes (Ledger.init (EntryPoint.initial_balances cfg)) in
  let started := (Grpc.on_node id (Runtime.start rnd now) (Containers.run_events peer_addresses resolve (others 0) sys)).2 in
  let '(r, h) := Containers.raft_node_main peer_addresses resolve others stopped fuel env now rnd (Containers.mkHost sys 0 []) in
  r = Ok tt ∧ ∃ ts lines, Containers.printed h =
      Containers.Starting id (EntryPoint.listen_port cfg) (fst <$> peer_addresses id) :: lines ++ [Containers.ShuttingDown id] ∧
    (∀ i, (i < length lines)%nat → stopped (5 * i + 1)%nat = false) ∧ stopped (5 * length lines + 1)%nat = true ∧
    (∀ i line, lines !! i = Some line → Containers.status_at peer_addresses resolve others started id i line) ∧
    Forall2 (Containers.status_of id) ts lines ∧ StronglySorted Z.le ts.
Proof.
  intros Hc Hi Hp Hid Ho Hst Hm sys started. rewrite <- Hp.
  apply (Containers.raft_node_main_lines peer_addresses resolve others stopped ids
    (Ledger.init (EntryPoint.initial_balances cfg)) Hdep Ho id Hid fuel m env cfg now rnd sys Hc Hi); [| |done|done].
  - unfold sys. rewrite init_node by done. unfold Containers.raft_node, Grpc.GrpcRaftNode. by rewrite Hi, Hp.
  - eexists. by apply (GrpcRefine.grpc_init_refines _ _ _ peer_addresses resolve ids).
Qed.
End raft_container.

(** ** The container of the coordinator *)

(** The sample traffic: in the container of the coordinator, over any
    client of the cluster and with any activity of the other threads, every
    turn of the loop submits a transaction and prints a status, between the
    lines of its start and its end.  What the fraud
    workers score are these transactions, debits of one of the ten accounts; each
    carries a verdict of the default rules, and a transaction of 25000 is always
    flagged. *)
Theorem container_traffic {P : Type} `{!Proposer P} env cfg (cluster : list (string * string) → P) now turns :
  EntryPoint.coordinator_config env = Ok cfg → 0 < EntryPoint.num_partitions cfg → Forall Containers.turn_ok turns →
  ∃ s, Containers.coordinator_main env cluster now turns = Ok s ∧
    (∃ sts, Containers.output s = Containers.CoordinatorStarting (EntryPoint.raft_addresses cfg).*1 ::
        (Containers.CoordinatorStatus <$> sts) ++ [Containers.CoordinatorShuttingDown] ∧ length sts = length turns) ∧
    ∀ sc, sc ∈ WorkerSystem.emitted (Coordinator.pipeline (Containers.coordinator s)) →
      ∃ t, t ∈ turns ∧ Containers.sampled (Containers.draws t) (Containers.txn_id t) (st_transaction sc) ∧
        Verdicts.verdict Scorer.default_config (st_transaction sc) (st_score sc) ∧
        (Containers.is_fraud_shaped (Containers.draws t) = true → fs_is_fraud (st_score sc) = true).
Proof.
  intros Hc Hn Hok. destruct (Containers.coordinator_main_run env cfg cluster now turns Hc Hn Hok) as (s & E & Hl & _ & [_ Hs] & [_ Hj]).
  exists s. split; [done|]. split; [done|]. intros sc Hin. rewrite Forall_forall in Hs, Hj.
  destruct (Hs sc Hin) as (t & Ht & Hsm). exists t. split; [done|]. split; [done|]. split; [by apply Hj|].
  intros Hf. eapply (Verdicts.default_large Scorer.default_config); [done|by apply Hj|]. rewrite (Containers.sm_amount _ _ _ Hsm), Hf. vm_compute. reflexivity.
Qed.

(** ** Concrete runs *)

Module ContainerDemo.

(** The container of [raft-1], told to stop after eleven accesses; meanwhile
    nothing happens, then its election timer runs out. *)
Definition others (k : nat) : list (Grpc.Event Ledger.LedgerStateMachine GrpcDemo.Blob * (nat → float → float → float)) :=
  if Nat.eqb k 6 then [(Grpc.Turn "raft-1" (F.of_Z 5), Demo.low)] else [].
Definition stopped (k : nat) : bool := Nat.leb 11 k.
Definition main : res unit * Containers.Host :=
  Containers.raft_node_main Containers.service_peers Containers.service_at others stopped 12
    (snd (Containers.raft_service "raft-1" "raft-2=raft-2:50051,raft-3=raft-3:50051,raft-4=raft-4:50051,raft-5=raft-5:50051"))
    F.zero Demo.low
    (Containers.mkHost (Grpc.init Containers.election_timeout_min Containers.election_timeout_max Containers.heartbeat_interval
      Containers.service_peers Containers.service_ids (Ledger.init compose_balances)) 0 []).

(** A cluster that takes every proposal. *)
#[export] Instance recorder : Proposer (list LedgerEntry) := λ entry _ l, (Ok tt, l ++ [entry]).

(** Two turns, the second fraud-shaped; [fraud-0] scores both, the submitter
    takes them. *)
Definition turn (d : Containers.Draws) (id : string) (events : list Coordinator.Event) : Containers.Turn :=
  Containers.mkTurn d id 0 0 [] events.
Definition work (id : string) : list Coordinator.Event :=
  replicate 12 (Coordinator.WorkerStep id (1000000, 1000000)) ++ [Coordinator.SubmitterTurn 2].
Definition turns : list Containers.Turn :=
  [turn (Containers.mkDraws 1 (F.lit 5 1) 42) "t1" (work "fraud-0" ++ work "fraud-1" ++ work "fraud-2");
   turn (Containers.mkDraws 1 (F.lit 5 2) 42) "t2" (work "fraud-0" ++ work "fraud-1" ++ work "fraud-2")].
Definition shell : res (Containers.Shell (list LedgerEntry)) :=
  Containers.coordinator_main Containers.coordinator_environment (λ _, []) F.zero turns.
End ContainerDemo.
#[local] Existing Instance ContainerDemo.recorder.

(** The compose file's balances, read back. *)
Lemma seed_balances_round_trip_witness :
  EntryPoint.parse_balances "acct-1=1000,acct-2=99.50,acct-1=-0.05" =
    Ok {["acct-1" := DFin (-5) (-2); "acct-2" := DFin 9950 (-2)]}.
Proof.
  set (es := [EntryPoint.mkSeed (PyText.text "acct-1") 1000 0; EntryPoint.mkSeed (PyText.text "acct-2") 9950 2;
              EntryPoint.mkSeed (PyText.text "acct-1") (-5) 2]).
  assert (H := seed_balances_round_trip es). revert H.
  change "acct-1=1000,acct-2=99.50,acct-1=-0.05" with (String.string_of_list_ascii
    (PyText.join PyText.comma (EntryPoint.written ∘ EntryPoint.seed_entry <$> es))).
  intros H. rewrite H.
  - vm_compute. reflexivity.
  - done.
  - repeat (apply Forall_cons; split; [split;
      [discriminate|apply (bool_decide_unpack _); vm_compute; exact I|apply (bool_decide_unpack _); vm_compute; exact I
      |intros c [= <-]; reflexivity|vm_compute; reflexivity|vm_compute; discriminate]|]).
    by apply Forall_nil.
Defined.

Lemma raft_container_status_witness :
  ContainerDemo.main.1 = Ok tt ∧
  ∃ ts lines, Containers.printed ContainerDemo.main.2 =
      Containers.Starting "raft-1" 50051 ["raft-2"; "raft-3"; "raft-4"; "raft-5"] :: lines ++ [Containers.ShuttingDown "raft-1"] ∧
    length lines = 2%nat ∧ (∀ i, (i < length lines)%nat → ContainerDemo.stopped (5 * i + 1)%nat = false) ∧
    Forall2 (Containers.status_of "raft-1") ts lines ∧ StronglySorted Z.le ts.
Proof.
  split; [vm_compute; reflexivity|].
  assert (Hc : ∃ cfg, EntryPoint.raft_node_config
      (snd (Containers.raft_service "raft-1" "raft-2=raft-2:50051,raft-3=raft-3:50051,raft-4=raft-4:50051,raft-5=raft-5:50051")) = Ok cfg ∧
    EntryPoint.node_id cfg = "raft-1" ∧ EntryPoint.peer_addresses cfg = Containers.service_peers "raft-1" ∧
    EntryPoint.initial_balances cfg = compose_balances ∧ EntryPoint.listen_port cfg = 50051)
    by (eexists; split; [vm_compute; reflexivity|]; repeat split; vm_compute; reflexivity).
  destruct Hc as (cfg & Hc & Hi & Hp & Hb & Hport).
  pose proof (raft_container_status Containers.service_peers Containers.service_at Containers.service_ids compose_deployed
    ContainerDemo.others ContainerDemo.stopped 12 _ cfg F.zero Demo.low "raft-1" 11 Hc Hi Hp) as H.
  cbv zeta in H. rewrite Hb in H. fold ContainerDemo.main in H. destruct ContainerDemo.main as [r h] eqn:E.
  destruct H as (_ & ts & lines & H1 & H2 & _ & _ & H3 & H4).
  - left.
  - intros k. unfold ContainerDemo.others. destruct (Nat.eqb k 6); repeat constructor.
  - intros k Hk. by apply Nat.leb_le.
  - lia.
  - exists ts, lines. rewrite Hport in H1. split; [exact H1|]. split; [|exact (conj H2 (conj H3 H4))].
    assert (Hl : length (Containers.printed ContainerDemo.main.2) = 4%nat) by (vm_compute; reflexivity).
    rewrite E in Hl. cbn [snd] in Hl. rewrite H1 in Hl. simpl in Hl. rewrite length_app in Hl. simpl in Hl. lia.
Defined.

(** One transaction is settled, the fraud-shaped one is flagged. *)
Lemma container_traffic_witness :
  ∃ s, ContainerDemo.shell = Ok s ∧ length (Containers.output s) = 4%nat ∧
    ((λ sc, (tx_id (st_transaction sc), fs_is_fraud (st_score sc))) <$>
       WorkerSystem.emitted (Coordinator.pipeline (Containers.coordinator s))) = [("t1", false); ("t2", true)].
Proof.
  assert (Hc : ∃ cfg, EntryPoint.coordinator_config Containers.coordinator_environment = Ok cfg ∧ EntryPoint.num_partitions cfg = 4)
    by (eexists; split; vm_compute; reflexivity).
  destruct Hc as (cfg & Hc & Hn).
  destruct (container_traffic Containers.coordinator_environment cfg (λ _, []) F.zero ContainerDemo.turns Hc) as (s & E & (sts & Hl & Hn2) & _).
  - lia.
  - assert (Hb : ∀ id, Forall Containers.background (ContainerDemo.work id)) by (intros id; repeat constructor).
    assert (Ht : ∀ coin id, Containers.turn_ok (ContainerDemo.turn (Containers.mkDraws 1 coin 42) id
      (ContainerDemo.work "fraud-0" ++ ContainerDemo.work "fraud-1" ++ ContainerDemo.work "fraud-2"))).
    { intros coin id. split; [split; simpl; lia|by constructor|]. apply Forall_app_2; [apply Hb|].
      apply Forall_app_2; apply Hb. }
    constructor; [apply Ht|]. constructor; [apply Ht|constructor].
  - exists s. split; [exact E|].
    split; [rewrite Hl; simpl; by rewrite length_app, length_fmap, Hn2|].
    assert (Hv : match ContainerDemo.shell with
      | Ok s => (λ sc, (tx_id (st_transaction sc), fs_is_fraud (st_score sc))) <$> WorkerSystem.emitted (Coordinator.pipeline (Containers.coordinator s))
      | Raise _ => [] end = [("t1", false); ("t2", true)]) by (vm_compute; reflexivity).
    unfold ContainerDemo.shell in Hv. by rewrite E in Hv.
Defined.
