(* ===== verification/PipelineProps.v ===== *)
(** * The pipeline as a whole

    Claims about the coordinator: where every scored transaction is, what
    reaches the ledger, what [balance] returns; and about the edges of the
    system, the address maps the containers are configured with and the
    runtime of a worker that was evicted. *)

From stdpp Require Import base gmap strings list.
From Stdlib Require Import ZArith SpecFloat Ascii Lia.
From S2P Require Import Prelude PyDecimal PyFloat Models StateMachine Ledger Submitter.
From S2P Require Import RaftTypes Storage Transport RaftNode RaftHistory Cluster Demo RaftProps Runtime RaftCluster ClusterProps.
From S2P Require Import Partitioner Broker Group Consumer Scorer Worker WorkerSystem FraudRuntime Coordinator Verdicts Owned Settlement PyText EntryPoint.

Local Open Scope Z_scope.

(** ** Every transaction is accounted for *)

(** C15 (the pipeline loses nothing): from the start of a coordinator on,
    however producers, worker threads, heartbeats, evictions, kills, revivals
    and the submitter interleave, every transaction a worker has scored is
    either on the output queue or was taken by the submitter, in the order it
    was scored; the submitter has counted each transaction it took exactly
    once, as submitted, flagged or failed, except the one at which an exception
    ended its thread; and every record of the log below the committed offset of
    its partition is among these transactions. *)
Theorem pipeline_accounts {P : Type} `{!Proposer P} num k timeout config ptimeout (cluster : P) c0 now es :
  Coordinator.init num k timeout config ptimeout cluster = Ok c0 → Forall Coordinator.no_start es →
  let c := Coordinator.run es (Coordinator.exec (Coordinator.Start now) c0) in
  let s := Coordinator.pipeline c in
  ∃ taken, WorkerSystem.emitted s = taken ++ Queue.items (WorkerSystem.queue s) ∧
    Submitter.handled (Coordinator.submitter c) ≤ zlen taken ≤ Submitter.handled (Coordinator.submitter c) + 1 ∧
    (Coordinator.submitting c = true → zlen taken = Submitter.handled (Coordinator.submitter c)) ∧
    ∀ p j (r : Broker.LogRecord Transaction), Z.of_nat j < WorkerSystem.committed p s →
      Broker.partition_of p (WorkerSystem.log_of s) !! j = Some r →
      WorkerSystem.delivered (taken ++ Queue.items (WorkerSystem.queue s)) r.
Proof.
  intros Hi Hes c s.
  destruct (Coordinator.run_accounted es _ [] Hes (Coordinator.start_accounted _ _ _ _ _ _ _ now Hi)) as (taken & Ha).
  exists taken. destruct Ha as [Hok Hh Hb Hr]. split; [exact Hh|]. split; [exact Hb|]. split; [exact Hr|].
  intros p j r Hj Hjr. pose proof (WorkerSystem.committed_delivered _ p j r Hok Hj Hjr) as Hd.
  unfold WorkerSystem.history in Hh. by rewrite Hh in Hd.
Qed.

(** C16 (scored transactions are well typed): in every interleaving, whatever
    the configuration of the scorer, each scored transaction a worker ever puts
    on the queue pairs a transaction that a producer submitted with a verdict on
    that transaction: a score in [0, 1], the fraud flag of the threshold, and
    the weights and reasons of exactly the rules that fired. *)
Theorem scored_transactions_typed {P : Type} `{!Proposer P} (Q : Transaction → Prop) num k timeout config ptimeout (cluster : P) c0 now es :
  Coordinator.init num k timeout config ptimeout cluster = Ok c0 → Forall Coordinator.no_start es → Forall (Coordinator.submits Q) es →
  let c := Coordinator.run es (Coordinator.exec (Coordinator.Start now) c0) in
  Forall (λ sc, Q (st_transaction sc) ∧ Verdicts.verdict (default Scorer.default_config config) (st_transaction sc) (st_score sc))
    (WorkerSystem.emitted (Coordinator.pipeline c)).
Proof.
  intros Hi Hns Hq c. destruct (Verdicts.started_run Q num k timeout config ptimeout cluster c0 now es Hi Hns Hq) as (_ & [_ Hs] & [_ Hj]).
  apply Forall_forall. rewrite Forall_forall in Hs, Hj. auto.
Qed.

(** ** Only cleared transactions are settled, each once *)

Section settlement.
Variables tmin tmax hb : float.
Variable ids : list string.
Hypothesis Hids : NoDup ids.
Variable w0 : Ledger.LedgerStateMachine.
Variable others : nat → list (RaftCluster.Op LedgerEntry * RaftCluster.Draws).
Variable clock : nat → float.
Variable fuel : nat.

#[local] Instance pipeline_proposer : Proposer (RaftCluster.Client LedgerEntry Ledger.LedgerStateMachine) :=
  Settlement.cluster_proposer tmin tmax hb ids others clock fuel.
Abbreviation run_ops := (RaftCluster.run (S := Ledger.LedgerStateMachine) tmin tmax hb ids).

(** C13 (what reaches the ledger): run the coordinator over its in-process
    cluster, in any interleaving of the pipeline's threads and of the cluster's
    (elections, crashes, restarts and cuts included), let the cluster go on
    after that, and let the submitted amounts be multiples of the unit.  Then
    the ledger of every replica is the specification ledger run over a list of
    entries that starts with what the replica has applied, and each of which
    is the entry of a transaction that a worker has scored and cleared; as the
    specification settles each transaction id once, a transaction delivered
    twice is settled once, and a flagged one never. *)
Theorem pipeline_settles e D B b num k timeout config ptimeout c0 now es tail id s :
  Dec.Etiny ≤ e ≤ 0 → 0 ≤ D → Ledger.implements e w0 (Ledger.spec_init b) → (∀ a, 0 ≤ b a ≤ B) →
  (∀ n, Settlement.silent (others n)) → Settlement.silent tail →
  Coordinator.init num k timeout config ptimeout (Settlement.new_client tmin tmax hb ids w0) = Ok c0 →
  Forall Coordinator.no_start es → Forall (Coordinator.submits (Settlement.payable e D)) es →
  let c := Coordinator.run es (Coordinator.exec (Coordinator.Start now) c0) in
  Cluster.slots (RaftCluster.cluster (run_ops tail (RaftCluster.shared (Coordinator.raft_cluster c)))) !! id = Some s →
  ∃ l, Forall (Settlement.cleared (WorkerSystem.emitted (Coordinator.pipeline c))) l ∧
    History.cmds (pfx (Raft.last_applied (Cluster.slot_node s)) (Storage.entries (Cluster.slot_storage s))) `prefix_of` l ∧
    (B + (zlen l + 1) * D < 10 ^ Dec.prec →
     Ledger.implements e (Cluster.slot_machine s) (Ledger.spec_run e l (Ledger.spec_init b))).
Proof.
  intros He HD Hw Hb Ho Ht Hi Hns Hq c. subst c. unfold pipeline_proposer in *. intros Hs.
  pose proof (Settlement.run_running tmin tmax hb ids Hids w0 others clock fuel Ho _ (Settlement.payable e D) es _ Hns Hq
    (Settlement.start_running tmin tmax hb ids w0 others clock fuel (Settlement.payable e D) num k timeout config ptimeout c0 now Hi)) as Hr.
  destruct Hr as [_ [_ Hso] Hse _ _]. set (out := WorkerSystem.emitted _) in *.
  destruct (Settlement.settles_point tmin tmax hb ids Hids w0 out _ tail Hse Ht) as (G & Hf & HI).
  destruct (slot_commands _ _ _ _ _ _ _ Hf HI Hs) as (l & Ha & _ & Hall & Hm).
  exists l. split; [done|]. split; [done|]. intros Hbound.
  destruct (Ledger.run_implements e He D l B w0 (Ledger.spec_init b) Hw HD Hb) as (w' & Hrun & Himp); [|done|].
  - eapply Forall_impl; [exact Hall|]. intros entry. by apply Settlement.cleared_bounded.
  - by rewrite (Hm w' Hrun).
Qed.

(** C14 (fraud stops before the ledger): run the coordinator over its
    in-process cluster with any configuration of the scorer, in any
    interleaving.  Every entry in the log of any replica, committed or not, is
    that of a submitted transaction which a worker has scored, and whose
    verdict by the rules was not fraud.  Under the default weights and
    threshold no log ever holds a transaction of the large-amount threshold or
    more, or one of a flagged device. *)
Theorem fraud_never_settles (Q : Transaction → Prop) num k timeout config ptimeout c0 now es tail id s :
  (∀ n, Settlement.silent (others n)) → Settlement.silent tail →
  Coordinator.init num k timeout config ptimeout (Settlement.new_client tmin tmax hb ids w0) = Ok c0 →
  Forall Coordinator.no_start es → Forall (Coordinator.submits Q) es →
  let cfg := default Scorer.default_config config in
  let c := Coordinator.run es (Coordinator.exec (Coordinator.Start now) c0) in
  Cluster.slots (RaftCluster.cluster (run_ops tail (RaftCluster.shared (Coordinator.raft_cluster c)))) !! id = Some s →
  Forall (λ entry, ∃ sc at_, sc ∈ WorkerSystem.emitted (Coordinator.pipeline c) ∧
      Q (st_transaction sc) ∧ Submitter.entry_for (st_transaction sc) at_ = Ok entry ∧
      Verdicts.verdict cfg (st_transaction sc) (st_score sc) ∧ fs_is_fraud (st_score sc) = false ∧
      (Verdicts.default_weighing cfg →
       Dec.ge (tx_amount (st_transaction sc)) (Scorer.large_amount_threshold cfg) = Ok false ∧
       Scorer.device_flagged (st_transaction sc) = false))
    (History.cmds (Storage.entries (Cluster.slot_storage s))).
Proof.
  intros Ho Ht Hi Hns Hq cfg c. subst c. unfold pipeline_proposer in *. intros Hs.
  pose proof (Settlement.run_running tmin tmax hb ids Hids w0 others clock fuel Ho _ Q es _ Hns Hq
    (Settlement.start_running tmin tmax hb ids w0 others clock fuel Q num k timeout config ptimeout c0 now Hi)) as [_ [_ Hso] Hse _ [_ Hj]].
  destruct (Settlement.settled_replica tmin tmax hb ids Hids w0 _ _ tail id s Hse Ht Hs) as [Hlog _].
  eapply Forall_impl; [exact Hlog|]. intros entry (sc & at_ & Hin & Hf & He). exists sc, at_. rewrite Forall_forall in Hso, Hj.
  split; [done|]. split; [by apply Hso|]. split; [done|]. split; [by apply Hj|]. split; [done|].
  intros Hw. eapply Verdicts.default_clear; [done|by apply Hj|done].
Qed.
End settlement.

(** ** Reading a balance *)

Section balance.
Variables tmin tmax hb : float.
Variable ids : list string.
Hypothesis Hids : NoDup ids.
Variable w0 : Ledger.LedgerStateMachine.
Variable others : nat → list (RaftCluster.Op LedgerEntry * RaftCluster.Draws).
Variable clock : nat → float.
Abbreviation quiet := (RaftCluster.quiet tmin tmax hb ids others).

(** A replica of a cluster in operation is solvent. *)
Lemma operating_solvent ops id s :
  Ledger.solvent w0 →
  Cluster.slots (RaftCluster.cluster (RaftCluster.run tmin tmax hb ids ops (RaftCluster.init tmin tmax hb ids w0))) !! id = Some s →
  Ledger.solvent (Cluster.slot_machine s).
Proof.
  intros Hw Hs. destruct (run_simulated tmin tmax hb ids Hids w0 ops) as (G & Hf).
  destruct (slot_anode _ _ _ _ _ _ _ Hf Hs) as (h & -> & _). by apply Ledger.effects_solvent.
Qed.

(** Reading a balance: on an in-process cluster that started solvent and
    that any operations have been done on, [balance] ends once the clock has
    passed its deadline, and does nothing to the cluster.  It returns the balance on
    the replica of a node that was found leading, at the moment of the read,
    and that is never negative; or it raises [TimeoutError], its last
    reading of the clock past the deadline. *)
Theorem balance_reads_leader ops fuel account timeout m (w : RaftCluster.Client LedgerEntry Ledger.LedgerStateMachine) :
  Ledger.solvent w0 →
  RaftCluster.shared w = RaftCluster.run tmin tmax hb ids ops (RaftCluster.init tmin tmax hb ids w0) →
  (∀ k, (m ≤ k)%nat → F.ge (clock k) (F.add (clock (RaftCluster.accesses w)) timeout) = true) → (m < fuel)%nat →
  let '(r, w') := Owned.balance tmin tmax hb ids others clock true fuel account timeout w in
  quiet w w' ∧
  match r with
  | Ok b => Dec.nonneg b ∧ ∃ n id s,
      RaftCluster.leads_in id (RaftCluster.elapsed tmin tmax hb ids others n w) = true ∧
      Cluster.slots (RaftCluster.cluster (RaftCluster.shared w')) !! id = Some s ∧
      b = Ledger.balance account (Cluster.slot_machine s)
  | Raise x => x = TimeoutError "no Raft leader available" ∧
      F.ge (clock (RaftCluster.accesses w' - 1)) (F.add (clock (RaftCluster.accesses w)) timeout) = true
  end.
Proof.
  intros Hw E Hm Hf.
  pose proof (Owned.balance_spec tmin tmax hb ids others clock true fuel account timeout w eq_refl
    (client_slots tmin tmax hb ids Hids w0 others ops w E)) as Hb.
  destruct (Owned.balance _ _ _ _ _ _ _ _ _ _ w) as [[b|x] w']; destruct Hb as [Q R]; (split; [done|]).
  - split; [|done]. destruct R as (_ & id & s & _ & Hs & ->). destruct Q as (n & Esh & _).
    rewrite Esh in Hs. unfold RaftCluster.elapsed, RaftCluster.run in Hs. rewrite E in Hs. unfold RaftCluster.run in Hs.
    rewrite <- foldl_app in Hs. by apply (operating_solvent _ _ _ Hw Hs).
  - destruct R as [[-> Hl]|[-> R]]; [by split|]. specialize (R m Hm). lia.
Qed.
End balance.

(** ** The edges of the system *)

(** The address map of a container: a list of entries [id=address],
    separated by commas and with any whitespace around each, is read as the
    map it writes down, in its order, when the ids differ, are not empty and
    hold no equals sign, and the addresses are not empty; an address may hold
    equals signs. *)
Theorem address_map_round_trip es :
  es ≠ [] → Forall EntryPoint.entry_ok es → NoDup (EntryPoint.binding <$> es).*1 →
  let value := String.string_of_list_ascii (PyText.join PyText.comma (EntryPoint.written <$> es)) in
  EntryPoint.raft_node_parse_address_map value = Ok (EntryPoint.binding <$> es) ∧
  EntryPoint.coordinator_parse_address_map value = Ok (EntryPoint.binding <$> es).
Proof. intros Hne He Hnd value. by split; apply EntryPoint.parse_written. Qed.

(** A worker that [check_expired_members] has evicted while its thread was
    alive never joins again: the thread's next heartbeat raises, and ends it. *)
Theorem evicted_worker_dies now (self : FraudRuntime.FraudWorkerRuntime) t turns last (w : Worker.World) gone g :
  Group.check_expired_members now (GroupConsumer.group (Worker.consumer w)) = (Ok gone, g) →
  Worker.member_id (FraudRuntime.worker self) ∈ gone →
  F.ge (F.sub (FraudRuntime.now t) last) (FraudRuntime.heartbeat_interval self) = true →
  let w' := Worker.mkWorld (GroupConsumer.mkWorld (GroupConsumer.log (Worker.consumer w)) g) (Worker.scorer w) (Worker.output_queue w) in
  FraudRuntime.run_from self (t :: turns) last w' = (Raise (ValueError "unknown member; call join() first"), w').
Proof.
  intros E Hin Hdue w'. apply FraudRuntime.run_unknown; [|done]. simpl. revert E.
  unfold Group.check_expired_members, bind, get, modify, ret, when. set (g0 := GroupConsumer.group (Worker.consumer w)).
  intros E. assert (Em : Group.members_ g = filter (λ m, m.1 ∉ gone) (Group.members_ g0)).
  { revert E. case_bool_decide; intros [= <- <-]; done. }
  rewrite Em, list_elem_of_fmap. intros (m & Hm & [Hgone _]%list_elem_of_filter). by rewrite <- Hm in Hgone.
Qed.

(** ** A concrete run *)

Module PipelineDemo.

(** The cluster's threads elect [a] before the submitter's first access. *)
Definition others (k : nat) : list Threads.Op := if Nat.eqb k 0 then Threads.elect else [].
#[local] Instance proposer : Proposer (RaftCluster.Client LedgerEntry Ledger.LedgerStateMachine) :=
  Settlement.cluster_proposer Demo.tmin Demo.tmax Demo.hb Demo.ids others Threads.clock 8.

Definition deposit : Transaction :=
  mkTransaction "alice" CREDIT (DFin 10000 (-2)) None "USD" "us-east" PENDING "t1" 0 ∅.
Definition step (thread : string) (at_ : Z) : Coordinator.Event := Coordinator.WorkerStep thread (at_, at_).
(** The deposit is scored, taken, and proposed; the worker is killed before it
    commits, and its thread is slow to end.  Meanwhile the worker is revived:
    its new thread scores the deposit again, and it is proposed again; then the
    old thread commits the record too, and ends. *)
Definition first : list Coordinator.Event :=
  [Coordinator.SubmitTransaction deposit 1] ++ replicate 5 (step "fraud-0" 1000000) ++
  [Coordinator.KillFraudWorker "fraud-0"; Coordinator.SubmitterTurn 2].
Definition events : list Coordinator.Event :=
  first ++ [Coordinator.ReviveFraudWorker "fraud-0" F.zero] ++ replicate 6 (step "fraud-0'" 2000000) ++ [Coordinator.SubmitterTurn 3] ++
  replicate 4 (step "fraud-0" 3000000) ++ [Coordinator.WorkerEnds "fraud-0"].
(** The cluster replicates the two entries and commits them. *)
Definition tail : list Threads.Op :=
  flat_map (λ t, [Threads.T "a" t; Threads.T "b" (t + 1); Threads.T "c" (t + 1); Threads.T "a" (t + 2)]) [220; 280; 340].

Abbreviation new_client := (Settlement.new_client Demo.tmin Demo.tmax Demo.hb Demo.ids (Ledger.init ∅)).
Definition c0 : Coordinator.Coordinator (RaftCluster.Client LedgerEntry Ledger.LedgerStateMachine) :=
  match Coordinator.init 1 1 (F.lit 1 0) None (F.of_Z 3) new_client with
  | Ok c => c
  | Raise _ => Coordinator.mkCoordinator (WorkerSystem.init (Broker.mkLog "" [] ∅) (Group.mkGroup "" 1 F.zero [] ∅) 0)
                 (Submitter.init F.zero) Coordinator.Ended new_client None [] ∅
  end.
Definition final : Coordinator.Coordinator (RaftCluster.Client LedgerEntry Ledger.LedgerStateMachine) :=
  Coordinator.run events (Coordinator.exec (Coordinator.Start F.zero) c0).

Lemma c0_init : Coordinator.init 1 1 (F.lit 1 0) None (F.of_Z 3) new_client = Ok c0.
Proof. vm_compute. reflexivity. Qed.

Lemma events_no_start : Forall Coordinator.no_start events.
Proof. repeat (apply Forall_cons; split; [exact I|]). apply Forall_nil. exact I. Qed.

Lemma events_payable : Forall (Coordinator.submits (Settlement.payable (-2) 10000)) events.
Proof.
  apply Forall_cons. split; [|repeat (apply Forall_cons; split; [exact I|]); apply Forall_nil; exact I].
  exists 10000, (-2). split; [reflexivity|]. split; [split; vm_compute; reflexivity|].
  split; [split; vm_compute; discriminate|]. vm_compute. discriminate.
Qed.

Lemma others_silent k : Settlement.silent (others k).
Proof.
  unfold others. destruct (Nat.eqb k 0); [|apply Forall_nil; exact I].
  repeat (apply Forall_cons; split; [exact I|]). apply Forall_nil. exact I.
Qed.

Lemma tail_silent : Settlement.silent tail.
Proof. repeat (apply Forall_cons; split; [exact I|]). apply Forall_nil. exact I. Qed.

Definition replica (id : string) : Cluster.Slot :=
  Demo.slot id (RaftCluster.cluster (RaftCluster.run Demo.tmin Demo.tmax Demo.hb Demo.ids tail
    (RaftCluster.shared (Coordinator.raft_cluster final)))).
End PipelineDemo.
#[local] Existing Instance PipelineDemo.proposer.

(** Two copies of the deposit are scored, taken and counted. *)
Lemma pipeline_accounts_witness :
  Submitter.submitted_count (Coordinator.submitter PipelineDemo.final) = 2 ∧
  ∃ taken, WorkerSystem.emitted (Coordinator.pipeline PipelineDemo.final) =
      taken ++ Queue.items (WorkerSystem.queue (Coordinator.pipeline PipelineDemo.final)) ∧
    zlen taken = Submitter.handled (Coordinator.submitter PipelineDemo.final).
Proof.
  split; [vm_compute; reflexivity|].
  destruct (pipeline_accounts 1 1 (F.lit 1 0) None (F.of_Z 3) (Settlement.new_client Demo.tmin Demo.tmax Demo.hb Demo.ids (Ledger.init ∅))
    PipelineDemo.c0 F.zero PipelineDemo.events PipelineDemo.c0_init) as (taken & H1 & _ & H3 & _).
  - exact PipelineDemo.events_no_start.
  - exists taken. split; [exact H1|]. apply H3. vm_compute. reflexivity.
Defined.

(** The deposit is in the log of [b] twice, and on its account once. *)
Lemma pipeline_settles_witness :
  let s := PipelineDemo.replica "b" in
  zlen (Storage.entries (Cluster.slot_storage s)) = 2 ∧ Raft.last_applied (Cluster.slot_node s) = 2 ∧
  Ledger.balance "alice" (Cluster.slot_machine s) = DFin 10000 (-2) ∧
  ∃ l, Forall (Settlement.cleared (WorkerSystem.emitted (Coordinator.pipeline PipelineDemo.final))) l ∧
    History.cmds (pfx (Raft.last_applied (Cluster.slot_node s)) (Storage.entries (Cluster.slot_storage s))) `prefix_of` l ∧
    (0 + (zlen l + 1) * 10000 < 10 ^ Dec.prec →
     Ledger.implements (-2) (Cluster.slot_machine s) (Ledger.spec_run (-2) l (Ledger.spec_init (λ _, 0)))).
Proof.
  cbv zeta. split; [vm_compute; reflexivity|]. split; [vm_compute; reflexivity|]. split; [vm_compute; reflexivity|].
  apply (pipeline_settles Demo.tmin Demo.tmax Demo.hb Demo.ids Demo.ids_nodup (Ledger.init ∅) PipelineDemo.others
    Threads.clock 8 (-2) 10000 0 (λ _, 0) 1 1 (F.lit 1 0) None (F.of_Z 3) PipelineDemo.c0 F.zero PipelineDemo.events
    PipelineDemo.tail "b").
  - split; vm_compute; discriminate.
  - vm_compute. discriminate.
  - split; [intros a; vm_compute; split; [split; discriminate|reflexivity]|done].
  - done.
  - exact PipelineDemo.others_silent.
  - exact PipelineDemo.tail_silent.
  - exact PipelineDemo.c0_init.
  - exact PipelineDemo.events_no_start.
  - exact PipelineDemo.events_payable.
  - vm_compute. reflexivity.
Defined.

(** The two copies of the deposit on the queue. *)
Lemma scored_transactions_typed_witness :
  zlen (WorkerSystem.emitted (Coordinator.pipeline PipelineDemo.final)) = 2 ∧
  Forall (λ sc, Settlement.payable (-2) 10000 (st_transaction sc) ∧ Verdicts.verdict Scorer.default_config (st_transaction sc) (st_score sc))
    (WorkerSystem.emitted (Coordinator.pipeline PipelineDemo.final)).
Proof.
  split; [vm_compute; reflexivity|]. unfold PipelineDemo.final.
  apply (scored_transactions_typed (Settlement.payable (-2) 10000) 1 1 (F.lit 1 0) None (F.of_Z 3)
    (Settlement.new_client Demo.tmin Demo.tmax Demo.hb Demo.ids (Ledger.init ∅)) PipelineDemo.c0 F.zero PipelineDemo.events).
  - exact PipelineDemo.c0_init.
  - exact PipelineDemo.events_no_start.
  - exact PipelineDemo.events_payable.
Defined.

(** The entries of [b] are those of deposits that were cleared. *)
Lemma fraud_never_settles_witness :
  let s := PipelineDemo.replica "b" in
  zlen (Storage.entries (Cluster.slot_storage s)) = 2 ∧
  Forall (λ entry, ∃ sc at_, sc ∈ WorkerSystem.emitted (Coordinator.pipeline PipelineDemo.final) ∧
      Settlement.payable (-2) 10000 (st_transaction sc) ∧ Submitter.entry_for (st_transaction sc) at_ = Ok entry ∧
      Verdicts.verdict Scorer.default_config (st_transaction sc) (st_score sc) ∧ fs_is_fraud (st_score sc) = false ∧
      (Verdicts.default_weighing Scorer.default_config →
       Dec.ge (tx_amount (st_transaction sc)) (Scorer.large_amount_threshold Scorer.default_config) = Ok false ∧
       Scorer.device_flagged (st_transaction sc) = false))
    (History.cmds (Storage.entries (Cluster.slot_storage s))).
Proof.
  cbv zeta. split; [vm_compute; reflexivity|].
  apply (fraud_never_settles Demo.tmin Demo.tmax Demo.hb Demo.ids Demo.ids_nodup (Ledger.init ∅) PipelineDemo.others
    Threads.clock 8 (Settlement.payable (-2) 10000) 1 1 (F.lit 1 0) None (F.of_Z 3) PipelineDemo.c0 F.zero PipelineDemo.events
    PipelineDemo.tail "b").
  - exact PipelineDemo.others_silent.
  - exact PipelineDemo.tail_silent.
  - exact PipelineDemo.c0_init.
  - exact PipelineDemo.events_no_start.
  - exact PipelineDemo.events_payable.
  - vm_compute. reflexivity.
Defined.

Lemma balance_reads_leader_witness :
  let '(r, w') := Owned.balance Demo.tmin Demo.tmax Demo.hb Demo.ids Threads.idle Threads.clock true 8 "alice" (F.of_Z 3)
    (Threads.client Threads.elect) in
  r = Ok Dec.zero ∧ Dec.nonneg Dec.zero.
Proof.
  pose proof (balance_reads_leader Demo.tmin Demo.tmax Demo.hb Demo.ids Demo.ids_nodup (Ledger.init ∅) Threads.idle Threads.clock
    Threads.elect 8 "alice" (F.of_Z 3) 3 (Threads.client Threads.elect)) as H.
  assert (E : (Owned.balance Demo.tmin Demo.tmax Demo.hb Demo.ids Threads.idle Threads.clock true 8 "alice" (F.of_Z 3)
    (Threads.client Threads.elect)).1 = Ok Dec.zero) by (vm_compute; reflexivity).
  destruct (Owned.balance _ _ _ _ _ _ _ _ _ _ _) as [r w']. cbn [fst] in E. subst r. split; [reflexivity|].
  apply H.
  - intros a. vm_compute. discriminate.
  - apply Threads.client_shared.
  - intros k Hk. apply (Threads.readings (λ t, F.ge t _) 3); [vm_compute; reflexivity|lia|done].
  - lia.
Defined.

(** [" raft-1=raft-1:50051,raft-2=host=a"], a space and an equals sign
    included. *)
Definition two_entries : list EntryPoint.Entry :=
  let chars := String.list_ascii_of_string in
  [EntryPoint.mkEntry (chars " ") (chars "raft-1") (chars "raft-1:50051") [];
   EntryPoint.mkEntry [] (chars "raft-2") (chars "host=a") []].

Lemma address_map_round_trip_witness :
  EntryPoint.raft_node_parse_address_map " raft-1=raft-1:50051,raft-2=host=a" =
    Ok [("raft-1", "raft-1:50051"); ("raft-2", "host=a")]%string.
Proof.
  destruct (address_map_round_trip two_entries) as [H _].
  - discriminate.
  - repeat (apply Forall_cons; split); [| |apply Forall_nil; exact I]; split; try (apply (bool_decide_unpack _); vm_compute; exact I);
      try discriminate; vm_compute; by intros c [= <-].
  - apply (bool_decide_unpack _). vm_compute. exact I.
  - exact H.
Defined.
