(* ===== verification/Scripts.v ===== *)
(** * The demo scripts (scripts/demo_conflicting_transactions.py,
      scripts/demo_kill_leader.py, scripts/demo_fraud_burst.py)

    The scripts as programs of the main thread over a coordinator with a
    cluster of its own.  Before the [k]-th thing the main thread does, the
    threads of the pipeline have done [meanwhile k]; the cluster's threads act
    between the accesses of its client ([others], as in RaftCluster.v).  The
    main thread and the submitter share the client. *)

From stdpp Require Import base gmap strings list pretty.
From Stdlib Require Import ZArith SpecFloat Lia.
From S2P Require Import Prelude PyDecimal PyFloat Models StateMachine Ledger Submitter.
From S2P Require Import RaftTypes Storage Transport RaftNode Cluster Runtime RaftCluster.
From S2P Require Import Scorer Worker WorkerSystem Coordinator Verdicts Chaos Owned Settlement Containers.

Local Open Scope Z_scope.

Module Scripts.
Section scripts.
Variables tmin tmax hb : float.
Variable ids : list string.
Variable others : nat → list (RaftCluster.Op LedgerEntry * RaftCluster.Draws).
Variable clock : nat → float.
Variable fuel : nat.
Variable meanwhile : nat → list Coordinator.Event.
(** [time.monotonic()] of the main thread *)
Variable time : nat → float.

Abbreviation Client := (RaftCluster.Client LedgerEntry Ledger.LedgerStateMachine).
#[local] Instance script_proposer : Proposer Client := Settlement.cluster_proposer tmin tmax hb ids others clock fuel.

Record Script := mkScript {
  coordinator : Coordinator.Coordinator Client;
  steps : nat;
  printed : list fstring
}.
Abbreviation K := (Py Script).
Implicit Types w : Script.

(** What the main thread finds at its next step. *)
Definition elapse w : Coordinator.Coordinator Client := Coordinator.run (meanwhile (steps w)) (coordinator w).

Definition with_cluster (cl : Client) (c : Coordinator.Coordinator Client) : Coordinator.Coordinator Client :=
  Coordinator.mkCoordinator (Coordinator.pipeline c) (Coordinator.submitter c) (Coordinator.submitter_life c) cl
    (Coordinator.scorer_config c) (Coordinator.fraud_runtimes c) (Coordinator.stopping c).

(** A call of the coordinator, a call of its cluster, a reading of a field, a
    reading of the clock, a sleep, a [print]. *)
Definition act (e : Coordinator.Event) : K unit :=
  modify (λ w, mkScript (Coordinator.exec e (elapse w)) (Datatypes.S (steps w)) (printed w)).
Definition on_cluster {A} (m : Py Client A) : K A := λ w,
  let c := elapse w in
  let '(r, cl) := m (Coordinator.raft_cluster c) in (r, mkScript (with_cluster cl c) (Datatypes.S (steps w)) (printed w)).
Definition read {A} (f : Coordinator.Coordinator Client → A) : K A := λ w,
  let c := elapse w in (Ok (f c), mkScript c (Datatypes.S (steps w)) (printed w)).
Definition monotonic : K float := λ w, (Ok (time (steps w)), mkScript (elapse w) (Datatypes.S (steps w)) (printed w)).
Definition sleep : K unit := modify (λ w, mkScript (elapse w) (Datatypes.S (steps w)) (printed w)).
Definition print (line : fstring) : K unit := modify (λ w, mkScript (coordinator w) (steps w) (printed w ++ [line])).

(** ** The calls of the scripts *)

(** What [start] reads: the draws and clock of the nodes, and the clock of the
    group. *)
Record Boot := mkBoot { boot_draws : RaftCluster.Draws; boot_clock : string → float; join_clock : float }.

(** [coordinator.start()] and [coordinator.stop()]; nothing runs before the
    start. *)
Definition start (b : Boot) : K unit := λ w,
  let c := coordinator w in
  let '(r, cl) := RaftCluster.access tmin tmax hb ids others (RaftCluster.start ids (boot_draws b) (boot_clock b)) (Coordinator.raft_cluster c) in
  let w1 := mkScript (with_cluster cl c) (steps w) (printed w) in
  match r with
  | Ok _ => (Ok tt, mkScript (Coordinator.exec (Coordinator.Start (join_clock b)) (coordinator w1)) (steps w) (printed w))
  | Raise x => (Raise x, w1)
  end.
Definition stop : K unit :=
  (act Coordinator.Stop ;;; on_cluster (RaftCluster.access tmin tmax hb ids others (RaftCluster.stop ids)))%py.

Definition balance (account : string) : K Decimal :=
  on_cluster (Owned.balance tmin tmax hb ids others clock true fuel account (F.lit 2 0)).
Definition submit (txn : Transaction) (now : datetime) : K unit := act (Coordinator.SubmitTransaction txn now).

(** [while time.monotonic() < deadline and again(b): time.sleep(0.02); b =
    coordinator.balance(account)] *)
Fixpoint poll (n : nat) (account : string) (deadline : float) (again : Decimal → bool) (b : Decimal) : K Decimal :=
  match n with
  | O => raise OutOfFuel
  | Datatypes.S n =>
      (now <- monotonic ;;
       if F.lt now deadline && again b
       then sleep ;;; b <- balance account ;; poll n account deadline again b
       else ret b)%py
  end.

Definition deadline_in (timeout : float) : K float := (now <- monotonic ;; ret (F.add now timeout))%py.

(** The id and timestamps of a new transaction. *)
Record Stamp := mkStamp { stamp_id : string; created_at : datetime; produced_at : datetime }.
Definition debit (account : string) (amount : Z) (s : Stamp) : res Transaction := Containers.debit account (Dec.of_Z amount) (stamp_id s) (created_at s).

(** ** demo_conflicting_transactions.py *)

(** The threads [t1] and [t2] pass the barrier together: either may submit
    first. *)
Definition fire_both (swap : bool) (txn_a txn_b : Transaction) (a b : Stamp) : K unit :=
  (if swap then submit txn_b (produced_at b) ;;; submit txn_a (produced_at a)
   else submit txn_a (produced_at a) ;;; submit txn_b (produced_at b))%py.

Definition conflicting_body (swap : bool) (a b : Stamp) : K unit :=
  (print [FLit "Starting balance for acct-1: $100"] ;;;
   txn_a <- lift (debit "acct-1" 80 a) ;;
   txn_b <- lift (debit "acct-1" 80 b) ;;
   print [FLit "Firing two concurrent $80 debits: "; FStr (String.substring 0 8 (tx_id txn_a)); FLit " and ";
          FStr (String.substring 0 8 (tx_id txn_b))] ;;;
   fire_both swap txn_a txn_b a b ;;;
   deadline <- deadline_in (F.lit 5 0) ;;
   final_balance <- balance "acct-1" ;;
   final_balance <- poll fuel "acct-1" deadline (λ b, Dec.eqb b (Dec.of_Z 100)) final_balance ;;
   print [FLit "Final balance: $"; FDec final_balance] ;;;
   if Dec.eqb final_balance (Dec.of_Z 20)
   then print [FLit "PASS: exactly one $80 debit was accepted -- no double-spend."]
   else print [FLit "UNEXPECTED final balance: "; FDec final_balance; FLit " (expected $20)"])%py.

(** ** demo_kill_leader.py *)

Definition kill_leader_body (a b : Stamp) : K unit :=
  (print [FLit "Settling one transaction before the kill..."] ;;;
   txn1 <- lift (debit "acct-1" 100 a) ;;
   submit txn1 (produced_at a) ;;;
   deadline <- deadline_in (F.lit 3 0) ;;
   balance1 <- balance "acct-1" ;;
   balance1 <- poll fuel "acct-1" deadline (λ b, negb (Dec.eqb b (Dec.of_Z 900))) balance1 ;;
   print [FLit "Balance after txn1: $"; FDec balance1] ;;;
   old_leader <- on_cluster (RaftCluster.find_leader tmin tmax hb ids others clock fuel (F.lit 2 0)) ;;
   match old_leader with
   | None => raise AssertionError
   | Some old_leader =>
       old_term <- on_cluster (RaftCluster.access tmin tmax hb ids others (RaftCluster.on_runtime old_leader Runtime.current_term)) ;;
       killed_id <- on_cluster (Chaos.kill_raft_leader tmin tmax hb ids others clock fuel (F.lit 2 0)) ;;
       print [FLit "Killed leader "; FStr killed_id; FLit " (term "; FInt old_term; FLit ")"] ;;;
       print [FLit "Submitting a second transaction immediately (mid-failover)..."] ;;;
       txn2 <- lift (debit "acct-1" 200 b) ;;
       submit txn2 (produced_at b) ;;;
       new_leader <- on_cluster (Chaos.wait_for_new_leader tmin tmax hb ids others clock fuel old_term (F.lit 3 0)) ;;
       new_term <- on_cluster (RaftCluster.access tmin tmax hb ids others (RaftCluster.on_runtime new_leader Runtime.current_term)) ;;
       print [FLit "New leader elected: "; FStr new_leader; FLit " (term "; FInt new_term; FLit ")"] ;;;
       deadline <- deadline_in (F.lit 3 0) ;;
       final_balance <- balance "acct-1" ;;
       final_balance <- poll fuel "acct-1" deadline (λ b, negb (Dec.eqb b (Dec.of_Z 700))) final_balance ;;
       print [FLit "Final balance: $"; FDec final_balance; FLit " (expected $700: 1000 - 100 - 200)"] ;;;
       if Dec.eqb final_balance (Dec.of_Z 700)
       then print [FLit "PASS: no transaction lost or double-applied across the leader failover."]
       else print [FLit "UNEXPECTED final balance: "; FDec final_balance]
   end)%py.

(** ** demo_fraud_burst.py *)

(** [coordinator.status()], field by field. *)
Definition status : K Coordinator.Status :=
  (raft <- on_cluster (Owned.raft_status tmin tmax hb ids others true) ;;
   assignment <- read (λ c, Coordinator.fraud_partition_assignment (Coordinator.status c)) ;;
   submitted <- read (λ c, Coordinator.submitted_count (Coordinator.status c)) ;;
   flagged <- read (λ c, Coordinator.fraud_flagged_count (Coordinator.status c)) ;;
   failed <- read (λ c, Coordinator.failed_transaction_ids (Coordinator.status c)) ;;
   ret (Coordinator.mkStatus assignment submitted flagged failed))%py.

(** The division of floats, and of ints below [2 ^ 53], which are exact as
    floats. *)
Definition float_of_int (n : Z) : res float :=
  match F.of_Z n with S754_infinity _ => Raise OverflowError | f => Ok f end.
Definition truediv (a b : float) : res float :=
  match b with S754_zero _ => Raise ZeroDivisionError | _ => Ok (F.div a b) end.
Definition int_truediv (a b : Z) : res float := (x <-? float_of_int a ;; y <-? float_of_int b ;; truediv x y)%py.

Definition num_accounts : nat := 20.
Definition legit_per_account : nat := 3.
Definition velocity_burst_count : nat := 25.
Definition large_amount_count : nat := 25.
Definition legit_count : nat := num_accounts * legit_per_account.
Definition fraud_shaped : nat := velocity_burst_count + large_amount_count.
Definition burst_total : nat := legit_count + fraud_shaped.
Definition acct (i : nat) : string := "acct-" +:+ pretty i.

Definition submit_debit (account : string) (amount : Z) (s : Stamp) : K unit :=
  (txn <- lift (debit account amount s) ;; submit txn (produced_at s))%py.

(** [while time.monotonic() < deadline: ...] *)
Fixpoint await_processed (n : nat) (deadline : float) (total : Z) : K unit :=
  match n with
  | O => raise OutOfFuel
  | Datatypes.S n =>
      (now <- monotonic ;;
       if F.lt now deadline then
         st <- status ;;
         if total <=? Coordinator.submitted_count st + Coordinator.fraud_flagged_count st then ret tt
         else sleep ;;; await_processed n deadline total
       else ret tt)%py
  end.

(** [stamps k] is the stamp of the [k]-th transaction. *)
Definition burst_body (stamps : nat → Stamp) : K unit :=
  (print [FLit "Submitting "; FInt (Z.of_nat legit_count); FLit " normal transactions across "; FInt (Z.of_nat num_accounts);
          FLit " accounts..."] ;;;
   for_each (λ i, submit_debit (acct (i `mod` num_accounts)) 25 (stamps i)) (seq 0 legit_count) ;;;
   print [FLit "Firing a burst of "; FInt (Z.of_nat fraud_shaped); FLit " fraud-shaped transactions..."] ;;;
   start <- monotonic ;;
   for_each (λ i, submit_debit "acct-victim" 15 (stamps (legit_count + i)%nat)) (seq 0 velocity_burst_count) ;;;
   for_each (λ i, submit_debit (acct (i `mod` num_accounts)) 25000 (stamps (legit_count + velocity_burst_count + i)%nat))
     (seq 0 large_amount_count) ;;;
   deadline <- deadline_in (F.lit 10 0) ;;
   await_processed fuel deadline (Z.of_nat burst_total) ;;;
   now <- monotonic ;;
   st <- status ;;
   let elapsed := F.sub now start in
   let flagged := Coordinator.fraud_flagged_count st in
   let processed := Coordinator.submitted_count st + flagged in
   print [] ;;;
   rate <- lift (x <-? float_of_int processed ;; truediv x elapsed) ;;
   print [FLit "Processed "; FInt processed; FLit "/"; FInt (Z.of_nat burst_total); FLit " transactions in ";
          FFormat ".2f" elapsed; FLit "s ("; FFormat ".0f" rate; FLit " txn/s)"] ;;;
   print [FLit "Settled clean:   "; FInt (Coordinator.submitted_count st)] ;;;
   print [FLit "Flagged fraud:   "; FInt flagged; FLit "  (of ~"; FInt (Z.of_nat fraud_shaped);
          FLit " fraud-shaped transactions injected)"] ;;;
   share <- lift (int_truediv (Z.min flagged (Z.of_nat fraud_shaped)) (Z.of_nat fraud_shaped)) ;;
   print [FLit "Approx catch rate: "; FFormat ".0%" share])%py.

(** A script's coordinator has a cluster of its own whose replicas start with
    [w0]; [stop] runs however the script ends. *)
Definition new_coordinator (num_partitions : Z) (num_fraud_workers : nat) (config : option Scorer.ScorerConfig)
    (w0 : Ledger.LedgerStateMachine) : res (Coordinator.Coordinator Client) :=
  Coordinator.init num_partitions num_fraud_workers (F.lit 1 0) config (F.lit 2 0) (Settlement.new_client tmin tmax hb ids w0).
Definition run_script (num_partitions : Z) (num_fraud_workers : nat) (config : option Scorer.ScorerConfig)
    (w0 : Ledger.LedgerStateMachine) (boot : Boot) (body : K unit) : res (res unit * Script) :=
  (c <-? new_coordinator num_partitions num_fraud_workers config w0 ;;
   Ok ((start boot ;;; try_finally body stop)%py (mkScript c 0 [])))%py.
End scripts.

(** The default timing of [RaftCluster.__init__]. *)
Definition election_timeout_min : float := F.lit 15 2.
Definition election_timeout_max : float := F.lit 3 1.
Definition heartbeat_interval : float := F.lit 5 2.

Definition seeded (amount : Z) : Ledger.LedgerStateMachine := Ledger.init {["acct-1" := Dec.of_Z amount]}.

(** [main] of demo_conflicting_transactions.py, on the three nodes of the
    coordinator's default. *)
Definition three_nodes : list string := ["raft-1"; "raft-2"; "raft-3"].
Definition conflicting_main others clock fuel meanwhile time (swap : bool) (boot : Boot) (a b : Stamp) : res (res unit * Script) :=
  run_script election_timeout_min election_timeout_max heartbeat_interval three_nodes others clock fuel meanwhile 2 2 None (seeded 100) boot
    (conflicting_body election_timeout_min election_timeout_max heartbeat_interval three_nodes others clock fuel meanwhile time swap a b).

(** [main] of demo_kill_leader.py, on five nodes. *)
Definition five_nodes : list string := ["raft-1"; "raft-2"; "raft-3"; "raft-4"; "raft-5"].
Definition kill_leader_main others clock fuel meanwhile time (boot : Boot) (a b : Stamp) : res (res unit * Script) :=
  run_script election_timeout_min election_timeout_max heartbeat_interval five_nodes others clock fuel meanwhile 2 2 None (seeded 1000) boot
    (kill_leader_body election_timeout_min election_timeout_max heartbeat_interval five_nodes others clock fuel meanwhile time a b).

(** [main] of demo_fraud_burst.py, on three nodes. *)
Definition burst_config : Scorer.ScorerConfig :=
  Scorer.mkConfig (Dec.of_Z 10000) (F.lit 5 0) 5 (Scorer.device_flag_weight Scorer.default_config)
    (Scorer.large_amount_weight Scorer.default_config) (Scorer.velocity_weight Scorer.default_config)
    (Scorer.fraud_threshold Scorer.default_config).
Definition burst_seed : Ledger.LedgerStateMachine :=
  Ledger.init (list_to_map ((λ i, (acct i, Dec.of_Z 5000)) <$> seq 0 num_accounts)).
Definition burst_main others clock fuel meanwhile time (boot : Boot) (stamps : nat → Stamp) : res (res unit * Script) :=
  run_script election_timeout_min election_timeout_max heartbeat_interval three_nodes others clock fuel meanwhile 4 3 (Some burst_config)
    burst_seed boot
    (burst_body election_timeout_min election_timeout_max heartbeat_interval three_nodes others clock fuel meanwhile time stamps).

End Scripts.
