(* ===== verification/ScriptLogic.v ===== *)
(** * Reasoning about the demo scripts

    [wpx] is the weakest precondition of a step of a script that may also end
    with an exception.  At every step the coordinator is in operation
    ([Settlement.running]) and every replica satisfies an invariant of the
    ledger that the entries of the submitted transactions preserve; each call of
    a script has a rule, and none runs out of fuel when the clocks advance. *)

From stdpp Require Import base gmap strings list.
From Stdlib Require Import ZArith SpecFloat Lia.
From S2P Require Import Prelude PyDecimal PyFloat Models StateMachine Ledger Submitter.
From S2P Require Import RaftTypes Storage Transport RaftNode Cluster Runtime RaftCluster.
From S2P Require Import Broker Group Scorer Worker WorkerSystem Coordinator Verdicts Chaos Owned Settlement Containers Scripts.
Import Scripts.

Local Open Scope Z_scope.

Module ScriptLogic.
Section logic.
Variables tmin tmax hb : float.
Variable ids : list string.
Hypothesis Hids : NoDup ids.
Variable w0 : Ledger.LedgerStateMachine.
Variable others : nat → list (RaftCluster.Op LedgerEntry * RaftCluster.Draws).
Variable clock : nat → float.
Variable fuel : nat.
Variable meanwhile : nat → list Coordinator.Event.
Variable time : nat → float.
Hypothesis Hothers : ∀ k, Settlement.silent (others k).
Hypothesis Hmeanwhile : ∀ k, Forall Containers.background (meanwhile k).

(** The configuration of the scorer. *)
Variable config : option Scorer.ScorerConfig.
Abbreviation cfg := (default Scorer.default_config config).

(** The submitted transactions, and an invariant of the ledger under the entries
    of those that are cleared. *)
Variable Q : Transaction → Prop.
Variable I : Ledger.LedgerStateMachine → Prop.
Hypothesis HI0 : I w0.
Hypothesis HIstep : ∀ txn fs now c m, Q txn → Verdicts.verdict cfg txn fs → fs_is_fraud fs = false → Submitter.entry_for txn now = Ok c → I m → I (Ledger.apply c m).2.

Abbreviation Client := (RaftCluster.Client LedgerEntry Ledger.LedgerStateMachine).
#[local] Instance logic_proposer : Proposer Client := Settlement.cluster_proposer tmin tmax hb ids others clock fuel.
Abbreviation Coord := (Coordinator.Coordinator Client).
Abbreviation K := (Py Script).
Abbreviation elapsed := (RaftCluster.elapsed tmin tmax hb ids others).
Abbreviation quiet := (RaftCluster.quiet tmin tmax hb ids others).
Abbreviation running := (Settlement.running tmin tmax hb ids w0 cfg Q).
Abbreviation moved c := (Moves.moved tmin tmax hb ids (Settlement.cleared (WorkerSystem.emitted (Coordinator.pipeline c)))).
Implicit Types (w : Script) (c : Coord).

(** ** The coordinator in operation *)

Lemma running_slots c : running c → ∀ n, RaftCluster.has_slots ids (elapsed n (Coordinator.raft_cluster c)).
Proof.
  intros [_ _ (ops & _ & E) _ _] n id Hid. unfold RaftCluster.elapsed. rewrite E. unfold RaftCluster.run. rewrite <- foldl_app.
  by apply RaftCluster.history_slots.
Qed.

Lemma running_elapse w : running (coordinator w) → running (elapse tmin tmax hb ids others clock fuel meanwhile w).
Proof.
  intros Hr. unfold elapse. destruct (Containers.background_ok Q _ (Hmeanwhile (steps w))).
  by apply (Settlement.run_running tmin tmax hb ids Hids w0 others clock fuel Hothers).
Qed.

Lemma running_submit c txn now : Q txn → running c → running (Coordinator.exec (Coordinator.SubmitTransaction txn now) c).
Proof.
  intros Hq Hr. apply (Settlement.run_running tmin tmax hb ids Hids w0 others clock fuel Hothers cfg Q [Coordinator.SubmitTransaction txn now]);
    [by repeat constructor|by repeat constructor|done].
Qed.

Lemma running_stop c : running c → running (Coordinator.exec Coordinator.Stop c).
Proof.
  apply (Settlement.run_running tmin tmax hb ids Hids w0 others clock fuel Hothers cfg Q [Coordinator.Stop]); by repeat constructor.
Qed.

Lemma running_cluster c cl : running c → moved c (Coordinator.raft_cluster c) cl → running (with_cluster cl c).
Proof. intros [[taken [H1 H2 H3 H4]] Hso Hse Hc Hj] Hm. split; [by exists taken|done|by eapply Settlement.settles_moved|done|done]. Qed.

Lemma quiet_moves c cl : quiet (Coordinator.raft_cluster c) cl → moved c (Coordinator.raft_cluster c) cl.
Proof. apply Moves.quiet_moved. intros k. by apply Settlement.silent_ok. Qed.

(** One operation of the cluster that proposes nothing. *)
Lemma access_moved {A} c (m : Py (RaftCluster.RaftCluster LedgerEntry Ledger.LedgerStateMachine) A) op rnd :
  (∀ rc, (m rc).2 = RaftCluster.exec tmin tmax hb ids op rnd rc) → RaftCluster.op_allowed (λ _, False) op →
  ∀ cl, moved c (Coordinator.raft_cluster c) cl → moved c (Coordinator.raft_cluster c) (RaftCluster.access tmin tmax hb ids others m cl).2.
Proof.
  intros Hm Ho cl (ops & Hops & E). unfold RaftCluster.access. specialize (Hm (RaftCluster.elapse tmin tmax hb ids others cl)).
  destruct (m _) as [r rc]. cbn [snd] in Hm |- *. exists (ops ++ others (RaftCluster.accesses cl) ++ [(op, rnd)]). split.
  - rewrite !Forall_app. split; [done|]. split; [by apply Settlement.silent_ok|]. apply Forall_singleton.
    eapply (Settlement.op_allowed_mono (λ _, False)); [done|exact Ho].
  - cbn [RaftCluster.shared]. rewrite Hm. unfold RaftCluster.elapse, RaftCluster.run. rewrite E. unfold RaftCluster.run.
    by rewrite !foldl_app.
Qed.

(** What the cluster of a coordinator in operation was given. *)
Lemma running_cleared c entry : running c → Settlement.cleared (WorkerSystem.emitted (Coordinator.pipeline c)) entry →
  ∃ txn fs now, Q txn ∧ Verdicts.verdict cfg txn fs ∧ fs_is_fraud fs = false ∧ Submitter.entry_for txn now = Ok entry.
Proof.
  intros [_ [_ Hso] _ _ [_ Hj]] (sc & now & Hin & Hf & He). rewrite Forall_forall in Hso, Hj.
  exists (st_transaction sc), (st_score sc), now. split; [by apply Hso|]. split; [by apply Hj|done].
Qed.

(** A replica of a cluster in operation satisfies the invariant, also after the
    cluster has gone on. *)
Lemma later_replica c tail id s : running c → Settlement.silent tail →
  Cluster.slots (RaftCluster.cluster (RaftCluster.run tmin tmax hb ids tail (RaftCluster.shared (Coordinator.raft_cluster c)))) !! id = Some s →
  I (Cluster.slot_machine s).
Proof.
  intros Hr Ht Hs. eapply (Settlement.replica_invariant tmin tmax hb ids Hids w0 I _ _ tail); [done| |by destruct Hr|done|exact Hs].
  intros entry m Hc Hm. destruct (running_cleared c entry Hr Hc) as (txn & fs & now & Hq & Hv & Hf & He). by eapply HIstep.
Qed.

Lemma running_replica c id s : running c →
  Cluster.slots (RaftCluster.cluster (RaftCluster.shared (Coordinator.raft_cluster c))) !! id = Some s → I (Cluster.slot_machine s).
Proof. intros Hr. apply (later_replica c [] id s Hr). by apply Forall_nil. Qed.

(** [start] and [stop] of the cluster return. *)
Lemma start_each_ok rnd now l : ∀ rc : RaftCluster.RaftCluster LedgerEntry Ledger.LedgerStateMachine,
  (∀ id, id ∈ l → is_Some (Cluster.slots (RaftCluster.cluster rc) !! id)) →
  (for_each (λ id, RaftCluster.start_one rnd id (now id)) l rc).1 = Ok tt.
Proof.
  induction l as [|id l IH]; intros rc Hl; [done|]. cbn [for_each]. unfold bind at 1, RaftCluster.start_one at 1, bind at 1, RaftCluster.on_runtime.
  destruct (Hl id (list_elem_of_here _ _)) as [s Hs]. rewrite Hs.
  destruct (Runtime.start _ _ _) as [r w1] eqn:E. assert (r = Ok tt) as -> by (injection E as <- _; done).
  unfold RaftCluster.set_running, modify. apply IH. intros id' Hid'. simpl.
  destruct (decide (id = id')) as [->|]; [rewrite lookup_insert_eq; by eexists|]. rewrite lookup_insert_ne by done. apply Hl. by right.
Qed.

Lemma stop_each_ok l : ∀ rc : RaftCluster.RaftCluster LedgerEntry Ledger.LedgerStateMachine,
  (for_each (λ id, RaftCluster.set_running (C := LedgerEntry) (λ r, r ∖ {[id]})) l rc).1 = Ok tt.
Proof. induction l as [|id l IH]; intros rc; [done|]. apply IH. Qed.

(** The start of a script. *)
Lemma script_starts num k c b : new_coordinator tmin tmax hb ids num k config w0 = Ok c →
  ∃ w, start tmin tmax hb ids others clock fuel b (mkScript c 0 []) = (Ok tt, w) ∧ running (coordinator w) ∧ printed w = [].
Proof.
  intros Hi. unfold start. cbn [coordinator steps printed].
  pose proof (Settlement.start_running tmin tmax hb ids w0 others clock fuel Q num k (F.lit 1 0) config (F.lit 2 0) c (join_clock b) Hi) as Hr.
  set (m := RaftCluster.start ids (boot_draws b) (boot_clock b)).
  assert (Hm : moved (Coordinator.exec (Coordinator.Start (join_clock b)) c) (Coordinator.raft_cluster c)
    (RaftCluster.access tmin tmax hb ids others m (Coordinator.raft_cluster c)).2).
  { apply (access_moved (Coordinator.exec (Coordinator.Start (join_clock b)) c) m (RaftCluster.StartAll (boot_clock b)) (boot_draws b));
      [done|exact Logic.I|]. exists []. by split. }
  assert (Hok : (RaftCluster.access tmin tmax hb ids others m (Coordinator.raft_cluster c)).1 = Ok tt).
  { assert (Hs := running_slots _ Hr 1%nat). rewrite RaftCluster.elapsed_one in Hs. unfold RaftCluster.access.
    pose proof (start_each_ok (boot_draws b) (boot_clock b) ids (RaftCluster.elapse tmin tmax hb ids others (Coordinator.raft_cluster c)) Hs) as Hok.
    unfold m, RaftCluster.start. by destruct (for_each _ _ _) as [r rc]. }
  destruct (RaftCluster.access _ _ _ _ _ _ _) as [r cl]. cbn [fst snd] in Hm, Hok. subst r.
  eexists. split; [reflexivity|]. split; [|done]. cbn [coordinator]. by apply (running_cluster _ cl) in Hr.
Qed.

(** ** Weakest preconditions *)

Definition wpx {A} (m : K A) (Post : A → Script → Prop) (Exc : exn → Prop) w : Prop :=
  match m w with (Ok a, w') => Post a w' | (Raise x, w') => Exc x ∧ running (coordinator w') end.

(** What a step without output leaves. *)
Record later w w' : Prop := mkLater {
  lt_steps : (steps w < steps w')%nat;
  lt_printed : printed w' = printed w;
  lt_running : running (coordinator w')
}.

Lemma wpx_bind {A B} (m : K A) (k : A → K B) Post Exc w :
  wpx m (λ a w', wpx (k a) Post Exc w') Exc w → wpx (bind m k) Post Exc w.
Proof. unfold wpx, bind. by destruct (m w) as [[a|x] w']. Qed.

Lemma wpx_mono {A} (m : K A) (Post Post' : A → Script → Prop) (Exc Exc' : exn → Prop) w :
  wpx m Post Exc w → (∀ a w', Post a w' → Post' a w') → (∀ x, Exc x → Exc' x) → wpx m Post' Exc' w.
Proof. unfold wpx. destruct (m w) as [[a|x] w']; [auto|intros []; auto]. Qed.

Lemma wpx_lift {A} (a : A) r Post Exc w : r = Ok a → Post a w → wpx (lift r) Post Exc w.
Proof. by intros ->. Qed.

Lemma wpx_print line Post Exc w :
  running (coordinator w) → (∀ w', running (coordinator w') → steps w' = steps w → printed w' = printed w ++ [line] → Post tt w') →
  wpx (print line) Post Exc w.
Proof. intros Hr Hp. by apply Hp. Qed.

Lemma wpx_monotonic Post Exc w : running (coordinator w) → (∀ w', later w w' → Post (time (steps w)) w') →
  wpx (monotonic tmin tmax hb ids others clock fuel meanwhile time) Post Exc w.
Proof. intros Hr Hp. apply Hp. split; [simpl; lia|done|]. by apply running_elapse. Qed.

Lemma wpx_sleep Post Exc w : running (coordinator w) → (∀ w', later w w' → Post tt w') →
  wpx (sleep tmin tmax hb ids others clock fuel meanwhile) Post Exc w.
Proof. intros Hr Hp. apply Hp. split; [simpl; lia|done|]. by apply running_elapse. Qed.

Lemma wpx_submit txn now Post Exc w : running (coordinator w) → Q txn → (∀ w', later w w' → Post tt w') →
  wpx (submit tmin tmax hb ids others clock fuel meanwhile txn now) Post Exc w.
Proof. intros Hr Hq Hp. apply Hp. split; [simpl; lia|done|]. by apply running_submit, running_elapse. Qed.

Lemma wpx_read {A} (f : Coord → A) Post Exc w : running (coordinator w) → (∀ v w', later w w' → Post v w') →
  wpx (read tmin tmax hb ids others clock fuel meanwhile f) Post Exc w.
Proof. intros Hr Hp. apply Hp. split; [simpl; lia|done|]. by apply running_elapse. Qed.

Lemma later_trans w1 w2 w3 : later w1 w2 → later w2 w3 → later w1 w3.
Proof. intros [H1 H2 _] [H3 H4 H5]. split; [lia|congruence|done]. Qed.

Lemma wpx_fire_both swap ta tb a b Post Exc w : running (coordinator w) → Q ta → Q tb → (∀ w', later w w' → Post tt w') →
  wpx (fire_both tmin tmax hb ids others clock fuel meanwhile swap ta tb a b) Post Exc w.
Proof.
  intros Hr Ha Hb Hp. unfold fire_both. destruct swap; apply wpx_bind, wpx_submit; try done; intros w1 H1;
    (apply wpx_submit; [by destruct H1|done|]; intros w2 H2; apply Hp; by eapply later_trans).
Qed.

Lemma wpx_deadline t Post Exc w : running (coordinator w) →
  (∀ w', later w w' → Post (F.add (time (steps w)) t) w') →
  wpx (deadline_in tmin tmax hb ids others clock fuel meanwhile time t) Post Exc w.
Proof. intros Hr Hp. unfold deadline_in. apply wpx_bind, wpx_monotonic; [done|]. intros w' H. by apply Hp. Qed.

(** A call of the cluster: [m] keeps the cluster in operation, and gives what
    [Ψ] says of its state and result. *)
Lemma wpx_on_cluster {A} (m : Py Client A) (Ψ : A → Client → Prop) Post (Exc : exn → Prop) w :
  running (coordinator w) →
  (∀ c, running c → let '(r, cl) := m (Coordinator.raft_cluster c) in
     moved c (Coordinator.raft_cluster c) cl ∧ match r with Ok a => Ψ a cl | Raise x => Exc x end) →
  (∀ a w', later w w' → Ψ a (Coordinator.raft_cluster (coordinator w')) → Post a w') →
  wpx (on_cluster tmin tmax hb ids others clock fuel meanwhile m) Post Exc w.
Proof.
  intros Hr Hm Hp. apply running_elapse in Hr. unfold wpx, on_cluster. set (c := elapse _ _ _ _ _ _ _ _ w) in *.
  specialize (Hm c Hr). destruct (m (Coordinator.raft_cluster c)) as [r cl]. destruct Hm as [Hmv Hres].
  pose proof (running_cluster c cl Hr Hmv) as Hr'. destruct r as [a|x]; [|by split].
  apply Hp; [|done]. split; [simpl; lia|done|done].
Qed.

(** ** The calls *)

(** [fuel] accesses of the client take [t] seconds, [fuel] steps of the main
    thread as well. *)
Definition client_clock (t : float) : Prop := ∀ i k, (i + fuel ≤ k)%nat →
  F.ge (clock k) (F.add (clock i) t) = true ∧ F.lt (clock k) (F.add (clock i) t) = false.
Definition main_clock (t : float) : Prop := ∀ i k, (i + fuel ≤ k)%nat → F.lt (time k) (F.add (time i) t) = false.
Hypothesis Hfuel : (0 < fuel)%nat.

Lemma find_leader_ends t (cl : Client) : (∀ n, RaftCluster.has_slots ids (elapsed n cl)) → client_clock t →
  let '(r, cl') := RaftCluster.find_leader tmin tmax hb ids others clock fuel t cl in
  quiet cl cl' ∧ match r with Ok (Some id) => id ∈ ids | Ok None => True | Raise _ => False end.
Proof.
  intros Hs Hc. unfold RaftCluster.find_leader, bind, RaftCluster.monotonic.
  pose proof (RaftCluster.quiet_one tmin tmax hb ids others cl (RaftCluster.last_known_leader cl)) as Q1. set (cl1 := RaftCluster.mkClient _ _ _) in *.
  destruct (RaftCluster.find_loop_spec tmin tmax hb ids others clock fuel (F.add (clock (RaftCluster.accesses cl)) t) cl1
    (RaftCluster.has_slots_later _ _ _ _ _ _ _ Q1 Hs)) as (r & cl2 & -> & Q2 & _ & R).
  split; [by eapply RaftCluster.quiet_trans|]. destruct r as [[id|]|x]; [by destruct R as [[_ ?] _]|done|].
  destruct R as [_ R]. specialize (R (RaftCluster.accesses cl + fuel)%nat (λ k Hk, proj1 (Hc _ _ Hk))).
  unfold cl1 in R. simpl in R. lia.
Qed.

Lemma balance_ends account c : running c → client_clock (F.lit 2 0) →
  let '(r, cl) := Owned.balance tmin tmax hb ids others clock true fuel account (F.lit 2 0) (Coordinator.raft_cluster c) in
  quiet (Coordinator.raft_cluster c) cl ∧
  match r with Ok b => ∃ m, I m ∧ b = Ledger.balance account m | Raise x => x = Owned.no_leader end.
Proof.
  intros Hr Hc. pose proof (Owned.balance_spec tmin tmax hb ids others clock true fuel account (F.lit 2 0)
    (Coordinator.raft_cluster c) eq_refl (running_slots c Hr)) as Hb.
  pose proof (find_leader_ends (F.lit 2 0) (Coordinator.raft_cluster c) (running_slots c Hr) Hc) as Hf.
  unfold Owned.balance, negb in Hb |- *. unfold bind at 1 in Hb. unfold bind at 1.
  destruct (RaftCluster.find_leader _ _ _ _ _ _ _ _ _) as [[[id|]|x] cl1]; [| |by destruct Hf].
  - destruct Hf as [Q1 Hid]. pose proof (RaftCluster.has_slots_later _ _ _ _ _ _ _ Q1 (running_slots c Hr) 1%nat id Hid) as [s Hs].
    rewrite RaftCluster.elapsed_one in Hs.
    rewrite RaftCluster.access_read in Hb |- * by (intros rc; by rewrite RaftCluster.on_runtime_get).
    rewrite RaftCluster.on_runtime_get, Hs in Hb |- *. cbn [fst] in Hb |- *. set (cl := RaftCluster.mkClient _ _ _) in *.
    destruct Hb as [Hq (n & id' & s' & _ & Hs' & ->)]. split; [done|]. exists (Cluster.slot_machine s'). split; [|done].
    apply (running_replica (with_cluster cl c) id' s'); [|done]. apply running_cluster; [done|by apply quiet_moves].
  - destruct Hb as [Hq _]. by split.
Qed.

(** Each call of the client as a rule. *)
Lemma wpx_balance account Post (Exc : exn → Prop) w :
  running (coordinator w) → client_clock (F.lit 2 0) → Exc Owned.no_leader →
  (∀ b w', later w w' → (∃ m, I m ∧ b = Ledger.balance account m) → Post b w') →
  wpx (balance tmin tmax hb ids others clock fuel meanwhile account) Post Exc w.
Proof.
  intros Hr Hc Hx Hp. apply (wpx_on_cluster _ (λ b _, ∃ m, I m ∧ b = Ledger.balance account m)); [done| |by intros; apply Hp].
  intros c Hrc. pose proof (balance_ends account c Hrc Hc) as Hb.
  destruct (Owned.balance _ _ _ _ _ _ _ _ _ _ _) as [[b|x] cl]; destruct Hb as [Hq Hb]; (split; [by apply quiet_moves|]); [done|by subst x].
Qed.

Lemma wpx_find_leader t Post Exc w :
  running (coordinator w) → client_clock t →
  (∀ r w', later w w' → (∀ id, r = Some id → id ∈ ids) → Post r w') →
  wpx (on_cluster tmin tmax hb ids others clock fuel meanwhile (RaftCluster.find_leader tmin tmax hb ids others clock fuel t)) Post Exc w.
Proof.
  intros Hr Hc Hp. apply (wpx_on_cluster _ (λ r _, ∀ id, r = Some id → id ∈ ids)); [done| |by intros; apply Hp].
  intros c Hrc. pose proof (find_leader_ends t _ (running_slots c Hrc) Hc) as Hf.
  destruct (RaftCluster.find_leader _ _ _ _ _ _ _ _ _) as [[[id|]|x] cl]; destruct Hf as [Hq Hf]; [| |done];
    (split; [by apply quiet_moves|]); simpl; [by intros ? [= <-]|done].
Qed.

(** The term of a node of the cluster. *)
Lemma wpx_current_term id Post Exc w :
  running (coordinator w) → id ∈ ids → (∀ t w', later w w' → Post t w') →
  wpx (on_cluster tmin tmax hb ids others clock fuel meanwhile
    (RaftCluster.access tmin tmax hb ids others (RaftCluster.on_runtime id Runtime.current_term))) Post Exc w.
Proof.
  intros Hr Hid Hp. apply (wpx_on_cluster _ (λ _ _, True)); [done| |by intros; apply Hp]. intros c Hrc.
  pose proof (running_slots c Hrc 1%nat id Hid) as [s Hs]. rewrite RaftCluster.elapsed_one in Hs.
  unfold Runtime.current_term, Raft.reads. rewrite RaftCluster.access_read by (intros rc; by rewrite RaftCluster.on_runtime_get).
  rewrite RaftCluster.on_runtime_get, Hs. split; [|done]. apply quiet_moves, RaftCluster.quiet_one.
Qed.

Definition kill_exn (x : exn) : Prop := x = TimeoutError "no leader to kill".
Lemma wpx_kill Post (Exc : exn → Prop) w :
  running (coordinator w) → client_clock (F.lit 2 0) → (∀ x, kill_exn x → Exc x) → (∀ id w', later w w' → id ∈ ids → Post id w') →
  wpx (on_cluster tmin tmax hb ids others clock fuel meanwhile
    (Chaos.kill_raft_leader tmin tmax hb ids others clock fuel (F.lit 2 0))) Post Exc w.
Proof.
  intros Hr Hc Hx Hp. apply (wpx_on_cluster _ (λ id _, id ∈ ids)); [done| |by intros; apply Hp]. intros c Hrc.
  pose proof (find_leader_ends (F.lit 2 0) _ (running_slots c Hrc) Hc) as Hf. unfold Chaos.kill_raft_leader, bind at 1.
  destruct (RaftCluster.find_leader _ _ _ _ _ _ _ _ _) as [[[id|]|x] cl]; destruct Hf as [Hq Hf]; [| |done].
  - pose proof (access_moved c (RaftCluster.kill id) (RaftCluster.Kill id) (λ _ _ x _, x) (λ _, eq_refl) Logic.I cl (quiet_moves c cl Hq)) as Hm.
    pose proof (RaftCluster.has_slots_later _ _ _ _ _ _ _ Hq (running_slots c Hrc) 1%nat id Hf) as Hs. rewrite RaftCluster.elapsed_one in Hs.
    destruct (Chaos.kill_effect id _ Hs) as (rc' & E & _). unfold bind, RaftCluster.access in *. rewrite E in Hm |- *. by split.
  - split; [by apply quiet_moves|]. by apply Hx.
Qed.

Definition wait_exn (x : exn) : Prop := x = TimeoutError "no new leader elected within timeout".
Lemma quiet_accesses (cl cl' : Client) : quiet cl cl' → (RaftCluster.accesses cl ≤ RaftCluster.accesses cl')%nat.
Proof. intros (n & _ & ->). lia. Qed.

Lemma wait_loop_ends t deadline M n : client_clock (F.lit 2 1) → (∀ k, (M ≤ k)%nat → F.lt (clock k) deadline = false) →
  ∀ cl : Client, (M < n + RaftCluster.accesses cl)%nat → (0 < n)%nat → (∀ n, RaftCluster.has_slots ids (elapsed n cl)) →
  (Chaos.wait_loop tmin tmax hb ids others clock n fuel t deadline cl).1 ≠ Raise OutOfFuel.
Proof.
  intros Hc Hd. induction n as [|n IH]; intros cl HM Hn Hs; [lia|]. cbn [Chaos.wait_loop]. unfold bind at 1, RaftCluster.monotonic at 1.
  pose proof (RaftCluster.quiet_one tmin tmax hb ids others cl (RaftCluster.last_known_leader cl)) as Q1. set (cl1 := RaftCluster.mkClient _ _ _) in *.
  destruct (F.lt (clock (RaftCluster.accesses cl)) deadline) eqn:Hlt; [|done]. cbn [negb].
  assert (HltM : (RaftCluster.accesses cl < M)%nat).
  { destruct (decide (M ≤ RaftCluster.accesses cl)%nat) as [H|]; [|lia]. by rewrite Hd in Hlt. }
  pose proof (RaftCluster.has_slots_later _ _ _ _ _ _ _ Q1 Hs) as Hs1.
  pose proof (find_leader_ends (F.lit 2 1) cl1 Hs1 Hc) as Hf. unfold bind at 1.
  assert (Hnext : ∀ cl2, quiet cl1 cl2 → (Chaos.wait_loop tmin tmax hb ids others clock n fuel t deadline cl2).1 ≠ Raise OutOfFuel).
  { intros cl2 Q2. pose proof (quiet_accesses _ _ Q2) as Ha. unfold cl1 in Ha. simpl in Ha.
    apply IH; [lia|lia|]. by eapply RaftCluster.has_slots_later. }
  destruct (RaftCluster.find_leader _ _ _ _ _ _ _ _ _) as [[[id|]|x] cl2]; destruct Hf as [Q2 Hf]; [|by apply Hnext|done].
  pose proof (RaftCluster.has_slots_later _ _ _ _ _ _ _ Q2 Hs1 1%nat id Hf) as [s Hsl]. rewrite RaftCluster.elapsed_one in Hsl.
  unfold bind, Runtime.current_term, Raft.reads.
  rewrite RaftCluster.access_read by (intros rc; by rewrite RaftCluster.on_runtime_get). rewrite RaftCluster.on_runtime_get, Hsl. cbn [fst].
  destruct (t <? _); [done|]. apply Hnext. eapply RaftCluster.quiet_trans; [exact Q2|apply RaftCluster.quiet_one].
Qed.

Lemma wpx_wait t Post (Exc : exn → Prop) w :
  running (coordinator w) → client_clock (F.lit 2 1) → client_clock (F.lit 3 0) → (∀ x, wait_exn x → Exc x) →
  (∀ id w', later w w' → id ∈ ids → Post id w') →
  wpx (on_cluster tmin tmax hb ids others clock fuel meanwhile
    (Chaos.wait_for_new_leader tmin tmax hb ids others clock fuel t (F.lit 3 0))) Post Exc w.
Proof.
  intros Hr Hc Hc3 Hx Hp. apply (wpx_on_cluster _ (λ id _, id ∈ ids)); [done| |by intros; apply Hp]. intros c Hrc.
  unfold Chaos.wait_for_new_leader, bind, RaftCluster.monotonic. set (cl := Coordinator.raft_cluster c).
  pose proof (RaftCluster.quiet_one tmin tmax hb ids others cl (RaftCluster.last_known_leader cl)) as Q1. set (cl1 := RaftCluster.mkClient _ _ _) in *.
  pose proof (RaftCluster.has_slots_later _ _ _ _ _ _ _ Q1 (running_slots c Hrc)) as Hs1.
  set (deadline := F.add _ _).
  pose proof (wait_loop_ends t deadline (RaftCluster.accesses cl + fuel) fuel Hc (λ k Hk, proj2 (Hc3 _ _ Hk)) cl1
    ltac:(unfold cl1; simpl; lia) Hfuel Hs1) as He.
  pose proof (Chaos.wait_loop_spec tmin tmax hb ids others clock fuel fuel t deadline cl1 Hs1) as Hw.
  destruct (Chaos.wait_loop _ _ _ _ _ _ _ _ _ _ _) as [[id|x] cl2]; destruct Hw as [Q2 Hw];
    (split; [apply quiet_moves; by eapply RaftCluster.quiet_trans|]).
  - by destruct Hw as [Hid _].
  - destruct Hw as [[-> _]| ->]; [by apply Hx|done].
Qed.

(** A status can always be read. *)
Lemma wpx_status Post Exc w : running (coordinator w) → (∀ st w', later w w' → Post st w') →
  wpx (status tmin tmax hb ids others clock fuel meanwhile) Post Exc w.
Proof.
  intros Hr Hp. apply wpx_bind, (wpx_on_cluster _ (λ _ _, True)); [done| |].
  { intros c Hrc. destruct (Owned.raft_status_spec tmin tmax hb ids others true _ (running_slots c Hrc)) as (v & cl & -> & Hq).
    split; [by apply quiet_moves|done]. }
  intros raft w1 [Hs1 Hp1 Hr1] _. apply wpx_bind, wpx_read; [done|]. intros a w2 [Hs2 Hp2 Hr2].
  apply wpx_bind, wpx_read; [done|]. intros b w3 [Hs3 Hp3 Hr3]. apply wpx_bind, wpx_read; [done|]. intros f w4 [Hs4 Hp4 Hr4].
  apply wpx_bind, wpx_read; [done|]. intros d w5 [Hs5 Hp5 Hr5]. apply Hp. split; [lia|congruence|done].
Qed.

(** A loop of silent steps is silent. *)
Lemma wpx_for_each {A} (f : A → K unit) l (Exc : exn → Prop) :
  (∀ x w (Post : unit → Script → Prop), x ∈ l → running (coordinator w) → (∀ w', later w w' → Post tt w') → wpx (f x) Post Exc w) →
  ∀ w (Post : unit → Script → Prop), running (coordinator w) →
  (∀ w', running (coordinator w') → printed w' = printed w → Post tt w') → wpx (for_each f l) Post Exc w.
Proof.
  intros Hf. induction l as [|x l IH]; intros w Post Hr Hp; [by apply Hp|]. cbn [for_each]. apply wpx_bind.
  apply Hf; [left|done|]. intros w1 [_ Hp1 Hr1]. apply IH; [|done|]. { intros y w' P Hy. apply Hf. by right. }
  intros w2 Hr2 Hp2. apply Hp; [done|congruence].
Qed.

(** Polling the counters until the deadline. *)
Lemma wpx_await_processed deadline total M (Exc : exn → Prop) n :
  (∀ k, (M ≤ k)%nat → F.lt (time k) deadline = false) →
  ∀ w (Post : unit → Script → Prop), running (coordinator w) → (M < n + steps w)%nat → (0 < n)%nat →
  (∀ w', later w w' → Post tt w') →
  wpx (await_processed tmin tmax hb ids others clock fuel meanwhile time n deadline total) Post Exc w.
Proof.
  intros Hd. induction n as [|n IH]; intros w Post Hr HM Hn Hp; [lia|]. cbn [await_processed].
  apply wpx_bind, wpx_monotonic; [done|]. intros w1 [Hs1 Hp1 Hr1].
  destruct (F.lt (time (steps w)) deadline) eqn:Hlt; [|by apply Hp].
  assert (HltM : (steps w < M)%nat).
  { destruct (decide (M ≤ steps w)%nat) as [H|]; [|lia]. by rewrite Hd in Hlt. }
  apply wpx_bind, wpx_status; [done|]. intros st w2 [Hs2 Hp2 Hr2]. destruct (total <=? _).
  { apply Hp. split; [lia|congruence|done]. }
  apply wpx_bind, wpx_sleep; [done|]. intros w3 [Hs3 Hp3 Hr3]. apply IH; [done|lia|lia|].
  intros w4 [Hs4 Hp4 Hr4]. apply Hp. split; [lia|congruence|done].
Qed.

(** Polling a balance until the deadline. *)
Lemma wpx_poll account deadline again M (Exc : exn → Prop) n : client_clock (F.lit 2 0) → Exc Owned.no_leader →
  (∀ k, (M ≤ k)%nat → F.lt (time k) deadline = false) →
  ∀ b w (Post : Decimal → Script → Prop), running (coordinator w) → (M < n + steps w)%nat → (0 < n)%nat →
  (∃ m, I m ∧ b = Ledger.balance account m) →
  (∀ b' w', later w w' → (∃ m, I m ∧ b' = Ledger.balance account m) → Post b' w') →
  wpx (poll tmin tmax hb ids others clock fuel meanwhile time n account deadline again b) Post Exc w.
Proof.
  intros Hc Hx Hd. induction n as [|n IH]; intros b w Post Hr HM Hn Hb Hp; [lia|]. cbn [poll].
  apply wpx_bind, wpx_monotonic; [done|]. intros w1 [Hs1 Hp1 Hr1].
  destruct (F.lt (time (steps w)) deadline) eqn:Hlt; cbn [andb]; [destruct (again b)|].
  - assert (HltM : (steps w < M)%nat).
    { destruct (decide (M ≤ steps w)%nat) as [H|]; [|lia]. by rewrite Hd in Hlt. }
    apply wpx_bind, wpx_sleep; [done|]. intros w2 [Hs2 Hp2 Hr2].
    apply wpx_bind, wpx_balance; [done|done|done|]. intros b' w3 [Hs3 Hp3 Hr3] Hb'.
    apply IH; [done|lia|lia|done|]. intros b'' w' [Hs4 Hp4 Hr4] Hb''. apply Hp; [|done].
    split; [lia|congruence|done].
  - by apply Hp.
  - by apply Hp.
Qed.

(** A deadline, a first balance and the polling of it: what a script does to
    wait for a settlement. *)
Lemma wpx_await account t again (k : Decimal → K unit) (Post : unit → Script → Prop) (Exc : exn → Prop) w :
  client_clock (F.lit 2 0) → main_clock t → Exc Owned.no_leader → running (coordinator w) →
  (∀ b w', later w w' → (∃ m, I m ∧ b = Ledger.balance account m) → wpx (k b) Post Exc w') →
  wpx (deadline <- deadline_in tmin tmax hb ids others clock fuel meanwhile time t ;;
       b <- balance tmin tmax hb ids others clock fuel meanwhile account ;;
       b <- poll tmin tmax hb ids others clock fuel meanwhile time fuel account deadline again b ;;
       k b)%py Post Exc w.
Proof.
  intros Hc Ht Hx Hr Hk. apply wpx_bind, wpx_deadline; [done|]. intros w1 H1.
  apply wpx_bind, wpx_balance; [by destruct H1|done|done|]. intros b w2 H2 Hb.
  apply wpx_bind. destruct H1 as [Hs1 Hp1 _], H2 as [Hs2 Hp2 Hr2].
  apply (wpx_poll account _ again (steps w + fuel) Exc fuel Hc Hx); [intros j Hj; by apply Ht|done|lia|done|done|].
  intros b' w3 [Hs3 Hp3 Hr3] Hb'. apply Hk; [|done]. split; [lia|congruence|done].
Qed.

(** ** The frame of a script *)

Lemma stop_running w : running (coordinator w) →
  ∃ w', stop tmin tmax hb ids others clock fuel meanwhile w = (Ok tt, w') ∧ printed w' = printed w ∧ running (coordinator w').
Proof.
  intros Hr. unfold stop, bind at 1, act, modify. set (w1 := mkScript _ _ _).
  assert (Hr1 : running (coordinator w1)) by (by apply running_stop, running_elapse).
  apply running_elapse in Hr1. unfold on_cluster. set (c := elapse _ _ _ _ _ _ _ _ w1) in *.
  pose proof (access_moved c (RaftCluster.stop ids) RaftCluster.StopAll (λ _ _ x _, x) (λ _, eq_refl) Logic.I (Coordinator.raft_cluster c)
    (ex_intro _ [] (conj (Forall_nil_2 _) eq_refl))) as Hm.
  unfold RaftCluster.access in *.
  pose proof (stop_each_ok ids (RaftCluster.elapse tmin tmax hb ids others (Coordinator.raft_cluster c))) as Hok. unfold RaftCluster.stop in *.
  destruct (for_each _ _ _) as [r rc]. cbn [fst snd] in *. subst r. eexists. split; [reflexivity|]. split; [done|]. by apply running_cluster.
Qed.

(** A script starts and ends as its body does, whatever the body does. *)
Lemma run_script_wpx num k boot body (Post : Script → Prop) (Exc : exn → Prop) : 0 < num →
  (∀ w, running (coordinator w) → printed w = [] → wpx body (λ _ w', running (coordinator w') ∧ Post w') Exc w) →
  (∀ w w', printed w' = printed w → Post w → Post w') →
  ∃ r w, run_script tmin tmax hb ids others clock fuel meanwhile num k config w0 boot body = Ok (r, w) ∧ running (coordinator w) ∧
    match r with Ok _ => Post w | Raise x => Exc x end.
Proof.
  intros Hnum Hbody Hpr. unfold run_script.
  assert (Hi : ∃ c, new_coordinator tmin tmax hb ids num k config w0 = Ok c).
  { unfold new_coordinator, Coordinator.init, Broker.init, Group.init. rewrite (proj2 (Z.leb_gt _ _)) by exact Hnum. by eexists. }
  destruct Hi as (c & Hi). rewrite Hi. cbn [res_bind]. destruct (script_starts num k c boot Hi) as (w1 & E & Hr1 & Hp1).
  unfold bind. rewrite E. unfold try_finally. specialize (Hbody w1 Hr1 Hp1). unfold wpx in Hbody.
  destruct (body w1) as [[[]|x] w2].
  - destruct Hbody as [Hr2 Hpost]. destruct (stop_running w2 Hr2) as (w3 & -> & Hp3 & Hr3).
    exists (Ok tt), w3. split; [done|]. split; [done|]. by eapply Hpr.
  - destruct Hbody as [Hx Hr2]. destruct (stop_running w2 Hr2) as (w3 & -> & Hp3 & Hr3).
    exists (Raise x), w3. split; [done|]. by split.
Qed.
End logic.
End ScriptLogic.
