(* ===== verification/ScriptLedger.v ===== *)
(** * Debits of the demo scripts on the ledger

    What the entry of a whole-dollar debit does to a ledger state, and which
    debits a ledger state has handled. *)

From stdpp Require Import base gmap strings list.
From Stdlib Require Import ZArith Lia.
From S2P Require Import Prelude PyDecimal Models StateMachine Ledger Submitter Containers Scripts.
Import Scripts.

Local Open Scope Z_scope.

Module ScriptLedger.

(** A debit of [k] on [account]. *)
Definition debit_of (account : string) (k : Z) (txn : Transaction) : Prop :=
  tx_type txn = DEBIT ∧ tx_account_id txn = account ∧ tx_amount txn = DFin k 0.

Lemma debit_made account k s : account ≠ ""%string → 0 < k →
  ∃ txn, debit account k s = Ok txn ∧ debit_of account k txn ∧ tx_id txn = stamp_id s.
Proof.
  intros Ha Hk. destruct (Containers.debit_ok account k (stamp_id s) (created_at s)) as (txn & E & _ & H1 & H2 & H3 & H4); [done|done|].
  by exists txn.
Qed.

Lemma debit_entry account k txn now c : 0 < k < 10 ^ Dec.prec → debit_of account k txn → Submitter.entry_for txn now = Ok c →
  le_account_id c = account ∧ le_delta c = DFin (- k) 0 ∧ le_entry_id c = tx_id txn.
Proof.
  intros Hk (Ht & Ha & Hm). unfold Submitter.entry_for, Submitter.delta_for. rewrite Ht, Hm, bool_decide_false by done.
  rewrite Dec.neg_exact by first [lia|split; vm_compute; discriminate]. cbn [res_bind].
  unfold LedgerEntry_post_init. cbn [le_entry_id le_delta le_transaction_id le_account_id le_created_at].
  change (String.eqb "" "") with true. cbn [le_delta]. destruct (Dec.eqb _ _); [done|]. intros [= <-]. by rewrite Ha.
Qed.

(** ** What a state has handled *)

Definition handled (id : string) (m : Ledger.LedgerStateMachine) : bool := bool_decide (is_Some (Ledger.results m !! id)).
(** What a debit of [k] under [id] has taken off its account. *)
Definition paid (k : Z) (id : string) (m : Ledger.LedgerStateMachine) : Z := if handled id m then k else 0.

Lemma handled_insert id id' r m m' : Ledger.results m' = <[id := r]> (Ledger.results m) →
  handled id' m' = if decide (id = id') then true else handled id' m.
Proof.
  intros E. unfold handled. rewrite E. case_decide as H; [subst; by rewrite lookup_insert_eq|by rewrite lookup_insert_ne].
Qed.

Lemma paid_range k id m : 0 ≤ k → 0 ≤ paid k id m ≤ k.
Proof. unfold paid. destruct (handled id m); lia. Qed.

(** What [apply] does for a debit of [k] from a balance of [b]. *)
Record debited (account id : string) (b k : Z) (m m' : Ledger.LedgerStateMachine) : Prop := mkDebited {
  db_fresh : handled id m = false;
  db_balance : Ledger.balance account m' = DFin (if b <? k then b else b - k) 0;
  db_others a : a ≠ account → Ledger.balance a m' = Ledger.balance a m;
  db_paid id' x : paid x id' m' = if decide (id = id') then x else paid x id' m
}.

Lemma apply_debit account c m b k : le_account_id c = account → le_delta c = DFin (- k) 0 →
  Ledger.balance account m = DFin b 0 → Z.abs (b - k) < 10 ^ Dec.prec →
  (Ledger.apply c m).2 = m ∨ debited account (le_entry_id c) b k m (Ledger.apply c m).2.
Proof.
  intros Ha Hd Hb Hk. unfold Ledger.apply, bind, get, lift.
  destruct (Ledger.results m !! le_entry_id c) as [r|] eqn:Er; [by left|right]. rewrite Ha, Hd, Hb. unfold Dec.add.
  change (Z.min 0 0) with 0. change (10 ^ (0 - 0)) with 1. replace (b * 1 + - k * 1) with (b - k) by lia.
  rewrite Dec.fix_exact by first [lia|split; vm_compute; discriminate]. rewrite Dec.lt_zero_fin.
  assert (Hp : ∀ r m', Ledger.results m' = <[le_entry_id c := r]> (Ledger.results m) → ∀ id' x,
    paid x id' m' = if decide (le_entry_id c = id') then x else paid x id' m).
  { intros r m' E id' x. unfold paid. rewrite (handled_insert _ _ _ _ _ E). by case_decide. }
  assert (Hh : handled (le_entry_id c) m = false) by (unfold handled; rewrite Er; apply bool_decide_false; by intros []).
  unfold ret, modify. destruct (Z.ltb_spec b k).
  - rewrite (proj2 (Z.ltb_lt _ _)) by lia. simpl. split; [done|rewrite (proj2 (Z.ltb_lt b k)) by lia; exact Hb|done|by eapply Hp].
  - rewrite (proj2 (Z.ltb_ge _ _)) by lia. simpl. split; [done| | |by eapply Hp].
    + rewrite (proj2 (Z.ltb_ge b k)) by lia. unfold Ledger.balance. simpl. by rewrite lookup_insert_eq.
    + intros a Hne. unfold Ledger.balance. simpl. by rewrite lookup_insert_ne.
Qed.
End ScriptLedger.
