(* ===== verification/ScriptDemo.v ===== *)
(** * Concrete runs of the demo scripts

    The clocks, the moves of the cluster's threads and the work of the
    pipeline's threads in the runs that the claims about the scripts are tried
    on. *)

From stdpp Require Import base gmap strings list pretty.
From Stdlib Require Import ZArith SpecFloat Lia.
From S2P Require Import Prelude PyDecimal PyFloat Models StateMachine Ledger Submitter.
From S2P Require Import RaftTypes Storage Transport RaftNode Cluster Demo Runtime RaftCluster.
From S2P Require Import Scorer Worker WorkerSystem Coordinator Verdicts Settlement Containers Scripts ScriptLogic.
Import Scripts ScriptLogic.

Local Open Scope Z_scope.

Module ScriptDemo.

Abbreviation Op := (RaftCluster.Op LedgerEntry * RaftCluster.Draws)%type.
(** [raft-1] and [raft-2] draw the short timeout. *)
Definition draws : RaftCluster.Draws := λ id, if decide (id = "raft-1" ∨ id = "raft-2") then Demo.low else Demo.high.
Definition T (id : string) (ms : Z) : Op := (RaftCluster.Turn id (F.lit ms 3), draws).

(** A clock that advances by a millisecond at each of [n] readings, and is then
    beyond every deadline. *)
Definition clock_for (n k : nat) : float := if (k <? n)%nat then F.lit (220 + Z.of_nat k) 3 else F.inf.
Definition clock : nat → float := clock_for 100.
Definition boot : Boot := mkBoot draws (λ _, F.zero) F.zero.
Definition stamp (id : string) : Stamp := mkStamp id 0 1.

(** Both workers score what is there, the submitter settles it. *)
Definition work : list Coordinator.Event :=
  replicate 12 (Coordinator.WorkerStep "fraud-0" (1000000, 1000000)) ++ replicate 12 (Coordinator.WorkerStep "fraud-1" (1000000, 1000000)) ++
  [Coordinator.SubmitterTurn 2; Coordinator.SubmitterTurn 3].

(** Two exchanges between a leader, or a node that becomes one, and others. *)
Definition exchange (leader : string) (rest : list string) (ms : Z) : list Op :=
  [T leader ms] ++ ((λ id, T id (ms + 1)) <$> rest) ++ [T leader (ms + 2)] ++ ((λ id, T id (ms + 3)) <$> rest) ++ [T leader (ms + 4)].

(** [raft-1] is elected before the first proposal, and replicates later. *)
Definition others (k : nat) : list Op :=
  match k with
  | 1%nat => exchange "raft-1" ["raft-2"; "raft-3"] 150
  | 20%nat => exchange "raft-1" ["raft-2"; "raft-3"] 290
  | _ => []
  end.
Definition meanwhile (k : nat) : list Coordinator.Event := match k with 2%nat => work | _ => [] end.
Definition conflict : res (res unit * Script) := conflicting_main others clock 100 meanwhile clock false boot (stamp "txn-a") (stamp "txn-b").

(** [raft-1] settles the first debit and is killed; then [raft-2] is elected,
    and settles the second. *)
Definition others_kill (k : nat) : list Op :=
  match k with
  | 1%nat => exchange "raft-1" five_nodes 150
  | 8%nat => exchange "raft-1" five_nodes 290
  | 22%nat => exchange "raft-2" ["raft-3"; "raft-4"] 450
  | 48%nat => exchange "raft-2" ["raft-3"; "raft-4"] 510
  | _ => []
  end.
Definition meanwhile_kill (k : nat) : list Coordinator.Event := match k with 1%nat | 14%nat => work | _ => [] end.
Definition failover : res (res unit * Script) :=
  kill_leader_main others_kill clock 100 meanwhile_kill clock boot (stamp "txn-a") (stamp "txn-b").

Definition output (r : res (res unit * Script)) : res (list fstring) :=
  match r with Ok (Ok _, w) => Ok (printed w) | Ok (Raise x, _) | Raise x => Raise x end.

Lemma clock_inf n k : (n ≤ k)%nat → clock_for n k = F.inf.
Proof. intros Hk. unfold clock_for. by rewrite (proj2 (Nat.ltb_ge _ _)). Qed.

(** A property of every reading follows from the [n] first ones and the
    last. *)
Lemma clock_all n (P : float → bool) : forallb (λ i, P (clock_for n i)) (seq 0 n) = true → P F.inf = true → ∀ i, P (clock_for n i) = true.
Proof.
  intros Hs Hi i. destruct (decide (i < n)%nat) as [H|]; [|by rewrite clock_inf by lia].
  rewrite forallb_forall in Hs. apply Hs, in_seq. lia.
Qed.

Definition beyond (t : float) (c : float) : bool := F.ge F.inf (F.add c t) && negb (F.lt F.inf (F.add c t)).
Lemma clock_ends n t : forallb (λ i, beyond t (clock_for n i)) (seq 0 n) = true → beyond t F.inf = true →
  client_clock (clock_for n) n t ∧ main_clock n (clock_for n) t.
Proof.
  intros Hs Hi. assert (H : ∀ i k, (i + n ≤ k)%nat →
    F.ge (clock_for n k) (F.add (clock_for n i) t) = true ∧ F.lt (clock_for n k) (F.add (clock_for n i) t) = false).
  { intros i k Hk. rewrite (clock_inf n k) by lia. pose proof (clock_all n (beyond t) Hs Hi i) as Hb.
    unfold beyond in Hb. apply andb_true_iff in Hb as [H1 H2%negb_true_iff]. by split. }
  split; [exact H|]. intros i k Hk. apply (H i k Hk).
Qed.

Lemma exchange_silent leader rest ms : Settlement.silent (exchange leader rest ms).
Proof.
  unfold exchange, Settlement.silent. repeat first [apply Forall_app; split|apply Forall_singleton; exact Logic.I];
    apply Forall_fmap, Forall_forall; intros; exact Logic.I.
Qed.
Lemma others_conflict_silent k : Settlement.silent (others k).
Proof. do 21 (destruct k as [|k]; [first [apply exchange_silent|apply Forall_nil_2]|]). apply Forall_nil_2. Qed.
Lemma others_kill_silent k : Settlement.silent (others_kill k).
Proof. do 49 (destruct k as [|k]; [first [apply exchange_silent|apply Forall_nil_2]|]). apply Forall_nil_2. Qed.

Lemma work_background : Forall Containers.background work.
Proof. unfold work. repeat constructor. Qed.
Lemma meanwhile_background k : Forall Containers.background (meanwhile k).
Proof. do 3 (destruct k as [|k]; [first [exact work_background|apply Forall_nil_2]|]). apply Forall_nil_2. Qed.
Lemma meanwhile_kill_background k : Forall Containers.background (meanwhile_kill k).
Proof. do 15 (destruct k as [|k]; [first [exact work_background|apply Forall_nil_2]|]). apply Forall_nil_2. Qed.
(** [raft-1] is elected before the first proposal; the workers score all 110
    transactions, the submitter takes them, and [raft-1] replicates and applies
    what was cleared. *)
Definition others_burst (k : nat) : list Op :=
  if Nat.eqb k 1 then exchange "raft-1" ["raft-2"; "raft-3"] 150
  else if Nat.eqb k 460 then exchange "raft-1" ["raft-2"; "raft-3"] 290 else [].
Definition stamps (k : nat) : Stamp := stamp ("txn-" +:+ pretty k).
Definition scoring : list Coordinator.Event :=
  (λ id, Coordinator.WorkerStep id (1000000, 1000000)) <$> (replicate 190 "fraud-0" ++ replicate 120 "fraud-1" ++ replicate 90 "fraud-2").
Definition meanwhile_burst (k : nat) : list Coordinator.Event :=
  if Nat.eqb k 112 then scoring ++ replicate 110 (Coordinator.SubmitterTurn 2) else [].
Definition burst : res (res unit * Script) := burst_main others_burst (clock_for 700) 700 meanwhile_burst (clock_for 700) boot stamps.

(** The lines of the output from the [n]-th on. *)
Definition output_from (n : nat) (r : res (res unit * Script)) : list fstring :=
  match output r with Ok lines => drop n lines | Raise _ => [] end.
(** How many entries a replica has applied in the end, and a balance on it. *)
Definition replica_after (id account : string) (r : res (res unit * Script)) : option (Z * Decimal) :=
  match r with
  | Ok (_, w) =>
      match Cluster.slots (RaftCluster.cluster (RaftCluster.shared (Coordinator.raft_cluster (coordinator w)))) !! id with
      | Some s => Some (Raft.last_applied (Cluster.slot_node s), Ledger.balance account (Cluster.slot_machine s))
      | None => None
      end
  | Raise _ => None
  end.

Definition burst_summary : list fstring * option (Z * Decimal) :=
  let r := burst in (take 2 (output_from 4 r), replica_after "raft-1" "acct-0" r).

Lemma others_burst_silent k : Settlement.silent (others_burst k).
Proof.
  unfold others_burst. destruct (Nat.eqb k 1); [apply exchange_silent|]. destruct (Nat.eqb k 460); [apply exchange_silent|apply Forall_nil_2].
Qed.
Lemma meanwhile_burst_background k : Forall Containers.background (meanwhile_burst k).
Proof.
  unfold meanwhile_burst. destruct (Nat.eqb k 112); [|apply Forall_nil_2]. apply Forall_app. split.
  - apply Forall_fmap, Forall_forall. intros; exact Logic.I.
  - apply Forall_forall. intros e ->%elem_of_replicate_inv. exact Logic.I.
Qed.
End ScriptDemo.
