(* ===== verification/ScriptProps.v ===== *)
(** * What the demo scripts show

    Claims about the scripts of src/scripts as they are written, in every
    interleaving of the pipeline's and the cluster's threads. *)

From stdpp Require Import base gmap strings list.
From Stdlib Require Import ZArith SpecFloat Lia.
From S2P Require Import Prelude PyDecimal PyFloat Models StateMachine Ledger Submitter.
From S2P Require Import RaftTypes Storage Transport RaftNode Cluster Runtime RaftCluster.
From S2P Require Import Scorer Worker WorkerSystem Coordinator Verdicts Chaos Owned Settlement Containers Scripts ScriptLogic ScriptLedger ScriptDemo.
Import Scripts ScriptLogic ScriptLedger.

Local Open Scope Z_scope.

(** ** Two conflicting debits *)

Definition one_debit (m : Ledger.LedgerStateMachine) : Prop :=
  Ledger.balance "acct-1" m = DFin 100 0 ∨ Ledger.balance "acct-1" m = DFin 20 0.

Lemma one_debit_step txn now c m : debit_of "acct-1" 80 txn → Submitter.entry_for txn now = Ok c →
  one_debit m → one_debit (Ledger.apply c m).2.
Proof.
  intros Ht He Hm. destruct (debit_entry _ 80 txn now c ltac:(unfold Dec.prec; lia) Ht He) as (H1 & H2 & _).
  destruct Hm as [Hb|Hb]; (destruct (apply_debit _ c m _ 80 H1 H2 Hb ltac:(unfold Dec.prec; lia)) as [->|[_ Hbal _ _]];
    [by first [by left|by right]|right; by rewrite Hbal]).
Qed.

Section scripts.
Variable others : nat → list (RaftCluster.Op LedgerEntry * RaftCluster.Draws).
Variable clock : nat → float.
Variable fuel : nat.
Variable meanwhile : nat → list Coordinator.Event.
Variable time : nat → float.
Abbreviation run_ops ids := (RaftCluster.run (C := LedgerEntry) (S := Ledger.LedgerStateMachine)
  election_timeout_min election_timeout_max heartbeat_interval ids).
Abbreviation replicas ids tail w := (Cluster.slots (RaftCluster.cluster (run_ops ids tail
  (RaftCluster.shared (Coordinator.raft_cluster (coordinator w)))))).

(** C17 (no double-spend): run demo_conflicting_transactions.py with its two
    debits of 80 on a balance of 100, in either order and in any interleaving
    of the fraud workers, the submitter, evictions, kills and revivals with
    elections, crashes and partitions of the cluster.  The script ends, with a
    verdict unless there is no leader to ask: the final balance is 20, and it
    prints PASS, or it is still 100, and it prints UNEXPECTED.  No replica ever
    has another balance, then or later. *)
Theorem no_double_spend swap boot a b :
  (∀ k, Settlement.silent (others k)) → (∀ k, Forall Containers.background (meanwhile k)) → (1 < fuel)%nat →
  client_clock clock fuel (F.lit 2 0) → main_clock fuel time (F.lit 5 0) →
  ∃ r w, conflicting_main others clock fuel meanwhile time swap boot a b = Ok (r, w) ∧
    match r with
    | Ok _ => ∃ intro1 intro2 final verdict,
        printed w = [intro1; intro2; [FLit "Final balance: $"; FDec final]; verdict] ∧
        (final = DFin 20 0 ∧ verdict = [FLit "PASS: exactly one $80 debit was accepted -- no double-spend."] ∨
         final = DFin 100 0 ∧ verdict = [FLit "UNEXPECTED final balance: "; FDec (DFin 100 0); FLit " (expected $20)"])
    | Raise x => x = TimeoutError "no Raft leader available"
    end ∧
    ∀ tail id s, Settlement.silent tail → replicas three_nodes tail w !! id = Some s → one_debit (Cluster.slot_machine s).
Proof.
  intros Ho Hm Hf Hc Ht. assert (Hids : NoDup three_nodes) by compute_done.
  assert (H0 : one_debit (seeded 100)) by (left; vm_compute; reflexivity).
  destruct (debit_made "acct-1" 80 a) as (ta & Ea & Hta & _); [done|lia|]. destruct (debit_made "acct-1" 80 b) as (tb & Eb & Htb & _); [done|lia|].
  assert (Hstep : ∀ txn fs now c m, debit_of "acct-1" 80 txn → Verdicts.verdict Scorer.default_config txn fs → fs_is_fraud fs = false →
    Submitter.entry_for txn now = Ok c → one_debit m → one_debit (Ledger.apply c m).2)
    by (intros txn fs now c m Hq _ _; by apply one_debit_step).
  unfold conflicting_main.
  destruct (run_script_wpx election_timeout_min election_timeout_max heartbeat_interval three_nodes Hids (seeded 100) others clock fuel
    meanwhile Ho Hm None (debit_of "acct-1" 80) 2 2 boot (conflicting_body election_timeout_min election_timeout_max heartbeat_interval three_nodes others
      clock fuel meanwhile time swap a b)
    (λ w, ∃ intro1 intro2 final verdict, printed w = [intro1; intro2; [FLit "Final balance: $"; FDec final]; verdict] ∧
        (final = DFin 20 0 ∧ verdict = [FLit "PASS: exactly one $80 debit was accepted -- no double-spend."] ∨
         final = DFin 100 0 ∧ verdict = [FLit "UNEXPECTED final balance: "; FDec (DFin 100 0); FLit " (expected $20)"]))
    (λ x, x = Owned.no_leader)) as (r & w & E & Hr & Hpost).
  - lia.
  - intros w Hr Hp. unfold conflicting_body.
    apply wpx_bind, wpx_print; [done|]. intros w1 Hr1 _ Hp1.
    eapply wpx_bind, wpx_lift; [exact Ea|]. eapply wpx_bind, wpx_lift; [exact Eb|].
    apply wpx_bind, wpx_print; [done|]. intros w2 Hr2 _ Hp2.
    apply wpx_bind, wpx_fire_both; [done..|]. intros w3 [_ Hp3 Hr3].
    eapply (wpx_await _ _ _ _ Hids _ _ _ _ _ _ Ho Hm None (debit_of "acct-1" 80) one_debit); [done|exact Hstep|lia|done|done|done|done|].
    intros final w4 [_ Hp4 Hr4] (m & Hi & Hfinal). unfold one_debit in Hi. rewrite <- Hfinal in Hi.
    clear Hfinal. apply wpx_bind, wpx_print; [done|]. intros w5 Hr5 _ Hp5.
    rewrite Hp4, Hp3, Hp2, Hp1, Hp in Hp5. simpl in Hp5.
    destruct Hi as [-> | ->]; cbv beta;
      (match goal with |- context [Dec.eqb ?x ?y] => change (Dec.eqb x y) with false || change (Dec.eqb x y) with true end);
      apply wpx_print; try done; intros w6 Hr6 _ Hp6; (split; [done|]); rewrite Hp5 in Hp6; simpl in Hp6;
      do 4 eexists; (split; [exact Hp6|]); [by right|by left].
  - intros w w' ->. done.
  - exists r, w. split; [exact E|]. split; [by destruct r|]. intros tail id s Htail Hs.
    exact (later_replica _ _ _ _ Hids _ None _ _ H0 Hstep _ tail id s Hr Htail Hs).
Qed.

(** ** Killing the leader between two debits *)

(** Each of the two debits is on the account once, if the ledger has handled
    it, and not at all otherwise. *)
Definition applied_once (ida idb : string) (m : Ledger.LedgerStateMachine) : Prop :=
  Ledger.balance "acct-1" m = DFin (1000 - paid 100 ida m - paid 200 idb m) 0.

Definition one_of_two (ida idb : string) (txn : Transaction) : Prop :=
  debit_of "acct-1" 100 txn ∧ tx_id txn = ida ∨ debit_of "acct-1" 200 txn ∧ tx_id txn = idb.

Lemma applied_once_debit ida idb k c m : le_account_id c = "acct-1" → le_delta c = DFin (- k) 0 → 0 < k ≤ 200 →
  (∀ m', (∀ id' x, paid x id' m' = if decide (le_entry_id c = id') then x else paid x id' m) → handled (le_entry_id c) m = false →
     paid 100 ida m' + paid 200 idb m' = paid 100 ida m + paid 200 idb m + k) →
  applied_once ida idb m → applied_once ida idb (Ledger.apply c m).2.
Proof.
  intros H1 H2 Hk Hp Hm. pose proof (paid_range 100 ida m ltac:(lia)) as Ra. pose proof (paid_range 200 idb m ltac:(lia)) as Rb.
  destruct (apply_debit _ c m _ k H1 H2 Hm ltac:(unfold Dec.prec; lia)) as [->|[Hf Hb _ Hi]]; [done|].
  specialize (Hp _ Hi Hf). unfold applied_once. rewrite Hb, (proj2 (Z.ltb_ge _ _)) by lia. f_equal. lia.
Qed.

Lemma applied_once_step ida idb txn now c m : ida ≠ idb → one_of_two ida idb txn → Submitter.entry_for txn now = Ok c →
  applied_once ida idb m → applied_once ida idb (Ledger.apply c m).2.
Proof.
  intros Hne [[Ht Hid]|[Ht Hid]] He.
  - destruct (debit_entry _ 100 txn now c ltac:(unfold Dec.prec; lia) Ht He) as (H1 & H2 & H3).
    apply (applied_once_debit _ _ 100); [done|done|lia|]. intros m' Hp Hf. rewrite !Hp, H3, Hid in *.
    rewrite decide_True, decide_False by done. unfold paid. rewrite Hf. lia.
  - destruct (debit_entry _ 200 txn now c ltac:(unfold Dec.prec; lia) Ht He) as (H1 & H2 & H3).
    apply (applied_once_debit _ _ 200); [done|done|lia|]. intros m' Hp Hf. rewrite !Hp, H3, Hid in *.
    rewrite decide_False, decide_True by done. unfold paid. rewrite Hf. lia.
Qed.

Lemma applied_once_cases ida idb m : applied_once ida idb m →
  Ledger.balance "acct-1" m = DFin 700 0 ∨
  Ledger.balance "acct-1" m ∈ [DFin 1000 0; DFin 900 0; DFin 800 0].
Proof. unfold applied_once, paid. intros ->. destruct (handled ida m), (handled idb m); [by left|right..]; set_solver. Qed.

(** What the script has printed in the end, and how it can fail. *)
Definition kill_leader_verdict (w : Script) : Prop := ∃ lines final verdict,
  printed w = lines ++ [[FLit "Final balance: $"; FDec final; FLit " (expected $700: 1000 - 100 - 200)"]; verdict] ∧
  (final = DFin 700 0 ∧ verdict = [FLit "PASS: no transaction lost or double-applied across the leader failover."] ∨
   final ∈ [DFin 1000 0; DFin 900 0; DFin 800 0] ∧ verdict = [FLit "UNEXPECTED final balance: "; FDec final]).
Definition no_leader_found (x : exn) : Prop :=
  x ∈ [TimeoutError "no Raft leader available"; AssertionError; TimeoutError "no leader to kill";
       TimeoutError "no new leader elected within timeout"].

Lemma kill_leader_runs a b w (Q := one_of_two (stamp_id a) (stamp_id b)) (J := applied_once (stamp_id a) (stamp_id b)) :
  (∀ k, Settlement.silent (others k)) → (∀ k, Forall Containers.background (meanwhile k)) → (1 < fuel)%nat →
  client_clock clock fuel (F.lit 2 0) → client_clock clock fuel (F.lit 2 1) → client_clock clock fuel (F.lit 3 0) →
  main_clock fuel time (F.lit 3 0) →
  (∀ txn fs now c m, Q txn → Verdicts.verdict Scorer.default_config txn fs → fs_is_fraud fs = false →
    Submitter.entry_for txn now = Ok c → J m → J (Ledger.apply c m).2) →
  Settlement.running election_timeout_min election_timeout_max heartbeat_interval five_nodes (seeded 1000) Scorer.default_config Q (coordinator w) →
  wpx election_timeout_min election_timeout_max heartbeat_interval five_nodes (seeded 1000) None Q
    (kill_leader_body election_timeout_min election_timeout_max heartbeat_interval five_nodes others clock fuel meanwhile time a b)
    (λ _ w', Settlement.running election_timeout_min election_timeout_max heartbeat_interval five_nodes (seeded 1000) Scorer.default_config Q
               (coordinator w') ∧ kill_leader_verdict w') no_leader_found w.
Proof.
  intros Ho Hm Hf Hc Hc1 Hc3 Ht Hstep Hr. assert (Hids : NoDup five_nodes) by compute_done. assert (H0 : J (seeded 1000)) by (vm_compute; reflexivity).
  destruct (debit_made "acct-1" 100 a) as (ta & Ea & Hta & Hida); [done|lia|].
  destruct (debit_made "acct-1" 200 b) as (tb & Eb & Htb & Hidb); [done|lia|].
  assert (Hqa : Q ta) by (by left). assert (Hqb : Q tb) by (by right). unfold kill_leader_body.
  apply wpx_bind, wpx_print; [done|]. intros w1 Hr1 _ _.
  eapply wpx_bind, wpx_lift; [exact Ea|].
  apply wpx_bind, wpx_submit; [done..|]. intros w2 [_ _ Hr2].
  eapply (wpx_await _ _ _ _ Hids _ _ _ _ _ _ Ho Hm None Q J); [done|exact Hstep|lia|done|done| |done|]; [by left|].
  intros balance1 w3 [_ _ Hr3] _.
  apply wpx_bind, wpx_print; [done|]. intros w4 Hr4 _ _.
  apply wpx_bind, wpx_find_leader; [done..|lia|done|done|]. intros old w5 [_ _ Hr5] Hold.
  destruct old as [old|]; [|split; [right; by left|done]]. specialize (Hold old eq_refl).
  apply wpx_bind, wpx_current_term; [done..|]. intros old_term w6 [_ _ Hr6].
  apply wpx_bind, wpx_kill; [done..|lia|done|done| |]; [intros x ->; right; right; by left|]. intros killed w7 [_ _ Hr7] _.
  apply wpx_bind, wpx_print; [done|]. intros w8 Hr8 _ _.
  apply wpx_bind, wpx_print; [done|]. intros w9 Hr9 _ _.
  eapply wpx_bind, wpx_lift; [exact Eb|].
  apply wpx_bind, wpx_submit; [done..|]. intros w10 [_ _ Hr10].
  apply wpx_bind, wpx_wait; [done..|lia|done|done|done| |]; [intros x ->; right; right; right; by left|]. intros new w11 [_ _ Hr11] Hnew.
  apply wpx_bind, wpx_current_term; [done..|]. intros new_term w12 [_ _ Hr12].
  apply wpx_bind, wpx_print; [done|]. intros w13 Hr13 _ _.
  eapply (wpx_await _ _ _ _ Hids _ _ _ _ _ _ Ho Hm None Q J); [done|exact Hstep|lia|done|done| |done|]; [by left|].
  intros final w14 [_ _ Hr14] (m & Hi & Hfinal). apply applied_once_cases in Hi. rewrite <- Hfinal in Hi. clear Hfinal.
  apply wpx_bind, wpx_print; [done|]. intros w15 Hr15 _ Hp15.
  destruct Hi as [-> |Hi].
  + change (Dec.eqb _ _) with true. apply wpx_print; [done|]. intros w16 Hr16 _ Hp16. split; [done|]. rewrite Hp15, <- app_assoc in Hp16.
    do 3 eexists. split; [exact Hp16|]. by left.
  + assert (Hne7 : Dec.eqb final (Dec.of_Z 700) = false).
    { rewrite !elem_of_cons in Hi. destruct Hi as [->|[->|[->|[]%not_elem_of_nil]]]; vm_compute; reflexivity. }
    rewrite Hne7. apply wpx_print; [done|]. intros w16 Hr16 _ Hp16. split; [done|]. rewrite Hp15, <- app_assoc in Hp16.
    do 3 eexists. split; [exact Hp16|]. by right.
Qed.

(** C18 (killing the leader): run demo_kill_leader.py in any interleaving, with
    different ids for its two transactions.  The script ends: with a final
    balance of 700 and PASS, or with one of 1000, 900 and 800 and UNEXPECTED
    (an entry that only the killed leader had is lost); or one of its searches
    for a leader fails, with the exception it raises there.  On every replica,
    then and later, each of the two debits is on the account once if the ledger
    has handled it, however often it was delivered, proposed or replayed. *)
Theorem kill_leader_applies_once boot a b :
  (∀ k, Settlement.silent (others k)) → (∀ k, Forall Containers.background (meanwhile k)) → (1 < fuel)%nat →
  client_clock clock fuel (F.lit 2 0) → client_clock clock fuel (F.lit 2 1) → client_clock clock fuel (F.lit 3 0) →
  main_clock fuel time (F.lit 3 0) → stamp_id a ≠ stamp_id b →
  ∃ r w, kill_leader_main others clock fuel meanwhile time boot a b = Ok (r, w) ∧
    match r with
    | Ok _ => ∃ lines final verdict,
        printed w = lines ++ [[FLit "Final balance: $"; FDec final; FLit " (expected $700: 1000 - 100 - 200)"]; verdict] ∧
        (final = DFin 700 0 ∧ verdict = [FLit "PASS: no transaction lost or double-applied across the leader failover."] ∨
         final ∈ [DFin 1000 0; DFin 900 0; DFin 800 0] ∧ verdict = [FLit "UNEXPECTED final balance: "; FDec final])
    | Raise x => x ∈ [TimeoutError "no Raft leader available"; AssertionError; TimeoutError "no leader to kill";
                      TimeoutError "no new leader elected within timeout"]
    end ∧
    ∀ tail id s, Settlement.silent tail → replicas five_nodes tail w !! id = Some s →
      applied_once (stamp_id a) (stamp_id b) (Cluster.slot_machine s).
Proof.
  intros Ho Hm Hf Hc Hc1 Hc3 Ht Hne. assert (Hids : NoDup five_nodes) by compute_done.
  set (J := applied_once (stamp_id a) (stamp_id b)). set (Q := one_of_two (stamp_id a) (stamp_id b)).
  assert (H0 : J (seeded 1000)) by (vm_compute; reflexivity).
  assert (Hstep : ∀ txn fs now c m, Q txn → Verdicts.verdict Scorer.default_config txn fs → fs_is_fraud fs = false →
    Submitter.entry_for txn now = Ok c → J m → J (Ledger.apply c m).2)
    by (intros txn fs now c m Hq _ _; by apply applied_once_step).
  destruct (run_script_wpx election_timeout_min election_timeout_max heartbeat_interval five_nodes Hids (seeded 1000) others clock fuel
    meanwhile Ho Hm None Q 2 2 boot _ kill_leader_verdict no_leader_found ltac:(lia)
    (λ w Hr _, kill_leader_runs a b w Ho Hm Hf Hc Hc1 Hc3 Ht Hstep Hr)) as (r & w & E & Hr & Hpost).
  - intros w w' E (lines & final & verdict & H). exists lines, final, verdict. by rewrite E.
  - exists r, w. split; [exact E|]. split; [by destruct r|]. intros tail id s Htail Hs.
    exact (later_replica _ _ _ _ Hids _ None _ _ H0 Hstep _ tail id s Hr Htail Hs).
Qed.
End scripts.

(** ** Concrete runs *)

(** The run whose output is PASS: no replica ever has another balance. *)
Lemma no_double_spend_witness :
  ScriptDemo.output ScriptDemo.conflict = Ok
    [[FLit "Starting balance for acct-1: $100"];
     [FLit "Firing two concurrent $80 debits: "; FStr "txn-a"; FLit " and "; FStr "txn-b"];
     [FLit "Final balance: $"; FDec (DFin 20 0)];
     [FLit "PASS: exactly one $80 debit was accepted -- no double-spend."]] ∧
  ∃ r w, ScriptDemo.conflict = Ok (r, w) ∧
    ∀ tail id s, Settlement.silent tail →
      Cluster.slots (RaftCluster.cluster (RaftCluster.run election_timeout_min election_timeout_max heartbeat_interval three_nodes tail
        (RaftCluster.shared (Coordinator.raft_cluster (coordinator w))))) !! id = Some s → one_debit (Cluster.slot_machine s).
Proof.
  split; [vm_compute; reflexivity|]. unfold ScriptDemo.conflict.
  destruct (no_double_spend ScriptDemo.others ScriptDemo.clock 100 ScriptDemo.meanwhile ScriptDemo.clock false ScriptDemo.boot
    (ScriptDemo.stamp "txn-a") (ScriptDemo.stamp "txn-b")) as (r & w & E & _ & H).
  - exact ScriptDemo.others_conflict_silent.
  - exact ScriptDemo.meanwhile_background.
  - lia.
  - apply ScriptDemo.clock_ends; vm_compute; reflexivity.
  - apply ScriptDemo.clock_ends; vm_compute; reflexivity.
  - exists r, w. split; [exact E|exact H].
Defined.

(** The run in which the second debit is settled by the new leader. *)
Lemma kill_leader_applies_once_witness :
  ScriptDemo.output_from 6 ScriptDemo.failover =
    [[FLit "PASS: no transaction lost or double-applied across the leader failover."]] ∧
  ∃ r w, ScriptDemo.failover = Ok (r, w) ∧
    ∀ tail id s, Settlement.silent tail →
      Cluster.slots (RaftCluster.cluster (RaftCluster.run election_timeout_min election_timeout_max heartbeat_interval five_nodes tail
        (RaftCluster.shared (Coordinator.raft_cluster (coordinator w))))) !! id = Some s → applied_once "txn-a" "txn-b" (Cluster.slot_machine s).
Proof.
  split; [vm_compute; reflexivity|]. unfold ScriptDemo.failover.
  destruct (kill_leader_applies_once ScriptDemo.others_kill ScriptDemo.clock 100 ScriptDemo.meanwhile_kill ScriptDemo.clock ScriptDemo.boot
    (ScriptDemo.stamp "txn-a") (ScriptDemo.stamp "txn-b")) as (r & w & E & _ & H).
  - exact ScriptDemo.others_kill_silent.
  - exact ScriptDemo.meanwhile_kill_background.
  - lia.
  - apply ScriptDemo.clock_ends; vm_compute; reflexivity.
  - apply ScriptDemo.clock_ends; vm_compute; reflexivity.
  - apply ScriptDemo.clock_ends; vm_compute; reflexivity.
  - apply ScriptDemo.clock_ends; vm_compute; reflexivity.
  - discriminate.
  - exists r, w. split; [exact E|exact H].
Defined.
