(* ===== verification/BurstProps.v ===== *)
(** * What the fraud-burst demo shows (scripts/demo_fraud_burst.py)

    The script ends, and whatever the interleaving no replica ever holds a large
    debit: the accounts pay for their normal transactions only, each once. *)

From stdpp Require Import base gmap strings list pretty.
From Stdlib Require Import ZArith SpecFloat Lia.
From S2P Require Import Prelude PyDecimal PyFloat Models StateMachine Ledger Submitter.
From S2P Require Import RaftTypes Storage Transport RaftNode RaftHistory Cluster Runtime RaftCluster.
From S2P Require Import Scorer Worker WorkerSystem Coordinator Verdicts Owned Settlement Containers Scripts ScriptLogic ScriptLedger ScriptDemo.
Import Scripts ScriptLogic ScriptLedger.

Local Open Scope Z_scope.

(** ** The transactions of the script *)

Definition burst_account (k : nat) : string :=
  if (k <? 60)%nat then acct (k `mod` 20) else if (k <? 85)%nat then "acct-victim" else acct ((k - 85) `mod` 20).
Definition burst_amount (k : nat) : Z := if (k <? 60)%nat then 25 else if (k <? 85)%nat then 15 else 25000.

Lemma burst_amount_range k : 0 < burst_amount k < 10 ^ Dec.prec.
Proof. unfold burst_amount, Dec.prec. destruct (k <? 60)%nat; [lia|]. destruct (k <? 85)%nat; lia. Qed.

Section ledger.
Variable ids : nat → string.
Hypothesis Hinj : ∀ j k, (j < 110)%nat → (k < 110)%nat → ids j = ids k → j = k.

(** The [k]-th transaction. *)
Definition burst_txn (txn : Transaction) : Prop :=
  ∃ k, (k < 110)%nat ∧ tx_id txn = ids k ∧ debit_of (burst_account k) (burst_amount k) txn.

(** Each account has paid for those of its three normal transactions that the
    ledger has handled, the victim for none. *)
Definition burst_ledger (m : Ledger.LedgerStateMachine) : Prop :=
  (∀ i, (i < 20)%nat → Ledger.balance (acct i) m =
     DFin (5000 - paid 25 (ids i) m - paid 25 (ids (20 + i)%nat) m - paid 25 (ids (40 + i)%nat) m) 0) ∧
  Ledger.balance "acct-victim" m = Dec.zero.

Lemma acct_inj i j : acct i = acct j → i = j.
Proof. unfold acct. intros H. apply (inj (String.append "acct-")) in H. by apply (inj pretty) in H. Qed.

Lemma acct_victim i : (i < 20)%nat → acct i ≠ "acct-victim".
Proof. intros Hi. do 20 (destruct i as [|i]; [by vm_compute|]). lia. Qed.

(** A large debit is always flagged: what is cleared is one of the first
    85. *)
Lemma cleared_burst txn fs k : Verdicts.verdict burst_config txn fs → fs_is_fraud fs = false → (k < 110)%nat →
  debit_of (burst_account k) (burst_amount k) txn → (k < 85)%nat.
Proof.
  intros Hv Hf Hk (_ & _ & Ha). destruct (Verdicts.default_clear burst_config txn fs) as [Hg _]; [done..|].
  rewrite Ha in Hg. unfold burst_amount in Hg. destruct (Nat.ltb_spec k 60); [lia|]. destruct (Nat.ltb_spec k 85); [done|].
  vm_compute in Hg. discriminate.
Qed.

Lemma burst_ledger_step txn fs now c m : burst_txn txn → Verdicts.verdict burst_config txn fs → fs_is_fraud fs = false →
  Submitter.entry_for txn now = Ok c → burst_ledger m → burst_ledger (Ledger.apply c m).2.
Proof.
  intros (k & Hk & Hid & Hd) Hv Hf He [Hm Hvic]. pose proof (cleared_burst txn fs k Hv Hf Hk Hd) as Hk85.
  pose proof (debit_entry _ _ _ now c (burst_amount_range k) Hd He) as (H1 & H2 & H3).
  rewrite Hid in H3. unfold burst_account, burst_amount in *. destruct (Nat.ltb_spec k 60).
  - assert (Hi : (k `mod` 20 < 20)%nat) by (apply Nat.mod_upper_bound; lia). pose proof (Nat.div_mod_eq k 20) as Ek.
    set (i := (k `mod` 20)%nat) in *. pose proof (Hm i Hi) as Hb.
    pose proof (paid_range 25 (ids i) m ltac:(lia)). pose proof (paid_range 25 (ids (20 + i)%nat) m ltac:(lia)).
    pose proof (paid_range 25 (ids (40 + i)%nat) m ltac:(lia)).
    destruct (apply_debit _ c m _ 25 H1 H2 Hb ltac:(unfold Dec.prec; lia)) as [->|[Hfresh Hbal Hoth Hp]]; [by split|].
    rewrite (proj2 (Z.ltb_ge _ _)) in Hbal by lia. rewrite H3 in *.
    split; [|rewrite Hoth; [done|]; intros Ev; by apply (acct_victim i)].
    intros j Hj. rewrite !Hp. destruct (decide (j = i)) as [->|Hne].
    + rewrite Hbal. f_equal. assert (Hc : k = i ∨ k = (20 + i)%nat ∨ k = (40 + i)%nat) by (clearbody i; lia). clearbody i.
      assert (Hpk : paid 25 (ids k) m = 0) by (unfold paid; by rewrite Hfresh).
      destruct Hc as [E|[E|E]]; rewrite <- E, Hpk, (decide_True _ _ eq_refl);
        repeat (case_decide as Hx; [apply Hinj in Hx; lia|clear Hx]); lia.
    + rewrite Hoth, Hm by first [done|intros Ea%acct_inj; congruence]. f_equal.
      repeat (case_decide as Hx; [apply Hinj in Hx; lia|clear Hx]). done.
  - rewrite (proj2 (Nat.ltb_lt k 85)) in * by lia.
    destruct (apply_debit _ c m 0 15 H1 H2 Hvic ltac:(unfold Dec.prec; lia)) as [->|[Hfresh Hbal Hoth Hp]]; [by split|].
    split; [|exact Hbal]. intros j Hj. rewrite !Hp, H3. rewrite Hoth by (by apply acct_victim). rewrite Hm by done. f_equal.
    repeat (case_decide as Hx; [apply Hinj in Hx; lia|clear Hx]). done.
Qed.
End ledger.

Lemma burst_seed_ledger ids : burst_ledger ids burst_seed.
Proof.
  split; [|vm_compute; reflexivity]. intros i Hi. unfold paid, handled. cbn [burst_seed Ledger.init Ledger.results].
  rewrite !lookup_empty, !bool_decide_false by (by intros []).
  do 20 (destruct i as [|i]; [vm_compute; reflexivity|]). lia.
Qed.

(** ** The script *)

Section script.
Variable others : nat → list (RaftCluster.Op LedgerEntry * RaftCluster.Draws).
Variable clock : nat → float.
Variable fuel : nat.
Variable meanwhile : nat → list Coordinator.Event.
Variable time : nat → float.
Hypothesis Hothers : ∀ k, Settlement.silent (others k).
Hypothesis Hmeanwhile : ∀ k, Forall Containers.background (meanwhile k).
Variable stamps : nat → Stamp.
Abbreviation ids := (λ k, stamp_id (stamps k)).
Abbreviation Q := (burst_txn ids).
Abbreviation running := (Settlement.running election_timeout_min election_timeout_max heartbeat_interval three_nodes burst_seed burst_config Q).
Abbreviation wpx := (ScriptLogic.wpx election_timeout_min election_timeout_max heartbeat_interval three_nodes burst_seed (Some burst_config) Q).
Abbreviation later := (ScriptLogic.later election_timeout_min election_timeout_max heartbeat_interval three_nodes burst_seed (Some burst_config) Q).
Abbreviation body := (burst_body election_timeout_min election_timeout_max heartbeat_interval three_nodes others clock fuel meanwhile time stamps).

Lemma nodes_nodup : NoDup three_nodes.
Proof. apply (bool_decide_unpack _). vm_compute. exact Logic.I. Qed.

Lemma wpx_submit_debit k (Post : unit → Script → Prop) (Exc : exn → Prop) w : (k < 110)%nat → running (coordinator w) →
  (∀ w', later w w' → Post tt w') →
  wpx (submit_debit election_timeout_min election_timeout_max heartbeat_interval three_nodes others clock fuel meanwhile
    (burst_account k) (burst_amount k) (stamps k)) Post Exc w.
Proof.
  intros Hk Hr Hp. destruct (debit_made (burst_account k) (burst_amount k) (stamps k)) as (txn & E & Hd & Hid).
  { unfold burst_account, acct. destruct (k <? 60)%nat; [done|]. by destruct (k <? 85)%nat. }
  { apply burst_amount_range. }
  eapply wpx_bind, wpx_lift; [exact E|]. apply (wpx_submit _ _ _ _ nodes_nodup); [done..| |done]. by exists k.
Qed.

(** The report of the script. *)
Definition burst_report (submitted flagged : Z) (elapsed rate share : float) : list fstring :=
  [[FLit "Submitting "; FInt 60; FLit " normal transactions across "; FInt 20; FLit " accounts..."];
   [FLit "Firing a burst of "; FInt 50; FLit " fraud-shaped transactions..."];
   [];
   [FLit "Processed "; FInt (submitted + flagged); FLit "/"; FInt 110; FLit " transactions in ";
    FFormat ".2f" elapsed; FLit "s ("; FFormat ".0f" rate; FLit " txn/s)"];
   [FLit "Settled clean:   "; FInt submitted];
   [FLit "Flagged fraud:   "; FInt flagged; FLit "  (of ~"; FInt 50; FLit " fraud-shaped transactions injected)"];
   [FLit "Approx catch rate: "; FFormat ".0%" share]].
Definition reported w : Prop := ∃ submitted flagged elapsed rate share, printed w = burst_report submitted flagged elapsed rate share.
Definition division_failed (x : exn) : Prop := x = ZeroDivisionError ∨ x = OverflowError.

Lemma truediv_cases n y : match (x <-? float_of_int n ;; truediv x y)%py with Ok _ => True | Raise x => division_failed x end.
Proof. unfold float_of_int. destruct (F.of_Z n); cbn [res_bind]; try (by right); destruct y; simpl; try done; by left. Qed.

Lemma wpx_lift_or {A} (r : res A) (Post : A → Script → Prop) (Exc : exn → Prop) w : running (coordinator w) →
  match r with Ok a => Post a w | Raise x => Exc x end → wpx (lift r) Post Exc w.
Proof. intros Hr H. unfold ScriptLogic.wpx, lift. by destruct r. Qed.

Lemma burst_body_runs w : (1 < fuel)%nat → main_clock fuel time (F.lit 10 0) → running (coordinator w) → printed w = [] →
  wpx body (λ _ w', running (coordinator w') ∧ reported w') division_failed w.
Proof.
  intros Hf Ht Hr Hp. assert (Hf0 : (0 < fuel)%nat) by lia. unfold burst_body.
  apply wpx_bind, wpx_print; [done|]. intros w1 Hr1 _ Hp1. rewrite Hp in Hp1.
  apply wpx_bind. eapply wpx_for_each; [|exact Hr1|].
  { intros i v P Hi%elem_of_seq Hv HP. change legit_count with 60%nat in Hi.
    pose proof (wpx_submit_debit i P division_failed v ltac:(lia) Hv HP) as H. unfold burst_account, burst_amount in H.
    rewrite (proj2 (Nat.ltb_lt i 60)) in H by lia. exact H. }
  intros w2 Hr2 Hp2. apply wpx_bind, wpx_print; [done|]. intros w3 Hr3 _ Hp3.
  apply wpx_bind, (wpx_monotonic _ _ _ _ nodes_nodup); [done..|]. intros w4 [_ Hp4 Hr4].
  apply wpx_bind. eapply wpx_for_each; [|exact Hr4|].
  { intros i v P Hi%elem_of_seq Hv HP. unfold velocity_burst_count in Hi. change legit_count with 60%nat.
    pose proof (wpx_submit_debit (60 + i) P division_failed v ltac:(lia) Hv HP) as H. unfold burst_account, burst_amount in H.
    rewrite (proj2 (Nat.ltb_ge (60 + i) 60)), (proj2 (Nat.ltb_lt (60 + i) 85)) in H by lia. exact H. }
  intros w5 Hr5 Hp5. apply wpx_bind. eapply wpx_for_each; [|exact Hr5|].
  { intros i v P Hi%elem_of_seq Hv HP. unfold large_amount_count in Hi. change (legit_count + velocity_burst_count)%nat with 85%nat.
    pose proof (wpx_submit_debit (85 + i) P division_failed v ltac:(lia) Hv HP) as H. unfold burst_account, burst_amount in H.
    rewrite (proj2 (Nat.ltb_ge (85 + i) 60)), (proj2 (Nat.ltb_ge (85 + i) 85)) in H by lia.
    replace (85 + i - 85)%nat with i in H by lia. exact H. }
  intros w6 Hr6 Hp6. apply wpx_bind, (wpx_deadline _ _ _ _ nodes_nodup); [done..|]. intros w7 [Hs7 Hp7 Hr7].
  apply wpx_bind, (wpx_await_processed _ _ _ _ nodes_nodup _ _ _ _ _ _ Hothers Hmeanwhile _ _ Hf0 _ _ (steps w6 + fuel));
    [intros j Hj; by apply Ht|done|lia|lia|]. intros w8 [_ Hp8 Hr8].
  apply wpx_bind, (wpx_monotonic _ _ _ _ nodes_nodup); [done..|]. intros w9 [_ Hp9 Hr9].
  apply wpx_bind, (wpx_status _ _ _ _ nodes_nodup); [done..|]. intros st w10 [_ Hp10 Hr10]. cbv zeta.
  set (elapsed := F.sub _ _). set (flagged := Coordinator.fraud_flagged_count st). set (submitted := Coordinator.submitted_count st).
  apply wpx_bind, wpx_print; [done|]. intros w11 Hr11 _ Hp11.
  apply wpx_bind, wpx_lift_or; [done|]. pose proof (truediv_cases (submitted + flagged) elapsed) as Hd.
  destruct (res_bind _ _) as [rate|x]; [clear Hd|exact Hd].
  apply wpx_bind, wpx_print; [done|]. intros w12 Hr12 _ Hp12. apply wpx_bind, wpx_print; [done|]. intros w13 Hr13 _ Hp13.
  apply wpx_bind, wpx_print; [done|]. intros w14 Hr14 _ Hp14.
  apply wpx_bind, wpx_lift_or; [done|]. unfold int_truediv. pose proof (truediv_cases (Z.min flagged 50) (F.of_Z 50)) as Hd.
  change (res_bind (float_of_int (Z.of_nat fraud_shaped)) ?f) with (f (F.of_Z 50)).
  change (Z.of_nat fraud_shaped) with 50. destruct (res_bind _ _) as [share|x]; [clear Hd|exact Hd].
  apply wpx_print; [done|]. intros w15 Hr15 _ Hp15. split; [done|].
  exists submitted, flagged, elapsed, rate, share.
  rewrite Hp14, Hp13, Hp12, Hp11, Hp10, Hp9, Hp8, Hp7, Hp6, Hp5, Hp4, Hp3, Hp2, Hp1 in Hp15. exact Hp15.
Qed.
(** C19 (the fraud burst): run demo_fraud_burst.py, with different ids for its
    110 transactions, in any interleaving of the fraud workers, the submitter,
    evictions, kills and revivals with elections, crashes and partitions of the
    cluster.  The script ends, with its report or because it divides by a
    measured time of zero.  Every entry in the log of any replica, then and
    later, is that of a normal transaction or of a small debit of the victim,
    never of a debit of 25000; on every replica each of the twenty accounts has
    paid for those of its three normal transactions that the ledger has
    handled, once each, and the victim, which was never seeded, for none. *)
Theorem fraud_burst_outcome boot :
  (1 < fuel)%nat → main_clock fuel time (F.lit 10 0) →
  (∀ j k, (j < 110)%nat → (k < 110)%nat → stamp_id (stamps j) = stamp_id (stamps k) → j = k) →
  ∃ r w, burst_main others clock fuel meanwhile time boot stamps = Ok (r, w) ∧
    match r with
    | Ok _ => ∃ submitted flagged elapsed rate share, printed w = burst_report submitted flagged elapsed rate share
    | Raise x => x = ZeroDivisionError ∨ x = OverflowError
    end ∧
    ∀ tail id s, Settlement.silent tail →
      Cluster.slots (RaftCluster.cluster (RaftCluster.run election_timeout_min election_timeout_max heartbeat_interval three_nodes tail
        (RaftCluster.shared (Coordinator.raft_cluster (coordinator w))))) !! id = Some s →
      Forall (λ e, ∃ k, (k < 85)%nat ∧ le_entry_id e = stamp_id (stamps k) ∧ le_account_id e = burst_account k ∧
                le_delta e = DFin (- burst_amount k) 0)
        (History.cmds (Storage.entries (Cluster.slot_storage s))) ∧
      burst_ledger ids (Cluster.slot_machine s).
Proof.
  intros Hf Ht Hinj. unfold burst_main.
  destruct (run_script_wpx election_timeout_min election_timeout_max heartbeat_interval three_nodes nodes_nodup burst_seed others clock fuel meanwhile Hothers Hmeanwhile (Some burst_config) Q
    4 3 boot body reported division_failed) as (r & w & E & Hr & Hpost).
  - lia.
  - intros w Hr Hp. by apply burst_body_runs.
  - intros w w' Hp (a & b & c & d & e & H). exists a, b, c, d, e. congruence.
  - exists r, w. split; [exact E|]. split; [by destruct r|]. intros tail id s Htail Hs. split.
    + destruct (Settlement.settled_replica _ _ _ _ nodes_nodup _ _ _ tail id s (Settlement.run_settles _ _ _ _ _ _ _ _ Hr) Htail Hs) as [Hlog _].
      eapply Forall_impl; [exact Hlog|]. intros entry Hc.
      destruct (running_cleared _ _ _ _ _ (Some burst_config) _ _ _ Hr Hc) as (txn & fs & now & (k & Hk & Hid & Hd) & Hv & Hfr & He).
      exists k. split; [by eapply cleared_burst|].
      destruct (debit_entry _ _ _ now entry (burst_amount_range k) Hd He) as (H1 & H2 & H3). by rewrite H3.
    + exact (later_replica _ _ _ _ nodes_nodup _ (Some burst_config) Q _ (burst_seed_ledger ids)
        (burst_ledger_step ids Hinj) _ tail id s Hr Htail Hs).
Qed.
End script.

(** 45 of the 50 fraud-shaped transactions are flagged; of the 65 proposed ones
    the ledger accepts the 60 normal ones, and refuses the five debits of the
    victim that came before the velocity rule fired. *)
Lemma fraud_burst_outcome_witness :
  ScriptDemo.burst_summary =
    ([[FLit "Settled clean:   "; FInt 65];
      [FLit "Flagged fraud:   "; FInt 45; FLit "  (of ~"; FInt 50; FLit " fraud-shaped transactions injected)"]],
     Some (65, DFin 4925 0)) ∧
  ∃ r w, ScriptDemo.burst = Ok (r, w) ∧
    ∀ tail id s, Settlement.silent tail →
      Cluster.slots (RaftCluster.cluster (RaftCluster.run election_timeout_min election_timeout_max heartbeat_interval three_nodes tail
        (RaftCluster.shared (Coordinator.raft_cluster (coordinator w))))) !! id = Some s →
      burst_ledger (λ k, stamp_id (ScriptDemo.stamps k)) (Cluster.slot_machine s).
Proof.
  split; [vm_compute; reflexivity|]. unfold ScriptDemo.burst.
  destruct (fraud_burst_outcome ScriptDemo.others_burst (ScriptDemo.clock_for 700) 700 ScriptDemo.meanwhile_burst
    (ScriptDemo.clock_for 700) ScriptDemo.others_burst_silent ScriptDemo.meanwhile_burst_background ScriptDemo.stamps ScriptDemo.boot)
    as (r & w & E & _ & H).
  - apply Nat.ltb_lt. vm_compute. reflexivity.
  - apply ScriptDemo.clock_ends; vm_compute; reflexivity.
  - intros j k _ _ Hjk. unfold ScriptDemo.stamps, ScriptDemo.stamp in Hjk. cbn [stamp_id] in Hjk.
    apply (inj (String.append "txn-")) in Hjk. by apply (inj pretty) in Hjk.
  - exists r, w. split; [exact E|]. intros tail id s Ht Hs. by apply (H tail id s Ht Hs).
Defined.
